(* ===== verification/_CoqProject ===== *)
-Q . S2P
Prelude.v
Wire.v
Env.v
Logic.v
Links.v
Sort.v
ListOps.v
UTHash.v
UTList.v
DList.v
HashTools.v
HashFunctions.v
Scan.v
RWLock.v
Sections.v
Rio.v
World.v
Table.v
Bloom.v
HashSelect.v
Membership.v
Join.v
Handlers.v
Tunnel.v
Departure.v
Races.v
LinkState.v
Heap.v
Graph.v
Forwarding.v
Devices.v
Startup.v
Safety.v
System.v
Serial.v
