(* ===== verification/Prelude.v ===== *)
(** * Verification of the virtual-network proxy (src/)

    ** The program

    A proxy joins the Ethernet networks of several hosts into one.  It reads
    frames from a tap device and sends them, behind a four-byte header, over
    TCP connections to the other proxies; what it receives from them it writes
    to its tap device.  The proxies tell each other which links exist with
    link-state packets, measure the links with probes, and drop a link that was
    not refreshed in time.  Every connection has a reader thread
    ([eth_handler]) and a timer thread ([timeout_handler]), there is one thread
    for the tap device ([tap_handler]), and the main thread accepts
    connections; SIGALRM broadcasts the link state and SIGINT and SIGTERM leave
    the network.  The threads share the membership table, a uthash table of the
    peers, behind a readers-writers lock that prefers writers.

    ** The development

    Prelude      machine integers, the outcomes of a C function and the state
                 monad the code is translated into, shared lemmas, tactics.
    Wire         src/proxy.h, 29-115: the packet layouts as codecs, and loads
                 and stores through cast pointers.
    Env          the operating system: scripted answers of the system calls,
                 the bytes that arrive on descriptors, a trace of the effects.
    Logic        safety triples for the state monad, partial triples for what
                 holds when a pass ends, and their rules.
    Links        doubly linked sequences of pointers, their ends, insertion and
                 removal: what the hash table and the lists have in common.
    Sort         the merge sort of src/utlist.h and src/uthash.h, which is the
                 same code for four kinds of lists: the algorithm over a record
                 of the operations that differ, and its correctness from their
                 laws.
    ListOps      what the list macros promise, as a class, with the macros that
                 iterate and a client that runs sequences of operations.
    UTHash       src/uthash.h: the hash table, with handles, chains, buckets,
                 the doubling of the buckets, and the Jenkins hash; what is
                 shown holds for every hash function.
    UTList       src/utlist.h, 105-165 and 309-498: the singly linked lists, on a
                 store of nodes.
    DList        src/utlist.h, 168-304 and 504-755: the doubly linked and the
                 circular lists.
    HashTools    src/uthash.h: sorting, replacing, clearing and checking.
    HashFunctions  src/uthash.h, 354-591: the other hash functions.
    Scan         the text input of the C library: fgets, sscanf, strtoul.
    RWLock       src/proxy.c, 506-554: the lock, one mutex operation at a time,
                 as an interleaving relation on any number of threads.
    Sections     critical sections under that lock: for any programs of read and
                 write sections, a class, every interleaving of their steps is
                 an execution of whole sections one at a time.
    Rio          src/rio.c: buffered reads and complete writes on non-blocking
                 descriptors.
    World        src/proxy.h, 108-120 and 301-312: the state of the process.
    Table        what the handlers rely on in the membership table, as a class
                 with two instances: the list of World, which the handlers are
                 verified with, and the hash table of UTHash.
    Bloom        src/uthash.h, 94-140: the Bloom filter, a third instance.
    HashSelect   src/uthash.h, 807-847: [HASH_SELECT], with examples.
    Membership   src/proxy.c, 556-631: [add_member] and [remove_member].
    Join         src/proxy.c, 75-298 and src/main.c, 103-123: connecting,
                 accepting and the exchange of link states.
    Handlers     src/proxy.c, 300-504 and src/handlers.c, 3-304: the packet
                 handlers, the threads as iterations of a step, the timer and
                 the departure.
    Tunnel       two proxies: what one reads from its tap device and the other
                 writes to its own.
    Departure    two proxies: one leaves and the other forgets it.
    Races        two threads of one proxy that remove the same member.
    LinkState    src/proxy.c, 341-410 and src/handlers.c, 306-434: the periodic
                 broadcast and the handler of its packets.
    Heap         src/route.c, 317-409: the heap of the unfinished routing code.
    Graph        src/route.c, 7-315: the graph a proxy would learn from
                 link-state records, its queue and its searches.
    Forwarding   src/route.c, 221-255: [prepare_forwarding_table].
    Devices      src/proxy.c, 22-73: the tap device, MAC addresses, [get_port].
    Startup      src/main.c and src/handlers.c, 440-451: the configuration
                 file, the peers it names, the signal handlers, [main].
    Safety       from start-up to every connection, the invariant that the
                 handlers are verified under, with the threads that each
                 member owns.
    System       the passes of all threads as a step relation, and the
                 invariant in every state it reaches.
    Serial       the write and read sections of the handlers in small steps, an
                 instance of the class of Sections, interleaved.

    A C function is a definition of the same name.  It runs in the monad [M St]
    on the part of the state it touches and ends with an [outcome]: a value,
    [exit], blocked for ever on a mutex, still waiting in a system call,
    terminated by a cancellation, or undefined behaviour (an access through
    NULL, through a dangling pointer or outside of an array).  The state that
    was reached is kept in every case.  The environment holds the answers the
    kernel will give, and theorems quantify over it.

    ** The theorems

    - The lock: mutual exclusion of writers, progress, preference of the writers
      that are past [r], for any number of threads and every interleaving
      (RWLock); sections under it are atomic, none waits for ever unless a call
      inside of a section never returns, and the functions that use it, with
      every access a step, act as if they ran one after another (Sections,
      Serial).
    - Input and output: what [rio_readnb] delivers and [rio_write] sends for
      every behaviour of the kernel, and that they finish when it co-operates
      (Rio).
    - Data: the hash table implements the list of the model, for every hash
      function (Table) and with a Bloom filter (Bloom), for every sequence of
      operations in which at most 26 additions find nine elements or more, a
      bound that rules out the overflow of the number of buckets; the list macros
      implement lists, for every sequence of them (UTList, DList).  Sorting a
      list or a table puts it in order, stably (Sort, HashTools); the check of a
      table accepts exactly the consistent ones (HashTools); hash values have 32
      bits (HashFunctions).
    - Membership: the table stays well-formed, joining and leaving do what they
      say, and both halves of the join exchange agree (Membership, Join).
    - Forwarding: a broadcast frame from the tap device goes once to every
      member, any other to the member whose address is found at the wrong place
      of the frame, or to nobody; a packet from a member goes to the tap device, and no failing link leaves
      the lock taken or the table broken (Handlers).  From end to end, the
      frames that go to a member appear in order and unchanged on its network
      (Tunnel), and a proxy that leaves is removed by its neighbours
      (Departure).
    - Link state: the broadcast is the specified packet, fits its buffer up to
      a number of members, reaches everyone, and refreshes the timestamp of the
      sender at those who know every proxy it names; a proxy that is not known
      is undefined behaviour, with the lock held (LinkState); the timer removes exactly the peers
      that were not refreshed (Handlers).
    - Start-up: a configuration file does what its directives say, the loop
      over its lines ends for every file, every peer it names is connected
      to, by its own name and port (Startup); addresses are read back as the
      kernel prints them (Devices); [main], on a host with the devices and with
      a port in the file, establishes the invariant of the handlers and every
      connection keeps it, whatever the system and the peers do (Safety).
    - The running program: every sequence of passes of the threads of the
      members, of the tap device, of the server and of the periodic broadcast
      keeps the invariant, whatever is received; no thread that was not
      cancelled outlives its peer (System).
    - Routing: a record is learnt as an edge of an abstract graph, freeing
      frees everything once (Graph); no search succeeds.
    - Errors: the theorems whose doc comments speak of a mistake describe what
      the code does where this differs from its purpose.

    ** Loops, fuel and bounds

    Loops whose length the environment decides recurse on the scripted answers
    they consume ([retry_loop], [rio_fill], [rio_write_loop]); loops over the
    table recurse on its list.  Fuel is used where the recursion is on data:
    [rio_readnb] gets the number of bytes and one, since every pass reads a
    byte or ends; [upheap] and [downheap] the size of the heap and one, since
    the index moves at every pass; the chains of the hash table the number of
    elements (and one in [fsck_chain], which is shown to end on any heap), and the
    lists the number of nodes, since a longer chain runs in a circle; a sort has
    32 passes, which are enough for its counters and for lists of up to 2^30
    elements, and the loops inside a pass have the sizes of the runs; [read_config] the number of bytes of the file and one,
    since every pass reads a line; [timeout_loop] one pass for every scripted
    wait and one.  That the fuel is enough is part of the
    theorems about these functions.  The endless loops of the threads are
    given a number of passes, and the theorems are about one pass from any
    state that satisfies the invariant, or about sequences of passes (System).

    Integers are [Z] with the conversions of C written out.  The width of
    [long], [size_t] and the fields of [struct timespec] is a parameter, the
    class [ABI], because the repository builds with a plain gcc and the
    packets contain these types: theorems hold for both data models unless
    they name one.

    ** Assumptions and omissions

    - The machine is little-endian, and [float] arithmetic is done in single
      precision ([FLT_EVAL_METHOD] is 0).
    - [malloc] succeeds.  System calls return documented values.
    - In most files a handler runs alone.  For what it does under the lock this
      is shown to be no restriction (Sections, Serial: [add_member], the section
      of the timer, the forwarding by [tap_handler], the lookup of [Leave] and
      the count for a join packet).  [remove_member], which goes on after its
      [writeEnd], is studied against the timer in Races; [Quit] and
      [Link_State] call functions that take the lock again.  What threads
      do to their own peer and their own descriptors outside of the lock is not
      interleaved.
      Cancellation is tested where the code calls [pthread_testcancel], not in
      the system calls that are cancellation points too.
    - A signal handler runs to its end; it does not interrupt a handler that
      holds the lock.
    - The steps of System are passes of threads whose peer is in the table.
      [add_member] also starts threads for a peer whose address is already
      there; their first failure empties the table.
    - Printing, and the static variables of functions that run in one thread
      only, are left out.
    - The hash tables of the graph are lists in application order, which is
      what Table shows of uthash for the membership table.
    - A conversion of sscanf whose result does not fit its object is undefined,
      as in the C standard, and so is that of a [float] which does not fit an
      unsigned integer; files are read without errors.
    - Not modelled: what the searches and [prepare_forwarding_table] of
      src/route.c do after the access that is undefined in every execution that
      reaches it, for which nothing is defined; the names that uthash gives to
      its macros at the usual types of keys ([HASH_FIND_STR] and the like);
      [HASH_OVERHEAD], which computes a size, and the trace [HASH_EMIT_KEY]; the
      casts of compilers without [decltype]; the big-endian variants of
      [HASH_MUR]; the masks of the signals. *)

From stdpp Require Export prelude list gmap.
From coqutil Require Export Byte.
From coqutil Require Export Word.LittleEndianList.
From Stdlib Require Export ZArith Lia.

Export LittleEndianList.

#[global] Open Scope Z_scope.

(** ** Machine integers

    Unsigned C integers are [Z] values in range, with the wrap-around of
    conversions and arithmetic written out. *)

(** Conversion to an unsigned type of [n] bits. *)
Definition uwrap (n : Z) (z : Z) : Z := z mod 2 ^ n.

(** Conversion to a signed type of [n] bits (two's complement, as gcc
    defines it). *)
Definition swrap (n : Z) (z : Z) : Z :=
  (z + 2 ^ (n - 1)) mod 2 ^ n - 2 ^ (n - 1).

Definition u16 (z : Z) : Z := uwrap 16 z.
Definition u32 (z : Z) : Z := uwrap 32 z.

(** Byte-order reversal of an [n]-byte integer. *)
Definition bswap (n : nat) (z : Z) : Z := le_combine (rev (le_split n z)).

(** ** The C data model

    The repository is built with a plain [gcc]; the width of [long] (and so
    of [time_t], [struct timespec] and [size_t]) is that of the host. *)
Inductive data_model := ILP32 | LP64.

Class ABI := abi : data_model.

Definition long_size `{ABI} : nat :=
  match abi with ILP32 => 4%nat | LP64 => 8%nat end.
Definition long_bits `{ABI} : Z := 8 * Z.of_nat long_size.

(** Conversion to [long], and to [size_t] / [unsigned long]. *)
Definition to_long `{ABI} (z : Z) : Z := swrap long_bits z.
Definition to_size `{ABI} (z : Z) : Z := uwrap long_bits z.

(** ** Outcomes and the state monad

    A C function either returns, or calls [exit], or never returns because it
    blocks on a mutex, or is still waiting in a system call when the scripted
    answers of the environment end, or is terminated by a cancellation, or
    runs into undefined behaviour (a NULL, dangling or out-of-bounds access).
    The state reached is kept in every case. *)
Inductive outcome (A : Type) : Type :=
| Ret (a : A)
| Exit (status : Z)
| Blocked
| Starved
| Cancelled
| Undefined.
Arguments Ret {A} a.
Arguments Exit {A} status.
Arguments Blocked {A}.
Arguments Starved {A}.
Arguments Cancelled {A}.
Arguments Undefined {A}.

Definition M (St A : Type) : Type := St -> outcome A * St.

Definition ret {St A} (a : A) : M St A := fun s => (Ret a, s).
Definition fail {St A} (o : outcome A) : M St A := fun s => (o, s).

(** An outcome that is not a value, at another type. *)
Definition no_value {A B} (o : outcome A) : outcome B :=
  match o with
  | Ret _ | Undefined => Undefined
  | Exit c => Exit c
  | Blocked => Blocked
  | Starved => Starved
  | Cancelled => Cancelled
  end.

Definition bind {St A B} (m : M St A) (k : A -> M St B) : M St B :=
  fun s =>
    match m s with
    | (Ret a, s') => k a s'
    | (o, s') => (no_value o, s')
    end.
Definition gets {St A} (f : St -> A) : M St A := fun s => (Ret (f s), s).
Definition modify {St} (f : St -> St) : M St unit := fun s => (Ret tt, f s).

(** An access that is undefined behaviour when it yields nothing. *)
Definition deref {St A} (o : option A) : M St A :=
  match o with Some a => ret a | None => fail Undefined end.

(** Running a component's operation on the part of the state it owns. *)
Definition zoom {St T A} (view : St -> T) (upd : T -> St -> St) (m : M T A)
  : M St A :=
  fun s => let '(o, t) := m (view s) in (o, upd t s).

Declare Scope proxy_scope.
Delimit Scope proxy_scope with proxy.
Notation "'let*' p := m 'in' k" := (bind m (fun p => k))
  (at level 10, p pattern, m at level 200, k at level 200,
   format "'[v' 'let*'  p  :=  m  'in' '/' k ']'") : proxy_scope.
Notation "m ;;; k" := (bind m (fun _ => k))
  (at level 199, right associativity) : proxy_scope.
#[global] Open Scope proxy_scope.

(** ** Shared instances and hint databases *)

#[global] Instance byte_eq_dec : EqDecision Init.Byte.byte := Byte.byte_eq_dec.

Create HintDb proxy.
Create HintDb wire.

(** ** Lemmas on machine integers *)

Lemma uwrap_small n z : 0 <= z < 2 ^ n -> uwrap n z = z.
Proof. apply Z.mod_small. Qed.

Lemma uwrap_range n z : 0 <= n -> 0 <= uwrap n z < 2 ^ n.
Proof. intros. apply Z.mod_pos_bound. lia. Qed.

Lemma uwrap_uwrap n z : uwrap n (uwrap n z) = uwrap n z.
Proof. unfold uwrap. apply Zmod_mod. Qed.

Lemma swrap_small n z :
  0 < n -> - 2 ^ (n - 1) <= z < 2 ^ (n - 1) -> swrap n z = z.
Proof.
  intros Hn Hz. unfold swrap.
  assert (2 ^ n = 2 * 2 ^ (n - 1)) as E.
  { rewrite <- Z.pow_succ_r by lia. f_equal. lia. }
  rewrite Z.mod_small; lia.
Qed.

Lemma swrap_range n z :
  0 < n -> - 2 ^ (n - 1) <= swrap n z < 2 ^ (n - 1).
Proof.
  intros Hn. unfold swrap.
  assert (2 ^ n = 2 * 2 ^ (n - 1)) as E.
  { rewrite <- Z.pow_succ_r by lia. f_equal. lia. }
  pose proof (Z.mod_pos_bound (z + 2 ^ (n - 1)) (2 ^ n)). lia.
Qed.

(** A signed conversion only depends on the unsigned one. *)
Lemma swrap_uwrap n z : 0 < n -> swrap n (uwrap n z) = swrap n z.
Proof.
  intros Hn. unfold swrap, uwrap. f_equal.
  rewrite Z.add_mod_idemp_l; lia.
Qed.

Lemma bswap_involutive n z :
  bswap n (bswap n z) = z mod 2 ^ (Z.of_nat n * 8).
Proof.
  unfold bswap.
  rewrite (split_le_combine' (rev (le_split n z)) n).
  - rewrite rev_involutive. apply le_combine_split.
  - rewrite length_rev. apply length_le_split.
Qed.

Lemma bswap_range n z : 0 <= bswap n z < 2 ^ (Z.of_nat n * 8).
Proof.
  unfold bswap. pose proof (le_combine_bound (rev (le_split n z))) as H.
  rewrite length_rev, length_le_split in H.
  replace (Z.of_nat n * 8) with (8 * Z.of_nat n) by lia. exact H.
Qed.

(** ** Lemmas on the monad *)

Lemma bind_ret_l {St A B} (m : M St A) (k : A -> M St B) s a s' :
  m s = (Ret a, s') -> bind m k s = k a s'.
Proof. unfold bind. by intros ->. Qed.

Lemma bind_Ret_inv {St A B} (m : M St A) (k : A -> M St B) s b s' :
  bind m k s = (Ret b, s') ->
  exists a s1, m s = (Ret a, s1) /\ k a s1 = (Ret b, s').
Proof.
  unfold bind. destruct (m s) as [[a| | | | |] s1]; try discriminate. eauto.
Qed.

Lemma bind_ext {St A B} (m : M St A) (k1 k2 : A -> M St B) s :
  (forall a s', k1 a s' = k2 a s') -> bind m k1 s = bind m k2 s.
Proof. intros E. unfold bind. by destruct (m s) as [[a| | | | |] s']. Qed.

Lemma bind_ext_l {St A B} (m1 m2 : M St A) (k : A -> M St B) s :
  m1 s = m2 s -> bind m1 k s = bind m2 k s.
Proof. unfold bind. by intros ->. Qed.

Lemma bind_assoc {St A B C} (m : M St A) (k1 : A -> M St B) (k2 : B -> M St C) s :
  bind (bind m k1) k2 s = bind m (fun a => bind (k1 a) k2) s.
Proof. unfold bind. by destruct (m s) as [[a| | | | |] s']. Qed.

Lemma deref_Some {St A} (a : A) (s : St) : deref (Some a) s = (Ret a, s).
Proof. reflexivity. Qed.

(** ** Lemmas on lists *)

Lemma take_drop_at {A} (l1 l2 : list A) n :
  n = length l1 -> take n (l1 ++ l2) = l1 /\ drop n (l1 ++ l2) = l2.
Proof. intros ->. split; [apply take_app_length | apply drop_app_length]. Qed.

(** ** Tactics *)

(** Run one monadic step whose result is known by computation or by a
    hypothesis. *)
Ltac mstep := erewrite bind_ret_l; [| first [eassumption | reflexivity]].

(** Split every boolean or option test of the goal. *)
Ltac break_match :=
  match goal with
  | |- context [match ?x with _ => _ end] => destruct x eqn:?
  end.
