(* ===== verification/Wire.v ===== *)
(** * Packet and structure layouts (src/proxy.h, 29-115)

    The structures the proxies exchange, as records of the field values, and
    their images in memory and on the wire.  The host is little-endian (x86),
    so an integer field holds the value the CPU reads, and [htons], [htonl]
    and their inverses reverse bytes.  A codec gives the size of a type and
    its conversions to and from bytes; [load] and [store] are the accesses
    through a cast pointer, [(T * )ptr], with their bounds. *)

From Stdlib Require Export SpecFloat.
From S2P Require Export Prelude.

(** ** Codecs *)

Record codec (A : Type) := Codec {
  sizeof : nat;
  enc : A -> list Init.Byte.byte;
  dec : list Init.Byte.byte -> A;
  wf : A -> Prop
}.
Arguments Codec {A}.
Arguments sizeof {A}.
Arguments enc {A}.
Arguments dec {A}.
Arguments wf {A}.

Abbreviation bytes := (list Init.Byte.byte).

(** An unsigned integer of [n] bytes. *)
Definition c_uint (n : nat) : codec Z :=
  Codec n (le_split n) (fun l => le_combine (take n l))
    (fun z => 0 <= z < 2 ^ (8 * Z.of_nat n)).

(** A signed [long]. *)
Definition c_long `{ABI} : codec Z :=
  Codec long_size (le_split long_size)
    (fun l => to_long (le_combine (take long_size l)))
    (fun z => - 2 ^ (long_bits - 1) <= z < 2 ^ (long_bits - 1)).

Definition c_pair {A B} (ca : codec A) (cb : codec B) : codec (A * B) :=
  Codec (sizeof ca + sizeof cb)
    (fun x => enc ca x.1 ++ enc cb x.2)
    (fun l => (dec ca l, dec cb (drop (sizeof ca) l)))
    (fun x => wf ca x.1 /\ wf cb x.2).

(** A structure, by the tuple of its fields in declaration order: every
    structure sent on the wire is packed. *)
Definition c_struct {T A} (fields : A -> T) (make : T -> A) (c : codec T)
  : codec A :=
  Codec (sizeof c) (fun a => enc c (fields a)) (fun l => make (dec c l))
    (fun a => wf c (fields a)).

(** [*(T * )(mem + off)], read and written. *)
Definition load {A} (c : codec A) (mem : bytes) (off : nat) : option A :=
  if (off + sizeof c <=? length mem)%nat then Some (dec c (drop off mem))
  else None.

Definition store {A} (c : codec A) (mem : bytes) (off : nat) (a : A)
  : option bytes :=
  if (off + sizeof c <=? length mem)%nat
  then Some (take off mem ++ enc c a ++ drop (off + sizeof c) mem)
  else None.

(** ** Byte order *)

Definition htons (z : Z) : Z := bswap 2 z.
Definition ntohs (z : Z) : Z := bswap 2 z.
Definition htonl (z : Z) : Z := bswap 4 z.
Definition ntohl (z : Z) : Z := bswap 4 z.

(** ** Constants (proxy.h, 29-58) *)

Definition ETH_ALEN : nat := 6.
Definition ETH_FRAME_LEN : Z := 1514.
Definition PROXY_HLEN : Z := 4.
Definition DATA : Z := 0xABCD.
Definition LEAVE : Z := 0xAB01.
Definition QUIT : Z := 0xAB12.
Definition LINK_STATE : Z := 0xABAC.
Definition RTT_PROBE_REQUEST : Z := 0xAB34.
Definition RTT_PROBE_RESPONSE : Z := 0xAB35.
Definition PROXY_PUBLIC_KEY : Z := 0xAB21.
Definition SIGNED_DATA : Z := 0xABC1.
Definition PROXY_SECRET_KEY : Z := 0xAB2.
Definition ENCRYPTED_DATA : Z := 0xABC2.
Definition ENCRYPTED_LINK_STATE : Z := 0xABAB.
Definition SIGNED_LINK_STATE : Z := 0xABAD.
Definition BANDWIDTH_PROBE_REQUEST : Z := 0xAB45.
Definition BANDWIDTH_PROBE_RESPONSE : Z := 0xAB46.
Definition QUIT_LEN : Z := 20.

(** ** Single-precision floats

    A [float] is a [spec_float] of precision 24; its image is the IEEE
    binary32 word. *)
Definition float_prec : Z := 24.
Definition float_emax : Z := 128.

Definition float_of_int (z : Z) : spec_float :=
  binary_normalize float_prec float_emax z 0 false.

Definition b32_bits (f : spec_float) : Z :=
  match f with
  | S754_zero s => Z.b2z s * 2 ^ 31
  | S754_infinity s => Z.b2z s * 2 ^ 31 + 255 * 2 ^ 23
  | S754_nan => 255 * 2 ^ 23 + 2 ^ 22
  | S754_finite s m e =>
      if Z.pos m <? 2 ^ 23 then Z.b2z s * 2 ^ 31 + Z.pos m
      else Z.b2z s * 2 ^ 31 + (e + 150) * 2 ^ 23 + (Z.pos m - 2 ^ 23)
  end.

Definition b32_of_bits (z : Z) : spec_float :=
  let s := Z.testbit z 31 in
  let e := (z / 2 ^ 23) mod 256 in
  let m := z mod 2 ^ 23 in
  if e =? 255 then (if m =? 0 then S754_infinity s else S754_nan)
  else if e =? 0 then
    match m with Z.pos p => S754_finite s p (-149) | _ => S754_zero s end
  else
    match m + 2 ^ 23 with
    | Z.pos p => S754_finite s p (e - 150)
    | _ => S754_zero s
    end.

(** Conversion of a [float] to an unsigned 32-bit integer: the fraction is
    dropped; nothing is defined when what is left does not fit. *)
Definition uint_of_float (f : spec_float) : option Z :=
  match f with
  | S754_zero _ => Some 0
  | S754_finite s m e =>
      let a := if 0 <=? e then Z.pos m * 2 ^ e else Z.pos m / 2 ^ (- e) in
      let v := if s then - a else a in
      if (0 <=? v) && (v <? 2 ^ 32) then Some v else None
  | _ => None
  end.

Definition c_float : codec spec_float :=
  Codec 4 (fun f => le_split 4 (b32_bits f))
    (fun l => b32_of_bits (le_combine (take 4 l)))
    (fun f => 0 <= b32_bits f < 2 ^ 32 /\ b32_of_bits (b32_bits f) = f).

(** ** Structures *)

(** [unsigned char[ETH_ALEN]] *)
Record mac := Mac {
  mac0 : Init.Byte.byte; mac1 : Init.Byte.byte; mac2 : Init.Byte.byte;
  mac3 : Init.Byte.byte; mac4 : Init.Byte.byte; mac5 : Init.Byte.byte
}.

#[global] Instance mac_eq_dec : EqDecision mac.
Proof. solve_decision. Defined.

Definition mac_bytes (m : mac) : bytes :=
  [mac0 m; mac1 m; mac2 m; mac3 m; mac4 m; mac5 m].

Definition mac_of_bytes (l : bytes) : mac :=
  let at_ i := nth i l Init.Byte.x00 in
  Mac (at_ 0%nat) (at_ 1%nat) (at_ 2%nat) (at_ 3%nat) (at_ 4%nat) (at_ 5%nat).

Definition c_mac : codec mac := Codec ETH_ALEN mac_bytes mac_of_bytes (fun _ => True).

Definition zero_mac : mac := mac_of_bytes [].
(** [BROADCAST_ADDR] (proxy.c, 19-20) *)
Definition BROADCAST_ADDR : mac :=
  Mac Init.Byte.xff Init.Byte.xff Init.Byte.xff Init.Byte.xff Init.Byte.xff
      Init.Byte.xff.

(** [struct timespec] *)
Record timespec := Timespec { tv_sec : Z; tv_nsec : Z }.

#[global] Instance timespec_eq_dec : EqDecision timespec.
Proof. solve_decision. Defined.

Definition c_timespec `{ABI} : codec timespec :=
  c_struct (fun t => (tv_sec t, tv_nsec t)) (fun '(a, b) => Timespec a b)
    (c_pair c_long c_long).

(** [proxy_header] (60-63) *)
Record proxy_header := ProxyHeader { hdr_type : Z; hdr_length : Z }.

Definition c_proxy_header : codec proxy_header :=
  c_struct (fun h => (hdr_type h, hdr_length h)) (fun '(a, b) => ProxyHeader a b)
    (c_pair (c_uint 2) (c_uint 2)).

(** [leave] (65-70) *)
Record leave := Leave_ {
  localIP : Z; localListenPort : Z; localMAC : mac; leave_ID : timespec
}.

Definition c_leave `{ABI} : codec leave :=
  c_struct
    (fun l => (localIP l, (localListenPort l, (localMAC l, leave_ID l))))
    (fun '(a, (b, (c, d))) => Leave_ a b c d)
    (c_pair (c_uint 4) (c_pair (c_uint 2) (c_pair c_mac c_timespec))).

(** [leave_packet] (72-75) *)
Record leave_packet := LeavePacket { lp_prxyhdr : proxy_header; lv : leave }.

Definition c_leave_packet `{ABI} : codec leave_packet :=
  c_struct (fun p => (lp_prxyhdr p, lv p)) (fun '(a, b) => LeavePacket a b)
    (c_pair c_proxy_header c_leave).

(** [link_state] (77-82) *)
Record link_state := LinkState {
  IPaddr : Z; listenPort : Z; tapMAC : mac; ethMAC : mac
}.

#[global] Instance link_state_eq_dec : EqDecision link_state.
Proof. solve_decision. Defined.

Definition c_link_state : codec link_state :=
  c_struct
    (fun l => (IPaddr l, (listenPort l, (tapMAC l, ethMAC l))))
    (fun '(a, (b, (c, d))) => LinkState a b c d)
    (c_pair (c_uint 4) (c_pair (c_uint 2) (c_pair c_mac c_mac))).

Definition zero_link_state : link_state := LinkState 0 0 zero_mac zero_mac.

(** [link_state_source] (89-92) *)
Record link_state_source := LinkStateSource { src_ls : link_state; numNbrs : Z }.

Definition c_link_state_source : codec link_state_source :=
  c_struct (fun s => (src_ls s, numNbrs s)) (fun '(a, b) => LinkStateSource a b)
    (c_pair c_link_state (c_uint 2)).

(** [link_state_record] (94-99) *)
Record link_state_record := LinkStateRecord {
  ID : timespec; proxy1 : link_state; proxy2 : link_state;
  linkWeight : spec_float
}.

Definition c_link_state_record `{ABI} : codec link_state_record :=
  c_struct
    (fun x => (ID x, (proxy1 x, (proxy2 x, linkWeight x))))
    (fun '(a, (b, (c, d))) => LinkStateRecord a b c d)
    (c_pair c_timespec (c_pair c_link_state (c_pair c_link_state c_float))).

(** [initial_join_packet] (101-106) *)
Record initial_join_packet := InitialJoinPacket {
  ij_prxyhdr : proxy_header; numNbrs1 : Z; ij_ls : link_state; numNbrs2 : Z
}.

Definition c_initial_join_packet : codec initial_join_packet :=
  c_struct
    (fun p => (ij_prxyhdr p, (numNbrs1 p, (ij_ls p, numNbrs2 p))))
    (fun '(a, (b, (c, d))) => InitialJoinPacket a b c d)
    (c_pair c_proxy_header (c_pair (c_uint 2) (c_pair c_link_state (c_uint 2)))).

(** [probe_req] (84-87) is not packed: [ID] is aligned to [long], after
    [long_size - 4] bytes of padding whose contents are indeterminate. *)
Record probe_req := ProbeReq { pr_prxyhdr : proxy_header; pr_ID : timespec }.

Definition enc_probe_req `{ABI} (padding : bytes) (p : probe_req) : bytes :=
  enc c_proxy_header (pr_prxyhdr p)
  ++ take (long_size - 4) (padding ++ replicate 4 Init.Byte.x00)
  ++ enc c_timespec (pr_ID p).

(** ** Laws of the codecs *)

(** What a codec promises to its users: encodings have the size of the type,
    and decoding an encoding, whatever follows it, gives the value back. *)
Class Lawful {A} (c : codec A) : Prop := {
  enc_length : forall a, length (enc c a) = sizeof c;
  dec_enc : forall a rest, wf c a -> dec c (enc c a ++ rest) = a
}.

Lemma take_enc n z rest : take n (le_split n z ++ rest) = le_split n z.
Proof. rewrite take_app_le by (rewrite length_le_split; lia).
  by rewrite take_ge by (rewrite length_le_split; lia). Qed.

#[export] Instance c_uint_lawful n : Lawful (c_uint n).
Proof.
  split; simpl.
  - intros. apply length_le_split.
  - intros z rest Hz. rewrite take_enc, le_combine_split.
    apply Z.mod_small. by rewrite Z.mul_comm.
Qed.

Lemma long_bits_pos `{ABI} : 0 < long_bits.
Proof. unfold long_bits, long_size. destruct abi; simpl; lia. Qed.

#[export] Instance c_long_lawful `{ABI} : Lawful c_long.
Proof.
  split; simpl.
  - intros. apply length_le_split.
  - intros z rest Hz. rewrite take_enc, le_combine_split. unfold to_long.
    replace (Z.of_nat long_size * 8) with long_bits by (unfold long_bits; lia).
    change (z mod 2 ^ long_bits) with (uwrap long_bits z).
    rewrite swrap_uwrap by apply long_bits_pos.
    apply swrap_small; [apply long_bits_pos|done].
Qed.

#[export] Instance c_pair_lawful {A B} (ca : codec A) (cb : codec B) :
  Lawful ca -> Lawful cb -> Lawful (c_pair ca cb).
Proof.
  intros Ha Hb. split; simpl.
  - intros [a b]; simpl. rewrite length_app. by rewrite !enc_length.
  - intros [a b] rest [Hwa Hwb]; simpl in *.
    rewrite <- app_assoc, dec_enc by done. f_equal.
    rewrite drop_app_ge by (by rewrite enc_length).
    rewrite enc_length, Nat.sub_diag. by apply dec_enc.
Qed.

Lemma c_struct_lawful {T A} (f : A -> T) (g : T -> A) (c : codec T) :
  (forall a, g (f a) = a) -> Lawful c -> Lawful (c_struct f g c).
Proof.
  intros Hgf Hc. split; simpl.
  - intros. apply enc_length.
  - intros a rest Hw. by rewrite dec_enc.
Qed.

#[export] Instance c_mac_lawful : Lawful c_mac.
Proof. split; [done|]. by intros [] rest _. Qed.

#[export] Instance c_float_lawful : Lawful c_float.
Proof.
  split; [done|]. intros f rest [Hr Hc]. cbn [c_float enc dec].
  rewrite take_enc, le_combine_split, Z.mod_small; done.
Qed.

Ltac solve_lawful := apply c_struct_lawful; [by intros []|apply _].

#[export] Instance c_timespec_lawful `{ABI} : Lawful c_timespec.
Proof. solve_lawful. Qed.
#[export] Instance c_proxy_header_lawful : Lawful c_proxy_header.
Proof. solve_lawful. Qed.
#[export] Instance c_leave_lawful `{ABI} : Lawful c_leave.
Proof. solve_lawful. Qed.
#[export] Instance c_leave_packet_lawful `{ABI} : Lawful c_leave_packet.
Proof. solve_lawful. Qed.
#[export] Instance c_link_state_lawful : Lawful c_link_state.
Proof. solve_lawful. Qed.
#[export] Instance c_link_state_source_lawful : Lawful c_link_state_source.
Proof. solve_lawful. Qed.
#[export] Instance c_link_state_record_lawful `{ABI} : Lawful c_link_state_record.
Proof. solve_lawful. Qed.
#[export] Instance c_initial_join_packet_lawful : Lawful c_initial_join_packet.
Proof. solve_lawful. Qed.

(** ** Memory accesses through cast pointers *)

Section Access.
Context {A : Type} (c : codec A) `{Lc : !Lawful c}.

Lemma load_length mem off a :
  load c mem off = Some a -> (off + sizeof c <= length mem)%nat.
Proof using Type. unfold load. case_match; [|done]. by apply Nat.leb_le in H. Qed.

Lemma load_total mem off :
  (off + sizeof c <= length mem)%nat ->
  load c mem off = Some (dec c (drop off mem)).
Proof using Type. intros H. unfold load. by rewrite (proj2 (Nat.leb_le _ _) H). Qed.

Lemma load_app mem1 mem2 a :
  wf c a -> load c (mem1 ++ enc c a ++ mem2) (length mem1) = Some a.
Proof using Lc.
  intros Hw. rewrite load_total.
  - by rewrite drop_app_length, dec_enc.
  - rewrite !length_app, enc_length. lia.
Qed.

Lemma load_app_at mem1 mem2 a off :
  wf c a -> off = length mem1 -> load c (mem1 ++ enc c a ++ mem2) off = Some a.
Proof using Lc. intros ? ->. by apply load_app. Qed.

(** Reading a field past a prefix is reading it in the rest. *)
Lemma load_skip mem1 mem2 off :
  (length mem1 <= off)%nat ->
  load c (mem1 ++ mem2) off = load c mem2 (off - length mem1).
Proof using Type.
  intros H. unfold load. rewrite length_app, drop_app_ge by done.
  destruct (Nat.leb_spec (off + sizeof c) (length mem1 + length mem2)),
    (Nat.leb_spec (off - length mem1 + sizeof c) (length mem2)); done || lia.
Qed.

Lemma load_0 mem a : wf c a -> load c (enc c a ++ mem) 0 = Some a.
Proof using Lc. intros Hw. by apply (load_app []). Qed.

Lemma store_length mem mem' off a :
  store c mem off a = Some mem' -> length mem' = length mem.
Proof using Lc.
  unfold store. destruct (Nat.leb_spec (off + sizeof c) (length mem)); [|done].
  intros [= <-]. rewrite !length_app, enc_length, length_take, length_drop. lia.
Qed.

Lemma load_store mem mem' off a :
  wf c a -> store c mem off a = Some mem' -> load c mem' off = Some a.
Proof using Lc.
  intros Hw. unfold store.
  destruct (Nat.leb_spec (off + sizeof c) (length mem)); [|done].
  intros [= <-]. apply load_app_at; [done|]. rewrite length_take. lia.
Qed.
End Access.

#[export] Hint Resolve load_0 : wire.

Lemma length_mac_bytes m : length (mac_bytes m) = ETH_ALEN.
Proof. done. Qed.

Lemma mac_of_mac_bytes m rest : mac_of_bytes (mac_bytes m ++ rest) = m.
Proof. by destruct m. Qed.

(** ** Byte order *)

Lemma ntohs_htons z : 0 <= z < 2 ^ 16 -> ntohs (htons z) = z.
Proof. intros. unfold ntohs, htons. rewrite bswap_involutive.
  by apply Z.mod_small. Qed.

Lemma ntohl_htonl z : ntohl (htonl z) = u32 z.
Proof. apply bswap_involutive. Qed.

Lemma bswap_mod n z : bswap n (z mod 2 ^ (Z.of_nat n * 8)) = bswap n z.
Proof. unfold bswap. by rewrite <- le_split_mod. Qed.

Lemma to_long_mod32 `{ABI} z : to_long z mod 2 ^ 32 = z mod 2 ^ 32.
Proof.
  unfold to_long, swrap, long_bits, long_size.
  assert (forall a b k, a = b + k * 2 ^ 32 -> a mod 2 ^ 32 = b mod 2 ^ 32) as E.
  { intros a b k ->. apply Z_mod_plus_full. }
  destruct abi; [change (8 * Z.of_nat 4) with 32|change (8 * Z.of_nat 8) with 64].
  - pose proof (Z.div_mod (z + 2 ^ (32 - 1)) (2 ^ 32)).
    apply (E _ _ (- ((z + 2 ^ (32 - 1)) / 2 ^ 32))). lia.
  - pose proof (Z.div_mod (z + 2 ^ (64 - 1)) (2 ^ 64)).
    apply (E _ _ (- (2 ^ 32 * ((z + 2 ^ (64 - 1)) / 2 ^ 64)))). lia.
Qed.

(** A field of a time survives the wire as far as 32 bits go. *)
Lemma ntohl_htonl_long `{ABI} z : ntohl (to_long (htonl z)) = u32 z.
Proof.
  rewrite <- ntohl_htonl. unfold ntohl. rewrite <- (bswap_mod 4 (to_long _)).
  change (Z.of_nat 4 * 8) with 32. rewrite to_long_mod32.
  apply (bswap_mod 4 (htonl z)).
Qed.

Lemma htons_range z : 0 <= htons z < 2 ^ 16.
Proof. apply bswap_range. Qed.

Lemma htonl_range z : 0 <= htonl z < 2 ^ 32.
Proof. apply bswap_range. Qed.

(** ** Examples *)

Definition example_link_state : link_state :=
  LinkState 0x0100007f 0xd007 BROADCAST_ADDR zero_mac.
Definition example_record : link_state_record :=
  LinkStateRecord (Timespec 7 8) example_link_state zero_link_state
    (float_of_int (2 ^ 24)).
Definition example_join : initial_join_packet :=
  InitialJoinPacket (ProxyHeader (htons LINK_STATE) (htons 22)) 1
    example_link_state 1.
Definition example_leave : leave_packet :=
  LeavePacket (ProxyHeader (htons LEAVE) (htons QUIT_LEN))
    (Leave_ 1 2 BROADCAST_ADDR (Timespec 3 4)).

(** Well-formedness of a concrete value is a list of closed comparisons. *)
Ltac solve_wf := vm_compute; repeat split; done.

(** Byte by byte, on a 32-bit host: the type and the length of the header come
    first, in network order, and nothing is aligned. *)
Example join_packet_bytes :
  enc c_initial_join_packet example_join =
    mbind (le_split 1)
      [0xab; 0xac; 0x00; 0x16;
       0x01; 0x00;
       0x7f; 0x00; 0x00; 0x01; 0x07; 0xd0;
       0xff; 0xff; 0xff; 0xff; 0xff; 0xff; 0x00; 0x00; 0x00; 0x00; 0x00; 0x00;
       0x01; 0x00].
Proof. vm_compute. reflexivity. Qed.

Example leave_packet_bytes :
  enc (c_leave_packet (H:=ILP32)) example_leave =
    mbind (le_split 1)
      [0xab; 0x01; 0x00; 0x14;
       0x01; 0x00; 0x00; 0x00; 0x02; 0x00;
       0xff; 0xff; 0xff; 0xff; 0xff; 0xff;
       0x03; 0x00; 0x00; 0x00; 0x04; 0x00; 0x00; 0x00].
Proof. vm_compute. reflexivity. Qed.

Example record_bytes :
  enc (c_link_state_record (H:=ILP32)) example_record =
    mbind (le_split 1)
      ([0x07; 0x00; 0x00; 0x00; 0x08; 0x00; 0x00; 0x00;
        0x7f; 0x00; 0x00; 0x01; 0x07; 0xd0;
        0xff; 0xff; 0xff; 0xff; 0xff; 0xff; 0x00; 0x00; 0x00; 0x00; 0x00; 0x00]
       ++ replicate 18 0x00 ++ [0x00; 0x00; 0x80; 0x4b]).
Proof. vm_compute. reflexivity. Qed.
