(* ===== verification/Env.v ===== *)
(** * The operating system seen by the proxy

    System calls are scripted: for each kind of call the environment holds the
    answers the kernel will give, in order; a call with no answer left is
    still waiting ([Starved]).  Theorems quantify over all scripts.  The bytes
    that arrive on a descriptor are its input stream; the effects of the
    program on its surroundings are recorded, in order, in a trace. *)

From S2P Require Export Prelude Wire.

(** [errno] values (Linux). *)
Definition EINTR : Z := 4.
Definition EAGAIN : Z := 11.
Definition ERANGE : Z := 34.

(** The outcome of a call that only succeeds or fails. *)
Inductive sysret := SysOk | SysErr (e : Z).

(** [read]: at most this many bytes are available, or an error. *)
Inductive read_answer := RdData (n : nat) | RdErr (e : Z).

(** [write]: at most this many bytes are accepted, or an error. *)
Inductive write_answer := WrCount (n : nat) | WrErr (e : Z).

Inductive lock_type := F_RDLCK | F_WRLCK | F_UNLCK.

(** The thread functions given to [pthread_create]. *)
Inductive thread_fn := Timeout_handler | Eth_handler | Tap_handler.

(** Peers are identified by the address of their structure. *)
Definition loc : Type := positive.

Inductive event :=
| EvSetLk (fd : Z) (ty : lock_type)
| EvWrite (fd : Z) (bs : bytes)
| EvSetFl (fd : Z) (flags : Z)
| EvClose (fd : Z)
| EvCreate (f : thread_fn) (p : loc) (tid : Z)
| EvCancel (tid : Z)
| EvFree (p : loc)
| EvAlarm (seconds : Z)
| EvWait (deadline : timespec)
| EvResolve (hostname port : bytes)
| EvConnect (addr port : Z).

Record env := Env {
  errno : Z;
  polls : list sysret;
  setlks : list sysret;
  reads : list read_answer;
  writes : list write_answer;
  results : list Z;
  clocks : list timespec;
  addrs : list Z;
  waits : list (Z * timespec);
  input : gmap Z bytes;
  trace : list event
}.

Definition set_errno (e : Z) (s : env) : env :=
  Env e (polls s) (setlks s) (reads s) (writes s) (results s) (clocks s)
    (addrs s) (waits s) (input s) (trace s).
Definition set_polls (l : list sysret) (s : env) : env :=
  Env (errno s) l (setlks s) (reads s) (writes s) (results s) (clocks s)
    (addrs s) (waits s) (input s) (trace s).
Definition set_setlks (l : list sysret) (s : env) : env :=
  Env (errno s) (polls s) l (reads s) (writes s) (results s) (clocks s)
    (addrs s) (waits s) (input s) (trace s).
Definition set_reads (l : list read_answer) (s : env) : env :=
  Env (errno s) (polls s) (setlks s) l (writes s) (results s) (clocks s)
    (addrs s) (waits s) (input s) (trace s).
Definition set_writes (l : list write_answer) (s : env) : env :=
  Env (errno s) (polls s) (setlks s) (reads s) l (results s) (clocks s)
    (addrs s) (waits s) (input s) (trace s).
Definition set_results (l : list Z) (s : env) : env :=
  Env (errno s) (polls s) (setlks s) (reads s) (writes s) l (clocks s)
    (addrs s) (waits s) (input s) (trace s).
Definition set_clocks (l : list timespec) (s : env) : env :=
  Env (errno s) (polls s) (setlks s) (reads s) (writes s) (results s) l
    (addrs s) (waits s) (input s) (trace s).
Definition set_addrs (l : list Z) (s : env) : env :=
  Env (errno s) (polls s) (setlks s) (reads s) (writes s) (results s) (clocks s)
    l (waits s) (input s) (trace s).
Definition set_waits (l : list (Z * timespec)) (s : env) : env :=
  Env (errno s) (polls s) (setlks s) (reads s) (writes s) (results s) (clocks s)
    (addrs s) l (input s) (trace s).
Definition set_input (m : gmap Z bytes) (s : env) : env :=
  Env (errno s) (polls s) (setlks s) (reads s) (writes s) (results s) (clocks s)
    (addrs s) (waits s) m (trace s).
Definition log (ev : event) (s : env) : env :=
  Env (errno s) (polls s) (setlks s) (reads s) (writes s) (results s) (clocks s)
    (addrs s) (waits s) (input s) (trace s ++ [ev]).

Definition stream (s : env) (fd : Z) : bytes := default [] (input s !! fd).

(** Calls that return an [int] ([fcntl], [socket], [setsockopt], [connect],
    [bind], [listen], [getsockname]): the next answer, or waiting. *)
Definition sys_call : M env Z := fun s =>
  match results s with
  | [] => (Starved, s)
  | v :: l => (Ret v, set_results l s)
  end.

Definition clock_gettime : M env timespec := fun s =>
  match clocks s with
  | [] => (Starved, s)
  | t :: l => (Ret t, set_clocks l s)
  end.

(** The address [getsockname] stores. *)
Definition sys_addr : M env Z := fun s =>
  match addrs s with
  | [] => (Starved, s)
  | a :: l => (Ret a, set_addrs l s)
  end.

(** [pthread_cond_timedwait]: its result, and what the field it waits on (the
    [timestamp] of the peer) holds when it returns. *)
Definition sys_timedwait (deadline : timespec) : M env (Z * timespec) := fun s =>
  match waits s with
  | [] => (Starved, log (EvWait deadline) s)
  | a :: l => (Ret a, set_waits l (log (EvWait deadline) s))
  end.

Definition emit (ev : event) : M env unit := modify (log ev).

(** [getaddrinfo(hostname, port, ...)]: its result.  The address it finds is the
    one that [connectbyname] connects to. *)
Definition getaddrinfo (hostname port : bytes) : M env Z :=
  emit (EvResolve hostname port) ;;; sys_call.

(** [connect] to an address and a port that are given. *)
Definition connect_to (addr port : Z) : M env Z :=
  emit (EvConnect addr port) ;;; sys_call.

(** The bytes written to [fd] so far. *)
Definition written (fd : Z) (t : list event) : bytes :=
  concat (map (fun ev => match ev with
    | EvWrite fd' bs => if fd =? fd' then bs else []
    | _ => []
    end) t).

Lemma written_app fd t1 t2 : written fd (t1 ++ t2) = written fd t1 ++ written fd t2.
Proof. unfold written. by rewrite map_app, concat_app. Qed.

(** The threads that were created for peers: what they run, their argument and
    their identifier. *)
Definition is_start (ev : event) : option (thread_fn * loc * Z) :=
  match ev with
  | EvCreate Tap_handler _ _ => None
  | EvCreate f p t => Some (f, p, t)
  | _ => None
  end.

Definition started (s : env) : list (thread_fn * loc * Z) := omap is_start (trace s).

Lemma started_log ev s :
  started (log ev s) = started s ++ match is_start ev with Some x => [x] | None => [] end.
Proof. unfold started. cbn. rewrite omap_app. cbn. by destruct (is_start ev). Qed.

Lemma started_same s s' : trace s' = trace s -> started s' = started s.
Proof. unfold started. by intros ->. Qed.
