(* ===== verification/Logic.v ===== *)
(** * Safety triples

    A program logic for the monad of the development.  [safe P m Q]: started in
    a state that satisfies [P], the computation [m] gives a value and a state
    that satisfy [Q], or exits, or waits for the system; it is never undefined,
    blocked for ever or cancelled. *)

From S2P Require Export Env.

Definition safe {St A} (P : St -> Prop) (m : M St A) (Q : A -> St -> Prop) : Prop :=
  forall s, P s ->
    match m s with
    | (Ret a, s') => Q a s'
    | (Exit _, _) | (Starved, _) => True
    | _ => False
    end.

Section Rules.
Context {St : Type}.
Implicit Types P : St -> Prop.

Lemma safe_ret {A} P (a : A) Q : (forall s, P s -> Q a s) -> safe P (ret a) Q.
Proof. intros H s. apply H. Qed.

Lemma safe_exit {A} P c (Q : A -> St -> Prop) : safe P (fail (Exit c)) Q.
Proof. by intros s _. Qed.

Lemma safe_starved {A} P (Q : A -> St -> Prop) : safe P (fail Starved) Q.
Proof. by intros s _. Qed.

Lemma safe_bind {A B} P (m : M St A) (k : A -> M St B) R Q :
  safe P m R -> (forall a, safe (R a) (k a) Q) -> safe P (bind m k) Q.
Proof.
  intros Hm Hk s Hs. specialize (Hm s Hs). unfold bind.
  destruct (m s) as [[a| | | | |] s']; try done. by apply Hk.
Qed.

(** A step that keeps the precondition. *)
Lemma safe_seq {A B} P (m : M St A) (k : A -> M St B) Q :
  safe P m (fun _ => P) -> (forall a, safe P (k a) Q) -> safe P (bind m k) Q.
Proof. apply safe_bind. Qed.

Lemma safe_conseq {A} P P' (m : M St A) (Q Q' : A -> St -> Prop) :
  safe P' m Q' -> (forall s, P s -> P' s) -> (forall a s, Q' a s -> Q a s) -> safe P m Q.
Proof.
  intros Hm HP HQ s Hs. specialize (Hm s (HP s Hs)).
  destruct (m s) as [[a| | | | |] s']; try done. by apply HQ.
Qed.

Lemma safe_gets {A} P (f : St -> A) Q : (forall s, P s -> Q (f s) s) -> safe P (gets f) Q.
Proof. intros H s. apply H. Qed.

Lemma safe_modify P f (Q : unit -> St -> Prop) :
  (forall s, P s -> Q tt (f s)) -> safe P (modify f) Q.
Proof. intros H s. apply H. Qed.

(** A part of the precondition that does not depend on the state. *)
Lemma safe_pure {A} (phi : Prop) P (m : M St A) Q :
  (phi -> safe P m Q) -> safe (fun s => phi /\ P s) m Q.
Proof. intros H s [Hphi Hs]. by apply (H Hphi s). Qed.

(** A computation that runs to a known value. *)
Lemma safe_run {A} P (m : M St A) Q :
  (forall s, P s -> exists a s', m s = (Ret a, s') /\ Q a s') -> safe P m Q.
Proof. intros H s Hs. by destruct (H s Hs) as (a & s' & -> & HQ). Qed.

End Rules.

(** ** Partial triples

    [partial P m Q C]: what is known when [m] gives a value, and when the thread
    is cancelled in it; nothing is claimed of the other outcomes. *)

Definition partial {St A} (P : St -> Prop) (m : M St A) (Q : A -> St -> Prop) (C : St -> Prop)
  : Prop :=
  forall s, P s ->
    match m s with
    | (Ret a, s') => Q a s'
    | (Cancelled, s') => C s'
    | _ => True
    end.

Section Partial_rules.
Context {St : Type}.
Implicit Types P C : St -> Prop.

Lemma partial_of_safe {A} P (m : M St A) Q C : safe P m Q -> partial P m Q C.
Proof.
  intros Hm s Hs. specialize (Hm s Hs). by destruct (m s) as [[a| | | | |] s'].
Qed.

Lemma partial_ret {A} P (a : A) Q C : (forall s, P s -> Q a s) -> partial P (ret a) Q C.
Proof. intros H s. apply H. Qed.

Lemma partial_fail {A} P (o : outcome A) Q C :
  match o with Ret _ | Cancelled => False | _ => True end -> partial P (fail o) Q C.
Proof. intros H s _. by destruct o. Qed.

Lemma partial_gets {A} P (f : St -> A) Q C : (forall s, P s -> Q (f s) s) -> partial P (gets f) Q C.
Proof. intros H s. apply H. Qed.

Lemma partial_modify P f (Q : unit -> St -> Prop) C :
  (forall s, P s -> Q tt (f s)) -> partial P (modify f) Q C.
Proof. intros H s. apply H. Qed.

Lemma partial_bind {A B} P (m : M St A) (k : A -> M St B) R Q C :
  partial P m R C -> (forall a, partial (R a) (k a) Q C) -> partial P (bind m k) Q C.
Proof.
  intros Hm Hk s Hs. specialize (Hm s Hs). unfold bind.
  destruct (m s) as [[a| | | | |] s']; try done. by apply Hk.
Qed.

Lemma partial_seq {A B} P (m : M St A) (k : A -> M St B) Q C :
  partial P m (fun _ => P) C -> (forall a, partial P (k a) Q C) -> partial P (bind m k) Q C.
Proof. apply partial_bind. Qed.

Lemma partial_conseq {A} P P' (m : M St A) (Q Q' : A -> St -> Prop) C :
  partial P' m Q' C -> (forall s, P s -> P' s) -> (forall a s, Q' a s -> Q a s) ->
  partial P m Q C.
Proof.
  intros Hm HP HQ s Hs. specialize (Hm s (HP s Hs)).
  destruct (m s) as [[a| | | | |] s']; try done. by apply HQ.
Qed.

Lemma partial_pure {A} (phi : Prop) P (m : M St A) Q C :
  (phi -> partial P m Q C) -> partial (fun s => phi /\ P s) m Q C.
Proof. intros H s [Hphi Hs]. by apply (H Hphi s). Qed.

Lemma partial_run {A} P (m : M St A) Q C :
  (forall s, P s -> exists a s', m s = (Ret a, s') /\ Q a s') -> partial P m Q C.
Proof. intros H. by apply partial_of_safe, safe_run. Qed.

(** An access that is undefined when it yields nothing. *)
Lemma partial_deref {A} P (o : option A) Q C :
  (forall a s, o = Some a -> P s -> Q a s) -> partial P (deref o) Q C.
Proof. intros H s Hs. destruct o as [a|]; [by apply H|done]. Qed.

End Partial_rules.

(** Running a computation on a part of the state. *)
Lemma safe_zoom {St T A} (view : St -> T) upd (m : M T A) (P : St -> Prop) (Q : A -> St -> Prop)
    (R : T -> Prop) (R' : A -> T -> Prop) :
  safe R m R' -> (forall s, P s -> R (view s)) ->
  (forall s a t, P s -> R' a t -> Q a (upd t s)) -> safe P (zoom view upd m) Q.
Proof.
  intros Hm HP HQ s Hs. specialize (Hm (view s) (HP s Hs)). unfold zoom.
  destruct (m (view s)) as [[a| | | | |] t]; try done. by apply HQ.
Qed.

(** ** The calls of the environment

    They are safe from every state, and start no thread. *)
Definition call_ok {A} (m : M env A) (R : A -> Prop) : Prop :=
  forall l, safe (fun e => started e = l) m (fun a e => R a /\ started e = l).

Lemma call_sys_call : call_ok sys_call (fun _ => True).
Proof. intros l s. unfold sys_call. by destruct (results s). Qed.

Lemma call_clock_gettime : call_ok clock_gettime (fun _ => True).
Proof. intros l s. unfold clock_gettime. by destruct (clocks s). Qed.

Lemma call_sys_addr : call_ok sys_addr (fun _ => True).
Proof. intros l s. unfold sys_addr. by destruct (addrs s). Qed.

Lemma call_emit ev : is_start ev = None -> call_ok (emit ev) (fun _ => True).
Proof. intros E l s Hs. split; [done|]. by rewrite started_log, E, app_nil_r. Qed.

Lemma call_timedwait ts : call_ok (sys_timedwait ts) (fun _ => True).
Proof.
  intros l s Hs. unfold sys_timedwait. destruct (waits s); [done|]. split; [done|].
  pose proof (started_log (EvWait ts) s) as E. by rewrite app_nil_r, Hs in E.
Qed.

Lemma call_ret {A} (a : A) (R : A -> Prop) : R a -> call_ok (ret a) R.
Proof. intros Ha l. by apply safe_ret. Qed.

Lemma call_exit {A} c (R : A -> Prop) : call_ok (fail (Exit c)) R.
Proof. intros l. apply safe_exit. Qed.

Lemma call_bind {A B} (m : M env A) (k : A -> M env B) R Q :
  call_ok m R -> (forall a, R a -> call_ok (k a) Q) -> call_ok (bind m k) Q.
Proof.
  intros Hm Hk l. eapply safe_bind; [apply Hm|]. intros a. apply safe_pure. intros Ha.
  by apply Hk.
Qed.

Lemma call_getaddrinfo h p : call_ok (getaddrinfo h p) (fun _ => True).
Proof. eapply call_bind; [by apply call_emit|intros _ _; apply call_sys_call]. Qed.

Lemma call_connect_to a p : call_ok (connect_to a p) (fun _ => True).
Proof. eapply call_bind; [by apply call_emit|intros _ _; apply call_sys_call]. Qed.

(** ** Computations that leave a part of the state alone *)

Definition keeps {St A B} (f : St -> B) (m : M St A) : Prop := forall s, f (m s).2 = f s.

Lemma keeps_bind {St A A' B} (f : St -> B) (m : M St A) (k : A -> M St A') :
  keeps f m -> (forall a, keeps f (k a)) -> keeps f (bind m k).
Proof.
  intros Hm Hk s. specialize (Hm s). unfold bind. destruct (m s) as [[a| | | | |] s']; try done.
  rewrite Hk. exact Hm.
Qed.

Lemma keeps_deref {St A B} (f : St -> B) (o : option A) : keeps f (deref o).
Proof. by destruct o. Qed.
