(* ===== verification/Links.v ===== *)
(** * Linked lists seen through their fields

    What the lists of src/utlist.h and src/uthash.h have in common: elements
    that follow each other in a heap, described by the functions that read
    their pointers, and what changing one pointer does to them. *)

From S2P Require Export Env.

(** ** Doubly linked lists

    [links get b l a]: the elements [l] follow each other, [b] coming before
    and [a] after them; [get] reads the two pointers of an element. *)

Definition first (l : list loc) (a : option loc) : option loc :=
  match l with [] => a | p :: _ => Some p end.

Definition final (b : option loc) (l : list loc) : option loc :=
  match last l with Some p => Some p | None => b end.

Fixpoint links (get : loc -> option (option loc * option loc)) (b : option loc)
  (l : list loc) (a : option loc) : Prop :=
  match l with
  | [] => True
  | p :: l => get p = Some (b, first l a) /\ links get (Some p) l a
  end.

Lemma final_cons b p l : final b (p :: l) = final (Some p) l.
Proof. unfold final. destruct l as [|q l]; [done|]. cbn. by destruct (last (q :: l)) eqn:E; [|apply last_None in E]. Qed.

Lemma final_snoc b p l : final b (l ++ [p]) = Some p.
Proof. unfold final. by rewrite last_snoc. Qed.

Lemma first_app l l' a : first (l ++ l') a = first l (first l' a).
Proof. by destruct l. Qed.

(** An element without neighbours is alone. *)
Lemma alone l l' : final None l = None /\ first l' None = None <-> l ++ l' = [].
Proof.
  split.
  - intros [Hl Hl']. destruct l'; [|done]. destruct l as [|q l _] using rev_ind; [done|].
    by rewrite final_snoc in Hl.
  - by intros [-> ->]%app_eq_nil.
Qed.

Lemma final_elem b l p : final b l = Some p -> b <> Some p -> p ∈ l.
Proof.
  unfold final. destruct (last l) as [q|] eqn:E; [|done].
  intros [= ->] _. by apply last_Some_elem_of.
Qed.

Lemma links_app get b l l' a :
  links get b (l ++ l') a <->
  links get b l (first l' a) /\ links get (final b l) l' a.
Proof.
  revert b. induction l as [|p l IH]; intros b; cbn; [by unfold final; cbn; intuition|].
  rewrite IH, first_app, final_cons. tauto.
Qed.

Lemma links_ext get get' b l a :
  (forall p, p ∈ l -> get' p = get p) -> links get b l a -> links get' b l a.
Proof.
  revert b. induction l as [|p l IH]; intros b E; [done|]. intros [E1 E2]. split.
  - rewrite E; [done|constructor].
  - apply IH; [|done]. intros q Hq. apply E. by constructor.
Qed.

(** Changing what follows the list, or what comes before it, changes one
    pointer of its last, or first, element. *)
Lemma links_after get get' b l a a' :
  NoDup l ->
  (forall p, p ∈ l -> get' p = if decide (Some p = last l)
                               then (fun x => (fst x, a')) <$> get p else get p) ->
  links get b l a -> links get' b l a'.
Proof.
  destruct l as [|q l _] using rev_ind; [done|]. rewrite last_snoc.
  intros ND E (L & [Q _])%links_app. apply NoDup_app in ND as (ND1 & ND2 & _).
  apply links_app. split; [|split; [|done]].
  - cbn in *. revert L. apply links_ext. intros p Hp.
    rewrite E by (apply elem_of_app; by left).
    destruct (decide _) as [[= ->]|]; [|done]. by destruct (ND2 q Hp (list_elem_of_here _ _)).
  - rewrite E by (apply elem_of_app; right; constructor).
    destruct (decide _); [|done]. by rewrite Q.
Qed.

Lemma links_before get get' b b' l a :
  NoDup l ->
  (forall p, p ∈ l -> get' p = if decide (Some p = first l None)
                               then (fun x => (b', snd x)) <$> get p else get p) ->
  links get b l a -> links get' b' l a.
Proof.
  destruct l as [|q l]; [done|]. intros [Hq ND]%NoDup_cons E [Q L]. split.
  - rewrite E by constructor. destruct (decide _); [|done]. by rewrite Q.
  - revert L. apply links_ext. intros p Hp. rewrite E by by constructor.
    destruct (decide _) as [[= ->]|]; [|done]. by destruct Hq.
Qed.

(** Unlinking an element. *)
Lemma links_unlink get get' b l p l' a :
  NoDup (l ++ p :: l') ->
  (forall q, q ∈ l -> get' q = if decide (Some q = last l)
                               then (fun x => (fst x, first l' a)) <$> get q else get q) ->
  (forall q, q ∈ l' -> get' q = if decide (Some q = first l' None)
                                then (fun x => (final b l, snd x)) <$> get q else get q) ->
  links get b (l ++ p :: l') a -> links get' b (l ++ l') a.
Proof.
  intros (ND1 & _ & [_ ND2]%NoDup_cons)%NoDup_app E1 E2 (L1 & _ & L2)%links_app.
  apply links_app. split.
  - by apply (links_after get _ _ _ (Some p)).
  - by apply (links_before get _ (Some p)).
Qed.

(** The assignments that unlink an element between [a] and [z]. *)
Lemma links_spliced get get' c p c' a z :
  NoDup (c ++ p :: c') -> a = final None c -> z = first c' None ->
  (forall q, get' q =
     let y := if decide (Some q = a) then (fun y => (fst y, z)) <$> get q else get q in
     if decide (Some q = z) then (fun y => (a, snd y)) <$> y else y) ->
  links get None (c ++ p :: c') None -> links get' None (c ++ c') None.
Proof.
  intros ND Ep En E. pose proof ND as (_ & D & _)%NoDup_app.
  assert (forall q, Some q = final None c -> q ∈ c) as Hf.
  { intros q Hq. symmetry in Hq. by apply final_elem in Hq. }
  assert (forall q, Some q = first c' None -> q ∈ c') as Hn.
  { intros q. destruct c'; cbn; [done|]. intros [= ->]. by left. }
  apply links_unlink; [done| |]; intros q Hq; rewrite E; cbn; rewrite Ep, En.
  - rewrite (decide_False (P := Some q = first c' None)).
    + unfold final. by destruct (last c).
    + intros E'. apply (D q Hq). right. by apply Hn.
  - rewrite (decide_False (P := Some q = final None c)); [done|].
    intros E'. apply (D q); [by apply Hf|by right].
Qed.

Lemma links_lookup get b l p l' a :
  links get b (l ++ p :: l') a -> get p = Some (final b l, first l' a).
Proof. by intros (_ & E & _)%links_app. Qed.

(** [links], element by element. *)
Lemma links_pointwise get b l a :
  (forall l1 x l2, l = l1 ++ x :: l2 -> get x = Some (final b l1, first l2 a)) <->
  links get b l a.
Proof.
  split; [|intros L l1 x l2 ->; by apply (links_lookup get b l1 x l2 a)].
  revert b. induction l as [|p l IH]; intros b H; [done|]. split; [by apply (H [])|].
  apply IH. intros l1 x l2 E. rewrite <- (final_cons b). apply (H (p :: l1)). by rewrite E.
Qed.

(** ** Lists without duplicates *)

Lemma NoDup_snoc (l : list loc) p : NoDup l -> p ∉ l -> NoDup (l ++ [p]).
Proof.
  intros ND Hp. apply NoDup_app. split; [done|]. split; [|apply NoDup_singleton].
  by intros q Hq ->%list_elem_of_singleton.
Qed.

Lemma NoDup_mid (l1 : list loc) p l2 :
  NoDup (l1 ++ p :: l2) <-> (p ∉ l1 ++ l2) /\ NoDup (l1 ++ l2).
Proof. by rewrite <- Permutation_middle, NoDup_cons. Qed.

Lemma NoDup_remove_mid (l1 : list loc) p l2 : NoDup (l1 ++ p :: l2) -> NoDup (l1 ++ l2).
Proof. by intros [_ H]%NoDup_mid. Qed.

Lemma NoDup_insert_mid (l1 : list loc) p l2 :
  NoDup (l1 ++ l2) -> p ∉ l1 ++ l2 -> NoDup (l1 ++ p :: l2).
Proof. intros. by apply NoDup_mid. Qed.

Lemma fmap_live {A B} (f : A -> B) (m : gmap loc A) p : is_Some ((f <$> m) !! p) -> is_Some (m !! p).
Proof. rewrite lookup_fmap. apply fmap_is_Some. Qed.

Lemma some_last (x : loc) l : exists z, last (x :: l) = Some z /\ z ∈ x :: l.
Proof.
  destruct (last (x :: l)) as [z|] eqn:E; [|by apply last_None in E].
  exists z. split; [done|]. by apply last_Some_elem_of.
Qed.

(** ** Successors and predecessors while a list is rebuilt

    The elements of [L] are taken one by one and appended to [D]: those not
    yet taken keep their successors of [L], after whose last element comes
    [w]. *)

Definition succ_of (w : option loc) (L D : list loc) (f : loc -> option loc) : Prop :=
  (forall l1 x l2, L = l1 ++ x :: l2 -> x ∉ D -> f x = first l2 w) /\
  (forall d1 x y d2, D = d1 ++ x :: y :: d2 -> f x = Some y).

Definition pred_of (D : list loc) (g : loc -> option loc) : Prop :=
  forall d1 x d2, D = d1 ++ x :: d2 -> g x = last d1.

Lemma last_inner (d1 : list loc) x y d2 : NoDup (d1 ++ x :: y :: d2) ->
  Some x <> last (d1 ++ x :: y :: d2).
Proof.
  intros (_ & _ & [Hx _]%NoDup_cons)%NoDup_app E. apply Hx.
  rewrite last_app_cons, last_cons_cons in E. by apply last_Some_elem_of.
Qed.

Lemma succ_emit w L D x f f' : NoDup D -> succ_of w L D f ->
  (forall q, f' q = if decide (Some q = last D) then Some x else f q) ->
  succ_of w L (D ++ [x]) f'.
Proof.
  intros ND [H1 H2] E. split.
  - intros l1 y l2 EL [Hy _]%not_elem_of_app. rewrite E, decide_False; [by eapply H1|].
    intros Hl. symmetry in Hl. by apply last_Some_elem_of in Hl.
  - intros d1 a b d2 ED. destruct d2 as [|z d2 _] using rev_ind.
    + change (d1 ++ [a; b]) with (d1 ++ [a] ++ [b]) in ED. rewrite app_assoc in ED.
      apply app_inj_tail in ED as [-> ->]. by rewrite E, last_snoc, decide_True.
    + rewrite !app_comm_cons, app_assoc in ED. apply app_inj_tail in ED as [-> _].
      rewrite E, decide_False by by apply last_inner. by eapply H2.
Qed.

Lemma succ_close w w' L D f f' : NoDup D -> succ_of w L D f ->
  (forall q, f' q = if decide (Some q = last D) then w' else f q) ->
  succ_of w' D [] f'.
Proof.
  intros ND [_ H2] E. split; [|by intros [|? d1]].
  intros l1 x l2 -> _. rewrite E. destruct l2 as [|y l2].
  - by rewrite last_snoc, decide_True.
  - rewrite decide_False by by apply last_inner. by eapply H2.
Qed.

Lemma pred_emit D x g g' : x ∉ D -> pred_of D g ->
  (forall q, g' q = if decide (q = x) then last D else g q) ->
  pred_of (D ++ [x]) g'.
Proof.
  intros Hx H E d1 a d2 ED. rewrite E. destruct d2 as [|z d2 _] using rev_ind.
  - apply app_inj_tail in ED as [-> ->]. by rewrite decide_True.
  - rewrite app_comm_cons, app_assoc in ED. apply app_inj_tail in ED as [-> _].
    rewrite decide_False; [by eapply H|]. intros ->. apply Hx, elem_of_app. right. by left.
Qed.

Lemma last_rev (l : list loc) : last (rev l) = head l.
Proof. destruct l as [|x l]; [done|]. cbn. by rewrite last_snoc. Qed.

Lemma head_rev (l : list loc) : head (rev l) = last l.
Proof. rewrite <- (rev_involutive l) at 2. by rewrite last_rev. Qed.

(** ** One direction of a list

    [nexts f l e]: following [f] one visits [l], and then [e].  Backwards, the
    list is visited in reverse. *)

Fixpoint nexts (f : loc -> option loc) (l : list loc) (e : option loc) : Prop :=
  match l with
  | [] => True
  | x :: l => f x = first l e /\ nexts f l e
  end.

(** The function after an assignment to the field of [t]. *)
Definition upd_fn (t : loc) (v : option loc) (f : loc -> option loc) : loc -> option loc :=
  fun q => if decide (q = t) then v else f q.

Lemma upd_fn_eq t v f : upd_fn t v f t = v.
Proof. unfold upd_fn. by rewrite decide_True. Qed.

Lemma upd_fn_ne t v f q : q <> t -> upd_fn t v f q = f q.
Proof. intros H. unfold upd_fn. by rewrite decide_False. Qed.

Lemma upd_fn_some t v f q :
  upd_fn t v f q = if decide (Some q = Some t) then v else f q.
Proof.
  unfold upd_fn. destruct (decide (q = t)) as [->|Hq]; [by rewrite decide_True|].
  rewrite decide_False; [done|]. by intros [= ->].
Qed.

Lemma nexts_app f l l' e : nexts f (l ++ l') e <-> nexts f l (first l' e) /\ nexts f l' e.
Proof.
  induction l as [|x l IH]; cbn; [tauto|]. rewrite IH, first_app. tauto.
Qed.

Lemma nexts_ext f f' l e : (forall x, x ∈ l -> f' x = f x) -> nexts f l e -> nexts f' l e.
Proof.
  induction l as [|x l IH]; intros E; [done|]. intros [H1 H2]. split.
  - rewrite E; [done|by left].
  - apply IH; [|done]. intros y Hy. apply E. by right.
Qed.

Lemma nexts_other f l e t v : t ∉ l -> nexts f l e -> nexts (upd_fn t v f) l e.
Proof. intros Ht. apply nexts_ext. intros x Hx. apply upd_fn_ne. by intros ->. Qed.

(** An assignment to the last element changes what comes after the list. *)
Lemma nexts_last f l t e v : t ∉ l -> nexts f (l ++ [t]) e -> nexts (upd_fn t v f) (l ++ [t]) v.
Proof.
  intros Ht [H1 H2]%nexts_app. apply nexts_app. split; [by apply nexts_other|].
  split; [|done]. apply upd_fn_eq.
Qed.

Lemma nexts_pointwise f l e :
  nexts f l e <-> forall l1 x l2, l = l1 ++ x :: l2 -> f x = first l2 e.
Proof.
  split.
  - intros H l1 x l2 ->. by apply nexts_app in H as [_ [H _]].
  - induction l as [|x l IH]; intros H; [done|]. split; [by apply (H [])|].
    apply IH. intros l1 y l2 ->. by apply (H (x :: l1)).
Qed.

Lemma nexts_succ f l e : nexts f l e <-> succ_of e l [] f.
Proof.
  rewrite nexts_pointwise. split.
  - intros H. split; [|by intros [|? d1]]. intros l1 x l2 E _. by eapply H.
  - intros [H _] l1 x l2 E. by apply (H l1 x l2 E), not_elem_of_nil.
Qed.

Lemma prevs_pointwise f l e :
  nexts f (rev l) e <-> forall l1 x l2, l = l1 ++ x :: l2 -> f x = first (rev l1) e.
Proof.
  rewrite nexts_pointwise. split; intros H l1 x l2 E.
  - apply (H (rev l2) x (rev l1)). by rewrite E, rev_app_distr; cbn [rev]; rewrite <- app_assoc.
  - rewrite (H (rev l2) x (rev l1)), rev_involutive; [done|].
    by rewrite <- (rev_involutive l), E, rev_app_distr; cbn [rev]; rewrite <- app_assoc.
Qed.

Lemma first_rev (l : list loc) e : first (rev l) e = final e l.
Proof. unfold final. rewrite <- head_rev. by destruct (rev l). Qed.

(** A list rebuilt without an end becomes one that ends as the assignment to
    its first element says. *)
Lemma pred_close D h v g g' : head D = Some h -> NoDup D -> pred_of D g ->
  (forall q, q ∈ D -> g' q = upd_fn h v g q) -> nexts g' (rev D) v.
Proof.
  intros Hh ND HP E. apply prevs_pointwise. intros l1 x l2 ED.
  rewrite E by (rewrite ED; apply elem_of_app; right; by left). rewrite first_rev.
  destruct D as [|h' D]; [done|]. injection Hh as ->. destruct l1 as [|y l1].
  - injection ED as <- <-. apply upd_fn_eq.
  - rewrite upd_fn_ne.
    + rewrite (HP (y :: l1) x l2 ED). unfold final. by destruct (last (y :: l1)) eqn:El;
        [|apply last_None in El].
    + intros ->. injection ED as -> ED. apply NoDup_cons in ND as [Hn _]. apply Hn.
      rewrite ED. apply elem_of_app. right. by left.
Qed.

(** *** Backwards *)

Definition prevs (g : loc -> option loc) (b : option loc) (l : list loc) : Prop :=
  nexts g (rev l) b.

Lemma prevs_app g b l l' : prevs g b (l ++ l') <-> prevs g b l /\ prevs g (final b l) l'.
Proof. unfold prevs. rewrite rev_app_distr, nexts_app, first_rev. tauto. Qed.

Lemma prevs_cons g b x l : prevs g b (x :: l) <-> g x = b /\ prevs g (Some x) l.
Proof.
  change (x :: l) with ([x] ++ l). rewrite prevs_app. unfold prevs at 1. cbn. tauto.
Qed.

Lemma prevs_other g b l t v : t ∉ l -> prevs g b l -> prevs (upd_fn t v g) b l.
Proof.
  intros Ht. apply nexts_other. intros H%list_elem_of_In%in_rev.
  by apply Ht, list_elem_of_In.
Qed.

Lemma prevs_nil g b : prevs g b [].
Proof. done. Qed.
