(* ===== verification/Sort.v ===== *)
(** * The merge sort of the linked lists (src/utlist.h, 104-303)

    [LL_SORT], [DL_SORT], [CDL_SORT] and [HASH_SRT] of src/uthash.h (717-797)
    are one algorithm, a merge sort from the bottom up, over different links.
    It is written here once, on the operations in which the macros differ
    ([sort_ops]), and verified against the laws these must satisfy
    ([SortLaws]); UTList, DList and HashTools discharge the laws. *)

From stdpp Require Export sorting.
From S2P Require Export Env.

(** ** Integers *)

(** The results of [int] and of [unsigned] arithmetic. *)
Definition int_arith {St} (z : Z) : M St Z :=
  if (- 2 ^ 31 <=? z) && (z <? 2 ^ 31) then ret z else fail Undefined.

Definition unsigned_arith {St} (z : Z) : M St Z := ret (u32 z).

Lemma int_arith_run {St} z (s : St) : 0 <= z < 2 ^ 31 -> int_arith z s = (Ret z, s).
Proof.
  intros H. unfold int_arith. rewrite (proj2 (Z.leb_le _ _)), (proj2 (Z.ltb_lt _ _)) by lia.
  done.
Qed.

Lemma unsigned_arith_run {St} z (s : St) : 0 <= z < 2 ^ 31 -> unsigned_arith z s = (Ret z, s).
Proof. intros H. unfold unsigned_arith, u32. by rewrite uwrap_small by lia. Qed.

(** ** The algorithm *)

(** What the macros do in their own way.  Pointers are [None] for NULL. *)
Record sort_ops {St : Type} := SortOps {
  (** the assignments [_ls_p = _NEXT(_ls_p)] and [_ls_q = _NEXT(_ls_q)], up
      to the first element of the list that is taken apart *)
  next_p : option loc -> option loc -> M St (option loc);
  next_q : option loc -> option loc -> M St (option loc);
  (** [cmp] *)
  compare : loc -> loc -> M St Z;
  (** appending [_ls_e] behind [_ls_tail] *)
  emit : option loc -> option loc -> M St unit;
  (** closing the list from its first to its last element *)
  close : option loc -> option loc -> M St unit;
  (** what is done when the list is sorted *)
  finish : option loc -> option loc -> M St unit;
  (** a result in the type of the counters *)
  arith : Z -> M St Z;
  (** more passes than this over elements run in a circle *)
  store_size : St -> nat }.
Arguments sort_ops : clear implicits.

Section Algorithm.
Context {St : Type} (ops : sort_ops St).

(** [for (_ls_i = 0; _ls_i < _ls_insize; _ls_i++)], [n] passes to go: the
    first run of a pair is counted, and [_ls_q] moves behind it. *)
Fixpoint run_length (n : nat) (oldhead : option loc) (psize : Z) (q : option loc)
  : M St (Z * option loc) :=
  match n with
  | O => ret (psize, q)
  | S n =>
      let* psize := arith ops (psize + 1) in
      let* q := next_q ops oldhead q in
      match q with
      | None => ret (psize, None)
      | Some _ => run_length n oldhead psize q
      end
  end.

(** The variables of the inner loop. *)
Record merging := Merging {
  m_p : option loc; m_psize : Z;
  m_q : option loc; m_qsize : Z;
  m_list : option loc; m_tail : option loc }.

(** [_ls_psize > 0 || (_ls_qsize > 0 && _ls_q)] *)
Definition merging_goes_on (x : merging) : bool :=
  (0 <? m_psize x) || ((0 <? m_qsize x) && bool_decide (is_Some (m_q x))).

(** [_ls_e = _ls_p; _ls_p = _NEXT(_ls_p); _ls_psize--] *)
Definition take_p (oldhead : option loc) (x : merging) : M St (option loc * merging) :=
  let* p := next_p ops oldhead (m_p x) in
  ret (m_p x, Merging p (m_psize x - 1) (m_q x) (m_qsize x) (m_list x) (m_tail x)).

Definition take_q (oldhead : option loc) (x : merging) : M St (option loc * merging) :=
  let* q := next_q ops oldhead (m_q x) in
  ret (m_q x, Merging (m_p x) (m_psize x) q (m_qsize x - 1) (m_list x) (m_tail x)).

(** The choice of the next element. *)
Definition choose (oldhead : option loc) (x : merging) : M St (option loc * merging) :=
  if m_psize x =? 0 then take_q oldhead x
  else if (m_qsize x =? 0) || negb (bool_decide (is_Some (m_q x))) then take_p oldhead x
  else
    let* p := deref (m_p x) in
    let* q := deref (m_q x) in
    let* c := compare ops p q in
    if c <=? 0 then take_p oldhead x else take_q oldhead x.

(** The element becomes the last one of the list. *)
Definition append (e : option loc) (x : merging) : M St merging :=
  emit ops (m_tail x) e ;;;
  ret (Merging (m_p x) (m_psize x) (m_q x) (m_qsize x)
         (match m_tail x with Some _ => m_list x | None => e end) e).

Fixpoint merge_loop (fuel : nat) (oldhead : option loc) (x : merging) : M St merging :=
  if merging_goes_on x then
    match fuel with
    | O => fail Blocked
    | S fuel =>
        let* r := choose oldhead x in
        let* x := append r.1 r.2 in
        merge_loop fuel oldhead x
    end
  else ret x.

(** [while (_ls_p)]: pairs of runs are merged until the list is used up. *)
Fixpoint merge_runs (fuel : nat) (oldhead : option loc) (insize nmerges : Z)
  (p list tail : option loc) : M St (Z * option loc * option loc) :=
  match p, fuel with
  | None, _ => ret (nmerges, list, tail)
  | Some _, O => fail Blocked
  | Some _, S fuel =>
      let* nmerges := arith ops (nmerges + 1) in
      let* r := run_length (Z.to_nat insize) oldhead 0 p in
      let '(psize, q) := r in
      let* x := merge_loop (Z.to_nat psize + Z.to_nat insize) oldhead
                  (Merging p psize q insize list tail) in
      merge_runs fuel oldhead insize nmerges (m_q x) (m_list x) (m_tail x)
  end.

(** [while (_ls_looping)] *)
Fixpoint sort_loop (fuel : nat) (insize : Z) (list : option loc) : M St (option loc) :=
  match fuel with
  | O => fail Blocked
  | S fuel =>
      let* n := gets (store_size ops) in
      let* r := merge_runs n list insize 0 list None None in
      let '(nmerges, list, tail) := r in
      close ops list tail ;;;
      (if nmerges <=? 1 then finish ops list tail else ret tt) ;;;
      let* insize := arith ops (insize * 2) in
      if nmerges <=? 1 then ret list else sort_loop fuel insize list
  end.

(** 32 passes are enough for counters of 32 bits. *)
Definition merge_sort (list : option loc) : M St (option loc) :=
  match list with
  | None => ret None
  | Some _ => sort_loop 32 1 list
  end.

End Algorithm.

(** ** Merging lists

    [cmp] is what the comparison answers; an element of the first run goes
    before an equal one of the second. *)

Section Pure.
Context (cmp : loc -> loc -> Z).

Definition leq (x y : loc) : Prop := cmp x y <= 0.

#[global] Instance leq_dec x y : Decision (leq x y).
Proof. unfold leq. apply _. Defined.

(** The elements that [cmp] does not tell from [x]. *)
Definition alike (x y : loc) : Prop := leq x y /\ leq y x.

#[global] Instance alike_dec x y : Decision (alike x y).
Proof. unfold alike. apply _. Defined.

(** [l'] is [l] sorted: the same elements, in order, those that compare equal
    as they were. *)
Definition sorted_version (l l' : list loc) : Prop :=
  l' ≡ₚ l /\ StronglySorted leq l' /\ forall x, filter (alike x) l' = filter (alike x) l.

(** One pass: the runs of length [k] of the list are merged by twos, [n] times. *)
Inductive pass (k : nat) : list loc -> list loc -> nat -> Prop :=
| pass_nil : pass k [] [] 0
| pass_pair l l' n :
    l <> [] -> pass k (drop (k + k) l) l' n ->
    pass k l (list_merge leq (take k l) (take k (drop k l)) ++ l') (S n).

(** Every run of length [k] is sorted. *)
Definition runs_sorted (k : nat) (l : list loc) : Prop :=
  forall i, StronglySorted leq (take k (drop (i * k) l)).

Lemma halves (k : nat) (l : list loc) :
  l = take k l ++ take k (drop k l) ++ drop (k + k) l.
Proof. by rewrite <- (drop_drop l k k), take_drop, take_drop. Qed.

Lemma pass_permutation k l l' n : pass k l l' n -> l' ≡ₚ l.
Proof.
  induction 1 as [|l l' n Hl H IH]; [done|].
  rewrite IH, merge_Permutation, <- app_assoc. by rewrite <- halves.
Qed.

Lemma pass_exists k : (0 < k)%nat -> forall m l, (length l <= m)%nat -> exists l' n, pass k l l' n.
Proof.
  intros Hk. induction m as [|m IH]; intros l Hl.
  - destruct l; [|cbn in Hl; lia]. exists [], 0%nat. constructor.
  - destruct (decide (l = [])) as [->|Hn]; [exists [], 0%nat; constructor|].
    destruct (IH (drop (k + k) l)) as (l' & n & H).
    { destruct l; [done|]. rewrite length_drop. cbn [length] in *. lia. }
    eexists _, (S n). by constructor.
Qed.

Lemma pass_count k l l' n : (0 < k)%nat -> pass k l l' n ->
  (n <= length l)%nat /\ ((length l <= k + k)%nat -> (n <= 1)%nat) /\
  ((n <= 1)%nat -> (length l <= k + k)%nat).
Proof.
  intros Hk. induction 1 as [|l l' n Hl H IH]; [cbn; lia|].
  assert (0 < length l)%nat by (destruct l; cbn in *; [done|lia]).
  assert (n = 0%nat -> length (drop (k + k) l) = 0%nat) as Hz by by destruct H.
  rewrite length_drop in Hz, IH. lia.
Qed.

(** *** The order *)

Context `{!Total leq, !Transitive leq}.

Lemma merge_sorted l1 l2 : StronglySorted leq l1 -> StronglySorted leq l2 ->
  StronglySorted leq (list_merge leq l1 l2).
Proof.
  intros H1 H2. apply Sorted_StronglySorted; [done|].
  by apply Sorted_list_merge; [done|apply StronglySorted_Sorted..].
Qed.

(** Nothing in a sorted run that begins above [y] is like [y]. *)
Lemma filter_above x y z l :
  StronglySorted leq (z :: l) -> ~ leq z y -> alike x y -> filter (alike x) (z :: l) = [].
Proof.
  intros H Hzy [Hxy Hyx]. assert (Forall (fun w => ~ alike x w) (z :: l)) as Hall.
  { apply StronglySorted_cons in H as [Hz _]. apply Forall_cons. split.
    - intros [_ Hz']. apply Hzy. by trans x.
    - eapply Forall_impl; [exact Hz|]. intros w Hw [_ Hw']. apply Hzy.
      trans w; [done|]. by trans x. }
  clear H Hzy. induction Hall as [|w l' Hw _ IH]; [done|]. by rewrite filter_cons_False.
Qed.

Lemma merge_stable x l1 : forall l2, StronglySorted leq l1 ->
  filter (alike x) (list_merge leq l1 l2) = filter (alike x) l1 ++ filter (alike x) l2.
Proof.
  induction l1 as [|y l1 IH1]; intros l2 H1; [by rewrite list_merge_nil_l|].
  induction l2 as [|z l2 IH2]; [by rewrite list_merge_nil_r, app_nil_r|].
  rewrite list_merge_cons. pose proof H1 as [_ H1']%StronglySorted_cons.
  case_decide as Hyz.
  - rewrite !(filter_cons _ y), IH1 by done. by case_decide.
  - rewrite (filter_cons _ z (list_merge _ _ _)), IH2, (filter_cons _ z l2).
    case_decide as Hz; [|done]. by rewrite (filter_above x z).
Qed.

Lemma pass_stable k x l l' n : pass k l l' n -> runs_sorted k l ->
  filter (alike x) l' = filter (alike x) l.
Proof.
  induction 1 as [|l l' n Hl H IH]; intros R; [done|].
  assert (runs_sorted k (drop (k + k) l)) as R'.
  { intros i. rewrite drop_drop.
    replace (k + k + i * k)%nat with (S (S i) * k)%nat by lia. apply R. }
  rewrite filter_app, merge_stable, (IH R') by apply (R 0%nat).
  by rewrite <- app_assoc, <- !filter_app, <- halves.
Qed.

Lemma pass_runs k l l' n : pass k l l' n -> runs_sorted k l -> runs_sorted (k + k) l'.
Proof.
  induction 1 as [|l l' n Hl H IH]; intros R i; [by rewrite drop_nil, take_nil; constructor|].
  assert (runs_sorted k (drop (k + k) l)) as R'.
  { intros j. rewrite drop_drop.
    replace (k + k + j * k)%nat with (S (S j) * k)%nat by lia. apply R. }
  set (m := list_merge leq (take k l) (take k (drop k l))).
  assert (StronglySorted leq m) as Hm.
  { apply merge_sorted; [apply (R 0%nat)|]. specialize (R 1%nat).
    by rewrite Nat.mul_1_l in R. }
  assert (length m = (k + k) `min` length l)%nat as Lm.
  { unfold m. rewrite merge_Permutation, length_app, !length_take, length_drop. lia. }
  destruct (decide (length l <= k + k)%nat) as [Hs|Hs].
  - assert (l' = []) as ->.
    { apply nil_length_inv. rewrite (pass_permutation _ _ _ _ H), length_drop. lia. }
    rewrite app_nil_r. destruct i as [|i].
    + by rewrite drop_0, take_ge by lia.
    + rewrite drop_ge by lia. rewrite take_nil. constructor.
  - destruct i as [|i].
    + rewrite drop_0, take_app_le, take_ge by lia. done.
    + rewrite drop_app_ge by lia. rewrite Lm.
      replace (S i * (k + k) - (k + k) `min` length l)%nat with (i * (k + k))%nat by lia.
      apply (IH R').
Qed.

(** A pass that merged at most one pair leaves the list sorted. *)
Lemma pass_last k l l' n : (0 < k)%nat -> pass k l l' n -> runs_sorted k l -> (n <= 1)%nat ->
  StronglySorted leq l'.
Proof.
  intros Hk H R Hn. pose proof (pass_runs _ _ _ _ H R 0%nat) as Hs.
  pose proof (pass_count _ _ _ _ Hk H) as (_ & _ & Hl).
  rewrite drop_0, take_ge in Hs; [done|].
  rewrite (pass_permutation _ _ _ _ H). auto.
Qed.

Lemma runs_sorted_1 l : runs_sorted 1 l.
Proof. intros i. destruct (drop (i * 1) l); repeat constructor. Qed.

End Pure.

(** ** The laws of the operations

    [taken L D s]: in state [s] the elements of the list [L] that are not in
    [D] still have their successors of [L], and those of [D], which have been
    appended in that order, are linked to each other.  [L] itself, with
    nothing taken, is [taken L [] s]. *)
Class SortLaws {St} (ops : sort_ops St) (cmp : loc -> loc -> Z)
  (taken : list loc -> list loc -> St -> Prop) (done_ : list loc -> St -> Prop) := {
  law_next_p L D s l1 x l2 : taken L D s -> L = l1 ++ x :: l2 -> x ∉ D ->
    next_p ops (head L) (Some x) s = (Ret (head l2), s);
  law_next_q L D s l1 x l2 : taken L D s -> L = l1 ++ x :: l2 -> x ∉ D ->
    next_q ops (head L) (Some x) s = (Ret (head l2), s);
  law_compare L D s x y : taken L D s -> x ∈ L -> y ∈ L ->
    compare ops x y s = (Ret (cmp x y), s);
  law_emit L D s x : taken L D s -> x ∈ L -> x ∉ D ->
    exists s', emit ops (last D) (Some x) s = (Ret tt, s') /\ taken L (D ++ [x]) s';
  law_close L D s : taken L D s -> D ≡ₚ L -> D <> [] ->
    exists s', close ops (head D) (last D) s = (Ret tt, s') /\ taken D [] s';
  law_finish L s : taken L [] s -> L <> [] ->
    exists s', finish ops (head L) (last L) s = (Ret tt, s') /\ done_ L s';
  law_done L s : taken L [] s -> NoDup L;
  law_size L D s : taken L D s -> (length L <= store_size ops s)%nat;
  law_arith z s : 0 <= z < 2 ^ 31 -> arith ops z s = (Ret z, s) }.

Section Correct.
Context {St} (ops : sort_ops St) (cmp : loc -> loc -> Z) taken done_
  `{LAWS : !SortLaws ops cmp taken done_}.

Lemma run_length_run L D s l : forall n k l1,
  taken L D s -> L = l1 ++ l -> (forall y, y ∈ l -> y ∉ D) -> l <> [] ->
  0 <= k -> k + Z.of_nat n < 2 ^ 31 ->
  run_length ops n (head L) k (head l) s =
    (Ret (k + Z.of_nat (length (take n l)), head (drop n l)), s).
Proof.
  induction l as [|x l IH]; intros n k l1 T E Hd Hl Hk Hn; [done|].
  destruct n as [|n]; cbn [run_length take drop length]; [by rewrite Z.add_0_r|].
  rewrite (bind_ret_l _ _ _ _ _ (law_arith (k + 1) s ltac:(lia))).
  rewrite (bind_ret_l _ _ _ _ _ (law_next_q L D s l1 x l T E ltac:(apply Hd; by left))).
  destruct l as [|y l].
  - by rewrite take_nil, drop_nil.
  - cbn [head]. change (Some y) with (head (y :: l)). rewrite (IH n (k + 1) (l1 ++ [x])); try done; try lia.
    + do 3 f_equal. lia.
    + by rewrite <- app_assoc.
    + intros z Hz. apply Hd. by right.
Qed.

(** What the variables of the inner loop mean: [l1] is left of the first run,
    [l2 ++ c] of the list from the second one on. *)
Record merges (L D l1 l2 c : list loc) (x : merging) (s : St) : Prop := Merges {
  ms_taken : taken L D s;
  ms_p : exists a b, L = a ++ l1 ++ b;
  ms_q : exists a, L = a ++ l2 ++ c;
  ms_apart : NoDup (l1 ++ l2 ++ c);
  ms_fresh : forall y, y ∈ l1 ++ l2 ++ c -> y ∉ D;
  ms_pp : l1 <> [] -> m_p x = head l1;
  ms_pq : m_q x = head (l2 ++ c);
  ms_psize : m_psize x = Z.of_nat (length l1);
  ms_qsize : Z.of_nat (length l2) <= m_qsize x;
  ms_short : c <> [] -> m_qsize x = Z.of_nat (length l2);
  ms_list : m_list x = head D;
  ms_tail : m_tail x = last D }.

Lemma head_snoc (D : list loc) e :
  head (D ++ [e]) = match last D with Some _ => head D | None => Some e end.
Proof. destruct D as [|d D]; [done|]. cbn. rewrite last_cons. by destruct (last D). Qed.

(** Appending an element that is not yet taken. *)
Lemma append_run L D s e x : taken L D s -> e ∈ L -> e ∉ D ->
  m_list x = head D -> m_tail x = last D ->
  exists s', append ops (Some e) x s =
    (Ret (Merging (m_p x) (m_psize x) (m_q x) (m_qsize x)
            (head (D ++ [e])) (last (D ++ [e]))), s') /\ taken L (D ++ [e]) s'.
Proof.
  intros T He Hn El Et. destruct (law_emit L D s e T He Hn) as (s' & R & T').
  exists s'. split; [|done]. unfold append. rewrite Et, (bind_ret_l _ _ _ _ _ R).
  by rewrite head_snoc, last_snoc, El.
Qed.

Lemma merges_p L D l1 e l2 c x s : merges L D (e :: l1) l2 c x s ->
  exists x1 x2 s', take_p ops (head L) x s = (Ret (Some e, x1), s) /\
    append ops (Some e) x1 s = (Ret x2, s') /\ merges L (D ++ [e]) l1 l2 c x2 s'.
Proof.
  intros [T (a & b & E) (a' & E') ND F Ep Eq Sp Sq Sc El Et].
  assert (e ∉ D) as He by (apply F; by left).
  assert (e ∈ L) as HeL by (rewrite E; set_solver).
  unfold take_p. rewrite (Ep ltac:(done)). cbn [head].
  rewrite (bind_ret_l _ _ _ _ _ (law_next_p L D s a e (l1 ++ b) T E He)).
  eexists. destruct (append_run L D s e (Merging (head (l1 ++ b)) (m_psize x - 1) (m_q x)
    (m_qsize x) (m_list x) (m_tail x)) T HeL He El Et) as (s' & R & T').
  eexists _, s'. split; [reflexivity|]. split; [exact R|].
  apply NoDup_cons in ND as [Hn ND].
  constructor; cbn [m_p m_psize m_q m_qsize m_list m_tail]; try done.
  - exists (a ++ [e]), b. by rewrite <- app_assoc.
  - by exists a'.
  - intros y Hy [Hd| ->%list_elem_of_singleton]%elem_of_app; [|done].
    apply (F y); [by right|done].
  - intros Hl. by destruct l1.
  - rewrite Sp. cbn [length]. lia.
Qed.

Lemma merges_q L D l1 e l2 c x s : merges L D l1 (e :: l2) c x s ->
  exists x1 x2 s', take_q ops (head L) x s = (Ret (Some e, x1), s) /\
    append ops (Some e) x1 s = (Ret x2, s') /\ merges L (D ++ [e]) l1 l2 c x2 s'.
Proof.
  intros [T (a & b & E) (a' & E') ND F Ep Eq Sp Sq Sc El Et].
  assert (e ∉ D) as He by (apply F; set_solver).
  assert (e ∈ L) as HeL by (rewrite E'; set_solver).
  unfold take_q. rewrite Eq. cbn [head app].
  rewrite (bind_ret_l _ _ _ _ _ (law_next_q L D s a' e (l2 ++ c) T E' He)).
  eexists. destruct (append_run L D s e (Merging (m_p x) (m_psize x) (head (l2 ++ c))
    (m_qsize x - 1) (m_list x) (m_tail x)) T HeL He El Et) as (s' & R & T').
  eexists _, s'. split; [reflexivity|]. split; [exact R|].
  apply (NoDup_Permutation_proper _ _ (symmetry (Permutation_middle l1 (l2 ++ c) e))) in ND.
  apply NoDup_cons in ND as [Hn ND].
  cbn [length] in Sq.
  constructor; cbn [m_p m_psize m_q m_qsize m_list m_tail]; try done.
  - by exists a, b.
  - exists (a' ++ [e]). by rewrite <- app_assoc.
  - intros y Hy [Hd| ->%list_elem_of_singleton]%elem_of_app; [|done].
    apply (F y); [|done]. revert Hy. rewrite !elem_of_app, elem_of_cons. tauto.
  - lia.
  - intros Hc. specialize (Sc Hc). cbn [length] in Sc. lia.
Qed.

Lemma merges_stops L D c x s : merges L D [] [] c x s ->
  merging_goes_on x = false /\ m_q x = head c.
Proof.
  intros []. split; [|done]. unfold merging_goes_on. rewrite ms_psize0, ms_pq0. cbn [app].
  destruct c as [|y c]; [by rewrite andb_false_r|]. by rewrite (ms_short0 ltac:(done)).
Qed.

Lemma merges_goes_on L D l1 l2 c x s : merges L D l1 l2 c x s -> l1 ++ l2 <> [] ->
  merging_goes_on x = true.
Proof.
  intros [] Hn. unfold merging_goes_on. rewrite ms_psize0, ms_pq0.
  destruct l1 as [|e l1]; [|done]. destruct l2 as [|e l2]; [done|].
  cbn [length] in ms_qsize0. cbn [app head].
  rewrite (proj2 (Z.ltb_lt 0 (m_qsize x))) by lia. by rewrite orb_true_r.
Qed.

(** What one iteration takes is what the merge of the runs begins with. *)
Lemma choose_run L D l1 l2 c x s : merges L D l1 l2 c x s -> l1 ++ l2 <> [] ->
  exists e l1' l2' x1 x2 s', choose ops (head L) x s = (Ret (Some e, x1), s) /\
    append ops (Some e) x1 s = (Ret x2, s') /\ merges L (D ++ [e]) l1' l2' c x2 s' /\
    list_merge (leq cmp) l1 l2 = e :: list_merge (leq cmp) l1' l2' /\
    (length l1 + length l2 = S (length l1' + length l2'))%nat.
Proof.
  intros H Hn. unfold choose. rewrite (ms_psize _ _ _ _ _ _ _ H).
  destruct l1 as [|e1 l1], l2 as [|e2 l2]; [done| | |].
  - destruct (merges_q _ _ _ _ _ _ _ _ H) as (x1 & x2 & s' & R1 & R2 & H').
    exists e2, [], l2, x1, x2, s'. by rewrite !list_merge_nil_l.
  - replace ((m_qsize x =? 0) || negb (bool_decide (is_Some (m_q x)))) with true.
    + destruct (merges_p _ _ _ _ _ _ _ _ H) as (x1 & x2 & s' & R1 & R2 & H').
      exists e1, l1, [], x1, x2, s'. rewrite !list_merge_nil_r. cbn [length].
      by split_and!.
    + rewrite (ms_pq _ _ _ _ _ _ _ H). destruct c as [|y c]; [by rewrite orb_true_r|].
      by rewrite (ms_short _ _ _ _ _ _ _ H ltac:(done)).
  - pose proof (ms_qsize _ _ _ _ _ _ _ H) as Hq. cbn [length] in Hq.
    rewrite (ms_pq _ _ _ _ _ _ _ H), (ms_pp _ _ _ _ _ _ _ H ltac:(done)).
    rewrite (proj2 (Z.eqb_neq (m_qsize x) 0)) by lia. cbn [length head app orb negb].
    rewrite bool_decide_eq_true_2 by done.
    rewrite (proj2 (Z.eqb_neq (Z.of_nat (S (length l1))) 0)) by lia.
    cbn [negb orb]. do 2 (erewrite bind_ret_l by reflexivity).
    assert (e1 ∈ L /\ e2 ∈ L) as [Hl1 Hl2].
    { destruct H as [_ (a & b & E) (a' & E')]. split; [rewrite E|rewrite E']; set_solver. }
    erewrite bind_ret_l by exact (law_compare L D s e1 e2 (ms_taken _ _ _ _ _ _ _ H) Hl1 Hl2).
    rewrite list_merge_cons. unfold leq at 1. case_decide as Hc.
    + rewrite (proj2 (Z.leb_le _ _) Hc).
      destruct (merges_p _ _ _ _ _ _ _ _ H) as (x1 & x2 & s' & R1 & R2 & H').
      exists e1, l1, (e2 :: l2), x1, x2, s'. split_and!; try done.
    + rewrite (proj2 (Z.leb_gt _ _)) by lia.
      destruct (merges_q _ _ _ _ _ _ _ _ H) as (x1 & x2 & s' & R1 & R2 & H').
      exists e2, (e1 :: l1), l2, x1, x2, s'. split_and!; try done; cbn [length]; lia.
Qed.

(** The inner loop merges the two runs behind the list. *)
Lemma merge_loop_run L c : forall fuel D l1 l2 x s,
  merges L D l1 l2 c x s -> (length l1 + length l2 <= fuel)%nat ->
  exists y s', merge_loop ops fuel (head L) x s = (Ret y, s') /\
    merges L (D ++ list_merge (leq cmp) l1 l2) [] [] c y s'.
Proof.
  induction fuel as [|fuel IH]; intros D l1 l2 x s H Hf.
  - destruct l1, l2; cbn [length] in Hf; try lia. exists x, s. cbn [merge_loop].
    destruct (merges_stops _ _ _ _ _ H) as [-> _]. by rewrite list_merge_nil_l, app_nil_r.
  - cbn [merge_loop]. destruct (decide (l1 ++ l2 = [])) as [E|Hn].
    + apply app_eq_nil in E as [-> ->]. exists x, s.
      destruct (merges_stops _ _ _ _ _ H) as [-> _]. by rewrite list_merge_nil_l, app_nil_r.
    + rewrite (merges_goes_on _ _ _ _ _ _ _ H Hn).
      destruct (choose_run _ _ _ _ _ _ _ H Hn)
        as (e & l1' & l2' & x1 & x2 & s1 & R1 & R2 & H' & -> & Hl).
      rewrite (bind_ret_l _ _ _ _ _ R1), (bind_ret_l _ _ _ _ _ R2).
      destruct (IH _ _ _ _ _ H' ltac:(lia)) as (y & s' & R & H'').
      exists y, s'. by rewrite <- app_assoc in H''.
Qed.

(** The middle loop is a pass over the rest of the list. *)
Lemma merge_runs_run L k l l' n : (0 < k)%nat -> Z.of_nat k < 2 ^ 31 ->
  pass cmp k l l' n -> forall fuel D m s, taken L D s ->
  (exists a, L = a ++ l) -> NoDup l -> (forall y, y ∈ l -> y ∉ D) ->
  (length l <= fuel)%nat -> 0 <= m -> m + Z.of_nat (length l) < 2 ^ 31 ->
  exists s', merge_runs ops fuel (head L) (Z.of_nat k) m (head l) (head D) (last D) s =
      (Ret (m + Z.of_nat n, head (D ++ l'), last (D ++ l')), s') /\
    taken L (D ++ l') s'.
Proof.
  intros Hk Hk31. induction 1 as [|l l' n Hl HP IH]; intros fuel D m s T [a E] ND F Hf Hm Hm31.
  { exists s. rewrite app_nil_r. split; [|done]. by destruct fuel; rewrite Z.add_0_r. }
  destruct l as [|x l0] eqn:El; [done|]. rewrite <- El in *. clear Hl.
  assert (0 < length l)%nat as Hl by (rewrite El; cbn [length]; lia).
  destruct fuel as [|fuel]; [lia|].
  set (l1 := take k l). set (l2 := take k (drop k l)). set (c := drop (k + k) l).
  assert (l = l1 ++ l2 ++ c) as Ec by apply halves.
  replace (head l) with (Some x) by by rewrite El.
  cbn [merge_runs]. rewrite (bind_ret_l _ _ _ _ _ (law_arith (m + 1) s ltac:(lia))).
  replace (Some x) with (head l) by by rewrite El.
  erewrite bind_ret_l.
  2:{ apply (run_length_run L D s l (Z.to_nat (Z.of_nat k)) 0 a T E F); [by rewrite El|lia..]. }
  rewrite Z.add_0_l, !Nat2Z.id. fold l1. cbv beta iota.
  assert (length l1 = k `min` length l /\ length l2 = k `min` (length l - k))%nat as [L1 L2].
  { unfold l1, l2. by rewrite !length_take, length_drop. }
  destruct (merge_loop_run L c (length l1 + k) D l1 l2
    (Merging (head l) (Z.of_nat (length l1)) (head (drop k l)) (Z.of_nat k) (head D) (last D)) s)
    as (y & s1 & R1 & M); [|lia|].
  { constructor; cbn [m_p m_psize m_q m_qsize m_list m_tail]; try done.
    - exists a, (l2 ++ c). by rewrite <- Ec.
    - exists (a ++ l1). by rewrite <- app_assoc, <- Ec.
    - by rewrite <- Ec.
    - rewrite <- Ec. exact F.
    - intros _. unfold l1. rewrite El. destruct k; [lia|done].
    - f_equal. unfold l2, c. rewrite <- drop_drop. by rewrite take_drop.
    - lia.
    - intros Hc. rewrite L2. unfold c in Hc.
      assert (k + k < length l)%nat; [|lia].
      destruct (decide (k + k < length l)%nat); [done|].
      exfalso. apply Hc, drop_ge. lia. }
  rewrite (bind_ret_l _ _ _ _ _ R1).
  rewrite (proj2 (merges_stops _ _ _ _ _ M)), (ms_list _ _ _ _ _ _ _ M), (ms_tail _ _ _ _ _ _ _ M).
  assert (NoDup (l1 ++ l2 ++ c)) as ND' by by rewrite <- Ec.
  destruct (IH fuel (D ++ list_merge (leq cmp) l1 l2) (m + 1) s1) as (s' & R & T').
  - apply M.
  - exists (a ++ l1 ++ l2). fold c. by rewrite <- !app_assoc, <- Ec.
  - apply NoDup_app in ND' as (_ & _ & ND'). by apply NoDup_app in ND' as (_ & _ & ND').
  - intros z Hz. apply (ms_fresh _ _ _ _ _ _ _ M z Hz).
  - unfold c. rewrite length_drop. lia.
  - lia.
  - unfold c. rewrite length_drop. lia.
  - exists s'. fold c in R. rewrite R. rewrite <- app_assoc in *. split; [|done].
    do 4 f_equal. lia.
Qed.

(** ** The sort *)

Context `{!Total (leq cmp), !Transitive (leq cmp)}.

Lemma sort_loop_run : forall fuel j L s,
  taken L [] s -> L <> [] -> Z.of_nat (length L) <= 2 ^ 30 -> (j <= 29)%nat ->
  (30 <= j + fuel)%nat -> runs_sorted cmp (2 ^ j) L ->
  exists L' s', sort_loop ops fuel (2 ^ Z.of_nat j) (head L) s = (Ret (head L'), s') /\
    done_ L' s' /\ L' ≡ₚ L /\ StronglySorted (leq cmp) L' /\
    forall x, filter (alike cmp x) L' = filter (alike cmp x) L.
Proof.
  induction fuel as [|fuel IH]; intros j L s T Hn HL Hj Hf R; [lia|].
  assert (0 < 2 ^ j)%nat as Hk by (apply Nat.neq_0_lt_0, Nat.pow_nonzero; lia).
  assert (2 ^ Z.of_nat j = Z.of_nat (2 ^ j)) as Ej by by rewrite Nat2Z.inj_pow.
  assert (2 ^ Z.of_nat j <= 2 ^ 29) as Hj29 by (apply Z.pow_le_mono_r; lia).
  destruct (pass_exists cmp (2 ^ j) Hk _ L (le_n _)) as (L1 & n & HP).
  pose proof (pass_permutation _ _ _ _ _ HP) as HPerm.
  pose proof (pass_count _ _ _ _ _ Hk HP) as (Hn1 & Hn2 & Hn3).
  cbn [sort_loop]. erewrite bind_ret_l by reflexivity.
  destruct (merge_runs_run L (2 ^ j) L L1 n Hk ltac:(lia) HP (store_size ops s) [] 0 s)
    as (s1 & R1 & T1); try done; [by exists []|by apply (law_done L s)| | |lia|].
  { intros ? _. apply not_elem_of_nil. }
  { by apply (law_size L []). }
  rewrite Ej, (bind_ret_l _ _ _ _ _ R1), Z.add_0_l. cbn [app] in *.
  assert (L1 <> []) as HL1 by (intros ->; apply Hn; symmetry; by apply Permutation_nil_l).
  destruct (law_close L L1 s1 T1 HPerm HL1) as (s2 & R2 & T2).
  rewrite (bind_ret_l _ _ _ _ _ R2).
  destruct (Z.leb_spec (Z.of_nat n) 1) as [H1|H1].
  - destruct (law_finish L1 s2 T2 HL1) as (s3 & R3 & F).
    rewrite (bind_ret_l _ _ _ _ _ R3).
    rewrite (bind_ret_l _ _ _ _ _ (law_arith (Z.of_nat (2 ^ j) * 2) s3 ltac:(lia))).
    exists L1, s3. split_and!; try done.
    + by apply (pass_last cmp (2 ^ j) L L1 n); [..|lia].
    + intros x. by apply (pass_stable cmp (2 ^ j) x L L1 n).
  - erewrite bind_ret_l by reflexivity.
    rewrite (bind_ret_l _ _ _ _ _ (law_arith (Z.of_nat (2 ^ j) * 2) s2 ltac:(lia))).
    assert (Z.of_nat (2 ^ j) * 2 = 2 ^ Z.of_nat (S j)) as ->.
    { rewrite <- Ej, Nat2Z.inj_succ, Z.pow_succ_r; lia. }
    assert (2 * 2 ^ Z.of_nat j < 2 ^ 30) as H30 by lia.
    assert (Z.of_nat j <> 29) as Hj' by (intros E; rewrite E in H30; lia).
    destruct (IH (S j) L1 s2) as (L' & s' & R' & F & P' & S' & St'); try done; try lia.
    + by rewrite HPerm.
    + replace (2 ^ S j)%nat with (2 ^ j + 2 ^ j)%nat by (cbn; lia).
      by apply (pass_runs cmp (2 ^ j) L L1 n).
    + exists L', s'. split_and!; try done; [by rewrite P'|].
      intros x. rewrite St'. by apply (pass_stable cmp (2 ^ j) x L L1 n).
Qed.

Lemma merge_sort_run L s : taken L [] s -> Z.of_nat (length L) <= 2 ^ 30 -> L <> [] ->
  exists L' s', merge_sort ops (head L) s = (Ret (head L'), s') /\
    done_ L' s' /\ sorted_version cmp L L'.
Proof.
  intros T HL Hn.
  destruct (sort_loop_run 32 0 L s T Hn HL ltac:(lia) ltac:(lia) (runs_sorted_1 _ _))
    as (L' & s' & R & F & P & S & St').
  exists L', s'. split_and!; try done. destruct L as [|x L]; [done|]. exact R.
Qed.

End Correct.
