(* ===== verification/ListOps.v ===== *)
(** * What the linked lists of src/utlist.h promise

    The three kinds of lists of src/utlist.h have the same operations.  The
    interface [LinkedList] names them; [LinkedListLaws] relates them to lists
    of elements, through the representation [repr].  The iterating macros,
    [FOREACH], [COUNT] and [SEARCH], are the same code for all kinds and are
    written here.  [list_op] is a step of a client; [run_ops_refine] shows
    that a sequence of operations does to the heap what [op_spec] says it does
    to the list. *)

From S2P Require Export Links Sort.

Section Interface.
Context {A St : Type}.

Class LinkedList := {
  (** the step of [FOREACH]: the element after this one, in the list that
      begins with [head] *)
  l_next : option loc -> loc -> M St (option loc);
  l_payload : loc -> M St A;
  l_prepend : option loc -> loc -> M St (option loc);
  l_append : option loc -> loc -> M St (option loc);
  l_delete : option loc -> loc -> M St (option loc);
  l_replace_elem : option loc -> loc -> loc -> M St (option loc);
  l_prepend_elem : option loc -> loc -> loc -> M St (option loc);
  l_sort : (A -> A -> Z) -> option loc -> M St (option loc);
  l_size : St -> nat;
  (** circular lists have no [APPEND] *)
  l_appends : bool }.

Context `{LL : LinkedList}.

(** ** The iterating macros

    [for (el = head; el; el = next)]; [break] is [Some] result. *)

Fixpoint foreach {B} (fuel : nat) (head : option loc) (body : loc -> B -> M St (bool * B))
  (el : option loc) (b : B) : M St (option loc * B) :=
  match el, fuel with
  | None, _ => ret (None, b)
  | Some _, O => fail Blocked
  | Some p, S fuel =>
      let* r := body p b in
      if r.1 then ret (Some p, r.2)
      else
        let* n := l_next head p in
        foreach fuel head body n r.2
  end.

(** [LL_COUNT], [DL_COUNT], [CDL_COUNT] with a counter of type [int]. *)
Definition COUNT (head : option loc) : M St Z :=
  let* n := gets l_size in
  let* r := foreach n head (fun _ c => let* c := int_arith (c + 1) in ret (false, c)) head 0 in
  ret r.2.

(** [LL_SEARCH_SCALAR], [CDL_SEARCH_SCALAR]: [(out)->field == val]. *)
Definition SEARCH_SCALAR {V} `{EqDecision V} (field : A -> V) (head : option loc) (val : V)
  : M St (option loc) :=
  let* n := gets l_size in
  let* r := foreach n head
              (fun out _ => let* a := l_payload out in ret (bool_decide (field a = val), tt))
              head tt in
  ret r.1.

(** [LL_SEARCH], [CDL_SEARCH]: [cmp(out, elt) == 0], for the content of [elt]. *)
Definition SEARCH (cmp : A -> A -> Z) (head : option loc) (elt : A) : M St (option loc) :=
  let* n := gets l_size in
  let* r := foreach n head
              (fun out _ => let* a := l_payload out in ret (cmp a elt =? 0, tt)) head tt in
  ret r.1.

(** ** Lists of elements *)

(** The comparison of two elements, whose contents are [P]. *)
Definition cmp_at (P : gmap loc A) (cmp : A -> A -> Z) (p q : loc) : Z :=
  match P !! p, P !! q with
  | Some a, Some b => cmp a b
  | None, None => 0
  | None, Some _ => -1
  | Some _, None => 1
  end.

#[global] Instance cmp_at_total P cmp :
  Total (fun a b => cmp a b <= 0) -> Total (leq (cmp_at P cmp)).
Proof.
  intros T p q. unfold leq, cmp_at. destruct (P !! p) as [a|], (P !! q) as [b|]; try lia.
  apply T.
Qed.

#[global] Instance cmp_at_transitive P cmp :
  Transitive (fun a b => cmp a b <= 0) -> Transitive (leq (cmp_at P cmp)).
Proof.
  intros T p q r. unfold leq, cmp_at.
  destruct (P !! p) as [a|], (P !! q) as [b|], (P !! r) as [c|]; try lia. apply T.
Qed.

(** The first element whose content passes the test. *)
Definition passes (P : gmap loc A) (test : A -> bool) (p : loc) : bool :=
  match P !! p with Some a => test a | None => false end.

Definition find_first (P : gmap loc A) (test : A -> bool) (l : list loc) : option loc :=
  head (filter (passes P test) l).

(** ** The laws

    [repr P s h l]: in state [s] the elements [l] form a list that begins
    with [h], and the elements allocated hold [P]. *)
Class LinkedListLaws (repr : gmap loc A -> St -> option loc -> list loc -> Prop) := {
  repr_head P s h l : repr P s h l -> h = head l;
  repr_NoDup P s h l : repr P s h l -> NoDup l;
  repr_live P s h l p : repr P s h l -> p ∈ l -> is_Some (P !! p);
  repr_size P s h l : repr P s h l -> (length l <= l_size s)%nat;
  l_next_run P s h l1 x l2 : repr P s h (l1 ++ x :: l2) ->
    l_next h x s = (Ret (head l2), s);
  l_payload_run P s h l p a : repr P s h l -> P !! p = Some a ->
    l_payload p s = (Ret a, s);
  l_prepend_run P s h l p : repr P s h l -> is_Some (P !! p) -> p ∉ l ->
    exists s', l_prepend h p s = (Ret (head (p :: l)), s') /\
      repr P s' (head (p :: l)) (p :: l);
  l_append_run P s h l p : l_appends -> repr P s h l -> is_Some (P !! p) -> p ∉ l ->
    exists s', l_append h p s = (Ret (head (l ++ [p])), s') /\
      repr P s' (head (l ++ [p])) (l ++ [p]);
  l_delete_run P s h l1 p l2 : repr P s h (l1 ++ p :: l2) ->
    exists s', l_delete h p s = (Ret (head (l1 ++ l2)), s') /\
      repr P s' (head (l1 ++ l2)) (l1 ++ l2);
  l_replace_elem_run P s h l1 p l2 q : repr P s h (l1 ++ p :: l2) ->
    is_Some (P !! q) -> q ∉ l1 ++ p :: l2 ->
    exists s', l_replace_elem h p q s = (Ret (head (l1 ++ q :: l2)), s') /\
      repr P s' (head (l1 ++ q :: l2)) (l1 ++ q :: l2);
  l_prepend_elem_run P s h l1 p l2 q : repr P s h (l1 ++ p :: l2) ->
    is_Some (P !! q) -> q ∉ l1 ++ p :: l2 ->
    exists s', l_prepend_elem h p q s = (Ret (head (l1 ++ q :: p :: l2)), s') /\
      repr P s' (head (l1 ++ q :: p :: l2)) (l1 ++ q :: p :: l2);
  l_sort_run P s h l cmp : repr P s h l -> Z.of_nat (length l) <= 2 ^ 30 ->
    Total (leq (cmp_at P cmp)) -> Transitive (leq (cmp_at P cmp)) ->
    exists l' s', l_sort cmp h s = (Ret (head l'), s') /\ repr P s' (head l') l' /\
      sorted_version (cmp_at P cmp) l l' }.

Context `{LAWS : LinkedListLaws repr}.

(** A loop over the list that does not change it runs its body on every
    element, up to the one that breaks it. *)
Fixpoint foreach_spec {B} (test : loc -> B -> bool * B) (l : list loc) (b : B)
  : option loc * B :=
  match l with
  | [] => (None, b)
  | p :: l =>
      let r := test p b in
      if r.1 then (Some p, r.2) else foreach_spec test l r.2
  end.

Lemma foreach_run {B} (body : loc -> B -> M St (bool * B)) test (ok : nat -> B -> Prop) P s h :
  (forall k p b, is_Some (P !! p) -> ok (S k) b ->
    body p b s = (Ret (test p b), s) /\ ok k (test p b).2) ->
  forall l l1 fuel b, repr P s h (l1 ++ l) -> (length l <= fuel)%nat -> ok (length l) b ->
  foreach fuel h body (head l) b s = (Ret (foreach_spec test l b), s).
Proof.
  intros HB. induction l as [|p l IH]; intros l1 fuel b R Hf Hk; [by destruct fuel|].
  destruct fuel as [|fuel]; [cbn [length] in Hf; lia|]. cbn [foreach head foreach_spec].
  destruct (HB (length l) p b) as [R1 Hk']; [|exact Hk|].
  { apply (repr_live P s h (l1 ++ p :: l)); [done|]. apply elem_of_app. right. by left. }
  rewrite (bind_ret_l _ _ _ _ _ R1). destruct (test p b).1; [done|].
  rewrite (bind_ret_l _ _ _ _ _ (l_next_run P s h l1 p l R)).
  apply (IH (l1 ++ [p])); [by rewrite <- app_assoc|cbn [length] in Hf; lia|done].
Qed.

Lemma COUNT_run P s h l : repr P s h l -> Z.of_nat (length l) < 2 ^ 31 ->
  COUNT h s = (Ret (Z.of_nat (length l)), s).
Proof.
  intros R Hl. unfold COUNT. erewrite bind_ret_l by reflexivity.
  rewrite (repr_head P s h l R) at 2.
  erewrite bind_ret_l.
  2:{ apply (foreach_run _ (fun _ c => (false, c + 1))
        (fun k c => 0 <= c /\ c + Z.of_nat k < 2 ^ 31) P s h) with (l1 := []); try done.
      - intros k p b _ [Hb Hk]. erewrite bind_ret_l by (apply int_arith_run; lia).
        split; [done|]. cbn [snd]. lia.
      - by apply (repr_size P s h). }
  do 2 f_equal. cbn [snd].
  enough (forall c, (foreach_spec (fun _ c => (false, c + 1)) l c).2 = c + Z.of_nat (length l))
    as -> by done.
  clear. induction l as [|p l IH]; intros c; cbn [foreach_spec length fst snd]; [lia|].
  rewrite IH. lia.
Qed.

(** Both searches are a loop that ends at the first element found. *)
Lemma search_run (body : loc -> unit -> M St (bool * unit)) test P s h l :
  repr P s h l ->
  (forall p a, P !! p = Some a -> body p tt s = (Ret (test a, tt), s)) ->
  (let* n := gets l_size in let* r := foreach n h body h tt in ret r.1) s =
    (Ret (find_first P test l), s).
Proof.
  intros R HB. erewrite bind_ret_l by reflexivity. rewrite (repr_head P s h l R) at 2.
  erewrite bind_ret_l.
  2:{ apply (foreach_run _ (fun p _ => (passes P test p, tt)) (fun _ _ => True) P s h)
        with (l1 := []); try done; [|by apply (repr_size P s h)].
      intros _ p [] [a Ha] _. split; [|done]. unfold passes. rewrite Ha. by apply HB. }
  unfold ret. do 2 f_equal. unfold find_first. clear.
  induction l as [|p l IH]; [done|]. cbn [foreach_spec fst snd]. rewrite filter_cons.
  destruct (passes P test p); [done|]. exact IH.
Qed.

Lemma SEARCH_SCALAR_run {V} `{EqDecision V} (field : A -> V) P s h l val :
  repr P s h l ->
  SEARCH_SCALAR field h val s =
    (Ret (find_first P (fun a => bool_decide (field a = val)) l), s).
Proof.
  intros R. apply (search_run _ _ P s h l R). intros p a Ha.
  by rewrite (bind_ret_l _ _ _ _ _ (l_payload_run P s h l p a R Ha)).
Qed.

Lemma SEARCH_run cmp P s h l elt : repr P s h l ->
  SEARCH cmp h elt s = (Ret (find_first P (fun a => cmp a elt =? 0) l), s).
Proof.
  intros R. apply (search_run _ _ P s h l R). intros p a Ha.
  by rewrite (bind_ret_l _ _ _ _ _ (l_payload_run P s h l p a R Ha)).
Qed.

(** ** A client *)

Inductive list_op :=
| Prepend (add : loc)
| Append (add : loc)
| Delete (del : loc)
| Replace_elem (el add : loc)
| Prepend_elem (el add : loc)
| Sort (cmp : A -> A -> Z).

(** What the operation does to the list of the elements. *)
Definition op_spec (P : gmap loc A) (op : list_op) (l l' : list loc) : Prop :=
  match op with
  | Prepend p => l' = p :: l
  | Append p => l' = l ++ [p]
  | Delete p => exists l1 l2, l = l1 ++ p :: l2 /\ l' = l1 ++ l2
  | Replace_elem p q => exists l1 l2, l = l1 ++ p :: l2 /\ l' = l1 ++ q :: l2
  | Prepend_elem p q => exists l1 l2, l = l1 ++ p :: l2 /\ l' = l1 ++ q :: p :: l2
  | Sort cmp => sorted_version (cmp_at P cmp) l l'
  end.

(** What the macros expect: allocated elements that are not in the list yet,
    members to delete or replace, a comparison that is an order. *)
Definition op_legal (P : gmap loc A) (op : list_op) (l : list loc) : Prop :=
  match op with
  | Prepend p => is_Some (P !! p) /\ p ∉ l
  | Append p => l_appends /\ is_Some (P !! p) /\ p ∉ l
  | Delete p => p ∈ l
  | Replace_elem p q | Prepend_elem p q => p ∈ l /\ is_Some (P !! q) /\ q ∉ l
  | Sort cmp => Z.of_nat (length l) <= 2 ^ 30 /\
      Total (fun a b => cmp a b <= 0) /\ Transitive (fun a b => cmp a b <= 0)
  end.

Definition run_list_op (op : list_op) (h : option loc) : M St (option loc) :=
  match op with
  | Prepend p => l_prepend h p
  | Append p => l_append h p
  | Delete p => l_delete h p
  | Replace_elem p q => l_replace_elem h p q
  | Prepend_elem p q => l_prepend_elem h p q
  | Sort cmp => l_sort cmp h
  end.

Fixpoint run_list_ops (ops : list list_op) (h : option loc) : M St (option loc) :=
  match ops with
  | [] => ret h
  | op :: ops => let* h := run_list_op op h in run_list_ops ops h
  end.

Fixpoint ops_spec (P : gmap loc A) (ops : list list_op) (l l' : list loc) : Prop :=
  match ops with
  | [] => l' = l
  | op :: ops => exists l1, op_spec P op l l1 /\ ops_spec P ops l1 l'
  end.

Fixpoint ops_legal (P : gmap loc A) (ops : list list_op) (l : list loc) : Prop :=
  match ops with
  | [] => True
  | op :: ops => op_legal P op l /\ forall l1, op_spec P op l l1 -> ops_legal P ops l1
  end.

Lemma run_op_refine P op s h l : repr P s h l -> op_legal P op l ->
  exists l' s', run_list_op op h s = (Ret (head l'), s') /\ repr P s' (head l') l' /\
    op_spec P op l l'.
Proof.
  intros R. destruct op as [p|p|p|p q|p q|cmp]; cbn [op_legal op_spec run_list_op].
  - intros [Hp Hn]. destruct (l_prepend_run P s h l p R Hp Hn) as (s' & E & R').
    by exists (p :: l), s'.
  - intros (Ha & Hp & Hn). destruct (l_append_run P s h l p Ha R Hp Hn) as (s' & E & R').
    by exists (l ++ [p]), s'.
  - intros (l1 & l2 & ->)%list_elem_of_split.
    destruct (l_delete_run P s h l1 p l2 R) as (s' & E & R').
    exists (l1 ++ l2), s'. split_and!; [done..|by exists l1, l2].
  - intros ((l1 & l2 & ->)%list_elem_of_split & Hq & Hn).
    destruct (l_replace_elem_run P s h l1 p l2 q R Hq Hn) as (s' & E & R').
    exists (l1 ++ q :: l2), s'. split_and!; [done..|by exists l1, l2].
  - intros ((l1 & l2 & ->)%list_elem_of_split & Hq & Hn).
    destruct (l_prepend_elem_run P s h l1 p l2 q R Hq Hn) as (s' & E & R').
    exists (l1 ++ q :: p :: l2), s'. split_and!; [done..|by exists l1, l2].
  - intros (Hl & T1 & T2). apply (l_sort_run P s h l cmp R Hl); apply _.
Qed.

(** Every legal sequence of operations is the sequence of lists specified. *)
Lemma run_ops_refine P ops : forall s h l, repr P s h l -> ops_legal P ops l ->
  exists l' s', run_list_ops ops h s = (Ret (head l'), s') /\ repr P s' (head l') l' /\
    ops_spec P ops l l'.
Proof.
  induction ops as [|op ops IH]; intros s h l R Hl; cbn [run_list_ops ops_spec].
  - exists l, s. rewrite <- (repr_head P s h l R). done.
  - destruct Hl as [H1 H2]. destruct (run_op_refine P op s h l R H1) as (l1 & s1 & E & R1 & S1).
    destruct (IH s1 (head l1) l1 R1 (H2 l1 S1)) as (l' & s' & E' & R' & S').
    exists l', s'. rewrite (bind_ret_l _ _ _ _ _ E). split_and!; try done. by exists l1.
Qed.

End Interface.
Arguments LinkedList : clear implicits.

(** The comparison of integers, for examples. *)
Definition by_value (a b : Z) : Z := a - b.

#[export] Instance by_value_total : Total (fun a b => by_value a b <= 0).
Proof. intros a b. unfold by_value. lia. Qed.

#[export] Instance by_value_transitive : Transitive (fun a b => by_value a b <= 0).
Proof. intros a b c. unfold by_value. lia. Qed.
