(* ===== verification/UTHash.v ===== *)
(** * The hash table (src/uthash.h)

    The macros the program uses, [HASH_FIND], [HASH_ADD], [HASH_DELETE],
    [HASH_ITER] and [HASH_COUNT], at the level of the handles and buckets they
    manipulate: the doubly linked list in application order, the chains of the
    buckets, the Jenkins hash and the doubling of the buckets.  A hash handle
    lies inside its element, so a pointer to the handle ([ELMT_FROM_HH] and
    the additions of [hho]) is represented by the element.  The elements are
    seen as their handle and their key field.  [table_holds] relates such a
    state to the list of elements in application order. *)

From S2P Require Export Env Links.

(** [UT_hash_handle] (937-946) *)
Record UT_hash_handle := Handle {
  tbl : option loc;
  prev : option loc;
  next : option loc;
  hh_prev : option loc;
  hh_next : option loc;
  key : option loc;
  keylen : Z;
  hashv : Z }.

Definition zero_handle : UT_hash_handle :=
  Handle None None None None None None 0 0.

(** [UT_hash_bucket] (880-898) *)
Record UT_hash_bucket := Bucket {
  hh_head : option loc;
  count : Z;
  expand_mult : Z }.

Definition zero_bucket : UT_hash_bucket := Bucket None 0 0.

(** [UT_hash_table] (904-935) *)
Record UT_hash_table := Table {
  buckets : list UT_hash_bucket;
  num_buckets : Z;
  log2_num_buckets : Z;
  num_items : Z;
  tail_hh : option loc;
  ideal_chain_maxlen : Z;
  nonideal_items : Z;
  ineff_expands : Z;
  noexpand : Z }.

Definition HASH_INITIAL_NUM_BUCKETS : Z := 32.
Definition HASH_INITIAL_NUM_BUCKETS_LOG2 : Z := 5.
Definition HASH_BKT_CAPACITY_THRESH : Z := 10.

(** An element: its hash handle and its key field. *)
Record elem := Elem { hh : UT_hash_handle; field : bytes }.

(** The elements, the tables allocated, and the variable that points to the
    first element. *)
Record hstate := HState {
  elems : gmap loc elem;
  tables : gmap loc UT_hash_table;
  head_ptr : option loc }.

(** ** Accesses *)

Definition set_elems (x : gmap loc elem) (s : hstate) : hstate :=
  HState x (tables s) (head_ptr s).
Definition set_tables (x : gmap loc UT_hash_table) (s : hstate) : hstate :=
  HState (elems s) x (head_ptr s).
Definition set_head (x : option loc) (s : hstate) : hstate :=
  HState (elems s) (tables s) x.

Definition with_hh (f : UT_hash_handle -> UT_hash_handle) (e : elem) : elem :=
  Elem (f (hh e)) (field e).

Definition read_hh (p : loc) : M hstate UT_hash_handle := fun s =>
  deref (hh <$> elems s !! p) s.

Definition write_hh (p : loc) (f : UT_hash_handle -> UT_hash_handle) : M hstate unit :=
  read_hh p ;;; modify (fun s => set_elems (alter (with_hh f) p (elems s)) s).

Definition read_tbl (T : loc) : M hstate UT_hash_table := fun s =>
  deref (tables s !! T) s.

Definition write_tbl (T : loc) (f : UT_hash_table -> UT_hash_table) : M hstate unit :=
  read_tbl T ;;; modify (fun s => set_tables (alter f T (tables s)) s).

(** [(head)->hh.tbl] *)
Definition head_tbl : M hstate loc :=
  let* h := gets head_ptr in
  let* p := deref h in
  let* x := read_hh p in
  deref (tbl x).

Definition read_bucket (T : loc) (i : Z) : M hstate UT_hash_bucket :=
  let* t := read_tbl T in deref (buckets t !! Z.to_nat i).

(** Assignments to one field. *)
Definition put_tbl (v : option loc) (x : UT_hash_handle) : UT_hash_handle :=
  Handle v (prev x) (next x) (hh_prev x) (hh_next x) (key x) (keylen x) (hashv x).
Definition put_prev (v : option loc) (x : UT_hash_handle) : UT_hash_handle :=
  Handle (tbl x) v (next x) (hh_prev x) (hh_next x) (key x) (keylen x) (hashv x).
Definition put_next (v : option loc) (x : UT_hash_handle) : UT_hash_handle :=
  Handle (tbl x) (prev x) v (hh_prev x) (hh_next x) (key x) (keylen x) (hashv x).
Definition put_hh_prev (v : option loc) (x : UT_hash_handle) : UT_hash_handle :=
  Handle (tbl x) (prev x) (next x) v (hh_next x) (key x) (keylen x) (hashv x).
Definition put_hh_next (v : option loc) (x : UT_hash_handle) : UT_hash_handle :=
  Handle (tbl x) (prev x) (next x) (hh_prev x) v (key x) (keylen x) (hashv x).
Definition put_key (v : option loc) (n : Z) (x : UT_hash_handle) : UT_hash_handle :=
  Handle (tbl x) (prev x) (next x) (hh_prev x) (hh_next x) v n (hashv x).
Definition put_hashv (v : Z) (x : UT_hash_handle) : UT_hash_handle :=
  Handle (tbl x) (prev x) (next x) (hh_prev x) (hh_next x) (key x) (keylen x) v.

Definition put_hh_head (v : option loc) (b : UT_hash_bucket) : UT_hash_bucket :=
  Bucket v (count b) (expand_mult b).
Definition put_count (v : Z) (b : UT_hash_bucket) : UT_hash_bucket :=
  Bucket (hh_head b) v (expand_mult b).
Definition put_expand_mult (v : Z) (b : UT_hash_bucket) : UT_hash_bucket :=
  Bucket (hh_head b) (count b) v.

Definition put_buckets (v : list UT_hash_bucket) (t : UT_hash_table) : UT_hash_table :=
  Table v (num_buckets t) (log2_num_buckets t) (num_items t) (tail_hh t)
        (ideal_chain_maxlen t) (nonideal_items t) (ineff_expands t) (noexpand t).
Definition put_num_items (v : Z) (t : UT_hash_table) : UT_hash_table :=
  Table (buckets t) (num_buckets t) (log2_num_buckets t) v (tail_hh t)
        (ideal_chain_maxlen t) (nonideal_items t) (ineff_expands t) (noexpand t).
Definition put_tail (v : option loc) (t : UT_hash_table) : UT_hash_table :=
  Table (buckets t) (num_buckets t) (log2_num_buckets t) (num_items t) v
        (ideal_chain_maxlen t) (nonideal_items t) (ineff_expands t) (noexpand t).

Definition write_bucket (T : loc) (i : Z) (f : UT_hash_bucket -> UT_hash_bucket)
  : M hstate unit :=
  read_bucket T i ;;;
  write_tbl T (fun t => put_buckets (alter f (Z.to_nat i) (buckets t)) t).

(** [if (ptr) { (ptr)->field = ...; }] *)
Definition if_ptr (o : option loc) (f : UT_hash_handle -> UT_hash_handle) : M hstate unit :=
  match o with Some q => write_hh q f | None => ret tt end.

(** ** The Jenkins hash (403-459) *)

Definition HASH_JEN_MIX (abc : Z * Z * Z) : Z * Z * Z :=
  let '(a, b, c) := abc in
  let a := u32 (a - b) in let a := u32 (a - c) in let a := Z.lxor a (Z.shiftr c 13) in
  let b := u32 (b - c) in let b := u32 (b - a) in let b := Z.lxor b (u32 (Z.shiftl a 8)) in
  let c := u32 (c - a) in let c := u32 (c - b) in let c := Z.lxor c (Z.shiftr b 13) in
  let a := u32 (a - b) in let a := u32 (a - c) in let a := Z.lxor a (Z.shiftr c 12) in
  let b := u32 (b - c) in let b := u32 (b - a) in let b := Z.lxor b (u32 (Z.shiftl a 16)) in
  let c := u32 (c - a) in let c := u32 (c - b) in let c := Z.lxor c (Z.shiftr b 5) in
  let a := u32 (a - b) in let a := u32 (a - c) in let a := Z.lxor a (Z.shiftr c 3) in
  let b := u32 (b - c) in let b := u32 (b - a) in let b := Z.lxor b (u32 (Z.shiftl a 10)) in
  let c := u32 (c - a) in let c := u32 (c - b) in let c := Z.lxor c (Z.shiftr b 15) in
  (a, b, c).

(** [_hj_key[i]], 0 beyond the end: the cases of the [switch] that are not
    reached contribute nothing. *)
Definition key_byte (k : bytes) (i : nat) : Z :=
  match k !! i with Some b => byte.unsigned b | None => 0 end.

(** Four bytes of the key, the least significant first, as the shifted sums
    of the macro. *)
Definition key_word (k : bytes) (i : nat) : Z :=
  key_byte k i + Z.shiftl (key_byte k (i + 1)) 8
  + Z.shiftl (key_byte k (i + 2)) 16 + Z.shiftl (key_byte k (i + 3)) 24.

Fixpoint jen_blocks (fuel : nat) (k : bytes) (abc : Z * Z * Z) : Z * Z * Z * bytes :=
  match fuel with
  | O => (abc, k)
  | S fuel =>
      if (12 <=? length k)%nat then
        let '(i, j, h) := abc in
        jen_blocks fuel (drop 12 k)
          (HASH_JEN_MIX (u32 (i + key_word k 0), u32 (j + key_word k 4),
                         u32 (h + key_word k 8)))
      else (abc, k)
  end.

Definition HASH_JEN (k : bytes) : Z :=
  let '(i, j, h, k') := jen_blocks (length k) k (0x9e3779b9, 0x9e3779b9, 0xfeedbeef) in
  let h := u32 (h + Z.of_nat (length k)) in
  let h := u32 (h + Z.shiftl (key_byte k' 10) 24 + Z.shiftl (key_byte k' 9) 16
                + Z.shiftl (key_byte k' 8) 8) in
  let j := u32 (j + key_word k' 4) in
  let i := u32 (i + key_word k' 0) in
  let '(_, _, h) := HASH_JEN_MIX (i, j, h) in h.

(** [HASH_TO_BKT] (198-201), also the last line of the hash. *)
Definition HASH_TO_BKT (v num_bkts : Z) : Z := Z.land v (num_bkts - 1).

(** The hash function (346-352): [HASH_FUNCTION], if the compiler defines it,
    or [HASH_JEN]; the program is compiled with the latter.  What is shown of
    the table holds for every function. *)
Class HashFunction := HASH_FCN : bytes -> Z.

#[export] Instance default_hash : HashFunction | 100 := HASH_JEN.

Section Operations.
Context `{HF : HashFunction}.

(** ** Looking up *)

(** The first [keylen] bytes of the key of an element, for [memcmp] and the
    hash. *)
Definition read_key (p : loc) (n : Z) : M hstate bytes := fun s =>
  deref (match elems s !! p with
         | Some e => if (n <=? Z.of_nat (length (field e))) then
                       Some (take (Z.to_nat n) (field e)) else None
         | None => None
         end) s.

(** The loop of [HASH_FIND_IN_BKT] (597-608).  The chain is followed for at
    most [fuel] elements; a chain longer than the number of elements runs in a
    circle, and the loop does not end. *)
Fixpoint find_loop (fuel : nat) (k : bytes) (out : option loc) : M hstate (option loc) :=
  match out, fuel with
  | None, _ => ret None
  | Some _, O => fail Blocked
  | Some p, S fuel =>
      let* x := read_hh p in
      let continue := find_loop fuel k (hh_next x) in
      if keylen x =? Z.of_nat (length k) then
        let* q := deref (key x) in
        let* k' := read_key q (Z.of_nat (length k)) in
        if decide (k' = k) then ret (Some p) else continue
      else continue
  end.

Definition HASH_FIND_IN_BKT (T : loc) (i : Z) (k : bytes) : M hstate (option loc) :=
  let* b := read_bucket T i in
  let* n := gets (fun s => size (elems s)) in
  find_loop n k (hh_head b).

(** [HASH_FIND] (94-105) of the key [k]; there is no Bloom filter. *)
Definition HASH_FIND (k : bytes) : M hstate (option loc) :=
  let* h := gets head_ptr in
  match h with
  | None => ret None
  | Some _ =>
      let* T := head_tbl in
      let* t := read_tbl T in
      HASH_FIND_IN_BKT T (HASH_TO_BKT (HASH_FCN k) (num_buckets t)) k
  end.

(** ** Doubling the buckets (666-712) *)

(** The new buckets and [nonideal_items] while the loops run. *)
Definition expansion : Type := list UT_hash_bucket * Z.

(** The count of a new bucket, 688-692. *)
Definition grow (ideal : Z) (b : UT_hash_bucket) (nonideal : Z)
  : M hstate (UT_hash_bucket * Z) :=
  let b := put_count (u32 (count b + 1)) b in
  if (ideal <? count b) then
    if ideal =? 0 then fail Undefined
    else ret (put_expand_mult (count b / ideal) b, u32 (nonideal + 1))
  else ret (b, nonideal).

(** One pass of the inner loop, 685-697. *)
Definition expand_one (ideal num : Z) (p : loc) (v : Z) (x : expansion)
  : M hstate expansion :=
  let '(new, nonideal) := x in
  let i := Z.to_nat (HASH_TO_BKT v (u32 (num * 2))) in
  let* b := deref (new !! i) in
  let* r := grow ideal b nonideal in
  let '(b, nonideal) := r in
  write_hh p (put_hh_prev None) ;;;
  write_hh p (put_hh_next (hh_head b)) ;;;
  if_ptr (hh_head b) (put_hh_prev (Some p)) ;;;
  ret (<[i := put_hh_head (Some p) b]> new, nonideal).

Fixpoint expand_chain (fuel : nat) (ideal num : Z) (thh : option loc) (x : expansion)
  : M hstate expansion :=
  match thh, fuel with
  | None, _ => ret x
  | Some _, O => fail Blocked
  | Some p, S fuel =>
      let* h := read_hh p in
      let* x := expand_one ideal num p (hashv h) x in
      expand_chain fuel ideal num (hh_next h) x
  end.

Fixpoint expand_buckets (ideal num : Z) (bs : list UT_hash_bucket) (x : expansion)
  : M hstate expansion :=
  match bs with
  | [] => ret x
  | b :: bs =>
      let* n := gets (fun s => size (elems s)) in
      let* x := expand_chain n ideal num (hh_head b) x in
      expand_buckets ideal num bs x
  end.

(** [ceil(num_items / (2 * num_buckets))], 677-679. *)
Definition ideal_chain (t : UT_hash_table) : Z :=
  u32 (Z.shiftr (num_items t) (log2_num_buckets t + 1)
       + (if Z.land (num_items t) (u32 (u32 (num_buckets t * 2) - 1)) =? 0 then 0 else 1)).

(** The table after the loops, 702-710. *)
Definition expanded (ideal : Z) (x : expansion) (t : UT_hash_table) : UT_hash_table :=
  let ineff := if Z.shiftr (num_items t) 1 <? x.2 then u32 (ineff_expands t + 1) else 0 in
  Table x.1 (u32 (num_buckets t * 2)) (u32 (log2_num_buckets t + 1)) (num_items t)
        (tail_hh t) ideal x.2 ineff (if 1 <? ineff then 1 else noexpand t).

Definition HASH_EXPAND_BUCKETS (T : loc) : M hstate unit :=
  let* t := read_tbl T in
  let ideal := ideal_chain t in
  let new := replicate (Z.to_nat (u32 (num_buckets t * 2))) zero_bucket in
  let* x := expand_buckets ideal (num_buckets t)
              (take (Z.to_nat (num_buckets t)) (buckets t)) (new, 0) in
  write_tbl T (expanded ideal x).

(** ** Adding *)

(** [HASH_ADD_TO_BKT] (611-622) *)
Definition HASH_ADD_TO_BKT (T : loc) (i : Z) (p : loc) : M hstate unit :=
  write_bucket T i (fun b => put_count (u32 (count b + 1)) b) ;;;
  let* b := read_bucket T i in
  write_hh p (put_hh_next (hh_head b)) ;;;
  write_hh p (put_hh_prev None) ;;;
  if_ptr (hh_head b) (put_hh_prev (Some p)) ;;;
  write_bucket T i (put_hh_head (Some p)) ;;;
  let* x := read_hh p in
  let* T' := deref (tbl x) in
  let* t := read_tbl T' in
  if (u32 (u32 (expand_mult b + 1) * HASH_BKT_CAPACITY_THRESH) <=? count b)
     && negb (noexpand t =? 1)
  then HASH_EXPAND_BUCKETS T' else ret tt.

Definition new_table (p : loc) : UT_hash_table :=
  Table (replicate (Z.to_nat HASH_INITIAL_NUM_BUCKETS) zero_bucket)
        HASH_INITIAL_NUM_BUCKETS HASH_INITIAL_NUM_BUCKETS_LOG2 0 (Some p) 0 0 0 0.

(** [HASH_MAKE_TABLE] (141-159), on the first element. *)
Definition HASH_MAKE_TABLE (p : loc) : M hstate unit :=
  let* T := gets (fun s => fresh (dom (tables s))) in
  modify (fun s => set_tables (<[T := new_table p]> (tables s)) s) ;;;
  write_hh p (put_tbl (Some T)).

(** [HASH_ADD_KEYPTR], 179-188: linking the element at the end of the list in
    application order. *)
Definition add_in_order (p : loc) : M hstate unit :=
  let* h := gets head_ptr in
  match h with
  | None =>
      modify (set_head (Some p)) ;;;
      write_hh p (put_prev None) ;;;
      HASH_MAKE_TABLE p
  | Some _ =>
      let* T := head_tbl in
      let* t := read_tbl T in
      let* q := deref (tail_hh t) in
      write_hh q (put_next (Some p)) ;;;
      write_hh p (put_prev (Some q)) ;;;
      write_tbl T (put_tail (Some p))
  end.

(** [HASH_ADD_KEYPTR], 189-193: the hash value and the bucket. *)
Definition add_hashed (n : Z) (p : loc) : M hstate unit :=
  let* T := head_tbl in
  write_tbl T (fun t => put_num_items (u32 (num_items t + 1)) t) ;;;
  write_hh p (put_tbl (Some T)) ;;;
  let* k := read_key p n in
  write_hh p (put_hashv (HASH_FCN k)) ;;;
  let* t := read_tbl T in
  HASH_ADD_TO_BKT T (HASH_TO_BKT (HASH_FCN k) (num_buckets t)) p.

(** [HASH_ADD] and [HASH_ADD_KEYPTR] (161-196), the key being the first [n]
    bytes of the key field. *)
Definition HASH_ADD (n : Z) (p : loc) : M hstate unit :=
  write_hh p (put_next None) ;;;
  write_hh p (put_key (Some p) n) ;;;
  add_in_order p ;;;
  add_hashed n p.

(** ** Deleting *)

(** [HASH_DEL_IN_BKT] (625-635) *)
Definition HASH_DEL_IN_BKT (T : loc) (i : Z) (p : loc) : M hstate unit :=
  write_bucket T i (fun b => put_count (u32 (count b - 1)) b) ;;;
  let* b := read_bucket T i in
  let* x := read_hh p in
  (if decide (hh_head b = Some p) then
     write_bucket T i (put_hh_head (hh_next x))
   else ret tt) ;;;
  if_ptr (hh_prev x) (put_hh_next (hh_next x)) ;;;
  if_ptr (hh_next x) (put_hh_prev (hh_prev x)).

(** [HASH_DELETE], 220-224: the last element goes with its table. *)
Definition delete_table : M hstate unit :=
  let* T := head_tbl in
  read_tbl T ;;;
  modify (fun s => set_tables (delete T (tables s)) s) ;;;
  modify (set_head None).

(** [HASH_DELETE], 226-241: the list in application order. *)
Definition delete_in_order (p : loc) : M hstate unit :=
  let* x := read_hh p in
  let* T := head_tbl in
  let* t := read_tbl T in
  (if decide (tail_hh t = Some p) then write_tbl T (put_tail (prev x)) else ret tt) ;;;
  match prev x with
  | Some q => write_hh q (put_next (next x))
  | None => modify (set_head (next x))
  end ;;;
  let* x := read_hh p in
  if_ptr (next x) (put_prev (prev x)).

(** [HASH_DELETE] (215-248) *)
Definition HASH_DELETE (p : loc) : M hstate unit :=
  let* x := read_hh p in
  if decide (prev x = None /\ next x = None) then delete_table
  else
    delete_in_order p ;;;
    let* x := read_hh p in
    let* T := head_tbl in
    let* t := read_tbl T in
    HASH_DEL_IN_BKT T (HASH_TO_BKT (hashv x) (num_buckets t)) p ;;;
    let* T := head_tbl in
    write_tbl T (fun t => put_num_items (u32 (num_items t - 1)) t).

(** ** Counting and iterating *)

(** [HASH_COUNT] (877-878) *)
Definition HASH_COUNT : M hstate Z :=
  let* h := gets head_ptr in
  match h with
  | None => ret 0
  | Some _ => let* T := head_tbl in let* t := read_tbl T in ret (num_items t)
  end.

(** The successor of an element, or nothing. *)
Definition successor (o : option loc) : M hstate (option loc) :=
  match o with
  | None => ret None
  | Some p => let* x := read_hh p in ret (next x)
  end.

Fixpoint iter_loop (body : loc -> M hstate unit) (fuel : nat) (el tmp : option loc)
  : M hstate unit :=
  match el, fuel with
  | None, _ => ret tt
  | Some _, O => fail Blocked
  | Some p, S fuel =>
      body p ;;;
      let* tmp' := successor tmp in
      iter_loop body fuel tmp tmp'
  end.

(** [HASH_ITER] (871-873); [fuel] bounds the number of passes. *)
Definition HASH_ITER (fuel : nat) (body : loc -> M hstate unit) : M hstate unit :=
  let* h := gets head_ptr in
  let* tmp := successor h in
  iter_loop body fuel h tmp.

End Operations.

(** ** The three parts of an element: its identity and its two pairs of links *)

Definition ident (m : gmap loc elem) (p : loc) : option (bytes * option loc * option loc * Z * Z) :=
  (fun e => (field e, tbl (hh e), key (hh e), keylen (hh e), hashv (hh e))) <$> m !! p.

(** The list in application order, and the chain of a bucket. *)
Definition alinks (m : gmap loc elem) (p : loc) : option (option loc * option loc) :=
  (fun e => (prev (hh e), next (hh e))) <$> m !! p.

Definition blinks (m : gmap loc elem) (p : loc) : option (option loc * option loc) :=
  (fun e => (hh_prev (hh e), hh_next (hh e))) <$> m !! p.

Definition upd (p : loc) (f : UT_hash_handle -> UT_hash_handle) (m : gmap loc elem)
  : gmap loc elem := alter (with_hh f) p m.

Definition upd_opt (o : option loc) (f : UT_hash_handle -> UT_hash_handle)
  (m : gmap loc elem) : gmap loc elem :=
  match o with Some q => upd q f m | None => m end.

(** What an assignment to one field does to each part. *)
Ltac part_of :=
  intros; unfold upd, ident, alinks, blinks; rewrite lookup_alter;
  repeat case_decide; subst; try congruence;
  match goal with |- context [?m !! ?q] => destruct (m !! q) end; reflexivity.

Lemma ident_put_prev m p v q : ident (upd p (put_prev v) m) q = ident m q.
Proof. part_of. Qed.
Lemma ident_put_next m p v q : ident (upd p (put_next v) m) q = ident m q.
Proof. part_of. Qed.
Lemma ident_put_hh_prev m p v q : ident (upd p (put_hh_prev v) m) q = ident m q.
Proof. part_of. Qed.
Lemma ident_put_hh_next m p v q : ident (upd p (put_hh_next v) m) q = ident m q.
Proof. part_of. Qed.
Lemma alinks_put_hh_prev m p v q : alinks (upd p (put_hh_prev v) m) q = alinks m q.
Proof. part_of. Qed.
Lemma alinks_put_hh_next m p v q : alinks (upd p (put_hh_next v) m) q = alinks m q.
Proof. part_of. Qed.
Lemma blinks_put_prev m p v q : blinks (upd p (put_prev v) m) q = blinks m q.
Proof. part_of. Qed.
Lemma blinks_put_next m p v q : blinks (upd p (put_next v) m) q = blinks m q.
Proof. part_of. Qed.
Lemma alinks_put_prev m p v q :
  alinks (upd p (put_prev v) m) q =
  if decide (q = p) then (fun x => (v, snd x)) <$> alinks m q else alinks m q.
Proof. part_of. Qed.
Lemma alinks_put_next m p v q :
  alinks (upd p (put_next v) m) q =
  if decide (q = p) then (fun x => (fst x, v)) <$> alinks m q else alinks m q.
Proof. part_of. Qed.
Lemma blinks_put_hh_prev m p v q :
  blinks (upd p (put_hh_prev v) m) q =
  if decide (q = p) then (fun x => (v, snd x)) <$> blinks m q else blinks m q.
Proof. part_of. Qed.
Lemma blinks_put_hh_next m p v q :
  blinks (upd p (put_hh_next v) m) q =
  if decide (q = p) then (fun x => (fst x, v)) <$> blinks m q else blinks m q.
Proof. part_of. Qed.

Lemma alinks_put_tbl m p v q : alinks (upd p (put_tbl v) m) q = alinks m q.
Proof. part_of. Qed.
Lemma alinks_put_key m p v n q : alinks (upd p (put_key v n) m) q = alinks m q.
Proof. part_of. Qed.
Lemma alinks_put_hashv m p v q : alinks (upd p (put_hashv v) m) q = alinks m q.
Proof. part_of. Qed.
Lemma blinks_put_tbl m p v q : blinks (upd p (put_tbl v) m) q = blinks m q.
Proof. part_of. Qed.
Lemma blinks_put_key m p v n q : blinks (upd p (put_key v n) m) q = blinks m q.
Proof. part_of. Qed.
Lemma blinks_put_hashv m p v q : blinks (upd p (put_hashv v) m) q = blinks m q.
Proof. part_of. Qed.
Lemma ident_put_tbl m p v q :
  ident (upd p (put_tbl v) m) q =
  if decide (q = p)
  then (fun '(f, _, k, n, h) => (f, v, k, n, h)) <$> ident m q else ident m q.
Proof. part_of. Qed.
Lemma ident_put_key m p v n q :
  ident (upd p (put_key v n) m) q =
  if decide (q = p)
  then (fun '(f, t, _, _, h) => (f, t, v, n, h)) <$> ident m q else ident m q.
Proof. part_of. Qed.
Lemma ident_put_hashv m p v q :
  ident (upd p (put_hashv v) m) q =
  if decide (q = p)
  then (fun '(f, t, k, n, _) => (f, t, k, n, v)) <$> ident m q else ident m q.
Proof. part_of. Qed.

Create Rewrite HintDb parts.
#[export] Hint Rewrite ident_put_prev ident_put_next ident_put_hh_prev ident_put_hh_next
  alinks_put_hh_prev alinks_put_hh_next blinks_put_prev blinks_put_next
  alinks_put_prev alinks_put_next blinks_put_hh_prev blinks_put_hh_next
  alinks_put_tbl alinks_put_key alinks_put_hashv
  blinks_put_tbl blinks_put_key blinks_put_hashv
  ident_put_tbl ident_put_key ident_put_hashv : parts.

Lemma upd_live p f m q : is_Some (upd p f m !! q) <-> is_Some (m !! q).
Proof. apply lookup_alter_is_Some. Qed.

Lemma upd_opt_live o f m q : is_Some (upd_opt o f m !! q) <-> is_Some (m !! q).
Proof. destruct o; [apply upd_live|done]. Qed.

Lemma upd_field p f m : field <$> upd p f m = field <$> m.
Proof.
  apply map_eq. intros q. unfold upd. rewrite !lookup_fmap, lookup_alter.
  case_decide; subst; [|done]. by destruct (m !! q).
Qed.

Lemma upd_opt_field o f m : field <$> upd_opt o f m = field <$> m.
Proof. destruct o; [apply upd_field|done]. Qed.

Lemma live_ident m p : is_Some (ident m p) <-> is_Some (m !! p).
Proof. apply fmap_is_Some. Qed.

Lemma links_live m b l a p : links (alinks m) b l a -> p ∈ l -> is_Some (m !! p).
Proof.
  intros L (l1 & l2 & ->)%list_elem_of_split. apply links_lookup in L.
  apply (fmap_is_Some (fun e => (prev (hh e), next (hh e)))). unfold alinks in L. by rewrite L.
Qed.

(** ** Running the assignments *)

Lemma read_hh_run s p e : elems s !! p = Some e -> read_hh p s = (Ret (hh e), s).
Proof. unfold read_hh. by intros ->. Qed.

Lemma write_hh_run s p f :
  is_Some (elems s !! p) -> write_hh p f s = (Ret tt, set_elems (upd p f (elems s)) s).
Proof. intros [e E]. unfold write_hh. by rewrite (bind_ret_l _ _ _ _ _ (read_hh_run s p e E)). Qed.

Lemma if_ptr_run s o f :
  (forall q, o = Some q -> is_Some (elems s !! q)) ->
  if_ptr o f s = (Ret tt, set_elems (upd_opt o f (elems s)) s).
Proof. destruct o; intros H; [by apply write_hh_run, H|]. by destruct s. Qed.

Lemma read_tbl_run s T t : tables s !! T = Some t -> read_tbl T s = (Ret t, s).
Proof. unfold read_tbl. by intros ->. Qed.

Lemma write_tbl_run s T f t :
  tables s !! T = Some t ->
  write_tbl T f s = (Ret tt, set_tables (<[T := f t]> (tables s)) s).
Proof.
  intros E. unfold write_tbl. rewrite (bind_ret_l _ _ _ _ _ (read_tbl_run s T t E)).
  unfold modify. do 2 f_equal. apply map_eq. intros T'. rewrite lookup_alter, lookup_insert.
  case_decide; subst; [|done]. by rewrite E.
Qed.

Lemma read_bucket_run s T i t b :
  tables s !! T = Some t -> buckets t !! Z.to_nat i = Some b ->
  read_bucket T i s = (Ret b, s).
Proof.
  intros E1 E2. unfold read_bucket. rewrite (bind_ret_l _ _ _ _ _ (read_tbl_run s T t E1)).
  by rewrite E2.
Qed.

Lemma alter_insert_list {A} (f : A -> A) (l : list A) (i : nat) x :
  l !! i = Some x -> alter f i l = <[i := f x]> l.
Proof.
  revert i. induction l as [|y l IH]; intros [|i] E; try done.
  - by injection E as ->.
  - cbn in *. by rewrite IH.
Qed.

Lemma write_bucket_run s T i f t b :
  tables s !! T = Some t -> buckets t !! Z.to_nat i = Some b ->
  write_bucket T i f s =
  (Ret tt, set_tables (<[T := put_buckets (<[Z.to_nat i := f b]> (buckets t)) t]> (tables s)) s).
Proof.
  intros E1 E2. unfold write_bucket.
  rewrite (bind_ret_l _ _ _ _ _ (read_bucket_run s T i t b E1 E2)).
  rewrite (write_tbl_run _ _ _ t E1). by rewrite (alter_insert_list _ _ _ b E2).
Qed.

(** ** Buckets

    The chain of a bucket, and an array of buckets that holds the elements
    [t], each in the bucket of its hash value. *)

Definition bucket_holds (m : gmap loc elem) (b : UT_hash_bucket) (c : list loc) : Prop :=
  hh_head b = first c None /\ count b = Z.of_nat (length c) /\ NoDup c /\
  links (blinks m) None c None.

Definition in_bucket (m : gmap loc elem) (num : Z) (p : loc) (i : nat) : Prop :=
  exists x, ident m p = Some x /\ HASH_TO_BKT (snd x) num = Z.of_nat i.

Definition filled (m : gmap loc elem) (bs : list UT_hash_bucket) (num : Z)
  (t : list loc) (chain : nat -> list loc) : Prop :=
  length bs = Z.to_nat num /\
  forall i b, bs !! i = Some b ->
    bucket_holds m b (chain i) /\
    forall p, p ∈ chain i <-> p ∈ t /\ in_bucket m num p i.

Lemma in_bucket_inj m num p i j : in_bucket m num p i -> in_bucket m num p j -> i = j.
Proof. intros (x & E1 & E2) (y & E3 & E4). simplify_eq. lia. Qed.

Lemma in_bucket_ext m m' num p i :
  ident m' p = ident m p -> in_bucket m num p i -> in_bucket m' num p i.
Proof. unfold in_bucket. by intros ->. Qed.

Lemma bucket_holds_ext m m' b c :
  (forall p, p ∈ c -> blinks m' p = blinks m p) -> bucket_holds m b c -> bucket_holds m' b c.
Proof. intros E (H1 & H2 & H3 & H4). repeat (split; [done|]). by apply (links_ext (blinks m)). Qed.

Lemma filled_ext m m' bs num t t' chain :
  (forall p, p ∈ t -> ident m' p = ident m p) ->
  (forall p, p ∈ t -> blinks m' p = blinks m p) ->
  (forall p, p ∈ t' <-> p ∈ t) ->
  filled m bs num t chain -> filled m' bs num t' chain.
Proof.
  intros E1 E2 Et [F1 F2]. split; [done|]. intros i b Hb. destruct (F2 i b Hb) as [B C]. split.
  - apply (bucket_holds_ext m); [|done]. intros p Hp. by apply E2, C.
  - intros p. rewrite C, Et. split; intros [Hp Hi]; (split; [done|]); revert Hi;
      apply in_bucket_ext; [|symmetry]; by apply E1.
Qed.

(** No multiplier is large enough to wrap the test for the expansion. *)
Definition mults (bs : list UT_hash_bucket) : Prop :=
  Forall (fun b => 0 <= expand_mult b < 2 ^ 28) bs.

Lemma mults_insert bs i b :
  mults bs -> 0 <= expand_mult b < 2 ^ 28 -> mults (<[i := b]> bs).
Proof. intros H Hb. by apply Forall_insert. Qed.

Lemma mults_lookup bs i b : mults bs -> bs !! i = Some b -> 0 <= expand_mult b < 2 ^ 28.
Proof. intros H Hb. by apply (Forall_lookup_1 _ _ _ _ H Hb). Qed.

(** The links after [HASH_ADD_TO_BKT], or a pass of the expansion. *)
Definition pushed (p : loc) (h : option loc) (m : gmap loc elem) : gmap loc elem :=
  upd_opt h (put_hh_prev (Some p)) (upd p (put_hh_prev None) (upd p (put_hh_next h) m)).

Lemma pushed_ident p h m q : ident (pushed p h m) q = ident m q.
Proof. unfold pushed. destruct h; cbn; by autorewrite with parts. Qed.

Lemma pushed_alinks p h m q : alinks (pushed p h m) q = alinks m q.
Proof. unfold pushed. destruct h; cbn; by autorewrite with parts. Qed.

Lemma pushed_blinks p h m q :
  h <> Some p ->
  blinks (pushed p h m) q =
  if decide (q = p) then (fun _ => (None, h)) <$> blinks m q
  else if decide (Some q = h) then (fun x => (Some p, snd x)) <$> blinks m q
  else blinks m q.
Proof.
  intros Hh. unfold pushed. destruct h as [r|]; cbn; autorewrite with parts;
    repeat case_decide; simplify_eq; try done; by destruct (blinks m p).
Qed.

(** Pushing an element in front of the chain of its bucket. *)
Lemma filled_push m bs num t t' chain p i b e :
  filled m bs num t chain -> p ∉ t -> in_bucket m num p i -> bs !! i = Some b ->
  (forall q, q ∈ t' <-> q = p \/ q ∈ t) ->
  filled (pushed p (hh_head b) m) (<[i := Bucket (Some p) (count b + 1) e]> bs) num t'
    (fun j => if decide (j = i) then p :: chain i else chain j).
Proof.
  intros [F1 F2] Hp Hi Hb Ht. destruct (F2 i b Hb) as [(B1 & B2 & B3 & B4) C].
  assert (p ∉ chain i) as Hpc by (rewrite C; tauto).
  assert (hh_head b <> Some p) as Hh.
  { rewrite B1. destruct (chain i); cbn; [done|]. intros [= ->]. by destruct Hpc; left. }
  assert (is_Some (blinks m p)) as [x Hx].
  { destruct Hi as (x & Hx & _). apply fmap_is_Some, live_ident. by rewrite Hx. }
  split; [by rewrite length_insert|]. intros j b' Hb'. case_decide as Hj.
  - subst j. rewrite list_lookup_insert_eq in Hb' by eauto using lookup_lt_Some.
    injection Hb' as <-. split.
    + split; [done|]. split; [cbn; lia|]. split; [by constructor|]. split.
      * rewrite pushed_blinks by done. rewrite decide_True by done. rewrite Hx.
        cbn. by rewrite B1.
      * revert B4. apply links_before; [done|]. intros q Hq.
        rewrite pushed_blinks by done. rewrite decide_False by (by intros ->). by rewrite B1.
    + intros q. rewrite elem_of_cons, C, Ht. split.
      * intros [->|[Hq Hqi]]; (split; [tauto|]); [revert Hi|revert Hqi];
          apply in_bucket_ext, pushed_ident.
      * intros [[->|Hq] Hqi]; [by left|]. right. split; [done|]. revert Hqi.
        apply in_bucket_ext. by rewrite pushed_ident.
  - rewrite list_lookup_insert_ne in Hb' by done. destruct (F2 j b' Hb') as [B C']. split.
    + revert B. apply bucket_holds_ext. intros q Hq. apply C' in Hq as [Hqt Hqj].
      rewrite pushed_blinks by done. rewrite decide_False by (intros ->; tauto).
      rewrite decide_False; [done|]. intros Hq. destruct (chain i) as [|q' c] eqn:E;
        rewrite B1 in Hq; [done|]. injection Hq as <-.
      destruct (C q) as [[_ Hqi] _]; [by left|]. by destruct (in_bucket_inj _ _ _ _ _ Hqi Hqj).
    + intros q. rewrite C', Ht. split.
      * intros [Hq Hqj]. split; [tauto|]. revert Hqj. apply in_bucket_ext, pushed_ident.
      * intros [[->|Hq] Hqj]; [|split; [done|]; revert Hqj; apply in_bucket_ext; by rewrite pushed_ident].
        destruct Hj. apply (in_bucket_inj m num p); [|done]. revert Hqj.
        apply in_bucket_ext. by rewrite pushed_ident.
Qed.

(** The links after [HASH_DEL_IN_BKT] of an element with handle [x]. *)
Definition popped (x : UT_hash_handle) (m : gmap loc elem) : gmap loc elem :=
  upd_opt (hh_next x) (put_hh_prev (hh_prev x)) (upd_opt (hh_prev x) (put_hh_next (hh_next x)) m).

Lemma popped_ident x m q : ident (popped x m) q = ident m q.
Proof. unfold popped. destruct (hh_next x), (hh_prev x); cbn; by autorewrite with parts. Qed.

Lemma popped_alinks x m q : alinks (popped x m) q = alinks m q.
Proof. unfold popped. destruct (hh_next x), (hh_prev x); cbn; by autorewrite with parts. Qed.

Lemma popped_blinks x m q :
  blinks (popped x m) q =
  let y := if decide (Some q = hh_prev x)
           then (fun y => (fst y, hh_next x)) <$> blinks m q else blinks m q in
  if decide (Some q = hh_next x) then (fun y => (hh_prev x, snd y)) <$> y else y.
Proof.
  unfold popped. destruct (hh_next x) as [n|], (hh_prev x) as [v|]; cbn;
    autorewrite with parts; repeat case_decide; simplify_eq; done.
Qed.

(** Taking an element out of its bucket. *)
Lemma filled_pop m bs num t t' chain p i b e h :
  filled m bs num t chain -> p ∈ t -> in_bucket m num p i -> bs !! i = Some b ->
  m !! p = Some e ->
  h = (if decide (hh_head b = Some p) then hh_next (hh e) else hh_head b) ->
  (forall q, q ∈ t' <-> q <> p /\ q ∈ t) ->
  exists chain', filled (popped (hh e) m) (<[i := Bucket h (count b - 1) (expand_mult b)]> bs)
                        num t' chain'.
Proof.
  intros [F1 F2] Hp Hi Hb He -> Ht. destruct (F2 i b Hb) as [(B1 & B2 & B3 & B4) C].
  assert (p ∈ chain i) as Hpc by (by rewrite C).
  apply list_elem_of_split in Hpc as (c & c' & Ec). rewrite Ec in *.
  assert (blinks m p = Some (hh_prev (hh e), hh_next (hh e))) as Hx by (unfold blinks; by rewrite He).
  pose proof (links_lookup _ _ _ _ _ _ B4) as E. rewrite Hx in E. injection E as Ep En.
  pose proof B3 as (NDc & D & [Dp NDc']%NoDup_cons)%NoDup_app.
  exists (fun j => if decide (j = i) then c ++ c' else chain j).
  split; [by rewrite length_insert|]. intros j b' Hb'. cbn beta. destruct (decide (j = i)) as [Hj|Hj].
  - subst j. rewrite list_lookup_insert_eq in Hb' by eauto using lookup_lt_Some.
    injection Hb' as <-. split; [split|].
    + cbn. rewrite B1, first_app. destruct c as [|r c]; cbn.
      * by rewrite decide_True.
      * rewrite decide_False; [done|]. intros [= ->]. apply (D p); [|]; by left.
    + split; [cbn; rewrite B2, !length_app; cbn; lia|]. split.
      * apply NoDup_app. split; [done|]. split; [|done]. intros q Hq Hq'. apply (D q Hq). by right.
      * apply (links_spliced (blinks m) _ _ p _ _ _ B3 Ep En); [|done].
        intros q. apply popped_blinks.
    + intros q. specialize (C q). rewrite elem_of_app, elem_of_cons in C.
      rewrite elem_of_app, Ht. unfold in_bucket in *. rewrite popped_ident.
      destruct (decide (q = p)) as [->|]; [|tauto].
      split; [|tauto]. intros [Hq|Hq]; [|done]. destruct (D p Hq). by left.
  - rewrite list_lookup_insert_ne in Hb' by done. destruct (F2 j b' Hb') as [B C']. split.
    + revert B. apply bucket_holds_ext. intros q Hq. apply C' in Hq as [Hqt Hqj].
      assert (forall r, r ∈ c ++ p :: c' -> Some q <> Some r) as Hne.
      { intros r Hr [= <-]. apply C in Hr as [_ Hqi].
        by destruct (in_bucket_inj _ _ _ _ _ Hqi Hqj). }
      rewrite popped_blinks. cbn. rewrite Ep, En. rewrite !decide_False; [done| |].
      * unfold final. destruct (last c) as [r|] eqn:El; [|done]. apply Hne, elem_of_app. left.
        by apply last_Some_elem_of.
      * destruct c' as [|r c']; [done|]. cbn. apply Hne, elem_of_app. right. right. by left.
    + intros q. rewrite C', Ht. unfold in_bucket. rewrite popped_ident.
      split; [|tauto]. intros [Hq Hqj]. split; [|done]. split; [|done]. intros ->.
      destruct Hj. symmetry. by apply (in_bucket_inj m num p).
Qed.

(** ** The expansion keeps every element, in the bucket of its hash value *)

Lemma u32_small z : 0 <= z < 2 ^ 32 -> u32 z = z.
Proof. apply uwrap_small. Qed.

Lemma HASH_TO_BKT_mod v k : 0 <= k -> HASH_TO_BKT v (2 ^ k) = v mod 2 ^ k.
Proof.
  intros Hk. unfold HASH_TO_BKT. replace (2 ^ k - 1) with (Z.ones k).
  - by apply Z.land_ones.
  - rewrite Z.ones_equiv. lia.
Qed.

Lemma bucket_exists {A} (bs : list A) v k :
  0 <= k -> length bs = Z.to_nat (2 ^ k) -> is_Some (bs !! Z.to_nat (HASH_TO_BKT v (2 ^ k))).
Proof.
  intros Hk E. apply lookup_lt_is_Some. rewrite E, HASH_TO_BKT_mod by done.
  pose proof (Z.mod_pos_bound v (2 ^ k)). lia.
Qed.

Lemma to_bucket m p x v k :
  0 <= k -> ident m p = Some x -> snd x = v ->
  in_bucket m (2 ^ k) p (Z.to_nat (HASH_TO_BKT v (2 ^ k))).
Proof.
  intros Hk E <-. exists x. split; [done|]. rewrite HASH_TO_BKT_mod by done.
  pose proof (Z.mod_pos_bound (snd x) (2 ^ k)). lia.
Qed.

Lemma NoDup_length_le {A} (l l' : list A) :
  NoDup l -> (forall x, x ∈ l -> x ∈ l') -> (length l <= length l')%nat.
Proof. intros ND H. by apply submseteq_length, NoDup_submseteq. Qed.

Lemma live_length (m : gmap loc elem) c :
  NoDup c -> (forall p, p ∈ c -> is_Some (m !! p)) -> (length c <= size m)%nat.
Proof.
  intros ND L. rewrite <- size_dom, <- (size_list_to_set (C := gset loc) c) by done.
  apply subseteq_size. intros p Hp. apply elem_of_list_to_set in Hp.
  by apply elem_of_dom, L.
Qed.

Lemma upd_comm p f g m :
  (forall e, with_hh f (with_hh g e) = with_hh g (with_hh f e)) ->
  upd p f (upd p g m) = upd p g (upd p f m).
Proof.
  intros E. apply map_eq. intros q. unfold upd. rewrite !lookup_alter.
  case_decide; subst; [|done]. rewrite !decide_True by done.
  destruct (m !! q); cbn; [by rewrite E|done].
Qed.

Lemma grow_run ideal b n s :
  0 < ideal -> 0 <= count b < 2 ^ 28 - 1 -> 0 <= expand_mult b < 2 ^ 28 ->
  exists e n', grow ideal b n s = (Ret (Bucket (hh_head b) (count b + 1) e, n'), s) /\
    0 <= e < 2 ^ 28.
Proof.
  intros Hi Hc He. unfold grow. cbn [count put_count]. rewrite u32_small by lia.
  destruct (ideal <? count b + 1); [|by eexists _, _].
  destruct (Z.eqb_spec ideal 0); [lia|]. eexists _, _. split; [reflexivity|]. cbn.
  assert (0 <= (count b + 1) / ideal) by (apply Z.div_pos; lia).
  assert ((count b + 1) / ideal <= count b + 1) by (apply Z.div_le_upper_bound; nia). lia.
Qed.

(** The parts of the elements an expansion leaves alone. *)
Definition same_items (m m' : gmap loc elem) : Prop :=
  (forall p, ident m' p = ident m p) /\ (forall p, alinks m' p = alinks m p) /\
  field <$> m' = field <$> m.

#[export] Instance same_items_preorder : PreOrder same_items.
Proof.
  split; [done|]. intros m1 m2 m3 (H1 & H2 & H3) (K1 & K2 & K3).
  split; [|split]; [intros; by rewrite K1|intros; by rewrite K2|by rewrite K3].
Qed.

Lemma pushed_same p h m : same_items m (pushed p h m).
Proof.
  split; [|split]; [apply pushed_ident|apply pushed_alinks|].
  unfold pushed. by rewrite upd_opt_field, !upd_field.
Qed.

Lemma popped_same x m : same_items m (popped x m).
Proof.
  split; [|split]; [apply popped_ident|apply popped_alinks|].
  unfold popped. by rewrite !upd_opt_field.
Qed.

Lemma same_items_live m m' p : same_items m m' -> is_Some (m' !! p) <-> is_Some (m !! p).
Proof. intros (E & _). by rewrite <- !live_ident, E. Qed.

Section Expansion.
Variables (ideal k : Z).
Hypothesis ideal_pos : 0 < ideal.
Hypothesis k_range : 0 <= k < 31.

Lemma twice : u32 (2 ^ k * 2) = 2 ^ (k + 1).
Proof.
  rewrite Z.pow_add_r by lia. apply u32_small.
  pose proof (Z.pow_pos_nonneg 2 k). pose proof (Z.pow_lt_mono_r 2 k 31). lia.
Qed.

Lemma filled_count m bs num t chain i b :
  filled m bs num t chain -> bs !! i = Some b ->
  0 <= count b <= Z.of_nat (length t).
Proof.
  intros [_ F] Hb. destruct (F i b Hb) as [(_ & -> & ND & _) C].
  assert (length (chain i) <= length t)%nat; [|lia].
  apply NoDup_length_le; [done|]. intros p Hp. by apply C.
Qed.

Lemma expand_one_run s new n D chain p e :
  filled (elems s) new (2 ^ (k + 1)) D chain -> p ∉ D -> elems s !! p = Some e ->
  (forall q, q ∈ D -> is_Some (elems s !! q)) ->
  Z.of_nat (length D) < 2 ^ 28 - 1 -> mults new ->
  exists m' x' chain',
    expand_one ideal (2 ^ k) p (hashv (hh e)) (new, n) s = (Ret x', set_elems m' s) /\
    filled m' (fst x') (2 ^ (k + 1)) (D ++ [p]) chain' /\ mults (fst x') /\
    same_items (elems s) m' /\
    (forall q, q ∉ D ++ [p] -> blinks m' q = blinks (elems s) q).
Proof.
  intros F Hp He Live Hlen Hm. unfold expand_one. rewrite twice.
  set (i := Z.to_nat (HASH_TO_BKT (hashv (hh e)) (2 ^ (k + 1)))).
  assert (in_bucket (elems s) (2 ^ (k + 1)) p i) as Hi.
  { eapply to_bucket; [lia|unfold ident; by rewrite He|done]. }
  destruct (bucket_exists new (hashv (hh e)) (k + 1)) as [b Hb]; [lia|apply F|].
  fold i in Hb. rewrite Hb. rewrite (bind_ret_l _ _ _ _ _ (deref_Some b s)).
  pose proof (filled_count _ _ _ _ _ _ _ F Hb) as Hc.
  destruct (grow_run ideal b n s) as (ex & n' & G & Hex); [done|lia|by apply (mults_lookup new i)|].
  rewrite (bind_ret_l _ _ _ _ _ G). cbv beta iota zeta.
  destruct F as [F1 F2]. destruct (F2 i b Hb) as [(B1 & _ & _ & _) C]. cbn [hh_head].
  assert (forall q, hh_head b = Some q -> q ∈ chain i) as Hh.
  { intros q. rewrite B1. destruct (chain i); cbn; [done|]. intros [= ->]. by left. }
  rewrite (bind_ret_l _ _ _ _ _ (write_hh_run _ p _ ltac:(by rewrite He))).
  erewrite bind_ret_l; [|apply write_hh_run, upd_live; by rewrite He].
  erewrite bind_ret_l; [|apply if_ptr_run; intros q Hq; apply upd_live, upd_live, Live, C, Hh, Hq].
  cbn [set_elems elems].
  rewrite (upd_comm p (put_hh_next _) (put_hh_prev _)) by done.
  fold (pushed p (hh_head b) (elems s)).
  eexists _, _, _. split; [reflexivity|].
  split; [|split; [by apply mults_insert|split; [apply pushed_same|]]].
  - cbn [fst]. eapply filled_push; try done.
    intros q. rewrite elem_of_app, list_elem_of_singleton. tauto.
  - intros q Hq. rewrite not_elem_of_app, not_elem_of_cons in Hq. destruct Hq as (HqD & Hqp & _).
    rewrite pushed_blinks by (intros E; by apply Hh, C in E as []).
    rewrite !decide_False; [done|intros E; by symmetry in E; apply Hh, C in E as []|done].
Qed.

Lemma expand_chain_run c : forall fuel s new n D chain b,
  filled (elems s) new (2 ^ (k + 1)) D chain -> NoDup c ->
  (forall p, p ∈ c -> p ∉ D) -> links (blinks (elems s)) b c None ->
  (forall q, q ∈ D ++ c -> is_Some (elems s !! q)) ->
  Z.of_nat (length (D ++ c)) < 2 ^ 28 -> (length c <= fuel)%nat -> mults new ->
  exists m' x' chain',
    expand_chain fuel ideal (2 ^ k) (first c None) (new, n) s = (Ret x', set_elems m' s) /\
    filled m' (fst x') (2 ^ (k + 1)) (D ++ c) chain' /\ mults (fst x') /\
    same_items (elems s) m' /\
    (forall q, q ∉ D ++ c -> blinks m' q = blinks (elems s) q).
Proof.
  induction c as [|p c IH]; intros fuel s new n D chain b F ND Hc L Live Hlen Hf Hm.
  { exists (elems s), (new, n), chain. rewrite app_nil_r. split; [by destruct s, fuel|]. done. }
  apply NoDup_cons in ND as [Hpc ND]. destruct L as [Lp L].
  destruct fuel as [|fuel]; [cbn in Hf; lia|]. cbn [expand_chain first].
  destruct (Live p) as [e He]; [apply elem_of_app; right; by left|].
  rewrite (bind_ret_l _ _ _ _ _ (read_hh_run s p e He)).
  unfold blinks in Lp. rewrite He in Lp. injection Lp as _ En.
  destruct (expand_one_run s new n D chain p e) as (m1 & [new1 n1] & ch1 & R1 & F1 & Hm1 & S1 & U1);
    [done|apply Hc; by left|done|intros; apply Live, elem_of_app; by left| |done|].
  { rewrite length_app in Hlen. cbn in Hlen. lia. }
  rewrite (bind_ret_l _ _ _ _ _ R1), En. cbn [fst] in F1, Hm1.
  rewrite (cons_middle p D c) in Hlen, Live.
  destruct (IH fuel (set_elems m1 s) new1 n1 (D ++ [p]) ch1 (Some p)) as (m2 & x2 & ch2 & R2 & F2 & Hm2 & S2 & U2).
  - done.
  - done.
  - intros q Hq. rewrite not_elem_of_app, list_elem_of_singleton. split.
    + apply Hc. by right.
    + by intros ->.
  - revert L. apply links_ext. intros q Hq. apply U1.
    rewrite not_elem_of_app, list_elem_of_singleton. split; [apply Hc; by right|]. by intros ->.
  - intros q Hq. apply (same_items_live _ _ q S1), Live. by rewrite app_assoc.
  - by rewrite <- app_assoc.
  - cbn in Hf. lia.
  - done.
  - exists m2, x2, ch2. rewrite cons_middle, app_assoc. split; [by rewrite R2|].
    split; [done|]. split; [done|].
    split; [by rewrite S1|]. intros q Hq. rewrite U2 by done. apply U1.
    intros Hq'. apply Hq, elem_of_app. by left.
Qed.

Lemma expand_buckets_run bs : forall cs s new n D chain,
  filled (elems s) new (2 ^ (k + 1)) D chain ->
  Forall2 (bucket_holds (elems s)) bs cs -> NoDup (D ++ concat cs) ->
  (forall q, q ∈ D ++ concat cs -> is_Some (elems s !! q)) ->
  Z.of_nat (length (D ++ concat cs)) < 2 ^ 28 -> mults new ->
  exists m' x' chain',
    expand_buckets ideal (2 ^ k) bs (new, n) s = (Ret x', set_elems m' s) /\
    filled m' (fst x') (2 ^ (k + 1)) (D ++ concat cs) chain' /\ mults (fst x') /\
    same_items (elems s) m'.
Proof.
  induction bs as [|b bs IH]; intros cs s new n D chain F H2 ND Live Hlen Hm.
  { apply Forall2_nil_inv_l in H2 as ->. exists (elems s), (new, n), chain. cbn in *.
    rewrite app_nil_r. by destruct s. }
  apply Forall2_cons_inv_l in H2 as (c & cs' & (B1 & _ & NDc & L) & H2 & ->). cbn [concat] in *.
  rewrite app_assoc in *. cbn [expand_buckets].
  pose proof ND as (NDDc & Disj & _)%NoDup_app.
  pose proof NDDc as (_ & Dc & _)%NoDup_app.
  erewrite bind_ret_l by reflexivity. rewrite B1.
  destruct (expand_chain_run c (size (elems s)) s new n D chain None)
    as (m1 & [new1 n1] & ch1 & R1 & F1 & Hm1 & S1 & U1); try done.
  - intros p Hp HD. by apply (Dc p).
  - intros q Hq. apply Live, elem_of_app. by left.
  - rewrite length_app in Hlen. lia.
  - apply live_length; [done|]. intros p Hp. apply Live. rewrite !elem_of_app. tauto.
  - rewrite (bind_ret_l _ _ _ _ _ R1). cbn [fst] in F1, Hm1.
    destruct (IH cs' (set_elems m1 s) new1 n1 (D ++ c) ch1) as (m2 & x2 & ch2 & R2 & F2 & Hm2 & S2); try done.
    + revert H2. apply List.Forall2_impl_strong. intros b' c' HB _ Hc'.
      revert HB. apply bucket_holds_ext. intros q Hq. apply U1. intros Hq'.
      apply (Disj q Hq'), list_elem_of_In, in_concat. exists c'. split; [done|].
      by apply list_elem_of_In.
    + intros q Hq. by apply (same_items_live _ _ q S1), Live.
    + exists m2, x2, ch2. split; [done|]. split; [done|]. split; [done|]. by rewrite S1.
Qed.

End Expansion.

Lemma filled_empty m num : filled m (replicate (Z.to_nat num) zero_bucket) num [] (fun _ => []).
Proof.
  split; [apply length_replicate|]. intros i b [-> _]%lookup_replicate. split.
  - split; [done|]. split; [done|]. split; [constructor|done].
  - intros p. split; [intros []%not_elem_of_nil|]. intros [[]%not_elem_of_nil _].
Qed.

Lemma chains_NoDup (chain : nat -> list loc) n : forall a,
  (forall i, (a <= i < a + n)%nat -> NoDup (chain i)) ->
  (forall i j p, (a <= i < a + n)%nat -> (a <= j < a + n)%nat ->
                 p ∈ chain i -> p ∈ chain j -> i = j) ->
  NoDup (concat (map chain (seq a n))).
Proof.
  induction n as [|n IH]; intros a H1 H2; [constructor|]. cbn. apply NoDup_app.
  split; [apply H1; lia|]. split.
  - intros p Hp (c & (j & <- & Hj)%in_map_iff & Hc)%list_elem_of_In%in_concat.
    apply in_seq in Hj. apply list_elem_of_In in Hc.
    assert (a = j) by (apply (H2 a j p); try done; lia). lia.
  - apply IH; [intros; apply H1; lia|]. intros i j p Hi Hj. apply H2; lia.
Qed.

Lemma chains_elem (chain : nat -> list loc) a n p :
  p ∈ concat (map chain (seq a n)) <-> exists i, (a <= i < a + n)%nat /\ p ∈ chain i.
Proof.
  rewrite list_elem_of_In, in_concat. setoid_rewrite in_map_iff. split.
  - intros (c & (i & <- & Hi%in_seq) & Hc). exists i. by rewrite list_elem_of_In.
  - intros (i & Hi & Hp). exists (chain i). rewrite <- list_elem_of_In. split; [|done].
    exists i. by rewrite in_seq.
Qed.

(** The buckets of an array and the list of their chains. *)
Definition chains (chain : nat -> list loc) (bs : list UT_hash_bucket) : list (list loc) :=
  map chain (seq 0 (length bs)).

Lemma filled_chains m bs k t chain :
  0 <= k -> filled m bs (2 ^ k) t chain -> (forall p, p ∈ t -> is_Some (m !! p)) ->
  Forall2 (bucket_holds m) bs (chains chain bs) /\ NoDup (concat (chains chain bs)) /\
  (forall p, p ∈ concat (chains chain bs) <-> p ∈ t).
Proof.
  intros Hk [F1 F2] Live. unfold chains. split; [|split].
  - apply Forall2_same_length_lookup. split; [by rewrite length_map, length_seq|].
    intros i b c Hb Hc. apply list_lookup_fmap_Some in Hc as (j & -> & [-> _]%lookup_seq).
    by apply F2.
  - apply chains_NoDup.
    + intros i Hi. destruct (lookup_lt_is_Some_2 bs i) as [b Hb]; [lia|].
      by destruct (F2 i b Hb) as [(_ & _ & ND & _) _].
    + intros i j p Hi Hj Hpi Hpj.
      destruct (lookup_lt_is_Some_2 bs i) as [b Hb]; [lia|].
      destruct (lookup_lt_is_Some_2 bs j) as [b' Hb']; [lia|].
      apply (F2 i b Hb) in Hpi as [_ Hpi]. apply (F2 j b' Hb') in Hpj as [_ Hpj].
      by apply (in_bucket_inj m (2 ^ k) p).
  - intros p. rewrite chains_elem. split.
    + intros (i & Hi & Hp). destruct (lookup_lt_is_Some_2 bs i) as [b Hb]; [lia|].
      by apply (F2 i b Hb) in Hp as [? _].
    + intros Hp. destruct (Live p Hp) as [e He].
      assert (ident m p = Some (field e, tbl (hh e), key (hh e), keylen (hh e), hashv (hh e))) as Hx
        by (unfold ident; by rewrite He).
      pose proof (to_bucket _ _ _ _ k Hk Hx eq_refl) as Hi. cbn [snd] in Hi.
      destruct (bucket_exists bs (hashv (hh e)) k Hk F1) as [b Hb].
      exists (Z.to_nat (HASH_TO_BKT (hashv (hh e)) (2 ^ k))). split.
      * pose proof (lookup_lt_Some _ _ _ Hb). lia.
      * by apply (F2 _ b Hb).
Qed.

Lemma ideal_chain_pos t k :
  0 <= k < 31 -> num_buckets t = 2 ^ k -> log2_num_buckets t = k ->
  0 < num_items t < 2 ^ 32 - 1 -> 0 < ideal_chain t.
Proof.
  intros Hk En El Hn. unfold ideal_chain. rewrite En, El, twice by done.
  pose proof (Z.pow_pos_nonneg 2 (k + 1)). pose proof (Z.pow_lt_mono_r 2 (k + 1) 32).
  rewrite (u32_small (2 ^ (k + 1) - 1)) by lia. rewrite Z.shiftr_div_pow2 by lia.
  fold (HASH_TO_BKT (num_items t) (2 ^ (k + 1))). rewrite HASH_TO_BKT_mod by lia.
  pose proof (Z.div_mod (num_items t) (2 ^ (k + 1))).
  assert (num_items t / 2 ^ (k + 1) <= num_items t) by (apply Z.div_le_upper_bound; nia).
  assert (0 <= num_items t / 2 ^ (k + 1)) by (apply Z.div_pos; lia).
  destruct (Z.eqb_spec (num_items t mod 2 ^ (k + 1)) 0); rewrite u32_small; nia.
Qed.

(** ** The state of a table *)

(** The array of a table: a power of two of buckets that hold [t]. *)
Definition array_holds (m : gmap loc elem) (tb : UT_hash_table) (t : list loc) : Prop :=
  exists k chain, 0 <= k < 32 /\ num_buckets tb = 2 ^ k /\ log2_num_buckets tb = k /\
    filled m (buckets tb) (2 ^ k) t chain /\ mults (buckets tb).

Lemma array_holds_ext m m' tb tb' t t' :
  (forall p, p ∈ t -> ident m' p = ident m p) ->
  (forall p, p ∈ t -> blinks m' p = blinks m p) ->
  (forall p, p ∈ t' <-> p ∈ t) ->
  buckets tb' = buckets tb -> num_buckets tb' = num_buckets tb ->
  log2_num_buckets tb' = log2_num_buckets tb ->
  array_holds m tb t -> array_holds m' tb' t'.
Proof.
  intros E1 E2 Et Eb En El (k & chain & Hk & Hn & Hl & F & Hm). exists k, chain.
  rewrite En, El, Eb. repeat (split; [done|]). split; [by eapply filled_ext|done].
Qed.

Lemma HASH_EXPAND_BUCKETS_run s T tb t :
  tables s !! T = Some tb -> array_holds (elems s) tb t ->
  (forall p, p ∈ t -> is_Some (elems s !! p)) ->
  num_buckets tb < 2 ^ 31 -> num_items tb = Z.of_nat (length t) ->
  0 < num_items tb < 2 ^ 28 ->
  exists m' tb',
    HASH_EXPAND_BUCKETS T s = (Ret tt, set_tables (<[T := tb']> (tables s)) (set_elems m' s)) /\
    array_holds m' tb' t /\ same_items (elems s) m' /\
    num_buckets tb' = 2 * num_buckets tb /\
    num_items tb' = num_items tb /\ tail_hh tb' = tail_hh tb.
Proof.
  intros ET (k & chain & Hk & En & El & F & _) Live Hbig Ei Hi.
  assert (k < 31) as Hk' by (rewrite En in Hbig; by apply Z.pow_lt_mono_r_iff in Hbig).
  unfold HASH_EXPAND_BUCKETS. rewrite (bind_ret_l _ _ _ _ _ (read_tbl_run s T tb ET)).
  rewrite En, twice by lia. cbv zeta.
  rewrite take_ge by (rewrite (proj1 F); lia).
  destruct (filled_chains (elems s) (buckets tb) k t chain) as (H2 & ND & Ct); [lia|done|done|].
  pose proof (ideal_chain_pos tb k) as Hideal.
  destruct (expand_buckets_run (ideal_chain tb) k ltac:(apply Hideal; lia || done) ltac:(lia)
              (buckets tb) (chains chain (buckets tb)) s
              (replicate (Z.to_nat (2 ^ (k + 1))) zero_bucket) 0 [] (fun _ => []))
    as (m' & x' & chain' & R & F' & Hm' & S'); try done.
  - apply filled_empty.
  - intros q Hq. by apply Live, Ct.
  - cbn. apply (NoDup_length_le _ t) in ND; [lia|].     intros p. apply Ct.
  - by apply Forall_replicate.
  - rewrite (bind_ret_l _ _ _ _ _ R).
    exists m', (expanded (ideal_chain tb) x' tb).
    split; [exact (write_tbl_run (set_elems m' s) T _ tb ET)|].
    split; [|split; [done|split; [|done]]].
    + exists (k + 1), chain'. split; [lia|]. unfold expanded; cbn. rewrite En, El.
      split; [by apply twice; lia|]. split; [apply u32_small; lia|]. split; [|done].
      revert F'. apply filled_ext; [done|done|]. intros p. cbn. by rewrite Ct.
    + cbn. rewrite En, twice by lia. rewrite Z.pow_add_r; lia.
Qed.

(** A table whose bucket [i] was changed. *)
Definition with_bucket (i : nat) (b : UT_hash_bucket) (tb : UT_hash_table) : UT_hash_table :=
  put_buckets (<[i := b]> (buckets tb)) tb.

Lemma with_bucket_twice i b b' tb :
  with_bucket i b' (with_bucket i b tb) = with_bucket i b' tb.
Proof. unfold with_bucket, put_buckets. cbn. by rewrite list_insert_insert_eq. Qed.

Lemma with_bucket_lookup i b b0 tb :
  buckets tb !! i = Some b0 -> buckets (with_bucket i b tb) !! i = Some b.
Proof. intros E. apply list_lookup_insert_eq. by apply lookup_lt_Some in E. Qed.

(** Adding to a bucket, up to the test for the expansion. *)
Lemma HASH_ADD_TO_BKT_links s T tb v p e b :
  tables s !! T = Some tb -> buckets tb !! Z.to_nat v = Some b ->
  elems s !! p = Some e -> tbl (hh e) = Some T ->
  (forall q, hh_head b = Some q -> is_Some (elems s !! q)) ->
  hh_head b <> Some p -> 0 <= count b < 2 ^ 28 - 1 -> 0 <= expand_mult b < 2 ^ 28 ->
  let tb' := with_bucket (Z.to_nat v) (Bucket (Some p) (count b + 1) (expand_mult b)) tb in
  let s' := set_tables (<[T := tb']> (tables s))
              (set_elems (pushed p (hh_head b) (elems s)) s) in
  10 <= count b + 1 /\ HASH_ADD_TO_BKT T v p s = HASH_EXPAND_BUCKETS T s' \/
  HASH_ADD_TO_BKT T v p s = (Ret tt, s').
Proof.
  intros ET Hb He Htbl Live Hp Hc Hm tb' s'. unfold HASH_ADD_TO_BKT.
  rewrite (bind_ret_l _ _ _ _ _ (write_bucket_run s T v _ tb b ET Hb)).
  rewrite u32_small by lia.
  set (b1 := put_count (count b + 1) b).
  change (put_buckets _ tb) with (with_bucket (Z.to_nat v) b1 tb).
  erewrite bind_ret_l;
    [|apply (read_bucket_run _ _ _ (with_bucket (Z.to_nat v) b1 tb) b1);
      [cbn; by rewrite lookup_insert_eq|by eapply with_bucket_lookup]].
  erewrite bind_ret_l; [|apply write_hh_run; cbn; by rewrite He].
  erewrite bind_ret_l; [|apply write_hh_run, upd_live; cbn; by rewrite He].
  erewrite bind_ret_l; [|apply if_ptr_run; intros q Hq; by apply upd_live, upd_live, Live].
  cbn [set_elems set_tables elems tables head_ptr].
  change (hh_head b1) with (hh_head b). fold (pushed p (hh_head b) (elems s)).
  erewrite bind_ret_l;
    [|apply (write_bucket_run _ T v _ (with_bucket (Z.to_nat v) b1 tb) b1);
      [cbn; by rewrite lookup_insert_eq|by eapply with_bucket_lookup]].
  cbn [set_elems set_tables elems tables head_ptr].
  change (put_buckets (<[Z.to_nat v:=put_hh_head (Some p) b1]>
            (buckets (with_bucket (Z.to_nat v) b1 tb))) (with_bucket (Z.to_nat v) b1 tb))
    with (with_bucket (Z.to_nat v) (put_hh_head (Some p) b1) (with_bucket (Z.to_nat v) b1 tb)).
  rewrite with_bucket_twice, insert_insert_eq.
  change (put_hh_head (Some p) b1) with (Bucket (Some p) (count b + 1) (expand_mult b)).
  fold tb'. fold s'.
  pose proof (pushed_ident p (hh_head b) (elems s) p) as Ei. unfold ident in Ei. rewrite He in Ei.
  destruct (pushed p (hh_head b) (elems s) !! p) as [e'|] eqn:He'; [|done].
  injection Ei as _ Et _ _ _. rewrite Htbl in Et.
  rewrite (bind_ret_l _ _ _ _ _ (read_hh_run s' p e' He')), Et.
  rewrite (bind_ret_l _ _ _ _ _ (deref_Some T s')).
  rewrite (bind_ret_l _ _ _ _ _ (read_tbl_run s' T tb' (lookup_insert_eq _ _ _))).
  cbn [expand_mult count b1 put_count]. unfold HASH_BKT_CAPACITY_THRESH.
  rewrite (u32_small (expand_mult b + 1)), (u32_small ((expand_mult b + 1) * 10)) by lia.
  destruct (Z.leb_spec ((expand_mult b + 1) * 10) (count b + 1)) as [Hle|]; [|by right].
  destruct (negb _); [left; split; [lia|done]|by right].
Qed.

(** Adding to a bucket, with the expansion that may follow. *)
Lemma HASH_ADD_TO_BKT_run s T tb t p e :
  tables s !! T = Some tb -> array_holds (elems s) tb t -> p ∉ t ->
  elems s !! p = Some e -> tbl (hh e) = Some T ->
  (forall q, q ∈ t -> is_Some (elems s !! q)) ->
  (10 <= num_items tb -> num_buckets tb < 2 ^ 31) -> num_items tb = Z.of_nat (length t) + 1 ->
  num_items tb < 2 ^ 28 ->
  exists m' tb',
    HASH_ADD_TO_BKT T (HASH_TO_BKT (hashv (hh e)) (num_buckets tb)) p s
      = (Ret tt, set_tables (<[T := tb']> (tables s)) (set_elems m' s)) /\
    array_holds m' tb' (t ++ [p]) /\ same_items (elems s) m' /\
    (num_buckets tb' = num_buckets tb \/
     num_buckets tb' = 2 * num_buckets tb /\ 10 <= num_items tb) /\
    num_items tb' = num_items tb /\ tail_hh tb' = tail_hh tb.
Proof.
  intros ET (k & chain & Hk & En & El & F & Hm) Hp He Htbl Live Hbig Ei Hi.
  set (v := HASH_TO_BKT (hashv (hh e)) (num_buckets tb)).
  assert (in_bucket (elems s) (2 ^ k) p (Z.to_nat v)) as Hin.
  { unfold v. rewrite En. eapply to_bucket; [lia|unfold ident; by rewrite He|done]. }
  destruct (bucket_exists (buckets tb) (hashv (hh e)) k) as [b Hb]; [lia|apply F|].
  rewrite <- En in Hb. fold v in Hb.
  pose proof (filled_count _ _ _ _ _ _ _ F Hb) as Hc.
  assert (forall q, hh_head b = Some q -> q ∈ t) as Hh.
  { intros q. destruct (proj2 F _ b Hb) as [(-> & _) C].
    destruct (chain (Z.to_nat v)) as [|r c]; cbn; [done|]. intros [= ->]. apply C. by left. }
  set (tb1 := with_bucket (Z.to_nat v) (Bucket (Some p) (count b + 1) (expand_mult b)) tb).
  set (m1 := pushed p (hh_head b) (elems s)).
  assert (array_holds m1 tb1 (t ++ [p])) as A1.
  { exists k. eexists. repeat (split; [done|]). split.
    - eapply filled_push; try done.
      intros q. rewrite elem_of_app, list_elem_of_singleton. tauto.
    - apply mults_insert; [done|]. by apply (mults_lookup (buckets tb) (Z.to_nat v) b). }
  assert (forall q, q ∈ t ++ [p] -> is_Some (m1 !! q)) as Live1.
  { intros q Hq. apply (same_items_live (elems s)); [apply pushed_same|].
    apply elem_of_app in Hq as [Hq| ->%list_elem_of_singleton]; [by apply Live|by rewrite He]. }
  destruct (HASH_ADD_TO_BKT_links s T tb v p e b) as [[Hten ->]| ->]; try done.
  - intros q Hq. by apply Live, Hh.
  - intros Hq. by apply Hp, Hh.
  - lia.
  - by apply (mults_lookup (buckets tb) (Z.to_nat v) b).
  - fold tb1 m1. set (s1 := set_tables _ _).
    destruct (HASH_EXPAND_BUCKETS_run s1 T tb1 (t ++ [p])) as (m' & tb' & R & A & S & N & I & L);
      try done.
    + apply lookup_insert_eq.
    + apply Hbig. lia.
    + rewrite length_app. cbn. lia.
    + cbn. lia.
    + exists m', tb'. rewrite R. unfold s1. cbn [tables set_tables]. rewrite insert_insert_eq.
      split; [done|]. split; [done|]. split; [|split; [right; split; [done|lia]|done]].
      transitivity m1; [apply pushed_same|done].
  - exists m1, tb1. split; [done|]. split; [done|]. split; [apply pushed_same|].
    split; [by left|done].
Qed.

Section Correctness.
Context `{HF : HashFunction}.

(** An element of the table [T] whose key is [n] bytes long. *)
Definition member (n : Z) (T : loc) (m : gmap loc elem) (p : loc) : Prop :=
  exists f, ident m p = Some (f, Some T, Some p, n, HASH_FCN (take (Z.to_nat n) f)) /\
    n <= Z.of_nat (length f).

(** The head variable points to a table with keys of [n] bytes that holds the
    elements [t] in application order: what [HASH_FSCK] (278-328) tests, and
    that every element is in the bucket of its hash value. *)
Definition table_holds (n : Z) (s : hstate) (t : list loc) : Prop :=
  NoDup t /\ links (alinks (elems s)) None t None /\ head_ptr s = first t None /\
  (t <> [] -> exists T tb, tables s !! T = Some tb /\
     (forall p, p ∈ t -> member n T (elems s) p) /\
     array_holds (elems s) tb t /\ tail_hh tb = last t /\
     num_items tb = Z.of_nat (length t)).

(** The buckets can be doubled another [j] times without wrapping their
    number. *)
Definition growth_left (j : nat) (s : hstate) : Prop :=
  forall T tb, tables s !! T = Some tb -> num_buckets tb * 2 ^ Z.of_nat j <= 2 ^ 31.

Lemma growth_left_tables j s x : growth_left j s -> tables x = tables s -> growth_left j x.
Proof. unfold growth_left. by intros H ->. Qed.

Lemma growth_left_insert j s x T tb :
  growth_left j s -> tables x = <[T := tb]> (tables s) ->
  num_buckets tb * 2 ^ Z.of_nat j <= 2 ^ 31 -> growth_left j x.
Proof.
  intros G E H T' tb'. rewrite E. intros [[<- <-]|[_ ET]]%lookup_insert_Some; [done|by apply (G T')].
Qed.

Lemma growth_left_weaken j j' s : (j' <= j)%nat -> growth_left j s -> growth_left j' s.
Proof.
  intros Hj G T tb ET. specialize (G T tb ET).
  pose proof (Z.pow_le_mono_r 2 (Z.of_nat j') (Z.of_nat j)).
  pose proof (Z.pow_pos_nonneg 2 (Z.of_nat j')).
  destruct (Z.le_gt_cases 0 (num_buckets tb)); nia.
Qed.

(** Another element can be added; only with nine elements or more can this
    double the buckets. *)
Definition table_room (s : hstate) (t : list loc) : Prop :=
  Z.of_nat (length t) < 2 ^ 28 - 1 /\ ((9 <= length t)%nat -> growth_left 1 s).

Lemma table_room_small s t : (length t < 9)%nat -> table_room s t.
Proof. intros H. split; [|intros; lia]. assert (Z.of_nat (length t) < 9) by lia. lia. Qed.

Lemma member_live n T m p : member n T m p -> is_Some (m !! p).
Proof. intros (f & E & _). apply live_ident. by rewrite E. Qed.

Lemma member_ext n T m m' p : ident m' p = ident m p -> member n T m p -> member n T m' p.
Proof. unfold member. by intros ->. Qed.

Lemma table_live n s t p : table_holds n s t -> p ∈ t -> is_Some (elems s !! p).
Proof. intros (_ & L & _) Hp. by apply (links_live _ _ _ _ _ L). Qed.

Lemma head_tbl_run s T p e :
  head_ptr s = Some p -> elems s !! p = Some e -> tbl (hh e) = Some T ->
  head_tbl s = (Ret T, s).
Proof.
  intros Eh He Et. unfold head_tbl. erewrite bind_ret_l by reflexivity.
  rewrite Eh, (bind_ret_l _ _ _ _ _ (deref_Some p s)).
  by rewrite (bind_ret_l _ _ _ _ _ (read_hh_run s p e He)), Et.
Qed.

Lemma member_elem n T m p :
  member n T m p -> exists e, m !! p = Some e /\ tbl (hh e) = Some T /\
    key (hh e) = Some p /\ keylen (hh e) = n /\
    hashv (hh e) = HASH_FCN (take (Z.to_nat n) (field e)) /\ n <= Z.of_nat (length (field e)).
Proof.
  intros (f & E & Hn). unfold ident in E. destruct (m !! p) as [e|]; [|done].
  injection E as <- Et Ek En Eh. by exists e.
Qed.

Lemma table_head_run n s t T :
  table_holds n s t -> (forall p, p ∈ t -> member n T (elems s) p) -> t <> [] ->
  head_tbl s = (Ret T, s).
Proof.
  intros (_ & _ & Eh & _) M Ht. destruct t as [|p t]; [done|].
  destruct (member_elem n T (elems s) p) as (e & He & Et & _); [apply M; by left|].
  by apply (head_tbl_run s T p e).
Qed.

Lemma read_key_run s p n e :
  elems s !! p = Some e -> n <= Z.of_nat (length (field e)) ->
  read_key p n s = (Ret (take (Z.to_nat n) (field e)), s).
Proof.
  intros He Hn. unfold read_key. rewrite He. by destruct (Z.leb_spec n (Z.of_nat (length (field e)))); [|lia].
Qed.

Lemma upd_self p f m e : m !! p = Some e -> upd p f m !! p = Some (with_hh f e).
Proof. intros E. unfold upd. by rewrite lookup_alter_eq, E. Qed.

(** The second half of [HASH_ADD]. *)
Lemma add_hashed_run n s T tb t p e h eh :
  head_ptr s = Some h -> elems s !! h = Some eh -> tbl (hh eh) = Some T ->
  tables s !! T = Some tb -> array_holds (elems s) tb t -> p ∉ t ->
  elems s !! p = Some e -> n <= Z.of_nat (length (field e)) ->
  (forall q, q ∈ t -> is_Some (elems s !! q)) ->
  (10 <= num_items tb + 1 -> num_buckets tb < 2 ^ 31) -> num_items tb = Z.of_nat (length t) ->
  num_items tb < 2 ^ 28 - 1 ->
  exists m' tb',
    add_hashed n p s = (Ret tt, set_tables (<[T := tb']> (tables s)) (set_elems m' s)) /\
    array_holds m' tb' (t ++ [p]) /\
    (forall q, q <> p -> ident m' q = ident (elems s) q) /\
    ident m' p = Some (field e, Some T, key (hh e), keylen (hh e),
                       HASH_FCN (take (Z.to_nat n) (field e))) /\
    (forall q, alinks m' q = alinks (elems s) q) /\ field <$> m' = field <$> elems s /\
    num_items tb' = num_items tb + 1 /\ tail_hh tb' = tail_hh tb /\
    (num_buckets tb' = num_buckets tb \/
     num_buckets tb' = 2 * num_buckets tb /\ (9 <= length t)%nat).
Proof.
  intros Hh Heh Eh ET A Hp He Hn Live Hbig Ei Hi. unfold add_hashed.
  rewrite (bind_ret_l _ _ _ _ _ (head_tbl_run s T h eh Hh Heh Eh)).
  rewrite (bind_ret_l _ _ _ _ _ (write_tbl_run s T _ tb ET)).
  rewrite u32_small by lia.
  erewrite bind_ret_l; [|apply write_hh_run; cbn; by rewrite He].
  erewrite bind_ret_l;
    [|apply (read_key_run _ _ _ (with_hh (put_tbl (Some T)) e)); [by apply upd_self|done]].
  erewrite bind_ret_l; [|apply write_hh_run, upd_live; cbn; by rewrite He].
  cbn [set_elems set_tables elems tables head_ptr with_hh field].
  set (v := HASH_FCN _).
  set (m1 := upd p (put_hashv v) (upd p (put_tbl (Some T)) (elems s))).
  set (tb1 := put_num_items (num_items tb + 1) tb).
  set (s1 := HState m1 (<[T:=tb1]> (tables s)) (head_ptr s)).
  rewrite (bind_ret_l _ _ _ _ _ (read_tbl_run s1 T tb1 (lookup_insert_eq _ _ _))).
  set (e1 := with_hh (put_hashv v) (with_hh (put_tbl (Some T)) e)).
  assert (elems s1 !! p = Some e1) as He1 by by apply upd_self, upd_self.
  assert (forall q, q <> p -> ident m1 q = ident (elems s) q) as I1.
  { intros q Hq. unfold m1. autorewrite with parts. by rewrite !decide_False. }
  destruct (HASH_ADD_TO_BKT_run s1 T tb1 t p e1) as (m' & tb' & R & A' & (S1 & S2 & S3) & NB & N & L);
    try done; try (cbn; lia).
  - apply lookup_insert_eq.
  - revert A. apply array_holds_ext; try done.
    + intros q Hq. apply I1. by intros ->.
    + intros q Hq. cbn. unfold m1. by autorewrite with parts.
  - intros q Hq. apply upd_live, upd_live, Live, Hq.
  - exists m', tb'. split.
    { unfold s1 in R. cbn [tables set_tables] in R. rewrite insert_insert_eq in R. exact R. }
    split; [done|]. split; [intros q Hq; rewrite S1; by apply I1|]. split.
    { rewrite S1. unfold ident. by rewrite He1. }
    split; [intros q; rewrite S2; cbn; unfold m1; by autorewrite with parts|].
    split; [rewrite S3; cbn; unfold m1; by rewrite !upd_field|].
    split; [done|]. split; [done|].
    destruct NB as [NB|[NB Hten]]; [by left|right]. split; [done|]. cbn in Hten. lia.
Qed.

(** A table does not depend on the elements that are not in it. *)
Lemma table_holds_ext n s m' t :
  (forall q, q ∈ t -> ident m' q = ident (elems s) q) ->
  (forall q, q ∈ t -> alinks m' q = alinks (elems s) q) ->
  (forall q, q ∈ t -> blinks m' q = blinks (elems s) q) ->
  table_holds n s t -> table_holds n (set_elems m' s) t.
Proof.
  intros E1 E2 E3 (ND & L & H & R). split; [done|]. split; [by apply (links_ext (alinks (elems s)))|].
  split; [done|]. intros Ht. destruct (R Ht) as (T & tb & ET & M & A & El & Ei).
  exists T, tb. split; [done|]. split; [|split; [|done]].
  - intros q Hq. apply (member_ext n T (elems s)); [by apply E1|by apply M].
  - revert A. by apply array_holds_ext.
Qed.

Definition key_part (o : option elem) : option (bytes * option loc * Z) :=
  (fun e => (field e, key (hh e), keylen (hh e))) <$> o.

(** What the first half of [HASH_ADD] leaves for the second. *)
Definition added_in_order (n : Z) (s : hstate) (t : list loc) (p : loc) (s' : hstate) : Prop :=
  exists T tb h eh,
    head_ptr s' = first (t ++ [p]) None /\ head_ptr s' = Some h /\
    elems s' !! h = Some eh /\ tbl (hh eh) = Some T /\
    tables s' !! T = Some tb /\ array_holds (elems s') tb t /\
    num_items tb = Z.of_nat (length t) /\ tail_hh tb = Some p /\
    (forall j, (t = [] -> (j <= 26)%nat) -> growth_left j s -> growth_left j s') /\
    (forall q, q ∈ t -> member n T (elems s') q) /\
    links (alinks (elems s')) None (t ++ [p]) None /\
    (forall q, q <> p -> ident (elems s') q = ident (elems s) q) /\
    key_part (elems s' !! p) = key_part (elems s !! p) /\
    field <$> elems s' = field <$> elems s.

Lemma add_first n s p e :
  table_holds n s [] -> elems s !! p = Some e -> next (hh e) = None ->
  exists s', add_in_order p s = (Ret tt, s') /\ added_in_order n s [] p s'.
Proof.
  intros (_ & _ & H & _) He Hn. unfold add_in_order.
  erewrite bind_ret_l by reflexivity. rewrite H. cbn [first].
  erewrite bind_ret_l by reflexivity.
  erewrite bind_ret_l; [|apply write_hh_run; cbn; by rewrite He].
  unfold HASH_MAKE_TABLE. erewrite bind_ret_l by reflexivity.
  erewrite bind_ret_l by reflexivity. cbn [set_elems set_head set_tables elems tables head_ptr].
  set (T := fresh (dom (tables s))).
  rewrite write_hh_run by (cbn; apply upd_live; by rewrite He).
  cbn [set_elems elems tables head_ptr].
  eexists. split; [reflexivity|].
  exists T, (new_table p), p, (with_hh (put_tbl (Some T)) (with_hh (put_prev None) e)).
  cbn [set_elems set_tables set_head elems tables head_ptr].
  split; [done|]. split; [done|]. split; [by apply upd_self, upd_self|]. split; [done|].
  split; [apply lookup_insert_eq|]. split.
  { exists 5, (fun _ => []). split; [lia|]. split; [done|]. split; [done|].
    split; [apply (filled_empty _ (2 ^ 5))|]. by apply Forall_replicate. }
  split; [done|]. split; [done|]. split.
  { intros j Hj G. specialize (Hj eq_refl).
    apply (growth_left_insert j s _ T (new_table p)); [done|done|].
    change (num_buckets (new_table p)) with (2 ^ 5). rewrite <- Z.pow_add_r by lia.
    apply Z.pow_le_mono_r; lia. }
  split; [by intros q ?%not_elem_of_nil|]. split.
  { split; [|done]. autorewrite with parts. rewrite decide_True by done. unfold alinks.
    rewrite He. cbn. by rewrite Hn. }
  split; [intros q Hq; autorewrite with parts; by rewrite decide_False|]. split.
  - rewrite (upd_self _ _ _ (with_hh (put_prev None) e)) by by apply upd_self. by rewrite He.
  - by rewrite !upd_field.
Qed.

Lemma first_some (t : list loc) : t <> [] -> exists h, first t None = Some h /\ h ∈ t.
Proof. destruct t as [|h t]; [done|]. exists h. split; [done|by left]. Qed.

Lemma last_some (t : list loc) : t <> [] -> exists q, last t = Some q /\ q ∈ t.
Proof.
  intros Ht. destruct (last t) as [q|] eqn:E; [|by apply last_None in E].
  exists q. split; [done|]. by apply last_Some_elem_of.
Qed.

Lemma add_last n s t p e :
  table_holds n s t -> t <> [] -> p ∉ t ->
  elems s !! p = Some e -> next (hh e) = None ->
  exists s', add_in_order p s = (Ret tt, s') /\ added_in_order n s t p s'.
Proof.
  intros H Ht Hp He Hn. pose proof H as (ND & L & Hh & R).
  destruct (R Ht) as (T & tb & ET & M & A & El & Ei). unfold add_in_order.
  erewrite bind_ret_l by reflexivity.
  destruct (last_some t Ht) as (q & Hq & Hqt).
  assert (q <> p) as Hqp by (by intros ->).
  destruct (first_some t Ht) as (h & Eh & Hht).
  rewrite Hh, Eh. rewrite (bind_ret_l _ _ _ _ _ (table_head_run n s t T H M Ht)).
  rewrite (bind_ret_l _ _ _ _ _ (read_tbl_run s T tb ET)), El, Hq.
  rewrite (bind_ret_l _ _ _ _ _ (deref_Some q s)).
  erewrite bind_ret_l; [|apply write_hh_run; by apply (table_live n s t)].
  erewrite bind_ret_l; [|apply write_hh_run, upd_live; cbn; by rewrite He].
  cbn [set_elems elems tables head_ptr].
  set (m2 := upd p (put_prev (Some q)) (upd q (put_next (Some p)) (elems s))).
  rewrite (write_tbl_run _ T _ tb) by done. cbn [set_tables tables elems head_ptr].
  assert (forall x, ident m2 x = ident (elems s) x) as Im by (intros; unfold m2; by autorewrite with parts).
  assert (forall x, blinks m2 x = blinks (elems s) x) as Bm by (intros; unfold m2; by autorewrite with parts).
  destruct (member_elem n T m2 h) as (eh & Heh & Et & _);
    [apply (member_ext n T (elems s)); [apply Im|by apply M]|].
  eexists. split; [reflexivity|]. exists T, (put_tail (Some p) tb), h, eh.
  cbn [set_elems set_tables elems tables head_ptr].
  split; [by rewrite first_app, Hh, Eh; destruct t|]. split; [by rewrite Hh|].
  split; [done|]. split; [done|].
  split; [apply lookup_insert_eq|]. split; [revert A; by apply array_holds_ext|].
  split; [done|]. split; [done|]. split.
  { intros j _ G. apply (growth_left_insert j s _ T (put_tail (Some p) tb)); [done|done|].
    exact (G T tb ET). }
  split.
  { intros x Hx. apply (member_ext n T (elems s)); [apply Im|by apply M]. }
  split.
  { apply links_app. cbn [first links]. split; [|split; [|done]].
    - revert L. apply links_after; [done|]. intros x Hx. unfold m2. autorewrite with parts.
      rewrite decide_False by (by intros ->). rewrite Hq.
      destruct (decide (x = q)), (decide (Some x = Some q)); congruence.
    - unfold m2, final. autorewrite with parts. rewrite decide_True by done.
      rewrite decide_False by congruence. rewrite Hq. unfold alinks. rewrite He. cbn. by rewrite Hn. }
  split; [intros; apply Im|]. split.
  { unfold m2. erewrite upd_self; [|unfold upd; rewrite lookup_alter_ne by done; exact He].
    by rewrite He. }
  unfold m2. by rewrite !upd_field.
Qed.

(** Adding an element that is not in the table appends it. *)
Lemma HASH_ADD_run n s t p e :
  table_holds n s t -> table_room s t -> p ∉ t ->
  elems s !! p = Some e -> n <= Z.of_nat (length (field e)) ->
  exists s', HASH_ADD n p s = (Ret tt, s') /\ table_holds n s' (t ++ [p]) /\
    field <$> elems s' = field <$> elems s /\
    forall j, (j <= 26)%nat ->
      growth_left (if (9 <=? length t)%nat then S j else j) s -> growth_left j s'.
Proof.
  intros H Room Hp He Hn. unfold HASH_ADD.
  erewrite bind_ret_l; [|apply write_hh_run; by rewrite He].
  erewrite bind_ret_l; [|apply write_hh_run, upd_live; cbn; by rewrite He].
  cbn [set_elems elems tables head_ptr].
  set (m1 := upd p (put_key (Some p) n) (upd p (put_next None) (elems s))).
  assert (table_holds n (set_elems m1 s) t) as H1.
  { revert H. apply table_holds_ext; intros q Hq; unfold m1; autorewrite with parts;
      rewrite ?decide_False; try done; by intros ->. }
  change (HState m1 (tables s) (head_ptr s)) with (set_elems m1 s).
  set (e1 := with_hh (put_key (Some p) n) (with_hh (put_next None) e)).
  assert (m1 !! p = Some e1) as He1 by by apply upd_self, upd_self.
  assert (exists s2, add_in_order p (set_elems m1 s) = (Ret tt, s2) /\
                     added_in_order n (set_elems m1 s) t p s2) as (s2 & R2 & A2).
  { destruct (decide (t = [])) as [->|Ht]; [by apply (add_first n _ _ e1)|].
    by apply (add_last n _ _ _ e1). }
  rewrite (bind_ret_l _ _ _ _ _ R2).
  destruct A2 as (T & tb & h & eh & Hf & Hh & Heh & Et & ET & A & Ei & El & G2 & M & L & I2 & K2 & F2).
  cbn [elems set_elems] in *. rewrite He1 in K2.
  destruct (elems s2 !! p) as [e2|] eqn:He2; [|done]. injection K2 as Ef Ek En.
  destruct (add_hashed_run n s2 T tb t p e2 h eh)
    as (m' & tb' & R & A' & I & Ip & Lm & Fm & N & Tl & NB); try done.
  - by rewrite Ef.
  - intros q Hq. by eapply member_live, M.
  - intros Hten. destruct Room as [_ Room].
    pose proof (G2 1%nat ltac:(lia) (Room ltac:(lia)) T tb ET). lia.
  - destruct Room. lia.
  - exists (set_tables (<[T:=tb']> (tables s2)) (set_elems m' s2)). split; [done|].
    assert (forall j, (j <= 26)%nat ->
      growth_left (if (9 <=? length t)%nat then S j else j) s ->
      growth_left j (set_tables (<[T:=tb']> (tables s2)) (set_elems m' s2))) as G'.
    { intros j Hj G.
      assert (j <= if (9 <=? length t)%nat then S j else j)%nat as Hle by (destruct (_ <=? _)%nat; lia).
      pose proof (growth_left_weaken _ _ _ Hle G) as Gj.
      assert (growth_left j s2) as Gj2 by by apply G2.
      apply (growth_left_insert j s2 _ T tb'); [done|done|].
      destruct NB as [->|[-> Hten]]; [by apply (Gj2 T)|].
      destruct (Nat.leb_spec 9 (length t)) as [_|]; [|lia].
      assert (t <> []) as Ht by (by intros ->; cbn in Hten; lia).
      pose proof (G2 (S j) ltac:(by intros E) G T tb ET) as H2.
      rewrite Nat2Z.inj_succ, Z.pow_succ_r in H2; lia. }
    split; [|split; [cbn; rewrite Fm, F2; unfold m1; by rewrite !upd_field|exact G']].
    split; [|split; [by apply (links_ext (alinks (elems s2)))|split; [done|]]].
    + apply NoDup_app. split; [apply H|]. split; [|apply NoDup_singleton].
      by intros q Hq ->%list_elem_of_singleton.
    + intros _. exists T, tb'. cbn. split; [apply lookup_insert_eq|].
      split; [|split; [done|split; [by rewrite Tl, El, last_snoc|rewrite N, length_app; cbn; lia]]].
      intros q [Hq| ->%list_elem_of_singleton]%elem_of_app.
      * apply (member_ext n T (elems s2)); [|by apply M]. apply I. by intros ->.
      * exists (field e2). rewrite Ip, Ek, En. split; [done|]. by rewrite Ef.
Qed.

(** The key of an element. *)
Definition key_is (n : Z) (m : gmap loc elem) (p : loc) (k : bytes) : Prop :=
  exists e, m !! p = Some e /\ take (Z.to_nat n) (field e) = k.

(** [o] is an element of [t] with the key [k], if there is one. *)
Definition lookup_result (n : Z) (m : gmap loc elem) (t : list loc) (k : bytes)
  (o : option loc) : Prop :=
  match o with
  | Some p => p ∈ t /\ key_is n m p k
  | None => forall p, p ∈ t -> ~ key_is n m p k
  end.

Lemma find_loop_run n T s k c : forall fuel b,
  Z.of_nat (length k) = n ->
  (forall p, p ∈ c -> member n T (elems s) p) -> links (blinks (elems s)) b c None ->
  (length c <= fuel)%nat ->
  exists o, find_loop fuel k (first c None) s = (Ret o, s) /\ lookup_result n (elems s) c k o.
Proof.
  induction c as [|p c IH]; intros fuel b Hk M L Hf.
  { exists None. split; [by destruct fuel|]. by intros p ?%not_elem_of_nil. }
  destruct fuel as [|fuel]; [cbn in Hf; lia|]. destruct L as [Lp L].
  destruct (member_elem n T (elems s) p) as (e & He & _ & Ek & En & _ & Hn); [apply M; by left|].
  unfold blinks in Lp. rewrite He in Lp. injection Lp as _ Enx.
  destruct (IH fuel (Some p)) as (o & R & O); [done|by intros; apply M; right|done|cbn in Hf; lia|].
  cbn [find_loop first]. rewrite (bind_ret_l _ _ _ _ _ (read_hh_run s p e He)).
  rewrite En, Hk, Z.eqb_refl, Ek, (bind_ret_l _ _ _ _ _ (deref_Some p s)).
  rewrite (bind_ret_l _ _ _ _ _ (read_key_run s p n e He Hn)). rewrite Enx.
  case_decide as D.
  - exists (Some p). split; [done|]. split; [by left|]. by exists e.
  - exists o. split; [done|]. destruct o as [q|].
    + destruct O. split; [by right|done].
    + intros q [->|Hq]%elem_of_cons; [|by apply O]. intros (e' & He' & <-). by simplify_eq.
Qed.

(** [HASH_FIND] finds an element with the key exactly if the table has one. *)
Lemma HASH_FIND_run n s t k :
  table_holds n s t -> Z.of_nat (length k) = n ->
  exists o, HASH_FIND k s = (Ret o, s) /\ lookup_result n (elems s) t k o.
Proof.
  intros H Hk. pose proof H as (ND & L & Hh & R). unfold HASH_FIND.
  erewrite bind_ret_l by reflexivity. rewrite Hh.
  destruct (decide (t = [])) as [->|Ht].
  { exists None. split; [done|]. by intros p ?%not_elem_of_nil. }
  destruct (R Ht) as (T & tb & ET & M & (j & chain & Hj & En & El & F & _) & _ & _).
  destruct (first_some t Ht) as (h & -> & _).
  rewrite (bind_ret_l _ _ _ _ _ (table_head_run n s t T H M Ht)).
  rewrite (bind_ret_l _ _ _ _ _ (read_tbl_run s T tb ET)), En.
  set (v := HASH_TO_BKT (HASH_FCN k) (2 ^ j)).
  destruct (bucket_exists (buckets tb) (HASH_FCN k) j) as [b Hb]; [lia|apply F|]. fold v in Hb.
  destruct (proj2 F _ b Hb) as [(B1 & _ & NDc & Lc) C]. unfold HASH_FIND_IN_BKT.
  rewrite (bind_ret_l _ _ _ _ _ (read_bucket_run s T v tb b ET Hb)).
  erewrite bind_ret_l by reflexivity. rewrite B1.
  destruct (find_loop_run n T s k (chain (Z.to_nat v)) (size (elems s)) None) as (o & Ro & O); try done.
  - intros p Hp. by apply M, C.
  - apply live_length; [done|]. intros p Hp. by eapply member_live, M, C.
  - exists o. split; [done|]. destruct o as [q|]; cbn in *.
    + destruct O as [Oq Ok]. split; [by apply C|done].
    + intros p Hp Kp. apply (O p); [|done]. apply C. split; [done|].
      destruct (M p Hp) as (f & Ei & _). eapply to_bucket; [lia|done|].
      destruct Kp as (e & He & <-). unfold ident in Ei. rewrite He in Ei.
      injection Ei as -> _ _ _ <-. done.
Qed.

(** [HASH_COUNT] is the number of elements. *)
Lemma HASH_COUNT_run n s t :
  table_holds n s t -> HASH_COUNT s = (Ret (Z.of_nat (length t)), s).
Proof.
  intros H. pose proof H as (_ & _ & Hh & R). unfold HASH_COUNT.
  erewrite bind_ret_l by reflexivity. rewrite Hh.
  destruct (decide (t = [])) as [->|Ht]; [done|].
  destruct (R Ht) as (T & tb & ET & M & _ & _ & Ei).
  destruct (first_some t Ht) as (h & -> & _).
  rewrite (bind_ret_l _ _ _ _ _ (table_head_run n s t T H M Ht)).
  rewrite (bind_ret_l _ _ _ _ _ (read_tbl_run s T tb ET)). by rewrite Ei.
Qed.

(** ** Deleting an element *)

Lemma HASH_DEL_IN_BKT_run s T tb v p e b :
  tables s !! T = Some tb -> buckets tb !! Z.to_nat v = Some b ->
  elems s !! p = Some e -> 0 < count b < 2 ^ 32 ->
  (forall q, hh_prev (hh e) = Some q -> is_Some (elems s !! q)) ->
  (forall q, hh_next (hh e) = Some q -> is_Some (elems s !! q)) ->
  let h := if decide (hh_head b = Some p) then hh_next (hh e) else hh_head b in
  HASH_DEL_IN_BKT T v p s =
  (Ret tt, set_tables
             (<[T := with_bucket (Z.to_nat v) (Bucket h (count b - 1) (expand_mult b)) tb]> (tables s))
             (set_elems (popped (hh e) (elems s)) s)).
Proof.
  intros ET Hb He Hc Lp Ln h. unfold HASH_DEL_IN_BKT.
  rewrite (bind_ret_l _ _ _ _ _ (write_bucket_run s T v _ tb b ET Hb)).
  rewrite u32_small by lia. set (b1 := put_count (count b - 1) b).
  change (put_buckets _ tb) with (with_bucket (Z.to_nat v) b1 tb).
  set (s1 := set_tables _ s).
  assert (tables s1 !! T = Some (with_bucket (Z.to_nat v) b1 tb)) as ET1 by apply lookup_insert_eq.
  pose proof (with_bucket_lookup (Z.to_nat v) b1 b tb Hb) as Hb1.
  rewrite (bind_ret_l _ _ _ _ _ (read_bucket_run s1 T v _ b1 ET1 Hb1)).
  rewrite (bind_ret_l _ _ _ _ _ (read_hh_run s1 p e He)).
  assert ((if decide (hh_head b1 = Some p) then write_bucket T v (put_hh_head (hh_next (hh e)))
           else ret tt) s1 =
    (Ret tt, set_tables (<[T := with_bucket (Z.to_nat v) (Bucket h (count b - 1) (expand_mult b)) tb]>
                          (tables s)) s)) as E.
  { subst h. cbn [hh_head b1 put_count]. case_decide.
    - rewrite (write_bucket_run s1 T v _ _ b1 ET1 Hb1). unfold s1. cbn [set_tables tables elems head_ptr].
      rewrite insert_insert_eq. fold (with_bucket (Z.to_nat v) (put_hh_head (hh_next (hh e)) b1)
        (with_bucket (Z.to_nat v) b1 tb)). by rewrite with_bucket_twice.
    - unfold ret, s1, b1. by destruct b. }
  rewrite (bind_ret_l _ _ _ _ _ E).
  erewrite bind_ret_l; [|apply if_ptr_run; exact Lp].
  rewrite if_ptr_run; [done|]. intros q Hq. apply upd_opt_live, Ln, Hq.
Qed.

(** The links after the list in application order lost an element. *)
Definition unordered (x : UT_hash_handle) (m : gmap loc elem) : gmap loc elem :=
  upd_opt (next x) (put_prev (prev x)) (upd_opt (prev x) (put_next (next x)) m).

Lemma unordered_ident x m q : ident (unordered x m) q = ident m q.
Proof. unfold unordered. destruct (next x), (prev x); cbn; by autorewrite with parts. Qed.

Lemma unordered_blinks x m q : blinks (unordered x m) q = blinks m q.
Proof. unfold unordered. destruct (next x), (prev x); cbn; by autorewrite with parts. Qed.

Lemma unordered_alinks x m q :
  alinks (unordered x m) q =
  let y := if decide (Some q = prev x)
           then (fun y => (fst y, next x)) <$> alinks m q else alinks m q in
  if decide (Some q = next x) then (fun y => (prev x, snd y)) <$> y else y.
Proof.
  unfold unordered. destruct (next x) as [n|], (prev x) as [v|]; cbn;
    autorewrite with parts; repeat case_decide; simplify_eq; done.
Qed.
Lemma table_links n s l p l' e :
  table_holds n s (l ++ p :: l') -> elems s !! p = Some e ->
  prev (hh e) = final None l /\ next (hh e) = first l' None.
Proof.
  intros (_ & L & _) He. apply links_lookup in L. unfold alinks in L. rewrite He in L.
  by injection L.
Qed.

Lemma final_live n s l p l' q :
  table_holds n s (l ++ p :: l') -> final None l = Some q -> is_Some (elems s !! q) /\ q <> p.
Proof.
  intros H Hq. apply final_elem in Hq; [|done]. split.
  - apply (table_live n s (l ++ p :: l')); [done|]. apply elem_of_app. by left.
  - intros ->. destruct H as [(_ & D & _)%NoDup_app _]. apply (D p Hq). by left.
Qed.

Lemma first_live n s l p l' q :
  table_holds n s (l ++ p :: l') -> first l' None = Some q -> is_Some (elems s !! q).
Proof.
  intros H Hq. apply (table_live n s (l ++ p :: l')); [done|]. destruct l' as [|r l']; [done|].
  injection Hq as ->. rewrite elem_of_app, !elem_of_cons. auto.
Qed.

(** The tail of the list without [p]. *)
Lemma tail_spliced (l : list loc) p l' :
  NoDup (l ++ p :: l') ->
  (if decide (last (l ++ p :: l') = Some p) then final None l else last (l ++ p :: l'))
  = last (l ++ l').
Proof.
  intros (_ & D & [Hp ND]%NoDup_cons)%NoDup_app.
  destruct l' as [|q l' _] using rev_ind.
  - rewrite last_snoc, decide_True, app_nil_r by done. unfold final. by destruct (last l).
  - rewrite app_comm_cons, !app_assoc, !last_snoc.
    rewrite decide_False; [done|]. intros [= ->]. apply Hp, elem_of_app. right. by left.
Qed.

Lemma delete_in_order_run n s l p l' T tb e :
  table_holds n s (l ++ p :: l') -> head_tbl s = (Ret T, s) ->
  tables s !! T = Some tb -> tail_hh tb = last (l ++ p :: l') -> elems s !! p = Some e ->
  delete_in_order p s =
  (Ret tt, HState (unordered (hh e) (elems s))
             (<[T := put_tail (last (l ++ l')) tb]> (tables s)) (first (l ++ l') None)).
Proof.
  intros H HT ET El He. destruct (table_links _ _ _ _ _ _ H He) as [Ep En].
  unfold delete_in_order. rewrite (bind_ret_l _ _ _ _ _ (read_hh_run s p e He)).
  rewrite (bind_ret_l _ _ _ _ _ HT), (bind_ret_l _ _ _ _ _ (read_tbl_run s T tb ET)).
  set (s1 := set_tables (<[T := put_tail (last (l ++ l')) tb]> (tables s)) s).
  assert ((if decide (tail_hh tb = Some p) then write_tbl T (put_tail (prev (hh e))) else ret tt) s
          = (Ret tt, s1)) as E1.
  { unfold s1. rewrite <- tail_spliced with (p := p) by apply H. rewrite <- El, Ep.
    case_decide; [by rewrite (write_tbl_run s T _ tb ET)|].
    assert (put_tail (tail_hh tb) tb = tb) as -> by by destruct tb.
    rewrite insert_id by done. by destruct s. }
  rewrite (bind_ret_l _ _ _ _ _ E1).
  set (s2 := HState (upd_opt (prev (hh e)) (put_next (next (hh e))) (elems s)) (tables s1)
                    (first (l ++ l') None)).
  assert (match prev (hh e) with
          | Some q => write_hh q (put_next (next (hh e)))
          | None => modify (set_head (next (hh e)))
          end s1 = (Ret tt, s2)) as E2.
  { unfold s2. rewrite Ep, En, first_app. destruct (final None l) as [q|] eqn:Eq.
    - destruct (final_live _ _ _ _ _ _ H Eq) as [Lq _].
      rewrite write_hh_run by done. unfold set_elems, s1. cbn.
      rewrite (proj1 (proj2 (proj2 H))), first_app. by destruct l.
    - destruct l as [|q l _] using rev_ind; [done|]. by rewrite final_snoc in Eq. }
  rewrite (bind_ret_l _ _ _ _ _ E2).
  assert (elems s2 !! p = Some e) as He2.
  { unfold s2. cbn. rewrite Ep. destruct (final None l) as [q|] eqn:Eq; [|done].
    destruct (final_live _ _ _ _ _ _ H Eq) as [_ Hq]. unfold upd_opt, upd.
    by rewrite lookup_alter_ne. }
  rewrite (bind_ret_l _ _ _ _ _ (read_hh_run s2 p e He2)).
  rewrite if_ptr_run; [done|]. intros q Hq. apply upd_opt_live.
  rewrite En in Hq. by apply (first_live _ _ _ _ _ _ H).
Qed.

Lemma delete_table_run s T :
  head_tbl s = (Ret T, s) -> is_Some (tables s !! T) ->
  delete_table s = (Ret tt, HState (elems s) (delete T (tables s)) None).
Proof.
  intros HT [tb ET]. unfold delete_table.
  by rewrite (bind_ret_l _ _ _ _ _ HT), (bind_ret_l _ _ _ _ _ (read_tbl_run s T tb ET)).
Qed.

Lemma elem_spliced (l : list loc) p l' q :
  NoDup (l ++ p :: l') -> q ∈ l ++ l' <-> q <> p /\ q ∈ l ++ p :: l'.
Proof.
  intros (_ & D & [Hp _]%NoDup_cons)%NoDup_app. rewrite !elem_of_app, elem_of_cons.
  split; [|tauto]. intros Hq. split; [|tauto]. intros ->.
  destruct Hq as [Hq|Hq]; [|done]. destruct (D p Hq). by left.
Qed.

(** The second half of [HASH_DELETE]: the bucket and the count. *)
Lemma delete_hashed_run s T tb t t' p e h eh :
  tables s !! T = Some tb -> array_holds (elems s) tb t -> p ∈ t ->
  elems s !! p = Some e -> num_items tb = Z.of_nat (length t) ->
  Z.of_nat (length t) < 2 ^ 32 ->
  (forall q, q ∈ t -> is_Some (elems s !! q)) ->
  (forall q, q ∈ t' <-> q <> p /\ q ∈ t) ->
  head_ptr s = Some h -> elems s !! h = Some eh -> tbl (hh eh) = Some T ->
  exists m' tb',
    (let* x := read_hh p in
     let* T := head_tbl in
     let* t := read_tbl T in
     HASH_DEL_IN_BKT T (HASH_TO_BKT (hashv x) (num_buckets t)) p ;;;
     let* T := head_tbl in
     write_tbl T (fun t => put_num_items (u32 (num_items t - 1)) t)) s
    = (Ret tt, set_tables (<[T := tb']> (tables s)) (set_elems m' s)) /\
    array_holds m' tb' t' /\ same_items (elems s) m' /\
    tail_hh tb' = tail_hh tb /\ num_items tb' = num_items tb - 1 /\
    num_buckets tb' = num_buckets tb.
Proof.
  intros ET (k & chain & Hk & En & El & F & Hm) Hp He Ei Hlen Live Ht Hh Heh Et.
  rewrite (bind_ret_l _ _ _ _ _ (read_hh_run s p e He)).
  rewrite (bind_ret_l _ _ _ _ _ (head_tbl_run s T h eh Hh Heh Et)).
  rewrite (bind_ret_l _ _ _ _ _ (read_tbl_run s T tb ET)).
  set (v := HASH_TO_BKT (hashv (hh e)) (num_buckets tb)).
  assert (in_bucket (elems s) (2 ^ k) p (Z.to_nat v)) as Hin.
  { unfold v. rewrite En. eapply to_bucket; [lia|unfold ident; by rewrite He|done]. }
  destruct (bucket_exists (buckets tb) (hashv (hh e)) k) as [b Hb]; [lia|apply F|].
  rewrite <- En in Hb. fold v in Hb.
  pose proof (filled_count _ _ _ _ _ _ _ F Hb) as Hc.
  destruct (proj2 F _ b Hb) as [(B1 & B2 & B3 & B4) C].
  assert (p ∈ chain (Z.to_nat v)) as Hpc by by apply C.
  assert (forall q, q ∈ chain (Z.to_nat v) -> is_Some (elems s !! q)) as Livec.
  { intros q Hq. by apply Live, C. }
  destruct (filled_pop _ _ _ _ t' _ p _ b e _ F Hp Hin Hb He eq_refl Ht) as [chain' F'].
  apply list_elem_of_split in Hpc as (c & c' & Ec). rewrite Ec in *.
  pose proof (links_lookup _ _ _ _ _ _ B4) as E. unfold blinks in E. rewrite He in E.
  injection E as Eprev Enext.
  assert (0 < count b) by (rewrite B2, length_app; cbn; lia).
  rewrite (bind_ret_l _ _ _ _ _
             (HASH_DEL_IN_BKT_run s T tb v p e b ET Hb He ltac:(lia)
                ltac:(intros q; rewrite Eprev; intros Hq; apply Livec, elem_of_app; left;
                      by apply final_elem in Hq)
                ltac:(intros q; rewrite Enext; intros Hq; apply Livec; destruct c'; [done|];
                      injection Hq as ->; rewrite elem_of_app, !elem_of_cons; auto))).
  set (m' := popped (hh e) (elems s)) in *.
  pose proof (popped_same (hh e) (elems s)) as Sm. fold m' in Sm.
  destruct (m' !! h) as [eh'|] eqn:Heh'.
  2: { apply eq_None_not_Some in Heh'. destruct Heh'. apply (same_items_live _ _ h Sm). by rewrite Heh. }
  assert (tbl (hh eh') = Some T) as Et'.
  { destruct Sm as (I & _). specialize (I h). unfold ident in I. rewrite Heh, Heh' in I.
    by injection I as _ -> _ _ _. }
  set (s2 := set_tables _ (set_elems m' s)).
  rewrite (bind_ret_l _ _ _ _ _ (head_tbl_run s2 T h eh' Hh Heh' Et')).
  rewrite (write_tbl_run s2 T _ _ (lookup_insert_eq _ _ _)).
  eexists m', _. split.
  { unfold s2. cbn [set_tables set_elems tables elems head_ptr]. rewrite insert_insert_eq. reflexivity. }
  split; [|split; [done|split; [done|split; [|done]]]].
  - exists k, chain'. repeat (split; [done|]). apply mults_insert; [done|].
    by apply (mults_lookup (buckets tb) (Z.to_nat v) b).
  - cbn. apply u32_small. lia.
Qed.

(** Deleting an element of the table takes exactly this element out. *)
Lemma HASH_DELETE_run n s l p l' :
  table_holds n s (l ++ p :: l') -> Z.of_nat (length (l ++ p :: l')) < 2 ^ 32 ->
  exists s', HASH_DELETE p s = (Ret tt, s') /\ table_holds n s' (l ++ l') /\
    field <$> elems s' = field <$> elems s /\ (forall j, growth_left j s -> growth_left j s').
Proof.
  intros H Hlen. set (t := l ++ p :: l') in *.
  assert (p ∈ t) as Hpt by (apply elem_of_app; right; by left).
  assert (t <> []) as Ht by (by intros E; rewrite E in Hpt; apply not_elem_of_nil in Hpt).
  destruct (proj2 (proj2 (proj2 H)) Ht) as (T & tb & ET & M & A & El & Ei).
  destruct (member_elem n T (elems s) p (M p Hpt)) as (e & He & Et & _ & _ & Ev & _).
  pose proof (table_head_run n s t T H M Ht) as HT.
  destruct (table_links _ _ _ _ _ _ H He) as [Ep En].
  unfold HASH_DELETE. rewrite (bind_ret_l _ _ _ _ _ (read_hh_run s p e He)).
  case_decide as D.
  { rewrite (delete_table_run s T) by (by rewrite ?ET). eexists. split; [reflexivity|].
    split; [|split; [done|]].
    2: { intros j G T' tb'. cbn [tables]. intros [_ ET']%lookup_delete_Some. by apply (G T'). }
    rewrite Ep, En, alone in D. rewrite D. by split; [constructor|]. }
  rewrite Ep, En, alone in D.
  rewrite (bind_ret_l _ _ _ _ _ (delete_in_order_run n s l p l' T tb e H HT ET El He)).
  set (s1 := HState _ _ _). set (tb1 := put_tail (last (l ++ l')) tb) in *.
  pose proof (proj1 H) as ND.
  assert (forall q, q ∈ l ++ l' -> q ∈ t) as Hsub by (intros q Hq; by apply elem_spliced).
  assert (forall q, q ∈ t -> member n T (elems s1) q) as M1.
  { intros q Hq. apply (member_ext n T (elems s)); [apply unordered_ident|by apply M]. }
  destruct (first_some _ D) as (h & Hh & Hhl).
  destruct (member_elem n T (elems s1) h (M1 h (Hsub h Hhl))) as (eh & Heh & Eth & _).
  destruct (member_elem n T (elems s1) p (M1 p Hpt)) as (e1 & He1 & _).
  destruct (delete_hashed_run s1 T tb1 t (l ++ l') p e1 h eh)
    as (m' & tb' & R & A' & S & Tl & N & NB); try done.
  - apply lookup_insert_eq.
  - revert A. apply array_holds_ext; try done; intros; [apply unordered_ident|apply unordered_blinks].
  - intros q Hq. by eapply member_live, M1.
  - intros q. by apply elem_spliced.
  - eexists. split; [exact R|]. destruct S as (S1 & S2 & S3). split; [|split].
    + split; [apply NoDup_app in ND as (ND1 & D1 & [_ ND2]%NoDup_cons);
              apply NoDup_app; split; [done|]; split; [|done];
              intros q Hq Hq'; apply (D1 q Hq); by right|].
      split; [|split; [done|]].
      * cbn [elems set_tables set_elems]. apply (links_ext (alinks (elems s1))); [intros; apply S2|].
        eapply (links_spliced (alinks (elems s))); [exact ND|exact Ep|exact En| |apply H].
        apply unordered_alinks.
      * intros _. exists T, tb'. split; [apply lookup_insert_eq|]. split; [|split; [done|split; [done|]]].
        -- intros q Hq. apply (member_ext n T (elems s1)); [apply S1|by apply M1, Hsub].
        -- rewrite N. cbn. rewrite Ei. unfold t. rewrite !length_app. cbn. lia.
    + cbn [elems set_tables set_elems]. rewrite S3. unfold s1, unordered. cbn.
      by rewrite !upd_opt_field.
    + intros j G. apply (growth_left_insert j s1 _ T tb'); [|done|rewrite NB; exact (G T tb ET)].
      apply (growth_left_insert j s _ T tb1); [done|done|exact (G T tb ET)].
Qed.

(** ** Iterating *)

Fixpoint iter_list (body : loc -> M hstate unit) (t : list loc) : M hstate unit :=
  match t with
  | [] => ret tt
  | p :: t => body p ;;; iter_list body t
  end.

(** A loop body that, called on an element, may add elements before it or
    remove it, but leaves the rest of the table in place. *)
Definition keeps_rest (n : Z) (body : loc -> M hstate unit) : Prop :=
  forall l p l' s s', table_holds n s (l ++ p :: l') ->
    Z.of_nat (length (l ++ p :: l')) < 2 ^ 28 -> body p s = (Ret tt, s') ->
    exists l1, table_holds n s' (l1 ++ l') /\ Z.of_nat (length (l1 ++ l')) < 2 ^ 28.

Lemma successor_run n s l p l' :
  table_holds n s (l ++ p :: l') -> successor (Some p) s = (Ret (first l' None), s).
Proof.
  intros (_ & L & _). apply links_lookup in L. unfold alinks in L.
  destruct (elems s !! p) as [e|] eqn:He; [|done]. injection L as _ L.
  cbn. rewrite (bind_ret_l _ _ _ _ _ (read_hh_run s p e He)). by rewrite L.
Qed.

Lemma successor_first n s l l' :
  table_holds n s (l ++ l') ->
  successor (first l' None) s = (Ret (first (drop 1 l') None), s).
Proof. destruct l' as [|q l']; [done|]. cbn [first]. apply successor_run. Qed.

Lemma iter_loop_run n body : keeps_rest n body -> forall t fuel s l,
  table_holds n s (l ++ t) -> Z.of_nat (length (l ++ t)) < 2 ^ 28 -> (length t <= fuel)%nat ->
  iter_loop body fuel (first t None) (first (drop 1 t) None) s = iter_list body t s.
Proof.
  intros K. induction t as [|p t IH]; intros fuel s l H Hlen Hf; [by destruct fuel|].
  destruct fuel as [|fuel]; [cbn in Hf; lia|]. cbn [iter_loop iter_list first drop].
  unfold bind at 1 3. destruct (body p s) as [[[]| | | | |] s'] eqn:B; try done.
  destruct (K l p t s s' H Hlen B) as (l1 & H1 & Hlen1).
  erewrite bind_ret_l by by eapply successor_first.
  eapply IH; [done|done|]. cbn in Hf. lia.
Qed.

Lemma HASH_DELETE_keeps_rest n : keeps_rest n HASH_DELETE.
Proof.
  intros l p l' s s' H Hlen R.
  destruct (HASH_DELETE_run n s l p l' H) as (s1 & R1 & H1 & _); [lia|].
  rewrite R in R1. injection R1 as ->. exists l. split; [done|].
  rewrite length_app in *. cbn in Hlen. lia.
Qed.

(** ** Deleting an element that was never added *)

(** The handle of a [calloc]ed element is zero, so [HASH_DELETE] takes it for
    the last element and frees the table. *)
Lemma HASH_DELETE_stranger n s t p e :
  table_holds n s t -> t <> [] -> elems s !! p = Some e -> hh e = zero_handle ->
  exists s', HASH_DELETE p s = (Ret tt, s') /\ table_holds n s' [] /\ elems s' = elems s.
Proof.
  intros H Ht He Ez. destruct (proj2 (proj2 (proj2 H)) Ht) as (T & tb & ET & M & _).
  unfold HASH_DELETE. rewrite (bind_ret_l _ _ _ _ _ (read_hh_run s p e He)), Ez.
  rewrite decide_True by done.
  rewrite (delete_table_run s T); [|by apply (table_head_run n s t)|by rewrite ET].
  eexists. split; [reflexivity|]. split; [|done]. by split; [constructor|].
Qed.

Lemma HASH_DELETE_empty n s p e :
  table_holds n s [] -> elems s !! p = Some e -> hh e = zero_handle ->
  HASH_DELETE p s = (Undefined, s).
Proof.
  intros (_ & _ & Hh & _) He Ez.
  unfold HASH_DELETE. rewrite (bind_ret_l _ _ _ _ _ (read_hh_run s p e He)), Ez.
  rewrite decide_True by done. unfold delete_table, head_tbl, bind at 1 2, gets. by rewrite Hh.
Qed.

(** ** Properties *)

(** Iterating.  [HASH_ITER] calls its body on the elements in the order in
    which they were added, each once, whatever the body does to the elements up
    to the one it is called on: it may delete them, as the loops of the program
    do. *)
Theorem hash_iter_in_order n body fuel s t :
  keeps_rest n body -> table_holds n s t -> Z.of_nat (length t) < 2 ^ 28 ->
  (length t <= fuel)%nat ->
  HASH_ITER fuel body s = iter_list body t s.
Proof.
  intros K H Hlen Hf. unfold HASH_ITER. erewrite bind_ret_l by reflexivity.
  rewrite (proj1 (proj2 (proj2 H))).
  erewrite bind_ret_l by by apply (successor_first n s [] t).
  by apply (iter_loop_run n body K t fuel s []).
Qed.

End Correctness.

Section Example_hash.

Definition example_elem (b : Init.Byte.byte) : elem := Elem zero_handle [b; b].

Definition example_elems : gmap loc elem :=
  <[1%positive := example_elem Init.Byte.x01]>
    (<[2%positive := example_elem Init.Byte.x02]> ∅).

Definition example_hash : hstate :=
  snd ((HASH_ADD 2 1%positive ;;; HASH_ADD 2 2%positive) (HState example_elems ∅ None)).

Lemma example_hash_holds : table_holds 2 example_hash [1; 2]%positive.
Proof.
  assert (table_holds 2 (HState example_elems ∅ None) []) as H0 by (by split; [constructor|]).
  destruct (HASH_ADD_run 2 _ [] 1%positive (example_elem Init.Byte.x01) H0)
    as (s1 & R1 & H1 & F1 & _); [apply table_room_small; cbn; lia|apply not_elem_of_nil|done|done|].
  assert (exists e, elems s1 !! 2%positive = Some e /\ field e = [Init.Byte.x02; Init.Byte.x02])
    as (e & He & Ef).
  { assert ((field <$> elems s1) !! 2%positive = Some [Init.Byte.x02; Init.Byte.x02]) as E
      by by rewrite F1.
    rewrite lookup_fmap in E. destruct (elems s1 !! 2%positive) as [e|]; [|done].
    exists e. split; [done|]. cbn in E. congruence. }
  destruct (HASH_ADD_run 2 s1 _ 2%positive e H1) as (s2 & R2 & H2 & _);
    [apply table_room_small; cbn; lia|by apply (bool_decide_unpack _); vm_compute|done|by rewrite Ef|].
  unfold example_hash. by rewrite (bind_ret_l _ _ _ _ _ R1), R2.
Qed.

Lemma hash_iter_in_order_witness :
  HASH_ITER 2 HASH_DELETE example_hash = iter_list HASH_DELETE [1; 2]%positive example_hash /\
  head_ptr (snd (HASH_ITER 2 HASH_DELETE example_hash)) = None.
Proof.
  split; [|by vm_compute].
  apply (hash_iter_in_order 2).
  - apply HASH_DELETE_keeps_rest.
  - apply example_hash_holds.
  - reflexivity.
  - cbn. lia.
Defined.

End Example_hash.
