(* ===== verification/UTList.v ===== *)
(** * Singly linked lists (src/utlist.h, 309-440)

    The macros the program uses for its list of configured peers and for its
    queues, [LL_PREPEND], [LL_APPEND], [LL_DELETE] and [LL_FOREACH_SAFE], on a
    store of nodes with a [next] pointer.  [chain] relates the pointer to the
    first node to the list of the nodes. *)

From S2P Require Export Links.
From S2P Require Import ListOps.

Section Lists.
Context {A : Type}.

(** A node: what the list is for, and its [next] field. *)
Record node := Node { payload : A; link : option loc }.

Abbreviation store := (gmap loc node).

Definition read_link (p : loc) : M store (option loc) := fun m =>
  deref (link <$> m !! p) m.

Definition write_link (p : loc) (v : option loc) : M store unit :=
  read_link p ;;; modify (alter (fun n => Node (payload n) v) p).

(** [LL_PREPEND] (309-316); the new value of [head] is returned. *)
Definition LL_PREPEND (head : option loc) (add : loc) : M store (option loc) :=
  write_link add head ;;; ret (Some add).

(** [while (_tmp->next) { _tmp = _tmp->next; }]; a chain with more nodes than
    the store runs in a circle. *)
Fixpoint last_node (fuel : nat) (tmp : loc) : M store loc :=
  match fuel with
  | O => fail Blocked
  | S fuel =>
      let* n := read_link tmp in
      match n with
      | Some q => last_node fuel q
      | None => ret tmp
      end
  end.

(** [LL_APPEND] (333-347) *)
Definition LL_APPEND (head : option loc) (add : loc) : M store (option loc) :=
  write_link add None ;;;
  match head with
  | Some p =>
      let* n := gets size in
      let* tmp := last_node n p in
      write_link tmp (Some add) ;;; ret head
  | None => ret (Some add)
  end.

(** [while (_tmp->next && (_tmp->next != (del))) { _tmp = _tmp->next; }] *)
Fixpoint node_before (fuel : nat) (del tmp : loc) : M store loc :=
  match fuel with
  | O => fail Blocked
  | S fuel =>
      let* n := read_link tmp in
      match n with
      | Some q => if decide (q = del) then ret tmp else node_before fuel del q
      | None => ret tmp
      end
  end.

(** [LL_DELETE] (349-366) *)
Definition LL_DELETE (head : option loc) (del : loc) : M store (option loc) :=
  if decide (head = Some del) then read_link del
  else
    let* p := deref head in
    let* n := gets size in
    let* tmp := node_before n del p in
    let* x := read_link tmp in
    match x with
    | Some _ => let* y := read_link del in write_link tmp y ;;; ret head
    | None => ret head
    end.

(** [LL_CONCAT] (318-331) *)
Definition LL_CONCAT (head1 head2 : option loc) : M store (option loc) :=
  match head1 with
  | Some p =>
      let* n := gets size in
      let* tmp := last_node n p in
      write_link tmp head2 ;;; ret head1
  | None => ret head2
  end.

(** [while ((add)->next->next) { (add)->next = (add)->next->next; }] *)
Fixpoint last_through (fuel : nat) (add : loc) : M store unit :=
  match fuel with
  | O => fail Blocked
  | S fuel =>
      let* t := read_link add in
      let* t := deref t in
      let* n := read_link t in
      match n with
      | Some _ => write_link add n ;;; last_through fuel add
      | None => ret tt
      end
  end.

(** [LL_APPEND_VS2008] (369-382), without a temporary variable. *)
Definition LL_APPEND_VS2008 (head : option loc) (add : loc) : M store (option loc) :=
  let* head :=
    match head with
    | Some _ =>
        write_link add head ;;;
        let* n := gets size in
        last_through n add ;;;
        let* t := read_link add in
        let* t := deref t in
        write_link t (Some add) ;;; ret head
    | None => ret (Some add)
    end in
  write_link add None ;;; ret head.

(** [LL_DELETE_VS2008] (384-404): the loop moves [head], which is restored. *)
Definition LL_DELETE_VS2008 (head : option loc) (del : loc) : M store (option loc) :=
  if decide (head = Some del) then
    let* p := deref head in read_link p
  else
    let tmp := head in
    let* p := deref head in
    let* n := gets size in
    let* p := node_before n del p in
    let* x := read_link p in
    (if decide (is_Some x) then let* y := read_link del in write_link p y else ret tt) ;;;
    ret tmp.

(** A failing [assert] ends the process with SIGABRT. *)
Definition assert_nonnull (p : option loc) : M store loc :=
  match p with Some p => ret p | None => fail (Exit 134) end.

(** [if (_tmp->next) { _tmp->next = (add); }], behind the element before [el];
    the end of [LL_REPLACE_ELEM] and of [LL_PREPEND_ELEM]. *)
Definition link_before (head : option loc) (el add : loc) : M store (option loc) :=
  if decide (head = Some el) then ret (Some add)
  else
    let* p := deref head in
    let* n := gets size in
    let* tmp := node_before n el p in
    let* x := read_link tmp in
    (if decide (is_Some x) then write_link tmp (Some add) else ret tt) ;;;
    ret head.

(** [LL_REPLACE_ELEM] (460-478) *)
Definition LL_REPLACE_ELEM (head : option loc) (el add : loc) : M store (option loc) :=
  assert_nonnull head ;;;
  let* x := read_link el in
  write_link add x ;;;
  link_before head el add.

(** [LL_PREPEND_ELEM] (480-498) *)
Definition LL_PREPEND_ELEM (head : option loc) (el add : loc) : M store (option loc) :=
  assert_nonnull head ;;;
  write_link add (Some el) ;;;
  link_before head el add.

Definition read_payload (p : loc) : M store A := fun m => deref (payload <$> m !! p) m.

(** What [LL_SORT] (104-160) does in its own way. *)
Definition LL_sort_ops (cmp : A -> A -> Z) : sort_ops store :=
  let next (oldhead p : option loc) := let* p := deref p in read_link p in
  let link_tail (tail v : option loc) : M store unit :=
    match tail with Some t => write_link t v | None => ret tt end in
  {| next_p := next;
     next_q := next;
     compare := fun p q =>
       let* a := read_payload p in let* b := read_payload q in ret (cmp a b);
     emit := link_tail;
     close := fun _ tail => link_tail tail None;
     finish := fun _ _ => ret tt;
     arith := int_arith;
     store_size := size |}.

Definition LL_SORT (cmp : A -> A -> Z) : option loc -> M store (option loc) :=
  merge_sort (LL_sort_ops cmp).

(** [LL_FOREACH] and the operations as one kind of list. *)
#[global] Instance LL_list : LinkedList A store := {|
  l_next := fun _ el => read_link el;
  l_payload := read_payload;
  l_prepend := LL_PREPEND;
  l_append := LL_APPEND;
  l_delete := LL_DELETE;
  l_replace_elem := LL_REPLACE_ELEM;
  l_prepend_elem := LL_PREPEND_ELEM;
  l_sort := LL_SORT;
  l_size := size;
  l_appends := true |}.

(** [LL_FOREACH_SAFE] (437-439): the successor is read before the body runs. *)
Fixpoint foreach_safe {St} (read : loc -> M St (option loc)) (body : loc -> M St unit)
  (fuel : nat) (el : option loc) : M St unit :=
  match el, fuel with
  | None, _ => ret tt
  | Some _, O => fail Blocked
  | Some p, S fuel => let* tmp := read p in body p ;;; foreach_safe read body fuel tmp
  end.

(** ** The list of a chain *)

Fixpoint chain (m : store) (h : option loc) (l : list loc) : Prop :=
  match l with
  | [] => h = None
  | p :: l => h = Some p /\ exists n, m !! p = Some n /\ chain m (link n) l
  end.

(** The first node after an addition at the end. *)
Definition first_node (h : option loc) (p : loc) : option loc :=
  match h with Some q => Some q | None => Some p end.

(** The nodes of [m'] hold what those of [m] hold. *)
Definition same_payloads (m m' : store) : Prop := payload <$> m' = payload <$> m.

Lemma read_link_run m p n : m !! p = Some n -> read_link p m = (Ret (link n), m).
Proof. unfold read_link. by intros ->. Qed.

Definition relink (p : loc) (v : option loc) (m : store) : store :=
  alter (fun n => Node (payload n) v) p m.

Lemma write_link_run m p v n : m !! p = Some n -> write_link p v m = (Ret tt, relink p v m).
Proof. intros E. unfold write_link. by rewrite (bind_ret_l _ _ _ _ _ (read_link_run m p n E)). Qed.

Lemma relink_payloads p v m : same_payloads m (relink p v m).
Proof.
  apply map_eq. intros q. unfold relink. rewrite !lookup_fmap, lookup_alter.
  case_decide; subst; [|done]. by destruct (m !! q).
Qed.

Lemma relink_self p v m n : m !! p = Some n -> relink p v m !! p = Some (Node (payload n) v).
Proof. intros E. unfold relink. by rewrite lookup_alter_eq, E. Qed.

Lemma relink_other p q v m : q <> p -> relink p v m !! q = m !! q.
Proof. intros E. unfold relink. by rewrite lookup_alter_ne. Qed.

Lemma relink_live p q v m : is_Some (m !! q) -> is_Some (relink p v m !! q).
Proof. intros H. by apply lookup_alter_is_Some. Qed.

Lemma chain_relink m p v h l : p ∉ l -> chain m h l -> chain (relink p v m) h l.
Proof.
  revert h. induction l as [|q l IH]; intros h Hp; [done|].
  apply not_elem_of_cons in Hp as [Hq Hp]. intros (-> & n & En & C). split; [done|].
  exists n. split; [by rewrite relink_other|by apply IH].
Qed.

Lemma chain_live m h l p : chain m h l -> p ∈ l -> is_Some (m !! p).
Proof.
  revert h. induction l as [|q l IH]; intros h; [by intros _ ?%not_elem_of_nil|].
  intros (_ & n & En & C) [->|Hp]%elem_of_cons; [by rewrite En|by apply (IH (link n))].
Qed.

Lemma chain_insert m p n h l : m !! p = None -> chain m h l -> chain (<[p := n]> m) h l.
Proof.
  intros E. revert h. induction l as [|q l IH]; intros h; [done|].
  intros (-> & nq & Eq & C). split; [done|]. exists nq. split; [|by apply IH].
  rewrite lookup_insert_ne; [done|]. intros ->. congruence.
Qed.

Lemma chain_delete_other m p h l : p ∉ l -> chain m h l -> chain (delete p m) h l.
Proof.
  revert h. induction l as [|q l IH]; intros h; [done|].
  intros [Hq Hp]%not_elem_of_cons (-> & nq & Eq & C). split; [done|]. exists nq.
  split; [by rewrite lookup_delete_ne|by apply IH].
Qed.

Lemma chain_length m h l : NoDup l -> chain m h l -> (length l <= size m)%nat.
Proof.
  intros ND C. rewrite <- size_dom, <- (size_list_to_set (C := gset loc) l) by done.
  apply subseteq_size. intros p Hp%elem_of_list_to_set. apply elem_of_dom.
  by apply (chain_live m h l).
Qed.

Lemma last_node_run m l : forall fuel p,
  chain m (Some p) (p :: l) -> (length l < fuel)%nat ->
  exists q, last_node fuel p m = (Ret q, m) /\ last (p :: l) = Some q.
Proof.
  induction l as [|q l IH]; intros fuel p (_ & n & En & C) Hf;
    (destruct fuel as [|fuel]; [lia|]); cbn [last_node];
    rewrite (bind_ret_l _ _ _ _ _ (read_link_run m p n En)).
  - cbn in C. rewrite C. by exists p.
  - destruct C as [E C]. rewrite E. apply IH; [by split; [|exact C]|cbn in Hf; lia].
Qed.

(** Changing the pointer of the last element of [l1] changes what follows. *)
Lemma chain_redirect m t v l3 l2 l1 : forall h,
  chain m h (l1 ++ l2) -> NoDup l1 -> last l1 = Some t -> chain m v l3 -> t ∉ l3 ->
  chain (relink t v m) h (l1 ++ l3).
Proof.
  induction l1 as [|r l1 IH]; intros h C ND Ht C3 Hn; [done|].
  destruct C as (-> & nr & Er & C). apply NoDup_cons in ND as [Hr ND]. split; [done|].
  destruct l1 as [|r' l1].
  - injection Ht as ->. exists (Node (payload nr) v). split; [by apply relink_self|].
    by apply chain_relink.
  - rewrite last_cons_cons in Ht.
    exists nr. split; [|by apply IH]. rewrite relink_other; [done|]. intros ->.
    by apply Hr, last_Some_elem_of.
Qed.

Lemma chain_append m h l p n t :
  chain m h l -> m !! p = Some n -> link n = None -> p ∉ l -> NoDup l ->
  last l = Some t -> chain (relink t (Some p) m) h (l ++ [p]).
Proof.
  intros C Hp Hn Hpl ND Ht. apply (chain_redirect m t (Some p) [p] []); try done.
  - by rewrite app_nil_r.
  - split; [done|]. by exists n.
  - intros ->%list_elem_of_singleton. by apply Hpl, last_Some_elem_of.
Qed.

Lemma node_before_run m l1 : forall fuel p del l2,
  chain m (Some p) ((p :: l1) ++ del :: l2) -> del ∉ p :: l1 ->
  (length l1 < fuel)%nat ->
  exists q, node_before fuel del p m = (Ret q, m) /\ last (p :: l1) = Some q.
Proof.
  induction l1 as [|q l1 IH]; intros fuel p del l2 (_ & n & En & C) Hd Hf;
    (destruct fuel as [|fuel]; [lia|]); cbn [node_before];
    rewrite (bind_ret_l _ _ _ _ _ (read_link_run m p n En)).
  - destruct C as [-> _]. rewrite decide_True by done. by exists p.
  - destruct C as [E C]. rewrite E. apply not_elem_of_cons in Hd as [_ Hd].
    rewrite decide_False by (intros ->; apply Hd; by left).
    apply (IH _ _ _ l2); [by split; [|exact C]|done|cbn in Hf; lia].
Qed.

Lemma chain_at m h l1 p l2 : chain m h (l1 ++ p :: l2) ->
  exists n, m !! p = Some n /\ chain m (link n) l2.
Proof.
  revert h. induction l1 as [|r l1 IH]; intros h.
  - intros (_ & n & Hn & C). by exists n.
  - intros (_ & n & _ & C). by apply (IH (link n)).
Qed.

(** The loop finds the element before a member that is not the first. *)
Lemma before_run m h l1 p l2 : chain m h (l1 ++ p :: l2) -> NoDup (l1 ++ p :: l2) ->
  l1 <> [] -> exists r t n, h = Some r /\ h <> Some p /\
    node_before (size m) p r m = (Ret t, m) /\ last l1 = Some t /\
    m !! t = Some n /\ link n = Some p.
Proof.
  intros C ND Hl. destruct l1 as [|r l1]; [done|]. pose proof C as (-> & _).
  pose proof ND as (_ & D & _)%NoDup_app.
  assert (p ∉ r :: l1) as Hp by (intros Hp; apply (D p Hp); by left).
  destruct (node_before_run m l1 (size m) r p l2 C Hp) as (t & R & Ht).
  { pose proof (chain_length m _ _ ND C) as Hs. rewrite length_app in Hs. cbn in Hs. lia. }
  assert (exists n, m !! t = Some n /\ link n = Some p) as (n & Hn & Ln).
  { clear R D Hp Hl. revert r C ND Ht. induction l1 as [|r' l1 IH]; intros r C ND Ht.
    - injection Ht as ->. destruct C as (_ & n & Hn & E & _). by exists n.
    - destruct C as (_ & nr & _ & E & C). apply NoDup_cons in ND as [_ ND].
      apply (IH r'); [by split|done|done]. }
  exists r, t, n. split_and!; try done. intros [= ->]. apply Hp. by left.
Qed.

(** ** The operations on a chain *)

Lemma LL_PREPEND_run m h l p :
  chain m h l -> is_Some (m !! p) -> p ∉ l ->
  exists m', LL_PREPEND h p m = (Ret (Some p), m') /\ chain m' (Some p) (p :: l) /\
    same_payloads m m'.
Proof.
  intros C [n Hn] Hp. exists (relink p h m). unfold LL_PREPEND.
  rewrite (bind_ret_l _ _ _ _ _ (write_link_run m p h n Hn)).
  split; [done|]. split; [|apply relink_payloads]. split; [done|].
  exists (Node (payload n) h). split; [by apply relink_self|]. by apply chain_relink.
Qed.

(** The loop of [LL_APPEND] and [LL_CONCAT] finds the last element. *)
Lemma last_run m h l : chain m h l -> NoDup l -> l <> [] ->
  exists r t n, h = Some r /\ last_node (size m) r m = (Ret t, m) /\
    last l = Some t /\ m !! t = Some n.
Proof.
  intros C ND Hl. destruct l as [|r l]; [done|]. pose proof C as (-> & _).
  destruct (last_node_run m l (size m) r C) as (t & R & Ht).
  { pose proof (chain_length m _ _ ND C) as Hs. cbn in Hs. lia. }
  destruct (chain_live m (Some r) (r :: l) t C) as [n Hn]; [by apply last_Some_elem_of|].
  by exists r, t, n.
Qed.

Lemma LL_APPEND_state m h l p :
  chain m h l -> NoDup l -> is_Some (m !! p) -> p ∉ l ->
  LL_APPEND h p m = (Ret (first_node h p),
    match last l with
    | Some t => relink t (Some p) (relink p None m)
    | None => relink p None m
    end).
Proof.
  intros C ND [n Hn] Hp. unfold LL_APPEND.
  rewrite (bind_ret_l _ _ _ _ _ (write_link_run m p None n Hn)).
  assert (chain (relink p None m) h l) as C1 by by apply chain_relink.
  destruct (decide (l = [])) as [->|Hl]; [cbn in C; by subst h|].
  destruct (last_run _ h l C1 ND Hl) as (r & t & nt & -> & R & -> & Hnt).
  erewrite bind_ret_l by reflexivity. rewrite (bind_ret_l _ _ _ _ _ R).
  by rewrite (bind_ret_l _ _ _ _ _ (write_link_run _ t (Some p) nt Hnt)).
Qed.

Lemma LL_APPEND_run m h l p :
  chain m h l -> NoDup l -> is_Some (m !! p) -> p ∉ l ->
  exists m', LL_APPEND h p m = (Ret (first_node h p), m') /\
    chain m' (first_node h p) (l ++ [p]) /\ same_payloads m m'.
Proof.
  intros C ND Hn Hp. eexists. split; [by apply (LL_APPEND_state m h l)|].
  destruct Hn as [n Hn].
  assert (chain (relink p None m) h l) as C1 by by apply chain_relink.
  assert (relink p None m !! p = Some (Node (payload n) None)) as Hp1 by by apply relink_self.
  destruct (last l) as [t|] eqn:Ht.
  - split; [|etrans; apply relink_payloads]. destruct l as [|r l]; [done|].
    pose proof C as (-> & _). cbn [first_node].
    by apply (chain_append (relink p None m) _ (r :: l) p _ t C1 Hp1).
  - apply last_None in Ht as ->. cbn in C. subst h. split; [|apply relink_payloads].
    split; [done|]. by eexists.
Qed.

Lemma LL_DELETE_run m h l1 p l2 :
  chain m h (l1 ++ p :: l2) -> NoDup (l1 ++ p :: l2) ->
  exists h' m', LL_DELETE h p m = (Ret h', m') /\ chain m' h' (l1 ++ l2) /\
    same_payloads m m'.
Proof.
  intros C ND. destruct (chain_at m h l1 p l2 C) as (n & Hn & C2).
  unfold LL_DELETE. destruct (decide (l1 = [])) as [->|Hl].
  - pose proof C as (-> & _). rewrite decide_True by done.
    rewrite (read_link_run m p n Hn). by exists (link n), m.
  - destruct (before_run m h l1 p l2 C ND Hl) as (r & t & nt & -> & Hr & R & Ht & Hnt & Lt).
    rewrite decide_False by done. do 2 (erewrite bind_ret_l by reflexivity).
    rewrite (bind_ret_l _ _ _ _ _ R), (bind_ret_l _ _ _ _ _ (read_link_run m t nt Hnt)), Lt.
    rewrite (bind_ret_l _ _ _ _ _ (read_link_run m p n Hn)).
    rewrite (bind_ret_l _ _ _ _ _ (write_link_run m t (link n) nt Hnt)).
    exists (Some r), (relink t (link n) m). split; [done|]. split; [|apply relink_payloads].
    pose proof ND as (ND1 & D & _)%NoDup_app.
    apply (chain_redirect m t (link n) l2 (p :: l2)); try done.
    intros Hin. apply (D t); [by apply last_Some_elem_of|by right].
Qed.

(** Two lists become one. *)
Lemma LL_CONCAT_run m h1 l1 h2 l2 : chain m h1 l1 -> chain m h2 l2 -> NoDup (l1 ++ l2) ->
  exists h' m', LL_CONCAT h1 h2 m = (Ret h', m') /\ chain m' h' (l1 ++ l2) /\
    same_payloads m m'.
Proof.
  intros C1 C2 (ND1 & D & _)%NoDup_app. destruct (decide (l1 = [])) as [->|Hl].
  - cbn in C1. subst h1. by exists h2, m.
  - destruct (last_run m h1 l1 C1 ND1 Hl) as (r & t & n & -> & R & Ht & Hn). unfold LL_CONCAT.
    erewrite bind_ret_l by reflexivity. rewrite (bind_ret_l _ _ _ _ _ R).
    rewrite (bind_ret_l _ _ _ _ _ (write_link_run m t h2 n Hn)).
    exists (Some r), (relink t h2 m). split; [done|]. split; [|apply relink_payloads].
    apply (chain_redirect m t h2 l2 []); try done; [by rewrite app_nil_r|].
    by apply D, last_Some_elem_of.
Qed.

Lemma link_before_run m h l1 p l2 q l3 :
  chain m h (l1 ++ p :: l2) -> NoDup (l1 ++ p :: l2) -> chain m (Some q) (q :: l3) ->
  (forall t, t ∈ l1 -> t ∉ q :: l3) ->
  exists m', link_before h p q m = (Ret (head (l1 ++ q :: l3)), m') /\
    chain m' (head (l1 ++ q :: l3)) (l1 ++ q :: l3) /\ same_payloads m m'.
Proof.
  intros C ND C3 D. unfold link_before. destruct (decide (l1 = [])) as [->|Hl].
  - pose proof C as (-> & _). rewrite decide_True by done. by exists m.
  - destruct (before_run m h l1 p l2 C ND Hl) as (r & t & nt & -> & Hr & R & Ht & Hnt & Lt).
    rewrite decide_False by done. do 2 (erewrite bind_ret_l by reflexivity).
    rewrite (bind_ret_l _ _ _ _ _ R), (bind_ret_l _ _ _ _ _ (read_link_run m t nt Hnt)), Lt.
    rewrite decide_True by done.
    rewrite (bind_ret_l _ _ _ _ _ (write_link_run m t (Some q) nt Hnt)).
    exists (relink t (Some q) m).
    assert (head (l1 ++ q :: l3) = Some r) as ->.
    { destruct l1 as [|r' l1]; [done|]. by destruct C as ([= ->] & _). }
    split; [done|]. split; [|apply relink_payloads].
    apply NoDup_app in ND as (ND1 & _ & _).
    apply (chain_redirect m t (Some q) (q :: l3) (p :: l2)); try done.
    by apply D, last_Some_elem_of.
Qed.

Lemma chain_head m h l : chain m h l -> h = head l.
Proof. destruct l; [done|]. by intros (-> & _). Qed.

Lemma same_payloads_trans m1 m2 m3 :
  same_payloads m1 m2 -> same_payloads m2 m3 -> same_payloads m1 m3.
Proof. unfold same_payloads. congruence. Qed.

Lemma assert_nonnull_run m h l1 p l2 : chain m h (l1 ++ p :: l2) ->
  exists r, assert_nonnull h m = (Ret r, m).
Proof. intros ->%chain_head. destruct l1 as [|r l1]; [by exists p|by exists r]. Qed.

(** A new element [q] before the elements [l3] that [v] points to, behind the
    element before [p]. *)
Lemma link_in_run m h l1 p l2 q v l3 :
  chain m h (l1 ++ p :: l2) -> NoDup (l1 ++ p :: l2) -> is_Some (m !! q) ->
  q ∉ l1 ++ p :: l2 -> chain m v l3 -> (forall t, t ∈ l3 -> t ∈ p :: l2) ->
  exists m', (write_link q v ;;; link_before h p q) m = (Ret (head (l1 ++ q :: l3)), m') /\
    chain m' (head (l1 ++ q :: l3)) (l1 ++ q :: l3) /\ same_payloads m m'.
Proof.
  intros C ND [nq Hq] Hn C3 Hs. pose proof ND as (ND1 & D & _)%NoDup_app.
  rewrite (bind_ret_l _ _ _ _ _ (write_link_run m q v nq Hq)).
  apply not_elem_of_app in Hn as [Hn1 Hn2].
  destruct (link_before_run (relink q v m) h l1 p l2 q l3) as (m' & R & C' & SP).
  - apply chain_relink; [|done]. by apply not_elem_of_app.
  - done.
  - split; [done|]. exists (Node (payload nq) v). split; [by apply relink_self|].
    apply chain_relink; [|done]. intros Hq3. by apply Hn2, Hs.
  - intros t Ht [->|Ht']%elem_of_cons; [done|]. by apply (D t Ht), Hs.
  - exists m'. split_and!; [done..|].
    eapply same_payloads_trans; [apply relink_payloads|exact SP].
Qed.

Lemma LL_REPLACE_ELEM_run m h l1 p l2 q :
  chain m h (l1 ++ p :: l2) -> NoDup (l1 ++ p :: l2) -> is_Some (m !! q) ->
  q ∉ l1 ++ p :: l2 ->
  exists m', LL_REPLACE_ELEM h p q m = (Ret (head (l1 ++ q :: l2)), m') /\
    chain m' (head (l1 ++ q :: l2)) (l1 ++ q :: l2) /\ same_payloads m m'.
Proof.
  intros C ND Hq Hn. destruct (chain_at m h l1 p l2 C) as (n & Hp & C2).
  destruct (assert_nonnull_run _ _ _ _ _ C) as [r R]. unfold LL_REPLACE_ELEM.
  rewrite (bind_ret_l _ _ _ _ _ R), (bind_ret_l _ _ _ _ _ (read_link_run m p n Hp)).
  apply (link_in_run m h l1 p l2 q (link n) l2); try done. intros t Ht. by right.
Qed.

Lemma LL_PREPEND_ELEM_run m h l1 p l2 q :
  chain m h (l1 ++ p :: l2) -> NoDup (l1 ++ p :: l2) -> is_Some (m !! q) ->
  q ∉ l1 ++ p :: l2 ->
  exists m', LL_PREPEND_ELEM h p q m = (Ret (head (l1 ++ q :: p :: l2)), m') /\
    chain m' (head (l1 ++ q :: p :: l2)) (l1 ++ q :: p :: l2) /\ same_payloads m m'.
Proof.
  intros C ND Hq Hn. destruct (chain_at m h l1 p l2 C) as (n & Hp & C2).
  destruct (assert_nonnull_run _ _ _ _ _ C) as [r R]. unfold LL_PREPEND_ELEM.
  rewrite (bind_ret_l _ _ _ _ _ R).
  apply (link_in_run m h l1 p l2 q (Some p) (p :: l2)); try done. split; [done|]. by exists n.
Qed.

(** ** The sort *)

Definition successor_of (m : store) (p : loc) : option loc := m !! p ≫= link.

Lemma chain_succ m h l : chain m h l <->
  h = head l /\ (forall p, p ∈ l -> is_Some (m !! p)) /\
  succ_of None l [] (successor_of m).
Proof.
  split.
  - intros C. split; [by apply chain_head in C|]. split; [intros p; by apply (chain_live m h)|].
    split; [|by intros [|? d1]]. intros l1 x l2 -> _.
    destruct (chain_at m h l1 x l2 C) as (n & Hn & C2). unfold successor_of. rewrite Hn.
    cbn. rewrite (chain_head _ _ _ C2). by destruct l2.
  - revert h. induction l as [|p l IH]; intros h (-> & L & S1 & _); [done|]. split; [done|].
    destruct (L p ltac:(by left)) as [n Hn]. exists n. split; [done|]. apply IH.
    specialize (S1 [] p l eq_refl ltac:(apply not_elem_of_nil)) as E.
    unfold successor_of in E. rewrite Hn in E. cbn in E. split; [rewrite E; by destruct l|].
    split; [intros q Hq; apply L; by right|]. split; [|by intros [|? d1]].
    intros l1 x l2 -> _. apply (S1 (p :: l1) x l2 eq_refl), not_elem_of_nil.
Qed.

Record LL_taken (P : gmap loc A) (L D : list loc) (m : store) : Prop := LLTaken {
  lt_payloads : payload <$> m = P;
  lt_L : NoDup L;
  lt_D : NoDup D;
  lt_live : forall p, p ∈ L -> is_Some (m !! p);
  lt_sub : forall p, p ∈ D -> p ∈ L;
  lt_succ : succ_of None L D (successor_of m) }.

Definition LL_repr (P : gmap loc A) (m : store) (h : option loc) (l : list loc) : Prop :=
  payload <$> m = P /\ NoDup l /\ chain m h l.

Lemma LL_taken_nil P L m : LL_taken P L [] m <-> LL_repr P m (head L) L.
Proof.
  split.
  - intros [HP ND _ HL _ S]. split_and!; try done. by apply chain_succ.
  - intros (HP & ND & (_ & HL & S)%chain_succ). constructor; try done; [constructor|].
    by intros p ?%not_elem_of_nil.
Qed.

Lemma successor_relink m t v q : is_Some (m !! t) ->
  successor_of (relink t v m) q = if decide (Some q = Some t) then v else successor_of m q.
Proof.
  intros [n Hn]. unfold successor_of. destruct (decide (q = t)) as [->|Hq].
  - by rewrite (relink_self t v m n Hn), decide_True.
  - rewrite relink_other by done. rewrite decide_False; [done|]. by intros [= ->].
Qed.

Lemma read_payload_run P m p a : payload <$> m = P -> P !! p = Some a ->
  read_payload p m = (Ret a, m).
Proof.
  intros <-. rewrite lookup_fmap. unfold read_payload. by intros ->.
Qed.

Lemma payloads_live (P : gmap loc A) (m : store) p : payload <$> m = P -> is_Some (P !! p) -> is_Some (m !! p).
Proof. intros <-. apply fmap_live. Qed.

#[global] Instance LL_sort_laws P cmp :
  SortLaws (LL_sort_ops cmp) (cmp_at P cmp) (LL_taken P)
    (fun L m => LL_repr P m (head L) L).
Proof.
  assert (forall L D s l1 x l2, LL_taken P L D s -> L = l1 ++ x :: l2 -> x ∉ D ->
    (let* p := deref (Some x) in read_link p) s = (Ret (head l2), s)) as Hnext.
  { intros L D s l1 x l2 [_ _ _ HL _ [S _]] E Hx.
    destruct (HL x) as [n Hn]; [rewrite E; apply elem_of_app; right; by left|].
    erewrite bind_ret_l by reflexivity. rewrite (read_link_run s x n Hn).
    specialize (S l1 x l2 E Hx). unfold successor_of in S. rewrite Hn in S. cbn in S.
    rewrite S. by destruct l2. }
  constructor; try done.
  - intros L D s x y [HP _ _ HL _ _] Hx Hy. cbn [compare LL_sort_ops].
    destruct (HL x Hx) as [n1 H1], (HL y Hy) as [n2 H2].
    assert (P !! x = Some (payload n1)) as E1 by by rewrite <- HP, lookup_fmap, H1.
    assert (P !! y = Some (payload n2)) as E2 by by rewrite <- HP, lookup_fmap, H2.
    rewrite (bind_ret_l _ _ _ _ _ (read_payload_run P s x _ HP E1)).
    rewrite (bind_ret_l _ _ _ _ _ (read_payload_run P s y _ HP E2)).
    unfold cmp_at. by rewrite E1, E2.
  - intros L D s x [HP NL ND HL HS S] Hx Hn. cbn [emit LL_sort_ops].
    assert (NoDup (D ++ [x])) as ND' by by apply NoDup_snoc.
    assert (forall p, p ∈ D ++ [x] -> p ∈ L) as HS'.
    { intros p [Hp| ->%list_elem_of_singleton]%elem_of_app; [by apply HS|done]. }
    destruct (last D) as [t|] eqn:Et.
    + assert (is_Some (s !! t)) as [n Ht] by by apply HL, HS, last_Some_elem_of.
      exists (relink t (Some x) s). split; [by apply write_link_run with n|].
      constructor; try done.
      * rewrite <- HP. apply relink_payloads.
      * intros p Hp. by apply relink_live, HL.
      * apply (succ_emit None L D x (successor_of s)); [done..|]. intros q.
        rewrite Et. by apply successor_relink.
    + apply last_None in Et as ->. exists s. split; [done|]. constructor; try done.
      by apply (succ_emit None L [] x (successor_of s)).
  - intros L D s [HP NL ND HL HS S] HPerm Hn. cbn [close LL_sort_ops].
    destruct (last D) as [t|] eqn:Et; [|by apply last_None in Et as ->].
    assert (is_Some (s !! t)) as [n Ht] by by apply HL, HS, last_Some_elem_of.
    exists (relink t None s). split; [by apply write_link_run with n|].
    constructor; try done.
    + rewrite <- HP. apply relink_payloads.
    + constructor.
    + intros p Hp. by apply relink_live, HL, HS.
    + by intros p ?%not_elem_of_nil.
    + apply (succ_close None None L D (successor_of s)); [done..|]. intros q.
      rewrite Et. by apply successor_relink.
  - intros L s HT Hn. exists s. split; [done|]. by apply LL_taken_nil.
  - by intros L s [].
  - intros L D s [_ ND _ HL _ _]. cbn [store_size LL_sort_ops].
    rewrite <- size_dom, <- (size_list_to_set (C := gset loc) L) by done.
    apply subseteq_size. intros p Hp%elem_of_list_to_set. by apply elem_of_dom, HL.
  - intros z s. apply int_arith_run.
Qed.

#[global] Instance LL_laws : LinkedListLaws LL_repr.
Proof.
  constructor.
  - by intros P s h l (_ & _ & C%chain_head).
  - by intros P s h l (_ & ND & _).
  - intros P s h l p (<- & _ & C) Hp. rewrite lookup_fmap.
    destruct (chain_live s h l p C Hp) as [n ->]. by eexists.
  - intros P s h l (_ & ND & C). by apply (chain_length s h).
  - intros P s h l1 x l2 (_ & _ & C). destruct (chain_at s h l1 x l2 C) as (n & Hn & C2).
    rewrite <- (chain_head _ _ _ C2). by apply read_link_run.
  - intros P s h l p a (HP & _ & _) Ha. by apply (read_payload_run P).
  - intros P s h l p (HP & ND & C) Hp Hn.
    destruct (LL_PREPEND_run s h l p C) as (m' & R & C' & SP); [by apply (payloads_live P)|done|].
    exists m'. split; [done|]. split_and!; [by rewrite <- HP|by constructor|done].
  - intros P s h l p _ (HP & ND & C) Hp Hn.
    destruct (LL_APPEND_run s h l p C ND) as (m' & R & C' & SP);
      [by apply (payloads_live P)|done|].
    pose proof (chain_head _ _ _ C') as E. rewrite E in R, C'. exists m'. split; [done|].
    split_and!; [by rewrite <- HP|by apply NoDup_snoc|done].
  - intros P s h l1 p l2 (HP & ND & C).
    destruct (LL_DELETE_run s h l1 p l2 C ND) as (h' & m' & R & C' & SP).
    pose proof (chain_head _ _ _ C') as E. rewrite E in R, C'. exists m'. split; [done|].
    split_and!; [by rewrite <- HP|by apply NoDup_remove_mid with p|done].
  - intros P s h l1 p l2 q (HP & ND & C) Hq Hn.
    destruct (LL_REPLACE_ELEM_run s h l1 p l2 q C ND) as (m' & R & C' & SP);
      [by apply (payloads_live P)|done|].
    exists m'. split; [done|]. split_and!; [by rewrite <- HP| |done].
    apply NoDup_insert_mid; [by apply NoDup_remove_mid with p|].
    apply not_elem_of_app in Hn as [H1 [_ H2]%not_elem_of_cons]. by apply not_elem_of_app.
  - intros P s h l1 p l2 q (HP & ND & C) Hq Hn.
    destruct (LL_PREPEND_ELEM_run s h l1 p l2 q C ND) as (m' & R & C' & SP);
      [by apply (payloads_live P)|done|].
    exists m'. split; [done|]. split_and!; [by rewrite <- HP|by apply NoDup_insert_mid|done].
  - intros P s h l cmp R HL T1 T2. pose proof R as (HP & ND & C).
    destruct (decide (l = [])) as [->|Hl].
    { cbn in C. subst h. exists [], s. split; [done|]. split; [done|].
      split_and!; [done|constructor|done]. }
    rewrite (chain_head _ _ _ C). rewrite (chain_head _ _ _ C) in R.
    destruct (merge_sort_run (LL_sort_ops cmp) (cmp_at P cmp) (LL_taken P) _ l s)
      as (l' & s' & E & R' & S); [by apply LL_taken_nil|done|done|].
    by exists l', s'.
Qed.

(** ** Properties *)

(** C17: The list macros implement lists.  On a chain that represents a list, every
    sequence of [LL_PREPEND], [LL_APPEND], [LL_DELETE], [LL_REPLACE_ELEM],
    [LL_PREPEND_ELEM] and [LL_SORT] that respects what these expect ends, with a
    chain that represents what the sequence makes of the list; sorting puts the
    elements in order and leaves those that compare equal as they were.  The
    elements keep what they hold, [LL_COUNT] counts them and [LL_SEARCH] finds the
    first that answers. *)
Theorem ll_refines_list P m h l ops :
  LL_repr P m h l -> ops_legal P ops l ->
  exists l' m', run_list_ops ops h m = (Ret (head l'), m') /\
    LL_repr P m' (head l') l' /\ ops_spec P ops l l' /\
    (Z.of_nat (length l') < 2 ^ 31 ->
       COUNT (head l') m' = (Ret (Z.of_nat (length l')), m')) /\
    (forall cmp elt, SEARCH cmp (head l') elt m' =
       (Ret (find_first P (fun a => cmp a elt =? 0) l'), m')).
Proof.
  intros R Hl. destruct (run_ops_refine P ops m h l R Hl) as (l' & m' & E & R' & S).
  exists l', m'. split_and!; try done.
  - by apply (COUNT_run P m' (head l') l').
  - intros cmp elt. by apply (SEARCH_run cmp P m' (head l') l').
Qed.

Lemma relink_relink p v w m : relink p v (relink p w m) = relink p v m.
Proof.
  apply map_eq. intros q. unfold relink. rewrite !lookup_alter.
  repeat case_decide; simplify_eq; try done. by destruct (m !! _).
Qed.

Lemma relink_size p v m : size (relink p v m) = size m.
Proof. unfold relink. rewrite <- !size_dom. by rewrite dom_alter_L. Qed.

Lemma relink_comm p v q w m : p <> q -> relink p v (relink q w m) = relink q w (relink p v m).
Proof.
  intros Hpq. apply map_eq. intros r. unfold relink. rewrite !lookup_alter.
  repeat case_decide; congruence.
Qed.

(** The loop without a temporary variable leaves the last element in the
    [next] field of the new one. *)
Lemma last_through_run add l : forall fuel n t m,
  m !! add = Some n -> link n = Some t -> chain m (Some t) (t :: l) -> add ∉ t :: l ->
  (length l < fuel)%nat ->
  exists z, last (t :: l) = Some z /\
    last_through fuel add m = (Ret tt, relink add (Some z) m).
Proof.
  induction l as [|t' l IH]; intros fuel n t m Ha Hn C Hadd Hf;
    (destruct fuel as [|fuel]; [lia|]); cbn [last_through];
    rewrite (bind_ret_l _ _ _ _ _ (read_link_run m add n Ha)), Hn;
    (erewrite bind_ret_l by reflexivity); destruct C as (_ & nt & Ht & C);
    rewrite (bind_ret_l _ _ _ _ _ (read_link_run m t nt Ht)).
  - cbn in C. rewrite C. exists t. split; [done|]. unfold ret, relink. f_equal.
    symmetry. apply map_eq. intros q. destruct (decide (q = add)) as [->|Hq].
    + rewrite lookup_alter_eq, Ha. cbn. f_equal. destruct n. cbn in *. by subst.
    + by rewrite lookup_alter_ne.
  - pose proof C as (E & _). rewrite E.
    rewrite (bind_ret_l _ _ _ _ _ (write_link_run m add (Some t') n Ha)).
    apply not_elem_of_cons in Hadd as [_ Hadd].
    destruct (IH fuel (Node (payload n) (Some t')) t' (relink add (Some t') m)) as (z & Hz & R).
    + by apply relink_self.
    + done.
    + apply chain_relink; [done|]. by rewrite <- E.
    + done.
    + cbn in Hf. lia.
    + exists z. split; [done|]. by rewrite R, relink_relink.
Qed.

Lemma LL_APPEND_VS2008_run m h l p :
  chain m h l -> NoDup l -> is_Some (m !! p) -> p ∉ l ->
  LL_APPEND_VS2008 h p m = LL_APPEND h p m.
Proof.
  intros C ND [n Hp] Hn. rewrite (LL_APPEND_state m h l p C ND) by (done || by eexists).
  unfold LL_APPEND_VS2008. destruct l as [|r l].
  { cbn in C. subst h. erewrite bind_ret_l by reflexivity.
    by rewrite (bind_ret_l _ _ _ _ _ (write_link_run m p None n Hp)). }
  pose proof C as (-> & _). cbn [first_node].
  destruct (last_through_run p l (size m) (Node (payload n) (Some r)) r
    (relink p (Some r) m)) as (z & Hz & R); try done.
  - by apply relink_self.
  - by apply chain_relink.
  - pose proof (chain_length m _ _ ND C) as Hs. cbn in Hs. lia.
  - rewrite relink_relink in R. rewrite Hz.
    assert (z ∈ r :: l) as Hzl by by apply last_Some_elem_of.
    assert (z <> p) as Hzp by by intros ->.
    destruct (chain_live m _ _ z C Hzl) as [nz Hnz].
    erewrite bind_ret_l.
    2:{ rewrite (bind_ret_l _ _ _ _ _ (write_link_run m p (Some r) n Hp)).
        erewrite bind_ret_l by (unfold gets; by rewrite (relink_size p (Some r) m)).
        rewrite (bind_ret_l _ _ _ _ _ R).
        rewrite (bind_ret_l _ _ _ _ _ (read_link_run _ p _ (relink_self p (Some z) m n Hp))).
        erewrite bind_ret_l by reflexivity.
        rewrite (bind_ret_l _ _ _ _ _ (write_link_run _ z (Some p) nz
          (eq_trans (relink_other p z (Some z) m Hzp) Hnz))). reflexivity. }
    rewrite (bind_ret_l _ _ _ _ _ (write_link_run _ p None (Node (payload n) (Some z)) ltac:(
      rewrite relink_other by done; by apply relink_self))).
    unfold ret. f_equal. rewrite relink_comm by done. by rewrite relink_relink.
Qed.

(** The replacements for Visual Studio 2008, which do without [decltype], do
    what the macros they replace do. *)
Theorem ll_vs2008_same :
  (forall h p m, LL_DELETE_VS2008 h p m = LL_DELETE h p m) /\
  (forall m h l p, chain m h l -> NoDup l -> is_Some (m !! p) -> p ∉ l ->
     LL_APPEND_VS2008 h p m = LL_APPEND h p m).
Proof.
  split; [|intros m h l p; apply LL_APPEND_VS2008_run].
  intros h p m. unfold LL_DELETE_VS2008, LL_DELETE. case_decide as E; [by subst h|].
  apply bind_ext. intros r s1. apply bind_ext. intros k s2. apply bind_ext.
  intros t s3. unfold bind at 1. symmetry. unfold bind at 1.
  destruct (read_link t s3) as [[[y|]| | | | |] s4]; try done.
  rewrite decide_True by done. by rewrite bind_assoc.
Qed.

End Lists.

Section Example_lists.

(** The list of 5 and 3, and a third element that holds 4. *)
Definition example_nodes : gmap loc (node (A := Z)) :=
  <[1%positive := Node 5 (Some 2%positive)]> (<[2%positive := Node 3 None]>
    (<[3%positive := Node 4 None]> ∅)).

Definition example_contents : gmap loc Z := payload <$> example_nodes.

Lemma example_chain : LL_repr example_contents example_nodes (Some 1%positive) [1; 2]%positive.
Proof.
  split_and!; [done|by apply (bool_decide_unpack _); vm_compute|].
  cbn. split; [done|]. eexists. split; [reflexivity|]. cbn. by split; [|eexists].
Qed.

Definition example_ops : list list_op := [Append 3%positive; Sort by_value].

Lemma example_list_legal `{LL : LinkedList Z St} : l_appends ->
  ops_legal (LL := LL) example_contents example_ops [1; 2]%positive.
Proof.
  intros Ha. cbn. split_and!; [done|by eexists|by apply (bool_decide_unpack _); vm_compute|].
  intros l1 ->. split; [|done]. split_and!; [by vm_compute|apply _..].
Qed.

Lemma ll_refines_list_witness :
  exists l' m', run_list_ops (LL := LL_list) example_ops (Some 1%positive) example_nodes =
      (Ret (head l'), m') /\
    LL_repr example_contents m' (head l') l' /\
    ops_spec example_contents example_ops [1; 2]%positive l' /\
    head l' = Some 2%positive.
Proof.
  destruct (ll_refines_list example_contents example_nodes (Some 1%positive)
    [1; 2]%positive example_ops example_chain (example_list_legal (LL := LL_list) I))
    as (l' & m' & R & C & S & _).
  exists l', m'. split; [exact R|]. split; [exact C|]. split; [exact S|]. clear C S. apply (f_equal fst) in R. cbn [fst] in R.
  assert (fst (run_list_ops (LL := LL_list) example_ops (Some 1%positive) example_nodes) =
    Ret (Some 2%positive)) as E by (vm_compute; reflexivity).
  rewrite E in R. by injection R.
Defined.

End Example_lists.
