(* ===== verification/DList.v ===== *)
(** * Doubly linked lists (src/utlist.h, 167-304 and 500-757)

    The macros for lists whose elements also point backwards.  A [DL] list
    ends with NULL, and its first element points back to the last one; a [CDL]
    list is circular in both directions.  Both kinds are instances of the
    interface of ListOps, and [DL_SORT] and [CDL_SORT] of the merge sort of
    Sort. *)

From S2P Require Export Links.
From S2P Require Import ListOps.

Section DLists.
Context {A : Type}.

(** A node: what the list is for, and its [prev] and [next] fields. *)
Record dnode := DNode { d_payload : A; d_prev : option loc; d_next : option loc }.

Abbreviation dstore := (gmap loc dnode).

Definition set_prev (p : loc) (v : option loc) (m : dstore) : dstore :=
  alter (fun n => DNode (d_payload n) v (d_next n)) p m.
Definition set_next (p : loc) (v : option loc) (m : dstore) : dstore :=
  alter (fun n => DNode (d_payload n) (d_prev n) v) p m.

Definition read_dnode (p : loc) : M dstore dnode := fun m => deref (m !! p) m.
Definition read_prev (p : loc) : M dstore (option loc) :=
  let* n := read_dnode p in ret (d_prev n).
Definition read_next (p : loc) : M dstore (option loc) :=
  let* n := read_dnode p in ret (d_next n).
Definition write_prev (p : loc) (v : option loc) : M dstore unit :=
  read_dnode p ;;; modify (set_prev p v).
Definition write_next (p : loc) (v : option loc) : M dstore unit :=
  read_dnode p ;;; modify (set_next p v).
Definition read_content (p : loc) : M dstore A :=
  let* n := read_dnode p in ret (d_payload n).

(** [assert(p != NULL)]; a failing [assert] ends the process with SIGABRT. *)
Definition assert_ptr (p : option loc) : M dstore unit :=
  match p with Some _ => ret tt | None => fail (Exit 134) end.

(** ** Lists that end *)

(** [DL_PREPEND] (507-517); the new value of [head] is returned. *)
Definition DL_PREPEND (head : option loc) (add : loc) : M dstore (option loc) :=
  write_next add head ;;;
  match head with
  | Some h =>
      let* x := read_prev h in
      write_prev add x ;;;
      write_prev h (Some add)
  | None => write_prev add (Some add)
  end ;;;
  ret (Some add).

(** [DL_APPEND] (522-534) *)
Definition DL_APPEND (head : option loc) (add : loc) : M dstore (option loc) :=
  match head with
  | Some h =>
      let* x := read_prev h in
      write_prev add x ;;;
      let* x := read_prev h in
      let* t := deref x in
      write_next t (Some add) ;;;
      write_prev h (Some add) ;;;
      write_next add None ;;;
      ret head
  | None =>
      write_prev add (Some add) ;;;
      write_next add None ;;;
      ret (Some add)
  end.

(** [DL_CONCAT] (539-552) *)
Definition DL_CONCAT (head1 head2 : option loc) : M dstore (option loc) :=
  match head2, head1 with
  | Some h2, Some h1 =>
      let* tmp := read_prev h2 in
      let* x := read_prev h1 in
      write_prev h2 x ;;;
      let* x := read_prev h1 in
      let* t := deref x in
      write_next t (Some h2) ;;;
      write_prev h1 tmp ;;;
      ret head1
  | Some _, None => ret head2
  | None, _ => ret head1
  end.

(** [DL_DELETE] (557-573) *)
Definition DL_DELETE (head : option loc) (del : loc) : M dstore (option loc) :=
  let* x := read_prev del in
  assert_ptr x ;;;
  if decide (x = Some del) then ret None
  else if decide (Some del = head) then
    let* n := read_next del in
    let* n := deref n in
    let* x := read_prev del in
    write_prev n x ;;;
    read_next del
  else
    let* x := read_prev del in
    let* t := deref x in
    let* n := read_next del in
    write_next t n ;;;
    let* n := read_next del in
    match n with
    | Some n =>
        let* x := read_prev del in
        write_prev n x ;;; ret head
    | None =>
        let* h := deref head in
        let* x := read_prev del in
        write_prev h x ;;; ret head
    end.

(** [DL_REPLACE_ELEM] (603-627) *)
Definition DL_REPLACE_ELEM (head : option loc) (el add : loc) : M dstore (option loc) :=
  assert_ptr head ;;;
  if decide (head = Some el) then
    let* n := read_next el in
    write_next add n ;;;
    let* n := read_next el in
    (if decide (n = None) then write_prev add (Some add)
     else
       let* x := read_prev el in
       write_prev add x ;;;
       let* n := read_next add in
       let* n := deref n in
       write_prev n (Some add)) ;;;
    ret (Some add)
  else
    let* n := read_next el in
    write_next add n ;;;
    let* x := read_prev el in
    write_prev add x ;;;
    let* x := read_prev add in
    let* t := deref x in
    write_next t (Some add) ;;;
    let* n := read_next el in
    (if decide (n = None) then
       let* h := deref head in write_prev h (Some add)
     else
       let* n := read_next add in
       let* n := deref n in
       write_prev n (Some add)) ;;;
    ret head.

(** [DL_PREPEND_ELEM] (629-642) *)
Definition DL_PREPEND_ELEM (head : option loc) (el add : loc) : M dstore (option loc) :=
  assert_ptr head ;;;
  write_next add (Some el) ;;;
  let* x := read_prev el in
  write_prev add x ;;;
  write_prev el (Some add) ;;;
  if decide (head = Some el) then ret (Some add)
  else
    let* x := read_prev add in
    let* t := deref x in
    write_next t (Some add) ;;; ret head.

(** ** Circular lists *)

(** [CDL_PREPEND] (651-663) *)
Definition CDL_PREPEND (head : option loc) (add : loc) : M dstore (option loc) :=
  match head with
  | Some h =>
      let* x := read_prev h in
      write_prev add x ;;;
      write_next add head ;;;
      write_prev h (Some add) ;;;
      let* x := read_prev add in
      let* t := deref x in
      write_next t (Some add)
  | None =>
      write_prev add (Some add) ;;;
      write_next add (Some add)
  end ;;;
  ret (Some add).

(** [CDL_DELETE] (668-677) *)
Definition CDL_DELETE (head : option loc) (del : loc) : M dstore (option loc) :=
  let* alone :=
    if decide (head = Some del) then
      let* h := deref head in
      let* n := read_next h in ret (bool_decide (n = head))
    else ret false in
  if (alone : bool) then ret None
  else
    let* n := read_next del in
    let* n := deref n in
    let* x := read_prev del in
    write_prev n x ;;;
    let* x := read_prev del in
    let* t := deref x in
    let* n := read_next del in
    write_next t n ;;;
    if decide (Some del = head) then read_next del else ret head.

(** [CDL_REPLACE_ELEM] (722-741) *)
Definition CDL_REPLACE_ELEM (head : option loc) (el add : loc) : M dstore (option loc) :=
  assert_ptr head ;;;
  let* n := read_next el in
  if decide (n = Some el) then
    write_next add (Some add) ;;;
    write_prev add (Some add) ;;;
    ret (Some add)
  else
    let* n := read_next el in
    write_next add n ;;;
    let* x := read_prev el in
    write_prev add x ;;;
    let* n := read_next add in
    let* n := deref n in
    write_prev n (Some add) ;;;
    let* x := read_prev add in
    let* t := deref x in
    write_next t (Some add) ;;;
    if decide (head = Some el) then ret (Some add) else ret head.

(** [CDL_PREPEND_ELEM] (743-755) *)
Definition CDL_PREPEND_ELEM (head : option loc) (el add : loc) : M dstore (option loc) :=
  assert_ptr head ;;;
  write_next add (Some el) ;;;
  let* x := read_prev el in
  write_prev add x ;;;
  write_prev el (Some add) ;;;
  let* x := read_prev add in
  let* t := deref x in
  write_next t (Some add) ;;;
  if decide (head = Some el) then ret (Some add) else ret head.

(** ** Sorting *)

Definition compare_contents (cmp : A -> A -> Z) (p q : loc) : M dstore Z :=
  let* a := read_content p in let* b := read_content q in ret (cmp a b).

(** [if (_ls_tail) { _ls_tail->next = _ls_e; } ... _ls_e->prev = _ls_tail;] *)
Definition emit_both (tail e : option loc) : M dstore unit :=
  match tail with Some t => write_next t e | None => ret tt end ;;;
  let* e := deref e in
  write_prev e tail.

(** What [DL_SORT] (171-228) does in its own way. *)
Definition DL_sort_ops (cmp : A -> A -> Z) : sort_ops dstore :=
  let next (oldhead p : option loc) := let* p := deref p in read_next p in
  {| next_p := next;
     next_q := next;
     compare := compare_contents cmp;
     emit := emit_both;
     close := fun list tail =>
       let* h := deref list in
       write_prev h tail ;;;
       let* t := deref tail in
       write_next t None;
     finish := fun _ _ => ret tt;
     arith := int_arith;
     store_size := size |}.

Definition DL_SORT (cmp : A -> A -> Z) : option loc -> M dstore (option loc) :=
  merge_sort (DL_sort_ops cmp).

(** What [CDL_SORT] (233-304) does: the old first element ends the list. *)
Definition CDL_sort_ops (cmp : A -> A -> Z) : sort_ops dstore :=
  let next (oldhead p : option loc) :=
    let* p := deref p in
    let* n := read_next p in
    ret (if decide (n = oldhead) then None else n) in
  {| next_p := next;
     next_q := next;
     compare := compare_contents cmp;
     emit := emit_both;
     close := fun list tail =>
       let* h := deref list in
       write_prev h tail ;;;
       let* t := deref tail in
       write_next t list;
     finish := fun _ _ => ret tt;
     arith := int_arith;
     store_size := size |}.

Definition CDL_SORT (cmp : A -> A -> Z) : option loc -> M dstore (option loc) :=
  merge_sort (CDL_sort_ops cmp).

(** ** The two kinds of lists *)

(** [DL_FOREACH] (587-588) is [LL_FOREACH]. *)
#[global] Instance DL_list : LinkedList A dstore := {|
  l_next := fun _ el => read_next el;
  l_payload := read_content;
  l_prepend := DL_PREPEND;
  l_append := DL_APPEND;
  l_delete := DL_DELETE;
  l_replace_elem := DL_REPLACE_ELEM;
  l_prepend_elem := DL_PREPEND_ELEM;
  l_sort := DL_SORT;
  l_size := size;
  l_appends := true |}.

(** [CDL_FOREACH] (691-692): [(el)->next == head ? 0L : (el)->next]. *)
Definition CDL_next (head : option loc) (el : loc) : M dstore (option loc) :=
  let* n := read_next el in
  ret (if decide (n = head) then None else n).

Definition CDL_list : LinkedList A dstore := {|
  l_next := CDL_next;
  l_payload := read_content;
  l_prepend := CDL_PREPEND;
  l_append := fun _ _ => fail Undefined;
  l_delete := CDL_DELETE;
  l_replace_elem := CDL_REPLACE_ELEM;
  l_prepend_elem := CDL_PREPEND_ELEM;
  l_sort := CDL_SORT;
  l_size := size;
  l_appends := false |}.

(** ** What the store means *)

Definition next_of (m : dstore) (p : loc) : option loc := m !! p ≫= d_next.
Definition prev_of (m : dstore) (p : loc) : option loc := m !! p ≫= d_prev.

(** The store [m] holds [P], and its fields are the functions [f] and [g]. *)
Record view (P : gmap loc A) (f g : loc -> option loc) (m : dstore) : Prop := View {
  view_contents : d_payload <$> m = P;
  view_next q : next_of m q = f q;
  view_prev q : prev_of m q = g q }.

Lemma view_live P f g m p : view P f g m -> is_Some (P !! p) -> is_Some (m !! p).
Proof. intros [<-]. apply fmap_live. Qed.

Lemma view_self m : view (d_payload <$> m) (next_of m) (prev_of m) m.
Proof. by constructor. Qed.

Lemma view_read_next P f g m p : view P f g m -> is_Some (P !! p) ->
  read_next p m = (Ret (f p), m).
Proof.
  intros V L. destruct (view_live _ _ _ _ _ V L) as [n Hn]. rewrite <- (view_next _ _ _ _ V p).
  unfold read_next, next_of, read_dnode, bind. by rewrite Hn.
Qed.

Lemma view_read_prev P f g m p : view P f g m -> is_Some (P !! p) ->
  read_prev p m = (Ret (g p), m).
Proof.
  intros V L. destruct (view_live _ _ _ _ _ V L) as [n Hn]. rewrite <- (view_prev _ _ _ _ V p).
  unfold read_prev, prev_of, read_dnode, bind. by rewrite Hn.
Qed.

Lemma view_read_content P f g m p a : view P f g m -> P !! p = Some a ->
  read_content p m = (Ret a, m).
Proof.
  intros [<-] H. rewrite lookup_fmap in H. unfold read_content, read_dnode, bind.
  by destruct (m !! p); simplify_eq/=.
Qed.

Lemma view_set_next P f g m p v : view P f g m -> is_Some (P !! p) ->
  view P (upd_fn p v f) g (set_next p v m).
Proof.
  intros V L. destruct (view_live _ _ _ _ _ V L) as [n Hn]. destruct V as [HP Hf Hg].
  unfold set_next. constructor.
  - rewrite <- HP. apply map_eq. intros q. rewrite !lookup_fmap, lookup_alter.
    case_decide; [|done]. subst. by destruct (m !! q).
  - intros q. unfold upd_fn. rewrite <- Hf. unfold next_of. case_decide; subst.
    + by rewrite lookup_alter_eq, Hn.
    + by rewrite lookup_alter_ne.
  - intros q. rewrite <- Hg. unfold prev_of. rewrite lookup_alter. case_decide; [|done].
    subst. by destruct (m !! q).
Qed.

Lemma view_set_prev P f g m p v : view P f g m -> is_Some (P !! p) ->
  view P f (upd_fn p v g) (set_prev p v m).
Proof.
  intros V L. destruct (view_live _ _ _ _ _ V L) as [n Hn]. destruct V as [HP Hf Hg].
  unfold set_prev. constructor.
  - rewrite <- HP. apply map_eq. intros q. rewrite !lookup_fmap, lookup_alter.
    case_decide; [|done]. subst. by destruct (m !! q).
  - intros q. rewrite <- Hf. unfold next_of. rewrite lookup_alter. case_decide; [|done].
    subst. by destruct (m !! q).
  - intros q. unfold upd_fn. rewrite <- Hg. unfold prev_of. case_decide; subst.
    + by rewrite lookup_alter_eq, Hn.
    + by rewrite lookup_alter_ne.
Qed.

Lemma view_write_next P f g m p v : view P f g m -> is_Some (P !! p) ->
  write_next p v m = (Ret tt, set_next p v m) /\ view P (upd_fn p v f) g (set_next p v m).
Proof.
  intros V L. split; [|by apply view_set_next].
  destruct (view_live _ _ _ _ _ V L) as [n Hn]. unfold write_next, read_dnode, bind. by rewrite Hn.
Qed.

Lemma view_write_prev P f g m p v : view P f g m -> is_Some (P !! p) ->
  write_prev p v m = (Ret tt, set_prev p v m) /\ view P f (upd_fn p v g) (set_prev p v m).
Proof.
  intros V L. split; [|by apply view_set_prev].
  destruct (view_live _ _ _ _ _ V L) as [n Hn]. unfold write_prev, read_dnode, bind. by rewrite Hn.
Qed.

(** A list whose last element is followed by [ending l]. *)
Definition D_repr (ending : list loc -> option loc) (P : gmap loc A) (m : dstore)
  (h : option loc) (l : list loc) : Prop :=
  h = head l /\ NoDup l /\ (forall p, p ∈ l -> is_Some (P !! p)) /\
  exists f g, view P f g m /\ nexts f l (ending l) /\ prevs g (last l) l.

Definition DL_repr := D_repr (fun _ => None).
Definition CDL_repr := D_repr head.

End DLists.

(** ** Running the assignments

    [vstep] runs one read or write on a store with a known [view]; the element
    is allocated by a hypothesis.  [points] computes the fields after the
    assignments. *)

(** What a list without duplicates says about its elements. *)
Ltac notins H :=
  lazymatch type of H with
  | _ ∉ _ ++ _ =>
      let H1 := fresh "N" in let H2 := fresh "N" in
      apply not_elem_of_app in H as [H1 H2]; notins H1; notins H2
  | _ ∉ _ :: _ =>
      let H1 := fresh "N" in let H2 := fresh "N" in
      apply not_elem_of_cons in H as [H1 H2]; notins H2
  | _ => idtac
  end.

Ltac distinct H :=
  let N := fresh "N" in
  lazymatch type of H with
  | NoDup (_ :: _) => apply NoDup_cons in H as [N H]; notins N; distinct H
  | NoDup (_ ++ _ :: _) => apply NoDup_mid in H as [N H]; notins N; distinct H
  | _ => idtac
  end.

Ltac inlist := repeat first [rewrite elem_of_app | rewrite elem_of_cons]; tauto.

Ltac apart := solve [assumption | congruence].

Ltac points :=
  repeat first
    [ rewrite upd_fn_eq
    | rewrite upd_fn_ne by apart
    | match goal with H : ?f ?p = _ |- context [?f ?p] => rewrite H end ].

Ltac vread :=
  match goal with
  | V : view ?P ?f ?g ?m |- context [bind (read_next ?p) _ ?m] =>
      rewrite (bind_ret_l _ _ _ _ _ (view_read_next P f g m p V ltac:(assumption)))
  | V : view ?P ?f ?g ?m |- context [bind (read_prev ?p) _ ?m] =>
      rewrite (bind_ret_l _ _ _ _ _ (view_read_prev P f g m p V ltac:(assumption)))
  | V : view ?P ?f ?g ?m |- context [read_next ?p ?m] =>
      rewrite (view_read_next P f g m p V ltac:(assumption))
  end; points.

Ltac vwrite :=
  match goal with
  | V : view ?P ?f ?g ?m |- context [bind (write_next ?p ?v) _ ?m] =>
      let R := fresh "R" in let V' := fresh "V" in
      destruct (view_write_next P f g m p v V ltac:(assumption)) as [R V'];
      rewrite (bind_ret_l _ _ _ _ _ R); clear R V
  | V : view ?P ?f ?g ?m |- context [bind (write_prev ?p ?v) _ ?m] =>
      let R := fresh "R" in let V' := fresh "V" in
      destruct (view_write_prev P f g m p v V ltac:(assumption)) as [R V'];
      rewrite (bind_ret_l _ _ _ _ _ R); clear R V
  end.

Ltac vstep :=
  first [ vread | vwrite
        | rewrite bind_assoc
        | erewrite bind_ret_l by reflexivity
        | rewrite decide_True by apart
        | rewrite decide_False by apart
        | rewrite bool_decide_eq_true_2 by apart
        | rewrite bool_decide_eq_false_2 by apart ].

(** The shape of a list in terms of its pointers. *)
Lemma last_cons_app (x : loc) l y l' : last (x :: l ++ y :: l') = last (y :: l').
Proof. apply (last_app_cons (x :: l)). Qed.

Lemma head_app_cons (l1 : list loc) x l2 : head (l1 ++ x :: l2) = first l1 (Some x).
Proof. by destruct l1. Qed.

Create Rewrite HintDb dlist.
#[local] Hint Rewrite nexts_app prevs_app prevs_cons @last_app_cons @last_cons_cons
  last_cons_app
  @last_snoc final_snoc first_app final_cons head_app_cons : dlist.

Ltac shape :=
  repeat progress (rewrite <- ?app_assoc in *; cbn [app] in *; autorewrite with dlist in *;
    cbn [nexts first app head last] in *; destruct_and?).

(** Elements that were not assigned keep their pointers. *)
Ltac linked :=
  repeat progress (rewrite <- ?app_assoc; cbn [app]; autorewrite with dlist;
    cbn [nexts first app head last]);
  repeat match goal with
  | |- _ /\ _ => split
  | |- True => exact I
  | |- prevs _ _ [] => exact I
  | |- nexts (upd_fn _ _ _) _ _ => apply nexts_other; [apart|]
  | |- prevs (upd_fn _ _ _) _ _ => apply prevs_other; [apart|]
  | H : nexts ?f ?l ?e |- nexts ?f ?l ?e' => replace e' with e by congruence; exact H
  | |- prevs _ _ _ => assumption
  | |- _ = _ => points; first [reflexivity | assumption | congruence]
  end.

(** The list represented by the store the steps have reached. *)
Ltac represented :=
  match goal with V : view _ _ _ ?m |- exists m', _ = (_, m') /\ _ =>
    exists m; split;
    [ shape; unfold ret; congruence
    | split; [shape; congruence|split; [assumption|split; [assumption|]]];
      eexists _, _; split; [exact V|split; linked] ]
  end.

Section Runs.
Context {A : Type}.
Implicit Types (P : gmap loc A) (m : gmap loc (dnode (A := A))).

Lemma live_mid P (l1 : list loc) p l2 : is_Some (P !! p) ->
  (forall q, q ∈ l1 ++ l2 -> is_Some (P !! q)) ->
  forall q, q ∈ l1 ++ p :: l2 -> is_Some (P !! q).
Proof.
  intros Hp L q. rewrite elem_of_app, elem_of_cons. intros [Hq|[->|Hq]]; [|done|];
    apply L, elem_of_app; tauto.
Qed.

Lemma DL_PREPEND_run P m h l p : DL_repr P m h l -> is_Some (P !! p) -> p ∉ l ->
  exists m', DL_PREPEND h p m = (Ret (head (p :: l)), m') /\
    DL_repr P m' (head (p :: l)) (p :: l).
Proof.
  intros (-> & ND & L & f & g & V & Hf & Hg) Hp Hn. unfold DL_PREPEND.
  assert (NoDup (p :: l)) as ND' by by constructor.
  pose proof (live_mid P [] p l Hp L) as L'.
  destruct l as [|h l]; cbn [head].
  - repeat vstep. represented.
  - assert (is_Some (P !! h)) by (apply L; by left). shape. distinct ND. notins Hn.
    repeat vstep. represented.
Qed.

Lemma DL_APPEND_run P m h l p : DL_repr P m h l -> is_Some (P !! p) -> p ∉ l ->
  exists m', DL_APPEND h p m = (Ret (head (l ++ [p])), m') /\
    DL_repr P m' (head (l ++ [p])) (l ++ [p]).
Proof.
  intros (-> & ND & L & f & g & V & Hf & Hg) Hp Hn. unfold DL_APPEND.
  assert (NoDup (l ++ [p])) as ND' by by apply NoDup_snoc.
  assert (forall q, q ∈ l ++ [p] -> is_Some (P !! q)) as L'.
  { apply live_mid; [done|]. by rewrite app_nil_r. }
  destruct l as [|h l]; cbn [head].
  - repeat vstep. represented.
  - assert (is_Some (P !! h)) by (apply L; by left).
    destruct l as [|t l _] using rev_ind; shape; distinct ND; notins Hn.
    + repeat vstep. represented.
    + assert (is_Some (P !! t)) by (apply L; inlist).
      repeat vstep. represented.
Qed.

Lemma DL_DELETE_run P m h l1 p l2 : DL_repr P m h (l1 ++ p :: l2) ->
  exists m', DL_DELETE h p m = (Ret (head (l1 ++ l2)), m') /\
    DL_repr P m' (head (l1 ++ l2)) (l1 ++ l2).
Proof.
  intros (-> & ND & L & f & g & V & Hf & Hg). unfold DL_DELETE.
  pose proof (NoDup_remove_mid _ _ _ ND) as ND'.
  assert (forall q, q ∈ l1 ++ l2 -> is_Some (P !! q)) as L' by (intros q Hq; apply L; revert Hq; inlist).
  assert (is_Some (P !! p)) by (apply L; inlist).
  destruct l1 as [|t l1 _] using rev_ind.
  - destruct l2 as [|n l2]; shape; distinct ND.
    + repeat vstep. represented.
    + assert (is_Some (P !! n)) by (apply L; inlist).
      destruct (some_last n l2) as (z & Hz & Hin). rewrite Hz in *.
      assert (z <> p) by (intros ->; apply elem_of_cons in Hin as []; congruence).
      repeat vstep. represented.
  - assert (is_Some (P !! t)) by (apply L; inlist).
    destruct l2 as [|n l2].
    + destruct l1 as [|h l1]; shape; distinct ND.
      * repeat vstep. represented.
      * assert (is_Some (P !! h)) by (apply L; inlist).
        repeat vstep. represented.
    + assert (is_Some (P !! n)) by (apply L; inlist).
      assert (exists h, first l1 (Some t) = Some h /\ h <> p) as (h & Hh & Hhp).
      { destruct l1 as [|h l1]; shape; distinct ND; [exists t|exists h]; split; done. }
      shape. distinct ND. rewrite Hh.
      repeat vstep.
      represented.
Qed.

(** The head of a list that does not begin with [p]. *)
Lemma other_head (l1 : list loc) t p l2 : NoDup (l1 ++ t :: p :: l2) ->
  exists h, first l1 (Some t) = Some h /\ h <> p.
Proof. intros ND. destruct l1 as [|h l1]; distinct ND; [by exists t|by exists h]. Qed.

Lemma DL_REPLACE_ELEM_run P m h l1 p l2 q : DL_repr P m h (l1 ++ p :: l2) ->
  is_Some (P !! q) -> q ∉ l1 ++ p :: l2 ->
  exists m', DL_REPLACE_ELEM h p q m = (Ret (head (l1 ++ q :: l2)), m') /\
    DL_repr P m' (head (l1 ++ q :: l2)) (l1 ++ q :: l2).
Proof.
  intros (-> & ND & L & f & g & V & Hf & Hg) Hq Hn. unfold DL_REPLACE_ELEM.
  assert (NoDup (l1 ++ q :: l2)) as ND'.
  { apply NoDup_insert_mid; [by apply NoDup_remove_mid with p|]. revert Hn. inlist. }
  assert (forall x, x ∈ l1 ++ q :: l2 -> is_Some (P !! x)) as L'.
  { apply live_mid; [done|]. intros x Hx. apply L. revert Hx. inlist. }
  assert (is_Some (P !! p)) by (apply L; inlist).
  destruct l1 as [|t l1 _] using rev_ind.
  - destruct l2 as [|n l2]; shape; distinct ND; notins Hn.
    + repeat vstep. represented.
    + assert (is_Some (P !! n)) by (apply L; inlist).
      repeat vstep. represented.
  - assert (is_Some (P !! t)) by (apply L; inlist).
    destruct l2 as [|n l2].
    + destruct l1 as [|h l1]; shape; distinct ND; notins Hn.
      * repeat vstep. represented.
      * assert (is_Some (P !! h)) by (apply L; inlist).
        repeat vstep. represented.
    + assert (is_Some (P !! n)) by (apply L; inlist). shape.
      destruct (other_head _ _ _ _ ND) as (h & Hh & Hhp). distinct ND. notins Hn.
      rewrite Hh. repeat vstep. represented.
Qed.

Lemma DL_PREPEND_ELEM_run P m h l1 p l2 q : DL_repr P m h (l1 ++ p :: l2) ->
  is_Some (P !! q) -> q ∉ l1 ++ p :: l2 ->
  exists m', DL_PREPEND_ELEM h p q m = (Ret (head (l1 ++ q :: p :: l2)), m') /\
    DL_repr P m' (head (l1 ++ q :: p :: l2)) (l1 ++ q :: p :: l2).
Proof.
  intros (-> & ND & L & f & g & V & Hf & Hg) Hq Hn. unfold DL_PREPEND_ELEM.
  assert (NoDup (l1 ++ q :: p :: l2)) as ND' by by apply NoDup_insert_mid.
  pose proof (live_mid P l1 q (p :: l2) Hq L) as L'.
  assert (is_Some (P !! p)) by (apply L; inlist).
  destruct l1 as [|t l1 _] using rev_ind.
  - shape. distinct ND. notins Hn. repeat vstep. represented.
  - assert (is_Some (P !! t)) by (apply L; inlist). shape.
    destruct (other_head _ _ _ _ ND) as (h & Hh & Hhp). distinct ND. notins Hn.
    rewrite Hh. repeat vstep. represented.
Qed.

(** Two lists become one. *)
Lemma DL_CONCAT_run P m h1 l1 h2 l2 f g : view P f g m -> h1 = head l1 -> h2 = head l2 ->
  NoDup (l1 ++ l2) -> (forall p, p ∈ l1 ++ l2 -> is_Some (P !! p)) ->
  nexts f l1 None -> prevs g (last l1) l1 -> nexts f l2 None -> prevs g (last l2) l2 ->
  exists m', DL_CONCAT h1 h2 m = (Ret (head (l1 ++ l2)), m') /\
    DL_repr P m' (head (l1 ++ l2)) (l1 ++ l2).
Proof.
  intros V -> -> ND L Hf1 Hg1 Hf2 Hg2. unfold DL_CONCAT. pose proof ND as ND'. pose proof L as L'.
  destruct l2 as [|b l2]; [rewrite app_nil_r in *; cbn [head]; represented|].
  assert (is_Some (P !! b)) by (apply L; inlist).
  destruct l1 as [|a l1]; [shape; represented|].
  assert (is_Some (P !! a)) by (apply L; inlist).
  destruct (some_last b l2) as (z & Hz & Hin). rewrite Hz in *.
  destruct l1 as [|t l1 _] using rev_ind; shape; distinct ND.
  - repeat vstep. represented.
  - assert (is_Some (P !! t)) by (apply L; inlist).
    repeat vstep. represented.
Qed.

(** *** Circular lists *)

Lemma CDL_PREPEND_run P m h l p : CDL_repr P m h l -> is_Some (P !! p) -> p ∉ l ->
  exists m', CDL_PREPEND h p m = (Ret (head (p :: l)), m') /\
    CDL_repr P m' (head (p :: l)) (p :: l).
Proof.
  intros (-> & ND & L & f & g & V & Hf & Hg) Hp Hn. unfold CDL_PREPEND.
  assert (NoDup (p :: l)) as ND' by by constructor.
  pose proof (live_mid P [] p l Hp L) as L'.
  destruct l as [|h l]; cbn [head].
  - repeat vstep. represented.
  - assert (is_Some (P !! h)) by (apply L; by left).
    destruct l as [|t l _] using rev_ind; shape; distinct ND; notins Hn.
    + repeat vstep. represented.
    + assert (is_Some (P !! t)) by (apply L; inlist).
      repeat vstep. represented.
Qed.

Lemma CDL_DELETE_run P m h l1 p l2 : CDL_repr P m h (l1 ++ p :: l2) ->
  exists m', CDL_DELETE h p m = (Ret (head (l1 ++ l2)), m') /\
    CDL_repr P m' (head (l1 ++ l2)) (l1 ++ l2).
Proof.
  intros (-> & ND & L & f & g & V & Hf & Hg). unfold CDL_DELETE.
  pose proof (NoDup_remove_mid _ _ _ ND) as ND'.
  assert (forall q, q ∈ l1 ++ l2 -> is_Some (P !! q)) as L' by (intros q Hq; apply L; revert Hq; inlist).
  assert (is_Some (P !! p)) by (apply L; inlist).
  destruct l1 as [|t l1 _] using rev_ind.
  - destruct l2 as [|n l2]; [shape; repeat vstep; represented|].
    assert (is_Some (P !! n)) by (apply L; inlist).
    destruct l2 as [|z l2 _] using rev_ind; shape; distinct ND.
    + repeat vstep. represented.
    + assert (is_Some (P !! z)) by (apply L; inlist).
      repeat vstep. represented.
  - assert (is_Some (P !! t)) by (apply L; inlist).
    destruct l2 as [|n l2].
    + destruct l1 as [|h l1]; shape; distinct ND.
      * repeat vstep. represented.
      * assert (is_Some (P !! h)) by (apply L; inlist).
        repeat vstep. represented.
    + assert (is_Some (P !! n)) by (apply L; inlist). shape.
      destruct (other_head _ _ _ _ ND) as (h & Hh & Hhp). distinct ND.
      rewrite Hh in *. repeat vstep. represented.
Qed.

Lemma CDL_REPLACE_ELEM_run P m h l1 p l2 q : CDL_repr P m h (l1 ++ p :: l2) ->
  is_Some (P !! q) -> q ∉ l1 ++ p :: l2 ->
  exists m', CDL_REPLACE_ELEM h p q m = (Ret (head (l1 ++ q :: l2)), m') /\
    CDL_repr P m' (head (l1 ++ q :: l2)) (l1 ++ q :: l2).
Proof.
  intros (-> & ND & L & f & g & V & Hf & Hg) Hq Hn. unfold CDL_REPLACE_ELEM.
  assert (NoDup (l1 ++ q :: l2)) as ND'.
  { apply NoDup_insert_mid; [by apply NoDup_remove_mid with p|]. revert Hn. inlist. }
  assert (forall x, x ∈ l1 ++ q :: l2 -> is_Some (P !! x)) as L'.
  { apply live_mid; [done|]. intros x Hx. apply L. revert Hx. inlist. }
  assert (is_Some (P !! p)) by (apply L; inlist).
  destruct l1 as [|t l1 _] using rev_ind.
  - destruct l2 as [|n l2]; [shape; distinct ND; notins Hn; repeat vstep; represented|].
    assert (is_Some (P !! n)) by (apply L; inlist).
    destruct l2 as [|z l2 _] using rev_ind; shape; distinct ND; notins Hn.
    + repeat vstep. represented.
    + assert (is_Some (P !! z)) by (apply L; inlist).
      repeat vstep. represented.
  - assert (is_Some (P !! t)) by (apply L; inlist).
    destruct l2 as [|n l2].
    + destruct l1 as [|h l1]; shape; distinct ND; notins Hn.
      * repeat vstep. represented.
      * assert (is_Some (P !! h)) by (apply L; inlist).
        repeat vstep. represented.
    + assert (is_Some (P !! n)) by (apply L; inlist). shape.
      destruct (other_head _ _ _ _ ND) as (h & Hh & Hhp). distinct ND. notins Hn.
      rewrite Hh in *. repeat vstep. represented.
Qed.

Lemma CDL_PREPEND_ELEM_run P m h l1 p l2 q : CDL_repr P m h (l1 ++ p :: l2) ->
  is_Some (P !! q) -> q ∉ l1 ++ p :: l2 ->
  exists m', CDL_PREPEND_ELEM h p q m = (Ret (head (l1 ++ q :: p :: l2)), m') /\
    CDL_repr P m' (head (l1 ++ q :: p :: l2)) (l1 ++ q :: p :: l2).
Proof.
  intros (-> & ND & L & f & g & V & Hf & Hg) Hq Hn. unfold CDL_PREPEND_ELEM.
  assert (NoDup (l1 ++ q :: p :: l2)) as ND' by by apply NoDup_insert_mid.
  pose proof (live_mid P l1 q (p :: l2) Hq L) as L'.
  assert (is_Some (P !! p)) by (apply L; inlist).
  destruct l1 as [|t l1 _] using rev_ind.
  - destruct l2 as [|z l2 _] using rev_ind; shape; distinct ND; notins Hn.
    + repeat vstep. represented.
    + assert (is_Some (P !! z)) by (apply L; inlist).
      repeat vstep. represented.
  - assert (is_Some (P !! t)) by (apply L; inlist). shape.
    destruct (other_head _ _ _ _ ND) as (h & Hh & Hhp). distinct ND. notins Hn.
    rewrite Hh in *. repeat vstep. represented.
Qed.

(** *** Sorting *)

(** A list of which the elements [D] have been taken. *)
Record D_taken (ending : list loc -> option loc) P (L D : list loc) m : Prop := DTaken {
  dt_L : NoDup L;
  dt_D : NoDup D;
  dt_live : forall p, p ∈ L -> is_Some (P !! p);
  dt_sub : forall p, p ∈ D -> p ∈ L;
  dt_links : exists f g, view P f g m /\ succ_of (ending L) L D f /\
    (if decide (D = []) then prevs g (last L) L else pred_of D g) }.

Lemma D_taken_nil ending P L m : D_taken ending P L [] m <-> D_repr ending P m (head L) L.
Proof.
  split.
  - intros [ND _ HL _ (f & g & V & S & G)]. split_and!; try done. exists f, g.
    split_and!; [done|by apply nexts_succ|by rewrite decide_True in G].
  - intros (_ & ND & HL & f & g & V & S%nexts_succ & G). constructor; try done; [constructor| |].
    + by intros p ?%not_elem_of_nil.
    + exists f, g. by rewrite decide_True.
Qed.

Lemma emit_taken ending P L D m x : D_taken ending P L D m -> x ∈ L -> x ∉ D ->
  exists m', emit_both (last D) (Some x) m = (Ret tt, m') /\
    D_taken ending P L (D ++ [x]) m'.
Proof.
  intros [NL ND HL HS (f & g & V & S & G)] Hx Hn. pose proof (HL x Hx) as Lx.
  assert (pred_of D g) as G'.
  { case_decide as E; [|done]. subst D. by intros [|? d1]. }
  unfold emit_both.
  assert (exists m1 f', match last D with Some t => write_next t (Some x) | None => ret tt end m =
      (Ret tt, m1) /\ view P f' g m1 /\
      forall q, f' q = if decide (Some q = last D) then Some x else f q)
    as (m1 & f' & R & V1 & Ef).
  { destruct (last D) as [t|] eqn:Et; [|by exists m, f].
    assert (is_Some (P !! t)) as Lt by by apply HL, HS, last_Some_elem_of.
    destruct (view_write_next P f g m t (Some x) V Lt) as [R V1].
    eexists _, _. split; [exact R|]. split; [exact V1|]. intros q. apply upd_fn_some. }
  rewrite (bind_ret_l _ _ _ _ _ R). erewrite bind_ret_l by reflexivity.
  destruct (view_write_prev P f' g m1 x (last D) V1 Lx) as [R2 V2].
  eexists. split; [exact R2|]. constructor; try done.
  - by apply NoDup_snoc.
  - intros p [Hp| ->%list_elem_of_singleton]%elem_of_app; [by apply HS|done].
  - eexists _, _. split; [exact V2|]. split; [by apply (succ_emit _ _ _ _ f)|].
    rewrite decide_False by by destruct D. by apply (pred_emit D x g).
Qed.

Lemma close_taken ending P L D m : D_taken ending P L D m -> D ≡ₚ L -> D <> [] ->
  exists m', (let* h := deref (head D) in write_prev h (last D) ;;;
              let* t := deref (last D) in write_next t (ending D)) m = (Ret tt, m') /\
    D_taken ending P D [] m'.
Proof.
  intros [NL ND HL HS (f & g & V & S & G)] HP Hn. rewrite decide_False in G by done.
  destruct D as [|h D0] eqn:ED; [done|]. rewrite <- ED in *.
  assert (head D = Some h) as Hh by by rewrite ED.
  assert (exists t, last D = Some t /\ t ∈ D) as (t & Ht & Hin) by (rewrite ED; apply some_last).
  assert (is_Some (P !! h) /\ is_Some (P !! t)) as [Lh Lt].
  { split; apply HL, HS; [|done]. rewrite ED. by left. }
  rewrite Hh, Ht. repeat vstep.
  destruct (view_write_next P f (upd_fn h (Some t) g) _ t (ending D) V0 Lt) as [R V1].
  eexists. split; [exact R|]. constructor; try done; [constructor| |by intros p ?%not_elem_of_nil|].
  - intros p Hp. by apply HL, HS.
  - eexists _, _. split; [exact V1|]. split.
    + apply (succ_close (ending L) (ending D) L D f); [done..|]. intros q. rewrite Ht.
      apply upd_fn_some.
    + rewrite decide_True by done. unfold prevs. rewrite Ht. by apply (pred_close D h (Some t) g).
Qed.

Lemma compare_run P L D ending m cmp x y : D_taken ending P L D m -> x ∈ L -> y ∈ L ->
  compare_contents cmp x y m = (Ret (cmp_at P cmp x y), m).
Proof.
  intros [_ _ HL _ (f & g & V & _)] Hx Hy. unfold compare_contents, cmp_at.
  destruct (HL x Hx) as [a Ha], (HL y Hy) as [b Hb]. rewrite Ha, Hb.
  rewrite (bind_ret_l _ _ _ _ _ (view_read_content P f g m x a V Ha)).
  by rewrite (bind_ret_l _ _ _ _ _ (view_read_content P f g m y b V Hb)).
Qed.

Lemma D_size P (l : list loc) f g m : view P f g m -> NoDup l ->
  (forall p, p ∈ l -> is_Some (P !! p)) -> (length l <= size m)%nat.
Proof.
  intros V ND HL. rewrite <- size_dom, <- (size_list_to_set (C := gset loc) l) by done.
  apply subseteq_size. intros p Hp%elem_of_list_to_set. apply elem_of_dom.
  by apply (view_live P f g), HL.
Qed.

Lemma D_next P L D ending m l1 x l2 : D_taken ending P L D m -> L = l1 ++ x :: l2 -> x ∉ D ->
  read_next x m = (Ret (first l2 (ending L)), m).
Proof.
  intros [_ _ HL _ (f & g & V & [S _] & _)] E Hx. rewrite <- (S l1 x l2 E Hx).
  apply (view_read_next P f g m x V), HL. rewrite E. inlist.
Qed.

#[global] Instance DL_sort_laws P cmp :
  SortLaws (DL_sort_ops cmp) (cmp_at P cmp) (D_taken (fun _ => None) P)
    (fun L m => DL_repr P m (head L) L).
Proof.
  assert (forall L D m l1 x l2, D_taken (fun _ => None) P L D m -> L = l1 ++ x :: l2 -> x ∉ D ->
    (let* p := deref (Some x) in read_next p) m = (Ret (head l2), m)) as Hnext.
  { intros L D m l1 x l2 T E Hx. erewrite bind_ret_l by reflexivity.
    rewrite (D_next _ _ _ _ _ _ _ _ T E Hx). by destruct l2. }
  constructor; try done.
  - intros L D m x y T. apply (compare_run _ _ _ _ _ _ _ _ T).
  - intros L D m x. apply emit_taken.
  - intros L D m. apply close_taken.
  - intros L m T Hn. exists m. split; [done|]. by apply D_taken_nil.
  - by intros L m [].
  - intros L D m [ND _ HL _ (f & g & V & _)]. by apply (D_size P L f g).
  - intros z m. apply int_arith_run.
Qed.

(** An element that follows another one is not the first. *)
Lemma not_first l1 (x y : loc) l2 : NoDup (l1 ++ x :: y :: l2) ->
  head (l1 ++ x :: y :: l2) <> Some y.
Proof. intros ND E. destruct l1; distinct ND; cbn in E; congruence. Qed.

Lemma CDL_next_taken P L D m l1 x l2 : D_taken head P L D m -> L = l1 ++ x :: l2 -> x ∉ D ->
  CDL_next (head L) x m = (Ret (head l2), m).
Proof.
  intros T E Hx. unfold CDL_next. rewrite (bind_ret_l _ _ _ _ _ (D_next _ _ _ _ _ _ _ _ T E Hx)).
  destruct l2 as [|y l2]; cbn [first head]; [by rewrite decide_True|].
  rewrite decide_False; [done|]. rewrite E. intros E'. symmetry in E'.
  apply not_first in E'; [done|]. rewrite <- E. apply T.
Qed.

#[global] Instance CDL_sort_laws P cmp :
  SortLaws (CDL_sort_ops cmp) (cmp_at P cmp) (D_taken head P)
    (fun L m => CDL_repr P m (head L) L).
Proof.
  assert (forall L D m l1 x l2, D_taken head P L D m -> L = l1 ++ x :: l2 -> x ∉ D ->
    (let* p := deref (Some x) in CDL_next (head L) p) m = (Ret (head l2), m)) as Hnext.
  { intros L D m l1 x l2 T E Hx. erewrite bind_ret_l by reflexivity.
    by apply (CDL_next_taken P L D m l1 x l2). }
  constructor; try done.
  - intros L D m x y T. apply (compare_run _ _ _ _ _ _ _ _ T).
  - intros L D m x. apply emit_taken.
  - intros L D m. apply close_taken.
  - intros L m T Hn. exists m. split; [done|]. by apply D_taken_nil.
  - by intros L m [].
  - intros L D m [ND _ HL _ (f & g & V & _)]. by apply (D_size P L f g).
  - intros z m. apply int_arith_run.
Qed.

(** ** The interface *)

Lemma D_sort_run (ending : list loc -> option loc) ops cmp P m h l :
  SortLaws ops (cmp_at P cmp) (D_taken ending P) (fun L m => D_repr ending P m (head L) L) ->
  D_repr ending P m h l -> Z.of_nat (length l) <= 2 ^ 30 ->
  Total (leq (cmp_at P cmp)) -> Transitive (leq (cmp_at P cmp)) ->
  exists l' m', merge_sort ops h m = (Ret (head l'), m') /\
    D_repr ending P m' (head l') l' /\ sorted_version (cmp_at P cmp) l l'.
Proof.
  intros LAWS R HL T1 T2. pose proof R as (-> & _).
  destruct (decide (l = [])) as [->|Hl].
  - exists [], m. split; [done|]. split; [done|]. split_and!; [done|constructor|done].
  - destruct (merge_sort_run ops (cmp_at P cmp) (D_taken ending P) _ l m)
      as (l' & m' & E & R' & S); [by apply D_taken_nil|done|done|].
    by exists l', m'.
Qed.

Lemma D_read ending P m h l p a : D_repr ending P m h l -> P !! p = Some a ->
  read_content p m = (Ret a, m).
Proof. intros (_ & _ & _ & f & g & V & _) Ha. by apply (view_read_content P f g). Qed.

#[global] Instance DL_laws : LinkedListLaws (LL := DL_list (A := A)) DL_repr.
Proof.
  constructor.
  - by intros P m h l (E & _).
  - by intros P m h l (_ & ND & _).
  - intros P m h l p (_ & _ & L & _). apply L.
  - intros P m h l (_ & ND & L & f & g & V & _). by apply (D_size P l f g).
  - intros P m h l1 x l2 R. pose proof R as (-> & _).
    cbn [l_next DL_list]. rewrite (D_next P (l1 ++ x :: l2) [] (fun _ => None) m l1 x l2);
      [by destruct l2|by apply D_taken_nil|done|apply not_elem_of_nil].
  - intros P m h l p a. apply D_read.
  - intros P m h l p. apply DL_PREPEND_run.
  - intros P m h l p _. apply DL_APPEND_run.
  - intros P m h l1 p l2. apply DL_DELETE_run.
  - intros P m h l1 p l2 q. apply DL_REPLACE_ELEM_run.
  - intros P m h l1 p l2 q. apply DL_PREPEND_ELEM_run.
  - intros P m h l cmp. apply (D_sort_run (fun _ => None)), _.
Qed.

#[global] Instance CDL_laws : LinkedListLaws (LL := CDL_list (A := A)) CDL_repr.
Proof.
  constructor.
  - by intros P m h l (E & _).
  - by intros P m h l (_ & ND & _).
  - intros P m h l p (_ & _ & L & _). apply L.
  - intros P m h l (_ & ND & L & f & g & V & _). by apply (D_size P l f g).
  - intros P m h l1 x l2 R. pose proof R as (-> & _). cbn [l_next CDL_list].
    by apply (CDL_next_taken P (l1 ++ x :: l2) [] m l1 x l2);
      [apply D_taken_nil|done|apply not_elem_of_nil].
  - intros P m h l p a. apply D_read.
  - intros P m h l p. apply CDL_PREPEND_run.
  - done.
  - intros P m h l1 p l2. apply CDL_DELETE_run.
  - intros P m h l1 p l2 q. apply CDL_REPLACE_ELEM_run.
  - intros P m h l1 p l2 q. apply CDL_PREPEND_ELEM_run.
  - intros P m h l cmp. apply (D_sort_run head), _.
Qed.

(** ** Properties *)

(** C18: The [DL] macros implement lists.  Every sequence of [DL_PREPEND],
    [DL_APPEND], [DL_DELETE], [DL_REPLACE_ELEM], [DL_PREPEND_ELEM] and [DL_SORT]
    that respects what these expect ends with a store that represents, in both
    directions, what the sequence makes of the list; [DL_COUNT] counts its
    elements, [DL_SEARCH] finds the first that answers, and [DL_CONCAT] of two
    lists represents the one followed by the other. *)
Theorem dl_refines_list P m h l ops :
  DL_repr P m h l -> ops_legal (LL := DL_list) P ops l ->
  (exists l' m', run_list_ops (LL := DL_list) ops h m = (Ret (head l'), m') /\
    DL_repr P m' (head l') l' /\ ops_spec P ops l l' /\
    (Z.of_nat (length l') < 2 ^ 31 ->
       COUNT (LL := DL_list) (head l') m' = (Ret (Z.of_nat (length l')), m')) /\
    (forall cmp elt, SEARCH (LL := DL_list) cmp (head l') elt m' =
       (Ret (find_first P (fun a => cmp a elt =? 0) l'), m'))) /\
  (forall h2 l2, DL_repr P m h2 l2 -> (forall p, p ∈ l -> p ∉ l2) ->
    exists m', DL_CONCAT h h2 m = (Ret (head (l ++ l2)), m') /\
      DL_repr P m' (head (l ++ l2)) (l ++ l2)).
Proof.
  intros R Hl. split.
  - destruct (run_ops_refine (LL := DL_list) P ops m h l R Hl) as (l' & m' & E & R' & S).
    exists l', m'. split_and!; try done.
    + by apply (COUNT_run (LL := DL_list) P m' (head l') l').
    + intros cmp elt. by apply (SEARCH_run (LL := DL_list) cmp P m' (head l') l').
  - destruct R as (-> & ND & L & f & g & V & Hf & Hg).
    intros h2 l2 (-> & ND2 & L2 & f2 & g2 & V2 & Hf2 & Hg2) D.
    apply (DL_CONCAT_run P m _ l _ l2 f g V); try done.
    + by apply NoDup_app.
    + intros p [Hp|Hp]%elem_of_app; [by apply L|by apply L2].
    + eapply nexts_ext; [|exact Hf2]. intros x _. by rewrite <- (view_next _ _ _ _ V), (view_next _ _ _ _ V2).
    + eapply nexts_ext; [|exact Hg2]. intros x _. by rewrite <- (view_prev _ _ _ _ V), (view_prev _ _ _ _ V2).
Qed.

(** C19: The [CDL] macros implement lists.  Every sequence of [CDL_PREPEND],
    [CDL_DELETE], [CDL_REPLACE_ELEM], [CDL_PREPEND_ELEM] and [CDL_SORT] that
    respects what these expect ends with a circle, in both directions, of what
    the sequence makes of the list; [CDL_COUNT] counts its elements and
    [CDL_SEARCH] finds the first that answers. *)
Theorem cdl_refines_list P m h l ops :
  CDL_repr P m h l -> ops_legal (LL := CDL_list) P ops l ->
  exists l' m', run_list_ops (LL := CDL_list) ops h m = (Ret (head l'), m') /\
    CDL_repr P m' (head l') l' /\ ops_spec P ops l l' /\
    (Z.of_nat (length l') < 2 ^ 31 ->
       COUNT (LL := CDL_list) (head l') m' = (Ret (Z.of_nat (length l')), m')) /\
    (forall cmp elt, SEARCH (LL := CDL_list) cmp (head l') elt m' =
       (Ret (find_first P (fun a => cmp a elt =? 0) l'), m')).
Proof.
  intros R Hl.
  destruct (run_ops_refine (LL := CDL_list) P ops m h l R Hl) as (l' & m' & E & R' & S).
  exists l', m'. split_and!; try done.
  - by apply (COUNT_run (LL := CDL_list) P m' (head l') l').
  - intros cmp elt. by apply (SEARCH_run (LL := CDL_list) cmp P m' (head l') l').
Qed.

End Runs.

Section Example_dlists.

(** Three elements, of which the first two form a list, once with an end and
    once circular. *)
Definition example_dnodes (e : option loc) : gmap loc (dnode (A := Z)) :=
  <[1%positive := DNode 5 (Some 2%positive) (Some 2%positive)]>
    (<[2%positive := DNode 3 (Some 1%positive) e]>
      (<[3%positive := DNode 4 None None]> ∅)).

Definition example_dcontents : gmap loc Z := d_payload <$> example_dnodes None.

Lemma example_drepr (ending : list loc -> option loc) :
  D_repr ending example_dcontents (example_dnodes (ending [1; 2]%positive))
    (Some 1%positive) [1; 2]%positive.
Proof.
  split; [done|]. split; [by apply (bool_decide_unpack _); vm_compute|]. split.
  - intros p Hp. repeat (apply elem_of_cons in Hp as [->|Hp]; [by eexists|]).
    by apply not_elem_of_nil in Hp.
  - eexists _, _. split; [constructor; [reflexivity|done|done]|]. by repeat split.
Qed.

Definition example_dops : list list_op := [Prepend 3%positive; Sort by_value].

Lemma example_dops_legal `{LL : LinkedList Z St} :
  ops_legal (LL := LL) example_dcontents example_dops [1; 2]%positive.
Proof.
  cbn. split_and!; [by eexists|by apply (bool_decide_unpack _); vm_compute|].
  intros l1 ->. split; [|done]. split_and!; [by vm_compute|apply _..].
Qed.

Lemma dl_refines_list_witness :
  exists l' m', run_list_ops (LL := DL_list) example_dops (Some 1%positive)
      (example_dnodes None) = (Ret (head l'), m') /\
    DL_repr example_dcontents m' (head l') l' /\
    ops_spec example_dcontents example_dops [1; 2]%positive l'.
Proof.
  destruct (dl_refines_list example_dcontents (example_dnodes None) (Some 1%positive)
    [1; 2]%positive example_dops (example_drepr (fun _ => None)) example_dops_legal)
    as [(l' & m' & R & C & S & _) _].
  exists l', m'. split; [exact R|]. by split.
Defined.

Lemma cdl_refines_list_witness :
  exists l' m', run_list_ops (LL := CDL_list) example_dops (Some 1%positive)
      (example_dnodes (Some 1%positive)) = (Ret (head l'), m') /\
    CDL_repr example_dcontents m' (head l') l' /\
    ops_spec example_dcontents example_dops [1; 2]%positive l'.
Proof.
  destruct (cdl_refines_list example_dcontents (example_dnodes (Some 1%positive))
    (Some 1%positive) [1; 2]%positive example_dops (example_drepr head) example_dops_legal)
    as (l' & m' & R & C & S & _).
  exists l', m'. split; [exact R|]. by split.
Defined.

End Example_dlists.
