(* ===== verification/HashTools.v ===== *)
(** * Sorting, replacing, clearing and checking a hash table (src/uthash.h)

    The macros of src/uthash.h that work on a whole table: [HASH_SRT], the
    merge sort of Sort on the list in application order, [HASH_REPLACE],
    [HASH_CLEAR], and [HASH_FSCK], the check of the table that is compiled in
    with [HASH_DEBUG]. *)

From S2P Require Export UTHash.
From S2P Require Import Sort ListOps.

Section Tools.
Context `{HF : HashFunction}.

(** ** Sorting *)

(** [ELMT_FROM_HH] and the additions of [hho] read the table of [head]. *)
Definition head_hho : M hstate unit :=
  let* T := head_tbl in read_tbl T ;;; ret tt.

(** The handle of the next element, or NULL. *)
Definition next_hh (p : loc) : M hstate (option loc) :=
  let* x := read_hh p in
  match next x with
  | Some q => head_hho ;;; ret (Some q)
  | None => ret None
  end.

Definition read_field (p : loc) : M hstate bytes := fun s =>
  deref (field <$> elems s !! p) s.

(** What [HASH_SRT] (719-806) does in its own way; [cmpfcn] compares the
    content of two elements. *)
Definition HASH_sort_ops (cmpfcn : bytes -> bytes -> Z) : sort_ops hstate := {|
  next_p := fun _ p => match p with Some p => next_hh p | None => ret None end;
  next_q := fun _ q => let* q := deref q in next_hh q;
  compare := fun p q =>
    head_hho ;;;
    let* a := read_field p in
    let* b := read_field q in
    ret (cmpfcn a b);
  emit := fun tail e =>
    match tail with
    | Some t =>
        match e with Some _ => head_hho | None => ret tt end ;;;
        write_hh t (put_next e)
    | None => ret tt
    end ;;;
    match e with
    | Some e =>
        match tail with Some _ => head_hho | None => ret tt end ;;;
        write_hh e (put_prev tail)
    | None => ret tt
    end;
  close := fun _ tail =>
    match tail with Some t => write_hh t (put_next None) | None => ret tt end;
  finish := fun list tail =>
    let* T := head_tbl in
    write_tbl T (put_tail tail) ;;;
    head_hho ;;;
    modify (set_head list);
  arith := unsigned_arith;
  store_size := fun s => size (elems s) |}.

Definition HASH_SRT (cmpfcn : bytes -> bytes -> Z) : M hstate unit :=
  let* h := gets head_ptr in
  merge_sort (HASH_sort_ops cmpfcn) h ;;; ret tt.

(** ** Replacing and clearing *)

(** [HASH_REPLACE] (163-172) *)
Definition HASH_REPLACE (n : Z) (add : loc) : M hstate (option loc) :=
  let* k := read_key add n in
  let* replaced := HASH_FIND k in
  match replaced with Some p => HASH_DELETE p | None => ret tt end ;;;
  HASH_ADD n add ;;;
  ret replaced.

(** [HASH_CLEAR] (849-858) *)
Definition HASH_CLEAR : M hstate unit :=
  let* h := gets head_ptr in
  match h with Some _ => delete_table | None => ret tt end.

(** ** Checking *)

(** [HASH_OOPS] *)
Definition HASH_OOPS {A} : M hstate A := fail (Exit (-1)).

(** The loop over one chain, or over the list in application order: the
    pointers [back] must name the element that came before.  The number of
    elements is returned. *)
Fixpoint fsck_chain (back forth : UT_hash_handle -> option loc) (fuel : nat)
  (prev_ : option loc) (thh : option loc) (count_ : Z) : M hstate Z :=
  match thh, fuel with
  | None, _ => ret count_
  | Some _, O => fail Blocked
  | Some p, S fuel =>
      let* x := read_hh p in
      if decide (prev_ = back x) then
        fsck_chain back forth fuel (Some p) (forth x) (u32 (count_ + 1))
      else HASH_OOPS
  end.

(** The loop over the buckets, from [i] on, [n] to go. *)
Fixpoint fsck_buckets (n : nat) (i : Z) (count_ : Z) : M hstate Z :=
  match n with
  | O => ret count_
  | S n =>
      let* T := head_tbl in
      let* b := read_bucket T i in
      let* sz := gets (fun s => size (elems s)) in
      let* c := fsck_chain hh_prev hh_next (S sz) None (hh_head b) 0 in
      if count b =? c then fsck_buckets n (i + 1) (u32 (count_ + c)) else HASH_OOPS
  end.

(** [HASH_FSCK] (278-328) *)
Definition HASH_FSCK : M hstate unit :=
  let* h := gets head_ptr in
  match h with
  | None => ret tt
  | Some p =>
      let* T := head_tbl in
      let* t := read_tbl T in
      let* c := fsck_buckets (Z.to_nat (num_buckets t)) 0 0 in
      if c =? num_items t then
        let* sz := gets (fun s => size (elems s)) in
        let* c := fsck_chain prev next (S sz) None (Some p) 0 in
        if c =? num_items t then ret tt else HASH_OOPS
      else HASH_OOPS
  end.

(** ** The table while it is sorted *)

Definition anext (m : gmap loc elem) (p : loc) : option loc := alinks m p ≫= snd.
Definition aprev (m : gmap loc elem) (p : loc) : option loc := alinks m p ≫= fst.

Lemma alinks_pair m p : is_Some (m !! p) -> alinks m p = Some (aprev m p, anext m p).
Proof. intros [e He]. unfold aprev, anext, alinks. by rewrite He. Qed.

(** [s'] differs from [s] at most in the list in application order. *)
Record reordered (s s' : hstate) : Prop := Reordered {
  ro_tables : tables s' = tables s;
  ro_head : head_ptr s' = head_ptr s;
  ro_ident p : ident (elems s') p = ident (elems s) p;
  ro_blinks p : blinks (elems s') p = blinks (elems s) p;
  ro_field : field <$> elems s' = field <$> elems s }.

Lemma reordered_refl s : reordered s s.
Proof. by constructor. Qed.

Lemma reordered_live s s' p : reordered s s' -> is_Some (elems s' !! p) <-> is_Some (elems s !! p).
Proof. intros R. by rewrite <- !live_ident, (ro_ident s s' R). Qed.

(** The list in application order is written through [next] and [prev]. *)
Lemma write_next_run s0 s t v : reordered s0 s -> is_Some (elems s !! t) ->
  exists s', write_hh t (put_next v) s = (Ret tt, s') /\ reordered s0 s' /\
    (forall q, anext (elems s') q = if decide (Some q = Some t) then v else anext (elems s) q) /\
    (forall q, aprev (elems s') q = aprev (elems s) q).
Proof.
  intros [T H I B F] Hl. eexists. split; [by apply write_hh_run|].
  destruct Hl as [e He]. split; [|split].
  - constructor; cbn; [done|done|..].
    + intros p. change (alter _ t _) with (upd t (put_next v) (elems s)).
      by rewrite ident_put_next.
    + intros p. change (alter _ t _) with (upd t (put_next v) (elems s)).
      by rewrite blinks_put_next.
    + change (alter _ t _) with (upd t (put_next v) (elems s)). by rewrite upd_field.
  - intros q. unfold anext. cbn. change (alter _ t _) with (upd t (put_next v) (elems s)).
    rewrite alinks_put_next. destruct (decide (q = t)) as [->|Hq].
    + rewrite decide_True by done. unfold alinks. by rewrite He.
    + rewrite decide_False; [done|]. by intros [= ->].
  - intros q. unfold aprev. cbn. change (alter _ t _) with (upd t (put_next v) (elems s)).
    rewrite alinks_put_next. case_decide; [|done]. by destruct (alinks _ q) as [[]|].
Qed.

Lemma write_prev_run s0 s t v : reordered s0 s -> is_Some (elems s !! t) ->
  exists s', write_hh t (put_prev v) s = (Ret tt, s') /\ reordered s0 s' /\
    (forall q, aprev (elems s') q = if decide (q = t) then v else aprev (elems s) q) /\
    (forall q, anext (elems s') q = anext (elems s) q).
Proof.
  intros [T H I B F] Hl. eexists. split; [by apply write_hh_run|].
  destruct Hl as [e He]. split; [|split].
  - constructor; cbn; [done|done|..].
    + intros p. change (alter _ t _) with (upd t (put_prev v) (elems s)).
      by rewrite ident_put_prev.
    + intros p. change (alter _ t _) with (upd t (put_prev v) (elems s)).
      by rewrite blinks_put_prev.
    + change (alter _ t _) with (upd t (put_prev v) (elems s)). by rewrite upd_field.
  - intros q. unfold aprev. cbn. change (alter _ t _) with (upd t (put_prev v) (elems s)).
    rewrite alinks_put_prev. case_decide; [|done]. subst. unfold alinks. by rewrite He.
  - intros q. unfold anext. cbn. change (alter _ t _) with (upd t (put_prev v) (elems s)).
    rewrite alinks_put_prev. case_decide; [|done]. by destruct (alinks _ q) as [[]|].
Qed.

(** The table of [s0] holds [t]; of the list [L] with the same elements, [D]
    have been taken. *)
Record HASH_taken (n : Z) (s0 : hstate) (t L D : list loc) (s : hstate) : Prop := HASHTaken {
  ht_table : table_holds n s0 t;
  ht_same : reordered s0 s;
  ht_perm : L ≡ₚ t;
  ht_D : NoDup D;
  ht_sub : forall p, p ∈ D -> p ∈ L;
  ht_succ : succ_of None L D (anext (elems s));
  ht_pred : pred_of (match D with [] => L | _ => D end) (aprev (elems s)) }.

Lemma HASH_taken_start n s t : table_holds n s t -> HASH_taken n s t t [] s.
Proof.
  intros H. pose proof H as (_ & L & _). pose proof (proj2 (links_pointwise _ _ _ _) L) as E.
  constructor; try done; [constructor|by intros p ?%not_elem_of_nil| |].
  - apply nexts_succ, nexts_pointwise. intros l1 x l2 Ex. unfold anext. by rewrite (E l1 x l2 Ex).
  - intros l1 x l2 Ex. unfold aprev. rewrite (E l1 x l2 Ex). unfold final. cbn.
    by destruct (last l1).
Qed.

Section Laws.
Context (n : Z) (s0 : hstate) (t : list loc).

Lemma taken_live L D s p : HASH_taken n s0 t L D s -> p ∈ L -> is_Some (elems s !! p).
Proof.
  intros T Hp. apply (reordered_live s0 s p (ht_same _ _ _ _ _ _ T)).
  apply (table_live n s0 t); [apply T|]. by rewrite <- (ht_perm _ _ _ _ _ _ T).
Qed.

Lemma reordered_table s : table_holds n s0 t -> t <> [] -> reordered s0 s ->
  exists T tb, tables s !! T = Some tb /\ head_tbl s = (Ret T, s) /\
    (forall p, p ∈ t -> member n T (elems s) p) /\ array_holds (elems s) tb t /\
    num_items tb = Z.of_nat (length t).
Proof.
  intros H Ht S. pose proof H as (_ & _ & Hh & R). destruct (R Ht) as (T & tb & ET & M & A & El & Ei).
  assert (forall p, p ∈ t -> member n T (elems s) p) as M'.
  { intros p Hp. apply (member_ext n T (elems s0)); [apply S|by apply M]. }
  exists T, tb. rewrite (ro_tables _ _ S). split_and!; try done.
  - destruct t as [|p t']; [done|].
    destruct (member_elem n T (elems s) p) as (e & He & Et & _); [apply M'; by left|].
    apply (head_tbl_run s T p e); [by rewrite (ro_head _ _ S), Hh|done|done].
  - revert A. apply array_holds_ext; try done; intros p _; apply S.
Qed.

Lemma reordered_hho s : table_holds n s0 t -> t <> [] -> reordered s0 s ->
  head_hho s = (Ret tt, s).
Proof.
  intros H Ht S. destruct (reordered_table s H Ht S) as (T & tb & ET & R & _). unfold head_hho.
  rewrite (bind_ret_l _ _ _ _ _ R). by rewrite (bind_ret_l _ _ _ _ _ (read_tbl_run s T tb ET)).
Qed.

Lemma taken_some L D s p : HASH_taken n s0 t L D s -> p ∈ L -> t <> [].
Proof.
  intros T Hp Et. rewrite (ht_perm _ _ _ _ _ _ T), Et in Hp. by apply not_elem_of_nil in Hp.
Qed.

Lemma taken_hho L D s p : HASH_taken n s0 t L D s -> p ∈ L -> head_hho s = (Ret tt, s).
Proof. intros T Hp. by apply reordered_hho; [apply T|apply (taken_some L D s p)|apply T]. Qed.

Lemma taken_next L D s l1 x l2 : HASH_taken n s0 t L D s -> L = l1 ++ x :: l2 -> x ∉ D ->
  next_hh x s = (Ret (head l2), s).
Proof.
  intros T E Hx. pose proof (ht_succ _ _ _ _ _ _ T) as [S _]. specialize (S l1 x l2 E Hx).
  assert (is_Some (elems s !! x)) as [e He].
  { apply (taken_live L D s x T). rewrite E. apply elem_of_app. right. by left. }
  unfold next_hh. rewrite (bind_ret_l _ _ _ _ _ (read_hh_run s x e He)).
  unfold anext, alinks in S. rewrite He in S. cbn in S. rewrite S.
  destruct l2 as [|y l2]; [done|]. cbn [first head].
  rewrite (bind_ret_l _ _ _ _ _ (taken_hho L D s x T ltac:(rewrite E; apply elem_of_app; right; by left))).
  done.
Qed.

Lemma taken_compare cmp L D s x y : HASH_taken n s0 t L D s -> x ∈ L -> y ∈ L ->
  compare (HASH_sort_ops cmp) x y s = (Ret (cmp_at (field <$> elems s0) cmp x y), s).
Proof.
  intros T Hx Hy. cbn [compare HASH_sort_ops].
  rewrite (bind_ret_l _ _ _ _ _ (taken_hho L D s x T Hx)).
  destruct (taken_live L D s x T Hx) as [a Ha], (taken_live L D s y T Hy) as [b Hb].
  unfold read_field. erewrite bind_ret_l by (rewrite Ha; reflexivity).
  erewrite bind_ret_l by (rewrite Hb; reflexivity).
  unfold cmp_at. rewrite <- (ro_field _ _ (ht_same _ _ _ _ _ _ T)), !lookup_fmap, Ha, Hb. done.
Qed.

(** The element [x] is appended behind [D]. *)
Lemma taken_append L D s s' x : HASH_taken n s0 t L D s -> x ∈ L -> x ∉ D ->
  reordered s0 s' ->
  (forall q, anext (elems s') q = if decide (Some q = last D) then Some x else anext (elems s) q) ->
  (forall q, aprev (elems s') q = if decide (q = x) then last D else aprev (elems s) q) ->
  HASH_taken n s0 t L (D ++ [x]) s'.
Proof.
  intros [H S HP ND HS Hsucc Hpred] Hx Hn S' En Ep. constructor; try done.
  - by apply NoDup_snoc.
  - intros p [Hp| ->%list_elem_of_singleton]%elem_of_app; [by apply HS|done].
  - by apply (succ_emit None L D x (anext (elems s))).
  - assert (pred_of D (aprev (elems s))) as HD by (destruct D; [by intros [|? d1]|done]).
    pose proof (pred_emit D x _ _ Hn HD Ep) as HD'. by destruct D.
Qed.

Lemma taken_emit cmp L D s x : HASH_taken n s0 t L D s -> x ∈ L -> x ∉ D ->
  exists s', emit (HASH_sort_ops cmp) (last D) (Some x) s = (Ret tt, s') /\
    HASH_taken n s0 t L (D ++ [x]) s'.
Proof.
  intros T Hx Hn. cbn [emit HASH_sort_ops].
  destruct (last D) as [z|] eqn:Ez.
  - assert (is_Some (elems s !! z)) as Lz.
    { by apply (taken_live L D s z T), (ht_sub _ _ _ _ _ _ T), last_Some_elem_of. }
    rewrite bind_assoc, (bind_ret_l _ _ _ _ _ (taken_hho L D s x T Hx)).
    destruct (write_next_run s0 s z (Some x) (ht_same _ _ _ _ _ _ T) Lz)
      as (s1 & R1 & S1 & En1 & Ep1).
    rewrite (bind_ret_l _ _ _ _ _ R1).
    rewrite (bind_ret_l _ _ _ _ _ (reordered_hho s1 (ht_table _ _ _ _ _ _ T)
      (taken_some L D s x T Hx) S1)).
    destruct (write_prev_run s0 s1 x (Some z) S1) as (s2 & R2 & S2 & Ep2 & En2).
    { apply (reordered_live s0 s1 x S1), (reordered_live s0 s x (ht_same _ _ _ _ _ _ T)).
      by apply (taken_live L D s). }
    exists s2. split; [exact R2|]. apply (taken_append L D s s2 x T Hx Hn S2).
    + intros q. rewrite Ez, En2. apply En1.
    + intros q. rewrite Ez, Ep2. case_decide; [done|]. apply Ep1.
  - do 2 (erewrite bind_ret_l by reflexivity).
    destruct (write_prev_run s0 s x None (ht_same _ _ _ _ _ _ T)) as (s1 & R1 & S1 & Ep1 & En1).
    { by apply (taken_live L D s). }
    exists s1. split; [exact R1|]. apply (taken_append L D s s1 x T Hx Hn S1).
    + intros q. rewrite Ez, En1. by rewrite decide_False.
    + intros q. by rewrite Ez, Ep1.
Qed.

Lemma taken_close cmp L D s : HASH_taken n s0 t L D s -> D ≡ₚ L -> D <> [] ->
  exists s', close (HASH_sort_ops cmp) (head D) (last D) s = (Ret tt, s') /\
    HASH_taken n s0 t D [] s'.
Proof.
  intros T HP Hn. destruct (last D) as [z|] eqn:Ez; [|by apply last_None in Ez].
  assert (is_Some (elems s !! z)) as Lz.
  { by apply (taken_live L D s z T), (ht_sub _ _ _ _ _ _ T), last_Some_elem_of. }
  destruct (write_next_run s0 s z None (ht_same _ _ _ _ _ _ T) Lz) as (s1 & R1 & S1 & En1 & Ep1).
  exists s1. split; [exact R1|]. destruct T as [H S HP' ND HS Hsucc Hpred].
  constructor; try done; [by rewrite HP|constructor|by intros p ?%not_elem_of_nil| |].
  - apply (succ_close None None L D (anext (elems s))); [done..|]. intros q. by rewrite Ez.
  - destruct D as [|d D]; [done|]. intros d1 x d2 E. rewrite Ep1. by eapply Hpred.
Qed.

Lemma taken_finish cmp L s : HASH_taken n s0 t L [] s -> L <> [] ->
  exists s', finish (HASH_sort_ops cmp) (head L) (last L) s = (Ret tt, s') /\
    table_holds n s' L /\ field <$> elems s' = field <$> elems s0.
Proof.
  intros T HL. assert (exists p, p ∈ L) as [p Hp] by (destruct L as [|p ?]; [done|exists p; by left]).
  destruct (reordered_table s (ht_table _ _ _ _ _ _ T) (taken_some L [] s p T Hp)
    (ht_same _ _ _ _ _ _ T)) as (Tb & tb & ET & R & M & A & Ei).
  cbn [finish HASH_sort_ops]. rewrite (bind_ret_l _ _ _ _ _ R).
  rewrite (bind_ret_l _ _ _ _ _ (write_tbl_run s Tb (put_tail (last L)) tb ET)).
  set (s1 := set_tables _ s). pose proof T as [H S HP ND HS Hsucc Hpred].
  assert (head_hho s1 = (Ret tt, s1)) as Rh.
  { unfold head_hho. assert (head_tbl s1 = (Ret Tb, s1)) as R'.
    { unfold head_tbl in R |- *. unfold bind, gets, deref, read_hh in *. cbn in *.
      destruct (head_ptr s) as [h|]; [|done]. cbn in *.
      destruct (elems s !! h) as [e|]; [|done]. cbn in *.
      destruct (tbl (hh e)); [|done]. by injection R as ->. }
    rewrite (bind_ret_l _ _ _ _ _ R').
    by rewrite (bind_ret_l _ _ _ _ _ (read_tbl_run s1 Tb _ (lookup_insert_eq _ _ _))). }
  rewrite (bind_ret_l _ _ _ _ _ Rh). eexists. split; [reflexivity|]. split; [|apply S].
  split; [rewrite HP; apply H|]. split; [|split].
  - apply links_pointwise. intros l1 x l2 E.
    assert (is_Some (elems s !! x)) as Lx.
    { apply (taken_live L [] s x T). rewrite E. apply elem_of_app. right. by left. }
    cbn [elems set_head s1 set_tables]. rewrite (alinks_pair _ _ Lx).
    rewrite (Hpred l1 x l2 E), (proj1 Hsucc l1 x l2 E (not_elem_of_nil x)).
    unfold final. by destruct (last l1).
  - cbn. by destruct L.
  - intros _. exists Tb, (put_tail (last L) tb). cbn [tables elems set_head s1 set_tables].
    split; [apply lookup_insert_eq|]. split; [intros q Hq; apply M; by rewrite <- HP|].
    split; [|split; [done|cbn; by rewrite HP]].
    revert A. apply array_holds_ext; try done. intros q. by rewrite HP.
Qed.

#[local] Instance HASH_sort_laws cmp :
  SortLaws (HASH_sort_ops cmp) (cmp_at (field <$> elems s0) cmp) (HASH_taken n s0 t)
    (fun L s => table_holds n s L /\ field <$> elems s = field <$> elems s0).
Proof.
  constructor.
  - intros L D s l1 x l2 T E Hx. by apply (taken_next L D s l1).
  - intros L D s l1 x l2 T E Hx. by apply (taken_next L D s l1).
  - intros L D s x y. apply taken_compare.
  - intros L D s x. apply taken_emit.
  - intros L D s. apply taken_close.
  - intros L s. apply taken_finish.
  - intros L s [H _ HP _ _ _ _]. rewrite HP. apply H.
  - intros L D s T. cbn [store_size HASH_sort_ops]. apply live_length.
    + rewrite (ht_perm _ _ _ _ _ _ T). apply (ht_table _ _ _ _ _ _ T).
    + intros p Hp. by apply (taken_live L D s).
  - intros z s. apply unsigned_arith_run.
Qed.

Lemma HASH_SRT_run cmp : table_holds n s0 t -> Z.of_nat (length t) <= 2 ^ 30 ->
  Total (fun a b => cmp a b <= 0) -> Transitive (fun a b => cmp a b <= 0) ->
  exists t' s', HASH_SRT cmp s0 = (Ret tt, s') /\ table_holds n s' t' /\
    sorted_version (cmp_at (field <$> elems s0) cmp) t t' /\
    field <$> elems s' = field <$> elems s0.
Proof.
  intros H HL T1 T2. unfold HASH_SRT. erewrite bind_ret_l by reflexivity.
  rewrite (proj1 (proj2 (proj2 H))). destruct (decide (t = [])) as [->|Ht].
  - exists [], s0. split; [done|]. split; [done|]. split; [|done].
    split_and!; [done|constructor|done].
  - destruct (merge_sort_run (HASH_sort_ops cmp) (cmp_at (field <$> elems s0) cmp)
      (HASH_taken n s0 t) _ t s0) as (t' & s' & R & [H' F] & S);
      [by apply HASH_taken_start|done|done|].
    assert (first t None = head t) as -> by by destruct t.
    rewrite (bind_ret_l _ _ _ _ _ R). by exists t', s'.
Qed.

End Laws.

(** ** Replacing *)

Definition keys_distinct (n : Z) (m : gmap loc elem) (t : list loc) : Prop :=
  forall p q k, p ∈ t -> q ∈ t -> key_is n m p k -> key_is n m q k -> p = q.

(** The elements that [HASH_REPLACE] leaves. *)
Definition kept (replaced : option loc) (t : list loc) : list loc :=
  match replaced with Some q => filter (fun r => r <> q) t | None => t end.

Lemma kept_spliced l q l' : NoDup (l ++ q :: l') -> kept (Some q) (l ++ q :: l') = l ++ l'.
Proof.
  intros (_ & D & [Hq _]%NoDup_cons)%NoDup_app. cbn [kept].
  assert (forall c : list loc, q ∉ c -> filter (fun r => r <> q) c = c) as E.
  { induction c as [|x c IH]; [done|]. intros [Hx Hc]%not_elem_of_cons.
    rewrite filter_cons_True by done. by rewrite IH. }
  rewrite filter_app, filter_cons_False by naive_solver.
  rewrite !E; [done|done|]. intros Hl. apply (D q Hl). by left.
Qed.

Lemma key_is_ext n m m' p k : field <$> m' = field <$> m -> key_is n m p k -> key_is n m' p k.
Proof.
  intros E (e & He & Hk). apply (f_equal (fun x => x !! p)) in E.
  rewrite !lookup_fmap, He in E. destruct (m' !! p) as [e'|] eqn:He'; [|done].
  injection E as E. exists e'. split; [done|]. by rewrite E.
Qed.

Lemma drop_replaced n s t o : table_holds n s t -> table_room s t ->
  (forall q, o = Some q -> q ∈ t) ->
  exists s', (match o with Some q => HASH_DELETE q | None => ret tt end) s = (Ret tt, s') /\
    table_holds n s' (kept o t) /\ table_room s' (kept o t) /\
    field <$> elems s' = field <$> elems s.
Proof.
  intros H Room Ho. destruct o as [q|]; [|by exists s].
  pose proof H as (ND & _). destruct Room as [Hlen G].
  destruct (list_elem_of_split t q (Ho q eq_refl)) as (l & l' & ->).
  destruct (HASH_DELETE_run n s l q l' H) as (s' & R & H' & F & G'); [lia|].
  exists s'. rewrite kept_spliced by done. split; [done|]. split; [done|]. split; [|done].
  unfold table_room. rewrite length_app in Hlen, G |- *. cbn [length] in *.
  split; [lia|]. intros H9. apply G', G. lia.
Qed.

Lemma live_field (m m' : gmap loc elem) p e : field <$> m' = field <$> m -> m !! p = Some e ->
  exists e', m' !! p = Some e' /\ field e' = field e.
Proof.
  intros E He. apply (f_equal (fun x => x !! p)) in E. rewrite !lookup_fmap, He in E.
  destruct (m' !! p) as [e'|]; [|done]. injection E as E. by exists e'.
Qed.

(** ** Checking *)

(** The pointers a loop of [HASH_FSCK] follows. *)
Definition fields_of (back forth : UT_hash_handle -> option loc) (m : gmap loc elem) (p : loc)
  : option (option loc * option loc) :=
  (fun e => (back (hh e), forth (hh e))) <$> m !! p.

Definition counted (k : Z) (l : list loc) : Z :=
  match l with [] => k | _ => u32 (k + Z.of_nat (length l)) end.

Lemma counted_cons k p l : counted (u32 (k + 1)) l = counted k (p :: l).
Proof.
  destruct l as [|q l]; [done|]. cbn [counted length]. unfold u32, uwrap.
  rewrite Z.add_mod_idemp_l by lia. f_equal. lia.
Qed.

Section Checking.
Context (back forth : UT_hash_handle -> option loc).
Local Abbreviation get s := (fields_of back forth (elems s)).

(** A chain whose pointers agree is accepted and counted. *)
Lemma fsck_chain_accepts s l : forall fuel b k,
  links (get s) b l None -> (length l < fuel)%nat ->
  fsck_chain back forth fuel b (first l None) k s = (Ret (counted k l), s).
Proof.
  induction l as [|p l IH]; intros fuel b k L Hf; [by destruct fuel|].
  destruct fuel as [|fuel]; [cbn in Hf; lia|]. destruct L as [E L]. unfold fields_of in E.
  destruct (elems s !! p) as [e|] eqn:He; [|done]. injection E as Eb Ef.
  cbn [fsck_chain first]. rewrite (bind_ret_l _ _ _ _ _ (read_hh_run s p e He)).
  rewrite decide_True by done. rewrite Ef, IH; [|done|cbn in Hf; lia].
  by rewrite (counted_cons k p l).
Qed.

(** What is accepted is such a chain. *)
Lemma fsck_chain_sound : forall fuel b thh k s c s',
  fsck_chain back forth fuel b thh k s = (Ret c, s') ->
  s' = s /\ exists l, links (get s) b l None /\ first l None = thh /\ c = counted k l.
Proof.
  induction fuel as [|fuel IH]; intros b thh k s c s'; destruct thh as [p|]; cbn [fsck_chain];
    try (intros [= <- <-]; split; [done|by exists []]); [done|].
  unfold bind, read_hh, deref. destruct (elems s !! p) as [e|] eqn:He; [|done]. cbn.
  case_decide as Eb; [|done]. intros R. destruct (IH _ _ _ _ _ _ R) as (-> & l & L & Ef & ->).
  split; [done|]. exists (p :: l). split; [|split; [done|by rewrite (counted_cons k p l)]].
  split; [|done]. unfold fields_of. rewrite He. cbn. by rewrite Eb, Ef.
Qed.

(** Elements that were checked are distinct, for their predecessors are. *)
Lemma links_NoDup g l : forall a, links g None l a -> NoDup l.
Proof.
  induction l as [|x l IH] using rev_ind; intros a L; [constructor|].
  pose proof L as [L1 _]%links_app. pose proof (IH _ L1) as ND. apply NoDup_snoc; [done|].
  intros Hx. apply list_elem_of_split in Hx as (l1 & l2 & ->).
  pose proof (links_lookup _ _ _ _ _ _ L1) as E1.
  apply links_app in L as [_ [E2 _]]. rewrite E1 in E2. injection E2 as E2 _.
  unfold final in E2. rewrite last_app_cons in E2.
  destruct (some_last x l2) as (z & Hz & Hin). rewrite Hz in E2.
  destruct (last l1) as [y|] eqn:Ey; [|done]. injection E2 as ->.
  apply last_Some_elem_of in Ey. apply NoDup_app in ND as (_ & D & _). by apply (D z Ey).
Qed.

(** The loop ends: a circle is noticed. *)
Lemma fsck_chain_ends : forall fuel l thh k s,
  links (get s) None l thh -> (size (elems s) < length l + fuel)%nat ->
  (fsck_chain back forth fuel (last l) thh k s).1 <> Blocked.
Proof.
  induction fuel as [|fuel IH]; intros l thh k s L Hf; destruct thh as [p|]; cbn [fsck_chain];
    try done.
  - exfalso. pose proof (links_NoDup _ _ _ L) as ND.
    assert (length l <= size (elems s))%nat; [|lia]. apply live_length; [done|].
    intros q Hq. apply list_elem_of_split in Hq as (l1 & l2 & ->).
    apply links_lookup in L. unfold fields_of in L. by destruct (elems s !! q).
  - unfold bind, read_hh, deref. destruct (elems s !! p) as [e|] eqn:He; [|done]. cbn.
    case_decide as Eb; [|done].
    specialize (IH (l ++ [p]) (forth (hh e)) (u32 (k + 1)) s). rewrite last_snoc in IH.
    apply IH; [|rewrite length_app; cbn; lia]. apply links_app. split; [done|].
    split; [|done]. unfold fields_of. rewrite He. cbn. rewrite <- Eb. unfold final.
    by destruct (last l).
Qed.

End Checking.

Lemma blinks_live m b l a p : links (blinks m) b l a -> p ∈ l -> is_Some (m !! p).
Proof.
  intros L (l1 & l2 & ->)%list_elem_of_split. apply links_lookup in L. unfold blinks in L.
  destruct (m !! p); [by eexists|done].
Qed.

(** The chain [c] of a bucket, and the chains [cs] of the buckets from [i] on,
    whose elements are added up from [k]. *)
Definition bucket_ok (s : hstate) (b : UT_hash_bucket) (c : list loc) : Prop :=
  hh_head b = first c None /\ links (blinks (elems s)) None c None /\ count b = counted 0 c.

Fixpoint buckets_ok (s : hstate) (tb : UT_hash_table) (i : Z) (cs : list (list loc)) : Prop :=
  match cs with
  | [] => True
  | c :: cs =>
      (exists b, buckets tb !! Z.to_nat i = Some b /\ bucket_ok s b c) /\
      buckets_ok s tb (i + 1) cs
  end.

Fixpoint total (k : Z) (cs : list (list loc)) : Z :=
  match cs with
  | [] => k
  | c :: cs => total (u32 (k + counted 0 c)) cs
  end.

(** What [HASH_FSCK] checks. *)
Definition fsck_ok (s : hstate) : Prop :=
  match head_ptr s with
  | None => True
  | Some p =>
      exists T tb cs t, head_tbl s = (Ret T, s) /\ tables s !! T = Some tb /\
        length cs = Z.to_nat (num_buckets tb) /\ buckets_ok s tb 0 cs /\
        num_items tb = total 0 cs /\
        first t None = Some p /\ links (alinks (elems s)) None t None /\
        num_items tb = counted 0 t
  end.

Lemma read_bucket_at s T tb i b : tables s !! T = Some tb -> buckets tb !! Z.to_nat i = Some b ->
  read_bucket T i s = (Ret b, s).
Proof. intros ET Hb. by apply (read_bucket_run s T i tb b). Qed.

Lemma fsck_buckets_accepts s T tb : head_tbl s = (Ret T, s) -> tables s !! T = Some tb ->
  forall cs n i k, length cs = n -> buckets_ok s tb i cs ->
  fsck_buckets n i k s = (Ret (total k cs), s).
Proof.
  intros HT ET. induction cs as [|c cs IH]; intros n i k <- H; [done|].
  destruct H as [(b & Hb & Hh & L & Hc) H]. cbn [fsck_buckets length total].
  rewrite (bind_ret_l _ _ _ _ _ HT), (bind_ret_l _ _ _ _ _ (read_bucket_at s T tb i b ET Hb)).
  erewrite bind_ret_l by reflexivity. rewrite Hh.
  erewrite bind_ret_l.
  2:{ apply (fsck_chain_accepts hh_prev hh_next s c); [exact L|].
      enough (length c <= size (elems s))%nat by lia. apply live_length.
      - by apply (links_NoDup _ _ None L).
      - intros p Hp. by apply (blinks_live _ _ _ _ _ L). }
  rewrite Hc, Z.eqb_refl. by apply IH.
Qed.

Lemma fsck_buckets_sound s T tb : head_tbl s = (Ret T, s) -> tables s !! T = Some tb ->
  forall n i k c s', fsck_buckets n i k s = (Ret c, s') ->
  s' = s /\ exists cs, length cs = n /\ buckets_ok s tb i cs /\ c = total k cs.
Proof.
  intros HT ET. induction n as [|n IH]; intros i k c s'; cbn [fsck_buckets].
  - intros [= <- <-]. split; [done|]. by exists [].
  - rewrite (bind_ret_l _ _ _ _ _ HT). unfold read_bucket. rewrite bind_assoc.
    rewrite (bind_ret_l _ _ _ _ _ (read_tbl_run s T tb ET)).
    destruct (buckets tb !! Z.to_nat i) as [b|] eqn:Hb; [|done].
    erewrite bind_ret_l by reflexivity. erewrite bind_ret_l by reflexivity.
    intros (x & s1 & R & R')%bind_Ret_inv.
    destruct (fsck_chain_sound _ _ _ _ _ _ _ _ _ R) as (-> & l & L & Hl & ->).
    destruct (Z.eqb_spec (count b) (counted 0 l)) as [Ec|]; [|done].
    destruct (IH _ _ _ _ R') as (-> & cs & <- & H & ->). split; [done|].
    exists (l :: cs). split; [done|]. split; [|done]. split; [|done]. by exists b.
Qed.

Lemma fsck_buckets_ends s T tb : head_tbl s = (Ret T, s) -> tables s !! T = Some tb ->
  forall n i k, (fsck_buckets n i k s).1 <> Blocked.
Proof.
  intros HT ET. induction n as [|n IH]; intros i k; cbn [fsck_buckets]; [done|].
  rewrite (bind_ret_l _ _ _ _ _ HT). unfold read_bucket. rewrite bind_assoc.
  rewrite (bind_ret_l _ _ _ _ _ (read_tbl_run s T tb ET)).
  destruct (buckets tb !! Z.to_nat i) as [b|]; [|done].
  erewrite bind_ret_l by reflexivity. erewrite bind_ret_l by reflexivity.
  pose proof (fsck_chain_ends hh_prev hh_next (S (size (elems s))) [] (hh_head b) 0 s I) as E.
  unfold bind at 1. destruct (fsck_chain _ _ _ _ _ _ s) as [[c| | | | |] s1] eqn:R; try done;
    [|by exfalso; apply E; [cbn; lia|]].
  destruct (fsck_chain_sound _ _ _ _ _ _ _ _ _ R) as (-> & _).
  destruct (count b =? c); [apply IH|done].
Qed.

Lemma counted_0 l : counted 0 l = u32 (Z.of_nat (length l)).
Proof. by destruct l. Qed.

Lemma total_concat cs : forall k, u32 k = k ->
  total k cs = u32 (k + Z.of_nat (length (concat cs))).
Proof.
  induction cs as [|c cs IH]; intros k Hk; cbn [total concat]; [by rewrite Z.add_0_r|].
  rewrite IH by apply uwrap_uwrap. rewrite counted_0, length_app. unfold u32, uwrap.
  rewrite Z.add_mod_idemp_l by lia.
  replace (k + Z.of_nat (length c) mod 2 ^ 32 + Z.of_nat (length (concat cs)))
    with (Z.of_nat (length c) mod 2 ^ 32 + (k + Z.of_nat (length (concat cs)))) by lia.
  rewrite Z.add_mod_idemp_l by lia. f_equal. lia.
Qed.

(** A table that holds a list passes the check. *)
Lemma table_fsck_ok n s t : table_holds n s t -> Z.of_nat (length t) < 2 ^ 32 -> fsck_ok s.
Proof.
  intros H Hlen. pose proof H as (ND & L & Hh & R). unfold fsck_ok. rewrite Hh.
  destruct (decide (t = [])) as [->|Ht]; [done|].
  destruct (R Ht) as (T & tb & ET & M & (k & chain & Hk & En & El & F & _) & _ & Ei).
  assert (exists p, first t None = Some p) as [p Hp] by (destruct t as [|p ?]; [done|by exists p]).
  rewrite Hp. exists T, tb, (chains chain (buckets tb)), t.
  destruct (filled_chains (elems s) (buckets tb) k t chain) as (B & NC & EC); [lia|done|..].
  { intros q Hq. by apply (table_live n s t). }
  assert (length (concat (chains chain (buckets tb))) = length t) as Hcat.
  { apply Permutation_length, NoDup_Permutation; done. }
  split; [by apply (table_head_run n s t)|]. split; [done|].
  split; [unfold chains; by rewrite length_map, length_seq, En, (proj1 F)|].
  split; [|split; [|split; [done|split; [done|]]]].
  - assert (forall bs cs i, Forall2 (bucket_holds (elems s)) bs cs -> 0 <= i ->
      (forall j b, bs !! j = Some b -> buckets tb !! (Z.to_nat i + j)%nat = Some b) ->
      (forall c, c ∈ cs -> Z.of_nat (length c) < 2 ^ 32) -> buckets_ok s tb i cs) as E.
    { clear. intros bs cs i F2. revert i. induction F2 as [|b c bs cs (B1 & B2 & _ & B3) _ IH];
        intros i Hi Hb Hc; [done|]. split.
      - exists b. split; [rewrite <- (Nat.add_0_r (Z.to_nat i)); by apply Hb|].
        split; [done|]. split; [done|]. rewrite B2, counted_0. symmetry. apply u32_small.
        specialize (Hc c ltac:(by left)). lia.
      - apply IH; [lia| |intros; apply Hc; by right]. intros j b' Hj.
        replace (Z.to_nat (i + 1) + j)%nat with (Z.to_nat i + S j)%nat by lia. by apply Hb. }
    apply (E (buckets tb)); [done|lia|done|]. intros c Hc.
    assert (length c <= length t)%nat; [|lia]. rewrite <- Hcat. clear -Hc.
    induction (chains chain (buckets tb)) as [|c' cs IH]; [by apply not_elem_of_nil in Hc|].
    cbn [concat]. rewrite length_app. apply elem_of_cons in Hc as [->|Hc]; [lia|].
    specialize (IH Hc). lia.
  - rewrite total_concat by done. rewrite Hcat, Ei. symmetry. apply u32_small. lia.
  - rewrite Ei, counted_0. symmetry. apply u32_small. lia.
Qed.

(** ** Properties *)

(** C37: Sorting.  [HASH_SRT] with a comparison that is an order ends with a table
    that holds the same elements, in order, those that compare equal as they
    were; the buckets still find every element, and what the elements hold is
    as it was. *)
Theorem hash_sort_sorts n s t cmp :
  table_holds n s t -> Z.of_nat (length t) <= 2 ^ 30 ->
  Total (fun a b => cmp a b <= 0) -> Transitive (fun a b => cmp a b <= 0) ->
  exists t' s', HASH_SRT cmp s = (Ret tt, s') /\ table_holds n s' t' /\
    sorted_version (cmp_at (field <$> elems s) cmp) t t' /\
    field <$> elems s' = field <$> elems s.
Proof. intros H HL T1 T2. by apply (HASH_SRT_run n s t cmp). Qed.

(** Replacing.  In a table whose keys are distinct, [HASH_REPLACE] of an
    element takes out the element that has its key, if there is one, and answers
    it; the new element comes last, and the keys are still distinct. *)
Theorem hash_replace_replaces n s t p e :
  table_holds n s t -> table_room s t -> keys_distinct n (elems s) t ->
  elems s !! p = Some e -> 0 <= n <= Z.of_nat (length (field e)) ->
  exists o s', HASH_REPLACE n p s = (Ret o, s') /\
    lookup_result n (elems s) t (take (Z.to_nat n) (field e)) o /\
    table_holds n s' (kept o t ++ [p]) /\ keys_distinct n (elems s') (kept o t ++ [p]) /\
    field <$> elems s' = field <$> elems s.
Proof.
  intros H Room K He Hn. unfold HASH_REPLACE.
  rewrite (bind_ret_l _ _ _ _ _ (read_key_run s p n e He ltac:(lia))).
  set (k := take (Z.to_nat n) (field e)).
  destruct (HASH_FIND_run n s t k H) as (o & Rf & Ho).
  { unfold k. rewrite length_take. lia. }
  rewrite (bind_ret_l _ _ _ _ _ Rf).
  assert (key_is n (elems s) p k) as Hpk by by exists e.
  destruct (drop_replaced n s t o H Room) as (s1 & R1 & H1 & Room1 & F1).
  { intros q ->. apply Ho. }
  rewrite (bind_ret_l _ _ _ _ _ R1).
  destruct (live_field _ _ p e F1 He) as (e1 & He1 & Fe1).
  assert (forall q, q ∈ kept o t -> q ∈ t /\ ~ key_is n (elems s) q k) as Hkept.
  { intros q Hq. destruct o as [r|]; cbn [kept] in Hq; [|by split; [|by apply Ho]].
    apply list_elem_of_filter in Hq as [Hqr Hq]. split; [done|]. intros Hqk. apply Hqr.
    destruct Ho as [Hr Hrk]. by apply (K q r k). }
  assert (p ∉ kept o t) as Hp by (intros Hp; by apply (Hkept p Hp)).
  destruct (HASH_ADD_run n s1 (kept o t) p e1 H1 Room1 Hp He1) as (s2 & R2 & H2 & F2 & _).
  { rewrite Fe1. lia. }
  rewrite (bind_ret_l _ _ _ _ _ R2). exists o, s2. assert (field <$> elems s2 = field <$> elems s) as F
    by by rewrite F2.
  split_and!; try done. intros a b x Ha Hb Hka Hkb.
  apply (key_is_ext n (elems s2) (elems s)) in Hka, Hkb; try done.
  apply elem_of_app in Ha as [Ha| ->%list_elem_of_singleton];
    apply elem_of_app in Hb as [Hb| ->%list_elem_of_singleton]; [| | |done].
  - destruct (Hkept a Ha) as [Ha' _], (Hkept b Hb) as [Hb' _]. by apply (K a b x).
  - assert (x = k) as -> by by destruct Hkb as (e' & ? & <-); simplify_eq.
    by destruct (Hkept a Ha) as [_ []].
  - assert (x = k) as -> by by destruct Hka as (e' & ? & <-); simplify_eq.
    by destruct (Hkept b Hb) as [_ []].
Qed.

(** Reading the table of [head] answers it, or a pointer is bad. *)
Lemma head_tbl_cases s : (exists T, head_tbl s = (Ret T, s)) \/ head_tbl s = (Undefined, s).
Proof.
  unfold head_tbl, bind, gets, deref, read_hh. destruct (head_ptr s) as [p|]; cbn; [|by right].
  destruct (elems s !! p) as [e|]; cbn; [|by right].
  destruct (tbl (hh e)) as [T|]; [left; by exists T|by right].
Qed.

Lemma fsck_accepts s : fsck_ok s -> HASH_FSCK s = (Ret tt, s).
Proof.
  unfold HASH_FSCK, fsck_ok. erewrite bind_ret_l by reflexivity.
  destruct (head_ptr s) as [p|]; [|done].
  intros (T & tb & cs & t & HT & ET & Hl & HB & Ec & Hp & L & Et).
  rewrite (bind_ret_l _ _ _ _ _ HT), (bind_ret_l _ _ _ _ _ (read_tbl_run s T tb ET)).
  rewrite (bind_ret_l _ _ _ _ _ (fsck_buckets_accepts s T tb HT ET cs _ 0 0 Hl HB)).
  rewrite Ec, Z.eqb_refl. erewrite bind_ret_l by reflexivity. rewrite <- Hp.
  erewrite bind_ret_l.
  2:{ apply (fsck_chain_accepts prev next s t); [exact L|].
      enough (length t <= size (elems s))%nat by lia. apply live_length.
      - by apply (links_NoDup _ _ None L).
      - intros q Hq. by apply (links_live _ _ _ _ _ L). }
  by rewrite <- Ec, Et, Z.eqb_refl.
Qed.

Lemma fsck_rejects s : HASH_FSCK s = (Ret tt, s) -> fsck_ok s.
Proof.
  unfold HASH_FSCK, fsck_ok. erewrite bind_ret_l by reflexivity.
  destruct (head_ptr s) as [p|]; [|done].
  destruct (head_tbl_cases s) as [[T HT]|HT]; [|unfold bind at 1; by rewrite HT].
  rewrite (bind_ret_l _ _ _ _ _ HT). intros (tb & s1 & R1 & R)%bind_Ret_inv.
  unfold read_tbl in R1. destruct (tables s !! T) as [tb'|] eqn:ET; [|done].
  injection R1 as -> ->. apply bind_Ret_inv in R as (c & s2 & R2 & R).
  destruct (fsck_buckets_sound s1 T tb HT ET _ _ _ _ _ R2) as (-> & cs & Hl & HB & ->).
  destruct (Z.eqb_spec (total 0 cs) (num_items tb)) as [Ec|]; [|done].
  erewrite bind_ret_l in R by reflexivity. apply bind_Ret_inv in R as (c & s2 & R3 & R).
  destruct (fsck_chain_sound _ _ _ _ _ _ _ _ _ R3) as (-> & t & L & Ht & ->).
  destruct (Z.eqb_spec (counted 0 t) (num_items tb)) as [Et|]; [|done].
  exists T, tb, cs, t. split_and!; try done.
Qed.

Lemma fsck_ends s : (HASH_FSCK s).1 <> Blocked.
Proof.
  unfold HASH_FSCK. erewrite bind_ret_l by reflexivity.
  destruct (head_ptr s) as [p|]; [|done].
  destruct (head_tbl_cases s) as [[T HT]|HT]; [|unfold bind at 1; by rewrite HT].
  rewrite (bind_ret_l _ _ _ _ _ HT). unfold bind at 1, read_tbl.
  destruct (tables s !! T) as [tb|] eqn:ET; [|done]. cbn [deref ret].
  unfold bind at 1. pose proof (fsck_buckets_ends s T tb HT ET (Z.to_nat (num_buckets tb)) 0 0) as E.
  destruct (fsck_buckets _ 0 0 s) as [[c| | | | |] s1] eqn:R; try done.
  destruct (fsck_buckets_sound s T tb HT ET _ _ _ _ _ R) as (-> & _).
  destruct (c =? num_items tb); [|done]. erewrite bind_ret_l by reflexivity.
  pose proof (fsck_chain_ends prev next (S (size (elems s))) [] (Some p) 0 s I) as E'.
  unfold bind at 1. destruct (fsck_chain _ _ _ _ _ _ s) as [[x| | | | |] s1]; try done;
    [|by exfalso; apply E'; [cbn; lia|]].
  by destruct (x =? num_items tb).
Qed.

(** C38: Checking.  [HASH_FSCK] ends on every heap, also where chains run in
    circles, and accepts exactly the tables whose chains and whose list in
    application order agree in both directions and with the counts; a table that
    the operations have built is one. *)
Theorem hash_fsck_exact s :
  (HASH_FSCK s = (Ret tt, s) <-> fsck_ok s) /\ (HASH_FSCK s).1 <> Blocked /\
  (forall n t, table_holds n s t -> Z.of_nat (length t) < 2 ^ 32 -> fsck_ok s).
Proof.
  split; [split; [apply fsck_rejects|apply fsck_accepts]|]. split; [apply fsck_ends|].
  intros n t. apply table_fsck_ok.
Qed.

End Tools.

Section Example_tools.

(** A comparison of elements by the first byte of their keys. *)
Definition by_first_byte (a b : bytes) : Z := key_byte a 0 - key_byte b 0.

#[local] Instance by_first_byte_total : Total (fun a b => by_first_byte b a <= 0).
Proof. intros a b. unfold by_first_byte. lia. Qed.

#[local] Instance by_first_byte_transitive : Transitive (fun a b => by_first_byte b a <= 0).
Proof. intros a b c. unfold by_first_byte. lia. Qed.

(** The table of the elements 1 and 2, sorted the other way round. *)
Lemma hash_sort_sorts_witness :
  exists t' s', HASH_SRT (fun a b => by_first_byte b a) example_hash = (Ret tt, s') /\
    table_holds 2 s' t' /\
    sorted_version (cmp_at (field <$> elems example_hash) (fun a b => by_first_byte b a))
      [1; 2]%positive t' /\
    field <$> elems s' = field <$> elems example_hash.
Proof.
  apply (hash_sort_sorts 2 example_hash [1; 2]%positive (fun a b => by_first_byte b a)).
  - apply example_hash_holds.
  - by vm_compute.
  - apply _.
  - apply _.
Defined.

Lemma example_fields : field <$> elems example_hash = field <$> example_elems.
Proof. by vm_compute. Qed.

Lemma example_keys_distinct_in : keys_distinct 2 (elems example_hash) [1; 2]%positive.
Proof.
  assert (forall p k, p ∈ [1; 2]%positive -> key_is 2 (elems example_hash) p k ->
    example_elems !! p = Some (example_elem (if decide (p = 1%positive) then Init.Byte.x01 else Init.Byte.x02)) /\
    k = field (example_elem (if decide (p = 1%positive) then Init.Byte.x01 else Init.Byte.x02))) as E.
  { intros p k Hp Hk. apply (key_is_ext 2 _ example_elems) in Hk as (e & He & <-);
      [|by rewrite example_fields].
    apply elem_of_cons in Hp as [->|Hp]; [cbn in He |- *; by injection He as <-|].
    apply list_elem_of_singleton in Hp as ->. cbn in He |- *. by injection He as <-. }
  intros p q k Hp Hq Hpk Hqk. destruct (E p k Hp Hpk) as [_ ->], (E q _ Hq Hqk) as [_ Eq].
  repeat case_decide; subst; try done.
  apply elem_of_cons in Hp as [->|Hp]; [done|]. apply elem_of_cons in Hq as [->|Hq]; [done|].
  apply list_elem_of_singleton in Hp as ->. by apply list_elem_of_singleton in Hq as ->.
Qed.

(** The element 1 takes its own place, at the end. *)
Lemma hash_replace_replaces_witness :
  exists o s', HASH_REPLACE 2 1%positive example_hash = (Ret o, s') /\
    lookup_result 2 (elems example_hash) [1; 2]%positive [Init.Byte.x01; Init.Byte.x01] o /\
    table_holds 2 s' (kept o [1; 2]%positive ++ [1%positive]).
Proof.
  destruct (live_field example_elems (elems example_hash) 1%positive (example_elem Init.Byte.x01)
    example_fields eq_refl) as (e & He & Ef).
  destruct (hash_replace_replaces 2 example_hash [1; 2]%positive 1%positive e)
    as (o & s' & R & Ho & H & _).
  - apply example_hash_holds.
  - apply table_room_small. cbn. lia.
  - apply example_keys_distinct_in.
  - exact He.
  - rewrite Ef. cbn. lia.
  - exists o, s'. rewrite Ef in Ho. split; [exact R|]. split; [exact Ho|exact H].
Defined.

Lemma hash_fsck_exact_witness : HASH_FSCK example_hash = (Ret tt, example_hash).
Proof.
  destruct (hash_fsck_exact example_hash) as ([_ A] & _ & C).
  apply A, (C 2 [1; 2]%positive); [apply example_hash_holds|by vm_compute].
Defined.

End Example_tools.
