(* ===== verification/HashFunctions.v ===== *)
(** * The other hash functions (src/uthash.h, 354-591)

    The functions that [HASH_FUNCTION] can name instead of [HASH_JEN], on the
    bytes of a key; [UTHash] and [Table] hold for each of them.  The last line
    of each, [bkt = hashv & (num_bkts-1)], is [HASH_TO_BKT].

    [HASH_MUR] reads the key by words of four bytes.  Where the processor
    cannot read a word at any address the words are put together from aligned
    ones ([MUR_GETBLOCK]); its last step multiplies a 32-bit value with a
    constant of type [long]. *)

From S2P Require Export UTHash.

(** A byte of a key of type [char], which is signed. *)
Definition key_char (b : Init.Byte.byte) : Z := swrap 8 (byte.unsigned b).

(** [HASH_BER] (354-362) *)
Definition HASH_BER (k : bytes) : Z :=
  foldl (fun h b => u32 (u32 (h * 33) + key_char b)) 0 k.

(** [HASH_SAX] (367-375) *)
Definition HASH_SAX (k : bytes) : Z :=
  foldl (fun h b =>
    Z.lxor h (u32 (u32 (u32 (Z.shiftl h 5) + Z.shiftr h 2) + key_char b))) 0 k.

(** [HASH_FNV] (377-385); the [char] is converted to [unsigned]. *)
Definition HASH_FNV (k : bytes) : Z :=
  foldl (fun h b => Z.lxor (u32 (h * 16777619)) (u32 (key_char b))) 2166136261 k.

(** [HASH_OAT] (387-401) *)
Definition HASH_OAT (k : bytes) : Z :=
  let h := foldl (fun h b =>
    let h := u32 (h + key_char b) in
    let h := u32 (h + u32 (Z.shiftl h 10)) in
    Z.lxor h (Z.shiftr h 6)) 0 k in
  let h := u32 (h + u32 (Z.shiftl h 3)) in
  let h := Z.lxor h (Z.shiftr h 11) in
  u32 (h + u32 (Z.shiftl h 15)).

(** ** Paul Hsieh's function (457-510) *)

Definition get16bits (k : bytes) (i : nat) : Z :=
  Z.shiftl (key_byte k (i + 1)) 8 + key_byte k i.

(** The main loop, [len] passes of four bytes each. *)
Fixpoint sfh_loop (len : nat) (k : bytes) (hashv : Z) : Z * bytes :=
  match len with
  | O => (hashv, k)
  | S len =>
      let h := u32 (hashv + get16bits k 0) in
      let tmp := Z.lxor (u32 (Z.shiftl (get16bits k 2) 11)) h in
      let h := Z.lxor (u32 (Z.shiftl h 16)) tmp in
      sfh_loop len (drop 4 k) (u32 (h + Z.shiftr h 11))
  end.

(** The bytes that are left. *)
Definition sfh_rest (rem : Z) (k : bytes) (h : Z) : Z :=
  if rem =? 3 then
    let h := u32 (h + get16bits k 0) in
    let h := Z.lxor h (u32 (Z.shiftl h 16)) in
    let h := Z.lxor h (u32 (Z.shiftl (key_byte k 2) 18)) in
    u32 (h + Z.shiftr h 11)
  else if rem =? 2 then
    let h := u32 (h + get16bits k 0) in
    let h := Z.lxor h (u32 (Z.shiftl h 11)) in
    u32 (h + Z.shiftr h 17)
  else if rem =? 1 then
    let h := u32 (h + key_byte k 0) in
    let h := Z.lxor h (u32 (Z.shiftl h 10)) in
    u32 (h + Z.shiftr h 1)
  else h.

Definition HASH_SFH (k : bytes) : Z :=
  let keylen := Z.of_nat (length k) in
  let '(h, k) := sfh_loop (Z.to_nat (Z.shiftr keylen 2)) k 0xcafebabe in
  let h := sfh_rest (Z.land keylen 3) k h in
  let h := Z.lxor h (u32 (Z.shiftl h 3)) in
  let h := u32 (h + Z.shiftr h 5) in
  let h := Z.lxor h (u32 (Z.shiftl h 4)) in
  let h := u32 (h + Z.shiftr h 17) in
  let h := Z.lxor h (u32 (Z.shiftl h 25)) in
  u32 (h + Z.shiftr h 6).

(** ** MurmurHash (512-591) *)

(** [MUR_GETBLOCK] on processors that only read aligned words (525-542), of
    little endian: [word] reads the word at an aligned address.  [p] points to
    words of four bytes, and where it is not aligned [i] is not looked at. *)
Section Unaligned.
Context (word : Z -> Z).

Definition WP (p : Z) : Z := Z.ldiff p 3.

Definition MUR_THREE_ONE (p : Z) : Z :=
  Z.lor (Z.shiftr (Z.land (word (WP p)) 0xffffff00) 8)
        (u32 (Z.shiftl (Z.land (word (WP p + 4)) 0x000000ff) 24)).
Definition MUR_TWO_TWO (p : Z) : Z :=
  Z.lor (Z.shiftr (Z.land (word (WP p)) 0xffff0000) 16)
        (u32 (Z.shiftl (Z.land (word (WP p + 4)) 0x0000ffff) 16)).
Definition MUR_ONE_THREE (p : Z) : Z :=
  Z.lor (Z.shiftr (Z.land (word (WP p)) 0xff000000) 24)
        (u32 (Z.shiftl (Z.land (word (WP p + 4)) 0x00ffffff) 8)).

Definition MUR_GETBLOCK (p i : Z) : Z :=
  if Z.land p 3 =? 0 then word (p + 4 * i)
  else if Z.land p 3 =? 1 then MUR_THREE_ONE p
  else if Z.land p 3 =? 2 then MUR_TWO_TWO p
  else MUR_ONE_THREE p.

End Unaligned.

Definition MUR_ROTL32 (x r : Z) : Z :=
  Z.lor (u32 (Z.shiftl x r)) (Z.shiftr x (32 - r)).

(** [_h *= 0xc2b2ae35l]: where [long] has 64 bits, the constant is signed, and
    a product that it does not hold is undefined; where it has 32, the constant
    is of type [unsigned long]. *)
Definition times_long `{ABI} (h c : Z) : option Z :=
  match abi with
  | ILP32 => Some (u32 (h * c))
  | LP64 => if h * c <? 2 ^ 63 then Some (u32 (h * c)) else None
  end.

(** [MUR_FMIX] (545-552) *)
Definition MUR_FMIX `{ABI} (h : Z) : option Z :=
  let h := Z.lxor h (Z.shiftr h 16) in
  let h := u32 (h * 0x85ebca6b) in
  let h := Z.lxor h (Z.shiftr h 13) in
  h ← times_long h 0xc2b2ae35;
  Some (Z.lxor h (Z.shiftr h 16)).

(** The loop over the blocks, and the whole function: [block] is
    [MUR_GETBLOCK(_mur_blocks, _)] of the processor, [_mur_blocks] pointing to
    the end of the blocks. *)
Section Murmur.
Context `{ABI} (block : Z -> Z).

Fixpoint mur_blocks (n : nat) (h1 : Z) : Z :=
  match n with
  | O => h1
  | S n' =>
      let k1 := block (- Z.of_nat n) in
      let k1 := u32 (k1 * 0xcc9e2d51) in
      let k1 := MUR_ROTL32 k1 15 in
      let k1 := u32 (k1 * 0x1b873593) in
      let h1 := Z.lxor h1 k1 in
      let h1 := MUR_ROTL32 h1 13 in
      mur_blocks n' (u32 (h1 * 5 + 0xe6546b64))
  end.

(** The bytes after the blocks. *)
Definition mur_tail (rem : Z) (tail : bytes) (h1 : Z) : Z :=
  let k1 := if rem =? 3 then u32 (Z.shiftl (key_byte tail 2) 16) else 0 in
  let k1 := if 2 <=? rem then Z.lxor k1 (u32 (Z.shiftl (key_byte tail 1) 8)) else k1 in
  if 1 <=? rem then
    let k1 := Z.lxor k1 (key_byte tail 0) in
    let k1 := u32 (k1 * 0xcc9e2d51) in
    let k1 := MUR_ROTL32 k1 15 in
    Z.lxor h1 (u32 (k1 * 0x1b873593))
  else h1.

Definition mur_hash (k : bytes) : option Z :=
  let nblocks := (length k / 4)%nat in
  let h1 := mur_blocks nblocks 0xf88D5353 in
  let keylen := Z.of_nat (length k) in
  let h1 := mur_tail (Z.land keylen 3) (drop (nblocks * 4) k) h1 in
  MUR_FMIX (Z.lxor h1 (u32 keylen)).

End Murmur.

(** On a processor of the Intel family: [p[i]]. *)
Definition p_i (k : bytes) (i : Z) : Z :=
  key_word k (Z.to_nat (4 * (Z.of_nat (length k / 4) + i))).

Definition HASH_MUR `{ABI} (k : bytes) : option Z := mur_hash (p_i k) k.

(** On one that does not read unaligned words, the key being at [key] in
    [mem]. *)
Definition memory := Z -> Init.Byte.byte.

Definition le_word (mem : memory) (a : Z) : Z :=
  byte.unsigned (mem a) + Z.shiftl (byte.unsigned (mem (a + 1))) 8
  + Z.shiftl (byte.unsigned (mem (a + 2))) 16 + Z.shiftl (byte.unsigned (mem (a + 3))) 24.

Definition bytes_at (mem : memory) (a : Z) (n : nat) : bytes :=
  (fun i => mem (a + Z.of_nat i)) <$> seq 0 n.

Definition HASH_MUR_aligned `{ABI} (mem : memory) (key : Z) (keylen : nat) : option Z :=
  mur_hash (MUR_GETBLOCK (le_word mem) (key + 4 * Z.of_nat (keylen / 4)))
           (bytes_at mem key keylen).

(** ** 32 bits *)

Definition word32 (z : Z) : Prop := 0 <= z < 2 ^ 32.

Lemma u32_word z : word32 (u32 z).
Proof. apply uwrap_range. lia. Qed.

Lemma word32_bits z : word32 z <-> 0 <= z /\ forall i, 32 <= i -> Z.testbit z i = false.
Proof.
  unfold word32. split.
  - intros [H1 H2]. split; [done|]. intros i Hi.
    rewrite <- (Z.mod_small z (2 ^ 32)), Z.mod_pow2_bits_high by lia. done.
  - intros [H1 H2]. split; [done|].
    assert (z = z mod 2 ^ 32) as ->; [|apply Z.mod_pos_bound; lia].
    apply Z.bits_inj'. intros i Hi. destruct (Z.lt_ge_cases i 32).
    + by rewrite Z.mod_pow2_bits_low.
    + by rewrite Z.mod_pow2_bits_high, H2 by lia.
Qed.

Lemma lxor_word a b : word32 a -> word32 b -> word32 (Z.lxor a b).
Proof.
  rewrite !word32_bits. intros [Ha Ia] [Hb Ib]. split; [by apply Z.lxor_nonneg|].
  intros i Hi. by rewrite Z.lxor_spec, Ia, Ib.
Qed.

Lemma lor_word a b : word32 a -> word32 b -> word32 (Z.lor a b).
Proof.
  rewrite !word32_bits. intros [Ha Ia] [Hb Ib]. split; [by apply Z.lor_nonneg|].
  intros i Hi. by rewrite Z.lor_spec, Ia, Ib.
Qed.

Lemma shiftr_word a n : 0 <= n -> word32 a -> word32 (Z.shiftr a n).
Proof.
  rewrite !word32_bits. intros Hn [Ha Ia]. split; [by apply Z.shiftr_nonneg|].
  intros i Hi. rewrite Z.shiftr_spec, Ia by lia. done.
Qed.

Lemma rotl_word x r : 0 <= r <= 32 -> word32 x -> word32 (MUR_ROTL32 x r).
Proof. intros Hr Hx. apply lor_word; [apply u32_word|by apply shiftr_word; [lia|]]. Qed.

Lemma small_word z : 0 <= z < 2 ^ 32 -> word32 z.
Proof. done. Qed.

Create HintDb words.
#[local] Hint Resolve u32_word lxor_word shiftr_word rotl_word lor_word : words.
#[local] Hint Extern 1 (word32 _) => (apply small_word; lia) : words.
#[local] Hint Extern 1 (_ <= _) => lia : words.
#[local] Hint Extern 1 (_ <= _ <= _) => lia : words.

Lemma foldl_word (step : Z -> Init.Byte.byte -> Z) k : forall h,
  (forall h b, word32 h -> word32 (step h b)) -> word32 h -> word32 (foldl step h k).
Proof. induction k as [|b k IH]; intros h H Hh; [done|]. cbn. by apply IH; [|apply H]. Qed.

Lemma sfh_loop_word len : forall k h, word32 h -> word32 (sfh_loop len k h).1.
Proof. induction len as [|len IH]; intros k h Hh; [done|]. cbn. apply IH. auto with words. Qed.

Lemma mur_blocks_word block n : forall h, word32 h -> word32 (mur_blocks block n h).
Proof. induction n as [|n IH]; intros h Hh; [done|]. cbn. apply IH. auto with words. Qed.

Lemma sfh_rest_word rem k h : word32 h -> word32 (sfh_rest rem k h).
Proof. intros Hh. unfold sfh_rest. repeat case_match; auto with words. Qed.

Lemma mur_tail_word rem tail h : word32 h -> word32 (mur_tail rem tail h).
Proof. intros Hh. unfold mur_tail. case_match; auto with words. Qed.

Lemma key_byte_word k i : word32 (key_byte k i).
Proof.
  unfold key_byte. case_match; [|apply small_word; lia].
  pose proof (byte.unsigned_range b) as Hb. apply small_word. lia.
Qed.

Lemma times_long_word `{ABI} h c h' : times_long h c = Some h' -> word32 h'.
Proof. unfold times_long. intros E. repeat case_match; simplify_eq; apply u32_word. Qed.

Lemma MUR_FMIX_word `{ABI} h h' : word32 h -> MUR_FMIX h = Some h' -> word32 h'.
Proof.
  unfold MUR_FMIX. cbv zeta. intros Hh E.
  destruct (times_long _ _) as [z|] eqn:Ez; simplify_eq/=.
  apply times_long_word in Ez. auto with words.
Qed.

Lemma mur_hash_word `{ABI} block k h : mur_hash block k = Some h -> word32 h.
Proof.
  apply MUR_FMIX_word, lxor_word; [|auto with words].
  apply mur_tail_word, mur_blocks_word, small_word. lia.
Qed.

Definition word32s (t : Z * Z * Z) : Prop := word32 t.1.1 /\ word32 t.1.2 /\ word32 t.2.

Lemma HASH_JEN_MIX_word t : word32s t -> word32s (HASH_JEN_MIX t).
Proof.
  destruct t as [[a b] c]. intros (Ha & Hb & Hc). unfold HASH_JEN_MIX. cbv zeta.
  repeat split; cbn [fst snd];
    repeat first [apply lxor_word|apply u32_word|apply shiftr_word; [lia|]].
Qed.

Lemma HASH_JEN_word k : word32 (HASH_JEN k).
Proof.
  unfold HASH_JEN. destruct (jen_blocks _ _ _) as [[[i j] h] k'].
  destruct (HASH_JEN_MIX _) as [[i' j'] h'] eqn:E.
  cut (word32s (i', j', h')); [by intros (_ & _ & H)|]. rewrite <- E.
  apply HASH_JEN_MIX_word. repeat split; apply u32_word.
Qed.

Lemma HASH_BER_word k : word32 (HASH_BER k).
Proof. apply foldl_word; [intros; apply u32_word|apply small_word; lia]. Qed.

Lemma HASH_SAX_word k : word32 (HASH_SAX k).
Proof. apply foldl_word; [auto with words|apply small_word; lia]. Qed.

Lemma HASH_FNV_word k : word32 (HASH_FNV k).
Proof. apply foldl_word; [auto with words|apply small_word; lia]. Qed.

Lemma HASH_OAT_word k : word32 (HASH_OAT k).
Proof. apply u32_word. Qed.

Lemma HASH_SFH_word k : word32 (HASH_SFH k).
Proof. unfold HASH_SFH. destruct (sfh_loop _ _ _). apply u32_word. Qed.

Lemma HASH_TO_BKT_range h n : 0 <= n -> 0 <= HASH_TO_BKT h (2 ^ n) < 2 ^ n.
Proof. intros Hn. rewrite HASH_TO_BKT_mod by done. apply Z.mod_pos_bound. lia. Qed.

(** ** The words of a key *)

Lemma lor_add a b n : 0 <= n -> 0 <= a < 2 ^ n -> Z.lor a (b * 2 ^ n) = a + b * 2 ^ n.
Proof.
  intros Hn Ha. rewrite <- Z.shiftl_mul_pow2 by done.
  rewrite Z.add_nocarry_lxor, Z.lxor_lor; try done.
  all: apply Z.bits_inj'; intros i Hi; rewrite Z.land_spec, Z.bits_0.
  all: destruct (Z.lt_ge_cases i n);
    [by rewrite Z.shiftl_spec_low, andb_false_r
    |by rewrite <- (Z.mod_small a (2 ^ n)), Z.mod_pow2_bits_high by lia].
Qed.

(** The upper bytes of a word, shifted down. *)
Lemma upper_bytes w n : 0 <= n <= 32 -> word32 w ->
  Z.shiftr (Z.land w (Z.shiftl (Z.ones (32 - n)) n)) n = w / 2 ^ n.
Proof.
  intros Hn Hw. rewrite Z.shiftr_land, Z.shiftr_shiftl_l, Z.sub_diag, Z.shiftl_0_r by lia.
  rewrite Z.land_ones, Z.shiftr_div_pow2 by lia. apply Z.mod_small.
  unfold word32 in Hw. split; [apply Z.div_pos; lia|].
  apply Z.div_lt_upper_bound; [lia|]. rewrite <- Z.pow_add_r by lia.
  replace (n + (32 - n)) with 32 by lia. lia.
Qed.

(** The lower bytes, shifted up. *)
Lemma lower_bytes w n : 0 <= n <= 32 ->
  u32 (Z.shiftl (Z.land w (Z.ones n)) (32 - n)) = (w mod 2 ^ n) * 2 ^ (32 - n).
Proof.
  intros Hn. rewrite Z.land_ones, Z.shiftl_mul_pow2 by lia. apply uwrap_small.
  pose proof (Z.mod_pos_bound w (2 ^ n)) as Hw.
  split; [nia|]. replace (2 ^ 32) with (2 ^ n * 2 ^ (32 - n)); [nia|].
  rewrite <- Z.pow_add_r by lia. f_equal. lia.
Qed.

Lemma two_words u v n : 0 <= n <= 32 -> word32 u ->
  Z.lor (Z.shiftr (Z.land u (Z.shiftl (Z.ones (32 - n)) n)) n)
        (u32 (Z.shiftl (Z.land v (Z.ones n)) (32 - n)))
  = u / 2 ^ n + (v mod 2 ^ n) * 2 ^ (32 - n).
Proof.
  intros Hn Hu. rewrite upper_bytes, lower_bytes, lor_add; try done; [lia|].
  unfold word32 in Hu. split; [apply Z.div_pos; lia|].
  apply Z.div_lt_upper_bound; [lia|]. rewrite <- Z.pow_add_r by lia.
  replace (n + (32 - n)) with 32 by lia. lia.
Qed.

Lemma byte_at (mem : memory) a : 0 <= byte.unsigned (mem a) < 2 ^ 8.
Proof. apply byte.unsigned_range. Qed.

Lemma le_word_eq mem a j : le_word mem (a + j) =
  byte.unsigned (mem (a + j)) + 2 ^ 8 * byte.unsigned (mem (a + (j + 1)))
  + 2 ^ 16 * byte.unsigned (mem (a + (j + 2))) + 2 ^ 24 * byte.unsigned (mem (a + (j + 3))).
Proof. unfold le_word. rewrite !Z.shiftl_mul_pow2, !Z.add_assoc by lia. lia. Qed.

Lemma le_word_word mem a : word32 (le_word mem a).
Proof.
  rewrite <- (Z.add_0_r a), le_word_eq. unfold word32.
  pose proof (byte_at mem (a + 0)). pose proof (byte_at mem (a + (0 + 1))).
  pose proof (byte_at mem (a + (0 + 2))). pose proof (byte_at mem (a + (0 + 3))). lia.
Qed.

(** A word that is not aligned, from the two that hold it. *)
Lemma le_word_halves (m : Z -> Z) j : 0 < j < 4 -> (forall i, 0 <= m i < 2 ^ 8) ->
  let w i := m i + 2 ^ 8 * m (i + 1) + 2 ^ 16 * m (i + 2) + 2 ^ 24 * m (i + 3) in
  w j = w 0 / 2 ^ (8 * j) + (w 4 mod 2 ^ (8 * j)) * 2 ^ (32 - 8 * j).
Proof.
  intros Hj Hm w. subst w. cbv beta.
  assert (j = 1 \/ j = 2 \/ j = 3) as [->|[->| ->]] by lia.
  all: repeat match goal with |- context [Z.add (Zpos ?x) (Zpos ?y)] =>
    let z := eval vm_compute in (Z.add (Zpos x) (Zpos y)) in
    change (Z.add (Zpos x) (Zpos y)) with z end; rewrite !Z.add_0_l.
  all: generalize (Hm 0) (Hm 1) (Hm 2) (Hm 3) (Hm 4) (Hm 5) (Hm 6) (Hm 7).
  all: clear Hm; intros; Z.div_mod_to_equations; lia.
Qed.

Lemma le_word_split mem a j : 0 < j < 4 ->
  le_word mem (a + j)
  = le_word mem a / 2 ^ (8 * j) + (le_word mem (a + 4) mod 2 ^ (8 * j)) * 2 ^ (32 - 8 * j).
Proof.
  intros Hj. rewrite <- (Z.add_0_r a) at 2. rewrite !le_word_eq.
  apply (le_word_halves (fun j => byte.unsigned (mem (a + j)))); [done|]. intros; apply byte_at.
Qed.

Lemma land_3 p : Z.land p 3 = p mod 4.
Proof. apply (Z.land_ones p 2). lia. Qed.

Lemma WP_eq p : WP p = p - p mod 4.
Proof.
  unfold WP. pose proof (Z.add_nocarry_lxor (Z.ldiff p 3) (Z.land p 3)) as H.
  rewrite <- land_3. cut (Z.ldiff p 3 + Z.land p 3 = p); [lia|]. rewrite H.
  all: apply Z.bits_inj'; intros i Hi;
    rewrite ?Z.lxor_spec, ?Z.land_spec, ?Z.ldiff_spec, ?Z.land_spec, ?Z.bits_0;
    by destruct (Z.testbit p i), (Z.testbit 3 i).
Qed.

(** [MUR_GETBLOCK] reads the four bytes at a pointer, whatever its alignment,
    but only an aligned pointer is moved by the index. *)
Lemma MUR_GETBLOCK_eq mem p i :
  MUR_GETBLOCK (le_word mem) p i = le_word mem (if p mod 4 =? 0 then p + 4 * i else p).
Proof.
  unfold MUR_GETBLOCK. rewrite !land_3. pose proof (Z.mod_pos_bound p 4).
  destruct (Z.eqb_spec (p mod 4) 0) as [|Hp]; [done|].
  assert (Hw : forall a, word32 (le_word mem a)) by apply le_word_word.
  transitivity (le_word mem (WP p + p mod 4)); [|f_equal; rewrite WP_eq; lia].
  rewrite le_word_split by lia.
  destruct (Z.eqb_spec (p mod 4) 1) as [->|]; [by apply (two_words _ _ 8)|].
  destruct (Z.eqb_spec (p mod 4) 2) as [->|]; [by apply (two_words _ _ 16)|].
  replace (p mod 4) with 3 by lia. by apply (two_words _ _ 24).
Qed.

Lemma mur_blocks_ext block block' n :
  (forall i, (0 < i <= n)%nat -> block (- Z.of_nat i) = block' (- Z.of_nat i)) ->
  forall h, mur_blocks block n h = mur_blocks block' n h.
Proof.
  induction n as [|n IH]; intros H h; [done|]. cbn [mur_blocks]. rewrite H by lia.
  apply IH. intros i Hi. apply H. lia.
Qed.

Lemma length_bytes_at mem a n : length (bytes_at mem a n) = n.
Proof. unfold bytes_at. by rewrite length_fmap, length_seq. Qed.

Lemma key_byte_at mem a n i : (i < n)%nat ->
  key_byte (bytes_at mem a n) i = byte.unsigned (mem (a + Z.of_nat i)).
Proof.
  intros Hi. unfold key_byte, bytes_at. rewrite list_lookup_fmap, lookup_seq_lt by done.
  done.
Qed.

Lemma key_word_at mem a n i : (i + 3 < n)%nat ->
  key_word (bytes_at mem a n) i = le_word mem (a + Z.of_nat i).
Proof.
  intros Hi. unfold key_word, le_word. rewrite !key_byte_at, !Nat2Z.inj_add by lia.
  by rewrite !Z.add_assoc.
Qed.

(** ** Properties *)

(** Two keys, as text. *)
Definition tap0 : bytes := le_split 4 0x30706174.
Definition abcdefgh : bytes := le_split 8 0x6867666564636261.

(** Every hash function yields a value of 32 bits, so that a table of
    [2 ^ n] buckets has the bucket it selects; [HASH_MUR] does where it is
    defined, and it is where [long] has 32 bits. *)
Theorem hash_functions_range k n : 0 <= n ->
  Forall (fun f => 0 <= f k < 2 ^ 32 /\ 0 <= HASH_TO_BKT (f k) (2 ^ n) < 2 ^ n)
    [HASH_JEN; HASH_BER; HASH_SAX; HASH_FNV; HASH_OAT; HASH_SFH]
  /\ (forall long h, @HASH_MUR long k = Some h ->
        0 <= h < 2 ^ 32 /\ 0 <= HASH_TO_BKT h (2 ^ n) < 2 ^ n)
  /\ (exists h, @HASH_MUR ILP32 k = Some h).
Proof.
  intros Hn. split; [|split].
  - rewrite !Forall_cons, Forall_nil.
    repeat (split; [split; [|by apply HASH_TO_BKT_range]|]); try done.
    all: [> apply HASH_JEN_word|apply HASH_BER_word|apply HASH_SAX_word|apply HASH_FNV_word
          |apply HASH_OAT_word|apply HASH_SFH_word].
  - intros long h E. split; [by apply mur_hash_word in E|by apply HASH_TO_BKT_range].
  - by eexists.
Qed.

Lemma hash_functions_range_witness :
  0 <= 5 /\ 0 <= HASH_TO_BKT (HASH_SFH tap0) 32 < 32.
Proof.
  split; [lia|]. destruct (hash_functions_range tap0 5 ltac:(lia)) as [H _].
  repeat (apply Forall_cons in H as [? H]); tauto.
Defined.

(** On a processor that reads aligned words only, [HASH_MUR] of a key at
    an aligned address is the function that reads words anywhere. *)
Theorem murmur_aligned_key `{ABI} mem key keylen : key mod 4 = 0 ->
  HASH_MUR_aligned mem key keylen = HASH_MUR (bytes_at mem key keylen).
Proof.
  intros Hk. unfold HASH_MUR_aligned, HASH_MUR, mur_hash. cbv zeta.
  rewrite length_bytes_at. erewrite mur_blocks_ext; [done|]. intros i Hi.
  assert ((keylen / 4 * 4 <= keylen)%nat) as Hl by (pose proof (Nat.div_mod_eq keylen 4); lia).
  rewrite MUR_GETBLOCK_eq. unfold p_i. rewrite length_bytes_at, key_word_at by lia.
  replace ((key + 4 * Z.of_nat (keylen / 4)) mod 4 =? 0) with true; [f_equal; lia|].
  symmetry. apply Z.eqb_eq. rewrite Z.mul_comm, Z.mod_add; lia.
Qed.

(** A memory that repeats the same eight bytes. *)
Definition wallpaper (w : bytes) : memory :=
  fun a => default Init.Byte.x00 (w !! Z.to_nat (a mod 8)).

Lemma murmur_aligned_key_witness :
  4096 mod 4 = 0
  /\ @HASH_MUR_aligned ILP32 (wallpaper abcdefgh) 4096 8
     = @HASH_MUR ILP32 abcdefgh.
Proof.
  split; [done|].
  apply (@murmur_aligned_key ILP32 (wallpaper abcdefgh) 4096 8). done.
Defined.

(** At another address the same key has another value: the first block read
    is not the key's. *)
Example murmur_unaligned_key :
  let mem a := wallpaper abcdefgh (a - 1) in
  bytes_at mem 4097 8 = abcdefgh
  /\ @HASH_MUR_aligned ILP32 mem 4097 8 <> @HASH_MUR ILP32 abcdefgh.
Proof. split; [by vm_compute|by vm_compute]. Qed.

(** Where [long] has 64 bits, the last product overflows for many keys. *)
Example murmur_overflows : @HASH_MUR LP64 tap0 = None.
Proof. by vm_compute. Qed.
