(* ===== verification/Scan.v ===== *)
(** * Text input of the C library

    What src/main.c (22-88) and src/proxy.c (48-73) use of it: [fgets], the
    [sscanf] directives %*s, %s, %hu, %u and %hhX, and [strtoul]; and the
    printing of numbers, against which they are verified.  A conversion whose
    result does not fit its object is undefined, as the C standard has it. *)

From S2P Require Export Env.
From Stdlib Require Strings.String.

#[local] Open Scope list_scope.

(** ** Characters *)

Definition code (b : Init.Byte.byte) : Z := byte.unsigned b.
Definition char (z : Z) : Init.Byte.byte := byte.of_Z z.
Definition str (s : String.string) : bytes := String.list_byte_of_string s.

Definition isspace (b : Init.Byte.byte) : bool :=
  (9 <=? code b) && (code b <=? 13) || (code b =? 32).

(** The value of a digit or letter; other characters are no digit in any
    base. *)
Definition digit_value (b : Init.Byte.byte) : Z :=
  let c := code b in
  if (48 <=? c) && (c <=? 57) then c - 48
  else if (65 <=? c) && (c <=? 90) then c - 55
  else if (97 <=? c) && (c <=? 122) then c - 87
  else 36.

Definition isdigit (base : Z) (b : Init.Byte.byte) : bool := digit_value b <? base.

(** The string in a character array: up to the first NUL. *)
Fixpoint cstr (s : bytes) : bytes :=
  match s with
  | [] => []
  | b :: s => if code b =? 0 then [] else b :: cstr s
  end.

(** [!strncmp(s, p, strlen(p))] *)
Fixpoint has_prefix (p s : bytes) : bool :=
  match p, s with
  | [], _ => true
  | b :: p, c :: s => (code b =? code c) && has_prefix p s
  | _ :: _, [] => false
  end.

(** ** Streams *)

(** A stream open for reading: what is left of it, and the indicator that
    [feof] tests. *)
Record FILE := Stream { data : bytes; at_eof : bool }.

(** At most [n] bytes, to the end of the line; whether the end of the file was
    met. *)
Fixpoint read_line (n : nat) (s : bytes) : bytes * bytes * bool :=
  match n, s with
  | O, _ => ([], s, false)
  | S _, [] => ([], [], true)
  | S n, b :: s =>
      if code b =? 10 then ([b], s, false)
      else let '(l, s, e) := read_line n s in (b :: l, s, e)
  end.

(** [fgets(buf, n, f)]: [None] is [NULL]. *)
Definition fgets (n : nat) (f : FILE) : option bytes * FILE :=
  let '(l, s, e) := read_line (n - 1) (data f) in
  (match l with [] => None | _ => Some l end, Stream s (at_eof f || e)).

(** ** Directives *)

Fixpoint skip_space (s : bytes) : bytes :=
  match s with
  | b :: t => if isspace b then skip_space t else s
  | [] => []
  end.

(** The longest prefix without white space. *)
Fixpoint span_word (s : bytes) : bytes * bytes :=
  match s with
  | b :: t => if isspace b then ([], s) else let '(w, r) := span_word t in (b :: w, r)
  | [] => ([], [])
  end.

(** %s: the word and what follows it, or a failure. *)
Definition scan_word (s : bytes) : option (bytes * bytes) :=
  match span_word (skip_space s) with
  | ([], _) => None
  | (w, r) => Some (w, r)
  end.

(** %*s: what follows the word. *)
Definition scan_skip (s : bytes) : option bytes := snd <$> scan_word s.

(** Digits, after those of which [acc] is the value. *)
Fixpoint digits (base acc : Z) (s : bytes) : Z * bytes :=
  match s with
  | b :: t => if isdigit base b then digits base (acc * base + digit_value b) t else (acc, s)
  | [] => (acc, [])
  end.

Definition numeral (base : Z) (s : bytes) : option (Z * bytes) :=
  match s with
  | b :: _ => if isdigit base b then Some (digits base 0 s) else None
  | [] => None
  end.

(** An optional sign: whether it is a minus, and what follows it. *)
Definition sign (s : bytes) : bool * bytes :=
  match s with
  | b :: t =>
      if code b =? 45 then (true, t) else if code b =? 43 then (false, t) else (false, s)
  | [] => (false, [])
  end.

(** An optional 0x or 0X before a hexadecimal numeral. *)
Definition hex_prefix (base : Z) (s : bytes) : bytes :=
  match s with
  | b :: c :: t =>
      if (base =? 16) && (code b =? 48) && ((code c =? 120) || (code c =? 88)) then t else s
  | _ => s
  end.

Section Numbers.
Context `{ABI}.

Definition ULONG_MAX : Z := 2 ^ long_bits - 1.

(** A numeral converted as by [strtoul]: its value and whether it overflows. *)
Definition to_ulong (minus : bool) (n : Z) : Z * bool :=
  if n <=? ULONG_MAX then (if minus then uwrap long_bits (- n) else n, false)
  else (ULONG_MAX, true).

(** %hu and %u ([base] 10), %hhX ([base] 16), into an object of [bits] bits:
    the value and what follows it, a failure, or undefined. *)
Definition scan_uint (bits base : Z) (s : bytes) : outcome (option (Z * bytes)) :=
  let '(minus, s) := sign (skip_space s) in
  match numeral base (hex_prefix base s) with
  | None => Ret None
  | Some (n, r) =>
      let '(v, overflow) := to_ulong minus n in
      if negb overflow && (v <? 2 ^ bits) then Ret (Some (v, r)) else Undefined
  end.

(** [strtoul(s, NULL, 10)], which sets [errno] when the number is too large. *)
Definition strtoul10 (s : bytes) : M env Z :=
  let '(minus, s) := sign (skip_space s) in
  match numeral 10 s with
  | None => ret 0
  | Some (n, _) =>
      let '(v, overflow) := to_ulong minus n in
      if overflow then modify (set_errno ERANGE) ;;; ret v else ret v
  end.

End Numbers.

(** ** Printing *)

Definition digit_char (d : Z) : Init.Byte.byte := char (if d <? 10 then 48 + d else 87 + d).

(** The digits of [n], before [acc]. *)
Fixpoint print_loop (fuel : nat) (base n : Z) (acc : bytes) : bytes :=
  match fuel with
  | O => acc
  | S fuel =>
      let acc := digit_char (n mod base) :: acc in
      if n <? base then acc else print_loop fuel base (n / base) acc
  end.

(** Twenty digits are enough for 64 bits. *)
Definition decimal (n : Z) : bytes := print_loop 20 10 n [].

(** Two hexadecimal digits, as in %02x. *)
Definition hex2 (b : Init.Byte.byte) : bytes :=
  [digit_char (code b / 16); digit_char (code b mod 16)].

(** ** Lemmas on characters *)

Definition blank (b : Init.Byte.byte) : bool := isspace b && negb (code b =? 10).

Definition newline : Init.Byte.byte := char 10.

(** White space inside of a line, and words. *)
Definition is_gap (g : bytes) : Prop := g <> [] /\ Forall (fun b => blank b = true) g.

Definition word_char (b : Init.Byte.byte) : bool := negb (isspace b) && negb (code b =? 0).

Definition is_word (w : bytes) : Prop := w <> [] /\ Forall (fun b => word_char b = true) w.

(** The end of a word or numeral. *)
Definition ends (stop : Init.Byte.byte -> bool) (s : bytes) : Prop :=
  match s with [] => True | b :: _ => stop b = true end.

(** A digit is what it stands for, and no white space, sign or NUL. *)
Lemma digit_char_spec d :
  0 <= d < 16 ->
  digit_value (digit_char d) = d /\ word_char (digit_char d) = true /\
  (code (digit_char d) =? 45) = false /\ (code (digit_char d) =? 43) = false /\
  (code (digit_char d) =? 120) = false /\ (code (digit_char d) =? 88) = false.
Proof.
  intros Hd.
  assert (d ∈ map Z.of_nat (seq 0 16)) as H.
  { apply list_elem_of_In, in_map_iff. exists (Z.to_nat d). split; [lia|]. apply in_seq. lia. }
  revert d H Hd. apply (Forall_forall (fun d => 0 <= d < 16 -> _)). repeat constructor.
Qed.

Lemma blank_space b : blank b = true -> isspace b = true /\ code b <> 10.
Proof. unfold blank. intros [H1 H2]%andb_true_iff. split; [done|]. by apply Z.eqb_neq, negb_true_iff. Qed.

Lemma word_char_not b : word_char b = true -> isspace b = false /\ code b <> 0 /\ code b <> 10.
Proof.
  unfold word_char. intros [H1%negb_true_iff H2%negb_true_iff%Z.eqb_neq]%andb_true_iff.
  split; [done|]. split; [done|]. intros E. unfold isspace in H1. by rewrite E in H1.
Qed.

Lemma blank_not_nul b : blank b = true -> code b <> 0.
Proof. intros [H _]%blank_space E. unfold isspace in H. by rewrite E in H. Qed.

(** ** Lemmas on strings *)

Lemma cstr_app s t :
  Forall (fun b => code b <> 0) s -> cstr (s ++ t) = s ++ cstr t.
Proof.
  induction 1 as [|b s Hb _ IH]; [done|]. cbn. rewrite (proj2 (Z.eqb_neq _ _)) by done. by rewrite IH.
Qed.

Lemma has_prefix_app p s : has_prefix p (p ++ s) = true.
Proof. induction p as [|b p IH]; [done|]. cbn. by rewrite Z.eqb_refl. Qed.

Lemma read_line_app l s : forall n,
  Forall (fun b => code b <> 10) l -> (length l < n)%nat ->
  read_line n (l ++ newline :: s) = (l ++ [newline], s, false).
Proof.
  induction l as [|b l IH]; intros n Hl Hn; (destruct n as [|n]; [lia|]); [done|].
  apply Forall_cons in Hl as [Hb Hl]. cbn [app read_line].
  rewrite (proj2 (Z.eqb_neq _ _)) by done. rewrite IH; [done|done|cbn in Hn; lia].
Qed.

Lemma fgets_app l s n :
  Forall (fun b => code b <> 10) l -> (S (length l) < n)%nat ->
  fgets n (Stream (l ++ newline :: s) false) = (Some (l ++ [newline]), Stream s false).
Proof.
  intros Hl Hn. unfold fgets. cbn [data at_eof]. rewrite read_line_app by (done || lia).
  by destruct l.
Qed.

(** [fgets] makes progress. *)
Lemma fgets_shorter n f l f' :
  fgets n f = (Some l, f') -> (length (data f') < length (data f))%nat.
Proof.
  unfold fgets. destruct (read_line (n - 1) (data f)) as [[l' s] e] eqn:E.
  assert (length (l' ++ s) = length (data f)) as H.
  { clear -E. revert l' s e E. generalize (data f) as t. induction (n - 1)%nat as [|m IH];
      intros t l' s e E; [by injection E as <- <- <-|].
    destruct t as [|b t]; cbn in E; [by injection E as <- <- <-|].
    destruct (code b =? 10); [by injection E as <- <- <-|].
    destruct (read_line m t) as [[l1 s1] e1] eqn:E1. injection E as <- <- <-.
    cbn. by rewrite (IH t l1 s1 e1 E1). }
  destruct l' as [|b l']; [done|]. intros [= <- <-]. cbn. rewrite length_app in H. cbn in H. lia.
Qed.

Lemma skip_space_app g s :
  Forall (fun b => blank b = true) g -> ends (fun b => negb (isspace b)) s ->
  skip_space (g ++ s) = s.
Proof.
  intros Hg Hs. induction Hg as [|b g [Hb _]%blank_space _ IH]; cbn.
  - destruct s as [|b s]; [done|]. cbn in *. by destruct (isspace b).
  - by rewrite Hb.
Qed.

Lemma span_word_app w s :
  Forall (fun b => word_char b = true) w -> ends isspace s -> span_word (w ++ s) = (w, s).
Proof.
  intros Hw Hs. induction Hw as [|b w (Hb & _)%word_char_not _ IH]; cbn.
  - destruct s as [|b s]; [done|]. cbn in *. by rewrite Hs.
  - by rewrite Hb, IH.
Qed.

Lemma gap_ends g s : is_gap g -> ends isspace (g ++ s).
Proof.
  intros [Hg H]. destruct H as [|b g [Hb _]%blank_space _]; [done|]. exact Hb.
Qed.

Lemma word_starts w s : is_word w -> ends (fun b => negb (isspace b)) (w ++ s).
Proof.
  intros [Hw H]. destruct H as [|b w (Hb & _)%word_char_not _]; [done|]. cbn. by rewrite Hb.
Qed.

(** A word after white space is scanned. *)
Lemma scan_word_app g w s :
  Forall (fun b => blank b = true) g -> is_word w -> ends isspace s ->
  scan_word (g ++ w ++ s) = Some (w, s).
Proof.
  intros Hg Hw Hs. unfold scan_word. rewrite skip_space_app by (done || by apply word_starts).
  destruct Hw as [Hne Hw]. rewrite span_word_app by done. by destruct w.
Qed.

(** ** Printing and scanning numbers *)

Lemma digits_print base s fuel : forall n acc,
  2 <= base <= 16 -> 0 <= n < base ^ Z.of_nat fuel -> (0 < fuel)%nat ->
  digits base 0 (print_loop fuel base n acc ++ s) = digits base n (acc ++ s).
Proof.
  induction fuel as [|fuel IH]; intros n acc Hb Hn Hf; [lia|]. cbn [print_loop].
  pose proof (Z.mod_pos_bound n base ltac:(lia)) as Hm.
  destruct (digit_char_spec (n mod base)) as (Hv & _); [lia|].
  assert (forall a, digits base a ((digit_char (n mod base) :: acc) ++ s) =
    digits base (a * base + n mod base) (acc ++ s)) as D.
  { intros a. cbn [app digits]. unfold isdigit. rewrite Hv.
    by rewrite (proj2 (Z.ltb_lt _ _)) by lia. }
  destruct (Z.ltb_spec n base) as [Hlt|Hge].
  - rewrite D. by rewrite Z.mod_small by lia.
  - rewrite Nat2Z.inj_succ, Z.pow_succ_r in Hn by lia.
    assert (0 < n / base) by (apply Z.div_str_pos; lia).
    assert (n / base < base ^ Z.of_nat fuel) by (apply Z.div_lt_upper_bound; lia).
    rewrite IH; [|done|lia|].
    + rewrite D. f_equal. rewrite (Z.div_mod n base) at 3 by lia. lia.
    + destruct fuel; [|lia]. cbn in *. lia.
Qed.

(** A printed numeral is a word of digits. *)
Lemma print_loop_digits base fuel : forall n acc,
  2 <= base <= 16 -> (0 < fuel)%nat ->
  exists d l, 0 <= d < base /\ print_loop fuel base n acc = digit_char d :: l ++ acc /\
    Forall (fun b => word_char b = true) l /\ (length l < fuel)%nat.
Proof.
  induction fuel as [|fuel IH]; intros n acc Hb Hf; [lia|]. cbn [print_loop].
  pose proof (Z.mod_pos_bound n base ltac:(lia)) as Hm.
  assert (exists d l, 0 <= d < base /\
    digit_char (n mod base) :: acc = digit_char d :: l ++ acc /\
    Forall (fun b => word_char b = true) l /\ (length l < S fuel)%nat) as H0.
  { exists (n mod base), []. split; [done|]. split; [done|]. split; [constructor|cbn; lia]. }
  destruct (n <? base); [done|]. destruct fuel as [|fuel]; [done|].
  destruct (IH (n / base) (digit_char (n mod base) :: acc)) as (d & l & Hd & -> & Hl & Len);
    [done|lia|]. exists d, (l ++ [digit_char (n mod base)]). split; [done|].
  split; [by rewrite <- app_assoc|]. split; [|rewrite length_app; cbn in *; lia].
  apply Forall_app. split; [done|]. constructor; [|done]. by apply digit_char_spec; lia.
Qed.

Lemma decimal_digits n :
  exists d l, 0 <= d < 10 /\ decimal n = digit_char d :: l /\
    Forall (fun b => word_char b = true) l /\ (length (decimal n) <= 20)%nat.
Proof.
  destruct (print_loop_digits 10 20 n []) as (d & l & Hd & E & Hl & Len); [lia..|].
  rewrite app_nil_r in E. exists d, l. split; [done|]. split; [done|]. split; [done|].
  unfold decimal. rewrite E. cbn. lia.
Qed.

Lemma decimal_word n : is_word (decimal n).
Proof.
  destruct (decimal_digits n) as (d & l & Hd & -> & Hl & _). split; [done|].
  constructor; [|done]. apply digit_char_spec. lia.
Qed.

Lemma numeral_decimal n s :
  0 <= n < 10 ^ 20 -> ends (fun b => negb (isdigit 10 b)) s ->
  numeral 10 (decimal n ++ s) = Some (n, s).
Proof.
  intros Hn Hs. pose proof (digits_print 10 s 20 n [] ltac:(lia) Hn ltac:(lia)) as D.
  unfold numeral. destruct (decimal_digits n) as (d & l & Hd & E & _ & _).
  change (print_loop 20 10 n []) with (decimal n) in D. rewrite D. rewrite E. cbn [app].
  destruct (digit_char_spec d) as (Hv & _); [lia|]. unfold isdigit at 1. rewrite Hv.
  rewrite (proj2 (Z.ltb_lt _ _)) by lia. destruct s as [|b s]; [done|]. cbn in *.
  by destruct (isdigit 10 b).
Qed.

Lemma sign_decimal n s : sign (decimal n ++ s) = (false, decimal n ++ s).
Proof.
  destruct (decimal_digits n) as (d & l & Hd & E & _ & _). rewrite E.
  destruct (digit_char_spec d) as (_ & _ & M & P & _); [lia|]. cbn [app sign]. by rewrite M, P.
Qed.

Section Number_lemmas.
Context `{ABI}.

Lemma ulong_big : 2 ^ 32 - 1 <= ULONG_MAX.
Proof.
  unfold ULONG_MAX, long_bits, long_size. destruct (_ : ABI); cbn; lia.
Qed.

(** A printed number is scanned. *)
Lemma scan_uint_decimal bits g n s :
  0 <= bits <= 32 -> Forall (fun b => blank b = true) g -> 0 <= n < 2 ^ bits ->
  ends (fun b => negb (isdigit 10 b)) s ->
  scan_uint bits 10 (g ++ decimal n ++ s) = Ret (Some (n, s)).
Proof.
  intros Hb Hg Hn Hs. unfold scan_uint.
  rewrite skip_space_app by (done || apply word_starts, decimal_word).
  assert (n < 2 ^ 32) by (pose proof (Z.pow_le_mono_r 2 bits 32); lia).
  rewrite sign_decimal. assert (forall t, hex_prefix 10 t = t) as -> by by intros [|? [|? ?]].
  rewrite numeral_decimal by (done || lia). pose proof ulong_big. unfold to_ulong.
  rewrite (proj2 (Z.leb_le _ _)) by lia. by rewrite (proj2 (Z.ltb_lt _ _)) by lia.
Qed.

(** A byte in hexadecimal is scanned, before what is no hexadecimal digit. *)
Lemma scan_hex2 b c s :
  isdigit 16 c = false ->
  scan_uint 8 16 (hex2 b ++ c :: s) = Ret (Some (code b, c :: s)).
Proof.
  intros Hc. pose proof (byte.unsigned_range b) as Hr. fold (code b) in Hr.
  pose proof (Z.mod_pos_bound (code b) 16 ltac:(lia)) as H2.
  assert (0 <= code b / 16 < 16) as H1 by (split; [apply Z.div_pos|apply Z.div_lt_upper_bound]; lia).
  destruct (digit_char_spec _ H1) as (V1 & W1 & M1 & P1 & _).
  destruct (digit_char_spec _ H2) as (V2 & _ & _ & _ & X2 & Y2).
  apply word_char_not in W1 as (W1 & _).
  unfold scan_uint, hex2. cbn [app skip_space]. rewrite W1. cbn [sign]. rewrite M1, P1.
  cbn [hex_prefix]. rewrite X2, Y2. rewrite andb_false_r. cbn [numeral]. unfold isdigit at 1.
  rewrite V1. rewrite (proj2 (Z.ltb_lt _ _)) by lia.
  cbn [digits]. unfold isdigit at 1 2. rewrite V1, V2, !(proj2 (Z.ltb_lt _ _)) by lia.
  cbn [digits]. rewrite Hc. pose proof ulong_big. unfold to_ulong.
  replace ((0 * 16 + code b / 16) * 16 + code b mod 16) with (code b)
    by (rewrite (Z.div_mod (code b) 16) at 1 by lia; lia).
  rewrite (proj2 (Z.leb_le _ _)) by lia. cbn. by rewrite (proj2 (Z.ltb_lt _ _)) by lia.
Qed.

Lemma digits_nonneg base s : forall a, 0 <= base -> 0 <= a -> 0 <= (digits base a s).1.
Proof.
  induction s as [|b s IH]; intros a Hb Ha; cbn; [done|].
  destruct (isdigit base b) eqn:Eb; [|done]. apply IH; [done|].
  assert (0 <= digit_value b); [|lia]. unfold digit_value.
  destruct (_ && _) eqn:E1; [lia|].
  destruct ((65 <=? code b) && (code b <=? 90)) eqn:E2; [lia|].
  destruct ((97 <=? code b) && (code b <=? 122)) eqn:E3; lia.
Qed.

Lemma numeral_nonneg base s n r : 0 <= base -> numeral base s = Some (n, r) -> 0 <= n.
Proof.
  intros Hb E. pose proof (digits_nonneg base s 0 Hb ltac:(lia)) as D. unfold numeral in E.
  destruct s as [|b s]; [done|]. destruct (isdigit base b); [|done].
  assert (digits base 0 (b :: s) = (n, r)) as E' by congruence. by rewrite E' in D.
Qed.

(** What [strtoul] gives is representable, and what it gives for a printed
    number that fits is that number. *)
Lemma strtoul10_range s w : exists v e, strtoul10 s w = (Ret v, e) /\ 0 <= v <= ULONG_MAX.
Proof.
  pose proof ulong_big. unfold strtoul10. destruct (sign (skip_space s)) as [minus t].
  destruct (numeral 10 t) as [[n r]|] eqn:E; [|exists 0, w; split; [done|lia]].
  assert (0 <= n) as Hn by (by apply (numeral_nonneg 10 t n r)).
  unfold to_ulong. destruct (Z.leb_spec n ULONG_MAX) as [Hle|Hgt].
  - destruct minus; eexists _, w; (split; [done|]); [|lia].
    pose proof (uwrap_range long_bits (- n)). unfold ULONG_MAX. pose proof long_bits_pos. lia.
  - eexists _, _. split; [done|]. lia.
Qed.

Lemma strtoul10_decimal n s w :
  0 <= n < 2 ^ 32 -> ends (fun b => negb (isdigit 10 b)) s ->
  strtoul10 (decimal n ++ s) w = (Ret n, w).
Proof.
  intros Hn Hs. unfold strtoul10. pose proof ulong_big.
  assert (skip_space (decimal n ++ s) = decimal n ++ s) as E.
  { apply (skip_space_app []); [constructor|]. apply word_starts, decimal_word. }
  rewrite E, sign_decimal, numeral_decimal by (done || lia). unfold to_ulong.
  by rewrite (proj2 (Z.leb_le _ _)) by lia.
Qed.

End Number_lemmas.
