(* ===== verification/RWLock.v ===== *)
(** * The writer-preferential readers-writers lock (src/proxy.c, 506-554)

    [readBegin], [readEnd], [writeBegin] and [writeEnd] are modelled one
    mutex operation or counter update at a time, so that any number of threads
    can be interleaved between any two of them.  [exec] is the executable
    semantics of one such operation, [step] the interleaving relation, and
    [run_until] runs one of the four functions alone, which is what the
    handlers of the other files use.

    The mutexes are default POSIX mutexes as Linux implements them: locking a
    held mutex blocks, and the unlock may be done by another thread than the
    lock (the last reader releases what the first one took). *)

From S2P Require Import Prelude.

(** The globals [readcount], [writecount] and the five mutexes
    (src/proxy.c, 11-16); a mutex is [true] while it is held. *)
Record lock_state := LockState {
  readcount : Z;
  writecount : Z;
  mutex1 : bool;
  mutex2 : bool;
  mutex3 : bool;
  r : bool;
  w : bool
}.

#[global] Instance lock_state_eq_dec : EqDecision lock_state.
Proof. solve_decision. Defined.

(** The initial state: zero-initialised counters, unlocked mutexes. *)
Definition lock_init : lock_state := LockState 0 0 false false false false false.

(** The program points of a thread; each is named after the operation the
    thread is about to execute. *)
Inductive pc :=
| Idle
(* readBegin *)
| RB_lock3 | RB_lockr | RB_lock1 | RB_inc | RB_lockw
| RB_unlock1 | RB_unlockr | RB_unlock3
(* between readBegin and readEnd *)
| Reading
(* readEnd *)
| RE_lock1 | RE_dec | RE_unlockw | RE_unlock1
(* writeBegin *)
| WB_lock2 | WB_inc | WB_lockr | WB_unlock2 | WB_lockw
(* between writeBegin and writeEnd *)
| Writing
(* writeEnd *)
| WE_unlockw | WE_lock2 | WE_dec | WE_unlockr | WE_unlock2.

#[global] Instance pc_eq_dec : EqDecision pc.
Proof. solve_decision. Defined.

Definition set_readcount (n : Z) (s : lock_state) : lock_state :=
  LockState n (writecount s) (mutex1 s) (mutex2 s) (mutex3 s) (r s) (w s).
Definition set_writecount (n : Z) (s : lock_state) : lock_state :=
  LockState (readcount s) n (mutex1 s) (mutex2 s) (mutex3 s) (r s) (w s).
Definition set_mutex1 (b : bool) (s : lock_state) : lock_state :=
  LockState (readcount s) (writecount s) b (mutex2 s) (mutex3 s) (r s) (w s).
Definition set_mutex2 (b : bool) (s : lock_state) : lock_state :=
  LockState (readcount s) (writecount s) (mutex1 s) b (mutex3 s) (r s) (w s).
Definition set_mutex3 (b : bool) (s : lock_state) : lock_state :=
  LockState (readcount s) (writecount s) (mutex1 s) (mutex2 s) b (r s) (w s).
Definition set_r (b : bool) (s : lock_state) : lock_state :=
  LockState (readcount s) (writecount s) (mutex1 s) (mutex2 s) (mutex3 s) b (w s).
Definition set_w (b : bool) (s : lock_state) : lock_state :=
  LockState (readcount s) (writecount s) (mutex1 s) (mutex2 s) (mutex3 s) (r s) b.

(** [pthread_mutex_lock]: blocks ([None]) while the mutex is held. *)
Definition mutex_lock (get : lock_state -> bool)
    (set : bool -> lock_state -> lock_state) (s : lock_state) (next : pc)
  : option (pc * lock_state) :=
  if get s then None else Some (next, set true s).

(** [pthread_mutex_unlock]. *)
Definition mutex_unlock (set : bool -> lock_state -> lock_state)
    (s : lock_state) (next : pc) : option (pc * lock_state) :=
  Some (next, set false s).

(** [readBegin]: one operation of lines 519-527. *)
Definition readBegin (p : pc) (s : lock_state) : option (pc * lock_state) :=
  match p with
  | RB_lock3 => mutex_lock mutex3 set_mutex3 s RB_lockr
  | RB_lockr => mutex_lock r set_r s RB_lock1
  | RB_lock1 => mutex_lock mutex1 set_mutex1 s RB_inc
  | RB_inc =>
      let n := readcount s + 1 in
      Some (if n =? 1 then RB_lockw else RB_unlock1, set_readcount n s)
  | RB_lockw => mutex_lock w set_w s RB_unlock1
  | RB_unlock1 => mutex_unlock set_mutex1 s RB_unlockr
  | RB_unlockr => mutex_unlock set_r s RB_unlock3
  | RB_unlock3 => mutex_unlock set_mutex3 s Reading
  | _ => None
  end.

(** [readEnd]: lines 531-535. *)
Definition readEnd (p : pc) (s : lock_state) : option (pc * lock_state) :=
  match p with
  | RE_lock1 => mutex_lock mutex1 set_mutex1 s RE_dec
  | RE_dec =>
      let n := readcount s - 1 in
      Some (if n =? 0 then RE_unlockw else RE_unlock1, set_readcount n s)
  | RE_unlockw => mutex_unlock set_w s RE_unlock1
  | RE_unlock1 => mutex_unlock set_mutex1 s Idle
  | _ => None
  end.

(** [writeBegin]: lines 539-544. *)
Definition writeBegin (p : pc) (s : lock_state) : option (pc * lock_state) :=
  match p with
  | WB_lock2 => mutex_lock mutex2 set_mutex2 s WB_inc
  | WB_inc =>
      let n := writecount s + 1 in
      Some (if n =? 1 then WB_lockr else WB_unlock2, set_writecount n s)
  | WB_lockr => mutex_lock r set_r s WB_unlock2
  | WB_unlock2 => mutex_unlock set_mutex2 s WB_lockw
  | WB_lockw => mutex_lock w set_w s Writing
  | _ => None
  end.

(** [writeEnd]: lines 548-553. *)
Definition writeEnd (p : pc) (s : lock_state) : option (pc * lock_state) :=
  match p with
  | WE_unlockw => mutex_unlock set_w s WE_lock2
  | WE_lock2 => mutex_lock mutex2 set_mutex2 s WE_dec
  | WE_dec =>
      let n := writecount s - 1 in
      Some (if n =? 0 then WE_unlockr else WE_unlock2, set_writecount n s)
  | WE_unlockr => mutex_unlock set_r s WE_unlock2
  | WE_unlock2 => mutex_unlock set_mutex2 s Idle
  | _ => None
  end.

Definition in_readBegin (p : pc) : bool :=
  match p with
  | RB_lock3 | RB_lockr | RB_lock1 | RB_inc | RB_lockw
  | RB_unlock1 | RB_unlockr | RB_unlock3 => true
  | _ => false
  end.
Definition in_readEnd (p : pc) : bool :=
  match p with RE_lock1 | RE_dec | RE_unlockw | RE_unlock1 => true | _ => false end.
Definition in_writeBegin (p : pc) : bool :=
  match p with
  | WB_lock2 | WB_inc | WB_lockr | WB_unlock2 | WB_lockw => true
  | _ => false
  end.

(** One operation of the function a thread is executing. *)
Definition exec (p : pc) (s : lock_state) : option (pc * lock_state) :=
  if in_readBegin p then readBegin p s
  else if in_readEnd p then readEnd p s
  else if in_writeBegin p then writeBegin p s
  else writeEnd p s.

(** Where a thread outside the four functions can go: an idle thread calls
    [readBegin] or [writeBegin], a thread inside its section calls the
    matching end. *)
Definition calls (p p' : pc) : bool :=
  match p, p' with
  | Idle, RB_lock3 | Idle, WB_lock2 | Reading, RE_lock1 | Writing, WE_unlockw => true
  | _, _ => false
  end.

(** A system: the shared variables and the program point of each thread. *)
Record sys := Sys { shared : lock_state; threads : list pc }.

Definition sys_init (n : nat) : sys := Sys lock_init (replicate n Idle).

Inductive step : sys -> sys -> Prop :=
| step_exec i p p' s s' ts :
    ts !! i = Some p ->
    exec p s = Some (p', s') ->
    step (Sys s ts) (Sys s' (<[i := p']> ts))
| step_call i p p' s ts :
    ts !! i = Some p ->
    calls p p' = true ->
    step (Sys s ts) (Sys s (<[i := p']> ts)).

(** An executable scheduler: each entry makes thread [i] execute its next
    operation, or call the function that starts at the given point. *)
Fixpoint schedule (l : list (nat * option pc)) (x : sys) : option sys :=
  match l with
  | [] => Some x
  | (i, c) :: l =>
      match threads x !! i, c with
      | Some p, None =>
          match exec p (shared x) with
          | Some (p', s') => schedule l (Sys s' (<[i := p']> (threads x)))
          | None => None
          end
      | Some p, Some p' =>
          if calls p p' then schedule l (Sys (shared x) (<[i := p']> (threads x)))
          else None
      | None, _ => None
      end
  end.

(** What the early [return]s between [writeBegin] and [writeEnd] do (in
    [remove_member], src/proxy.c 608-612, and in [remove_from_network],
    [shortest_path], [bfs] and [Dijkstra] of src/route.c): a thread leaves its
    write section without calling [writeEnd]. *)
Inductive abandon : sys -> sys -> Prop :=
| abandon_write i s ts :
    ts !! i = Some Writing ->
    abandon (Sys s ts) (Sys s (<[i := Idle]> ts)).

Definition reachable (n : nat) : sys -> Prop := rtc step (sys_init n).

(** How many threads are at program point [p]. *)
Definition at_pc (p : pc) (ts : list pc) : Z :=
  Z.of_nat (length (filter (fun q => q = p) ts)).

(** Run the function a thread has called until it leaves it, or [None] when
    it blocks with every other thread standing still. *)
Fixpoint run_until (stop : pc -> bool) (fuel : nat) (p : pc) (s : lock_state)
  : option lock_state * lock_state :=
  if stop p then (Some s, s)
  else match fuel with
  | O => (None, s)
  | S fuel =>
      match exec p s with
      | Some (p', s') => run_until stop fuel p' s'
      | None => (None, s)
      end
  end.

(** The four functions as operations of a single thread.  No function
    executes more than ten operations. *)
Definition call_lock (entry : pc) : M lock_state unit :=
  fun s =>
    match run_until (fun p => bool_decide (p = Reading \/ p = Writing \/ p = Idle))
            10 entry s with
    | (Some s', _) => (Ret tt, s')
    | (None, s') => (Blocked, s')
    end.

Definition read_begin : M lock_state unit := call_lock RB_lock3.
Definition read_end : M lock_state unit := call_lock RE_lock1.
Definition write_begin : M lock_state unit := call_lock WB_lock2.
Definition write_end : M lock_state unit := call_lock WE_unlockw.

(** ** The invariant

    [lock_inv k] accounts for every held mutex and every count by the program
    points of the threads, with [k] abandoned write sections.  [r] is held
    either by one reader passing through [readBegin] or by the writers as a
    group (from the first writer to the last), and [w] either by one writer
    or by the readers as a group. *)
Definition positive_count (n : Z) : Z := Z.b2z (0 <? n).

Definition mutex_inv (k : Z) (x : sys) : Prop :=
  let s := shared x in let c p := at_pc p (threads x) in
  Z.b2z (mutex1 s) =
    c RB_inc + c RB_lockw + c RB_unlock1 + c RE_dec + c RE_unlockw + c RE_unlock1
  /\ Z.b2z (mutex2 s) =
    c WB_inc + c WB_lockr + c WB_unlock2 + c WE_dec + c WE_unlockr + c WE_unlock2
  /\ Z.b2z (mutex3 s) =
    c RB_lockr + c RB_lock1 + c RB_inc + c RB_lockw + c RB_unlock1 + c RB_unlockr
    + c RB_unlock3
  /\ Z.b2z (r s) =
    c RB_lock1 + c RB_inc + c RB_lockw + c RB_unlock1 + c RB_unlockr
    + (positive_count (writecount s) - c WB_lockr + c WE_unlockr)
  /\ Z.b2z (w s) =
    c Writing + c WE_unlockw + k
    + (positive_count (readcount s) - c RB_lockw + c RE_unlockw).

Definition count_inv (k : Z) (x : sys) : Prop :=
  let s := shared x in let c p := at_pc p (threads x) in
  readcount s =
    c RB_lockw + c RB_unlock1 + c RB_unlockr + c RB_unlock3 + c Reading
    + c RE_lock1 + c RE_dec
  /\ writecount s =
    c WB_lockr + c WB_unlock2 + c WB_lockw + c Writing + c WE_unlockw
    + c WE_lock2 + c WE_dec + k
  /\ (c RB_lockw <= 0 \/ readcount s = 1)
  /\ (c RE_unlockw <= 0 \/ readcount s = 0)
  /\ (c WB_lockr <= 0 \/ writecount s = 1)
  /\ (c WE_unlockr <= 0 \/ writecount s = 0).

Definition lock_inv (k : Z) (x : sys) : Prop :=
  0 <= k /\ mutex_inv k x /\ count_inv k x.

(** ** Counting threads *)

Lemma at_pc_cons p q ts :
  at_pc p (q :: ts) = (if decide (q = p) then 1 else 0) + at_pc p ts.
Proof.
  unfold at_pc. rewrite filter_cons. destruct (decide (q = p)); simpl; lia.
Qed.

Lemma at_pc_nonneg p ts : 0 <= at_pc p ts.
Proof. unfold at_pc. lia. Qed.

Lemma at_pc_insert ts i p p' q :
  ts !! i = Some p ->
  at_pc q (<[i := p']> ts) =
    at_pc q ts - (if decide (p = q) then 1 else 0)
    + (if decide (p' = q) then 1 else 0).
Proof.
  revert i. induction ts as [|t ts IH]; intros [|i] H; simplify_eq/=.
  - rewrite !at_pc_cons. lia.
  - rewrite !at_pc_cons, (IH i H). lia.
Qed.

Lemma at_pc_lookup ts i p : ts !! i = Some p -> 1 <= at_pc p ts.
Proof.
  revert i. induction ts as [|t ts IH]; intros [|i] H; simplify_eq/=;
    rewrite at_pc_cons; pose proof (at_pc_nonneg p ts).
  - rewrite decide_True by done. lia.
  - specialize (IH i H). destruct (decide (t = p)); lia.
Qed.

Lemma at_pc_pos_lookup ts p : 0 < at_pc p ts -> exists i, ts !! i = Some p.
Proof.
  induction ts as [|t ts IH]; [by cbv|].
  rewrite at_pc_cons. destruct (decide (t = p)) as [->|Hn].
  - by exists 0%nat.
  - intros H. destruct IH as [i Hi]; [lia|]. by exists (S i).
Qed.

Lemma at_pc_replicate p n : p <> Idle -> at_pc p (replicate n Idle) = 0.
Proof.
  intros Hp. induction n as [|n IH]; [done|].
  simpl replicate. rewrite at_pc_cons, decide_False by congruence. lia.
Qed.

(** Every count is known to be non-negative. *)
Ltac pose_counts ts :=
  let pose_one p := pose proof (at_pc_nonneg p ts) in
  pose_one RB_lock3; pose_one RB_lockr; pose_one RB_lock1; pose_one RB_inc;
  pose_one RB_lockw; pose_one RB_unlock1; pose_one RB_unlockr;
  pose_one RB_unlock3; pose_one Reading; pose_one RE_lock1; pose_one RE_dec;
  pose_one RE_unlockw; pose_one RE_unlock1; pose_one WB_lock2;
  pose_one WB_inc; pose_one WB_lockr; pose_one WB_unlock2; pose_one WB_lockw;
  pose_one Writing; pose_one WE_unlockw; pose_one WE_lock2; pose_one WE_dec;
  pose_one WE_unlockr; pose_one WE_unlock2.

(** After a step of thread [i], express the new counts by the old ones. *)
Ltac update_counts H :=
  repeat rewrite (at_pc_insert _ _ _ _ _ H); simpl decide;
  repeat first
    [ rewrite decide_True by reflexivity
    | rewrite decide_False by discriminate ].

(** ** The invariant holds in every interleaving *)

Lemma lock_inv_init n : lock_inv 0 (sys_init n).
Proof.
  unfold lock_inv, mutex_inv, count_inv, sys_init; simpl.
  rewrite !at_pc_replicate by discriminate. unfold positive_count. simpl. lia.
Qed.

Lemma b2z_bound b : 0 <= Z.b2z b <= 1.
Proof. destruct b; simpl; lia. Qed.

(** Decide whether a counter is positive before calling [lia]. *)
Ltac solve_counts :=
  repeat match goal with
  | H : (_ =? _) = true |- _ => apply Z.eqb_eq in H
  | H : (_ =? _) = false |- _ => apply Z.eqb_neq in H
  | |- context [Z.b2z (0 <? ?n)] => destruct (Z.ltb_spec 0 n)
  | H : context [Z.b2z (0 <? ?n)] |- _ => destruct (Z.ltb_spec 0 n)
  end; cbn [Z.b2z] in *; repeat split; lia.

Lemma lock_inv_move k s s' ts i p p' :
  ts !! i = Some p ->
  (exec p s = Some (p', s') \/ (calls p p' = true /\ s' = s)) ->
  lock_inv k (Sys s ts) ->
  lock_inv k (Sys s' (<[i := p']> ts)).
Proof.
  intros Hi Hmove Hinv.
  pose proof (at_pc_lookup _ _ _ Hi) as Hpos.
  destruct s as [rc wc m1 m2 m3 r0 w0].
  pose proof (b2z_bound m1). pose proof (b2z_bound m2).
  pose proof (b2z_bound m3). pose proof (b2z_bound r0).
  pose proof (b2z_bound w0).
  unfold lock_inv, mutex_inv, count_inv, positive_count in *; simpl in *.
  pose_counts ts. destruct_and! Hinv.
  destruct Hmove as [Hex|[Hcall ->]].
  - destruct p; cbn in Hex; unfold mutex_lock, mutex_unlock in Hex;
      cbn in Hex; repeat case_match; simplify_eq; cbn;
      update_counts Hi; solve_counts.
  - destruct p, p'; try discriminate; cbn; update_counts Hi; solve_counts.
Qed.

Lemma lock_inv_step k x y : step x y -> lock_inv k x -> lock_inv k y.
Proof.
  intros [i p p' s s' ts Hi Hex|i p p' s ts Hi Hc] Hinv;
    eapply lock_inv_move; eauto.
Qed.

Lemma lock_inv_steps k x y : rtc step x y -> lock_inv k x -> lock_inv k y.
Proof. induction 1; eauto using lock_inv_step. Qed.

Lemma lock_inv_reachable n x : reachable n x -> lock_inv 0 x.
Proof. intros H. eapply lock_inv_steps; [exact H|apply lock_inv_init]. Qed.

(** Abandoning a write section turns the [w] the writer held into one that
    nobody will release. *)
Lemma lock_inv_abandon k x y :
  abandon x y -> lock_inv k x -> lock_inv (k + 1) y.
Proof.
  intros [i s ts Hi] (Hk & Hm & Hc).
  pose proof (at_pc_lookup _ _ _ Hi).
  unfold lock_inv, mutex_inv, count_inv in *; simpl in *.
  update_counts Hi. destruct_and?. repeat split; lia.
Qed.

#[export] Hint Resolve lock_inv_reachable lock_inv_steps lock_inv_abandon : proxy.

(** In a state of the invariant, at most one thread owns [w] as a writer, and
    none while a reader is inside. *)
Lemma lock_inv_exclusion k x :
  lock_inv k x ->
  let c p := at_pc p (threads x) in
  c Writing + c WE_unlockw + k <= 1
  /\ (1 <= c Writing + c WE_unlockw + k -> c Reading = 0).
Proof.
  destruct x as [[rc wc m1 m2 m3 r0 w0] ts]. intros (Hk & Hm & Hc).
  unfold mutex_inv, count_inv, positive_count in *; simpl in *.
  pose_counts ts. pose proof (b2z_bound w0). destruct_and?.
  destruct (Z.ltb_spec 0 rc); cbn [Z.b2z] in *; split; lia.
Qed.

Lemma at_pc_two ts i j p :
  i <> j -> ts !! i = Some p -> ts !! j = Some p -> 2 <= at_pc p ts.
Proof.
  revert i j. induction ts as [|t ts IH]; intros [|i] [|j] Hij Hi Hj;
    simplify_eq/=; rewrite at_pc_cons.
  - rewrite decide_True by done. pose proof (at_pc_lookup _ _ _ Hj). lia.
  - rewrite decide_True by done. pose proof (at_pc_lookup _ _ _ Hi). lia.
  - assert (i <> j) as Hn by congruence. pose proof (IH i j Hn Hi Hj).
    destruct (decide (t = p)); lia.
Qed.

(** Nobody else is inside a section while a thread is between [writeBegin] and
    [writeEnd]. *)
Lemma lock_inv_alone k x i j q :
  lock_inv k x -> threads x !! i = Some Writing -> threads x !! j = Some q -> i <> j ->
  q <> Writing /\ q <> Reading.
Proof.
  intros Hx Hi Hj Hij. destruct (lock_inv_exclusion k x Hx) as [H1 H2].
  destruct Hx as [Hk _]. simpl in *.
  pose proof (at_pc_lookup _ _ _ Hi). pose proof (at_pc_nonneg WE_unlockw (threads x)).
  split; intros ->.
  - pose proof (at_pc_two _ _ _ _ Hij Hi Hj). lia.
  - pose proof (at_pc_lookup _ _ _ Hj). lia.
Qed.

(** A thread can move when its next operation does not block or it may call
    one of the four functions. *)
Definition can_move (s : lock_state) (p : pc) : bool :=
  match p with
  | Idle => false
  | Reading | Writing => true
  | _ => match exec p s with Some _ => true | None => false end
  end.

Lemma can_move_step s ts i p :
  ts !! i = Some p -> can_move s p = true ->
  exists y, step (Sys s ts) y /\ threads y !! i <> Some p.
Proof.
  intros Hi Hm.
  assert (exists p' s', p' <> p /\
    (exec p s = Some (p', s') \/ (calls p p' = true /\ s' = s)))
    as (p' & s' & Hne & Hmove).
  { destruct p; cbn in Hm |- *; unfold mutex_lock, mutex_unlock in *;
      repeat case_match; simplify_eq;
      first
        [ by exists RE_lock1, s; split; [|right]
        | by exists WE_unlockw, s; split; [|right]
        | by eexists _, _; split; [|left; reflexivity] ]. }
  exists (Sys s' (<[i := p']> ts)). split.
  - destruct Hmove as [?|[? ->]];
      [by eapply step_exec|by eapply step_call].
  - cbn. rewrite list_lookup_insert_eq by (by eapply lookup_lt_Some).
    congruence.
Qed.

(** If no thread can move, every count of a non-blocking program point is
    zero, and the blocked ones find their mutex held. *)
Lemma stuck_counts s ts p :
  (forall i q, ts !! i = Some q -> can_move s q = false) ->
  at_pc p ts = 0 \/ can_move s p = false.
Proof.
  intros H. destruct (Z.eq_dec (at_pc p ts) 0) as [|Hn]; [by left|right].
  pose proof (at_pc_nonneg p ts).
  destruct (at_pc_pos_lookup ts p) as [i Hi]; [lia|]. eauto.
Qed.

Lemma stuck_all_idle s ts p :
  lock_inv 0 (Sys s ts) ->
  (forall i q, ts !! i = Some q -> can_move s q = false) ->
  p <> Idle -> at_pc p ts = 0.
Proof.
  intros (_ & Hm & Hc) Hst Hp.
  pose proof (stuck_counts s ts) as Hz. destruct s as [rc wc m1 m2 m3 r0 w0].
  unfold mutex_inv, count_inv, positive_count in *; simpl in *.
  pose_counts ts.
  assert (forall q, can_move (LockState rc wc m1 m2 m3 r0 w0) q = true ->
    at_pc q ts = 0) as Hfree.
  { intros q Hq. destruct (Hz q Hst) as [|E]; [done|congruence]. }
  pose proof (Hfree Reading eq_refl). pose proof (Hfree Writing eq_refl).
  pose proof (Hfree RB_inc eq_refl). pose proof (Hfree RB_unlock1 eq_refl).
  pose proof (Hfree RB_unlockr eq_refl). pose proof (Hfree RB_unlock3 eq_refl).
  pose proof (Hfree RE_dec eq_refl). pose proof (Hfree RE_unlockw eq_refl).
  pose proof (Hfree RE_unlock1 eq_refl). pose proof (Hfree WB_inc eq_refl).
  pose proof (Hfree WB_unlock2 eq_refl). pose proof (Hfree WE_unlockw eq_refl).
  pose proof (Hfree WE_dec eq_refl). pose proof (Hfree WE_unlockr eq_refl).
  pose proof (Hfree WE_unlock2 eq_refl).
  pose proof (Hfree RB_lock3). pose proof (Hfree RB_lockr).
  pose proof (Hfree RB_lock1). pose proof (Hfree RB_lockw).
  pose proof (Hfree RE_lock1). pose proof (Hfree WB_lock2).
  pose proof (Hfree WB_lockr). pose proof (Hfree WB_lockw).
  pose proof (Hfree WE_lock2). clear Hfree Hz Hst.
  cbn in *. unfold mutex_lock in *; cbn in *. destruct_and?.
  destruct (Z.ltb_spec 0 rc), (Z.ltb_spec 0 wc), m1, m2, m3, r0, w0;
    cbn [Z.b2z] in *;
    repeat match goal with
    | H : true = true -> _ |- _ => specialize (H eq_refl)
    | H : false = true -> _ |- _ => clear H
    end; try lia; destruct p; try done; lia.
Qed.

(** The sequential reading of a call is a run of the interleaving relation in
    which only the calling thread moves. *)
Lemma run_until_steps stop fuel p s s1 s2 ts i :
  ts !! i = Some p ->
  run_until stop fuel p s = (Some s1, s2) ->
  s1 = s2 /\ exists q, stop q = true
    /\ rtc step (Sys s ts) (Sys s1 (<[i := q]> ts)).
Proof.
  revert p s ts. induction fuel as [|fuel IH]; intros p s ts Hi; simpl.
  - destruct (stop p) eqn:E; [|done]. intros [= <- <-].
    split; [done|]. exists p. split; [done|]. by rewrite list_insert_id.
  - destruct (stop p) eqn:E.
    + intros [= <- <-]. split; [done|]. exists p. split; [done|].
      by rewrite list_insert_id.
    + destruct (exec p s) as [[p' s']|] eqn:Ex; [|done]. intros Hrun.
      assert (<[i := p']> ts !! i = Some p') as Hi'.
      { apply list_lookup_insert_eq. by eapply lookup_lt_Some. }
      destruct (IH p' s' (<[i := p']> ts) Hi' Hrun) as (-> & q & Hq & Hr).
      rewrite list_insert_insert_eq in Hr.
      split; [done|]. exists q. split; [done|].
      eapply rtc_l; [by eapply step_exec|exact Hr].
Qed.

Lemma schedule_steps l x y : schedule l x = Some y -> rtc step x y.
Proof.
  revert x. induction l as [|[i [c|]] l IH]; intros [s ts] H; simpl in H.
  - by simplify_eq.
  - destruct (ts !! i) as [p|] eqn:Hi; [|done].
    destruct (calls p c) eqn:Hc; [|done].
    eapply rtc_l; [by eapply step_call|by apply IH].
  - destruct (ts !! i) as [p|] eqn:Hi; [|done].
    destruct (exec p s) as [[p' s']|] eqn:He; [|done].
    eapply rtc_l; [by eapply step_exec|by apply IH].
Qed.

(** ** The preference of the writers *)

(** Some writer has got past [r] and has not come to its release. *)
Definition past_r (x : sys) : Prop :=
  exists i p, threads x !! i = Some p
    /\ p ∈ [WB_unlock2; WB_lockw; Writing; WE_unlockw; WE_lock2; WE_dec].

(** A step that is made behind such a writer. *)
Definition step_behind (x y : sys) : Prop := past_r x /\ step x y.

(** In [readBegin], holding [r]. *)
Definition between_r (p : pc) : bool :=
  match p with RB_lock1 | RB_inc | RB_lockw | RB_unlock1 | RB_unlockr => true | _ => false end.

Lemma past_r_blocks n x :
  reachable n x -> past_r x ->
  exec RB_lockr (shared x) = None
  /\ forall j q, threads x !! j = Some q -> between_r q = false.
Proof.
  intros Hx (i & p & Hi & Hp). pose proof (lock_inv_reachable _ _ Hx) as Hinv.
  destruct x as [[rc wc m1 m2 m3 r0 w0] ts]. destruct Hinv as (_ & Hm & Hc).
  unfold mutex_inv, count_inv, positive_count in *; simpl in *.
  pose proof (at_pc_lookup _ _ _ Hi). pose_counts ts. pose proof (b2z_bound m2).
  pose proof (b2z_bound r0).
  apply list_elem_of_In in Hp; simpl in Hp.
  assert (r0 = true /\ at_pc RB_lock1 ts + at_pc RB_inc ts + at_pc RB_lockw ts
    + at_pc RB_unlock1 ts + at_pc RB_unlockr ts = 0) as [-> Hz].
  { destruct_and?. destruct r0; (destruct (Z.ltb_spec 0 wc)); cbn [Z.b2z] in *;
      destruct_or! Hp; subst; try done; lia. }
  split; [done|]. intros j q Hj. pose proof (at_pc_lookup _ _ _ Hj).
  destruct q; try done; lia.
Qed.

(** A thread enters its read section, or comes to the last operation before it,
    from one point only. *)
Lemma step_entry x y j p :
  step x y -> threads y !! j = Some p -> p = Reading \/ p = RB_unlock3 ->
  threads x !! j = Some p
  \/ threads x !! j = Some (if decide (p = Reading) then RB_unlock3 else RB_unlockr).
Proof.
  intros [i q q' s s' ts Hi He|i q q' s ts Hi Hc] Hj Hp; cbn in *;
    (destruct (decide (i = j)) as [<-|Hne]; [|left; by rewrite list_lookup_insert_ne in Hj]);
    rewrite list_lookup_insert_eq in Hj by (by eapply lookup_lt_Some); injection Hj as ->;
    rewrite Hi; right.
  - destruct Hp as [-> | ->], q; cbn in He; unfold mutex_lock, mutex_unlock in He;
      repeat case_match; simplify_eq; done.
  - by destruct Hp as [-> | ->], q.
Qed.

Lemma readers_behind n x y :
  reachable n x -> rtc step_behind x y ->
  forall j, threads y !! j = Some Reading ->
    threads x !! j = Some Reading \/ threads x !! j = Some RB_unlock3.
Proof.
  intros Hx Hxy. induction Hxy as [x|x y z [Hp Hs] Hyz IH]; intros j Hj; [by left|].
  destruct (past_r_blocks n x Hx Hp) as [_ Hb].
  destruct (IH (rtc_r _ _ _ Hx Hs) j Hj) as [E|E].
  - destruct (step_entry x y j Reading Hs E) as [F|F]; [by left|by left|by right].
  - destruct (step_entry x y j RB_unlock3 Hs E) as [F|F]; [by right|by right|].
    by apply Hb in F.
Qed.

(** [mutex3] lets one reader at a time through [readBegin]. *)
Lemma one_past_r n x j k :
  reachable n x ->
  threads x !! j = Some RB_unlock3 -> threads x !! k = Some RB_unlock3 -> j = k.
Proof.
  intros Hx Hj Hk. destruct (decide (j = k)) as [|Hne]; [done|exfalso].
  pose proof (at_pc_two _ _ _ _ Hne Hj Hk).
  destruct (lock_inv_reachable _ _ Hx) as (_ & (_ & _ & Hm & _) & _). cbn in Hm.
  pose_counts (threads x). pose proof (b2z_bound (mutex3 (shared x))). lia.
Qed.

(** A writer waits for [w] while a reader that has released [r] is about to
    enter its section, and a second reader waits for [mutex3]; and the state
    after the first one has entered. *)
Definition writer_waits : sys :=
  Sys (LockState 1 1 false false true true true) [WB_lockw; RB_unlock3; RB_lock3].
Definition reader_entered : sys :=
  Sys (LockState 1 1 false false true true true) [WB_lockw; Reading; RB_lockr].

Lemma writer_waits_reachable : reachable 3 writer_waits.
Proof.
  apply (schedule_steps
    [(1, Some RB_lock3); (1, None); (1, None); (1, None); (1, None); (1, None); (1, None); (1, None);
     (0, Some WB_lock2); (0, None); (0, None); (0, None); (0, None); (2, Some RB_lock3)]%nat).
  reflexivity.
Qed.

(** A writer inside its section while a reader waits for [r]. *)
Definition writer_inside : sys :=
  Sys (LockState 0 1 false false true true true) [Writing; RB_lockr].

Lemma writer_inside_reachable : reachable 2 writer_inside.
Proof.
  apply (schedule_steps
    [(0, Some WB_lock2); (0, None); (0, None); (0, None); (0, None); (0, None);
     (1, Some RB_lock3); (1, None)]%nat).
  reflexivity.
Qed.

(** ** Properties *)

(** C1: Mutual exclusion.  In every state reachable by any interleaving of any
    number of threads, while one thread is between [writeBegin] and
    [writeEnd], no other thread is inside a read or a write section. *)
Theorem lock_mutual_exclusion n x i j q :
  reachable n x ->
  threads x !! i = Some Writing ->
  threads x !! j = Some q ->
  i <> j ->
  q <> Writing /\ q <> Reading.
Proof. intros Hx. eapply lock_inv_alone. by eapply lock_inv_reachable. Qed.

(** C31: Deadlock freedom.  In every reachable state in which some thread has
    called one of the four functions (or is inside a section), a thread that
    is not idle can take a step. *)
Theorem lock_deadlock_free n x i p :
  reachable n x ->
  threads x !! i = Some p ->
  p <> Idle ->
  exists j q y, threads x !! j = Some q /\ q <> Idle
    /\ step x y /\ threads y !! j <> Some q.
Proof.
  intros Hx Hi Hp. destruct x as [s ts]. simpl in *.
  destruct (decide (Exists (fun q => can_move s q = true) ts)) as [He|Hn].
  - apply Exists_exists in He as (q & Hq & Hm).
    apply list_elem_of_lookup in Hq as [j Hj].
    destruct (can_move_step s ts j q Hj Hm) as (y & Hstep & Hy).
    exists j, q, y. split; [done|]. split; [by destruct q|done].
  - exfalso. rewrite <- Forall_Exists_neg in Hn.
    assert (forall k q, ts !! k = Some q -> can_move s q = false) as Hst.
    { intros k q Hk. rewrite Forall_forall in Hn.
      apply not_true_is_false, Hn, list_elem_of_lookup. eauto. }
    pose proof (stuck_all_idle s ts p (lock_inv_reachable _ _ Hx) Hst Hp).
    pose proof (at_pc_lookup _ _ _ Hi). lia.
Qed.

(** C32: Writers are preferred once they have [r].  As long as some writer is
    past [r] (it waits for [w], is writing, or is in [writeEnd] before the last
    writer's unlock of [r]), every thread about to take [r] in [readBegin]
    blocks, nobody is between [r] and the end of it, and the readers that enter
    their section all the while are at most the one that had already released
    [r], and only the release of [mutex3] is left to it.  The preference starts there:
    a writer that still waits for [r] itself may be overtaken. *)
Theorem lock_writer_preference n x y :
  reachable n x -> rtc step_behind x y -> past_r y ->
  exec RB_lockr (shared y) = None
  /\ (forall j q, threads y !! j = Some q -> between_r q = false)
  /\ (forall j, threads y !! j = Some Reading ->
        threads x !! j = Some Reading \/ threads x !! j = Some RB_unlock3)
  /\ (forall j k, threads x !! j = Some RB_unlock3 -> threads x !! k = Some RB_unlock3 -> j = k).
Proof.
  intros Hx Hxy Hy.
  assert (reachable n y) as Hr.
  { clear Hy. induction Hxy as [|x z y [_ Hs] _ IH]; [done|]. apply IH. by eapply rtc_r. }
  destruct (past_r_blocks n y Hr Hy) as [H1 H2]. split; [done|]. split; [done|].
  split; [apply (readers_behind n x y Hx Hxy)|intros j k; by apply (one_past_r n x j k)].
Qed.

(** A write section left without [writeEnd] locks everybody out.  After a
    reachable state, if a writer returns without calling [writeEnd], then no
    thread is inside a section in any later state. *)
Theorem lock_abandoned_forever n x y z i p :
  reachable n x -> abandon x y -> rtc step y z ->
  threads z !! i = Some p ->
  p <> Reading /\ p <> Writing.
Proof.
  intros Hx Hxy Hyz Hi.
  pose proof (lock_inv_steps 1 y z Hyz (lock_inv_abandon 0 x y Hxy
    (lock_inv_reachable n x Hx))) as Hz.
  destruct (lock_inv_exclusion 1 z Hz) as [H1 H2]. simpl in *.
  pose proof (at_pc_nonneg Writing (threads z)).
  pose proof (at_pc_nonneg WE_unlockw (threads z)).
  split; intros ->; pose proof (at_pc_lookup _ _ _ Hi); lia.
Qed.

(** ** Witnesses *)

Lemma lock_mutual_exclusion_witness :
  reachable 2 writer_inside /\ (RB_lockr <> Writing /\ RB_lockr <> Reading).
Proof.
  split; [exact writer_inside_reachable|].
  apply (lock_mutual_exclusion 2 writer_inside 0 1);
    [exact writer_inside_reachable|reflexivity|reflexivity|lia].
Defined.

Lemma lock_deadlock_free_witness :
  exists j q y, threads writer_inside !! j = Some q /\ q <> Idle
    /\ step writer_inside y /\ threads y !! j <> Some q.
Proof.
  apply (lock_deadlock_free 2 writer_inside 1 RB_lockr);
    [exact writer_inside_reachable|reflexivity|discriminate].
Defined.

Lemma lock_writer_preference_witness :
  exec RB_lockr (shared reader_entered) = None.
Proof.
  assert (forall rc m3 p q, past_r (Sys (LockState rc 1 false false m3 true true) [WB_lockw; p; q]))
    as P.
  { intros rc m3 p q. exists 0%nat, WB_lockw. split; [reflexivity|].
    apply list_elem_of_In. simpl. tauto. }
  refine (proj1 (lock_writer_preference 3 writer_waits reader_entered writer_waits_reachable
    _ (P _ _ _ _))).
  eapply rtc_l; [split; [apply P|apply (step_exec 1 RB_unlock3); reflexivity]|].
  eapply rtc_l; [split; [apply P|apply (step_exec 2 RB_lock3); reflexivity]|].
  apply rtc_refl.
Defined.

Lemma lock_abandoned_forever_witness :
  RB_lockr <> Reading /\ RB_lockr <> Writing.
Proof.
  apply (lock_abandoned_forever 2 writer_inside
    (Sys (shared writer_inside) [Idle; RB_lockr])
    (Sys (shared writer_inside) [Idle; RB_lockr]) 1);
    [exact writer_inside_reachable
    |exact (abandon_write 0 (shared writer_inside) [Writing; RB_lockr] eq_refl)
    |apply rtc_refl|reflexivity].
Defined.
