(* ===== verification/Sections.v ===== *)
(** * Critical sections are atomic

    The other files run a handler as if it were alone.  Here any number of
    threads run programs of read and write sections on shared data, each
    section being small steps, and the threads are interleaved between any two
    steps of the sections and any two operations of the lock of RWLock.  Every
    interleaving ends, with the data and the results of the sections run one at
    a time.  A section may also come to a call that never returns; its thread
    then stays there, and keeps the lock. *)

From S2P Require Export Prelude RWLock.

(** How a section takes the lock: with [readBegin] and [readEnd], or with
    [writeBegin] and [writeEnd]. *)
Inductive access := Reads | Writes.

(** Code in small steps: one step on the state, and what follows it, which may
    depend on the state the step has found; [Halt] is inside of a call that
    never returns. *)
Inductive prog (X : Type) := Done | Halt | Act (f : X -> X) (k : X -> prog X).
Arguments Done {X}.
Arguments Halt {X}.
Arguments Act {X} f k.

(** The state the code leaves, if it returns. *)
Fixpoint run_prog {X} (c : prog X) (x : X) : option X :=
  match c with
  | Done => Some x
  | Halt => None
  | Act f k => run_prog (k x) (f x)
  end.

(** Every step leaves the first part of the state alone. *)
Fixpoint keeps_data {D L} (c : prog (D * L)) : Prop :=
  match c with
  | Done | Halt => True
  | Act f k => forall x, (f x).1 = x.1 /\ keeps_data (k x)
  end.

(** The code returns, whatever it finds. *)
Fixpoint returns {X} (c : prog X) : Prop :=
  match c with
  | Done => True
  | Halt => False
  | Act f k => forall x, returns (k x)
  end.

(** The sections [S] of a program, on shared data [D] and variables [L] of the
    thread that runs them: the steps of each one, what it does as a whole, if it
    returns, and that a read section leaves the data alone. *)
Class Sections (S D L : Type) := {
  kind : S -> access;
  steps_of : S -> prog (D * L);
  perform : S -> D * L -> option (D * L);
  steps_perform s x : run_prog (steps_of s) x = perform s x;
  reads_keep s : kind s = Reads -> keeps_data (steps_of s)
}.

(** A thread: its program point, the steps of its section that are to come, its
    variables, and its sections that have not ended. *)
Record thread (S D L : Type) := Thread {
  point : pc;
  rest : prog (D * L);
  local : L;
  program : list S
}.

Arguments Thread {S D L} _ _ _ _.
Arguments point {S D L} _.
Arguments rest {S D L} _.
Arguments local {S D L} _.
Arguments program {S D L} _.

Record shared_state (S D L : Type) := Shared {
  lock : lock_state;
  shared_data : D;
  pool : list (thread S D L)
}.
Arguments Shared {S D L} _ _ _.
Arguments lock {S D L} _.
Arguments shared_data {S D L} _.
Arguments pool {S D L} _.

(** Sections one at a time: the data, and of each thread its variables and its
    sections to come. *)
Definition serial_state (S D L : Type) : Type := D * list (L * list S).

Section Interleaving.
Context {S D L : Type} `{!Sections S D L}.

Definition entry (k : access) : pc :=
  match k with Reads => RB_lock3 | Writes => WB_lock2 end.

(** The next step of a thread: it calls [readBegin] or [writeBegin] for its next
    section, runs a step of the section, calls the end when no step is left, or
    executes an operation of the lock, which may block.  A thread in a call that
    never returns makes no step. *)
Definition advance (lk : lock_state) (d : D) (t : thread S D L)
  : option (lock_state * D * thread S D L) :=
  match point t with
  | Idle =>
      match program t with
      | [] => None
      | s :: _ => Some (lk, d, Thread (entry (kind s)) (steps_of s) (local t) (program t))
      end
  | Reading | Writing =>
      match rest t with
      | Act f k =>
          let '(d', l') := f (d, local t) in
          Some (lk, d', Thread (point t) (k (d, local t)) l' (program t))
      | Halt => None
      | Done =>
          let p := match point t with Reading => RE_lock1 | _ => WE_unlockw end in
          Some (lk, d, Thread p Done (local t) (tail (program t)))
      end
  | p =>
      match exec p lk with
      | Some (p', lk') => Some (lk', d, Thread p' (rest t) (local t) (program t))
      | None => None
      end
  end.

Definition advance_at (i : nat) (x : shared_state S D L) : option (shared_state S D L) :=
  match pool x !! i with
  | Some t =>
      match advance (lock x) (shared_data x) t with
      | Some (lk, d, t') => Some (Shared lk d (<[i := t']> (pool x)))
      | None => None
      end
  | None => None
  end.

(** An interleaving: the threads that move, in order. *)
Fixpoint interleaving (l : list nat) (x : shared_state S D L) : option (shared_state S D L) :=
  match l with
  | [] => Some x
  | i :: l => match advance_at i x with Some x' => interleaving l x' | None => None end
  end.

Definition begin_at (d : D) (ps : list (L * list S)) : shared_state S D L :=
  Shared lock_init d (map (fun u => Thread Idle Done u.1 u.2) ps).

(** ** Sections one at a time *)

Definition turn (i : nat) (y : serial_state S D L) : option (serial_state S D L) :=
  match y.2 !! i with
  | Some (l, s :: ss) =>
      match perform s (y.1, l) with
      | Some (d, l') => Some (d, <[i := (l', ss)]> y.2)
      | None => None
      end
  | _ => None
  end.

Fixpoint turns (l : list nat) (y : serial_state S D L) : option (serial_state S D L) :=
  match l with
  | [] => Some y
  | i :: l => match turn i y with Some y' => turns l y' | None => None end
  end.

(** Every thread has ended its last section and left the lock. *)
Definition finished (x : shared_state S D L) : Prop :=
  forall t, t ∈ pool x -> point t = Idle /\ program t = [].

(** Some thread is inside of its section for ever. *)
Definition halted (x : shared_state S D L) : Prop :=
  exists t, t ∈ pool x /\ (point t = Reading \/ point t = Writing) /\ rest t = Halt.

(** What a state shows when every thread is outside of its sections. *)
Definition outcome_of (x : shared_state S D L) : serial_state S D L :=
  (shared_data x, map (fun t => (local t, program t)) (pool x)).

(** ** The simulation

    The data of the serial execution are those left by the sections that have
    ended; a section takes effect when its end is called. *)

(** [runs c x c' x']: some steps of [c] from [x] leave [c'] at [x']. *)
Inductive runs (c : prog (D * L)) (x : D * L) : prog (D * L) -> D * L -> Prop :=
| runs_none : runs c x c x
| runs_more f k y : runs c x (Act f k) y -> runs c x (k y) (f y).

(** Where a program point is with respect to a section. *)
Inductive role := Outside | Entering (k : access) | Inside (k : access).

Definition role_of (p : pc) : role :=
  match p with
  | Reading => Inside Reads
  | Writing => Inside Writes
  | _ => if in_readBegin p then Entering Reads
         else if in_writeBegin p then Entering Writes else Outside
  end.

(** A thread with the data [d] against its serial execution with the data [d0]. *)
Definition follows (d d0 : D) (t : thread S D L) (u : L * list S) : Prop :=
  program t = u.2 /\
  match role_of (point t) with
  | Outside => local t = u.1
  | Entering k => exists s ss, u.2 = s :: ss /\ kind s = k /\ rest t = steps_of s /\ local t = u.1
  | Inside k => exists s ss, u.2 = s :: ss /\ kind s = k
      /\ runs (steps_of s) (d0, u.1) (rest t) (d, local t)
  end.

(** The threads as RWLock sees them. *)
Definition lock_view (x : shared_state S D L) : sys := Sys (lock x) (map point (pool x)).

Definition simulates (x : shared_state S D L) (y : serial_state S D L) : Prop :=
  lock_inv 0 (lock_view x)
  /\ Forall2 (follows (shared_data x) y.1) (pool x) y.2
  /\ ((forall t, t ∈ pool x -> point t <> Writing) -> shared_data x = y.1).

Lemma runs_run c x c' x' : runs c x c' x' -> run_prog c x = run_prog c' x'.
Proof. induction 1 as [|f k y _ IH]; [done|]. by rewrite IH. Qed.

Lemma runs_returns c x c' x' : runs c x c' x' -> returns c -> returns c'.
Proof. induction 1 as [|f k y _ IH]; [done|]. intros Hc. by apply (IH Hc). Qed.

Lemma runs_keeps c x c' x' : keeps_data c -> runs c x c' x' -> keeps_data c' /\ x'.1 = x.1.
Proof.
  intros Hc. induction 1 as [|f k y _ [IH E]]; [done|]. cbn in IH. destruct (IH y) as [E' K].
  split; [done|congruence].
Qed.

(** Outside of the sections the data do not matter. *)
Lemma follows_outside d d0 d' d0' t u :
  (forall k, role_of (point t) <> Inside k) -> follows d d0 t u -> follows d' d0' t u.
Proof.
  intros H [E F]. split; [done|]. destruct (role_of (point t)) eqn:R; [done..|]. by destruct (H k).
Qed.

Lemma role_inside p k : role_of p = Inside k -> p = match k with Reads => Reading | Writes => Writing end.
Proof. destruct p; cbn; intros [= <-]; done. Qed.

(** Operations of the lock move a thread through the roles. *)
Lemma exec_role p lk p' lk' :
  exec p lk = Some (p', lk') -> role_of p' = role_of p
  \/ exists k, role_of p = Entering k /\ role_of p' = Inside k.
Proof.
  destruct lk. destruct p; cbn; unfold mutex_lock, mutex_unlock; cbn; intros E;
    repeat case_match; simplify_eq; first [by left | by right; eexists].
Qed.

Lemma exec_outside p lk p' lk' :
  exec p lk = Some (p', lk') -> forall k, role_of p <> Inside k.
Proof. destruct p; cbn; try done. Qed.

(** While a thread writes, the others are outside; while one is inside, nobody
    else writes. *)
Lemma writer_alone x i j t t' k :
  lock_inv 0 (lock_view x) -> pool x !! i = Some t -> pool x !! j = Some t' -> i <> j ->
  point t = Writing -> role_of (point t') <> Inside k.
Proof.
  intros Hinv Hi Hj Hij Hp Hr%role_inside.
  destruct (lock_inv_alone 0 (lock_view x) i j (point t') Hinv) as [H1 H2]; [| |done|].
  - cbn. by rewrite list_lookup_fmap, Hi, <- Hp.
  - cbn. by rewrite list_lookup_fmap, Hj.
  - by destruct k.
Qed.

Lemma no_writer_inside x i t :
  lock_inv 0 (lock_view x) -> pool x !! i = Some t -> point t = Reading ->
  forall t', t' ∈ pool x -> point t' <> Writing.
Proof.
  intros Hinv Hi Hp t' [j Hj]%list_elem_of_lookup Hw.
  destruct (decide (i = j)) as [->|Hn]; [congruence|].
  apply (writer_alone x j i t' t Reads Hinv Hj Hi); [done|done|by rewrite Hp].
Qed.

(** The four kinds of steps. *)
Inductive move (lk : lock_state) (d : D) (t : thread S D L) : lock_state -> D -> thread S D L -> Prop :=
| move_begin s ss :
    point t = Idle -> program t = s :: ss ->
    move lk d t lk d (Thread (entry (kind s)) (steps_of s) (local t) (program t))
| move_lock p lk' :
    point t <> Idle -> exec (point t) lk = Some (p, lk') ->
    move lk d t lk' d (Thread p (rest t) (local t) (program t))
| move_work k f r x :
    role_of (point t) = Inside k -> rest t = Act f r -> f (d, local t) = x ->
    move lk d t lk x.1 (Thread (point t) (r (d, local t)) x.2 (program t))
| move_end k p :
    role_of (point t) = Inside k -> rest t = Done -> calls (point t) p = true ->
    role_of p = Outside ->
    move lk d t lk d (Thread p Done (local t) (tail (program t))).

Lemma advance_move lk d t lk' d' t' :
  advance lk d t = Some (lk', d', t') -> move lk d t lk' d' t'.
Proof.
  unfold advance. destruct (point t) eqn:Ep.
  all: try (destruct (exec _ lk) as [[p lk1]|] eqn:Ex; [|done]; intros [= <- <- <-];
    apply move_lock; [by rewrite Ep|by rewrite Ep]).
  - destruct (program t) as [|s ss] eqn:Er; [done|]. intros [= <- <- <-].
    rewrite <- Er. by eapply move_begin.
  - destruct (rest t) as [| |f r] eqn:Er; [|done|].
    + intros [= <- <- <-]. apply (move_end _ _ _ Reads); by rewrite ?Ep.
    + destruct (f (d, local t)) as [d1 l1] eqn:Ea. intros [= <- <- <-].
      rewrite <- Ep. apply (move_work lk d t Reads f r (d1, l1)); by rewrite ?Ep.
  - destruct (rest t) as [| |f r] eqn:Er; [|done|].
    + intros [= <- <- <-]. apply (move_end _ _ _ Writes); by rewrite ?Ep.
    + destruct (f (d, local t)) as [d1 l1] eqn:Ea. intros [= <- <- <-].
      rewrite <- Ep. apply (move_work lk d t Writes f r (d1, l1)); by rewrite ?Ep.
Qed.

Lemma calls_entry k : calls Idle (entry k) = true.
Proof. by destruct k. Qed.

Lemma move_view lk d t lk' d' t' ts i :
  move lk d t lk' d' t' -> ts !! i = Some t ->
  lock_inv 0 (Sys lk (map point ts)) -> lock_inv 0 (Sys lk' (map point (<[i := t']> ts))).
Proof.
  intros Hm Hi Hinv.
  assert (map point (<[i := t']> ts) = <[i := point t']> (map point ts)) as ->
    by apply list_fmap_insert.
  assert (map point ts !! i = Some (point t)) as Hv by (by rewrite list_lookup_fmap, Hi).
  destruct Hm as [s ss Hp _|p lk' _ He|k a r x Hr _ _|k p _ _ Hc _]; cbn [point].
  - eapply lock_inv_move; [exact Hv| |exact Hinv]. right. by rewrite Hp, calls_entry.
  - eapply lock_inv_move; [exact Hv|by left|exact Hinv].
  - by rewrite list_insert_id.
  - eapply lock_inv_move; [exact Hv|by right|exact Hinv].
Qed.

(** The other threads follow their serial execution if nothing changes for
    them, or if they are outside of their sections. *)
Lemma follows_insert d d0 d' d0' (ts : list (thread S D L)) us i t u t' u' :
  Forall2 (follows d d0) ts us -> ts !! i = Some t -> us !! i = Some u ->
  (d' = d /\ d0' = d0) \/
    (forall j t', ts !! j = Some t' -> i <> j -> forall k, role_of (point t') <> Inside k) ->
  follows d' d0' t' u' ->
  Forall2 (follows d' d0') (<[i := t']> ts) (<[i := u']> us).
Proof.
  intros [Hl HF]%Forall2_same_length_lookup Hi Hu Ho Ht.
  apply Forall2_same_length_lookup. split; [by rewrite !length_insert|].
  intros j t1 u1. destruct (decide (i = j)) as [->|Hn].
  - rewrite !list_lookup_insert_eq by (by eapply lookup_lt_Some). by intros [= <-] [= <-].
  - rewrite !list_lookup_insert_ne by done. intros Hj Hju.
    destruct Ho as [[-> ->]|Ho]; [by eapply HF|].
    eapply follows_outside; [by eapply Ho|by eapply HF].
Qed.

Lemma follows_stay d d0 d' ts us i t t' :
  Forall2 (follows d d0) ts us -> ts !! i = Some t ->
  d' = d \/
    (forall j t', ts !! j = Some t' -> i <> j -> forall k, role_of (point t') <> Inside k) ->
  (forall u, us !! i = Some u -> follows d d0 t u -> follows d' d0 t' u) ->
  Forall2 (follows d' d0) (<[i := t']> ts) us.
Proof.
  intros HF Hi Ho Ht. destruct (Forall2_lookup_l _ _ _ _ _ HF Hi) as (u & Hu & Fu).
  rewrite <- (list_insert_id us i u Hu). eapply follows_insert; [done..| |by apply Ht].
  destruct Ho as [->|Ho]; [by left|by right].
Qed.

Lemma quiet_before (ts : list (thread S D L)) i t t' :
  ts !! i = Some t -> point t <> Writing ->
  (forall u, u ∈ <[i := t']> ts -> point u <> Writing) ->
  forall u, u ∈ ts -> point u <> Writing.
Proof.
  intros Hi Hp H u [j Hj]%list_elem_of_lookup.
  destruct (decide (i = j)) as [->|Hn]; [congruence|].
  apply H, list_elem_of_lookup. exists j. by rewrite list_lookup_insert_ne.
Qed.

(** Calling the lock and its operations are invisible. *)
Lemma outside_simulates lk d (ts : list (thread S D L)) y i t lk' t' :
  simulates (Shared lk d ts) y -> ts !! i = Some t ->
  lock_inv 0 (lock_view (Shared lk' d (<[i := t']> ts))) ->
  (forall k, role_of (point t) <> Inside k) ->
  (forall u, y.2 !! i = Some u -> follows d y.1 t u ->
     (role_of (point t') = Inside Writes -> d = y.1) ->
     (role_of (point t') = Inside Reads -> d = y.1) -> follows d y.1 t' u) ->
  simulates (Shared lk' d (<[i := t']> ts)) y.
Proof.
  intros (Hinv & HF & Hd) Hi Hinv' Hr Ht. cbn [shared_data pool] in *.
  assert (point t <> Writing) as Hw by (intros E; by apply (Hr Writes); rewrite E).
  assert (<[i := t']> ts !! i = Some t') as Hi'
    by (apply list_lookup_insert_eq; by eapply lookup_lt_Some).
  assert ((forall j u, ts !! j = Some u -> i <> j -> point u <> Writing) -> d = y.1) as Hq.
  { intros H. apply Hd. intros u [j Hj]%list_elem_of_lookup.
    destruct (decide (i = j)) as [->|Hn]; [congruence|by eapply H]. }
  split; [done|]. split; cbn [shared_data pool].
  - eapply follows_stay; [done|done|by left|]. intros u Hu Fu. apply Ht; [done..| |].
    all: intros E%role_inside; apply Hq; intros j u' Hj Hn Hu'.
    + apply (writer_alone _ i j t' u' Writes Hinv' Hi'); [|done|done|by rewrite Hu'].
      cbn. by rewrite list_lookup_insert_ne.
    + apply (no_writer_inside _ i t' Hinv' Hi' E u'); [|done].
      apply list_elem_of_lookup. exists j. cbn. by rewrite list_lookup_insert_ne.
  - intros H. apply Hd. by eapply quiet_before.
Qed.

Lemma work_simulates lk d (ts : list (thread S D L)) y i t k f r x :
  simulates (Shared lk d ts) y -> ts !! i = Some t ->
  role_of (point t) = Inside k -> rest t = Act f r -> f (d, local t) = x ->
  simulates (Shared lk x.1 (<[i := Thread (point t) (r (d, local t)) x.2 (program t)]> ts)) y.
Proof.
  intros (Hinv & HF & Hd) Hi Hr Ha Hx. cbn [shared_data pool] in *.
  set (t' := Thread (point t) (r (d, local t)) x.2 (program t)).
  destruct (Forall2_lookup_l _ _ _ _ _ HF Hi) as (u & Hu & Fu).
  assert (k = Reads -> x.1 = d) as Hk.
  { intros ->. destruct Fu as [_ Fu]. rewrite Hr in Fu. destruct Fu as (s & ss & _ & Hs & E).
    apply (runs_keeps _ _ _ _ (reads_keep s Hs)) in E as [E _]. rewrite Ha in E. cbn in E.
    destruct (E (d, local t)) as [E1 _]. by rewrite <- Hx, E1. }
  split.
  { unfold lock_view in *. cbn [lock pool] in *.
    replace (map point _) with (map point ts); [done|].
    transitivity (<[i := point t]> (map point ts)).
    - symmetry. apply list_insert_id. by rewrite list_lookup_fmap, Hi.
    - symmetry. apply (list_fmap_insert point ts i t'). }
  split; cbn [shared_data pool].
  - eapply follows_stay; [done|done| |].
    + destruct k; [left; by apply Hk|right]. intros j t1 Hj Hn k'.
      apply (writer_alone (Shared lk d ts) i j t t1 k' Hinv Hi Hj Hn). by apply role_inside in Hr.
    + intros u' _ [E F]. split; [done|]. cbn [t' point rest local]. rewrite Hr in F |- *.
      destruct F as (s & ss & E1 & E2 & E3). exists s, ss. do 2 (split; [done|]).
      rewrite Ha in E3. apply runs_more in E3. rewrite Hx in E3. by destruct x.
  - intros H. destruct k.
    + rewrite (Hk eq_refl). apply Hd, (no_writer_inside (Shared lk d ts) i t Hinv Hi).
      by apply role_inside in Hr.
    + exfalso. apply role_inside in Hr. apply (H t'); [|done].
      apply list_elem_of_lookup. exists i. apply list_lookup_insert_eq. by eapply lookup_lt_Some.
Qed.

(** The end of a section is its turn in the serial execution. *)
Lemma end_simulates lk d (ts : list (thread S D L)) y i t k p :
  simulates (Shared lk d ts) y -> ts !! i = Some t ->
  role_of (point t) = Inside k -> rest t = Done -> role_of p = Outside ->
  lock_inv 0 (lock_view (Shared lk d (<[i := Thread p Done (local t) (tail (program t))]> ts))) ->
  exists y', turn i y = Some y' /\
    simulates (Shared lk d (<[i := Thread p Done (local t) (tail (program t))]> ts)) y'.
Proof.
  intros (Hinv & HF & Hd) Hi Hr Ha Hp Hinv'. cbn [shared_data pool] in *.
  destruct (Forall2_lookup_l _ _ _ _ _ HF Hi) as ([l0 ps] & Hu & Fu).
  pose proof Fu as [E F]. rewrite Hr in F. destruct F as (s & ss & Es & Hs & Er).
  cbn [fst snd] in *. rewrite Ha in Er. subst ps.
  assert (perform s (y.1, l0) = Some (d, local t)) as Hper
    by (by rewrite <- steps_perform, (runs_run _ _ _ _ Er)).
  exists (d, <[i := (local t, ss)]> y.2). split.
  { unfold turn. by rewrite Hu, Es, Hper. }
  split; [done|]. split; cbn [shared_data pool fst snd]; [|done].
  eapply follows_insert; [done..| |].
  - destruct k.
    + left. split; [done|]. by apply (runs_keeps _ _ _ _ (reads_keep s Hs)) in Er as [_ E1].
    + right. intros j t' Hj Hn k'.
      apply (writer_alone (Shared lk d ts) i j t t' k' Hinv Hi Hj Hn). by apply role_inside in Hr.
  - split; [by cbn; rewrite Es|]. cbn [point]. by rewrite Hp.
Qed.

Lemma entry_role k : role_of (entry k) = Entering k.
Proof. by destruct k. Qed.

Lemma advance_simulates i x x' y :
  advance_at i x = Some x' -> simulates x y ->
  simulates x' y \/ exists y', turn i y = Some y' /\ simulates x' y'.
Proof.
  destruct x as [lk d ts]. unfold advance_at. cbn [pool lock shared_data].
  destruct (ts !! i) as [t|] eqn:Hi; [|done].
  destruct (advance lk d t) as [[[lk' d'] t']|] eqn:Ha; [|done]. intros [= <-] Hs.
  apply advance_move in Ha.
  pose proof (move_view lk d t lk' d' t' ts i Ha Hi (proj1 Hs)) as Hinv'.
  destruct Ha as [s ss Hp Hprog|p lk' Hp He|k a r x Hr Hrest Hx|k p Hr Hrest Hc Ho].
  - left. eapply outside_simulates; [done..| |].
    + by rewrite Hp.
    + intros u _ [E F] _ _. split; [done|]. cbn [point rest local].
      rewrite Hp in F. rewrite entry_role. exists s, ss. by rewrite <- E.
  - left. eapply outside_simulates; [done..| |].
    + by eapply exec_outside.
    + intros u _ [E F] Hw Hrd. split; [done|]. cbn [point rest local] in *.
      destruct (exec_role _ _ _ _ He) as [->|(k & E1 & E2)]; [done|].
      rewrite E1 in F. rewrite E2 in Hw, Hrd |- *. destruct F as (s & ss & F1 & F2 & F3 & F4).
      exists s, ss. do 2 (split; [done|]). rewrite F3, F4.
      assert (d = y.1) as <- by (destruct k; [by apply Hrd|by apply Hw]). apply runs_none.
  - left. by eapply work_simulates.
  - right. by eapply end_simulates.
Qed.

Lemma begin_simulates d us : simulates (begin_at d us) (d, us).
Proof.
  split; [|split; [|done]].
  - unfold lock_view, begin_at. cbn. rewrite map_map. cbn.
    replace (map _ us) with (replicate (length us) Idle); [apply lock_inv_init|].
    induction us as [|u us IH]; [done|]. cbn. by f_equal.
  - cbn. apply Forall2_fmap_l, Forall_Forall2_diag, Forall_forall. intros u _. by repeat split.
Qed.

Lemma turns_app l l' y :
  turns (l ++ l') y = match turns l y with Some y' => turns l' y' | None => None end.
Proof. revert y. induction l as [|i l IH]; intros y; [done|]. cbn. by destruct (turn i y). Qed.

Lemma interleave_simulates l x x' y :
  interleaving l x = Some x' -> simulates x y ->
  exists order y', turns order y = Some y' /\ simulates x' y'.
Proof.
  revert x y. induction l as [|i l IH]; intros x y; cbn.
  - intros [= <-] Hs. by exists [], y.
  - destruct (advance_at i x) as [x1|] eqn:Ha; [|done]. intros Hi Hs.
    destruct (advance_simulates i x x1 y Ha Hs) as [Hs1|(y1 & Ht & Hs1)].
    + by apply (IH x1).
    + destruct (IH x1 y1 Hi Hs1) as (order & y' & Hy & Hs').
      exists (i :: order), y'. cbn. by rewrite Ht.
Qed.

(** ** Progress *)

(** The operations of the lock until the thread is idle again. *)
Definition left (p : pc) : nat :=
  match p with
  | RB_lock3 => 13 | RB_lockr => 12 | RB_lock1 => 11 | RB_inc => 10 | RB_lockw => 9
  | RB_unlock1 => 8 | RB_unlockr => 7 | RB_unlock3 => 6 | Reading => 5
  | RE_lock1 => 4 | RE_dec => 3 | RE_unlockw => 2 | RE_unlock1 => 1
  | WB_lock2 => 11 | WB_inc => 10 | WB_lockr => 9 | WB_unlock2 => 8 | WB_lockw => 7
  | Writing => 6
  | WE_unlockw => 5 | WE_lock2 => 4 | WE_dec => 3 | WE_unlockr => 2 | WE_unlock2 => 1
  | Idle => 0
  end.

(** The sections of a thread that have not begun. *)
Definition pending (t : thread S D L) : list S :=
  match role_of (point t) with Outside => program t | _ => tail (program t) end.

(** A thread comes closer to its end: it has fewer sections to begin, or fewer
    steps of its section, or fewer operations of the lock. *)
Definition closer (t' t : thread S D L) : Prop :=
  (length (pending t') < length (pending t))%nat
  \/ length (pending t') = length (pending t)
     /\ ((exists f k x, rest t = Act f k /\ rest t' = k x)
         \/ rest t' = rest t /\ (left (point t') < left (point t))%nat).

Definition later (x' x : shared_state S D L) : Prop := exists i, advance_at i x = Some x'.

Lemma closer_acc t : Acc closer t.
Proof.
  remember (length (pending t)) as n eqn:En. revert t En.
  induction (lt_wf n) as [n _ IHn]. intros t.
  remember (rest t) as c eqn:Ec. revert t Ec.
  induction c as [| |f k IHc]; intros t.
  all: remember (left (point t)) as m eqn:Em; revert t Em;
    induction (lt_wf m) as [m _ IHm]; intros t -> Ec En;
    constructor; intros t' [Hp|[Hp [(f' & k' & x & E1 & E2)|[E1 E2]]]].
  all: try (eapply IHn; [|reflexivity]; lia).
  all: try (eapply IHm; [exact E2|reflexivity|congruence|congruence]).
  - congruence.
  - congruence.
  - rewrite <- Ec in E1. injection E1 as <- <-. apply (IHc x); congruence.
Qed.

Lemma exec_left p lk p' lk' : exec p lk = Some (p', lk') -> (left p' < left p)%nat.
Proof.
  destruct lk. destruct p; cbn; unfold mutex_lock, mutex_unlock; cbn; intros E;
    repeat case_match; simplify_eq; cbn; lia.
Qed.

Lemma move_closer lk d t lk' d' t' : move lk d t lk' d' t' -> closer t' t.
Proof.
  unfold closer, pending.
  intros [s ss Hp Hprog|p lk1 Hp He|k f r x Hr Hrest Hx|k p Hr Hrest Hc Ho]; cbn [point rest program].
  - left. rewrite Hp, entry_role, Hprog. cbn. lia.
  - right. pose proof (exec_left _ _ _ _ He).
    destruct (exec_role _ _ _ _ He) as [->|(k & -> & ->)]; split; by (right + idtac).
  - right. split; [done|]. left. eauto.
  - right. rewrite Hr, Ho, Hrest. split; [done|]. right. split; [done|].
    apply role_inside in Hr. rewrite Hr in Hc |- *. destruct k, p; try done; cbn [left]; lia.
Qed.

(** Moving one of several threads. *)
Definition one_closer (ts' ts : list (thread S D L)) : Prop :=
  exists i t t', ts !! i = Some t /\ closer t' t /\ ts' = <[i := t']> ts.

Lemma one_closer_acc ts : Acc one_closer ts.
Proof.
  induction ts as [|t ts IH]; [constructor; by intros ? (i & t & t' & Hi & _)|].
  induction (closer_acc t) as [t _ IHt] in ts, IH |- *.
  induction IH as [ts Hts IHts]. constructor. intros ts' ([|i] & t1 & t' & Hi & Hc & ->).
  - injection Hi as <-. apply IHt; [done|by constructor].
  - cbn. apply IHts. by exists i, t1, t'.
Qed.

Lemma later_acc x : Acc later x.
Proof.
  remember (pool x) as ts eqn:E. revert x E.
  induction (one_closer_acc ts) as [ts _ IH]. intros x ->. constructor.
  intros x' [i Ha]. eapply IH; [|reflexivity]. destruct x as [lk d ts].
  unfold advance_at in Ha. cbn [pool lock shared_data] in Ha |- *.
  destruct (ts !! i) as [t|] eqn:Hi; [|done].
  destruct (advance lk d t) as [[[lk' d'] t']|] eqn:Hadv; [|done]. injection Ha as <-.
  exists i, t, t'. split; [done|]. split; [|done]. eapply move_closer. by apply advance_move.
Qed.

Lemma can_move_advance lk d t :
  ~ ((point t = Reading \/ point t = Writing) /\ rest t = Halt) ->
  can_move lk (point t) = true -> advance lk d t <> None.
Proof.
  intros Hh. unfold advance. destruct (point t) eqn:E; cbn [can_move]; try done.
  all: try (by destruct (exec _ lk) as [[? ?]|]).
  all: intros _; destruct (rest t) as [| |f k]; [done|destruct Hh; auto|by destruct (f (d, local t))].
Qed.

Definition halts (t : thread S D L) : bool :=
  match point t, rest t with Reading, Halt | Writing, Halt => true | _, _ => false end.

Lemma halts_true t : halts t = true <-> (point t = Reading \/ point t = Writing) /\ rest t = Halt.
Proof.
  unfold halts. destruct (point t), (rest t); split; intros; destruct_and?; destruct_or?; auto; done.
Qed.

(** No state is stuck before every thread has finished, unless a call never
    returns. *)
Lemma advance_or_finished x :
  lock_inv 0 (lock_view x) ->
  finished x \/ halted x \/ exists i x', advance_at i x = Some x'.
Proof.
  destruct x as [lk d ts]. intros Hinv.
  destruct (decide (Exists (fun t => halts t = true) ts)) as [Hh|Hh].
  { right. left. apply Exists_exists in Hh as (t & Ht & Hp%halts_true). by exists t. }
  rewrite <- Forall_Exists_neg, Forall_forall in Hh.
  destruct (decide (Exists (fun t => is_Some (advance lk d t)) ts)) as [He|Hn].
  - right. right. apply Exists_exists in He as (t & [i Hi]%list_elem_of_lookup & [[[lk' d'] t'] Ha]).
    exists i. unfold advance_at. cbn. rewrite Hi, Ha. by eexists.
  - left. rewrite <- Forall_Exists_neg, Forall_forall in Hn.
    assert (forall t, t ∈ ts -> advance lk d t = None) as Hstuck.
    { intros t Ht. destruct (advance lk d t) eqn:E; [|done]. destruct (Hn t Ht). by rewrite E. }
    assert (forall i q, map point ts !! i = Some q -> can_move lk q = false) as Hst.
    { intros i q Hq. apply list_lookup_fmap_Some in Hq as (t & -> & Hi).
      apply not_true_is_false. intros Hc. apply list_elem_of_lookup_2 in Hi.
      apply (can_move_advance lk d t); [|done|by apply Hstuck].
      intros Hp%halts_true. by apply (Hh t Hi). }
    intros t Ht. cbn in Ht.
    assert (point t = Idle) as Hp.
    { destruct (decide (point t = Idle)) as [|Hp]; [done|exfalso].
      pose proof (stuck_all_idle lk (map point ts) (point t) Hinv Hst Hp) as Hz.
      apply list_elem_of_lookup in Ht as [i Hi].
      assert (map point ts !! i = Some (point t)) as Hv by (by rewrite list_lookup_fmap, Hi).
      pose proof (at_pc_lookup _ _ _ Hv). lia. }
    split; [done|]. specialize (Hstuck t Ht). unfold advance in Hstuck. rewrite Hp in Hstuck.
    by destruct (program t).
Qed.

Lemma finished_outcome x y : simulates x y -> finished x -> y = outcome_of x.
Proof.
  intros (_ & HF & Hd) Hfin. unfold outcome_of. destruct y as [d us]. cbn [fst snd] in *.
  f_equal.
  - symmetry. apply Hd. intros t Ht. destruct (Hfin t Ht) as [-> _]. done.
  - clear Hd. unfold finished in Hfin. induction HF as [|t u ts us' [E F] HF IH]; [done|].
    cbn. f_equal.
    + destruct (Hfin t) as [Hp _]; [by left|]. rewrite Hp in F. cbn in F. rewrite F.
      rewrite E. by destruct u.
    + apply IH. intros t' Ht'. apply Hfin. by right.
Qed.

(** Only a section whose code does not return halts a thread. *)
Lemma not_halted x y :
  simulates x y -> Forall (fun u => Forall (fun s => returns (steps_of s)) u.2) y.2 -> ~ halted x.
Proof.
  intros (_ & HF & _) Hret (t & [i Hi]%list_elem_of_lookup & Hp & Hr).
  destruct (Forall2_lookup_l _ _ _ _ _ HF Hi) as (u & Hu & _ & F).
  pose proof (Forall_lookup_1 _ _ _ _ Hret Hu) as Hs.
  assert (exists k, role_of (point t) = Inside k) as [k E] by (destruct Hp as [-> | ->]; by eexists).
  rewrite E in F. destruct F as (s & ss & Es & _ & R). cbn in Hs. rewrite Es in Hs.
  apply Forall_cons in Hs as [Hs _]. pose proof (runs_returns _ _ _ _ R Hs) as Hd. by rewrite Hr in Hd.
Qed.

Lemma turns_programs (P : S -> Prop) order : forall y y',
  turns order y = Some y' -> Forall (fun u => Forall P u.2) y.2 -> Forall (fun u => Forall P u.2) y'.2.
Proof.
  induction order as [|i order IH]; intros y y'; cbn; [by intros [= <-]|].
  destruct (turn i y) as [y1|] eqn:Ht; [|done]. intros H1 Hy. apply (IH y1 y' H1).
  unfold turn in Ht. destruct (y.2 !! i) as [[l [|s ss]]|] eqn:Hi; try done.
  destruct (perform s _) as [[d l']|]; [|done]. injection Ht as <-. cbn [snd].
  pose proof (Forall_lookup_1 _ _ _ _ Hy Hi) as Hs. apply Forall_cons in Hs as [_ Hs].
  by apply Forall_insert.
Qed.

Lemma reader_sees x y t :
  simulates x y -> t ∈ pool x -> point t = Reading -> shared_data x = y.1.
Proof.
  intros (Hinv & _ & Hd) [i Hi]%list_elem_of_lookup Hp. by apply Hd, (no_writer_inside x i t).
Qed.

(** What every interleaving of sections is, in a lemma for the clients. *)
Lemma sections_serialise d us l x :
  interleaving l (begin_at d us) = Some x ->
  Acc later x
  /\ (finished x \/ halted x \/ exists x', later x' x)
  /\ (Forall (fun u => Forall (fun s => returns (steps_of s)) u.2) us -> ~ halted x)
  /\ exists order y, turns order (d, us) = Some y
     /\ (forall t, t ∈ pool x -> point t = Reading -> shared_data x = y.1)
     /\ (finished x -> outcome_of x = y).
Proof.
  intros Hl. destruct (interleave_simulates l _ _ _ Hl (begin_simulates d us)) as (order & y & Ht & Hs).
  split; [apply later_acc|].
  split. { destruct (advance_or_finished x (proj1 Hs)) as [?|[?|(i & x' & ?)]];
    [by left|by right; left|right; right]. by exists x', i. }
  split. { intros Hret. apply (not_halted x y Hs). by eapply turns_programs. }
  exists order, y. split; [done|]. split; [intros t; by apply reader_sees|].
  intros Hf. symmetry. by apply finished_outcome.
Qed.

(** The threads in turn, those that are blocked being passed over. *)
Fixpoint round_robin (fuel i n : nat) (x : shared_state S D L) : list nat :=
  match fuel with
  | O => []
  | Datatypes.S fuel =>
      let next := if decide (Datatypes.S i = n) then 0%nat else Datatypes.S i in
      match advance_at i x with
      | Some x' => i :: round_robin fuel next n x'
      | None => round_robin fuel next n x
      end
  end.

Definition is_finished (x : shared_state S D L) : bool :=
  forallb (fun t => match point t, program t with Idle, [] => true | _, _ => false end) (pool x).

Lemma is_finished_true x : is_finished x = true -> finished x.
Proof.
  intros H t Ht. unfold is_finished in H. rewrite forallb_forall in H.
  specialize (H t (proj1 (list_elem_of_In _ _) Ht)).
  destruct (point t), (program t); done.
Qed.

(** ** Property *)

(** C2: Critical sections are atomic.  Whatever the threads do inside of their
    sections, and however they are interleaved there and in the lock: no
    interleaving is endless, none is stuck before every thread has finished,
    unless a thread is in a call that never returns (which happens only if the
    code of some section has such a call), and there is an order of whole sections, one at a time, in which each
    thread keeps its own order, that gives the data a reader inside of its
    section sees and, when all have finished, the data and the variables of
    every thread. *)
Theorem sections_atomic d us l x :
  interleaving l (begin_at d us) = Some x ->
  Acc later x
  /\ (finished x \/ halted x \/ exists x', later x' x)
  /\ (Forall (fun u => Forall (fun s => returns (steps_of s)) u.2) us -> ~ halted x)
  /\ exists order y, turns order (d, us) = Some y
     /\ (forall t, t ∈ pool x -> point t = Reading -> shared_data x = y.1)
     /\ (finished x -> outcome_of x = y).
Proof. apply sections_serialise. Qed.

End Interleaving.

(** ** Witness

    A counter: a thread adds to it in two steps, with the old value in a
    variable in between, or reads it. *)
Definition counter_steps (c : option Z) : prog (Z * list Z) :=
  let read := fun x => (x.1, x.1 :: x.2) in
  match c with
  | Some n =>
      Act read (fun _ => Act (fun x => (match x.2 with v :: _ => v + n | [] => x.1 end, tail x.2))
        (fun _ => Done))
  | None => Act read (fun _ => Done)
  end.

Definition counter_perform (c : option Z) (x : Z * list Z) : option (Z * list Z) :=
  Some (match c with Some n => (x.1 + n, x.2) | None => (x.1, x.1 :: x.2) end).

Lemma counter_steps_perform c x : run_prog (counter_steps c) x = counter_perform c x.
Proof. by destruct c. Qed.

#[local] Instance counter : Sections (option Z) Z (list Z).
Proof.
  refine {| kind := fun c => match c with Some _ => Writes | None => Reads end;
    steps_of := counter_steps; perform := counter_perform;
    steps_perform := counter_steps_perform |}.
  by intros [].
Defined.

Definition counter_programs : list (list Z * list (option Z)) :=
  [([], [Some 1; Some 10]); ([], [None; Some 100]); ([], [Some 1000; None])].

Definition counter_schedule : list nat := round_robin 400 0 3 (begin_at 0 counter_programs).

(** Three threads that move in turn count as if one after another. *)
Lemma counted :
  exists x, interleaving counter_schedule (begin_at 0 counter_programs) = Some x
    /\ is_finished x = true
    /\ outcome_of x = (1111, [([], []); ([0], []); ([1111], [])]).
Proof. eexists. split; [vm_compute; reflexivity|]. by split; vm_compute. Qed.

Lemma sections_atomic_witness :
  exists order, turns order (0, counter_programs)
    = Some (1111, [([], []); ([0], []); ([1111], [])]).
Proof.
  destruct counted as (x & E & Hf & Hv).
  destruct (sections_atomic 0 counter_programs counter_schedule x E) as (_ & _ & _ & order & y & Ht & _ & Ho).
  exists order. rewrite Ht, <- (Ho (is_finished_true x Hf)), Hv. reflexivity.
Defined.
