(* ===== verification/Rio.v ===== *)
(** * Robust I/O (src/rio.c, src/rio.h)

    [rio_t] keeps an application buffer of [ETH_FRAME_LEN + PROXY_HLEN] bytes
    in front of a non-blocking descriptor.  [Wait] and [Lock] are the retry
    loops around [poll] and [fcntl(F_SETLKW)]; [rio_read], [rio_readnb] and
    [rio_write] are translated with their loops, whose recursion follows the
    scripted answers they consume. *)

From S2P Require Export Env.

Definition RIO_BUFSIZE : Z := ETH_FRAME_LEN + PROXY_HLEN.
Definition O_NONBLOCK : Z := 2048.

(** [rio_t] (rio.h, 19-24); [bufp] is the offset of the pointer in [buf]. *)
Record rio_t := Rio {
  fd : Z;
  cnt : Z;
  bufp : Z;
  buf : bytes
}.

Definition zero_rio : rio_t :=
  Rio 0 0 0 (replicate (Z.to_nat RIO_BUFSIZE) Init.Byte.x00).

(** [rio_readinit] (3-22).  [flags=fcntl(rp->fd, F_GETFL, 0)<0] assigns the
    result of the comparison. *)
Definition rio_readinit (f : Z) : M env rio_t :=
  let rp := Rio f 0 0 (replicate (Z.to_nat RIO_BUFSIZE) Init.Byte.x00) in
  let* v := sys_call in
  let flags := Z.b2z (v <? 0) in
  if negb (flags =? 0) then fail (Exit (-1))
  else
    let flags := Z.lor flags O_NONBLOCK in
    let* v := sys_call in
    if v <? 0 then fail (Exit (-1))
    else emit (EvSetFl f flags) ;;; ret rp.

(** The loop of [Wait] and of [Lock]: the call is repeated while [errno] is
    [EINTR], whether or not the last call failed. *)
Fixpoint retry_loop (answers : list sysret) (e : Z)
  : outcome Z * list sysret * Z :=
  match answers with
  | [] => (Starved, [], e)
  | SysOk :: answers =>
      if e =? EINTR then retry_loop answers e else (Ret 0, answers, e)
  | SysErr e' :: answers =>
      if negb (e' =? EINTR) then (Ret (-1), answers, e')
      else retry_loop answers e'
  end.

(** [Wait] (24-43) *)
Definition Wait (f : Z) : M env Z := fun s =>
  let '(o, l, e) := retry_loop (polls s) (errno s) in
  (o, set_errno e (set_polls l s)).

(** [Lock] (45-61) *)
Definition Lock (f : Z) (ty : lock_type) : M env Z := fun s =>
  let '(o, l, e) := retry_loop (setlks s) (errno s) in
  let s := set_errno e (set_setlks l s) in
  match o with
  | Ret v => (o, if v =? 0 then log (EvSetLk f ty) s else s)
  | _ => (o, s)
  end.

(** [read(rp->fd, rp->buf, sizeof(rp->buf))]: the new [cnt] and the state. *)
Definition sys_read (rp : rio_t) (a : read_answer) (s : env) : rio_t * env :=
  match a with
  | RdErr e => (Rio (fd rp) (-1) (bufp rp) (buf rp), set_errno e s)
  | RdData k =>
      let data := take (min k (Z.to_nat RIO_BUFSIZE)) (stream s (fd rp)) in
      let rest := drop (length data) (stream s (fd rp)) in
      (Rio (fd rp) (Z.of_nat (length data)) (bufp rp)
         (data ++ drop (length data) (buf rp)),
       set_input (<[fd rp := rest]> (input s)) s)
  end.

(** The loop of [rio_read] (84-103): [Some v] when it returns [v], [None] when
    the buffer holds data. *)
Fixpoint rio_fill (answers : list read_answer) (rp : rio_t) (s : env)
  : outcome (option Z) * (rio_t * env) :=
  if 0 <? cnt rp then (Ret None, (rp, s))
  else
    match Wait (fd rp) s with
    | (Ret v, s) =>
        if v <? 0 then (Ret (Some (-1)), (rp, s))
        else
          match answers with
          | [] => (Starved, (rp, s))
          | a :: answers =>
              let '(rp, s) := sys_read rp a (set_reads answers s) in
              if cnt rp <? 0 then
                if negb (errno s =? EINTR) && negb (errno s =? EAGAIN)
                then (Ret (Some (-1)), (rp, s))
                else rio_fill answers rp s
              else if cnt rp =? 0 then (Ret (Some 0), (rp, s))
              else rio_fill answers (Rio (fd rp) (cnt rp) 0 (buf rp)) s
          end
    | (o, s) => (no_value o, (rp, s))
    end.

(** [rio_read] (63-124): the value returned and the bytes copied to
    [usrbuf]. *)
Definition rio_read (n : Z) : M (rio_t * env) (Z * bytes) := fun '(rp, s) =>
  match rio_fill (reads s) rp s with
  | (Ret (Some v), st) => (Ret (v, []), st)
  | (Ret None, (rp, s)) =>
      let c := if cnt rp <? n then cnt rp else n in
      if (bufp rp + c <=? Z.of_nat (length (buf rp))) then
        let data := take (Z.to_nat c) (drop (Z.to_nat (bufp rp)) (buf rp)) in
        let left := cnt rp - c in
        let rp := Rio (fd rp) left (if left <=? 0 then 0 else bufp rp + c) (buf rp) in
        (Ret (c, data), (rp, s))
      else (Undefined, (rp, s))
  | (o, st) => (no_value o, st)
  end.

(** [rio_readnb] (126-149): the loop on [nleft]; [acc] is what has been stored
    in [usrbuf].  An iteration that goes on has read at least one byte, so
    [n + 1] iterations are enough. *)
Fixpoint rio_readnb_loop (fuel : nat) (n nleft : Z) (acc : bytes)
  : M (rio_t * env) (Z * bytes) :=
  match fuel with
  | O => fail Starved
  | S fuel =>
      if 0 <? nleft then
        let* (nread, data) := rio_read nleft in
        let* e := gets (fun st => errno st.2) in
        if nread <? 0 then
          if e =? EINTR then rio_readnb_loop fuel n nleft acc
          else ret (-1, acc)
        else if nread =? 0 then ret (n - nleft, acc)
        else rio_readnb_loop fuel n (nleft - nread) (acc ++ data)
      else ret (n - nleft, acc)
  end.

Definition rio_readnb (n : Z) : M (rio_t * env) (Z * bytes) :=
  rio_readnb_loop (S (Z.to_nat n)) n n [].

(** The loop of [rio_write] (157-175): [Some v] when it returns [v] early. *)
Fixpoint rio_write_loop (answers : list write_answer) (f : Z) (data : bytes)
    (s : env) : outcome (option Z) * env :=
  match data with
  | [] => (Ret None, s)
  | _ =>
      match Wait f s with
      | (Ret v, s) =>
          if v <? 0 then (Ret (Some (-1)), s)
          else
            match answers with
            | [] => (Starved, s)
            | WrErr e :: answers =>
                let s := set_errno e (set_writes answers s) in
                if e =? EINTR then rio_write_loop answers f data s
                else (Lock f F_UNLCK ;;; ret (Some (-1))) s
            | WrCount k :: answers =>
                let s := log (EvWrite f (take k data)) (set_writes answers s) in
                rio_write_loop answers f (drop k data) s
            end
      | (o, s) => (no_value o, s)
      end
  end.

(** [rio_write] (151-180) *)
Definition rio_write (f : Z) (data : bytes) : M env Z :=
  let* v := Lock f F_WRLCK in
  if v <? 0 then ret (-1)
  else
    let* early := (fun s => rio_write_loop (writes s) f data s) in
    match early with
    | Some v => ret v
    | None =>
        let* v := Lock f F_UNLCK in
        if v <? 0 then ret (-1) else ret (Z.of_nat (length data))
    end.

(** ** Invariant and abstract contents *)

(** The buffer keeps its size and the unread bytes lie inside it. *)
Definition rio_wf (rp : rio_t) : Prop :=
  Z.of_nat (length (buf rp)) = RIO_BUFSIZE
  /\ 0 <= bufp rp <= RIO_BUFSIZE
  /\ (cnt rp <= 0 \/ bufp rp + cnt rp <= RIO_BUFSIZE).

(** The bytes already read from the descriptor and not yet consumed. *)
Definition pending (rp : rio_t) : bytes :=
  take (Z.to_nat (cnt rp)) (drop (Z.to_nat (bufp rp)) (buf rp)).

(** All the bytes a reader of [rp] still has in front of it. *)
Definition unread (st : rio_t * env) : bytes :=
  pending st.1 ++ stream st.2 (fd st.1).

(** The buffer as [rio_readinit] leaves it. *)
Lemma fresh_rio_wf f :
  rio_wf (Rio f 0 0 (replicate (Z.to_nat RIO_BUFSIZE) Init.Byte.x00)).
Proof.
  unfold rio_wf; cbn [buf bufp cnt]. rewrite length_replicate.
  unfold RIO_BUFSIZE, ETH_FRAME_LEN, PROXY_HLEN. lia.
Qed.

(** What reading leaves alone. *)
Definition reads_only (st st' : rio_t * env) : Prop :=
  fd st'.1 = fd st.1
  /\ trace st'.2 = trace st.2
  /\ setlks st'.2 = setlks st.2
  /\ writes st'.2 = writes st.2
  /\ clocks st'.2 = clocks st.2
  /\ forall f, f <> fd st.1 -> stream st'.2 f = stream st.2 f.

#[export] Instance reads_only_preorder : PreOrder reads_only.
Proof.
  split.
  - intros st. by repeat split.
  - intros st1 st2 st3 (F1 & T1 & L1 & W1 & C1 & S1) (F2 & T2 & L2 & W2 & C2 & S2).
    unfold reads_only.
    rewrite F2, T2, L2, W2, C2. repeat split; [done..|].
    intros f Hf. rewrite S2 by congruence. by apply S1.
Qed.

(** ** The retry loops *)

Lemma retry_loop_result l e :
  let '(o, l', e') := retry_loop l e in
  (o = Starved \/ ((o = Ret 0 \/ o = Ret (-1)) /\ e' <> EINTR))
  /\ (length l' <= length l)%nat.
Proof.
  revert e. induction l as [|[|e'] l IH]; intros e; simpl.
  - auto.
  - destruct (Z.eqb_spec e EINTR) as [->|Hn].
    + specialize (IH EINTR). destruct (retry_loop l EINTR) as [[o l'] e'].
      destruct IH. split; [done|lia].
    + split; [auto|simpl; lia].
  - destruct (Z.eqb_spec e' EINTR) as [->|Hn]; simpl.
    + specialize (IH EINTR). destruct (retry_loop l EINTR) as [[o l'] e''].
      destruct IH. split; [done|lia].
    + split; [auto|lia].
Qed.

Lemma Wait_spec f s o s' :
  Wait f s = (o, s') ->
  (o = Starved \/ ((o = Ret 0 \/ o = Ret (-1)) /\ errno s' <> EINTR))
  /\ s' = set_errno (errno s') (set_polls (polls s') s)
  /\ (length (polls s') <= length (polls s))%nat.
Proof.
  unfold Wait. pose proof (retry_loop_result (polls s) (errno s)) as H.
  destruct (retry_loop (polls s) (errno s)) as [[o' l'] e']. intros [= <- <-].
  destruct H. split; [|split]; done.
Qed.

Lemma Wait_reads_only f s o s' rp :
  Wait f s = (o, s') -> reads_only (rp, s) (rp, s').
Proof. intros H. apply Wait_spec in H as (_ & -> & _). by repeat split. Qed.

Lemma Wait_stream f s o s' g :
  Wait f s = (o, s') -> stream s' g = stream s g /\ reads s' = reads s.
Proof. intros H. apply Wait_spec in H as (_ & -> & _). done. Qed.

(** ** The buffer *)

Lemma pending_nonpos rp : cnt rp <= 0 -> pending rp = [].
Proof. intros H. unfold pending. by rewrite Z2Nat.nonpos. Qed.

Lemma stream_insert s f l g :
  stream (set_input (<[f := l]> (input s)) s) g =
    if decide (f = g) then l else stream s g.
Proof.
  unfold stream; simpl. destruct (decide (f = g)) as [->|Hn].
  - by rewrite lookup_insert_eq.
  - by rewrite lookup_insert_ne.
Qed.

(** One [read] into an exhausted buffer moves bytes from the descriptor to the
    buffer without losing or reordering any; the buffer pointer is then reset,
    unless nothing was read. *)
Lemma sys_read_spec rp a s rp' s' b :
  rio_wf rp -> cnt rp <= 0 ->
  sys_read rp a s = (rp', s') ->
  b = 0 \/ (cnt rp' <= 0 /\ b = bufp rp') ->
  let rp0 := Rio (fd rp') (cnt rp') b (buf rp') in
  rio_wf rp0 /\ unread (rp0, s') = unread (rp, s)
  /\ reads_only (rp, s) (rp0, s').
Proof.
  intros (Hlen & Hb & Hc) Hcnt Hr Hb0 rp0. unfold unread. cbn [fst snd].
  rewrite (pending_nonpos rp) by done.
  destruct a as [k|e]; simpl in Hr; simplify_eq; subst rp0;
    cbn [fd cnt bufp buf] in *.
  - set (data := take (min k _) _) in *.
    assert (length data <= Z.to_nat RIO_BUFSIZE)%nat as Hd.
    { unfold data. rewrite length_take. lia. }
    split; [|split].
    + unfold rio_wf; cbn [buf cnt bufp].
      rewrite length_app, length_drop. lia.
    + rewrite stream_insert, decide_True by done.
      transitivity (data ++ drop (length data) (stream s (fd rp))).
      * f_equal. unfold pending; cbn [cnt bufp buf].
        destruct Hb0 as [->|[Hz ->]].
        -- rewrite Nat2Z.id. change (Z.to_nat 0) with 0%nat.
           by rewrite drop_0, take_app_length.
        -- destruct data; [done|simpl in Hz; lia].
      * unfold data; clear. rewrite length_take.
        destruct (Nat.le_ge_cases (min k (Z.to_nat RIO_BUFSIZE))
          (length (stream s (fd rp)))).
        -- rewrite (Nat.min_l _ (length _)) by lia. apply take_drop.
        -- rewrite (Nat.min_r _ (length _)), drop_ge, app_nil_r by lia.
           by rewrite take_ge by lia.
    + repeat split; try done. cbn [fst snd]. intros f Hf.
      rewrite stream_insert. by rewrite decide_False by congruence.
  - split; [|split].
    + unfold rio_wf; cbn [buf cnt bufp]. lia.
    + by rewrite pending_nonpos by (simpl; lia).
    + by repeat split.
Qed.

Lemma rio_eta rp : Rio (fd rp) (cnt rp) (bufp rp) (buf rp) = rp.
Proof. by destruct rp. Qed.

(** The loop of [rio_read] conserves the unread bytes and keeps the buffer
    well-formed, whatever the kernel answers. *)
Lemma rio_fill_spec answers rp s o st' :
  rio_wf rp ->
  rio_fill answers rp s = (o, st') ->
  rio_wf st'.1 /\ unread st' = unread (rp, s) /\ reads_only (rp, s) st'
  /\ (o = Starved \/ (o = Ret (Some (-1)) /\ errno st'.2 <> EINTR)
      \/ o = Ret (Some 0)
      \/ (o = Ret None /\ 0 < cnt st'.1)).
Proof.
  revert rp s. induction answers as [|a answers IH]; intros rp s Hwf; simpl;
    (destruct (Z.ltb_spec 0 (cnt rp)) as [Hc|Hc];
      [by intros [= <- <-]; repeat split; auto 10; apply Hwf|]);
    destruct (Wait (fd rp) s) as [ow s1] eqn:Hw;
    pose proof (Wait_reads_only _ _ _ _ rp Hw) as Hro;
    destruct (Wait_stream _ _ _ _ (fd rp) Hw) as [Hstr _];
    apply Wait_spec in Hw as ([->|[[-> | ->] He]] & _ & _); simpl;
    try (intros [= <- <-]; unfold unread; cbn [fst snd]; rewrite Hstr; by auto 10).
  destruct (sys_read rp a (set_reads answers s1)) as [rp2 s2] eqn:Hr.
  assert (forall b, b = 0 \/ (cnt rp2 <= 0 /\ b = bufp rp2) ->
    let rp0 := Rio (fd rp2) (cnt rp2) b (buf rp2) in
    rio_wf rp0 /\ unread (rp0, s2) = unread (rp, s) /\ reads_only (rp, s) (rp0, s2))
    as Hread.
  { intros b Hb. destruct (sys_read_spec _ _ _ _ _ b Hwf Hc Hr Hb) as (Hw2 & Hu2 & Hr2).
    split; [done|]. split.
    - rewrite Hu2. unfold unread; cbn [fst snd]. rewrite <- Hstr. done.
    - etransitivity; [exact Hro|exact Hr2]. }
  destruct (Z.ltb_spec (cnt rp2) 0) as [Hneg|Hpos];
    [|destruct (Z.eqb_spec (cnt rp2) 0) as [Hz|Hnz]].
  - destruct (Hread (bufp rp2)) as (Hw2 & Hu2 & Hr2); [right; split; [lia|done]|].
    rewrite rio_eta in *.
    destruct (Z.eqb_spec (errno s2) EINTR) as [Hi|Hi],
      (Z.eqb_spec (errno s2) EAGAIN) as [Ha|Ha]; cbn [negb andb].
    4: { intros [= <- <-]. split_and!; [done..|by auto]. }
    all: intros Hf; destruct (IH _ _ Hw2 Hf) as (? & Hu & Hro2 & Ho);
      split; [done|]; (split; [congruence|]); split; [by etransitivity|done].
  - destruct (Hread (bufp rp2)) as (Hw2 & Hu2 & Hr2); [right; split; [lia|done]|].
    rewrite rio_eta in *. intros [= <- <-]. split_and!; [done..|by auto].
  - destruct (Hread 0) as (Hw2 & Hu2 & Hr2); [by left|].
    intros Hf. destruct (IH _ _ Hw2 Hf) as (? & Hu & Hro2 & Ho).
    split; [done|]. split; [congruence|]. split; [by etransitivity|done].
Qed.

(** Consuming [c] bytes of a well-formed buffer. *)
Lemma rio_consume rp c :
  rio_wf rp -> 0 <= c <= cnt rp ->
  let data := take (Z.to_nat c) (drop (Z.to_nat (bufp rp)) (buf rp)) in
  let left := cnt rp - c in
  let rp' := Rio (fd rp) left (if left <=? 0 then 0 else bufp rp + c) (buf rp) in
  (bufp rp + c <=? Z.of_nat (length (buf rp))) = true
  /\ rio_wf rp' /\ pending rp = data ++ pending rp'
  /\ Z.of_nat (length data) = c.
Proof.
  intros (Hlen & Hb & Hc) Hc0 data left rp'.
  split; [lia|]. split; [|split].
  - unfold rio_wf, rp', left; cbn [buf bufp cnt].
    destruct (Z.leb_spec (cnt rp - c) 0); lia.
  - unfold pending, data, rp', left; cbn [buf bufp cnt].
    destruct (Z.leb_spec (cnt rp - c) 0) as [Hl|Hl].
    + rewrite (Z2Nat.nonpos (cnt rp - c)) by done. simpl. rewrite app_nil_r.
      by replace c with (cnt rp) by lia.
    + replace (Z.to_nat (bufp rp + c)) with (Z.to_nat (bufp rp) + Z.to_nat c)%nat by lia.
      rewrite <- drop_drop.
      replace (Z.to_nat (cnt rp)) with (Z.to_nat c + Z.to_nat (cnt rp - c))%nat by lia.
      by rewrite take_take_drop.
  - unfold data. rewrite length_take, length_drop. lia.
Qed.

(** What [rio_read] and [rio_readnb] guarantee for every behaviour of the
    kernel: the access to the buffer is in bounds, the bytes delivered are
    the next ones of the descriptor, and none is lost. *)
Definition read_spec (n : Z) (st : rio_t * env) (o : outcome (Z * bytes))
    (st' : rio_t * env) : Prop :=
  rio_wf st'.1 /\ reads_only st st'
  /\ match o with
     | Ret (v, data) =>
         unread st = data ++ unread st'
         /\ ((v = -1 /\ data = [] /\ errno st'.2 <> EINTR)
             \/ (v = Z.of_nat (length data) /\ v <= n))
     | Starved => exists data, unread st = data ++ unread st'
     | _ => False
     end.

Lemma rio_read_spec n rp s o st' :
  rio_wf rp -> 0 < n ->
  rio_read n (rp, s) = (o, st') -> read_spec n (rp, s) o st'.
Proof.
  intros Hwf Hn. unfold rio_read.
  destruct (rio_fill (reads s) rp s) as [o0 [rp1 s1]] eqn:Hf.
  destruct (rio_fill_spec _ _ _ _ _ Hwf Hf) as (Hwf1 & Hu & Hro & Ho).
  destruct Ho as [->|[[-> He]|[->|[-> Hc]]]].
  - intros [= <- <-]. split_and!; [done..|]. by exists [].
  - intros [= <- <-]. split_and!; [done..|simpl; by rewrite Hu|by left].
  - intros [= <- <-]. split_and!; [done..|simpl; by rewrite Hu|].
    right. simpl. lia.
  - simpl in Hc, Hwf1.
    set (c := if cnt rp1 <? n then cnt rp1 else n).
    assert (0 <= c <= cnt rp1 /\ c <= n) as [Hcb Hcn].
    { unfold c. destruct (Z.ltb_spec (cnt rp1) n); lia. }
    destruct (rio_consume rp1 c Hwf1 Hcb) as (-> & Hwf2 & Hp & Hlen).
    intros [= <- <-]. split_and!; [done| |simpl|simpl; right; lia].
    + etransitivity; [exact Hro|by repeat split].
    + rewrite <- Hu. unfold unread at 1; cbn [fst snd]. rewrite Hp at 1.
      by rewrite <- app_assoc.
Qed.

(** The loop of [rio_readnb] stops on end of file or error; any other read has
    made progress, so the fuel is never used up. *)
Lemma rio_readnb_loop_spec fuel n nleft acc st o st' :
  rio_wf st.1 -> (Z.to_nat nleft < fuel)%nat -> 0 <= nleft ->
  n - nleft = Z.of_nat (length acc) ->
  rio_readnb_loop fuel n nleft acc st = (o, st') ->
  rio_wf st'.1 /\ reads_only st st'
  /\ match o with
     | Ret (v, data) =>
         exists data', data = acc ++ data' /\ unread st = data' ++ unread st'
         /\ (v = -1 \/ (v = Z.of_nat (length data) /\ v <= n))
     | Starved => exists data, unread st = data ++ unread st'
     | _ => False
     end.
Proof.
  revert nleft acc st. induction fuel as [|fuel IH];
    intros nleft acc [rp s] Hwf Hfuel Hleft Hacc; [lia|]. simpl in Hwf.
  cbn [rio_readnb_loop]. destruct (Z.ltb_spec 0 nleft) as [Hpos|Hz].
  2: { intros [= <- <-]. split_and!; [done..|]. exists []. rewrite app_nil_r.
       split_and!; [done..|right; lia]. }
  unfold bind at 1.
  destruct (rio_read nleft (rp, s)) as [o1 st1] eqn:Hr.
  destruct (rio_read_spec _ _ _ _ _ Hwf Hpos Hr) as (Hwf1 & Hro & Hm).
  destruct o1 as [[v data]| | | | |]; try done; cbn.
  2: { intros [= <- <-]. by split_and!. }
  destruct Hm as [Hu Hv]. destruct (Z.ltb_spec v 0) as [Hneg|Hnn].
  { destruct (Z.eqb_spec (errno st1.2) EINTR) as [He|He]; [lia|].
    intros [= <- <-]. split_and!; [done..|].
    assert (data = []) as -> by (destruct Hv as [[_ [-> _]]|[? _]]; [done|lia]).
    exists []. rewrite app_nil_r. split_and!; [done..|by left]. }
  destruct (Z.eqb_spec v 0) as [->|Hnz].
  - intros [= <- <-]. destruct data; [|simpl in Hv; lia].
    split_and!; [done..|]. exists []. rewrite app_nil_r.
    split_and!; [done..|right; lia].
  - destruct Hv as [[? _]|[Hv Hvn]]; [lia|]. intros Hrun.
    apply IH in Hrun as (Hw2 & Hro2 & Hm2); [|done|lia|lia|rewrite length_app; lia].
    split; [done|]. split; [by etransitivity|].
    destruct o as [[v' d']| | | | |]; try done.
    + destruct Hm2 as (d & -> & Hu2 & Hv2). exists (data ++ d).
      rewrite app_assoc. split_and!; [done| |done]. rewrite Hu, Hu2. apply app_assoc.
    + destruct Hm2 as (d & Hu2). exists (data ++ d). rewrite Hu, Hu2. apply app_assoc.
Qed.

(** What writing to [f] leaves alone, and what it may add to the trace. *)
Definition writes_only (f : Z) (s s' : env) : Prop :=
  input s' = input s /\ reads s' = reads s /\ clocks s' = clocks s
  /\ results s' = results s
  /\ exists t, trace s' = trace s ++ t
       /\ Forall (fun ev => (exists ty, ev = EvSetLk f ty)
                            \/ (exists bs, ev = EvWrite f bs)) t.

#[export] Instance writes_only_preorder f : PreOrder (writes_only f).
Proof.
  split.
  - intros s. split_and!; [done..|]. exists []. by rewrite app_nil_r.
  - intros s1 s2 s3 (I1 & R1 & C1 & F1 & t1 & T1 & A1)
      (I2 & R2 & C2 & F2 & t2 & T2 & A2).
    unfold writes_only. rewrite I2, R2, C2, F2. split_and!; [done..|].
    exists (t1 ++ t2). rewrite T2, T1, app_assoc. split; [done|].
    by apply Forall_app.
Qed.

Lemma writes_only_log f ev s :
  (exists ty, ev = EvSetLk f ty) \/ (exists bs, ev = EvWrite f bs) ->
  writes_only f s (log ev s).
Proof. intros H. split_and!; [done..|]. exists [ev]. split; [done|]. by constructor. Qed.

Lemma writes_only_other f g s s' :
  writes_only f s s' -> f <> g ->
  written g (trace s') = written g (trace s).
Proof.
  intros (_ & _ & _ & _ & t & -> & Ht) Hfg. rewrite written_app.
  assert (written g t = []) as ->; [|by rewrite app_nil_r].
  induction Ht as [|ev t [[ty ->]|[bs ->]] _ IH]; [done|exact IH|].
  unfold written in *; simpl. rewrite IH.
  destruct (Z.eqb_spec g f); [congruence|done].
Qed.

Lemma Lock_spec f ty s o s' :
  Lock f ty s = (o, s') ->
  (o = Starved \/ ((o = Ret 0 \/ o = Ret (-1)) /\ errno s' <> EINTR))
  /\ writes_only f s s' /\ writes s' = writes s
  /\ written f (trace s') = written f (trace s).
Proof.
  unfold Lock. pose proof (retry_loop_result (setlks s) (errno s)) as H.
  destruct (retry_loop (setlks s) (errno s)) as [[o' l'] e']. destruct H as [H _].
  assert (forall s0, s0 = set_errno e' (set_setlks l' s) ->
    writes_only f s s0 /\ writes s0 = writes s
    /\ written f (trace s0) = written f (trace s)) as Hid.
  { intros ? ->. split_and!; [|done..]. split_and!; [done..|].
    exists []. by rewrite app_nil_r. }
  destruct (Hid _ eq_refl) as (Hw & Hws & Hwr).
  destruct H as [->|[[-> | ->] He]]; intros [= <- <-].
  - split; [by left|by auto].
  - split; [by auto|]. split_and!; [|done|].
    + etransitivity; [exact Hw|]. apply writes_only_log. by eauto.
    + simpl. rewrite written_app. unfold written at 2; simpl.
      by rewrite app_nil_r.
  - split; [by auto|by auto].
Qed.

Lemma Wait_writes_only f s o s' :
  Wait f s = (o, s') ->
  writes_only f s s' /\ writes s' = writes s
  /\ written f (trace s') = written f (trace s).
Proof.
  intros H. apply Wait_spec in H as (_ & -> & _). split_and!; [|done..].
  split_and!; [done..|]. exists []. by rewrite app_nil_r.
Qed.

(** The loop of [rio_write] sends the data in order: a prefix of it when it
    stops early, all of it when it does not. *)
Lemma rio_write_loop_spec answers f data s o s' :
  rio_write_loop answers f data s = (o, s') ->
  writes_only f s s'
  /\ exists sent rest, data = sent ++ rest
     /\ written f (trace s') = written f (trace s) ++ sent
     /\ (o = Starved \/ o = Ret (Some (-1)) \/ (o = Ret None /\ rest = [])).
Proof.
  revert data s. induction answers as [|a answers IH]; intros data s; simpl;
    (destruct data as [|b data];
      [intros [= <- <-]; split; [done|]; exists [], [];
       rewrite !app_nil_r; by auto 10|]);
    destruct (Wait f s) as [ow s1] eqn:Hw;
    destruct (Wait_writes_only _ _ _ _ Hw) as (Hwo & _ & Hwr);
    apply Wait_spec in Hw as ([->|[[-> | ->] He]] & _ & _); simpl;
    try (intros [= <- <-]; split; [done|]; exists [], (b :: data);
         rewrite app_nil_r; by auto 10).
  destruct a as [k|e].
  - intros Hrun.
    assert (writes_only f s1 (log (EvWrite f (take k (b :: data)))
      (set_writes answers s1))) as Hlog.
    { etransitivity; [|apply writes_only_log; by eauto].
      split_and!; [done..|]. exists []. by rewrite app_nil_r. }
    destruct (IH _ _ Hrun) as (Hwo2 & sent & rest & Hd & Hw2 & Ho).
    split; [by (etransitivity; [exact Hwo|etransitivity; [exact Hlog|exact Hwo2]])|].
    exists (take k (b :: data) ++ sent), rest. split_and!; [|rewrite Hw2|exact Ho].
    + by rewrite <- app_assoc, <- Hd, take_drop.
    + simpl trace. rewrite written_app, Hwr, <- app_assoc. f_equal.
      unfold written; simpl. rewrite Z.eqb_refl. by rewrite app_nil_r.
  - destruct (Z.eqb_spec e EINTR) as [->|Hne].
    + intros Hrun. destruct (IH _ _ Hrun) as (Hwo2 & sent & rest & Hd & Hw2 & Ho).
      split; [by etransitivity; [exact Hwo|exact Hwo2]|].
      exists sent, rest. split_and!; [done|rewrite Hw2; by rewrite <- Hwr|done].
    + unfold bind, ret. set (s2 := set_errno e (set_writes answers s1)).
      destruct (Lock f F_UNLCK s2) as [ol s3] eqn:Hl.
      destruct (Lock_spec _ _ _ _ _ Hl) as (Hol & Hwo3 & _ & Hwr3).
      assert (writes_only f s s3) as Hall.
      { etransitivity; [exact Hwo|exact Hwo3]. }
      intros Hrun. assert (s' = s3 /\ (o = Starved \/ o = Ret (Some (-1)))) as [-> Ho].
      { destruct Hol as [->|[[-> | ->] _]]; simpl in Hrun; simplify_eq; auto. }
      split; [done|]. exists [], (b :: data). rewrite app_nil_r.
      split_and!; [done|rewrite Hwr3; exact Hwr|].
      destruct Ho; by auto.
Qed.

Lemma rio_write_spec f data s o s' :
  rio_write f data s = (o, s') ->
  writes_only f s s'
  /\ exists sent rest, data = sent ++ rest
     /\ written f (trace s') = written f (trace s) ++ sent
     /\ (o = Starved \/ o = Ret (-1)
         \/ (o = Ret (Z.of_nat (length data)) /\ rest = [])).
Proof.
  unfold rio_write, bind, ret.
  destruct (Lock f F_WRLCK s) as [o1 s1] eqn:Hl.
  destruct (Lock_spec _ _ _ _ _ Hl) as (Ho1 & Hwo1 & _ & Hw1).
  assert (forall o s', writes_only f s1 s' ->
    written f (trace s') = written f (trace s1) ->
    o = Starved \/ o = Ret (-1) ->
    writes_only f s s' /\ exists sent rest : bytes, data = sent ++ rest
      /\ written f (trace s') = written f (trace s) ++ sent
      /\ (o = Starved \/ o = Ret (-1)
          \/ (o = Ret (Z.of_nat (length data)) /\ rest = []))) as Hstop.
  { intros o0 s0 Hwo0 Hw0 Ho0. split; [by etransitivity|].
    exists [], data. rewrite app_nil_r. split_and!; [done|congruence|].
    destruct Ho0; auto. }
  destruct Ho1 as [->|[[-> | ->] _]]; simpl.
  { intros [= <- <-]. by apply Hstop; auto. }
  2: { intros [= <- <-]. by apply Hstop; auto. }
  destruct (rio_write_loop (writes s1) f data s1) as [o2 s2] eqn:Hloop.
  destruct (rio_write_loop_spec _ _ _ _ _ _ Hloop)
    as (Hwo2 & sent & rest & Hd & Hw2 & Ho2).
  assert (writes_only f s s2) as Hwo by by etransitivity.
  destruct Ho2 as [->|[->|[-> ->]]]; simpl.
  - intros [= <- <-]. split; [done|]. exists sent, rest.
    split_and!; [done|congruence|auto].
  - intros [= <- <-]. split; [done|]. exists sent, rest.
    split_and!; [done|congruence|auto].
  - destruct (Lock f F_UNLCK s2) as [o3 s3] eqn:Hl3.
    destruct (Lock_spec _ _ _ _ _ Hl3) as (Ho3 & Hwo3 & _ & Hw3).
    intros Hrun.
    assert (s' = s3 /\ (o = Starved \/ o = Ret (-1)
      \/ o = Ret (Z.of_nat (length data)))) as [-> Ho].
    { destruct Ho3 as [->|[[-> | ->] _]]; simpl in Hrun; simplify_eq; auto. }
    split; [by etransitivity|]. exists sent, [].
    split_and!; [done|congruence|destruct Ho as [|[|]]; auto].
Qed.

(** ** Progress when the kernel co-operates *)

(** Neither starts a thread. *)
Lemma reads_only_started st st' : reads_only st st' -> started st'.2 = started st.2.
Proof. intros (_ & T & _). by apply started_same. Qed.

Lemma writes_only_started f s s' : writes_only f s s' -> started s' = started s.
Proof.
  intros (_ & _ & _ & _ & t & T & F). unfold started. rewrite T, omap_app.
  replace (omap is_start t) with (@nil (thread_fn * loc * Z)); [apply app_nil_r|].
  symmetry. clear T. induction F as [|ev t [[ty ->]|[bs ->]] F IH]; [done|exact IH|exact IH].
Qed.

(** [errno] is not left at [EINTR], and no call fails. *)
Definition calm (s : env) : Prop :=
  errno s <> EINTR
  /\ Forall (fun a => a = SysOk) (polls s)
  /\ Forall (fun a => a = SysOk) (setlks s).

Lemma Wait_calm f s :
  calm s -> polls s <> [] ->
  exists l, polls s = SysOk :: l
    /\ Wait f s = (Ret 0, set_errno (errno s) (set_polls l s))
    /\ calm (set_errno (errno s) (set_polls l s)).
Proof.
  intros (He & Hp & Hl) Hne. destruct (polls s) as [|a l] eqn:E; [done|].
  apply Forall_cons in Hp as [-> Hp]. exists l. split; [done|].
  unfold Wait. rewrite E; simpl. destruct (Z.eqb_spec (errno s) EINTR); [done|].
  by split_and!.
Qed.

Lemma Lock_calm f ty s :
  calm s -> setlks s <> [] ->
  exists l, setlks s = SysOk :: l
    /\ Lock f ty s =
         (Ret 0, log (EvSetLk f ty) (set_errno (errno s) (set_setlks l s)))
    /\ calm (set_errno (errno s) (set_setlks l s)).
Proof.
  intros (He & Hp & Hl) Hne. destruct (setlks s) as [|a l] eqn:E; [done|].
  apply Forall_cons in Hl as [-> Hl]. exists l. split; [done|].
  unfold Lock. rewrite E; simpl. destruct (Z.eqb_spec (errno s) EINTR); [done|].
  by split_and!.
Qed.

Definition accepting (l : list write_answer) : Prop :=
  Forall (fun a => exists k, a = WrCount (S k)) l.

(** Enough answers of the kernel for [n] calls of [rio_write] with [m] bytes in
    all. *)
Definition sends_ready (n m : nat) (s : env) : Prop :=
  calm s /\ (2 * n <= length (setlks s))%nat /\ (m <= length (polls s))%nat
  /\ (m <= length (writes s))%nat /\ accepting (writes s).

(** Enough answers of the kernel for [n] writes of [k] bytes. *)
Definition writes_ready (n k : nat) : env -> Prop := sends_ready n (n * k).

Lemma rio_write_loop_complete answers f data s :
  calm s -> answers = writes s ->
  (length data <= length answers)%nat -> (length data <= length (polls s))%nat ->
  accepting answers ->
  exists s', rio_write_loop answers f data s = (Ret None, s') /\ calm s'
    /\ setlks s' = setlks s
    /\ (length (polls s) <= length (polls s') + length data)%nat
    /\ (length answers <= length (writes s') + length data)%nat
    /\ accepting (writes s').
Proof.
  revert data s. induction answers as [|a answers IH]; intros data s Hc Hs Hl Hp Ha;
    (destruct data as [|b data];
      [exists s; split; [done|]; split; [done|]; split; [done|]; rewrite <- Hs;
       split; [simpl; lia|]; split; [simpl; lia|done]|]); [simpl in Hl; lia|].
  destruct (Wait_calm f s Hc) as (l & El & Hw & Hc1).
  { intros E. rewrite E in Hp. simpl in Hp. lia. }
  apply Forall_cons in Ha as [[k ->] Ha]. cbn [rio_write_loop]. rewrite Hw.
  cbn [Z.ltb Z.compare]. rewrite El in Hp. simpl in Hl, Hp.
  destruct (IH (drop (S k) (b :: data))
    (log (EvWrite f (take (S k) (b :: data)))
       (set_writes answers (set_errno (errno s) (set_polls l s)))))
    as (s' & Hrun & Hc' & Hk & Hlen & Hlw & Hacc); [exact Hc1|done| | |exact Ha|].
  - simpl. rewrite length_drop. lia.
  - simpl. rewrite length_drop. lia.
  - exists s'. split; [done|]. split; [done|]. split; [done|].
    cbn [log set_writes set_errno set_polls polls] in Hlen. rewrite El.
    simpl in Hlen, Hlw |- *. rewrite length_drop in Hlen, Hlw. by split_and!; [lia|lia|].
Qed.

(** Nothing prevents a complete write; at most a [poll] and a [write] per byte
    are used, and two calls of [fcntl]. *)
Lemma rio_write_completes f data s :
  writes_ready 1 (length data) s ->
  exists s', rio_write f data s = (Ret (Z.of_nat (length data)), s')
    /\ written f (trace s') = written f (trace s) ++ data
    /\ calm s' /\ writes_only f s s'
    /\ (length (polls s) <= length (polls s') + length data)%nat
    /\ (length (writes s) <= length (writes s') + length data)%nat
    /\ length (setlks s) = S (S (length (setlks s'))) /\ accepting (writes s').
Proof.
  intros (Hc & Hl & Hp & Hw & Ha).
  assert (exists s', rio_write f data s = (Ret (Z.of_nat (length data)), s')
    /\ calm s' /\ (length (polls s) <= length (polls s') + length data)%nat
    /\ (length (writes s) <= length (writes s') + length data)%nat
    /\ length (setlks s) = S (S (length (setlks s'))) /\ accepting (writes s'))
    as (s' & Hrun & Hrest).
  { unfold rio_write, bind, ret.
    destruct (Lock_calm f F_WRLCK s Hc) as (l & El & -> & Hc1).
    { intros E. rewrite E in Hl. simpl in Hl. lia. }
    cbn [Z.ltb Z.compare].
    set (s1 := log (EvSetLk f F_WRLCK) (set_errno (errno s) (set_setlks l s))).
    destruct (rio_write_loop_complete (writes s1) f data s1)
      as (s2 & -> & Hc2 & Hk & Hlen2 & Hlw2 & Hacc);
      [exact Hc1|done|simpl; lia|simpl; lia|done|].
    change (setlks s1) with l in Hk. rewrite El in Hl |- *. simpl in Hl.
    destruct (Lock_calm f F_UNLCK s2 Hc2) as (l2 & El2 & -> & Hc3).
    { rewrite Hk. intros ->. simpl in Hl. lia. }
    eexists. split; [reflexivity|]. split; [exact Hc3|]. split; [exact Hlen2|].
    split; [exact Hlw2|]. split; [|exact Hacc].
    rewrite <- Hk, El2. reflexivity. }
  exists s'. split; [done|].
  apply rio_write_spec in Hrun as (Hwo & sent & rest & -> & Hwr & Ho).
  destruct Ho as [?|[Hm|[_ ->]]]; [done|exfalso; injection Hm; lia|].
  rewrite app_nil_r in *. by destruct Hrest as (? & ? & ? & ? & ?).
Qed.

(** Each of [n + 1] writes leaves enough for the others. *)
Lemma rio_send_next n m f data s :
  sends_ready (S n) (length data + m) s ->
  exists s', rio_write f data s = (Ret (Z.of_nat (length data)), s')
    /\ written f (trace s') = written f (trace s) ++ data
    /\ writes_only f s s' /\ sends_ready n m s'.
Proof.
  intros (Hc & Hl & Hp & Hw & Ha).
  destruct (rio_write_completes f data s)
    as (s' & Hrun & Hwr & Hc' & Hwo & Hlp & Hlw & Hlk & Ha').
  { split; [done|]. split; [lia|]. split; [nia|]. split; [nia|done]. }
  exists s'. split; [done|]. split; [done|]. split; [done|].
  split; [done|]. split; [lia|]. split; [lia|]. split; [lia|done].
Qed.

Lemma rio_write_next n f data s :
  writes_ready (S n) (length data) s ->
  exists s', rio_write f data s = (Ret (Z.of_nat (length data)), s')
    /\ written f (trace s') = written f (trace s) ++ data
    /\ writes_only f s s' /\ writes_ready n (length data) s'.
Proof. apply rio_send_next. Qed.

Lemma rio_fill_complete answers rp s :
  rio_wf rp -> calm s -> polls s <> [] -> answers = reads s ->
  (cnt rp <= 0 -> stream s (fd rp) <> []) ->
  answers <> [] -> Forall (fun a => exists k, a = RdData (S k)) answers ->
  exists rp' s', rio_fill answers rp s = (Ret None, (rp', s'))
    /\ 0 < cnt rp' /\ calm s'
    /\ (length (polls s) <= S (length (polls s')))%nat
    /\ (length (reads s) <= S (length (reads s')))%nat
    /\ Forall (fun a => exists k, a = RdData (S k)) (reads s').
Proof.
  intros Hwf Hc Hp Hans Hst Hne Ha.
  destruct answers as [|a answers]; [done|]. cbn [rio_fill].
  destruct (Z.ltb_spec 0 (cnt rp)) as [Hpos|Hz].
  { exists rp, s. rewrite <- Hans. split_and!; try done; lia. }
  destruct (Wait_calm (fd rp) s Hc Hp) as (l & El & -> & Hc1).
  cbn [Z.ltb Z.compare]. pose proof Ha as Ha'.
  apply Forall_cons in Ha' as [[k ->] Ha']. cbn [sys_read].
  set (data := take _ (stream _ _)).
  assert (0 < Z.of_nat (length data)) as Hd.
  { unfold data. rewrite length_take.
    change (stream (set_reads answers (set_errno (errno s) (set_polls l s))) (fd rp))
      with (stream s (fd rp)).
    destruct (stream s (fd rp)) as [|b st] eqn:Est; [by specialize (Hst Hz)|].
    unfold RIO_BUFSIZE, ETH_FRAME_LEN, PROXY_HLEN. simpl length. lia. }
  cbn [cnt fd buf]. rewrite (proj2 (Z.ltb_ge _ _)) by lia.
  rewrite (proj2 (Z.eqb_neq _ _)) by lia.
  assert (forall ans rp1 s1, 0 < cnt rp1 ->
    rio_fill ans rp1 s1 = (Ret None, (rp1, s1))) as Hstop.
  { intros [|? ?] rp1 s1 H1; simpl; by rewrite (proj2 (Z.ltb_lt _ _)). }
  rewrite Hstop by (cbn [cnt]; lia).
  eexists _, _. split; [done|]. cbn [cnt]. split_and!; [lia|exact Hc1| | |done].
  - simpl. rewrite El. simpl. lia.
  - simpl. rewrite <- Hans. simpl. lia.
Qed.

Lemma rio_readnb_loop_complete fuel n nleft acc rp s :
  rio_wf rp -> calm s -> 0 <= nleft -> n - nleft = Z.of_nat (length acc) ->
  (Z.to_nat nleft < fuel)%nat ->
  (Z.to_nat nleft <= length (polls s))%nat ->
  (Z.to_nat nleft <= length (reads s))%nat ->
  nleft <= Z.of_nat (length (unread (rp, s))) ->
  Forall (fun a => exists k, a = RdData (S k)) (reads s) ->
  exists data st', rio_readnb_loop fuel n nleft acc (rp, s) = (Ret (n, data), st')
    /\ calm st'.2 /\ (length (polls s) <= length (polls st'.2) + Z.to_nat nleft)%nat
    /\ (length (reads s) <= length (reads st'.2) + Z.to_nat nleft)%nat
    /\ Forall (fun a => exists k, a = RdData (S k)) (reads st'.2).
Proof.
  revert nleft acc rp s. induction fuel as [|fuel IH];
    intros nleft acc rp s Hwf Hc Hleft Hacc Hfuel Hp Hr Hu Ha; [lia|].
  cbn [rio_readnb_loop]. destruct (Z.ltb_spec 0 nleft) as [Hpos|Hz].
  2: { exists acc, (rp, s). unfold ret. replace (n - nleft) with n by lia.
       by split_and!; [|apply Hc..|simpl; lia|simpl; lia|]. }
  assert (polls s <> []) as Hp0 by (intros E; rewrite E in Hp; simpl in Hp; lia).
  assert (reads s <> []) as Hr0 by (intros E; rewrite E in Hr; simpl in Hr; lia).
  destruct (rio_fill_complete (reads s) rp s) as
    (rp1 & s1 & Hf & Hc1 & Hcalm & Hp1 & Hr1 & Ha1); try done.
  { intros Hcz E. unfold unread in Hu; cbn [fst snd] in Hu.
    rewrite pending_nonpos, E in Hu by done. simpl in Hu. lia. }
  destruct (rio_fill_spec _ _ _ _ _ Hwf Hf) as (Hwf1 & Hun & Hro & _).
  cbn [fst] in Hwf1, Hc1.
  set (c := if cnt rp1 <? nleft then cnt rp1 else nleft).
  assert (0 < c <= nleft /\ c <= cnt rp1) as [Hcl Hcc].
  { unfold c. destruct (Z.ltb_spec (cnt rp1) nleft); lia. }
  destruct (rio_consume rp1 c Hwf1) as (Hin & Hwf2 & Hpend & Hlen); [lia|].
  unfold bind at 1. unfold rio_read. rewrite Hf. fold c. rewrite Hin.
  set (data := take _ _) in *. set (rp2 := Rio _ _ _ _) in *.
  cbn [bind gets]. unfold bind, gets. cbn [snd].
  rewrite (proj2 (Z.ltb_ge c 0)) by lia. rewrite (proj2 (Z.eqb_neq c 0)) by lia.
  destruct (IH (nleft - c) (acc ++ data) rp2 s1) as (data' & st' & Hrun & Hc' & Hpl & Hrl & Hfa);
    try done; [lia|rewrite length_app; lia|lia|lia|lia| |].
  - rewrite <- Hun in Hu. unfold unread in *; cbn [fst snd] in *.
    rewrite Hpend, !length_app in Hu. rewrite length_app.
    unfold rp2 at 2; cbn [fd]. lia.
  - exists data', st'. by split_and!; [|apply Hc'..|lia|lia|].
Qed.

(** Nothing prevents a complete read; at most a [poll] per byte is used. *)
Lemma rio_readnb_completes n rp s :
  rio_wf rp -> calm s -> 0 <= n ->
  n <= Z.of_nat (length (polls s)) -> n <= Z.of_nat (length (reads s)) ->
  Forall (fun a => exists k, a = RdData (S k)) (reads s) ->
  n <= Z.of_nat (length (unread (rp, s))) ->
  exists st', rio_readnb n (rp, s) =
      (Ret (n, take (Z.to_nat n) (unread (rp, s))), st')
    /\ unread st' = drop (Z.to_nat n) (unread (rp, s))
    /\ calm st'.2 /\ rio_wf st'.1 /\ reads_only (rp, s) st'
    /\ (length (polls s) <= length (polls st'.2) + Z.to_nat n)%nat
    /\ (length (reads s) <= length (reads st'.2) + Z.to_nat n)%nat
    /\ Forall (fun a => exists k, a = RdData (S k)) (reads st'.2).
Proof.
  intros Hwf Hc Hn Hp Hr Ha Hu.
  destruct (rio_readnb_loop_complete (S (Z.to_nat n)) n n [] rp s)
    as (data & st' & Hrun & Hcalm & Hlen & Hlr & Hfa); try done; try lia; [simpl; lia|].
  exists st'. unfold rio_readnb. rewrite Hrun.
  apply rio_readnb_loop_spec in Hrun as (Hw' & Hro & Hm); [|done|lia|lia|simpl; lia].
  destruct Hm as (d & -> & Hud & [?|[Hl _]]); [lia|].
  simpl in Hl. rewrite Hud. simpl app. rewrite Hl, Nat2Z.id.
  rewrite take_app_length, drop_app_length. rewrite Hl, Nat2Z.id in Hlen, Hlr.
  by repeat (split; [done|]).
Qed.

(** ** Properties *)

(** C3: Reading delivers the byte stream.  Whatever the kernel answers,
    [rio_readnb] never leaves its buffer, touches nothing but its descriptor,
    and the bytes it delivers are exactly the next unread ones: nothing is
    lost, duplicated or reordered between calls.  When it succeeds, the value
    it returns is the number of bytes delivered. *)
Theorem rio_readnb_stream n rp s o st' :
  rio_wf rp -> 0 <= n ->
  rio_readnb n (rp, s) = (o, st') ->
  rio_wf st'.1 /\ reads_only (rp, s) st'
  /\ match o with
     | Ret (v, data) =>
         unread (rp, s) = data ++ unread st'
         /\ (v = -1 \/ (v = Z.of_nat (length data) /\ v <= n))
     | Starved => exists data, unread (rp, s) = data ++ unread st'
     | _ => False
     end.
Proof.
  intros Hwf Hn Hrun.
  apply rio_readnb_loop_spec in Hrun as (Hw & Hro & Hm); [|done|lia|lia|simpl; lia].
  split; [done|]. split; [done|].
  destruct o as [[v data]| | | | |]; try done.
  by destruct Hm as (d & -> & Hu & Hv).
Qed.

(** C35: Reading completes.  If no system call fails and [errno] is not left at
    [EINTR], every [read] yields something, and at least [n] bytes are or will
    be available, then [rio_readnb] returns [n] and stores exactly the next
    [n] bytes. *)
Theorem rio_readnb_complete n rp s :
  rio_wf rp -> calm s -> 0 <= n ->
  n <= Z.of_nat (length (polls s)) -> n <= Z.of_nat (length (reads s)) ->
  Forall (fun a => exists k, a = RdData (S k)) (reads s) ->
  n <= Z.of_nat (length (unread (rp, s))) ->
  exists st', rio_readnb n (rp, s) =
    (Ret (n, take (Z.to_nat n) (unread (rp, s))), st').
Proof.
  intros Hwf Hc Hn Hp Hr Ha Hu.
  destruct (rio_readnb_completes n rp s) as (st' & Hrun & _); [done..|].
  by exists st'.
Qed.

(** C4: Writing sends the data in order.  Whatever the kernel answers, the
    bytes [rio_write] puts on its descriptor are a prefix of the data, only
    that descriptor is written to, and if it does not fail with [-1] it
    returns the length of the data after sending all of it. *)
Theorem rio_write_prefix f data s o s' :
  rio_write f data s = (o, s') ->
  writes_only f s s'
  /\ exists sent rest, data = sent ++ rest
     /\ written f (trace s') = written f (trace s) ++ sent
     /\ (o = Starved \/ o = Ret (-1)
         \/ (o = Ret (Z.of_nat (length data)) /\ rest = [])).
Proof. apply rio_write_spec. Qed.

(** Writing completes.  If no system call fails, [errno] is not left at
    [EINTR] and every [write] accepts at least a byte, [rio_write] sends all
    the data, however the kernel splits it. *)
Theorem rio_write_complete f data s :
  calm s -> (2 <= length (setlks s))%nat ->
  (length data <= length (polls s))%nat ->
  (length data <= length (writes s))%nat ->
  Forall (fun a => exists k, a = WrCount (S k)) (writes s) ->
  exists s', rio_write f data s = (Ret (Z.of_nat (length data)), s')
    /\ written f (trace s') = written f (trace s) ++ data.
Proof.
  intros Hc Hl Hp Hw Ha.
  destruct (rio_write_completes f data s) as (s' & Hrun & Hwr & _); [|by exists s'].
  split; [done|]. split; [lia|]. split; [lia|]. split; [lia|done].
Qed.

(** A signal can block [Wait] and [Lock] for ever.  Once [errno] is
    [EINTR], further successful calls do not end the loop: it returns only if
    a later call fails with another error, and then returns [-1]. *)
Theorem retry_loop_interrupted answers o l e :
  retry_loop answers EINTR = (o, l, e) ->
  (o = Starved /\ Forall (fun a => a = SysOk \/ a = SysErr EINTR) answers)
  \/ (o = Ret (-1) /\ exists e', e' <> EINTR /\ SysErr e' ∈ answers).
Proof.
  induction answers as [|[|e'] answers IH]; simpl.
  - intros [= <- <- <-]. by left.
  - intros H. destruct (IH H) as [[? ?]|(? & e' & ? & ?)]; [left|right].
    + split; [done|]. by constructor; [left|].
    + split; [done|]. exists e'. split; [done|]. by apply list_elem_of_further.
  - destruct (Z.eqb_spec e' EINTR) as [->|Hn]; simpl.
    + intros H. destruct (IH H) as [[? ?]|(? & e' & ? & ?)]; [left|right].
      * split; [done|]. by constructor; [right|].
      * split; [done|]. exists e'. split; [done|]. by apply list_elem_of_further.
    + intros [= <- <- <-]. right. split; [done|]. exists e'.
      split; [done|]. apply list_elem_of_here.
Qed.

(** [rio_readinit] discards the flags of the descriptor: [F_SETFL] is always
    called with [O_NONBLOCK] alone. *)
Theorem rio_readinit_flags f s rp s' :
  rio_readinit f s = (Ret rp, s') ->
  rio_wf rp /\ fd rp = f /\ pending rp = []
  /\ trace s' = trace s ++ [EvSetFl f O_NONBLOCK].
Proof.
  unfold rio_readinit, bind, sys_call, emit, modify, fail, ret.
  destruct (results s) as [|v l]; [done|]. cbn -[replicate].
  destruct (Z.ltb_spec v 0); cbn -[replicate]; [done|].
  destruct l as [|v2 l]; [done|]. cbn -[replicate].
  destruct (Z.ltb_spec v2 0); [done|]. cbn -[replicate].
  intros [= <- <-]. split; [exact (fresh_rio_wf f)|done].
Qed.

(** ** Witnesses *)

(** Descriptor 5 delivers five bytes in chunks of at most two. *)
Definition reading_env : env :=
  Env 0 (replicate 5 SysOk) [] (replicate 5 (RdData 2)) [] [] [] [] []
    {[ 5 := [Init.Byte.x01; Init.Byte.x02; Init.Byte.x03; Init.Byte.x04;
             Init.Byte.x05] ]} [].
Definition reading_rio : rio_t :=
  Rio 5 0 0 (replicate (Z.to_nat RIO_BUFSIZE) Init.Byte.x00).

Lemma reading_rio_wf : rio_wf reading_rio.
Proof. exact (fresh_rio_wf 5). Qed.

Definition writing_env : env :=
  Env 0 (replicate 4 SysOk) (replicate 2 SysOk) [] (replicate 4 (WrCount 3)) [] [] [] []
    ∅ [].

Lemma rio_readnb_stream_witness :
  rio_wf (rio_readnb 3 (reading_rio, reading_env)).2.1
  /\ exists v data,
       (rio_readnb 3 (reading_rio, reading_env)).1 = Ret (v, data)
       /\ unread (reading_rio, reading_env)
          = data ++ unread (rio_readnb 3 (reading_rio, reading_env)).2.
Proof.
  destruct (rio_readnb_stream 3 reading_rio reading_env _ _ reading_rio_wf
    ltac:(lia) (surjective_pairing _)) as (Hw & _ & Hm).
  split; [exact Hw|].
  destruct (rio_readnb 3 (reading_rio, reading_env)).1 as [[v data]| | | | |] eqn:E;
    try (vm_compute in E; discriminate E).
  exists v, data. split; [reflexivity|]. exact (proj1 Hm).
Defined.

Lemma rio_readnb_complete_witness :
  exists st', rio_readnb 3 (reading_rio, reading_env) =
    (Ret (3, [Init.Byte.x01; Init.Byte.x02; Init.Byte.x03]), st').
Proof.
  apply (rio_readnb_complete 3 reading_rio reading_env reading_rio_wf).
  - split_and!; [discriminate|by repeat constructor|constructor].
  - lia.
  - simpl. lia.
  - simpl. lia.
  - repeat constructor; by exists 1%nat.
  - vm_compute. discriminate.
Defined.

Lemma rio_write_prefix_witness :
  exists sent rest, [Init.Byte.x01; Init.Byte.x02] = sent ++ rest
    /\ written 7 (trace (rio_write 7 [Init.Byte.x01; Init.Byte.x02] writing_env).2)
       = sent.
Proof.
  destruct (rio_write_prefix 7 [Init.Byte.x01; Init.Byte.x02] writing_env _ _
    (surjective_pairing _)) as (_ & sent & rest & Hd & Hw & _).
  exists sent, rest. split; [exact Hd|exact Hw].
Defined.

Lemma rio_write_complete_witness :
  exists s', rio_write 7 [Init.Byte.x01; Init.Byte.x02] writing_env = (Ret 2, s')
    /\ written 7 (trace s') = [Init.Byte.x01; Init.Byte.x02].
Proof.
  apply (rio_write_complete 7 [Init.Byte.x01; Init.Byte.x02] writing_env).
  - split_and!; [discriminate|by repeat constructor|by repeat constructor].
  - simpl. lia.
  - simpl. lia.
  - simpl. lia.
  - repeat constructor; by exists 2%nat.
Defined.

Lemma retry_loop_interrupted_witness :
  (@Starved Z = Starved /\ Forall (fun a => a = SysOk \/ a = SysErr EINTR)
     [SysOk; SysErr EINTR; SysOk])
  \/ (@Starved Z = Ret (-1)
      /\ exists e', e' <> EINTR /\ SysErr e' ∈ [SysOk; SysErr EINTR; SysOk]).
Proof.
  exact (retry_loop_interrupted [SysOk; SysErr EINTR; SysOk] Starved [] EINTR
    eq_refl).
Defined.

Lemma rio_readinit_flags_witness :
  exists rp s', rio_readinit 5 (set_results [32770; 0] writing_env) = (Ret rp, s')
    /\ trace s' = [EvSetFl 5 O_NONBLOCK].
Proof.
  assert (rio_readinit 5 (set_results [32770; 0] writing_env) =
    (Ret reading_rio, (rio_readinit 5 (set_results [32770; 0] writing_env)).2))
    as E by (vm_compute; reflexivity).
  exists reading_rio, (rio_readinit 5 (set_results [32770; 0] writing_env)).2.
  split; [exact E|].
  exact (proj2 (proj2 (proj2 (rio_readinit_flags 5
    (set_results [32770; 0] writing_env) _ _ E)))).
Defined.
