(* ===== verification/World.v ===== *)
(** * The state of a proxy process (src/proxy.h, 108-120 and 301-312;
    src/proxy.c, 3-17)

    The global variables of the program, the heap of [Peer] structures and the
    operating system, as one record; the membership table of uthash as the
    list of its elements in application order; and the accesses the handlers
    share.  A pointer to a freed or never allocated [Peer] makes an access
    [Undefined]. *)

From S2P Require Export Rio RWLock.

(** [Peer] (proxy.h, 108-120) *)
Record Peer := MkPeer {
  p_timestamp : timespec;
  p_ls : link_state;
  p_rio : rio_t;
  p_tid : Z;
  p_timeout_tid : Z;
  p_timeout_mutex : bool;
  p_probe_ts : timespec;
  p_bandwidth : spec_float;
  p_linkWeight : spec_float
}.

(** A [Peer] filled with zeros by [memset]. *)
Definition zero_peer : Peer :=
  MkPeer (Timespec 0 0) zero_link_state zero_rio 0 0 false (Timespec 0 0)
    (S754_zero false) (S754_zero false).

(** [Config] (proxy.h, 192-198), without its unused [tap] member. *)
Record Config := MkConfig {
  listen_port : Z;
  link_period : Z;
  link_timeout : Z;
  quit_timer : Z
}.

Record world := World {
  io : env;
  locks : lock_state;
  hash_table : list loc;
  peers : gmap loc Peer;
  linkState : link_state;
  timestamp : timespec;
  config : Config;
  rio_tap : rio_t;
  tap_tid : Z;
  next_tid : Z;
  cancelled : list Z;
  self : Z
}.

Definition set_io (x : env) (s : world) : world :=
  World x (locks s) (hash_table s) (peers s) (linkState s) (timestamp s)
    (config s) (rio_tap s) (tap_tid s) (next_tid s) (cancelled s) (self s).
Definition set_locks (x : lock_state) (s : world) : world :=
  World (io s) x (hash_table s) (peers s) (linkState s) (timestamp s)
    (config s) (rio_tap s) (tap_tid s) (next_tid s) (cancelled s) (self s).
Definition set_hash_table (x : list loc) (s : world) : world :=
  World (io s) (locks s) x (peers s) (linkState s) (timestamp s)
    (config s) (rio_tap s) (tap_tid s) (next_tid s) (cancelled s) (self s).
Definition set_peers (x : gmap loc Peer) (s : world) : world :=
  World (io s) (locks s) (hash_table s) x (linkState s) (timestamp s)
    (config s) (rio_tap s) (tap_tid s) (next_tid s) (cancelled s) (self s).
Definition set_linkState (x : link_state) (s : world) : world :=
  World (io s) (locks s) (hash_table s) (peers s) x (timestamp s)
    (config s) (rio_tap s) (tap_tid s) (next_tid s) (cancelled s) (self s).
Definition set_timestamp (x : timespec) (s : world) : world :=
  World (io s) (locks s) (hash_table s) (peers s) (linkState s) x
    (config s) (rio_tap s) (tap_tid s) (next_tid s) (cancelled s) (self s).
Definition set_rio_tap (x : rio_t) (s : world) : world :=
  World (io s) (locks s) (hash_table s) (peers s) (linkState s) (timestamp s)
    (config s) x (tap_tid s) (next_tid s) (cancelled s) (self s).
Definition set_next_tid (x : Z) (s : world) : world :=
  World (io s) (locks s) (hash_table s) (peers s) (linkState s) (timestamp s)
    (config s) (rio_tap s) (tap_tid s) x (cancelled s) (self s).
Definition set_cancelled (x : list Z) (s : world) : world :=
  World (io s) (locks s) (hash_table s) (peers s) (linkState s) (timestamp s)
    (config s) (rio_tap s) (tap_tid s) (next_tid s) x (self s).

(** ** Running the operations of the other components *)

Definition in_io {A} (m : M env A) : M world A := zoom io set_io m.
Definition in_locks {A} (m : M lock_state A) : M world A := zoom locks set_locks m.

Definition readBegin : M world unit := in_locks read_begin.
Definition readEnd : M world unit := in_locks read_end.
Definition writeBegin : M world unit := in_locks write_begin.
Definition writeEnd : M world unit := in_locks write_end.

(** ** Peers *)

(** The structure a [Peer *] points to. *)
Definition peer (p : loc) : M world Peer := fun s => deref (peers s !! p) s.

Definition set_peer (p : loc) (x : Peer) : M world unit :=
  modify (fun s => set_peers (<[p := x]> (peers s)) s).

Definition with_ls (x : link_state) (q : Peer) : Peer :=
  MkPeer (p_timestamp q) x (p_rio q) (p_tid q) (p_timeout_tid q)
    (p_timeout_mutex q) (p_probe_ts q) (p_bandwidth q) (p_linkWeight q).
Definition with_rio (x : rio_t) (q : Peer) : Peer :=
  MkPeer (p_timestamp q) (p_ls q) x (p_tid q) (p_timeout_tid q)
    (p_timeout_mutex q) (p_probe_ts q) (p_bandwidth q) (p_linkWeight q).
Definition with_timestamp (x : timespec) (q : Peer) : Peer :=
  MkPeer x (p_ls q) (p_rio q) (p_tid q) (p_timeout_tid q)
    (p_timeout_mutex q) (p_probe_ts q) (p_bandwidth q) (p_linkWeight q).
Definition with_timeout_mutex (x : bool) (q : Peer) : Peer :=
  MkPeer (p_timestamp q) (p_ls q) (p_rio q) (p_tid q) (p_timeout_tid q)
    x (p_probe_ts q) (p_bandwidth q) (p_linkWeight q).
Definition with_tids (timeout t : Z) (q : Peer) : Peer :=
  MkPeer (p_timestamp q) (p_ls q) (p_rio q) t timeout
    (p_timeout_mutex q) (p_probe_ts q) (p_bandwidth q) (p_linkWeight q).
Definition with_probe_ts (x : timespec) (q : Peer) : Peer :=
  MkPeer (p_timestamp q) (p_ls q) (p_rio q) (p_tid q) (p_timeout_tid q)
    (p_timeout_mutex q) x (p_bandwidth q) (p_linkWeight q).
Definition with_bandwidth (b lw : spec_float) (q : Peer) : Peer :=
  MkPeer (p_timestamp q) (p_ls q) (p_rio q) (p_tid q) (p_timeout_tid q)
    (p_timeout_mutex q) (p_probe_ts q) b lw.

(** [malloc(sizeof(Peer))] and [memset]; [free]. *)
Definition alloc_peer : M world loc := fun s =>
  let p := fresh (dom (peers s)) in
  (Ret p, set_peers (<[p := zero_peer]> (peers s)) s).

Definition free_peer (p : loc) : M world unit :=
  peer p ;;;
  modify (fun s => set_peers (delete p (peers s)) s) ;;;
  in_io (emit (EvFree p)).

(** [pthread_mutex_lock] and [_unlock] on [pp->timeout_mutex]. *)
Definition timeout_lock (p : loc) : M world unit :=
  let* q := peer p in
  if p_timeout_mutex q then fail Blocked
  else set_peer p (with_timeout_mutex true q).
Definition timeout_unlock (p : loc) : M world unit :=
  let* q := peer p in set_peer p (with_timeout_mutex false q).

(** [rio_write(&pp->rio, data, n)] and [rio_readnb(&pp->rio, buf, n)]. *)
Definition peer_write (p : loc) (data : bytes) : M world Z :=
  let* q := peer p in in_io (rio_write (fd (p_rio q)) data).

Definition peer_readnb (p : loc) (n : Z) : M world (Z * bytes) :=
  let* q := peer p in
  fun s =>
    let '(o, (rp, e)) := rio_readnb n (p_rio q, io s) in
    (o, set_peers (<[p := with_rio rp q]> (peers s)) (set_io e s)).

(** [close(pp->rio.fd)] *)
Definition close_peer (p : loc) : M world unit :=
  let* q := peer p in in_io (emit (EvClose (fd (p_rio q)))).

(** ** Threads *)

Definition pthread_cancel (t : Z) : M world unit :=
  in_io (emit (EvCancel t)) ;;;
  modify (fun s => set_cancelled (t :: cancelled s) s).

Definition pthread_testcancel : M world unit := fun s =>
  if bool_decide (self s ∈ cancelled s) then (Cancelled, s) else (Ret tt, s).

Definition pthread_create (f : thread_fn) (p : loc) : M world Z := fun s =>
  let t := next_tid s in
  (Ret t, set_next_tid (t + 1) (set_io (log (EvCreate f p t) (io s)) s)).

(** ** The membership table

    The elements of a uthash table in application order.  [HASH_FIND] compares
    the keys, which are stored inside the elements; [HASH_ADD] appends;
    [HASH_DEL] unlinks an element of the table.  On an element that was never
    added, whose handle is zero, [HASH_DEL] takes the branch for the last
    element, frees the table and empties it. *)

Fixpoint find_key (ps : gmap loc Peer) (t : list loc) (k : mac)
  : option (option loc) :=
  match t with
  | [] => Some None
  | p :: t =>
      match ps !! p with
      | None => None
      | Some q => if decide (tapMAC (p_ls q) = k) then Some (Some p)
                  else find_key ps t k
      end
  end.

Definition hash_find (k : mac) : M world (option loc) := fun s =>
  deref (find_key (peers s) (hash_table s) k) s.

Definition hash_add (p : loc) : M world unit :=
  modify (fun s => set_hash_table (hash_table s ++ [p]) s).

Definition hash_del (p : loc) : M world unit :=
  peer p ;;;
  let* t := gets hash_table in
  if decide (p ∈ t) then
    modify (set_hash_table (filter (fun q => q <> p) t))
  else if decide (t = []) then fail Undefined
  else modify (set_hash_table []).

Definition hash_count : M world Z := gets (fun s => Z.of_nat (length (hash_table s))).

(** A loop over the elements; the successor of an element is fetched before
    the body runs, so the body may remove the element. *)
Fixpoint iter (body : loc -> M world unit) (t : list loc) : M world unit :=
  match t with
  | [] => ret tt
  | p :: t => body p ;;; iter body t
  end.

(** [HASH_ITER(hh, hash_table, pp, tmp)] *)
Definition hash_iter (body : loc -> M world unit) : M world unit :=
  let* t := gets hash_table in iter body t.
