(* ===== verification/Table.v ===== *)
(** * The membership table and its implementation (src/uthash.h; World.v)

    The handlers use the membership table through four operations.  The class
    [MemberTable] says what they promise: their results and their effect on a
    list of elements are those of [spec_op].  It has two instances, the list of
    [World], which the handlers are verified with, and the hash table of
    [UTHash], which the program is compiled with; a client that only uses the
    operations cannot tell them apart. *)

From S2P Require Export World UTHash.

(** ** The specification *)

Inductive table_op :=
| FindOp (k : mac)
| AddOp (p : loc)
| DelOp (p : loc)
| CountOp.

Inductive table_result :=
| Found (o : option loc)
| Changed
| Counted (n : Z).

(** The first element with the key [k]; [ks] are the keys stored in the
    elements. *)
Definition lookup_key (ks : gmap loc mac) (t : list loc) (k : mac) : option loc :=
  List.find (fun p => bool_decide (ks !! p = Some k)) t.

Definition without (p : loc) (t : list loc) : list loc := filter (fun q => q <> p) t.

Definition spec_op (ks : gmap loc mac) (t : list loc) (op : table_op)
  : table_result * list loc :=
  match op with
  | FindOp k => (Found (lookup_key ks t k), t)
  | AddOp p => (Changed, t ++ [p])
  | DelOp p => (Changed, without p t)
  | CountOp => (Counted (Z.of_nat (length t)), t)
  end.

(** The elements are live and their keys are distinct. *)
Definition well_keyed (ks : gmap loc mac) (t : list loc) : Prop :=
  NoDup t /\ (forall p, p ∈ t -> is_Some (ks !! p)) /\
  (forall p q, p ∈ t -> q ∈ t -> ks !! p = ks !! q -> p = q).

(** The way the program uses the table: it adds an element only when its key
    is not there, and deletes only elements of the table. *)
Definition legal (ks : gmap loc mac) (t : list loc) (op : table_op) : Prop :=
  match op with
  | FindOp _ | CountOp => True
  | AddOp p => is_Some (ks !! p) /\ (forall q, q ∈ t -> ks !! q <> ks !! p) /\
               Z.of_nat (length t) < 2 ^ 28 - 1
  | DelOp p => p ∈ t /\ Z.of_nat (length t) < 2 ^ 28
  end.

(** The operations that may double the buckets. *)
Definition doublings (t : list loc) (op : table_op) : nat :=
  match op with AddOp _ => if (9 <=? length t)%nat then 1 else 0 | _ => 0 end.

Fixpoint legal_run (ks : gmap loc mac) (t : list loc) (ops : list table_op) : Prop :=
  match ops with
  | [] => True
  | op :: ops => legal ks t op /\ legal_run ks (snd (spec_op ks t op)) ops
  end.

Fixpoint spec_run (ks : gmap loc mac) (t : list loc) (ops : list table_op)
  : list table_result * list loc :=
  match ops with
  | [] => ([], t)
  | op :: ops =>
      let '(r, t) := spec_op ks t op in
      let '(rs, t) := spec_run ks t ops in
      (r :: rs, t)
  end.

Fixpoint run_doublings (ks : gmap loc mac) (t : list loc) (ops : list table_op) : nat :=
  match ops with
  | [] => 0
  | op :: ops => doublings t op + run_doublings ks (snd (spec_op ks t op)) ops
  end.

Lemma without_fresh p t : p ∉ t -> without p t = t.
Proof.
  unfold without. induction t as [|q t IH]; [done|]. intros [Hq Ht]%not_elem_of_cons.
  rewrite filter_cons_True by done. by rewrite IH.
Qed.

Lemma without_spliced l p l' : NoDup (l ++ p :: l') -> without p (l ++ p :: l') = l ++ l'.
Proof.
  intros (_ & D & [Hp _]%NoDup_cons)%NoDup_app. unfold without.
  rewrite filter_app, filter_cons_False by naive_solver.
  fold (without p l) (without p l'). rewrite !without_fresh; [done|done|].
  intros Hl. apply (D p Hl). by left.
Qed.

(** ** The interface *)

(** The operations on the states [St]. *)
Class TableOps (St : Type) := {
  find_op : mac -> M St (option loc);
  add_op : loc -> M St unit;
  del_op : loc -> M St unit;
  count_op : M St Z }.

(** [holds j ks t s]: the state [s] holds the elements [t], and its buckets can
    be doubled another [j] times. *)
Class MemberTable (St : Type) `{TableOps St}
  (holds : nat -> gmap loc mac -> list loc -> St -> Prop) : Prop := {
  find_law j ks t s k :
    holds j ks t s -> well_keyed ks t -> find_op k s = (Ret (lookup_key ks t k), s);
  add_law j ks t s p :
    holds (doublings t (AddOp p) + j)%nat ks t s -> well_keyed ks t ->
    legal ks t (AddOp p) ->
    exists s', add_op p s = (Ret tt, s') /\ holds j ks (t ++ [p]) s';
  del_law j ks t s p :
    holds j ks t s -> well_keyed ks t -> legal ks t (DelOp p) ->
    exists s', del_op p s = (Ret tt, s') /\ holds j ks (without p t) s';
  count_law j ks t s :
    holds j ks t s -> count_op s = (Ret (Z.of_nat (length t)), s) }.

Definition run_op `{TableOps St} (op : table_op) : M St table_result :=
  match op with
  | FindOp k => let* o := find_op k in ret (Found o)
  | AddOp p => add_op p ;;; ret Changed
  | DelOp p => del_op p ;;; ret Changed
  | CountOp => let* n := count_op in ret (Counted n)
  end.

Fixpoint run_ops `{TableOps St} (ops : list table_op) : M St (list table_result) :=
  match ops with
  | [] => ret []
  | op :: ops => let* r := run_op op in let* rs := run_ops ops in ret (r :: rs)
  end.

(** ** Clients of the interface *)

Lemma well_keyed_add ks t p : well_keyed ks t -> legal ks t (AddOp p) -> well_keyed ks (t ++ [p]).
Proof.
  intros (ND & L & U) (Lp & N & _). split; [|split].
  - apply NoDup_app. split; [done|]. split; [|apply NoDup_singleton].
    intros q Hq ->%list_elem_of_singleton. by apply (N p).
  - intros q [Hq| ->%list_elem_of_singleton]%elem_of_app; [by apply L|done].
  - intros q r [Hq| ->%list_elem_of_singleton]%elem_of_app
      [Hr| ->%list_elem_of_singleton]%elem_of_app E; [by apply U| | |done].
    + by destruct (N q Hq).
    + by destruct (N r Hr).
Qed.

Lemma well_keyed_without ks t p : well_keyed ks t -> well_keyed ks (without p t).
Proof.
  intros (ND & L & U). unfold without. split; [by apply NoDup_filter|]. split.
  - intros q [_ Hq]%list_elem_of_filter. by apply L.
  - intros q r [_ Hq]%list_elem_of_filter [_ Hr]%list_elem_of_filter. by apply U.
Qed.

Lemma well_keyed_step ks t op :
  well_keyed ks t -> legal ks t op -> well_keyed ks (snd (spec_op ks t op)).
Proof. destruct op; cbn [snd spec_op]; eauto using well_keyed_add, well_keyed_without. Qed.

Section Client.
Context `{MemberTable St holds}.

Lemma run_op_spec op j ks t s :
  holds (doublings t op + j)%nat ks t s -> well_keyed ks t -> legal ks t op ->
  exists s', run_op op s = (Ret (fst (spec_op ks t op)), s') /\
             holds j ks (snd (spec_op ks t op)) s'.
Proof.
  intros Hs Hk Hl. destruct op as [k|p|p|]; cbn [run_op spec_op fst snd].
  - exists s. by rewrite (bind_ret_l _ _ _ _ _ (find_law _ _ _ _ k Hs Hk)).
  - destruct (add_law j ks t s p Hs Hk Hl) as (s' & R & H'). exists s'.
    by rewrite (bind_ret_l _ _ _ _ _ R).
  - destruct (del_law j ks t s p Hs Hk Hl) as (s' & R & H'). exists s'.
    by rewrite (bind_ret_l _ _ _ _ _ R).
  - exists s. by rewrite (bind_ret_l _ _ _ _ _ (count_law _ _ _ _ Hs)).
Qed.

Lemma run_ops_spec ops : forall j ks t s,
  holds (run_doublings ks t ops + j)%nat ks t s -> well_keyed ks t -> legal_run ks t ops ->
  exists s', run_ops ops s = (Ret (fst (spec_run ks t ops)), s') /\
             holds j ks (snd (spec_run ks t ops)) s'.
Proof.
  induction ops as [|op ops IH]; intros j ks t s Hs Hk Hl; [by exists s|].
  destruct Hl as [Hl1 Hl]. cbn [run_ops spec_run run_doublings] in *.
  rewrite <- Nat.add_assoc in Hs.
  destruct (run_op_spec op _ ks t s Hs Hk Hl1) as (s1 & R1 & H1).
  destruct (IH j ks (snd (spec_op ks t op)) s1 H1) as (s2 & R2 & H2);
    [by apply well_keyed_step|done|].
  exists s2. rewrite (bind_ret_l _ _ _ _ _ R1), (bind_ret_l _ _ _ _ _ R2).
  destruct (spec_op ks t op) as [r t1]. cbn [fst snd] in *.
  by destruct (spec_run ks t1 ops) as [rs t2].
Qed.

End Client.

(** ** The list of the handlers *)

#[export] Instance world_table_ops : TableOps world := {
  find_op := hash_find; add_op := hash_add; del_op := hash_del; count_op := hash_count }.

Definition peer_key (q : Peer) : mac := tapMAC (p_ls q).

Definition world_holds (j : nat) (ks : gmap loc mac) (t : list loc) (w : world) : Prop :=
  peer_key <$> peers w = ks /\ hash_table w = t.

Lemma find_key_lookup ps t k :
  (forall p, p ∈ t -> is_Some ((peer_key <$> ps) !! p)) ->
  find_key ps t k = Some (lookup_key (peer_key <$> ps) t k).
Proof.
  induction t as [|p t IH]; intros L; [done|]. cbn [find_key lookup_key List.find].
  destruct (L p) as [k' Hk]; [by left|]. rewrite lookup_fmap in Hk |- *.
  destruct (ps !! p) as [q|]; [|done]. cbn. injection Hk as <-. unfold peer_key at 1.
  destruct (decide (tapMAC (p_ls q) = k)) as [E|E].
  - by rewrite bool_decide_true by (by rewrite E).
  - rewrite bool_decide_false by (by intros [= ?]). apply IH. intros r Hr. apply L. by right.
Qed.

#[export] Instance world_member_table : MemberTable world world_holds.
Proof.
  split.
  - intros j ks t s k [<- <-] (_ & L & _). cbn. unfold hash_find.
    by rewrite find_key_lookup.
  - intros j ks t s p [<- <-] _ _. by eexists.
  - intros j ks t s p [<- <-] (_ & L & _) [Hp _]. cbn. unfold hash_del.
    destruct (L p Hp) as [k Hk]. rewrite lookup_fmap in Hk.
    destruct (peers s !! p) as [q|] eqn:Eq; [|done].
    erewrite bind_ret_l by (unfold peer; by rewrite Eq). unfold bind at 1, gets.
    rewrite decide_True by done. by eexists.
  - intros j ks t s [_ <-]. done.
Qed.

(** ** The hash table *)

Section Hash_table.
Context `{HF : HashFunction}.

#[export] Instance uthash_table_ops : TableOps hstate := {
  find_op k := HASH_FIND (mac_bytes k);
  add_op := HASH_ADD (Z.of_nat ETH_ALEN);
  del_op := HASH_DELETE;
  count_op := HASH_COUNT }.

(** The table holds the elements [t], and [j] more additions may double its
    buckets.  The bound on [j] is not one of the code: there are 2^5 buckets at
    first and their number has 32 bits, so 26 doublings are certain not to
    overflow it; every addition that finds nine elements or more is counted as
    one, although few of them double. *)
Definition uthash_holds (j : nat) (ks : gmap loc mac) (t : list loc) (s : hstate) : Prop :=
  field <$> elems s = mac_bytes <$> ks /\ table_holds (Z.of_nat ETH_ALEN) s t /\
  growth_left j s /\ (j <= 26)%nat.

Lemma lookup_key_Some ks t k p : lookup_key ks t k = Some p -> p ∈ t /\ ks !! p = Some k.
Proof.
  intros [Hp Hk]%find_some. split; [by apply list_elem_of_In|]. by apply bool_decide_eq_true in Hk.
Qed.

Lemma lookup_key_None ks t k p : lookup_key ks t k = None -> p ∈ t -> ks !! p <> Some k.
Proof.
  intros E Hp%list_elem_of_In. apply (find_none _ _ E p) in Hp.
  by apply bool_decide_eq_false in Hp.
Qed.

Lemma mac_bytes_inj k k' : mac_bytes k = mac_bytes k' -> k = k'.
Proof.
  intros E. rewrite <- (mac_of_mac_bytes k []), <- (mac_of_mac_bytes k' []). by rewrite E.
Qed.

Lemma key_is_mac ks m p k :
  field <$> m = mac_bytes <$> ks ->
  key_is (Z.of_nat ETH_ALEN) m p (mac_bytes k) <-> ks !! p = Some k.
Proof.
  intros E. assert ((field <$> m) !! p = (mac_bytes <$> ks) !! p) as Ep by by rewrite E.
  rewrite !lookup_fmap in Ep. unfold key_is. rewrite Nat2Z.id. split.
  - intros (e & He & Ek). rewrite He in Ep. destruct (ks !! p) as [k'|]; [|done].
    injection Ep as Ep. rewrite Ep, take_ge in Ek by by rewrite length_mac_bytes.
    f_equal. by apply mac_bytes_inj.
  - intros Hk. rewrite Hk in Ep. destruct (m !! p) as [e|]; [|done]. injection Ep as Ep.
    exists e. split; [done|]. rewrite Ep. apply take_ge. by rewrite length_mac_bytes.
Qed.

Lemma lookup_result_unique ks m t k o :
  field <$> m = mac_bytes <$> ks -> well_keyed ks t ->
  lookup_result (Z.of_nat ETH_ALEN) m t (mac_bytes k) o -> o = lookup_key ks t k.
Proof.
  intros E (_ & _ & U) O. destruct (lookup_key ks t k) as [p|] eqn:Ek.
  - apply lookup_key_Some in Ek as [Hp Hk]. destruct o as [q|]; cbn in O.
    + destruct O as [Hq Kq%(key_is_mac ks)]; [|done]. f_equal. apply U; [done|done|congruence].
    + destruct (O p Hp). by apply (key_is_mac ks).
  - destruct o as [q|]; [|done]. destruct O as [Hq Kq%(key_is_mac ks)]; [|done].
    by destruct (lookup_key_None ks t k q Ek Hq).
Qed.

Lemma uthash_elem ks (m : gmap loc elem) p :
  field <$> m = mac_bytes <$> ks -> is_Some (ks !! p) ->
  exists e, m !! p = Some e /\ Z.of_nat ETH_ALEN <= Z.of_nat (length (field e)).
Proof.
  intros E [k Hk]. assert ((field <$> m) !! p = (mac_bytes <$> ks) !! p) as Ep by by rewrite E.
  rewrite !lookup_fmap, Hk in Ep. destruct (m !! p) as [e|]; [|done]. injection Ep as Ep.
  exists e. by rewrite Ep, length_mac_bytes.
Qed.

#[export] Instance uthash_member_table : MemberTable hstate uthash_holds.
Proof.
  split.
  - intros j ks t s k (E & T & _) W. cbn [find_op uthash_table_ops].
    destruct (HASH_FIND_run _ s t (mac_bytes k) T) as (o & -> & O); [by rewrite length_mac_bytes|].
    by rewrite (lookup_result_unique ks (elems s) t k o).
  - intros j ks t s p (E & T & G & Hj) (_ & L & _) (Lp & N & Hlen). cbn [add_op uthash_table_ops].
    destruct (uthash_elem ks (elems s) p E Lp) as (e & He & Hf).
    cbn [doublings] in G, Hj.
    destruct (HASH_ADD_run _ s t p e T) as (s' & R & T' & E' & G'); [|by intros Hp; apply (N p)|done|done|].
    { split; [done|]. intros H9. destruct (Nat.leb_spec 9 (length t)); [|lia].
      by apply (growth_left_weaken (1 + j)); [lia|]. }
    exists s'. split; [done|]. split; [by rewrite E', E|]. split; [done|].
    destruct (9 <=? length t)%nat; (split; [|lia]); apply G'; done || lia.
  - intros j ks t s p (E & T & G & Hj) _ [Hp Hlen]. cbn [del_op uthash_table_ops].
    pose proof (proj1 T) as ND. apply list_elem_of_split in Hp as (l & l' & ->).
    destruct (HASH_DELETE_run _ s l p l' T) as (s' & R & T' & E' & G'); [lia|].
    exists s'. rewrite without_spliced by done. split; [done|].
    split; [by rewrite E', E|]. split; [done|]. split; [by apply G'|done].
  - intros j ks t s (_ & T & _). by apply (HASH_COUNT_run _ s t T).
Qed.

(** The program's table before the first peer: elements with zero handles and
    no table. *)
Definition uthash_init (ks : gmap loc mac) : hstate :=
  HState ((fun k => Elem zero_handle (mac_bytes k)) <$> ks) ∅ None.

Lemma uthash_init_holds j ks : (j <= 26)%nat -> uthash_holds j ks [] (uthash_init ks).
Proof.
  intros Hj. split; [|split; [|split; [|done]]].
  - apply map_eq. intros p. cbn. rewrite !lookup_fmap. by destruct (ks !! p).
  - by split; [constructor|].
  - intros T tb. cbn. by rewrite lookup_empty.
Qed.

(** ** Properties *)

(** C5: The hash table implements the list.  Every sequence of
    lookups, additions of elements with new keys, deletions of members and
    counts, in which at most 26 additions find nine elements or more, gives the
    same results, whatever hash function is compiled in, on the list of the
    model and on the handles, chains and buckets of uthash, namely those of the
    specification, and both hold the same elements afterwards. *)
Theorem uthash_refines_list ops ks t w h :
  world_holds 0 ks t w -> uthash_holds (run_doublings ks t ops) ks t h ->
  well_keyed ks t -> legal_run ks t ops ->
  exists w' h',
    run_ops ops w = (Ret (fst (spec_run ks t ops)), w') /\
    run_ops ops h = (Ret (fst (spec_run ks t ops)), h') /\
    world_holds 0 ks (snd (spec_run ks t ops)) w' /\
    uthash_holds 0 ks (snd (spec_run ks t ops)) h'.
Proof.
  intros Hw Hh Hk Hl. rewrite <- (Nat.add_0_r (run_doublings ks t ops)) in Hh.
  destruct (run_ops_spec ops 0 ks t w Hw Hk Hl) as (w' & Rw & Hw').
  destruct (run_ops_spec ops 0 ks t h Hh Hk Hl) as (h' & Rh & Hh').
  by exists w', h'.
Qed.

(** Deleting a stranger.  On an element that was never added, with the zero
    handle of [calloc], [HASH_DELETE] does what [hash_del] says: it empties a
    table with elements, none of which is touched, and is undefined on an
    empty one. *)
Theorem uthash_refines_stranger j ks t w h p e :
  world_holds j ks t w -> uthash_holds j ks t h -> p ∉ t ->
  elems h !! p = Some e -> hh e = zero_handle ->
  match del_op p w with
  | (Ret _, w') => exists h', del_op p h = (Ret tt, h') /\ world_holds j ks [] w' /\
                     table_holds (Z.of_nat ETH_ALEN) h' [] /\ elems h' = elems h
  | (o, w') => o = Undefined /\ del_op p h = (Undefined, h) /\ t = []
  end.
Proof.
  intros [<- <-] (E & T & _) Hp He Ez. cbn [del_op world_table_ops uthash_table_ops].
  assert (is_Some (peers w !! p)) as [q Hq].
  { assert ((field <$> elems h) !! p = (mac_bytes <$> (peer_key <$> peers w)) !! p) as Ep by by rewrite E.
    rewrite !lookup_fmap, He in Ep. by destruct (peers w !! p). }
  unfold hash_del. erewrite bind_ret_l by (unfold peer; by rewrite Hq).
  unfold bind, gets. rewrite decide_False by done. case_decide as Et.
  - rewrite Et in T. cbn. split; [done|]. split; [|done]. by apply (HASH_DELETE_empty (Z.of_nat ETH_ALEN) h p e).
  - destruct (HASH_DELETE_stranger _ h _ p e T Et He Ez) as (h' & R & T' & E'). cbn.
    by exists h'.
Qed.

End Hash_table.

(** ** Examples *)

Section Example_table.

Definition example_key (i : Z) : mac :=
  mac_of_bytes (map byte.of_Z [2; 0; 0; 0; i / 256; i]).

Definition example_keys (n : nat) : gmap loc mac :=
  list_to_map (map (fun i => (Pos.of_succ_nat i, example_key (Z.of_nat i))) (seq 0 n)).

Definition example_adds (n : nat) : list table_op :=
  map (fun i => AddOp (Pos.of_succ_nat i)) (seq 0 n).

(** With 250 members the buckets of the table were doubled, and every member
    is found. *)
Example table_doubles :
  let '(o, h) := run_ops (example_adds 250) (uthash_init (example_keys 250)) in
  fmap num_buckets (snd <$> map_to_list (tables h)) = [64] /\
  forallb (fun i => match fst (find_op (example_key (Z.of_nat i)) h) with
                    | Ret (Some p) => bool_decide (p = Pos.of_succ_nat i)
                    | _ => false
                    end) (seq 0 250) = true.
Proof. vm_compute. done. Qed.

Lemma example_keys_distinct (p q : loc) k :
  example_keys 4 !! p = Some k -> example_keys 4 !! q = Some k -> p = q.
Proof.
  unfold example_keys. cbn [seq map list_to_map foldr].
  rewrite !lookup_insert_Some, !lookup_empty.
  intros H1 H2. decompose [or and] H1; decompose [or and] H2; clear H1 H2;
    try congruence; exfalso; vm_compute in *; congruence.
Qed.

Lemma example_legal (p : loc) t :
  (p < 5)%positive -> p ∉ t -> (forall q, q ∈ t -> is_Some (example_keys 4 !! q)) ->
  Z.of_nat (length t) < 100 -> legal (example_keys 4) t (AddOp p).
Proof.
  intros Hp Ht L Hlen.
  assert (is_Some (example_keys 4 !! p)) as [k Hk].
  { assert (p = 1 \/ p = 2 \/ p = 3 \/ p = 4)%positive as H by lia.
    by destruct H as [->|[->|[->| ->]]]; vm_compute; eexists. }
  unfold legal. split; [by eexists|]. split; [|lia]. intros q Hq E.
  destruct (L q Hq) as [k' Hk']. apply Ht.
  by rewrite (example_keys_distinct p q k Hk) by congruence.
Qed.

Definition example_ops : list table_op :=
  [AddOp 1; AddOp 2; FindOp (example_key 1); AddOp 3; DelOp 2; FindOp (example_key 1); CountOp]%positive.

Lemma example_live (q : loc) : (q < 5)%positive -> is_Some (example_keys 4 !! q).
Proof.
  intros Hq. assert (q = 1 \/ q = 2 \/ q = 3 \/ q = 4)%positive as H by lia.
  by destruct H as [->|[->|[->| ->]]]; vm_compute; eexists.
Qed.

Lemma example_ops_legal : legal_run (example_keys 4) [] example_ops.
Proof.
  assert (forall t, forallb (fun q => (q <? 5)%positive) t = true ->
                    forall q, q ∈ t -> is_Some (example_keys 4 !! q)) as L.
  { intros t H q Hq. apply example_live. rewrite forallb_forall in H.
    apply Pos.ltb_lt, H. by apply list_elem_of_In. }
  repeat (split; [first [exact I
    | apply example_legal; [lia|by apply (bool_decide_unpack _); vm_compute|by apply L|done]
    | split; [by apply (bool_decide_unpack _); vm_compute|done]]|]); exact I.
Qed.

Definition keyed_peer (k : mac) : Peer := with_ls (LinkState 0 0 k k) zero_peer.

Definition keyed_world (ks : gmap loc mac) (t : list loc) : world :=
  World (Env 0 [] [] [] [] [] [] [] [] ∅ []) lock_init t (keyed_peer <$> ks) zero_link_state
    (Timespec 0 0) (MkConfig 0 0 0 0) zero_rio 0 0 [] 0.

Lemma keyed_world_holds j ks t : world_holds j ks t (keyed_world ks t).
Proof.
  split; [|done]. apply map_eq. intros p. cbn. rewrite !lookup_fmap. by destruct (ks !! p).
Qed.

(** Two elements are added, one of them is found, a third is added and the
    second deleted. *)
Lemma uthash_refines_list_witness :
  exists w' h',
    run_ops example_ops (keyed_world (example_keys 4) []) =
      (Ret [Changed; Changed; Found (Some 2%positive); Changed; Changed; Found None; Counted 2], w') /\
    run_ops example_ops (uthash_init (example_keys 4)) =
      (Ret [Changed; Changed; Found (Some 2%positive); Changed; Changed; Found None; Counted 2], h') /\
    hash_table w' = [1; 3]%positive.
Proof.
  assert (well_keyed (example_keys 4) []) as W.
  { split; [constructor|]. split; [by intros p ?%not_elem_of_nil|by intros p q ?%not_elem_of_nil]. }
  destruct (uthash_refines_list example_ops (example_keys 4) [] _ _
    (keyed_world_holds 0 (example_keys 4) []) (uthash_init_holds 0 _ ltac:(lia))
    W example_ops_legal) as (w' & h' & Rw & Rh & [_ Hw] & _).
  exists w', h'. split; [exact Rw|]. split; [exact Rh|exact Hw].
Defined.

Definition example_members : list loc := [1; 2]%positive.

Definition example_table : hstate :=
  snd (run_ops [AddOp 1; AddOp 2]%positive (uthash_init (example_keys 4))).

Lemma example_table_holds : uthash_holds 0 (example_keys 4) example_members example_table.
Proof.
  assert (well_keyed (example_keys 4) []) as W.
  { split; [constructor|]. split; [by intros p ?%not_elem_of_nil|by intros p q ?%not_elem_of_nil]. }
  destruct example_ops_legal as (L1 & L2 & _).
  destruct (run_ops_spec (holds := uthash_holds) [AddOp 1; AddOp 2]%positive 0 _ [] _
              (uthash_init_holds 0 (example_keys 4) ltac:(lia)) W) as (h' & R & H').
  { split; [exact L1|]. by split; [exact L2|]. }
  unfold example_table. by rewrite R.
Qed.

Lemma uthash_refines_stranger_witness :
  exists h', del_op 4%positive example_table = (Ret tt, h') /\ head_ptr h' = None.
Proof.
  pose proof (uthash_refines_stranger 0 (example_keys 4) example_members
    (keyed_world (example_keys 4) example_members) example_table 4%positive
    (Elem zero_handle (mac_bytes (example_key 3)))
    (keyed_world_holds _ _ _) example_table_holds) as H.
  destruct H as (h' & R & _ & (_ & _ & Hh & _) & _).
  - by apply (bool_decide_unpack _); vm_compute.
  - by vm_compute.
  - reflexivity.
  - exists h'. by split.
Defined.

End Example_table.
