(* ===== verification/Bloom.v ===== *)
(** * The Bloom filter of the hash table (src/uthash.h, 94-140)

    Compiled with [HASH_BLOOM], a table carries an array of [2 ^ HASH_BLOOM]
    bits; adding an element sets the bit of its hash value, and [HASH_FIND]
    searches a bucket only when the bit of the key is set.  Deleting clears no
    bit.  The macros are written here on top of those of [UTHash], with the
    filter of the table as a second part of the state, and are a third instance
    of the interface [MemberTable] of Table. *)

From S2P Require Export Table.

(** The number that [HASH_BLOOM] stands for; [1ULL << HASH_BLOOM] bits of an
    index are taken from a hash value of 32. *)
Class BloomBits := HASH_BLOOM : Z.
Class BloomBitsOk `{BloomBits} : Prop := bloom_bits_ok : 0 <= HASH_BLOOM <= 32.

Section Filter.
Context `{BloomBits}.

Definition HASH_BLOOM_BITLEN : Z := uwrap 64 (Z.shiftl 1 HASH_BLOOM).
Definition HASH_BLOOM_BYTELEN : Z :=
  HASH_BLOOM_BITLEN / 8 + (if HASH_BLOOM_BITLEN mod 8 =? 0 then 0 else 1).

(** The fields [bloom_nbits] and [bloom_bv] of [UT_hash_table] (931-932). *)
Record bloom := Bloom { bloom_nbits : Z; bloom_bv : list Z }.

Definition HASH_BLOOM_MAKE : bloom :=
  Bloom (swrap 8 HASH_BLOOM) (replicate (Z.to_nat HASH_BLOOM_BYTELEN) 0).

Definition HASH_BLOOM_BITSET (bv : list Z) (idx : Z) : option (list Z) :=
  x ← bv !! Z.to_nat (idx / 8);
  Some (<[Z.to_nat (idx / 8) := uwrap 8 (Z.lor x (Z.shiftl 1 (idx mod 8)))]> bv).

Definition HASH_BLOOM_BITTEST (bv : list Z) (idx : Z) : option bool :=
  x ← bv !! Z.to_nat (idx / 8);
  Some (negb (Z.land x (Z.shiftl 1 (idx mod 8)) =? 0)).

(** [hashv & (uint32_t)((1ULL << (tbl)->bloom_nbits) - 1)] *)
Definition bloom_index (nbits hashv : Z) : Z :=
  Z.land hashv (u32 (uwrap 64 (uwrap 64 (Z.shiftl 1 nbits) - 1))).

Definition HASH_BLOOM_ADD (t : bloom) (hashv : Z) : option bloom :=
  bv ← HASH_BLOOM_BITSET (bloom_bv t) (bloom_index (bloom_nbits t) hashv);
  Some (Bloom (bloom_nbits t) bv).

Definition HASH_BLOOM_TEST (t : bloom) (hashv : Z) : option bool :=
  HASH_BLOOM_BITTEST (bloom_bv t) (bloom_index (bloom_nbits t) hashv).

(** ** The macros that use the filter *)

Context `{HF : HashFunction}.

(** A table and its filter, which is allocated and freed with it. *)
Record filtered := Filtered { unfiltered : hstate; filter_of : option bloom }.

Definition in_table {A} (m : M hstate A) : M filtered A :=
  zoom unfiltered (fun s x => Filtered s (filter_of x)) m.

Definition set_filter (b : option bloom) (x : filtered) : filtered :=
  Filtered (unfiltered x) b.

(** [HASH_FIND] (94-105) *)
Definition bloom_HASH_FIND (k : bytes) : M filtered (option loc) :=
  let* h := in_table (gets head_ptr) in
  match h with
  | None => ret None
  | Some _ =>
      let* T := in_table head_tbl in
      let* t := in_table (read_tbl T) in
      let* b := gets filter_of in
      let* b := deref b in
      let* passes := deref (HASH_BLOOM_TEST b (HASH_FCN k)) in
      if passes : bool
      then in_table (HASH_FIND_IN_BKT T (HASH_TO_BKT (HASH_FCN k) (num_buckets t)) k)
      else ret None
  end.

(** [HASH_ADD_KEYPTR] (174-196); the first element gets the table and its
    filter. *)
Definition bloom_HASH_ADD (n : Z) (p : loc) : M filtered unit :=
  let* h := in_table (gets head_ptr) in
  match h with
  | None => modify (set_filter (Some HASH_BLOOM_MAKE))
  | Some _ => ret tt
  end ;;;
  in_table (HASH_ADD n p) ;;;
  let* x := in_table (read_hh p) in
  let* b := gets filter_of in
  let* b := deref b in
  let* b := deref (HASH_BLOOM_ADD b (hashv x)) in
  modify (set_filter (Some b)).

(** [HASH_DELETE] (215-248); the last element goes with the table and its
    filter. *)
Definition bloom_HASH_DELETE (p : loc) : M filtered unit :=
  let* x := in_table (read_hh p) in
  in_table (HASH_DELETE p) ;;;
  if decide (prev x = None /\ next x = None) then modify (set_filter None) else ret tt.

(** ** The bits *)

Context `{BO : !BloomBitsOk}.

Lemma bitlen_eq : HASH_BLOOM_BITLEN = 2 ^ HASH_BLOOM.
Proof.
  pose proof bloom_bits_ok. unfold HASH_BLOOM_BITLEN. rewrite Z.shiftl_1_l.
  apply uwrap_small. split; [apply Z.pow_nonneg; lia|apply Z.pow_lt_mono_r; lia].
Qed.

Lemma bloom_index_eq hashv : bloom_index HASH_BLOOM hashv = hashv mod 2 ^ HASH_BLOOM.
Proof.
  pose proof bloom_bits_ok. unfold bloom_index, u32. rewrite Z.shiftl_1_l.
  assert (0 < 2 ^ HASH_BLOOM) by (apply Z.pow_pos_nonneg; lia).
  assert (2 ^ HASH_BLOOM <= 2 ^ 32) by (apply Z.pow_le_mono_r; lia).
  rewrite (uwrap_small 64 (2 ^ HASH_BLOOM)), (uwrap_small 64), uwrap_small by lia.
  rewrite <- Z.land_ones, Z.ones_equiv by lia. done.
Qed.

(** A filter of the right size, which all are. *)
Definition bloom_ok (t : bloom) : Prop :=
  bloom_nbits t = HASH_BLOOM /\ Z.of_nat (length (bloom_bv t)) = HASH_BLOOM_BYTELEN.

Lemma index_in_array t hashv : bloom_ok t ->
  0 <= bloom_index (bloom_nbits t) hashv /\
  is_Some (bloom_bv t !! Z.to_nat (bloom_index (bloom_nbits t) hashv / 8)).
Proof.
  intros [-> Hl]. rewrite bloom_index_eq. unfold HASH_BLOOM_BYTELEN in Hl. rewrite bitlen_eq in Hl.
  pose proof bloom_bits_ok. set (N := 2 ^ HASH_BLOOM) in *.
  assert (0 < N) by (apply Z.pow_pos_nonneg; lia).
  pose proof (Z.mod_pos_bound hashv N ltac:(lia)). split; [lia|].
  apply lookup_lt_is_Some. revert Hl. case_match; Z.div_mod_to_equations; lia.
Qed.

Lemma HASH_BLOOM_MAKE_ok : bloom_ok HASH_BLOOM_MAKE.
Proof.
  pose proof bloom_bits_ok. split; cbn.
  - unfold swrap. rewrite Z.mod_small; lia.
  - rewrite length_replicate, Z2Nat.id; [done|]. unfold HASH_BLOOM_BYTELEN. rewrite bitlen_eq.
    assert (0 < 2 ^ HASH_BLOOM) by (apply Z.pow_pos_nonneg; lia).
    case_match; Z.div_mod_to_equations; lia.
Qed.

(** A byte and a bit of it. *)
Lemma bit_test x i : 0 <= i -> negb (Z.land x (Z.shiftl 1 i) =? 0) = Z.testbit x i.
Proof.
  intros Hi. rewrite Z.shiftl_1_l. destruct (Z.testbit x i) eqn:E.
  - apply negb_true_iff, Z.eqb_neq. intros E0. apply (f_equal (fun z => Z.testbit z i)) in E0.
    by rewrite Z.land_spec, E, Z.pow2_bits_true, Z.bits_0 in E0 by done.
  - apply negb_false_iff, Z.eqb_eq, Z.bits_inj'. intros j Hj.
    rewrite Z.land_spec, Z.bits_0, Z.pow2_bits_eqb by done.
    destruct (Z.eqb_spec i j) as [->|]; [by rewrite E|by rewrite andb_false_r].
Qed.

Lemma bit_set x i j : 0 <= i < 8 -> 0 <= j < 8 ->
  Z.testbit (uwrap 8 (Z.lor x (Z.shiftl 1 i))) j = Z.testbit x j || (i =? j).
Proof.
  intros Hi Hj. unfold uwrap.
  rewrite Z.mod_pow2_bits_low, Z.lor_spec, Z.shiftl_1_l, Z.pow2_bits_eqb by lia. done.
Qed.

(** The bit of a hash value. *)
Definition bit_of (t : bloom) (hashv : Z) : bool := default false (HASH_BLOOM_TEST t hashv).

Lemma HASH_BLOOM_TEST_run t hashv : bloom_ok t -> HASH_BLOOM_TEST t hashv = Some (bit_of t hashv).
Proof.
  intros Ht. unfold bit_of, HASH_BLOOM_TEST, HASH_BLOOM_BITTEST.
  destruct (index_in_array t hashv Ht) as [_ [x ->]]. done.
Qed.

Lemma HASH_BLOOM_MAKE_empty hashv : bit_of HASH_BLOOM_MAKE hashv = false.
Proof.
  unfold bit_of, HASH_BLOOM_TEST, HASH_BLOOM_BITTEST, HASH_BLOOM_MAKE. cbn [bloom_bv bloom_nbits].
  destruct (replicate _ 0 !! _) as [x|] eqn:E; [|done]. apply lookup_replicate in E as [-> _]. done.
Qed.

(** Adding sets exactly the bit of the hash value. *)
Lemma HASH_BLOOM_ADD_run t hashv : bloom_ok t ->
  exists t', HASH_BLOOM_ADD t hashv = Some t' /\ bloom_ok t' /\
    forall v, bit_of t' v = bit_of t v || (hashv mod 2 ^ HASH_BLOOM =? v mod 2 ^ HASH_BLOOM).
Proof.
  intros Ht. pose proof Ht as [En El].
  destruct (index_in_array t hashv Ht) as [Hi [x Ex]].
  unfold HASH_BLOOM_ADD, HASH_BLOOM_BITSET. rewrite Ex. eexists. split; [reflexivity|].
  split; [split; [done|]; cbn [bloom_bv]; by rewrite length_insert|].
  intros v. destruct (index_in_array t v Ht) as [Hj [y Ey]].
  unfold bit_of, HASH_BLOOM_TEST, HASH_BLOOM_BITTEST. cbn [bloom_bv bloom_nbits].
  rewrite <- !bloom_index_eq, <- En.
  set (i := bloom_index (bloom_nbits t) hashv) in *.
  set (j := bloom_index (bloom_nbits t) v) in *. rewrite Ey.
  pose proof (Z.mod_pos_bound i 8). pose proof (Z.mod_pos_bound j 8).
  destruct (decide (Z.to_nat (i / 8) = Z.to_nat (j / 8))) as [E|E].
  - rewrite E, list_lookup_insert_eq by (by eapply lookup_lt_Some). cbn.
    rewrite E in Ex. rewrite Ex in Ey. injection Ey as ->.
    rewrite !bit_test, bit_set by lia. f_equal.
    apply Z2Nat.inj in E; [|Z.div_mod_to_equations; lia..].
    apply eq_true_iff_eq. rewrite !Z.eqb_eq. split; [|by intros ->].
    intros Em. rewrite (Z.div_mod i 8), (Z.div_mod j 8) by lia. congruence.
  - rewrite list_lookup_insert_ne, Ey by done. cbn. rewrite (proj2 (Z.eqb_neq i j)) by congruence.
    by rewrite orb_false_r.
Qed.

(** ** The filter hides no element *)

(** The bits of the elements are set. *)
Definition screens (ks : gmap loc mac) (t : list loc) (b : bloom) : Prop :=
  bloom_ok b /\ forall p k, p ∈ t -> ks !! p = Some k -> bit_of b (HASH_FCN (mac_bytes k)) = true.

Definition bloom_holds (j : nat) (ks : gmap loc mac) (t : list loc) (x : filtered) : Prop :=
  uthash_holds j ks t (unfiltered x) /\
  match filter_of x with Some b => t <> [] /\ screens ks t b | None => t = [] end.

Lemma in_table_run {A} (m : M hstate A) s b a s' :
  m s = (Ret a, s') -> in_table m (Filtered s b) = (Ret a, Filtered s' b).
Proof. intros E. unfold in_table, zoom. cbn [unfiltered filter_of]. by rewrite E. Qed.

Lemma bloom_HASH_FIND_run j ks t s b k :
  uthash_holds j ks t s -> well_keyed ks t -> t <> [] -> screens ks t b ->
  bloom_HASH_FIND (mac_bytes k) (Filtered s (Some b))
  = (Ret (lookup_key ks t k), Filtered s (Some b)).
Proof.
  intros U W Ht [Hb Hs]. pose proof (find_law j ks t s k U W) as F. cbn [find_op uthash_table_ops] in F.
  destruct U as (_ & T & _). pose proof T as (_ & _ & Hh & R). destruct (R Ht) as (a & tb & ET & M & _).
  destruct (first_some t Ht) as (h & Eh & _). rewrite Eh in Hh.
  unfold bloom_HASH_FIND.
  rewrite (bind_ret_l _ _ _ _ _ (in_table_run (gets head_ptr) s (Some b) _ _ eq_refl)), Hh.
  pose proof (table_head_run _ s t a T M Ht) as HT. pose proof (read_tbl_run s a tb ET) as HR.
  rewrite (bind_ret_l _ _ _ _ _ (in_table_run _ _ _ _ _ HT)).
  rewrite (bind_ret_l _ _ _ _ _ (in_table_run _ _ _ _ _ HR)).
  erewrite bind_ret_l by reflexivity. erewrite bind_ret_l by reflexivity.
  rewrite HASH_BLOOM_TEST_run by done. erewrite bind_ret_l by reflexivity.
  destruct (bit_of b _) eqn:Ebit.
  - apply in_table_run. unfold HASH_FIND in F. erewrite bind_ret_l in F by reflexivity.
    rewrite Hh in F. rewrite (bind_ret_l _ _ _ _ _ HT) in F. by rewrite (bind_ret_l _ _ _ _ _ HR) in F.
  - destruct (lookup_key ks t k) as [p|] eqn:Ek; [|done].
    apply lookup_key_Some in Ek as [Hp Hk]. by rewrite (Hs p k) in Ebit.
Qed.

Lemma added_hashv j ks t s p k : uthash_holds j ks t s -> p ∈ t -> ks !! p = Some k ->
  exists e, elems s !! p = Some e /\ hashv (hh e) = HASH_FCN (mac_bytes k).
Proof.
  intros (E & T & _) Hp Hk. pose proof T as (_ & _ & _ & R).
  assert (t <> []) as Ht by (by intros ->; apply not_elem_of_nil in Hp).
  destruct (R Ht) as (a & tb & _ & M & _).
  destruct (member_elem _ a (elems s) p (M p Hp)) as (e & He & _ & _ & _ & Ev & _).
  exists e. split; [done|]. rewrite Ev. f_equal.
  assert ((field <$> elems s) !! p = (mac_bytes <$> ks) !! p) as Ep by by rewrite E.
  rewrite !lookup_fmap, He, Hk in Ep. injection Ep as ->. rewrite Nat2Z.id.
  apply take_ge. by rewrite length_mac_bytes.
Qed.

Lemma bloom_HASH_ADD_run j ks t x p :
  bloom_holds (doublings t (AddOp p) + j)%nat ks t x -> well_keyed ks t -> legal ks t (AddOp p) ->
  exists x', bloom_HASH_ADD (Z.of_nat ETH_ALEN) p x = (Ret tt, x') /\ bloom_holds j ks (t ++ [p]) x'.
Proof.
  destruct x as [s b]. intros [U Hb] W Hl; cbn [filter_of unfiltered] in *.
  destruct (add_law j ks t s p U W Hl) as (s' & R & U'). cbn [add_op uthash_table_ops] in R.
  assert (exists c, screens ks t c /\
    (match head_ptr s with None => modify (set_filter (Some HASH_BLOOM_MAKE)) | Some _ => ret tt end)
      (Filtered s b) = (Ret tt, Filtered s (Some c))) as (c & [Hc Hs] & E).
  { destruct U as (_ & (_ & _ & -> & _) & _). destruct b as [c|].
    - destruct Hb as [Ht Hc]. destruct (first_some t Ht) as (h & -> & _). by exists c.
    - subst t. exists HASH_BLOOM_MAKE. split; [|done]. split; [apply HASH_BLOOM_MAKE_ok|].
      by intros q k ?%not_elem_of_nil. }
  destruct Hl as ([k Hk] & _).
  destruct (added_hashv j ks _ s' p k U') as (e & He & Ex);
    [apply elem_of_app; right; by left|done|].
  destruct (HASH_BLOOM_ADD_run c (hashv (hh e)) Hc) as (c' & Ac & Hc' & Bc).
  unfold bloom_HASH_ADD. erewrite bind_ret_l by (apply in_table_run; reflexivity).
  rewrite (bind_ret_l _ _ _ _ _ E).
  rewrite (bind_ret_l _ _ _ _ _ (in_table_run _ _ _ _ _ R)).
  rewrite (bind_ret_l _ _ _ _ _ (in_table_run _ _ _ _ _ (read_hh_run s' p e He))).
  erewrite bind_ret_l by reflexivity. erewrite bind_ret_l by reflexivity. rewrite Ac.
  erewrite bind_ret_l by reflexivity. eexists. split; [reflexivity|].
  split; [done|]. cbn. split; [by destruct t|]. split; [done|].
  intros q kq [Hq| ->%list_elem_of_singleton]%elem_of_app Hkq; rewrite Bc.
  + by rewrite (Hs q kq).
  + rewrite Hk in Hkq. injection Hkq as <-. by rewrite Ex, Z.eqb_refl, orb_true_r.
Qed.

Lemma bloom_HASH_DELETE_run j ks t x p :
  bloom_holds j ks t x -> well_keyed ks t -> legal ks t (DelOp p) ->
  exists x', bloom_HASH_DELETE p x = (Ret tt, x') /\ bloom_holds j ks (without p t) x'.
Proof.
  destruct x as [s b]. intros [U Hb] W Hl; cbn [filter_of unfiltered] in *.
  destruct (del_law j ks t s p U W Hl) as (s' & R & U'). cbn [del_op uthash_table_ops] in *.
  destruct Hl as [Hp _]. destruct W as (ND & L & _). destruct (L p Hp) as [k Hk].
  destruct (added_hashv j ks t s p k U Hp Hk) as (e & He & _).
  apply list_elem_of_split in Hp as (l & l' & ->). rewrite without_spliced in U' |- * by done.
  destruct (table_links _ s l p l' e (proj1 (proj2 U)) He) as [Ep En].
  exists (Filtered s' (match l ++ l' with [] => None | _ => b end)). split.
  + unfold bloom_HASH_DELETE.
    rewrite (bind_ret_l _ _ _ _ _ (in_table_run _ _ _ _ _ (read_hh_run s p e He))).
    rewrite (bind_ret_l _ _ _ _ _ (in_table_run _ _ _ _ _ R)), Ep, En.
    case_decide as D; rewrite alone in D; [by rewrite D|by destruct (l ++ l')].
  + split; [done|]. cbn [filter_of]. destruct (l ++ l') as [|q l''] eqn:E; [done|].
    rewrite <- E. destruct b as [b|]; [|by destruct l].
    split; [by rewrite E|]. destruct Hb as (_ & Hb & Hs). split; [done|].
    intros r kr Hr. apply Hs. revert Hr. rewrite !elem_of_app, elem_of_cons. tauto.
Qed.

#[export] Instance bloom_table_ops : TableOps filtered := {
  find_op k := bloom_HASH_FIND (mac_bytes k);
  add_op := bloom_HASH_ADD (Z.of_nat ETH_ALEN);
  del_op := bloom_HASH_DELETE;
  count_op := in_table HASH_COUNT }.

#[export] Instance bloom_member_table : MemberTable filtered bloom_holds.
Proof.
  split.
  - intros j ks t [s [b|]] k [U Hb] W; cbn [filter_of unfiltered] in *.
    + destruct Hb as [Ht Hb]. by apply (bloom_HASH_FIND_run j).
    + subst t. destruct U as (_ & (_ & _ & Hh & _) & _). cbn [find_op bloom_table_ops].
      unfold bloom_HASH_FIND. erewrite bind_ret_l by (apply in_table_run; reflexivity).
      by rewrite Hh.
  - intros j ks t x p. apply bloom_HASH_ADD_run.
  - intros j ks t x p. apply bloom_HASH_DELETE_run.
  - intros j ks t [s b] [U _]; cbn [unfiltered] in *. cbn [count_op bloom_table_ops].
    apply in_table_run. exact (count_law j ks t s U).
Qed.

(** ** Properties *)

(** C36: The filter changes no result.  Every sequence of lookups, additions of
    elements with new keys, deletions of members and counts, in which at most 26
    additions find nine elements or more, gives, on a table with a filter of any
    size, the results of the specification, which are those of the list of the
    model; the filter then screens the elements that are left, and every access
    was inside its array. *)
Theorem bloom_refines_list ops ks t w x :
  world_holds 0 ks t w -> bloom_holds (run_doublings ks t ops) ks t x ->
  well_keyed ks t -> legal_run ks t ops ->
  exists w' x',
    run_ops ops w = (Ret (fst (spec_run ks t ops)), w') /\
    run_ops ops x = (Ret (fst (spec_run ks t ops)), x') /\
    bloom_holds 0 ks (snd (spec_run ks t ops)) x'.
Proof.
  intros Hw Hx Hk Hl. rewrite <- (Nat.add_0_r (run_doublings ks t ops)) in Hx.
  destruct (run_ops_spec ops 0 ks t w Hw Hk Hl) as (w' & Rw & _).
  destruct (run_ops_spec ops 0 ks t x Hx Hk Hl) as (x' & Rx & Hx').
  by exists w', x'.
Qed.

End Filter.

(** The operations of the example of Table, with a filter of 256 bits. *)
Lemma bloom_refines_list_witness :
  exists w' x',
    run_ops example_ops (keyed_world (example_keys 4) []) =
      (Ret [Changed; Changed; Found (Some 2%positive); Changed; Changed; Found None; Counted 2], w') /\
    run_ops (H := @bloom_table_ops 8 _)
      example_ops (Filtered (uthash_init (example_keys 4)) None) =
      (Ret [Changed; Changed; Found (Some 2%positive); Changed; Changed; Found None; Counted 2], x').
Proof.
  assert (well_keyed (example_keys 4) []) as W.
  { split; [constructor|]. split; [by intros p ?%not_elem_of_nil|by intros p q ?%not_elem_of_nil]. }
  assert (@BloomBitsOk 8) as B by (unfold BloomBitsOk, HASH_BLOOM; lia).
  destruct (bloom_refines_list (H := 8) example_ops (example_keys 4) []
    (keyed_world (example_keys 4) []) (Filtered (uthash_init (example_keys 4)) None)
    (keyed_world_holds 0 (example_keys 4) [])
    (conj (uthash_init_holds 0 _ ltac:(lia)) eq_refl) W example_ops_legal) as (w' & x' & Rw & Rx & _).
  exists w', x'. split; [exact Rw|exact Rx].
Defined.
