(* ===== verification/HashSelect.v ===== *)
(** * Selecting from a hash table into another (src/uthash.h, 807-847)

    [HASH_SELECT] enters the elements of one table that pass a test into a
    second table, through a second handle of theirs.  The two handles of the
    elements are the elements of two heaps, [source] and [target], whose
    elements hold the same fields.  The elements are taken in the order of the
    buckets.  The examples show that the new table does not know its last
    element. *)

From S2P Require Export Table.
From S2P Require Import HashTools.

Section Select.
Context `{HF : HashFunction}.

Record selection := Selection { source : hstate; target : hstate }.

Definition in_source {A} (m : M hstate A) : M selection A :=
  zoom source (fun s x => Selection s (target x)) m.
Definition in_target {A} (m : M hstate A) : M selection A :=
  zoom target (fun s x => Selection (source x) s) m.

(** The body of the inner loop, 824-841: [src_hh] is the handle of [elt] in the
    source, [last_elt] the element that was selected before. *)
Definition select_elt (elt : loc) (src_hh : UT_hash_handle) (last_elt : option loc)
  : M hstate unit :=
  write_hh elt (put_key (key src_hh) (keylen src_hh)) ;;;
  write_hh elt (put_hashv (hashv src_hh)) ;;;
  write_hh elt (put_prev last_elt) ;;;
  write_hh elt (put_next None) ;;;
  if_ptr last_elt (put_next (Some elt)) ;;;
  let* dst := gets head_ptr in
  match dst with
  | None => modify (set_head (Some elt)) ;;; HASH_MAKE_TABLE elt
  | Some _ => let* T := head_tbl in write_hh elt (put_tbl (Some T))
  end ;;;
  let* dst_hh := read_hh elt in
  let* T := deref (tbl dst_hh) in
  let* t := read_tbl T in
  HASH_ADD_TO_BKT T (HASH_TO_BKT (hashv dst_hh) (num_buckets t)) elt ;;;
  let* T := head_tbl in
  write_tbl T (fun t => put_num_items (u32 (num_items t + 1)) t).

(** The loop over a chain, 819-843; the element selected last is returned. *)
Fixpoint select_chain (cond : bytes -> bool) (fuel : nat) (src_hh : option loc)
  (last_elt : option loc) : M selection (option loc) :=
  match src_hh, fuel with
  | None, _ => ret last_elt
  | Some _, O => fail Blocked
  | Some elt, S fuel =>
      let* x := in_source (read_hh elt) in
      let* f := in_source (read_field elt) in
      if cond f then
        in_target (select_elt elt x last_elt) ;;;
        let* x := in_source (read_hh elt) in
        select_chain cond fuel (hh_next x) (Some elt)
      else select_chain cond fuel (hh_next x) last_elt
  end.

(** The loop over the buckets, 818-844, from [i] on, [n] to go. *)
Fixpoint select_buckets (cond : bytes -> bool) (n : nat) (i : Z) (last_elt : option loc)
  : M selection unit :=
  match n with
  | O => ret tt
  | S n =>
      let* T := in_source head_tbl in
      let* b := in_source (read_bucket T i) in
      let* size := gets (fun x => size (elems (source x))) in
      let* last_elt := select_chain cond size (hh_head b) last_elt in
      select_buckets cond n (i + 1) last_elt
  end.

Definition HASH_SELECT (cond : bytes -> bool) : M selection unit :=
  let* src := in_source (gets head_ptr) in
  match src with
  | None => ret tt
  | Some _ =>
      let* T := in_source head_tbl in
      let* t := in_source (read_tbl T) in
      select_buckets cond (Z.to_nat (num_buckets t)) 0 None
  end.

End Select.

(** ** Examples

    Three of four elements are selected into an empty table. *)

Section Examples.

Definition select_from : hstate :=
  snd (run_ops [AddOp 1; AddOp 2; AddOp 3; AddOp 4]%positive (uthash_init (example_keys 4))).

Definition not_fourth (f : bytes) : bool :=
  negb (bool_decide (f = mac_bytes (default (example_key 0) (example_keys 4 !! 4%positive)))).

Definition selected : hstate :=
  target (snd (HASH_SELECT not_fourth (Selection select_from (uthash_init (example_keys 4))))).

(** The elements in application order, at most [n]. *)
Fixpoint in_order (n : nat) (s : hstate) (p : option loc) : list loc :=
  match p, n with
  | Some p, S n =>
      p :: in_order n s (match elems s !! p with Some e => next (hh e) | None => None end)
  | _, _ => []
  end.

(** The new table finds the elements and counts them, and passes [HASH_FSCK]. *)
Example select_finds :
  (HASH_COUNT selected).1 = Ret 3 /\ (HASH_FSCK selected).1 = Ret tt
  /\ length (in_order 5 selected (head_ptr selected)) = 3%nat
  /\ forallb (fun p => match (HASH_FIND (default [] (field <$> elems selected !! p)) selected).1 with
                       | Ret (Some q) => bool_decide (p = q) | _ => false end) [1; 2; 3]%positive = true.
Proof. by vm_compute. Qed.

(** Its [tail] is still the first element: an element added later comes behind
    that one, and the others are lost to [HASH_ITER] and to [HASH_SRT]. *)
Example select_forgets_tail :
  let s := snd (HASH_ADD (Z.of_nat ETH_ALEN) 4%positive selected) in
  (HASH_COUNT s).1 = Ret 4 /\ length (in_order 5 s (head_ptr s)) = 2%nat
  /\ (HASH_FSCK s).1 = Exit (-1).
Proof. by vm_compute. Qed.

End Examples.
