(* ===== verification/Membership.v ===== *)
(** * The membership list (src/proxy.c, 556-631)

    [add_member] and [remove_member], with the lock they take around the
    membership table and the threads they create and cancel.  [table_ok] is
    the invariant of the table: its elements are distinct live peers with
    distinct tap MAC addresses. *)

From S2P Require Export World.

(** [add_member] (556-601) *)
Definition add_member (pp : loc) : M world unit :=
  writeBegin ;;;
  let* q := peer pp in
  let* tmp := hash_find (tapMAC (p_ls q)) in
  match tmp with
  | None => hash_add pp
  | Some _ => ret tt
  end ;;;
  let* now := in_io clock_gettime in
  let* q := peer pp in
  set_peer pp (with_timeout_mutex false (with_timestamp now q)) ;;;
  let* timeout_tid := pthread_create Timeout_handler pp in
  let* tid := pthread_create Eth_handler pp in
  let* q := peer pp in
  set_peer pp (with_tids timeout_tid tid q) ;;;
  writeEnd.

(** [remove_member] (604-631).  The two early returns leave the function
    between [writeBegin] and [writeEnd]. *)
Definition remove_member (pp : option loc) : M world unit :=
  writeBegin ;;;
  match pp with
  | None => ret tt
  | Some pp =>
      let* q := peer pp in
      let* tmp := hash_find (tapMAC (p_ls q)) in
      match tmp with
      | None => ret tt
      | Some _ =>
          pthread_cancel (p_timeout_tid q) ;;;
          let* tmp := hash_find (tapMAC (p_ls q)) in
          match tmp with
          | Some _ => hash_del pp
          | None => ret tt
          end ;;;
          writeEnd ;;;
          close_peer pp ;;;
          let* q := peer pp in
          let tid := p_tid q in
          free_peer pp ;;;
          pthread_cancel tid
      end
  end.

(** ** The invariant of the table *)

Definition peer_mac (ps : gmap loc Peer) (p : loc) : option mac :=
  (fun q => tapMAC (p_ls q)) <$> ps !! p.

Definition table_ok (ps : gmap loc Peer) (t : list loc) : Prop :=
  NoDup t
  /\ (forall p, p ∈ t -> is_Some (ps !! p))
  /\ (forall p q, p ∈ t -> q ∈ t -> peer_mac ps p = peer_mac ps q -> p = q).

Definition world_ok (s : world) : Prop := table_ok (peers s) (hash_table s).

(** A write section of this thread alone. *)
Definition lock_writing : lock_state := LockState 0 1 false false false true true.

(** ** Lookups *)

Lemma peer_mac_live ps p q : ps !! p = Some q -> peer_mac ps p = Some (tapMAC (p_ls q)).
Proof. unfold peer_mac. by intros ->. Qed.

Lemma find_key_None ps t k :
  find_key ps t k = Some None <->
  (forall p, p ∈ t -> exists m, peer_mac ps p = Some m /\ m <> k).
Proof.
  induction t as [|p t IH]; simpl.
  - split; [intros _ p Hp; by apply elem_of_nil in Hp|done].
  - destruct (ps !! p) as [q|] eqn:E.
    + apply peer_mac_live in E. destruct (decide (tapMAC (p_ls q) = k)) as [Hk|Hk].
      * split; [done|]. intros H.
        destruct (H p) as (m & Hm & Hn); [by left|congruence].
      * rewrite IH. split.
        -- intros H p' [->|Hp]%elem_of_cons; [by eexists|by apply H].
        -- intros H p' Hp. apply H. by right.
    + split; [done|]. intros H. destruct (H p) as (m & Hm & _); [by left|].
      unfold peer_mac in Hm. by rewrite E in Hm.
Qed.

Lemma find_key_Some ps t k p :
  find_key ps t k = Some (Some p) -> p ∈ t /\ peer_mac ps p = Some k.
Proof.
  induction t as [|p' t IH]; simpl; [done|].
  destruct (ps !! p') as [q|] eqn:E; [|done].
  destruct (decide (tapMAC (p_ls q) = k)) as [Hk|Hk].
  - intros [= ->]. split; [by left|]. unfold peer_mac. rewrite E. simpl. congruence.
  - intros H. destruct (IH H). split; [by right|done].
Qed.

(** In a well-formed table, looking up a key finds the only element that has
    it. *)
Lemma find_key_ok ps t k :
  table_ok ps t ->
  (exists p, find_key ps t k = Some (Some p) /\ p ∈ t /\ peer_mac ps p = Some k)
  \/ (find_key ps t k = Some None /\ forall p, p ∈ t -> peer_mac ps p <> Some k).
Proof.
  intros (_ & Hlive & _). destruct (find_key ps t k) as [[p|]|] eqn:E.
  - left. exists p. split; [done|]. by apply find_key_Some.
  - right. split; [done|]. intros p Hp.
    destruct (proj1 (find_key_None _ _ _) E p Hp) as (m & -> & Hn). congruence.
  - exfalso. induction t as [|p t IH]; simpl in E; [done|].
    destruct (Hlive p) as [q Hq]; [by left|]. rewrite Hq in E.
    destruct (decide _); [done|]. apply IH; [|done].
    intros p' Hp'. apply Hlive. by right.
Qed.

Lemma find_key_member ps t p k :
  table_ok ps t -> p ∈ t -> peer_mac ps p = Some k ->
  find_key ps t k = Some (Some p).
Proof.
  intros Hok Hp Hk. destruct (find_key_ok ps t k Hok) as [(p' & E & Hp' & Hk')|[_ H]].
  - rewrite E. repeat f_equal. destruct Hok as (_ & _ & Hinj).
    apply Hinj; congruence.
  - by destruct (H p Hp).
Qed.

(** ** The lock around a handler that runs alone *)

Lemma writeBegin_free s :
  locks s = lock_init -> writeBegin s = (Ret tt, set_locks lock_writing s).
Proof. intros H. unfold writeBegin, in_locks, zoom. rewrite H. reflexivity. Qed.

Lemma writeEnd_writing s :
  locks s = lock_writing -> writeEnd s = (Ret tt, set_locks lock_init s).
Proof. intros H. unfold writeEnd, in_locks, zoom. rewrite H. reflexivity. Qed.

(** A thread that asks again for the lock it holds blocks for ever. *)
Lemma writeBegin_again s :
  locks s = lock_writing ->
  exists s', writeBegin s = (Blocked, s')
    /\ s' = set_locks (LockState 0 2 false false false true true) s.
Proof.
  intros H. unfold writeBegin, in_locks, zoom. rewrite H. by eexists.
Qed.

Lemma readBegin_free s :
  locks s = lock_init ->
  readBegin s = (Ret tt, set_locks (LockState 1 0 false false false false true) s).
Proof. intros H. unfold readBegin, in_locks, zoom. rewrite H. reflexivity. Qed.

Lemma readEnd_reading s :
  locks s = LockState 1 0 false false false false true ->
  readEnd s = (Ret tt, set_locks lock_init s).
Proof. intros H. unfold readEnd, in_locks, zoom. rewrite H. reflexivity. Qed.

Lemma peer_live p q s : peers s !! p = Some q -> peer p s = (Ret q, s).
Proof. intros H. unfold peer. by rewrite H. Qed.

Lemma close_peer_run p q s :
  peers s !! p = Some q ->
  close_peer p s = (Ret tt, set_io (log (EvClose (fd (p_rio q))) (io s)) s).
Proof. intros Hq. unfold close_peer, bind. by rewrite (peer_live _ _ _ Hq). Qed.

Lemma pthread_cancel_run t s :
  pthread_cancel t s =
    (Ret tt, set_cancelled (t :: cancelled s) (set_io (log (EvCancel t) (io s)) s)).
Proof. reflexivity. Qed.

Lemma free_peer_run p q s :
  peers s !! p = Some q ->
  free_peer p s =
    (Ret tt, set_io (log (EvFree p) (io s)) (set_peers (delete p (peers s)) s)).
Proof. intros Hq. unfold free_peer, bind. by rewrite (peer_live _ _ _ Hq). Qed.

Lemma hash_find_run k s o :
  find_key (peers s) (hash_table s) k = Some o -> hash_find k s = (Ret o, s).
Proof. intros H. unfold hash_find. by rewrite H. Qed.

Lemma hash_del_member p s :
  is_Some (peers s !! p) -> p ∈ hash_table s ->
  hash_del p s = (Ret tt, set_hash_table (filter (fun q => q <> p) (hash_table s)) s).
Proof.
  intros [q Hq] Hp. unfold hash_del, bind, gets. rewrite (peer_live _ _ _ Hq).
  by rewrite decide_True.
Qed.

(** Deleting an element that was never added empties the table. *)
Lemma hash_del_orphan p s :
  is_Some (peers s !! p) -> p ∉ hash_table s -> hash_table s <> [] ->
  hash_del p s = (Ret tt, set_hash_table [] s).
Proof.
  intros [q Hq] Hp Hne. unfold hash_del, bind, gets. rewrite (peer_live _ _ _ Hq).
  by rewrite decide_False, decide_False.
Qed.

(** ** Specifications of the operations *)

(** The world after the peer at [p] has been dropped, its table being [t]: its
    connection is closed, its two threads are cancelled and it is freed. *)
Definition forget (p : loc) (q : Peer) (t : list loc) (s : world) : world :=
  World
    (log (EvCancel (p_tid q)) (log (EvFree p)
      (log (EvClose (fd (p_rio q))) (log (EvCancel (p_timeout_tid q)) (io s)))))
    (locks s) t (delete p (peers s)) (linkState s) (timestamp s) (config s)
    (rio_tap s) (tap_tid s) (next_tid s)
    (p_tid q :: p_timeout_tid q :: cancelled s) (self s).

(** Both ways [remove_member] gets past its lookups: [HASH_DEL] leaves [t]. *)
Lemma remove_member_found s p q p' t :
  locks s = lock_init -> peers s !! p = Some q ->
  find_key (peers s) (hash_table s) (tapMAC (p_ls q)) = Some (Some p') ->
  (forall s1, peers s1 = peers s -> hash_table s1 = hash_table s ->
     hash_del p s1 = (Ret tt, set_hash_table t s1)) ->
  remove_member (Some p) s = (Ret tt, forget p q t s).
Proof.
  intros Hl Hp Hf Hd. destruct s as [io0 l0 t0 ps ls ts cf rt tt0 nt ca se].
  simpl in *. subst l0. unfold remove_member.
  erewrite bind_ret_l by (by apply writeBegin_free).
  erewrite bind_ret_l by (by apply peer_live).
  erewrite bind_ret_l by (by apply hash_find_run).
  unfold pthread_cancel at 1, in_io, zoom, emit, modify, bind at 1 2.
  cbn [io set_io set_locks set_cancelled cancelled].
  erewrite bind_ret_l by (by apply hash_find_run).
  unfold bind at 1. rewrite Hd by done.
  unfold bind at 1. rewrite writeEnd_writing by done.
  unfold bind at 1, close_peer, bind at 1. rewrite (peer_live p q) by done.
  unfold in_io, zoom, emit, modify, bind at 1. cbn [set_io].
  rewrite (peer_live p q) by done.
  unfold bind at 1, free_peer, bind at 1. rewrite (peer_live p q) by done.
  reflexivity.
Qed.

Lemma remove_member_member s p q :
  world_ok s -> locks s = lock_init -> p ∈ hash_table s -> peers s !! p = Some q ->
  remove_member (Some p) s
    = (Ret tt, forget p q (filter (fun x => x <> p) (hash_table s)) s).
Proof.
  intros Hok Hl Hin Hp. eapply remove_member_found; [done|done| |].
  - by apply (find_key_member _ _ p); [| |apply peer_mac_live].
  - intros s1 E1 E2. rewrite hash_del_member, E2; [done|rewrite E1; eauto|by rewrite E2].
Qed.

Lemma remove_member_unknown s p q :
  locks s = lock_init -> peers s !! p = Some q ->
  find_key (peers s) (hash_table s) (tapMAC (p_ls q)) = Some None ->
  remove_member (Some p) s = (Ret tt, set_locks lock_writing s).
Proof.
  intros Hl Hp Hf. unfold remove_member.
  erewrite bind_ret_l by (by apply writeBegin_free).
  erewrite bind_ret_l by (by apply peer_live).
  by erewrite bind_ret_l by (by apply hash_find_run).
Qed.

(** Removing an element keeps the table well-formed. *)
Lemma table_ok_remove ps t p :
  table_ok ps t -> table_ok (delete p ps) (filter (fun x => x <> p) t).
Proof.
  intros (Hnd & Hlive & Hinj). split; [by apply NoDup_filter|]. split.
  - intros p' [Hne Hp']%list_elem_of_filter. rewrite lookup_delete_ne by done.
    by apply Hlive.
  - intros p1 p2 [Hn1 H1]%list_elem_of_filter [Hn2 H2]%list_elem_of_filter.
    unfold peer_mac. rewrite !lookup_delete_ne by done. by apply Hinj.
Qed.

(** Changing other fields of the peers than their link state. *)
Lemma table_ok_mono ps ps' t :
  (forall p, p ∈ t -> peer_mac ps' p = peer_mac ps p /\ is_Some (ps' !! p)) ->
  table_ok ps t -> table_ok ps' t.
Proof.
  intros Hsame (Hnd & Hlive & Hinj). split; [done|]. split.
  - intros p Hp. by apply Hsame.
  - intros p1 p2 H1 H2 E. apply Hinj; [done..|].
    by rewrite <- (proj1 (Hsame p1 H1)), <- (proj1 (Hsame p2 H2)).
Qed.

Lemma table_ok_add ps t p k :
  table_ok ps t -> peer_mac ps p = Some k ->
  (forall p', p' ∈ t -> peer_mac ps p' <> Some k) ->
  table_ok ps (t ++ [p]).
Proof.
  intros (Hnd & Hlive & Hinj) Hk Hnew. split; [|split].
  - apply NoDup_app. split; [done|]. split; [|apply NoDup_singleton].
    intros x Hx ->%list_elem_of_singleton. by apply (Hnew p).
  - intros x [Hx|Hx]%elem_of_app; [by apply Hlive|].
    apply list_elem_of_singleton in Hx as ->. unfold peer_mac in Hk.
    destruct (ps !! p); [by eexists|done].
  - intros x y [Hx|Hx]%elem_of_app [Hy|Hy]%elem_of_app E.
    + by apply Hinj.
    + apply list_elem_of_singleton in Hy as ->. destruct (Hnew x Hx). congruence.
    + apply list_elem_of_singleton in Hx as ->. destruct (Hnew y Hy). congruence.
    + apply list_elem_of_singleton in Hx as ->.
      by apply list_elem_of_singleton in Hy as ->.
Qed.

(** What [add_member] does to the peer and to the world, the table becoming
    [t]. *)
Definition joined (p : loc) (q : Peer) (now : timespec) (clocks' : list timespec)
    (t : list loc) (s : world) : world :=
  let n := next_tid s in
  World
    (log (EvCreate Eth_handler p (n + 1)) (log (EvCreate Timeout_handler p n)
      (set_clocks clocks' (io s))))
    (locks s) t
    (<[p := with_tids n (n + 1) (with_timeout_mutex false (with_timestamp now q))]>
       (peers s))
    (linkState s) (timestamp s) (config s) (rio_tap s) (tap_tid s) (n + 2)
    (cancelled s) (self s).

Lemma add_member_run s p q now l t :
  locks s = lock_init -> peers s !! p = Some q -> clocks (io s) = now :: l ->
  (find_key (peers s) (hash_table s) (tapMAC (p_ls q)) = Some None
     /\ t = hash_table s ++ [p]
   \/ (exists p', find_key (peers s) (hash_table s) (tapMAC (p_ls q)) = Some (Some p'))
     /\ t = hash_table s) ->
  add_member p s = (Ret tt, joined p q now l t s).
Proof.
  intros Hl Hp Hc Hcase. destruct s as [io0 l0 t0 ps ls ts cf rt tt0 nt ca se].
  simpl in *. subst l0. unfold add_member.
  erewrite bind_ret_l by (by apply writeBegin_free).
  erewrite bind_ret_l by (by apply peer_live).
  destruct Hcase as [[Hf ->]|[[p' Hf] ->]];
    erewrite bind_ret_l by (by apply hash_find_run);
    unfold bind at 1, hash_add, modify, ret;
    unfold bind at 1, in_io, zoom, clock_gettime at 1;
    cbn [io set_locks set_hash_table]; rewrite Hc; cbn [set_io];
    erewrite bind_ret_l by (by apply peer_live);
    unfold bind at 1, set_peer, modify;
    unfold bind at 1, pthread_create at 1;
    unfold bind at 1, pthread_create at 1;
    unfold bind at 1, peer; cbn [peers set_peers set_next_tid set_io deref];
    rewrite lookup_insert_eq; cbn [deref];
    unfold bind at 1, ret; cbn;
    rewrite insert_insert_eq, writeEnd_writing by done;
    unfold joined; cbn; by replace (nt + 1 + 1) with (nt + 2) by lia.
Qed.

Lemma joined_mac s p q now l t p' :
  peers s !! p = Some q ->
  peer_mac (peers (joined p q now l t s)) p' = peer_mac (peers s) p'.
Proof.
  intros Hp. unfold peer_mac; cbn [joined peers].
  destruct (decide (p' = p)) as [->|Hn].
  - by rewrite lookup_insert_eq, Hp.
  - by rewrite lookup_insert_ne.
Qed.

Lemma table_ok_joined s p q now l t t' :
  peers s !! p = Some q -> table_ok (peers s) t ->
  table_ok (peers (joined p q now l t' s)) t.
Proof.
  intros Hp Ht. eapply table_ok_mono; [|exact Ht]. intros p' Hp'.
  split; [by apply joined_mac|]. cbn [joined peers].
  destruct (decide (p' = p)) as [->|Hn].
  - rewrite lookup_insert_eq. by eexists.
  - rewrite lookup_insert_ne by done. by apply (proj1 (proj2 Ht)).
Qed.

(** ** Properties *)

(** C21: Joining.  [add_member] puts a peer with a new tap MAC address at the
    end of the table, leaves the table alone when the address is already
    there, starts the timeout thread and the reader thread of the peer in both
    cases, releases the lock, and keeps the table well-formed; afterwards the
    address is found in the table. *)
Theorem add_member_correct s p q now l :
  world_ok s -> locks s = lock_init -> peers s !! p = Some q ->
  clocks (io s) = now :: l ->
  exists s', add_member p s = (Ret tt, s') /\ world_ok s' /\ locks s' = lock_init
    /\ ((hash_table s' = hash_table s ++ [p]
         /\ find_key (peers s) (hash_table s) (tapMAC (p_ls q)) = Some None
         /\ find_key (peers s') (hash_table s') (tapMAC (p_ls q)) = Some (Some p))
        \/ (hash_table s' = hash_table s
            /\ exists p', find_key (peers s) (hash_table s) (tapMAC (p_ls q))
                          = Some (Some p')
                 /\ find_key (peers s') (hash_table s') (tapMAC (p_ls q))
                    = Some (Some p')))
    /\ trace (io s') = trace (io s) ++
         [EvCreate Timeout_handler p (next_tid s);
          EvCreate Eth_handler p (next_tid s + 1)].
Proof.
  intros Hok Hl Hp Hc.
  assert (forall t p', peer_mac (peers (joined p q now l t s)) p' = peer_mac (peers s) p')
    as Hmac by (intros; by apply joined_mac).
  assert (forall t t', table_ok (peers s) t ->
    table_ok (peers (joined p q now l t' s)) t) as Hmono
    by (intros; by apply table_ok_joined).
  destruct (find_key_ok (peers s) (hash_table s) (tapMAC (p_ls q)) Hok)
    as [(p' & Hf & Hin & Hk)|[Hf Hnew]].
  - eexists. split; [eapply add_member_run; eauto 10|].
    split; [by apply Hmono|]. split; [done|]. split; [right|cbn; by rewrite <- app_assoc].
    split; [done|]. exists p'. split; [done|].
    apply find_key_member; [by apply Hmono|done|].
    by rewrite Hmac.
  - pose proof (peer_mac_live _ _ _ Hp) as Hm.
    assert (table_ok (peers s) (hash_table s ++ [p])) as Hok'
      by by eapply table_ok_add.
    eexists. split; [eapply add_member_run; eauto 10|].
    split; [by apply Hmono|]. split; [done|]. split; [left|cbn; by rewrite <- app_assoc].
    split; [done|]. split; [done|].
    apply find_key_member; [by apply Hmono|cbn [joined hash_table]|].
    + apply elem_of_app. right. by apply list_elem_of_singleton.
    + by rewrite Hmac.
Qed.

(** C22: Leaving.  [remove_member] on a member takes exactly that peer out of
    the table, cancels its timeout thread, closes its connection, frees it and
    cancels its reader thread, in this order; the lock is released, the table
    stays well-formed and the address is no longer found. *)
Theorem remove_member_correct s p q :
  world_ok s -> locks s = lock_init -> p ∈ hash_table s -> peers s !! p = Some q ->
  exists s', remove_member (Some p) s = (Ret tt, s') /\ world_ok s'
    /\ locks s' = lock_init
    /\ (forall p', p' ∈ hash_table s' <-> p' ∈ hash_table s /\ p' <> p)
    /\ peers s' = delete p (peers s)
    /\ find_key (peers s') (hash_table s') (tapMAC (p_ls q)) = Some None
    /\ trace (io s') = trace (io s) ++
         [EvCancel (p_timeout_tid q); EvClose (fd (p_rio q)); EvFree p;
          EvCancel (p_tid q)].
Proof.
  intros Hok Hl Hin Hp. eexists. split; [by apply remove_member_member|].
  cbn [forget hash_table peers locks io trace log].
  assert (world_ok (forget p q (filter (fun x => x <> p) (hash_table s)) s)) as Hok'
    by by apply table_ok_remove.
  split; [done|]. split; [done|]. split; [|split; [done|split]].
  - intros p'. rewrite list_elem_of_filter. tauto.
  - apply find_key_None. intros p' [Hn Hp']%list_elem_of_filter.
    destruct Hok as (_ & Hlive & Hinj). destruct (Hlive p' Hp') as [q' Hq'].
    exists (tapMAC (p_ls q')). split.
    + apply peer_mac_live. by rewrite lookup_delete_ne.
    + intros E. apply Hn, Hinj; [done..|].
      rewrite (peer_mac_live _ _ _ Hp), (peer_mac_live _ _ _ Hq'). congruence.
  - cbn. by rewrite <- !app_assoc.
Qed.

(** Removing a peer that is not a member keeps the lock.  When the address
    of the peer is not in the table, [remove_member] returns with the write
    lock held and changes nothing else; from then on [remove_member] and
    [add_member] block for every peer. *)
Theorem remove_member_keeps_lock s p q :
  locks s = lock_init -> peers s !! p = Some q ->
  find_key (peers s) (hash_table s) (tapMAC (p_ls q)) = Some None ->
  exists s', remove_member (Some p) s = (Ret tt, s')
    /\ s' = set_locks lock_writing s
    /\ forall p', (exists s2, remove_member p' s' = (Blocked, s2))
                  /\ forall pp, exists s2, add_member pp s' = (Blocked, s2).
Proof.
  intros Hl Hp Hf. exists (set_locks lock_writing s).
  split; [by eapply remove_member_unknown|]. split; [done|]. intros p'.
  destruct (writeBegin_again (set_locks lock_writing s)) as (s2 & E & _); [done|].
  split; [|intros pp]; exists s2;
    [unfold remove_member|unfold add_member]; unfold bind at 1; by rewrite E.
Qed.

(** A second connection of a member loses the whole table.  A peer whose
    tap MAC address is already in the table gets its own threads but is not
    added; when one of these threads removes it, the handle of the peer is
    zero, [HASH_DEL] takes the peer for the last element, and every member is
    forgotten while their connections stay open. *)
Theorem duplicate_member_empties_table s p q p' now l :
  world_ok s -> locks s = lock_init -> peers s !! p = Some q ->
  clocks (io s) = now :: l ->
  p ∉ hash_table s -> p' ∈ hash_table s ->
  peer_mac (peers s) p' = Some (tapMAC (p_ls q)) ->
  exists s', (add_member p ;;; remove_member (Some p)) s = (Ret tt, s')
    /\ hash_table s' = [] /\ locks s' = lock_init
    /\ forall x, x ∈ hash_table s -> is_Some (peers s' !! x).
Proof.
  intros Hok Hl Hp Hc Hout Hin Hk.
  pose proof (find_key_member _ _ _ _ Hok Hin Hk) as Hf.
  set (s1 := joined p q now l (hash_table s) s).
  assert (add_member p s = (Ret tt, s1)) as E1 by (apply add_member_run; eauto 10).
  destruct (find_key_ok (peers s1) (hash_table s1) (tapMAC (p_ls q)))
    as [(p2 & Hf2 & _)|[_ Hno]].
  { eapply table_ok_mono; [|exact Hok]. intros x Hx. unfold peer_mac.
    assert (p <> x) by (by intros ->). cbn [s1 joined peers].
    rewrite lookup_insert_ne by done. split; [done|]. by apply (proj1 (proj2 Hok)). }
  2: { exfalso. apply (Hno p'); [done|]. rewrite <- Hk. unfold peer_mac.
       cbn [s1 joined peers]. rewrite lookup_insert_ne; [done|by intros ->]. }
  exists (forget p (with_tids (next_tid s) (next_tid s + 1)
    (with_timeout_mutex false (with_timestamp now q))) [] s1).
  split_and!; [|done|done|].
  - erewrite bind_ret_l by exact E1. eapply remove_member_found; [done| | |].
    + cbn [s1 joined peers]. by rewrite lookup_insert_eq.
    + exact Hf2.
    + intros s2 Ep Et. apply hash_del_orphan; rewrite ?Ep, ?Et.
      * cbn [s1 joined peers]. rewrite lookup_insert_eq. by eexists.
      * done.
      * cbn [s1 joined hash_table]. by intros Hnil; rewrite Hnil in Hin; apply elem_of_nil in Hin.
  - intros x Hx. cbn [forget s1 joined peers].
    assert (p <> x) by (by intros ->).
    rewrite lookup_delete_ne, lookup_insert_ne by done. by apply (proj1 (proj2 Hok)).
Qed.

(** ** Witnesses

    A proxy with two members, at [1] and [2], and two connections that are not
    in its table: [3] with a new address, [4] with the address of member [1]. *)

Definition mac_n (b : Init.Byte.byte) : mac :=
  Mac Init.Byte.x02 Init.Byte.x00 Init.Byte.x00 Init.Byte.x00 Init.Byte.x00 b.

Definition example_peer (f : Z) (b : Init.Byte.byte) : Peer :=
  with_tids (10 * f) (10 * f + 1)
    (with_ls (LinkState 0x0a000001 2000 (mac_n b) (mac_n b))
       (with_rio (Rio f 0 0 (buf zero_rio)) zero_peer)).

Definition example_io : env :=
  Env 0 (replicate 200 SysOk) (replicate 20 SysOk) (replicate 100 (RdData 2000))
    (replicate 100 (WrCount 2000)) [] (replicate 10 (Timespec 100 5)) [] [] ∅ [].

Definition example_world : world :=
  World example_io lock_init [1%positive; 2%positive]
    (<[1%positive := example_peer 5 Init.Byte.x01]>
      (<[2%positive := example_peer 6 Init.Byte.x02]>
        (<[3%positive := example_peer 7 Init.Byte.x03]>
          (<[4%positive := example_peer 8 Init.Byte.x01]> ∅))))
    (LinkState 0x0a000002 0xd007 (mac_n Init.Byte.xaa) (mac_n Init.Byte.xab))
    (Timespec 90 1) (MkConfig 2000 5 25 60) (Rio 4 0 0 (buf zero_rio)) 1 100 [] 0.

Lemma example_world_ok : world_ok example_world.
Proof.
  split; [|split].
  - by apply (bool_decide_unpack _); vm_compute.
  - intros p Hp. apply list_elem_of_In in Hp. cbn in Hp.
    destruct Hp as [<-|[<-|[]]]; by eexists.
  - intros p p' Hp Hp'. apply list_elem_of_In in Hp, Hp'. cbn in Hp, Hp'.
    destruct Hp as [<-|[<-|[]]], Hp' as [<-|[<-|[]]]; done.
Qed.

Lemma add_member_correct_witness :
  exists s', add_member 3%positive example_world = (Ret tt, s') /\ world_ok s'.
Proof.
  destruct (add_member_correct example_world 3%positive
    (example_peer 7 Init.Byte.x03) (Timespec 100 5) (replicate 9 (Timespec 100 5))
    example_world_ok eq_refl eq_refl eq_refl) as (s' & H1 & H2 & _).
  exists s'. split; [exact H1|exact H2].
Defined.

Lemma remove_member_correct_witness :
  exists s', remove_member (Some 1%positive) example_world = (Ret tt, s')
    /\ world_ok s'.
Proof.
  destruct (remove_member_correct example_world 1%positive
    (example_peer 5 Init.Byte.x01) example_world_ok eq_refl
    ltac:(apply list_elem_of_here) eq_refl) as (s' & H1 & H2 & _).
  exists s'. split; [exact H1|exact H2].
Defined.

Lemma remove_member_keeps_lock_witness :
  exists s', remove_member (Some 3%positive) example_world = (Ret tt, s')
    /\ locks s' = lock_writing.
Proof.
  destruct (remove_member_keeps_lock example_world 3%positive
    (example_peer 7 Init.Byte.x03) eq_refl eq_refl eq_refl) as (s' & H1 & H2 & _).
  exists s'. split; [exact H1|by rewrite H2].
Defined.

Lemma duplicate_member_empties_table_witness :
  exists s', (add_member 4%positive ;;; remove_member (Some 4%positive)) example_world
             = (Ret tt, s') /\ hash_table s' = [].
Proof.
  destruct (duplicate_member_empties_table example_world 4%positive
    (example_peer 8 Init.Byte.x01) 1%positive (Timespec 100 5)
    (replicate 9 (Timespec 100 5)) example_world_ok eq_refl eq_refl eq_refl)
    as (s' & H1 & H2 & _).
  - intros H. apply list_elem_of_In in H. cbn in H. by destruct H as [|[|[]]].
  - apply list_elem_of_here.
  - reflexivity.
  - exists s'. split; [exact H1|exact H2].
Defined.
