(* ===== verification/Join.v ===== *)
(** * Connections and the initial join (src/proxy.c, 75-298; src/main.c, 103-123)

    Opening the listening socket, connecting to a peer by name or by address,
    accepting a connection, and the exchange of link states that follows: the
    client writes its packet and reads the answer, the server reads and then
    writes.  [size] is a [size_t] in both halves, so the test [size<=0] only
    sees an end of file. *)

From S2P Require Export Logic Membership.

Section Join.
Context `{ABI}.

Definition join_length : Z := 2 + Z.of_nat (sizeof c_link_state_source).

(** [pkt.numNbrs1=pkt.numNbrs2=htons(HASH_COUNT(hash_table))] (222-224, 288-290) *)
Definition count_neighbors : M world Z :=
  readBegin ;;; let* n := hash_count in readEnd ;;; ret (htons n).

(** The memory of [pkt] after [got] was read into it. *)
Definition overlay (got mem : bytes) : bytes := got ++ drop (length got) mem.

(** [pkt.ls.listenPort=ntohs(pkt.ls.listenPort); pp->ls=pkt.ls] *)
Definition learn (pp : loc) (l : link_state) : M world unit :=
  let* q := peer pp in
  set_peer pp (with_ls (LinkState (IPaddr l) (ntohs (listenPort l)) (tapMAC l) (ethMAC l)) q).

(** [initial_join_client] (204-251) *)
Definition initial_join_client (pp : loc) : M world (option loc) :=
  let* self_ls := gets linkState in
  let* n := count_neighbors in
  let pkt := InitialJoinPacket (ProxyHeader (htons LINK_STATE) (htons join_length))
               n self_ls n in
  let mem := enc c_initial_join_packet pkt in
  let* size := peer_write pp mem in
  if to_size size =? 0 then ret None
  else
    let* (size, got) := peer_readnb pp (Z.of_nat (sizeof c_initial_join_packet)) in
    if to_size size =? 0 then ret None
    else
      let pkt := dec c_initial_join_packet (overlay got mem) in
      if negb (ntohs (hdr_type (ij_prxyhdr pkt)) =? LINK_STATE) then ret None
      else learn pp (ij_ls pkt) ;;; ret (Some pp).

(** [initial_join_server] (257-298); [junk] is what the uninitialised [pkt]
    holds. *)
Definition initial_join_server (junk : bytes) (pp : loc) : M world (option loc) :=
  let* (size, got) := peer_readnb pp (Z.of_nat (sizeof c_initial_join_packet)) in
  if to_size size =? 0 then ret None
  else
    let pkt := dec c_initial_join_packet (overlay got junk) in
    if negb (ntohs (hdr_type (ij_prxyhdr pkt)) =? LINK_STATE) then ret None
    else
      learn pp (ij_ls pkt) ;;;
      let* l := gets linkState in
      let l := LinkState (IPaddr l) (htons (listenPort l)) (tapMAC l) (ethMAC l) in
      let* n := count_neighbors in
      let pkt := InitialJoinPacket
                   (ProxyHeader (htons LINK_STATE) (htons join_length)) n l n in
      let* size := peer_write pp (enc c_initial_join_packet pkt) in
      if to_size size =? 0 then ret None else ret (Some pp).

(** [linkState.IPaddr.s_addr==-1] *)
Definition address_unknown : M world bool :=
  gets (fun s => IPaddr (linkState s) =? 0xFFFFFFFF).

Definition set_address (a : Z) : M world unit :=
  modify (fun s => set_linkState
    (LinkState a (listenPort (linkState s)) (tapMAC (linkState s))
       (ethMAC (linkState s))) s).

(** [malloc], [memset] and [rio_readinit] of a new peer (149-151, 192-194). *)
Definition new_peer (f : Z) : M world loc :=
  let* pp := alloc_peer in
  let* rp := in_io (rio_readinit f) in
  let* q := peer pp in
  set_peer pp (with_rio rp q) ;;; ret pp.

(** A failed call closes the descriptor and returns [NULL]. *)
Definition close_fd (f : Z) : M world unit := in_io (emit (EvClose f)).

(** [connectbyname] (107-155) *)
Definition connectbyname (hostname port : bytes) : M world (option loc) :=
  let* clientfd := in_io sys_call in
  if clientfd <? 0 then ret None
  else
    let* v := in_io sys_call in
    if v <? 0 then close_fd clientfd ;;; ret None
    else
      let* error := in_io (getaddrinfo hostname port) in
      if negb (error =? 0) then close_fd clientfd ;;; ret None
      else
        let* v := in_io sys_call in
        if v <? 0 then close_fd clientfd ;;; ret None
        else
          let* unknown := address_unknown in
          (if unknown then
             let* v := in_io sys_call in
             if v <? 0 then fail (Exit (-1))
             else let* a := in_io sys_addr in set_address a
           else ret tt) ;;;
          let* pp := new_peer clientfd in
          let* _ := initial_join_client pp in
          add_member pp ;;; ret (Some pp).

(** [connectbyaddr] (157-198).  [if(peerfd=socket(...))] takes the error path
    for every descriptor but [0]. *)
Definition connectbyaddr (addr port : Z) : M world (option loc) :=
  let* peerfd := in_io sys_call in
  if negb (peerfd =? 0) then ret None
  else
    let* v := in_io sys_call in
    if v <? 0 then close_fd peerfd ;;; ret None
    else
      let* v := in_io (connect_to addr port) in
      if v <? 0 then close_fd peerfd ;;; ret None
      else
        let* unknown := address_unknown in
        (if unknown then
           let* v := in_io sys_call in
           if v <? 0 then fail (Exit (-1)) else set_address addr
         else ret tt) ;;;
        let* pp := new_peer peerfd in
        let* _ := initial_join_client pp in
        add_member pp ;;; ret (Some pp).

(** [open_listenfd] (75-105) *)
Definition open_listenfd (port : Z) : M world Z :=
  let* listenfd := in_io sys_call in
  if listenfd <? 0 then ret (-1)
  else
    let* v := in_io sys_call in
    if v <? 0 then close_fd listenfd ;;; fail (Exit (-1))
    else
      let* v := in_io sys_call in
      if v <? 0 then close_fd listenfd ;;; ret (-1)
      else
        let* v := in_io sys_call in
        if v <? 0 then close_fd listenfd ;;; ret (-1)
        else ret listenfd.

(** One iteration of the server loop of [main] (main.c, 103-123). *)
Definition accept_connection (junk : bytes) (listenfd : Z) : M world unit :=
  let* connfd := in_io sys_call in
  if connfd <? 0 then close_fd listenfd ;;; fail (Exit (-1))
  else
    let* unknown := address_unknown in
    (if unknown then
       let* v := in_io sys_call in
       if v <? 0 then fail (Exit (-1))
       else let* a := in_io sys_addr in set_address a
     else ret tt) ;;;
    let* pp := new_peer connfd in
    let* _ := initial_join_server junk pp in
    add_member pp.

(** ** The packets of the exchange *)

(** The packet of the client carries its own link state as it is; that of the
    server has the port passed through [htons]. *)
Definition client_packet (s : world) : initial_join_packet :=
  let n := htons (Z.of_nat (length (hash_table s))) in
  InitialJoinPacket (ProxyHeader (htons LINK_STATE) (htons join_length)) n
    (linkState s) n.

Definition server_packet (s : world) : initial_join_packet :=
  let n := htons (Z.of_nat (length (hash_table s))) in
  InitialJoinPacket (ProxyHeader (htons LINK_STATE) (htons join_length)) n
    (LinkState (IPaddr (linkState s)) (htons (listenPort (linkState s)))
       (tapMAC (linkState s)) (ethMAC (linkState s))) n.

(** What the receiver of a link state stores: the port goes through [ntohs]. *)
Definition learned (l : link_state) : link_state :=
  LinkState (IPaddr l) (ntohs (listenPort l)) (tapMAC l) (ethMAC l).

Definition packet_size : nat := sizeof c_initial_join_packet.

(** The kernel lets the two transfers of an exchange through, however it
    splits them, and no other thread holds the lock. *)
Definition exchange_ready (s : world) : Prop :=
  locks s = lock_init
  /\ calm (io s)
  /\ (2 <= length (setlks (io s)))%nat
  /\ (2 * packet_size <= length (polls (io s)))%nat
  /\ (packet_size <= length (reads (io s)))%nat
  /\ (packet_size <= length (writes (io s)))%nat
  /\ Forall (fun a => exists k, a = RdData (S k)) (reads (io s))
  /\ Forall (fun a => exists k, a = WrCount (S k)) (writes (io s)).

Lemma count_neighbors_free s :
  locks s = lock_init ->
  count_neighbors s = (Ret (htons (Z.of_nat (length (hash_table s)))), s).
Proof using Type.
  intros Hl. unfold count_neighbors.
  erewrite bind_ret_l by (by apply readBegin_free).
  unfold bind at 1, hash_count, gets. unfold bind.
  rewrite readEnd_reading by done. unfold ret.
  destruct s; simpl in *. by subst.
Qed.

Lemma to_size_packet : (to_size (Z.of_nat packet_size) =? 0) = false.
Proof using Type.
  unfold to_size, long_bits, long_size. by destruct abi.
Qed.

Lemma c_initial_join_packet_length p :
  length (enc c_initial_join_packet p) = packet_size.
Proof using Type. apply enc_length. Qed.

Lemma htons_wf z : wf (c_uint 2) (htons z).
Proof using Type. apply htons_range. Qed.

Lemma client_packet_wf s :
  wf c_link_state (linkState s) -> wf c_initial_join_packet (client_packet s).
Proof using Type.
  intros Hl. split; [split; apply htons_wf|].
  split; [apply htons_wf|]. split; [exact Hl|apply htons_wf].
Qed.

Lemma server_packet_wf s :
  wf c_link_state (linkState s) -> wf c_initial_join_packet (server_packet s).
Proof using Type.
  intros (H1 & _ & H3). split; [split; apply htons_wf|].
  split; [apply htons_wf|]. split; [|apply htons_wf].
  split; [exact H1|]. split; [apply htons_wf|exact H3].
Qed.

(** ** One half of the exchange each *)

Lemma stream_input s s' f : input s' = input s -> stream s' f = stream s f.
Proof using Type. unfold stream. by intros ->. Qed.

(** Writing a packet: what is left for the read that may follow. *)
Lemma peer_write_packet p q pkt s :
  exchange_ready s -> peers s !! p = Some q ->
  exists e, peer_write p (enc c_initial_join_packet pkt) s
              = (Ret (Z.of_nat packet_size), set_io e s)
    /\ calm e /\ writes_only (fd (p_rio q)) (io s) e
    /\ written (fd (p_rio q)) (trace e)
       = written (fd (p_rio q)) (trace (io s)) ++ enc c_initial_join_packet pkt
    /\ (packet_size <= length (polls e))%nat.
Proof using Type.
  intros (Hl & Hc & Hk & Hp & Hr & Hw & Har & Haw) Hq.
  pose proof (c_initial_join_packet_length pkt) as Hlen.
  destruct (rio_write_completes (fd (p_rio q)) (enc c_initial_join_packet pkt) (io s))
    as (e & Hrun & Hwr & Hc' & Hwo & Hpl & _).
  { rewrite Hlen. split; [exact Hc|]. split; [lia|]. split; [lia|]. split; [lia|exact Haw]. }
  exists e. split; [|split; [exact Hc'|split; [exact Hwo|split; [exact Hwr|]]]].
  - unfold peer_write, bind at 1. rewrite (peer_live _ _ _ Hq).
    unfold in_io, zoom. by rewrite Hrun, Hlen.
  - rewrite Hlen in Hpl. lia.
Qed.

(** Reading a packet whose bytes are the next unread ones. *)
Lemma peer_read_packet p q pkt rest s :
  peers s !! p = Some q -> rio_wf (p_rio q) -> calm (io s) ->
  (packet_size <= length (polls (io s)))%nat ->
  (packet_size <= length (reads (io s)))%nat ->
  Forall (fun a => exists k, a = RdData (S k)) (reads (io s)) ->
  unread (p_rio q, io s) = enc c_initial_join_packet pkt ++ rest ->
  exists rp e, peer_readnb p (Z.of_nat packet_size) s
      = (Ret (Z.of_nat packet_size, enc c_initial_join_packet pkt),
         set_peers (<[p := with_rio rp q]> (peers s)) (set_io e s))
    /\ calm e /\ rio_wf rp /\ unread (rp, e) = rest
    /\ reads_only (p_rio q, io s) (rp, e)
    /\ (length (polls (io s)) <= length (polls e) + packet_size)%nat.
Proof using Type.
  intros Hq Hwf Hc Hp Hr Har Hu.
  pose proof (c_initial_join_packet_length pkt) as Hlen.
  destruct (rio_readnb_completes (Z.of_nat packet_size) (p_rio q) (io s))
    as ([rp e] & Hrun & Hun & Hc' & Hwf' & Hro & Hpl & _);
    [done|done|lia|lia|lia|done|rewrite Hu, length_app, Hlen; lia|].
  cbn [fst snd] in *. rewrite Hu, Nat2Z.id in *.
  destruct (take_drop_at (enc c_initial_join_packet pkt) rest packet_size)
    as [Ht Hd]; [by rewrite Hlen|].
  rewrite Ht in Hrun. rewrite Hd in Hun.
  exists rp, e. split; [|by repeat (split; [done|])].
  unfold peer_readnb, bind at 1. rewrite (peer_live _ _ _ Hq).
  by rewrite Hrun.
Qed.

Lemma overlay_dec pkt mem :
  wf c_initial_join_packet pkt ->
  dec c_initial_join_packet (overlay (enc c_initial_join_packet pkt) mem) = pkt.
Proof using Type. intros Hw. unfold overlay. by apply dec_enc. Qed.

Lemma learn_run p q l s :
  peers s !! p = Some q ->
  learn p l s = (Ret tt, set_peers (<[p := with_ls (learned l) q]> (peers s)) s).
Proof using Type.
  intros Hq. unfold learn, bind. by rewrite (peer_live _ _ _ Hq).
Qed.

(** The client sends its packet, then stores what the answer says. *)
Lemma initial_join_client_run p q pkt rest s :
  exchange_ready s -> peers s !! p = Some q -> rio_wf (p_rio q) ->
  wf c_initial_join_packet pkt -> ntohs (hdr_type (ij_prxyhdr pkt)) = LINK_STATE ->
  unread (p_rio q, io s) = enc c_initial_join_packet pkt ++ rest ->
  exists rp e, initial_join_client p s =
      (Ret (Some p), set_peers (<[p := with_ls (learned (ij_ls pkt)) (with_rio rp q)]>
                                  (peers s)) (set_io e s))
    /\ fd rp = fd (p_rio q) /\ unread (rp, e) = rest
    /\ written (fd (p_rio q)) (trace e)
       = written (fd (p_rio q)) (trace (io s))
         ++ enc c_initial_join_packet (client_packet s)
    /\ clocks e = clocks (io s)
    /\ exists t, trace e = trace (io s) ++ t.
Proof using Type.
  intros Hrdy Hq Hwf Hpkt Hty Hu.
  destruct (peer_write_packet p q (client_packet s) s Hrdy Hq)
    as (e1 & Hw & Hc1 & Hwo & Hwr & Hpl).
  destruct Hrdy as (Hl & _ & _ & _ & Hr & _ & Har & _).
  destruct Hwo as (Hin & Hrd & Hck & _ & x & Hx & _).
  destruct (peer_read_packet p q pkt rest (set_io e1 s))
    as (rp & e2 & Hrr & _ & _ & Hun & Hro & _); try done.
  { cbn [set_io io]. by rewrite Hrd. }
  { cbn [set_io io]. by rewrite Hrd. }
  { rewrite <- Hu. unfold unread; cbn [fst snd set_io io].
    by rewrite (stream_input _ _ _ Hin). }
  destruct Hro as (Hfd & Htr & _ & _ & Hck2 & _); cbn [fst snd set_io io] in *.
  exists rp, e2. split; [|split; [done|split; [done|split; [by rewrite Htr|
    split; [congruence|exists x; by rewrite Htr]]]]].
  unfold initial_join_client, gets, bind at 1, bind at 1.
  rewrite count_neighbors_free by done.
  unfold client_packet in Hw. erewrite bind_ret_l by exact Hw.
  fold packet_size. rewrite to_size_packet.
  erewrite bind_ret_l by exact Hrr. cbv beta iota. rewrite to_size_packet.
  rewrite overlay_dec, Hty by done. cbn [negb Z.eqb Pos.eqb LINK_STATE].
  erewrite bind_ret_l by (apply learn_run; cbn [set_peers peers]; apply lookup_insert_eq).
  unfold ret. cbn [set_peers set_io peers]. by rewrite insert_insert_eq.
Qed.

(** The server stores what the packet of the client says, then answers. *)
Lemma initial_join_server_run junk p q pkt rest s :
  exchange_ready s -> peers s !! p = Some q -> rio_wf (p_rio q) ->
  wf c_initial_join_packet pkt -> ntohs (hdr_type (ij_prxyhdr pkt)) = LINK_STATE ->
  unread (p_rio q, io s) = enc c_initial_join_packet pkt ++ rest ->
  exists rp e, initial_join_server junk p s =
      (Ret (Some p), set_io e (set_peers
         (<[p := with_ls (learned (ij_ls pkt)) (with_rio rp q)]> (peers s)) s))
    /\ fd rp = fd (p_rio q) /\ unread (rp, e) = rest
    /\ written (fd (p_rio q)) (trace e)
       = written (fd (p_rio q)) (trace (io s))
         ++ enc c_initial_join_packet (server_packet s)
    /\ clocks e = clocks (io s).
Proof using Type.
  intros (Hl & Hc & Hk & Hp & Hr & Hw & Har & Haw) Hq Hwf Hpkt Hty Hu.
  destruct (peer_read_packet p q pkt rest s)
    as (rp & e1 & Hrr & Hc1 & _ & Hun & Hro & Hpl); try done; [lia|].
  destruct Hro as (Hfd & Htr & Hlk & Hws & Hck & _); cbn [fst snd] in *.
  set (q1 := with_ls (learned (ij_ls pkt)) (with_rio rp q)).
  set (s1 := set_peers (<[p := q1]> (peers s)) (set_io e1 s)).
  assert (peers s1 !! p = Some q1) as Hq1 by apply lookup_insert_eq.
  destruct (rio_write_completes (fd rp)
    (enc c_initial_join_packet (server_packet s)) e1)
    as (e2 & Hrun & Hwr & _ & (Hin2 & _ & Hck2 & _) & _).
  { rewrite c_initial_join_packet_length. split; [exact Hc1|].
    rewrite Hlk, Hws. split; [lia|]. split; [lia|]. split; [lia|exact Haw]. }
  exists rp, e2. split; [|split; [done|split; [|split]]].
  - unfold initial_join_server. erewrite bind_ret_l by exact Hrr.
    cbv beta iota. rewrite to_size_packet, overlay_dec, Hty by done.
    cbn [negb Z.eqb Pos.eqb LINK_STATE].
    erewrite bind_ret_l by (apply learn_run; cbn [set_peers peers]; apply lookup_insert_eq).
    unfold gets, bind at 1. cbn [set_peers set_io peers]. rewrite insert_insert_eq.
    change (set_peers (<[p := q1]> (peers s)) _) with s1.
    erewrite bind_ret_l by (by apply count_neighbors_free).
    erewrite bind_ret_l.
    + cbv beta. by rewrite to_size_packet.
    + unfold peer_write. erewrite bind_ret_l by (apply peer_live; exact Hq1).
      unfold in_io, zoom.
      match goal with |- (let '(_, _) := ?x in _) = _ =>
        change x with (rio_write (fd rp)
          (enc c_initial_join_packet (server_packet s)) e1) end.
      rewrite Hrun. rewrite c_initial_join_packet_length. reflexivity.
  - rewrite <- Hun. unfold unread; cbn [fst snd]. by rewrite (stream_input _ _ _ Hin2).
  - by rewrite <- Hfd, Hwr, Htr.
  - congruence.
Qed.

(** ** Connecting *)

(** A fresh structure does not disturb the table. *)
Lemma peer_mac_fresh ps p x p' :
  ps !! p = None -> is_Some (ps !! p') -> peer_mac (<[p := x]> ps) p' = peer_mac ps p'.
Proof using Type.
  intros Hn [y Hy]. unfold peer_mac. rewrite lookup_insert_ne; [done|congruence].
Qed.

Lemma table_ok_fresh ps t p x :
  ps !! p = None -> table_ok ps t -> table_ok (<[p := x]> ps) t.
Proof using Type.
  intros Hn Ht. eapply table_ok_mono; [|exact Ht]. intros p' Hp'.
  pose proof (proj1 (proj2 Ht) _ Hp') as Hlive. split; [by apply peer_mac_fresh|].
  rewrite lookup_insert_ne; [done|]. intros ->. rewrite Hn in Hlive. by destruct Hlive.
Qed.

Definition fresh_rio (f : Z) : rio_t :=
  Rio f 0 0 (replicate (Z.to_nat RIO_BUFSIZE) Init.Byte.x00).

Lemma new_peer_run f s v1 v2 l :
  results (io s) = v1 :: v2 :: l -> 0 <= v1 -> 0 <= v2 ->
  exists p, peers s !! p = None
    /\ new_peer f s = (Ret p, set_peers (<[p := with_rio (fresh_rio f) zero_peer]> (peers s))
                        (set_io (log (EvSetFl f O_NONBLOCK) (set_results l (io s))) s)).
Proof using Type.
  intros Hr H1 H2. exists (fresh (dom (peers s))).
  split; [apply not_elem_of_dom, is_fresh|].
  unfold new_peer, alloc_peer. unfold bind at 1. unfold bind at 1, in_io, zoom.
  unfold rio_readinit, bind at 1, sys_call at 1. cbn [set_peers io]. rewrite Hr.
  rewrite (proj2 (Z.ltb_ge _ _)) by done. cbn [Z.b2z Z.eqb negb].
  unfold bind at 1, sys_call. cbn [set_results results].
  rewrite (proj2 (Z.ltb_ge _ _)) by done. unfold bind at 1, emit, modify, ret.
  cbn [set_io]. erewrite bind_ret_l
    by (apply peer_live; cbn [set_io set_peers peers]; apply lookup_insert_eq).
  unfold bind, set_peer, modify. cbn [set_io set_peers peers].
  rewrite insert_insert_eq. reflexivity.
Qed.

(** [connectbyaddr] gives up with [NULL] on every descriptor but [0], leaving
    a new socket open. *)
Lemma connectbyaddr_gives_up addr port s f l :
  results (io s) = f :: l -> f <> 0 ->
  connectbyaddr addr port s = (Ret None, set_io (set_results l (io s)) s).
Proof using Type.
  intros Hr Hf. unfold connectbyaddr. unfold bind at 1, in_io, zoom, sys_call at 1.
  rewrite Hr. by rewrite (proj2 (Z.eqb_neq _ _)).
Qed.

(** ** The names that are looked up *)

(** The calls of [getaddrinfo] so far: a host name and a port each. *)
Definition looked_up (s : world) : list (bytes * bytes) :=
  omap (fun ev => match ev with EvResolve h p => Some (h, p) | _ => None end) (trace (io s)).

Lemma looked_up_log ev s :
  looked_up (set_io (log ev (io s)) s) =
    looked_up s ++ match ev with EvResolve h p => [(h, p)] | _ => [] end.
Proof using Type. unfold looked_up. cbn. rewrite omap_app. cbn. by destruct ev. Qed.

(** The trace alone says it. *)
Lemma keeps_looked_up {A} (m : M world A) :
  keeps (fun s => trace (io s)) m -> keeps looked_up m.
Proof using Type. intros K s. unfold looked_up. by rewrite (K s). Qed.

Lemma keeps_trace_io {A} (m : M env A) :
  keeps trace m -> keeps (fun s => trace (io s)) (in_io m).
Proof using Type. intros K s. specialize (K s.(io)). unfold in_io, zoom. by destruct (m (io s)). Qed.

Lemma rio_fill_trace l : forall rp s, trace (rio_fill l rp s).2.2 = trace s.
Proof using Type.
  induction l as [|a l IH]; intros rp s; cbn [rio_fill]; destruct (0 <? cnt rp); try done;
    destruct (Wait (fd rp) s) as [o s1] eqn:W; apply Wait_spec in W as (_ & -> & _);
    destruct o as [v| | | | |]; try done; destruct (v <? 0); try done.
  destruct a as [k|e]; cbn [sys_read];
    repeat match goal with
      | |- context [if ?b then _ else _] => destruct b
      end; try done; by rewrite IH.
Qed.

Lemma rio_read_trace n st : trace (rio_read n st).2.2 = trace st.2.
Proof using Type.
  destruct st as [rp s]. unfold rio_read. pose proof (rio_fill_trace (reads s) rp s) as E.
  destruct (rio_fill (reads s) rp s) as [[[v|]| | | | |] [rp' s']]; try done.
  cbn in E |- *. by destruct (_ <=? _).
Qed.

Lemma rio_readnb_trace fuel n : forall nleft acc,
  keeps (fun st => trace st.2) (rio_readnb_loop fuel n nleft acc).
Proof using Type.
  induction fuel as [|fuel IH]; intros nleft acc; [done|]. cbn [rio_readnb_loop].
  destruct (0 <? nleft); [|done].
  apply keeps_bind; [intros st; apply rio_read_trace|intros [v d]].
  apply keeps_bind; [done|intros e].
  destruct (v <? 0); [destruct (e =? EINTR)|destruct (v =? 0)]; try done; apply IH.
Qed.

Lemma keeps_peer_write p bs : keeps looked_up (peer_write p bs).
Proof using Type.
  apply keeps_bind; [intros s; unfold peer; by destruct (peers s !! p)|intros q s].
  unfold in_io, zoom. destruct (rio_write (fd (p_rio q)) bs (io s)) as [o e] eqn:R.
  apply rio_write_spec in R as ((_ & _ & _ & _ & t & E & F) & _).
  unfold looked_up. cbn. rewrite E, omap_app. rewrite <- app_nil_r. f_equal. clear E.
  by induction F as [|ev t [[ty ->]|[d ->]] F IH].
Qed.

Lemma keeps_peer_readnb p n : keeps looked_up (peer_readnb p n).
Proof using Type.
  apply keeps_bind; [intros s; unfold peer; by destruct (peers s !! p)|intros q s].
  pose proof (rio_readnb_trace (S (Z.to_nat n)) n n [] (p_rio q, io s)) as E. unfold rio_readnb.
  destruct (rio_readnb_loop _ _ _ _ _) as [o [rp e]]. unfold looked_up. cbn in E |- *. by rewrite E.
Qed.

Lemma keeps_emit ev :
  (forall h p, ev <> EvResolve h p) -> keeps looked_up (in_io (emit ev)).
Proof using Type.
  intros E s. transitivity (looked_up (set_io (log ev (io s)) s)); [done|].
  rewrite looked_up_log. destruct ev; try apply app_nil_r. by destruct (E hostname port).
Qed.

Lemma keeps_create f p : keeps looked_up (pthread_create f p).
Proof using Type.
  intros s. transitivity (looked_up (set_io (log (EvCreate f p (next_tid s)) (io s)) s)); [done|].
  by rewrite looked_up_log, app_nil_r.
Qed.

(** Everything after [getaddrinfo] looks up no name. *)
Ltac names :=
  repeat match goal with
    | |- keeps looked_up (bind _ _) => apply keeps_bind; [|intros ?]
    | |- keeps looked_up (in_io (emit _)) => by apply keeps_emit
    | |- keeps looked_up (in_io _) =>
        apply keeps_looked_up, keeps_trace_io; intros ?; cbv [sys_call sys_addr clock_gettime];
        by repeat match goal with |- context [match ?x with _ => _ end] => destruct x end
    | |- keeps looked_up (in_locks ?m) => intros ?; unfold in_locks, zoom;
        match goal with |- context [m ?s] => by destruct (m s) end
    | |- keeps looked_up (peer _) => intros ?; apply keeps_deref
    | |- keeps looked_up (peer_write _ _) => apply keeps_peer_write
    | |- keeps looked_up (peer_readnb _ _) => apply keeps_peer_readnb
    | |- keeps looked_up (hash_find _) => intros ?; apply keeps_deref
    | |- keeps looked_up (pthread_create _ _) => apply keeps_create
    | |- keeps looked_up (match ?x with _ => _ end) => destruct x
    | |- keeps looked_up _ => done
    end.

Lemma keeps_new_peer f : keeps looked_up (new_peer f).
Proof using Type.
  unfold new_peer. names.
  intros s. unfold in_io, zoom, rio_readinit, bind, sys_call.
  destruct (results (io s)) as [|v l]; [done|]. destruct (negb _); [done|].
  cbn [set_results results]. destruct l as [|v2 l]; [done|]. destruct (v2 <? 0); [done|].
  etransitivity; [|apply app_nil_r].
  exact (looked_up_log (EvSetFl f (Z.lor (Z.b2z (v <? 0)) O_NONBLOCK))
           (set_io (set_results l (io s)) s)).
Qed.

Lemma keeps_initial_join_client p : keeps looked_up (initial_join_client p).
Proof using Type. 
  unfold initial_join_client, count_neighbors, readBegin, readEnd, learn. names.
 Qed.

Lemma keeps_add_member p : keeps looked_up (add_member p).
Proof using Type. unfold add_member, writeBegin, writeEnd. names. Qed.

(** A computation that looks [a] up before it returns a peer, and that looks up
    nothing else. *)
Definition looks_up (a : bytes * bytes) (m : M world (option loc)) : Prop :=
  forall s, looked_up (m s).2 = looked_up s ++ [a]
    \/ (looked_up (m s).2 = looked_up s /\ forall p, (m s).1 <> Ret (Some p)).

Lemma looks_up_bind {A} a (m : M world A) k :
  keeps looked_up m -> (forall x, looks_up a (k x)) -> looks_up a (bind m k).
Proof using Type.
  intros Hm Hk s. specialize (Hm s). unfold bind.
  destruct (m s) as [[x| | | | |] s1]; cbn in Hm |- *; try by right.
  specialize (Hk x s1). by rewrite Hm in Hk.
Qed.

Lemma looks_up_now h pt (k : Z -> M world (option loc)) :
  (forall v, keeps looked_up (k v)) ->
  looks_up (h, pt) (bind (in_io (getaddrinfo h pt)) k).
Proof using Type.
  intros Hk s. left. pose proof (looked_up_log (EvResolve h pt) s) as E.
  unfold bind at 1, in_io, zoom, getaddrinfo, emit, modify, bind, sys_call.
  destruct (results (log (EvResolve h pt) (io s))) as [|v l]; [exact E|]. by rewrite (Hk v).
Qed.

Lemma looks_up_none a m : keeps looked_up m ->
  (forall s p, (m s).1 <> Ret (Some p)) -> looks_up a m.
Proof using Type. intros Hk Hn s. right. by split. Qed.

(** [connectbyname] looks up the name and the port it is given. *)
Lemma connectbyname_looks_up h pt : looks_up (h, pt) (connectbyname h pt).
Proof using Type.
  unfold connectbyname. apply looks_up_bind; [names|intros f].
  destruct (f <? 0); [by apply looks_up_none|].
  apply looks_up_bind; [names|intros v].
  destruct (v <? 0); [apply looks_up_none; [unfold close_fd; names|done]|].
  apply looks_up_now. intros e. destruct (negb _); [unfold close_fd; names|].
  apply keeps_bind; [names|intros c]. destruct (c <? 0); [unfold close_fd; names|].
  names; [apply keeps_new_peer|apply keeps_initial_join_client|apply keeps_add_member].
Qed.

(** ** Properties *)

(** C23: The join exchange.  When a client and a server run their halves over
    the same connection, both succeed, each sends exactly its packet, and each
    stores the link state of the other; but the two halves disagree on the
    byte order of the port.  With the local port kept in network order, as the
    configuration stores it, the server ends with the client's port in host
    order and the client with the server's port still in network order. *)
Theorem join_exchange junk sc ss pc ps qc qs :
  exchange_ready sc -> exchange_ready ss ->
  peers sc !! pc = Some qc -> peers ss !! ps = Some qs ->
  rio_wf (p_rio qc) -> rio_wf (p_rio qs) ->
  wf c_link_state (linkState sc) -> wf c_link_state (linkState ss) ->
  unread (p_rio qs, io ss) = enc c_initial_join_packet (client_packet sc) ->
  unread (p_rio qc, io sc) = enc c_initial_join_packet (server_packet ss) ->
  exists sc' ss' qc' qs',
    initial_join_client pc sc = (Ret (Some pc), sc')
    /\ initial_join_server junk ps ss = (Ret (Some ps), ss')
    /\ written (fd (p_rio qc)) (trace (io sc'))
       = written (fd (p_rio qc)) (trace (io sc))
         ++ enc c_initial_join_packet (client_packet sc)
    /\ written (fd (p_rio qs)) (trace (io ss'))
       = written (fd (p_rio qs)) (trace (io ss))
         ++ enc c_initial_join_packet (server_packet ss)
    /\ peers sc' !! pc = Some qc' /\ p_ls qc' = linkState ss
    /\ peers ss' !! ps = Some qs' /\ p_ls qs' = learned (linkState sc)
    /\ unread (p_rio qc', io sc') = [] /\ unread (p_rio qs', io ss') = [].
Proof using Type.
  intros Hc Hs Hqc Hqs Hwc Hws Hlc Hls Hus Huc.
  rewrite <- app_nil_r in Hus, Huc.
  destruct (initial_join_client_run pc qc (server_packet ss) [] sc)
    as (rc & ec & Hrc & Hfc & Huc' & Hwrc & _); try done.
  { by apply server_packet_wf. }
  destruct (initial_join_server_run junk ps qs (client_packet sc) [] ss)
    as (rs & es & Hrs & Hfs & Hus' & Hwrs & _); try done.
  { by apply client_packet_wf. }
  eexists _, _, _, _. split; [exact Hrc|]. split; [exact Hrs|].
  cbn [set_io set_peers io peers]. split; [exact Hwrc|]. split; [exact Hwrs|].
  split; [apply lookup_insert_eq|]. split.
  { cbn [with_ls with_rio p_ls server_packet ij_ls]. unfold learned; cbn.
    rewrite ntohs_htons; [by destruct (linkState ss)|apply Hls]. }
  split; [apply lookup_insert_eq|]. split; [done|]. by split.
Qed.

(** An error during the join is not noticed.  [size] is unsigned, so when
    the write or the read of the client fails with [-1] before anything was
    read, the client goes on with the packet it prepared and records its own
    link state, with its own tap MAC address, as that of the peer. *)
Theorem join_error_learns_itself p q v s s1 s2 :
  locks s = lock_init -> wf c_link_state (linkState s) ->
  peer_write p (enc c_initial_join_packet (client_packet s)) s = (Ret v, s1) ->
  v = -1 \/ v = Z.of_nat packet_size ->
  peer_readnb p (Z.of_nat packet_size) s1 = (Ret (-1, []), s2) ->
  peers s2 !! p = Some q ->
  exists s', initial_join_client p s = (Ret (Some p), s')
    /\ exists q', peers s' !! p = Some q'
         /\ tapMAC (p_ls q') = tapMAC (linkState s)
         /\ IPaddr (p_ls q') = IPaddr (linkState s).
Proof using Type.
  intros Hl Hwf Hw Hv Hr Hq.
  assert (forall x, x = -1 \/ x = Z.of_nat packet_size -> (to_size x =? 0) = false) as Hsz.
  { intros x [-> | ->]; [unfold to_size, long_bits, long_size; by destruct abi|].
    apply to_size_packet. }
  exists (set_peers (<[p := with_ls (learned (linkState s)) q]> (peers s2)) s2).
  split.
  - unfold initial_join_client, gets, bind at 1, bind at 1.
    rewrite count_neighbors_free by done. unfold client_packet in Hw.
    erewrite bind_ret_l by exact Hw. fold packet_size.
    rewrite Hsz by done.
    erewrite bind_ret_l by exact Hr. cbv beta iota. rewrite Hsz by auto.
    unfold overlay. cbn [length app]. rewrite drop_0.
    rewrite <- (app_nil_r (enc _ _)), dec_enc by (by apply (client_packet_wf s)).
    cbn [ij_prxyhdr hdr_type]. change (ntohs (htons LINK_STATE)) with LINK_STATE.
    rewrite Z.eqb_refl. cbn [negb].
    erewrite bind_ret_l by (by apply learn_run). reflexivity.
  - cbn [set_peers peers]. rewrite lookup_insert_eq. by eexists.
Qed.

(** Once the calls that open the connection have succeeded. *)
Lemma connectbyname_connected h pt s f v1 v2 l :
  results (io s) = f :: v1 :: 0 :: v2 :: l -> 0 <= f -> 0 <= v1 -> 0 <= v2 ->
  IPaddr (linkState s) <> 0xFFFFFFFF ->
  connectbyname h pt s =
    (let* pp := new_peer f in
     let* _ := initial_join_client pp in
     add_member pp ;;; ret (Some pp)) (set_io (log (EvResolve h pt) (set_results l (io s))) s).
Proof using Type.
  intros Hr Hf H1 H2 Hip.
  unfold connectbyname. unfold bind at 1, in_io at 1, zoom, sys_call at 1.
  rewrite Hr, (proj2 (Z.ltb_ge f 0)) by done.
  unfold bind at 1, in_io at 1, zoom, sys_call at 1. cbn [set_io io set_results results].
  rewrite (proj2 (Z.ltb_ge v1 0)) by done.
  unfold bind at 1, in_io at 1, zoom, getaddrinfo, emit, modify, bind at 1, sys_call at 1.
  cbn [set_io io log set_results results]. rewrite Z.eqb_refl. cbn [negb].
  unfold bind at 1, in_io at 1, zoom, sys_call at 1. cbn [set_io io log set_results results].
  rewrite (proj2 (Z.ltb_ge v2 0)) by done.
  unfold bind at 1, address_unknown, gets. cbn [set_io linkState].
  by rewrite (proj2 (Z.eqb_neq _ _)) by done.
Qed.

(** C24: Connecting to a configured peer.  When the calls that open the
    connection succeed, the local address is known and the server answers with
    a link-state packet whose tap MAC address is new, [connectbyname] looks up
    the name and the port it was given, sends the packet of this proxy and returns a new member at the end of the table that
    carries the link state of the server; the table stays well-formed and the
    lock is free again. *)
Theorem connectbyname_joins h pt s f v1 v2 v3 v4 l pkt rest now ck :
  world_ok s -> exchange_ready s -> wf c_initial_join_packet pkt ->
  IPaddr (linkState s) <> 0xFFFFFFFF ->
  results (io s) = f :: v1 :: 0 :: v2 :: v3 :: v4 :: l ->
  0 <= f -> 0 <= v1 -> 0 <= v2 -> 0 <= v3 -> 0 <= v4 ->
  stream (io s) f = enc c_initial_join_packet pkt ++ rest ->
  ntohs (hdr_type (ij_prxyhdr pkt)) = LINK_STATE ->
  clocks (io s) = now :: ck ->
  (forall p, p ∈ hash_table s -> peer_mac (peers s) p <> Some (tapMAC (ij_ls pkt))) ->
  exists p q s', connectbyname h pt s = (Ret (Some p), s')
    /\ peers s !! p = None /\ hash_table s' = hash_table s ++ [p]
    /\ peers s' !! p = Some q /\ p_ls q = learned (ij_ls pkt)
    /\ p_timestamp q = now /\ fd (p_rio q) = f
    /\ world_ok s' /\ locks s' = lock_init
    /\ written f (trace (io s'))
       = written f (trace (io s)) ++ enc c_initial_join_packet (client_packet s)
    /\ exists t, trace (io s') = trace (io s) ++ EvResolve h pt :: t.
Proof using Type.
  intros Hok Hrdy Hpkt Hip Hr Hf H1 H2 H3 H4 Hin Hty Hck Hnew.
  set (s1 := set_io (log (EvResolve h pt) (set_results (v3 :: v4 :: l) (io s))) s).
  destruct (new_peer_run f s1 v3 v4 l) as (p & Hfresh & Hnp); [done..|].
  change (peers s1) with (peers s) in *.
  set (q0 := with_rio (fresh_rio f) zero_peer) in *.
  set (s2 := set_peers _ _) in Hnp.
  destruct (initial_join_client_run p q0 pkt rest s2)
    as (rp & e & Hj & Hfd & _ & Hwr & Hck2 & t & Hext); try done.
  { apply lookup_insert_eq. }
  { apply fresh_rio_wf. }
  cbn [s2 set_peers peers] in Hj. rewrite insert_insert_eq in Hj.
  set (q1 := with_ls (learned (ij_ls pkt)) (with_rio rp q0)) in *.
  set (s3 := set_peers _ (set_io e _)) in Hj.
  assert (table_ok (peers s3) (hash_table s)) as Hok3 by (by apply table_ok_fresh).
  assert (peers s3 !! p = Some q1) as Hq1 by apply lookup_insert_eq.
  assert (forall x, x ∈ hash_table s3 -> peer_mac (peers s3) x <> Some (tapMAC (p_ls q1)))
    as Hnew3.
  { intros x Hx. cbn [s3 set_peers peers]. rewrite peer_mac_fresh; [by apply Hnew|done|].
    by apply (proj1 (proj2 Hok)). }
  assert (add_member p s3 = (Ret tt, joined p q1 now ck (hash_table s3 ++ [p]) s3)) as Ha.
  { apply add_member_run; [apply Hrdy|done|by cbn; rewrite Hck2|left; split; [|done]].
    destruct (find_key_ok (peers s3) (hash_table s3) (tapMAC (p_ls q1)) Hok3)
      as [(x & _ & Hx & Hk)|[E _]]; [by destruct (Hnew3 x)|done]. }
  exists p. eexists. exists (joined p q1 now ck (hash_table s3 ++ [p]) s3).
  split; [|split; [done|split; [done|split; [apply lookup_insert_eq|]]]].
  - rewrite (connectbyname_connected h pt s f v1 v2 (v3 :: v4 :: l)) by done.
    change (set_io _ _) with s1.
    erewrite bind_ret_l by exact Hnp. erewrite bind_ret_l by exact Hj.
    erewrite bind_ret_l by exact Ha. reflexivity.
  - split; [done|]. split; [done|]. split; [done|]. split; [|split].
    + unfold world_ok. apply table_ok_joined; [done|]. eapply table_ok_add; [done|apply peer_mac_live; exact Hq1|exact Hnew3].
    + apply Hrdy.
    + split; [|eexists; cbn [joined io log set_clocks trace s3 set_peers set_io];
        rewrite Hext; cbn [s2 s1 set_peers set_io io log trace set_results];
        rewrite <- !app_assoc; reflexivity].
      cbn [joined io log set_clocks trace]. rewrite !written_app.
      cbn [s3 set_peers set_io io trace]. change (fd (p_rio q0)) with f in Hwr.
      rewrite Hwr. cbn [s2 set_peers set_io io log trace set_results s1].
      rewrite !written_app. unfold written at 2 3 5 6; cbn [map concat].
      by rewrite !app_nil_r.
Qed.

End Join.

(** ** Witnesses, on a 64-bit host *)

#[local] Instance example_abi : ABI := LP64.

(** The world of another proxy, with its own link state, and a world in which
    descriptor [7] delivers some bytes. *)
Definition other_world : world :=
  set_linkState (LinkState 0x0a000003 0xd107 (mac_n Init.Byte.xba) (mac_n Init.Byte.xbb))
    example_world.
Definition with_input (bs : bytes) (s : world) : world :=
  set_io (set_input {[ 7 := bs ]} (io s)) s.

Definition sc_example : world :=
  with_input (enc c_initial_join_packet (server_packet other_world)) example_world.
Definition ss_example : world :=
  with_input (enc c_initial_join_packet (client_packet example_world)) other_world.

Lemma exchange_ready_example bs s :
  s = example_world \/ s = other_world -> exchange_ready (with_input bs s).
Proof.
  assert (forall bs, exchange_ready (with_input bs example_world)) as Hx.
  { intros b. split; [done|]. split; [split; [discriminate|split; by repeat constructor]|].
    split; [cbn; lia|]. split; [vm_compute; lia|]. split; [vm_compute; lia|].
    split; [vm_compute; lia|]. split; repeat constructor; by eexists. }
  intros [-> | ->]; [apply Hx|exact (Hx bs)].
Qed.

Lemma example_rio_wf f b : rio_wf (p_rio (example_peer f b)).
Proof. exact (fresh_rio_wf f). Qed.

Lemma join_exchange_witness :
  exists sc' ss', initial_join_client 3%positive sc_example = (Ret (Some 3%positive), sc')
    /\ initial_join_server [] 3%positive ss_example = (Ret (Some 3%positive), ss').
Proof.
  destruct (join_exchange [] sc_example ss_example 3%positive 3%positive
    (example_peer 7 Init.Byte.x03) (example_peer 7 Init.Byte.x03))
    as (sc' & ss' & qc' & qs' & H1 & H2 & _).
  - apply exchange_ready_example. by left.
  - apply exchange_ready_example. by right.
  - reflexivity.
  - reflexivity.
  - apply example_rio_wf.
  - apply example_rio_wf.
  - solve_wf.
  - solve_wf.
  - vm_compute. reflexivity.
  - vm_compute. reflexivity.
  - exists sc', ss'. split; [exact H1|exact H2].
Defined.

(** The connection of peer [3] is broken: [poll] fails with [EBADF]. *)
Definition broken_world : world :=
  set_io (set_polls (replicate 4 (SysErr 9)) (io example_world)) example_world.

Lemma join_error_learns_itself_witness :
  exists s', initial_join_client 3%positive broken_world = (Ret (Some 3%positive), s').
Proof.
  destruct (join_error_learns_itself 3%positive
    (example_peer 7 Init.Byte.x03) (-1) broken_world
    (peer_write 3%positive (enc c_initial_join_packet (client_packet broken_world))
       broken_world).2
    (peer_readnb 3%positive (Z.of_nat packet_size) (peer_write 3%positive
       (enc c_initial_join_packet (client_packet broken_world)) broken_world).2).2)
    as (s' & H1 & _).
  - reflexivity.
  - solve_wf.
  - vm_compute. reflexivity.
  - by left.
  - vm_compute. reflexivity.
  - vm_compute. reflexivity.
  - exists s'. exact H1.
Defined.

(** A server at the other end of descriptor [7] answers. *)
Definition dialing_world : world :=
  with_input (enc c_initial_join_packet (server_packet other_world))
    (set_io (set_results [7; 0; 0; 0; 0; 0] (io example_world)) example_world).

Lemma connectbyname_joins_witness :
  exists p s', connectbyname [Init.Byte.x61] [Init.Byte.x31] dialing_world = (Ret (Some p), s')
    /\ hash_table s' = [1%positive; 2%positive; p].
Proof.
  destruct (connectbyname_joins [Init.Byte.x61] [Init.Byte.x31] dialing_world 7 0 0 0 0 [] (server_packet other_world)
    [] (Timespec 100 5) (replicate 9 (Timespec 100 5)))
    as (p & q & s' & H1 & _ & H2 & _).
  - exact example_world_ok.
  - exact (exchange_ready_example [] example_world (or_introl eq_refl)).
  - apply server_packet_wf. solve_wf.
  - discriminate.
  - reflexivity.
  - lia.
  - lia.
  - lia.
  - lia.
  - lia.
  - rewrite app_nil_r. reflexivity.
  - reflexivity.
  - reflexivity.
  - intros p Hp. apply list_elem_of_In in Hp. cbn in Hp.
    destruct Hp as [<-|[<-|[]]]; discriminate.
  - exists p, s'. split; [exact H1|exact H2].
Defined.
