(* ===== verification/Handlers.v ===== *)
(** * Packet handlers and threads (src/proxy.c, 300-339 and 412-504;
    src/handlers.c, 3-304)

    The functions that handle the packet types other than the link state, and
    the four threads and signal handlers that call them: [tap_handler] and
    [eth_handler], whose endless loops are iterations of a step, the timer of a
    link, and the departure of the proxy.  [Link_State] is an argument of the
    dispatch, so that this file does not depend on its implementation. *)

From S2P Require Export Join.

(** A sequence of steps that leave the threads alone, or cancel one. *)
Ltac solve_dropped :=
  eexists; split; [reflexivity|]; do 5 (split; [done|]); split;
  [cbn -[started]; rewrite ?started_log; cbn [is_start]; by rewrite ?app_nil_r
  |intros x; cbn; rewrite !elem_of_cons; tauto].

Section Handlers.
Context `{ABI}.

(** [HASH_FIND(hh, hash_table, mem + off, ETH_ALEN, pp)]: the key is only read
    when the table is not empty. *)
Definition hash_find_at (mem : bytes) (off : nat) : M world (option loc) :=
  let* t := gets hash_table in
  match t with
  | [] => ret None
  | _ => let* k := (fun s => deref (load c_mac mem off) s) in hash_find k
  end.

(** Offset of [tapMAC] in a [link_state]. *)
Definition tapMAC_offset : nat := 6.

(** ** Packets *)

(** [Data] (proxy.c, 300-308); the buffer holds [length] bytes. *)
Definition Data (data : bytes) : M world Z :=
  let* rt := gets rio_tap in
  let* size := in_io (rio_write (fd rt) data) in
  if size <=? 0 then ret (-1) else ret 0.

(** [Leave] (proxy.c, 310-319) *)
Definition Leave (data : bytes) : M world Z :=
  readBegin ;;;
  let* pp := hash_find_at data tapMAC_offset in
  readEnd ;;;
  match pp with
  | Some pp => remove_member (Some pp)
  | None => ret tt
  end ;;;
  ret 0.

(** [Quit] (proxy.c, 321-339) *)
Definition Quit (data : bytes) : M world Z :=
  let prxyhdr := ProxyHeader (ntohs QUIT) (ntohs QUIT_LEN) in
  if negb (Z.of_nat (length data) =? QUIT_LEN) then ret (-1)
  else
    let buffer := enc c_proxy_header prxyhdr ++ data in
    writeBegin ;;;
    hash_iter (fun pp => peer_write pp buffer ;;; remove_member (Some pp)) ;;;
    writeEnd ;;;
    let* t := gets tap_tid in
    pthread_cancel t ;;;
    fail (Exit 0).

(** The packet types that are not implemented (proxy.c, 412-442) *)
Definition RTT_Probe_Request (data : bytes) (pp : loc) : M world Z := ret 0.
Definition RTT_Probe_Response (data : bytes) (pp : loc) : M world Z := ret 0.
Definition Proxy_Public_Key (data : bytes) : M world Z := ret 0.
Definition Signed_Data (data : bytes) : M world Z := ret 0.
Definition Proxy_Secret_Key (data : bytes) : M world Z := ret 0.
Definition Encrypted_Data (data : bytes) : M world Z := ret 0.
Definition Encrypted_Link_State (data : bytes) : M world Z := ret 0.
Definition Signed_Link_State (data : bytes) : M world Z := ret 0.

(** [Bandwidth_Probe_Request] (proxy.c, 445-453): the first [12] bytes of
    [bwreq] are sent, whose layout has [padding] on a 64-bit host. *)
Definition Bandwidth_Probe_Request (padding data : bytes) (pp : loc) : M world Z :=
  let* id := (fun s => deref (load c_timespec data 0) s) in
  let bwreq := ProbeReq (ProxyHeader (htons BANDWIDTH_PROBE_RESPONSE) (htons 8)) id in
  let* size := peer_write pp (take 12 (enc_probe_req padding bwreq)) in
  if size <? 0 then ret (-1) else ret 0.

(** [float] arithmetic, in single precision. *)
Definition fadd := SFadd float_prec float_emax.
Definition fdiv := SFdiv float_prec float_emax.

(** [RTT], the bandwidth and the link weight for a difference of time
    (proxy.c, 481-486) *)
Definition round_trip (d : timespec) : spec_float :=
  fadd (float_of_int (tv_sec d))
    (fdiv (float_of_int (tv_nsec d)) (float_of_int 1000000000)).
Definition link_bandwidth (RTT : spec_float) : spec_float :=
  fdiv (float_of_int (8 * 66)) (fdiv RTT (float_of_int 2)).
Definition link_weight (RTT : spec_float) : spec_float :=
  fdiv (fdiv RTT (float_of_int 2)) (float_of_int 66).

(** The difference as [Bandwidth_Probe_Response] computes it (475-480): the
    borrow is added to the seconds. *)
Definition probe_elapsed (now sent : timespec) : timespec :=
  let sec := to_long (tv_sec now - tv_sec sent) in
  let nsec := to_long (tv_nsec now - tv_nsec sent) in
  if nsec <? 0 then Timespec (to_long (sec + 1)) (to_long (nsec + 1000000000))
  else Timespec sec nsec.

(** [Bandwidth_Probe_Response] (proxy.c, 455-504) *)
Definition Bandwidth_Probe_Response (data : bytes) (pp : loc) : M world Z :=
  let* ts := in_io clock_gettime in
  let* pkt := (fun s => deref (load c_timespec data 0) s) in
  let tspkt := Timespec (to_long (ntohl (tv_sec pkt))) (to_long (ntohl (tv_nsec pkt))) in
  let* q := peer pp in
  if (tv_sec tspkt =? tv_sec (p_probe_ts q)) && (tv_nsec tspkt =? tv_nsec (p_probe_ts q))
  then
    let RTT := round_trip (probe_elapsed ts tspkt) in
    set_peer pp (with_bandwidth (link_bandwidth RTT) (link_weight RTT) q) ;;;
    ret 0
  else ret 0.

(** ** The reader thread of a peer *)

(** The [switch] of [eth_handler] (handlers.c, 127-203): the result of the
    function for the type, [None] for an unknown type. *)
Definition dispatch (Link_State : bytes -> M world Z) (padding : bytes)
    (type : Z) (data : bytes) (pp : loc) : M world (option Z) :=
  let handle m := let* v := m in ret (Some v) in
  if type =? DATA then handle (Data data)
  else if type =? LEAVE then handle (Leave data)
  else if type =? QUIT then handle (Quit data)
  else if type =? LINK_STATE then handle (Link_State data)
  else if type =? RTT_PROBE_REQUEST then handle (RTT_Probe_Request data pp)
  else if type =? RTT_PROBE_RESPONSE then handle (RTT_Probe_Response data pp)
  else if type =? PROXY_PUBLIC_KEY then handle (Proxy_Public_Key data)
  else if type =? SIGNED_DATA then handle (Signed_Data data)
  else if type =? PROXY_SECRET_KEY then handle (Proxy_Secret_Key data)
  else if type =? ENCRYPTED_DATA then handle (Encrypted_Data data)
  else if type =? ENCRYPTED_LINK_STATE then handle (Encrypted_Link_State data)
  else if type =? SIGNED_LINK_STATE then handle (Signed_Link_State data)
  else if type =? BANDWIDTH_PROBE_REQUEST then
    handle (Bandwidth_Probe_Request padding data pp)
  else if type =? BANDWIDTH_PROBE_RESPONSE then
    handle (Bandwidth_Probe_Response data pp)
  else ret None.

(** One pass through the loop of [eth_handler] (handlers.c, 96-206).  [mem] is
    what [prxyhdr] holds before, [junk] what [malloc] returns; the result is
    what [prxyhdr] holds after.  After a failed read of the payload, and after
    a type error, a thread that is not cancelled uses and frees the buffer it
    has already freed. *)
Definition eth_iteration (Link_State : bytes -> M world Z) (padding : bytes)
    (junk : nat -> bytes) (pp : loc) (mem : bytes) : M world bytes :=
  let* (size, got) := peer_readnb pp PROXY_HLEN in
  let mem := overlay got mem in
  (if size <=? 0 then pthread_testcancel ;;; remove_member (Some pp) else ret tt) ;;;
  pthread_testcancel ;;;
  let hdr := dec c_proxy_header mem in
  let type := ntohs (hdr_type hdr) in
  let len := ntohs (hdr_length hdr) in
  let* (size, got) := peer_readnb pp len in
  if size <=? 0 then
    remove_member (Some pp) ;;; pthread_testcancel ;;; fail Undefined
  else
    let buffer := take (Z.to_nat len) (overlay got (junk (Z.to_nat len))) in
    let* v := dispatch Link_State padding type buffer pp in
    let failed := match v with None => true | Some v => v <? 0 end in
    if failed then
      remove_member (Some pp) ;;; pthread_testcancel ;;; fail Undefined
    else
      pthread_testcancel ;;;
      ret (enc c_proxy_header (ProxyHeader type len)).

(** [eth_handler] (handlers.c, 86-207), for [fuel] passes. *)
Fixpoint eth_handler (Link_State : bytes -> M world Z) (padding : bytes)
    (junk : nat -> bytes) (fuel : nat) (pp : loc) (mem : bytes) : M world unit :=
  match fuel with
  | O => fail Starved
  | S fuel =>
      let* mem := eth_iteration Link_State padding junk pp mem in
      eth_handler Link_State padding junk fuel pp mem
  end.

(** ** The tap device *)

(** [rio_read(&rio_tap, buf, n)] *)
Definition tap_read (n : Z) : M world (Z * bytes) := fun s =>
  let '(o, (rp, e)) := rio_read n (rio_tap s, io s) in
  (o, set_rio_tap rp (set_io e s)).

(** A member that cannot be written to is dropped, inside the write section
    (handlers.c, 56-61 and 74-79). *)
Definition tap_drop (pp : loc) : M world unit :=
  let* q := peer pp in
  pthread_cancel (p_timeout_tid q) ;;;
  hash_del pp ;;;
  close_peer pp ;;;
  pthread_cancel (p_tid q) ;;;
  free_peer pp.

(** [if((size=rio_write(...))<=0)] and the removal that follows. *)
Definition tap_forward (packet : bytes) (pp : loc) : M world unit :=
  let* size := peer_write pp packet in
  if size <=? 0 then tap_drop pp else ret tt.

(** The capacity of [buffer] after the proxy header. *)
Definition tap_capacity : Z := ETH_FRAME_LEN.

(** One pass through the loop of [tap_handler] (handlers.c, 9-83). *)
Definition tap_iteration : M world unit :=
  let* (size, got) := tap_read (PROXY_HLEN + ETH_FRAME_LEN) in
  if size <=? 0 then fail (Exit (-1))
  else if tap_capacity <? Z.of_nat (length got) then fail Undefined
  else
    let buffer := enc c_proxy_header (ProxyHeader (htons DATA) (htons size)) ++ got
                  ++ replicate (Z.to_nat tap_capacity - length got) Init.Byte.x00 in
    let packet := take (Z.to_nat (PROXY_HLEN + ntohs (htons size))) buffer in
    writeBegin ;;;
    (if bool_decide (mac_of_bytes (drop (Z.to_nat PROXY_HLEN) buffer) = BROADCAST_ADDR)
     then hash_iter (tap_forward packet)
     else
       let* pp := hash_find_at buffer tapMAC_offset in
       match pp with
       | Some pp => tap_forward packet pp
       | None => ret tt
       end) ;;;
    writeEnd.

(** [tap_handler] (handlers.c, 3-84), for [fuel] passes. *)
Fixpoint tap_handler (fuel : nat) : M world unit :=
  match fuel with
  | O => fail Starved
  | S fuel => tap_iteration ;;; tap_handler fuel
  end.

(** ** The timer of a link *)

(** The time since [last] as [timeout_handler] computes it (handlers.c,
    241-250). *)
Definition link_elapsed (now last : timespec) : timespec :=
  let sec := to_long (tv_sec now - tv_sec last) in
  let nsec := to_long (tv_nsec now - tv_nsec last) in
  if nsec <? 0 then Timespec (to_long (sec - 1)) (to_long (nsec + 1000000000))
  else Timespec sec nsec.

(** [tscmp.tv_sec>=config.link_timeout] (handlers.c, 255): the comparison of a
    [long] and a [uint32_t] is unsigned when [long] has 32 bits. *)
Definition long_ge_u32 (a b : Z) : bool :=
  match abi with ILP32 => b <=? to_size a | LP64 => b <=? a end.

Definition expired (timeout : Z) (now last : timespec) : bool :=
  long_ge_u32 (tv_sec (link_elapsed now last)) timeout.

(** [ts.tv_sec+=config.link_timeout] (216 and 262) *)
Definition deadline (timeout : Z) (t : timespec) : timespec :=
  Timespec (to_long (tv_sec t + timeout)) (tv_nsec t).

(** The [while] loop (233-263).  The peer may be refreshed while the thread
    waits: the wait gives the timestamp found when it returns. *)
Fixpoint timeout_loop (fuel : nat) (ts : timespec) (pp : loc) : M world unit :=
  match fuel with
  | O => fail Starved
  | S fuel =>
      let* (v, refreshed) := in_io (sys_timedwait ts) in
      let* q := peer pp in
      set_peer pp (with_timestamp refreshed q) ;;;
      if 0 <? v then
        pthread_testcancel ;;;
        let* now := in_io clock_gettime in
        let* q := peer pp in
        let* c := gets config in
        if expired (link_timeout c) now (p_timestamp q) then ret tt
        else timeout_loop fuel (deadline (link_timeout c) (p_timestamp q)) pp
      else ret tt
  end.

(** [timeout_handler] (handlers.c, 212-273) *)
Definition timeout_handler (pp : loc) : M world unit :=
  let* now := in_io clock_gettime in
  let* c := gets config in
  timeout_lock pp ;;;
  let* n := gets (fun s => length (waits (io s))) in
  timeout_loop (S n) (deadline (link_timeout c) now) pp ;;;
  timeout_unlock pp ;;;
  pthread_testcancel ;;;
  writeBegin ;;;
  hash_del pp ;;;
  close_peer pp ;;;
  let* q := peer pp in
  pthread_cancel (p_tid q) ;;;
  free_peer pp ;;;
  writeEnd.

(** ** Leaving *)

Definition leave_message (l : link_state) (ts : timespec) : leave_packet :=
  LeavePacket (ProxyHeader (htons LEAVE) (htons QUIT_LEN))
    (Leave_ (IPaddr l) (htons (listenPort l)) (tapMAC l)
       (Timespec (to_long (htonl (tv_sec ts))) (to_long (htonl (tv_nsec ts))))).

(** [leave_handler] (handlers.c, 279-304) *)
Definition leave_handler : M world unit :=
  let* l := gets linkState in
  let* ts := gets timestamp in
  let lvpkt := leave_message l ts in
  hash_iter (fun pp =>
    let* q := peer pp in
    pthread_cancel (p_timeout_tid q) ;;;
    peer_write pp (enc c_leave_packet lvpkt) ;;;
    hash_del pp ;;;
    close_peer pp ;;;
    pthread_cancel (p_tid q) ;;;
    free_peer pp) ;;;
  fail (Exit 0).

(** ** Lemmas on the shared operations *)

Lemma peer_write_run p q data s o e :
  peers s !! p = Some q -> rio_write (fd (p_rio q)) data (io s) = (o, e) ->
  peer_write p data s = (o, set_io e s).
Proof using Type.
  intros Hq Hw. unfold peer_write, bind. rewrite (peer_live _ _ _ Hq).
  unfold in_io, zoom. by rewrite Hw.
Qed.

(** Writing to a live peer only touches the input and output, and either
    returns or is still waiting. *)
Lemma peer_write_outcome p q data s o s' :
  peers s !! p = Some q -> peer_write p data s = (o, s') ->
  exists e, s' = set_io e s /\ writes_only (fd (p_rio q)) (io s) e
    /\ (o = Starved \/ exists v, o = Ret v).
Proof using Type.
  intros Hq. destruct (rio_write (fd (p_rio q)) data (io s)) as [o1 e] eqn:Hw.
  rewrite (peer_write_run _ _ _ _ _ _ Hq Hw). intros [= <- <-].
  exists e. apply rio_write_spec in Hw as (Hwo & sent & rest & _ & _ & Ho).
  split; [done|]. split; [done|]. destruct Ho as [->|[->|[-> _]]]; eauto.
Qed.

Lemma hash_find_at_run mem off k s o :
  load c_mac mem off = Some k -> find_key (peers s) (hash_table s) k = Some o ->
  hash_find_at mem off s = (Ret o, s).
Proof using Type.
  intros Hk Hf. unfold hash_find_at, bind at 1, gets.
  destruct (hash_table s) eqn:E.
  - cbn in Hf. by injection Hf as <-.
  - unfold bind. rewrite Hk. cbn [deref]. unfold ret.
    apply hash_find_run. by rewrite E.
Qed.

(** ** The tap thread: safety *)

(** The peer at [p] has left: its two threads are cancelled, it is freed, and no
    thread is started. *)
Definition dropped (p : loc) (q : Peer) (s s' : world) : Prop :=
  hash_table s' = filter (fun x => x <> p) (hash_table s)
  /\ peers s' = delete p (peers s) /\ locks s' = locks s /\ rio_tap s' = rio_tap s
  /\ next_tid s' = next_tid s /\ started (io s') = started (io s)
  /\ forall t, t ∈ cancelled s' <-> t = p_tid q \/ t = p_timeout_tid q \/ t ∈ cancelled s.

Lemma tap_drop_run p q s :
  peers s !! p = Some q -> p ∈ hash_table s ->
  exists s', tap_drop p s = (Ret tt, s') /\ dropped p q s s'.
Proof using Type.
  intros Hq Hin. unfold tap_drop. erewrite bind_ret_l by (by apply peer_live).
  erewrite bind_ret_l by apply pthread_cancel_run.
  erewrite bind_ret_l by (apply hash_del_member; [by exists q|done]).
  erewrite bind_ret_l by (by apply (close_peer_run p q)).
  erewrite bind_ret_l by apply pthread_cancel_run.
  rewrite (free_peer_run p q) by done. solve_dropped.
Qed.

Lemma tap_forward_safe packet p s o s' :
  world_ok s -> p ∈ hash_table s -> tap_forward packet p s = (o, s') ->
  o = Starved \/ (o = Ret tt /\ world_ok s' /\ locks s' = locks s
    /\ rio_tap s' = rio_tap s
    /\ (forall x, x ∈ hash_table s' -> x ∈ hash_table s)
    /\ (forall x, x ∈ hash_table s -> x <> p -> x ∈ hash_table s')).
Proof using Type.
  intros Hok Hin. destruct (proj1 (proj2 Hok) p Hin) as [q Hq].
  unfold tap_forward, bind. destruct (peer_write p packet s) as [o1 s1] eqn:Hw.
  destruct (peer_write_outcome _ _ _ _ _ _ Hq Hw) as (e & -> & _ & [->|[v ->]]).
  { intros [= <- <-]. by left. }
  destruct (v <=? 0).
  - destruct (tap_drop_run p q (set_io e s)) as (s2 & -> & Ht & Hp & Hl & Hr & _); [done..|].
    intros [= <- <-]. right. split; [done|]. split; [|split; [done|split; [done|]]].
    + unfold world_ok. rewrite Ht, Hp. by apply table_ok_remove.
    + rewrite Ht. split; [by intros x [_ Hx]%list_elem_of_filter|].
      intros x Hx Hne. by apply list_elem_of_filter.
  - intros [= <- <-]. right. by repeat (split; [done|]).
Qed.

Lemma iter_tap_forward_safe packet t s o s' :
  world_ok s -> NoDup t -> (forall p, p ∈ t -> p ∈ hash_table s) ->
  iter (tap_forward packet) t s = (o, s') ->
  o = Starved \/ (o = Ret tt /\ world_ok s' /\ locks s' = locks s
    /\ rio_tap s' = rio_tap s /\ (forall x, x ∈ hash_table s' -> x ∈ hash_table s)).
Proof using Type.
  revert s. induction t as [|p t IH]; intros s Hok Hnd Hin; cbn [iter].
  { intros [= <- <-]. right. by repeat (split; [done|]). }
  apply NoDup_cons in Hnd as [Hp Hnd].
  unfold bind. destruct (tap_forward packet p s) as [o1 s1] eqn:Hf.
  destruct (tap_forward_safe _ _ _ _ _ Hok (Hin p (list_elem_of_here _ _)) Hf)
    as [->|(-> & Hok1 & Hl1 & Hr1 & Hs1 & Hk1)].
  { intros [= <- <-]. by left. }
  intros Hrun. destruct (IH s1) as [->|(-> & Hok2 & Hl2 & Hr2 & Hs2)]; try done.
  { intros x Hx. apply Hk1; [by apply Hin, list_elem_of_further|].
    by intros ->. }
  { by left. }
  right. split; [done|]. split; [done|]. split; [congruence|]. split; [congruence|].
  auto.
Qed.

Lemma tap_read_outcome n s o s' :
  rio_wf (rio_tap s) -> 0 < n -> tap_read n s = (o, s') ->
  (exists e rp, s' = set_rio_tap rp (set_io e s) /\ rio_wf rp /\ started e = started (io s))
  /\ (o = Starved
      \/ exists v data, o = Ret (v, data)
         /\ (length data <= length (unread (rio_tap s, io s)))%nat
         /\ (v < 0 \/ v = Z.of_nat (length data) /\ v <= n)).
Proof using Type.
  intros Hwf Hn. unfold tap_read.
  destruct (rio_read n (rio_tap s, io s)) as [o1 [rp e]] eqn:Hr.
  destruct (rio_read_spec _ _ _ _ _ Hwf Hn Hr) as (Hwf' & Hro & Hm).
  apply reads_only_started in Hro. intros [= <- <-]. split; [by exists e, rp|].
  destruct o1 as [[v data]| | | | |]; try done; [right|by left].
  destruct Hm as [Hu Hv]. exists v, data. split; [done|]. split.
  - rewrite Hu, length_app. lia.
  - destruct Hv as [(-> & _)|[-> ?]]; [left; lia|by right].
Qed.

(** ** The tap thread: delivery *)

Definition peer_fd (ps : gmap loc Peer) (p : loc) : option Z :=
  (fun q => fd (p_rio q)) <$> ps !! p.

(** The peers of [t] are live and have distinct descriptors. *)
Definition connected (ps : gmap loc Peer) (t : list loc) : Prop :=
  NoDup t /\ (forall p, p ∈ t -> is_Some (ps !! p))
  /\ (forall p q, p ∈ t -> q ∈ t -> peer_fd ps p = peer_fd ps q -> p = q).

Lemma connected_cons ps p t : connected ps (p :: t) -> connected ps t.
Proof using Type.
  intros ([_ Hnd]%NoDup_cons & Hl & Hd). split; [done|]. split.
  - intros x Hx. by apply Hl, list_elem_of_further.
  - intros x y Hx Hy. apply Hd; by apply list_elem_of_further.
Qed.

Lemma connected_fd_ne ps p q p' t :
  connected ps (p :: t) -> ps !! p = Some q -> p' ∈ t ->
  peer_fd ps p' <> Some (fd (p_rio q)).
Proof using Type.
  intros ([Hn _]%NoDup_cons & _ & Hd) Hq Hp' E. apply Hn.
  rewrite (Hd p p'); [done|apply list_elem_of_here|by apply list_elem_of_further|].
  rewrite E. unfold peer_fd. by rewrite Hq.
Qed.

(** The descriptor of [p] has received [data] since [e0]; the descriptors of
    no element of [t] have received nothing. *)
Definition received (ps : gmap loc Peer) (t : list loc) (data : bytes) (e0 e : env)
  : Prop :=
  (forall p f, p ∈ t -> peer_fd ps p = Some f ->
     written f (trace e) = written f (trace e0) ++ data)
  /\ (forall f, (forall p, p ∈ t -> peer_fd ps p <> Some f) ->
       written f (trace e) = written f (trace e0)).

(** A loop body that writes [data] to the connection of its element. *)
Definition sends (body : loc -> M world unit) (data : bytes) : Prop :=
  forall p q s n m, peers s !! p = Some q ->
    sends_ready (S n) (length data + m) (io s) ->
    exists e, body p s = (Ret tt, set_io e s)
      /\ written (fd (p_rio q)) (trace e) = written (fd (p_rio q)) (trace (io s)) ++ data
      /\ writes_only (fd (p_rio q)) (io s) e /\ sends_ready n m e.

(** Such a loop: every element gets the data, once, and nothing else is
    written or read. *)
Lemma iter_sends body data n m t : forall s,
  sends body data -> connected (peers s) t ->
  sends_ready (length t + n) (length t * length data + m) (io s) ->
  exists e, iter body t s = (Ret tt, set_io e s)
    /\ received (peers s) t data (io s) e /\ sends_ready n m e
    /\ input e = input (io s) /\ reads e = reads (io s) /\ clocks e = clocks (io s).
Proof using Type.
  induction t as [|p t IH]; intros s Hb Hcon Hrdy; cbn [iter].
  { exists (io s). split; [by destruct s|]. split; [|by split].
    split; [by intros p f ?%elem_of_nil|done]. }
  destruct (proj1 (proj2 Hcon) p (list_elem_of_here _ _)) as [q Hq].
  destruct (Hb p q s (length t + n)%nat (length t * length data + m)%nat Hq)
    as (e1 & Hrun1 & Hin1 & Hwo & Hrdy1).
  { by rewrite Nat.add_assoc. }
  destruct (IH (set_io e1 s)) as (e2 & Hrun & [Hin Hout] & Hrdy2 & Hi & Hr & Hc);
    [done|by eapply connected_cons|done|].
  exists e2. split; [by erewrite bind_ret_l by exact Hrun1|].
  pose proof Hwo as (Hi1 & Hr1 & Hc1 & _).
  split; [|split; [done|cbn [set_io io] in *; by rewrite Hi, Hr, Hc]].
  assert (peer_fd (peers s) p = Some (fd (p_rio q))) as Hfd
    by (unfold peer_fd; by rewrite Hq).
  assert (forall p', p' ∈ t -> peer_fd (peers s) p' <> Some (fd (p_rio q))) as Hot
    by (intros; by eapply connected_fd_ne).
  split.
  - intros p' f [->|Hp']%elem_of_cons Hf.
    + rewrite Hfd in Hf. injection Hf as <-. by rewrite (Hout _ Hot).
    + rewrite (Hin p' f Hp' Hf). cbn [set_io io].
      by rewrite (writes_only_other _ f _ _ Hwo) by (intros <-; by apply (Hot p' Hp')).
  - intros f Hf. rewrite Hout.
    + cbn [set_io io]. apply (writes_only_other _ f _ _ Hwo). intros <-.
      by apply (Hf p (list_elem_of_here _ _)).
    + intros p' Hp'. by apply Hf, list_elem_of_further.
Qed.

Lemma tap_forward_sends packet : packet <> [] -> sends (tap_forward packet) packet.
Proof using Type.
  intros Hne p q s n m Hq Hrdy.
  destruct (rio_send_next n m (fd (p_rio q)) packet (io s) Hrdy) as (e & Hw & Hwr & Hwo & Hr).
  exists e. split; [|done]. unfold tap_forward.
  erewrite bind_ret_l by (by eapply peer_write_run).
  rewrite (proj2 (Z.leb_gt _ _)); [done|]. destruct packet; [done|simpl; lia].
Qed.

(** Every member gets the packet. *)
Lemma iter_tap_forward_delivers packet t s :
  packet <> [] -> connected (peers s) t ->
  writes_ready (length t) (length packet) (io s) ->
  exists e, iter (tap_forward packet) t s = (Ret tt, set_io e s)
    /\ received (peers s) t packet (io s) e.
Proof using Type.
  intros Hne Hcon Hrdy.
  destruct (iter_sends (tap_forward packet) packet 0 0 t s) as (e & Hrun & Hrec & _).
  - by apply tap_forward_sends.
  - done.
  - by rewrite !Nat.add_0_r.
  - by exists e.
Qed.

(** A frame in an empty tap buffer is read whole. *)
Lemma tap_read_frame frame rest k l s :
  cnt (rio_tap s) <= 0 -> calm (io s) -> polls (io s) <> [] ->
  reads (io s) = RdData k :: l ->
  stream (io s) (fd (rio_tap s)) = frame ++ rest -> k = length frame ->
  (0 < length frame <= Z.to_nat RIO_BUFSIZE)%nat ->
  exists e rp, tap_read RIO_BUFSIZE s
      = (Ret (Z.of_nat (length frame), frame), set_rio_tap rp (set_io e s))
    /\ fd rp = fd (rio_tap s) /\ cnt rp = 0 /\ stream e (fd rp) = rest
    /\ calm e /\ setlks e = setlks (io s) /\ writes e = writes (io s)
    /\ trace e = trace (io s) /\ polls (io s) = SysOk :: polls e /\ reads e = l.
Proof using Type.
  intros Hz Hc Hp Hr Hs -> Hlen.
  destruct (Wait_calm (fd (rio_tap s)) (io s) Hc Hp) as (pl & El & Hw & Hc1).
  assert (forall ans rp1 s1, 0 < cnt rp1 ->
    rio_fill ans rp1 s1 = (Ret None, (rp1, s1))) as Hstop.
  { intros [|? ?] rp1 s1 H1; simpl; by rewrite (proj2 (Z.ltb_lt _ _)). }
  unfold tap_read, rio_read. rewrite Hr. cbn [rio_fill].
  rewrite (proj2 (Z.ltb_ge 0 (cnt (rio_tap s)))) by done. rewrite Hw.
  cbn [Z.ltb Z.compare sys_read].
  change (stream (set_reads l (set_errno (errno (io s)) (set_polls pl (io s))))
    (fd (rio_tap s))) with (stream (io s) (fd (rio_tap s))).
  rewrite Hs, Nat.min_l by lia. rewrite take_app_length, drop_app_length.
  cbn [cnt fd buf]. rewrite (proj2 (Z.ltb_ge _ _)) by lia.
  rewrite (proj2 (Z.eqb_neq _ _)) by lia. rewrite Hstop by (cbn [cnt]; lia).
  cbn [cnt bufp buf fd].
  set (c := if _ <? _ then _ else _).
  assert (c = Z.of_nat (length frame)) as -> by (unfold c; case_match; lia).
  rewrite (proj2 (Z.leb_le _ _)) by (rewrite length_app, Nat2Z.inj_add; lia).
  rewrite Z.sub_diag, Nat2Z.id. change (Z.to_nat 0) with 0%nat.
  rewrite drop_0, take_app_length.
  eexists _, _. split; [reflexivity|]. cbn [fd cnt]. split; [done|]. split; [done|].
  split; [rewrite stream_insert; by rewrite decide_True|].
  by repeat (split; [done|]).
Qed.

(** The packet that carries a frame. *)
Definition data_packet (frame : bytes) : bytes :=
  enc c_proxy_header
    (ProxyHeader (htons DATA) (htons (Z.of_nat (length frame)))) ++ frame.

(** The key [tap_handler] looks up: [tapMAC] of the buffer taken as a
    [link_state], which is the end of the destination address and the
    beginning of the source address. *)
Definition unicast_key (frame : bytes) : mac := mac_of_bytes (drop 2 frame).

Definition destination (frame : bytes) : mac := mac_of_bytes frame.

Definition frame_ok (frame : bytes) : Prop :=
  (14 <= length frame)%nat /\ Z.of_nat (length frame) <= ETH_FRAME_LEN.

(** A frame waits on the tap device, whose buffer is empty. *)
Definition frame_waiting (frame rest : bytes) (s : world) : Prop :=
  frame_ok frame /\ cnt (rio_tap s) <= 0
  /\ stream (io s) (fd (rio_tap s)) = frame ++ rest
  /\ exists l, reads (io s) = RdData (length frame) :: l.

Lemma mac_of_bytes_app l1 l2 : (6 <= length l1)%nat -> mac_of_bytes (l1 ++ l2) = mac_of_bytes l1.
Proof using Type.
  intros Hl. do 6 (destruct l1 as [|? l1]; [simpl in Hl; lia|]). reflexivity.
Qed.

Lemma c_proxy_header_length h : length (enc c_proxy_header h) = 4%nat.
Proof using Type. reflexivity. Qed.

(** The part of the buffer that is sent is the packet of the frame. *)
Lemma tap_packet frame junk :
  frame_ok frame ->
  take (Z.to_nat (PROXY_HLEN + ntohs (htons (Z.of_nat (length frame)))))
    (enc c_proxy_header (ProxyHeader (htons DATA) (htons (Z.of_nat (length frame))))
     ++ frame ++ junk) = data_packet frame.
Proof using Type.
  intros [_ Hl]. unfold ETH_FRAME_LEN in Hl. rewrite ntohs_htons by lia.
  rewrite app_assoc. unfold data_packet.
  replace (Z.to_nat (PROXY_HLEN + Z.of_nat (length frame)))
    with (length (enc c_proxy_header (ProxyHeader (htons DATA)
      (htons (Z.of_nat (length frame)))) ++ frame)).
  - apply take_app_length.
  - rewrite length_app, c_proxy_header_length. unfold PROXY_HLEN. lia.
Qed.

(** What [tap_handler] does with a frame it has read. *)
Definition tap_dispatch (frame : bytes) : M world unit :=
  writeBegin ;;;
  (if decide (destination frame = BROADCAST_ADDR)
   then hash_iter (tap_forward (data_packet frame))
   else
     let* pp := (fun s => deref (find_key (peers s) (hash_table s) (unicast_key frame)) s) in
     match pp with
     | Some pp => tap_forward (data_packet frame) pp
     | None => ret tt
     end) ;;;
  writeEnd.

Lemma hash_find_at_key mem off k s :
  load c_mac mem off = Some k ->
  hash_find_at mem off s = deref (find_key (peers s) (hash_table s) k) s.
Proof using Type.
  intros Hk. unfold hash_find_at, bind, gets. rewrite Hk.
  by destruct (hash_table s) eqn:E; [|cbn [deref]; unfold ret, hash_find; rewrite E].
Qed.

Lemma tap_key frame junk h :
  frame_ok frame ->
  load c_mac (enc c_proxy_header h ++ frame ++ junk) tapMAC_offset
    = Some (unicast_key frame).
Proof using Type.
  intros [Hl _]. rewrite load_skip by (rewrite c_proxy_header_length; unfold tapMAC_offset; lia).
  rewrite c_proxy_header_length. rewrite load_total.
  - cbn [c_mac dec tapMAC_offset Nat.sub]. f_equal. rewrite drop_app_le by lia.
    apply mac_of_bytes_app. rewrite length_drop. lia.
  - rewrite length_app. unfold tapMAC_offset. cbn [c_mac sizeof]. unfold ETH_ALEN. lia.
Qed.

Lemma tap_iteration_run frame rest s :
  frame_waiting frame rest s -> calm (io s) -> polls (io s) <> [] ->
  exists e rp, tap_iteration s = tap_dispatch frame (set_rio_tap rp (set_io e s))
    /\ fd rp = fd (rio_tap s) /\ cnt rp = 0 /\ stream e (fd rp) = rest
    /\ calm e /\ setlks e = setlks (io s) /\ writes e = writes (io s)
    /\ trace e = trace (io s) /\ polls (io s) = SysOk :: polls e
    /\ reads e = tail (reads (io s)).
Proof using Type.
  intros (Hok & Hz & Hs & l & Hr) Hc Hp. pose proof Hok as [Hlo Hhi].
  destruct (tap_read_frame frame rest (length frame) l s) as (e & rp & Hrun & Hrest);
    try done.
  { unfold RIO_BUFSIZE, ETH_FRAME_LEN, PROXY_HLEN in *. lia. }
  exists e, rp. split; [|rewrite Hr; exact Hrest]. clear Hrest.
  unfold tap_iteration. erewrite bind_ret_l by exact Hrun. cbv beta iota.
  rewrite (proj2 (Z.leb_gt _ _)) by lia. unfold tap_capacity at 1.
  rewrite (proj2 (Z.ltb_ge _ _)) by lia.
  set (junk := replicate _ Init.Byte.x00). cbv zeta.
  rewrite tap_packet by done.
  set (s1 := set_rio_tap rp (set_io e s)). unfold tap_dispatch.
  apply bind_ext. intros [] s2. apply bind_ext_l.
  change (drop (Z.to_nat PROXY_HLEN) _) with (frame ++ junk).
  rewrite mac_of_bytes_app by lia. fold (destination frame).
  destruct (decide (destination frame = BROADCAST_ADDR)) as [Hb|Hb];
    [by rewrite bool_decide_eq_true_2|rewrite bool_decide_eq_false_2 by done].
  apply bind_ext_l. apply hash_find_at_key. by apply tap_key.
Qed.

(** A write section around a body that is safe. *)
Lemma write_section_safe (body : M world unit) s o s' :
  locks s = lock_init ->
  (forall s1 o1 s2, s1 = set_locks lock_writing s -> body s1 = (o1, s2) ->
     o1 = Starved \/ (o1 = Ret tt /\ world_ok s2 /\ locks s2 = locks s1
       /\ rio_tap s2 = rio_tap s1 /\ (forall x, x ∈ hash_table s2 -> x ∈ hash_table s1))) ->
  (writeBegin ;;; body ;;; writeEnd) s = (o, s') ->
  o = Starved \/ (o = Ret tt /\ world_ok s' /\ locks s' = lock_init
    /\ rio_tap s' = rio_tap s /\ (forall x, x ∈ hash_table s' -> x ∈ hash_table s)).
Proof using Type.
  intros Hl Hbody. erewrite bind_ret_l by (by apply writeBegin_free).
  unfold bind. destruct (body (set_locks lock_writing s)) as [o1 s2] eqn:Hb.
  destruct (Hbody _ _ _ eq_refl Hb) as [->|(-> & Hok & Hlk & Hr & Ht)].
  { intros [= <- <-]. by left. }
  rewrite writeEnd_writing by done. intros [= <- <-]. right.
  by repeat (split; [done|]).
Qed.

Lemma tap_unicast_safe packet buffer k s o s' :
  world_ok s -> load c_mac buffer tapMAC_offset = Some k ->
  (let* pp := hash_find_at buffer tapMAC_offset in
   match pp with Some pp => tap_forward packet pp | None => ret tt end) s = (o, s') ->
  o = Starved \/ (o = Ret tt /\ world_ok s' /\ locks s' = locks s
    /\ rio_tap s' = rio_tap s /\ (forall x, x ∈ hash_table s' -> x ∈ hash_table s)).
Proof using Type.
  intros Hok Hk. destruct (find_key_ok _ _ k Hok) as [(p & Hf & Hp & _)|[Hf _]];
    erewrite bind_ret_l by (by eapply hash_find_at_run).
  - intros Hrun. destruct (tap_forward_safe _ _ _ _ _ Hok Hp Hrun)
      as [->|(-> & ? & ? & ? & ? & _)]; [by left|right].
    by repeat (split; [done|]).
  - intros [= <- <-]. right. by repeat (split; [done|]).
Qed.

(** ** The reader thread *)

Definition offering (l : list read_answer) : Prop :=
  Forall (fun a => exists k, a = RdData (S k)) l.

(** Enough answers of the kernel to read [n] bytes. *)
Definition reads_ready (n : nat) (e : env) : Prop :=
  calm e /\ (n <= length (polls e))%nat /\ (n <= length (reads e))%nat
  /\ offering (reads e).

Lemma peer_read_bytes p q data rest m s :
  peers s !! p = Some q -> rio_wf (p_rio q) -> reads_ready (length data + m) (io s) ->
  unread (p_rio q, io s) = data ++ rest ->
  exists rp e, peer_readnb p (Z.of_nat (length data)) s
      = (Ret (Z.of_nat (length data), data),
         set_peers (<[p := with_rio rp q]> (peers s)) (set_io e s))
    /\ rio_wf rp /\ unread (rp, e) = rest /\ reads_ready m e
    /\ reads_only (p_rio q, io s) (rp, e).
Proof using Type.
  intros Hq Hwf (Hc & Hp & Hr & Ha) Hu.
  destruct (rio_readnb_completes (Z.of_nat (length data)) (p_rio q) (io s))
    as ([rp e] & Hrun & Hun & Hc' & Hwf' & Hro & Hpl & Hrl & Hfa);
    [done|done|lia|lia|lia|done|rewrite Hu, length_app; lia|].
  cbn [fst snd] in *. rewrite Hu, Nat2Z.id in *.
  rewrite take_app_length in Hrun. rewrite drop_app_length in Hun.
  exists rp, e. split; [|split; [done|split; [done|split; [|done]]]].
  - unfold peer_readnb, bind at 1. rewrite (peer_live _ _ _ Hq). by rewrite Hrun.
  - split; [done|]. split; [lia|]. split; [lia|done].
Qed.

Lemma testcancel_pass s : self s ∉ cancelled s -> pthread_testcancel s = (Ret tt, s).
Proof using Type. intros Hn. unfold pthread_testcancel. by rewrite bool_decide_eq_false_2. Qed.

(** A packet of type [ty] waits in front of the connection of [p]. *)
Definition packet_bytes (ty : Z) (data : bytes) : bytes :=
  enc c_proxy_header (ProxyHeader (htons ty) (htons (Z.of_nat (length data)))) ++ data.

Lemma data_packet_bytes frame : data_packet frame = packet_bytes DATA frame.
Proof using Type. done. Qed.

(** The two reads of an iteration: what remains is the dispatch, or, for an
    empty payload, the end of the connection. *)
Definition eth_body (LS : bytes -> M world Z) (padding : bytes) (ty : Z) (data : bytes)
    (p : loc) : M world bytes :=
  if decide (data = []) then
    remove_member (Some p) ;;; pthread_testcancel ;;; fail Undefined
  else
    let* v := dispatch LS padding ty data p in
    if match v with None => true | Some v => v <? 0 end then
      remove_member (Some p) ;;; pthread_testcancel ;;; fail Undefined
    else
      pthread_testcancel ;;;
      ret (enc c_proxy_header (ProxyHeader ty (Z.of_nat (length data)))).

Lemma eth_iteration_run LS padding junk p q mem ty data rest m s :
  peers s !! p = Some q -> rio_wf (p_rio q) -> self s ∉ cancelled s ->
  0 <= ty < 2 ^ 16 -> Z.of_nat (length data) < 2 ^ 16 ->
  reads_ready (4 + length data + m) (io s) ->
  unread (p_rio q, io s) = packet_bytes ty data ++ rest ->
  exists rp e, eth_iteration LS padding junk p mem s
      = eth_body LS padding ty data p
          (set_peers (<[p := with_rio rp q]> (peers s)) (set_io e s))
    /\ rio_wf rp /\ unread (rp, e) = rest /\ reads_ready m e
    /\ reads_only (p_rio q, io s) (rp, e).
Proof using Type.
  intros Hq Hwf Hself Hty Hlen Hrdy Hu.
  set (h := ProxyHeader (htons ty) (htons (Z.of_nat (length data)))).
  destruct (peer_read_bytes p q (enc c_proxy_header h) (data ++ rest)
    (length data + m) s) as (rp1 & e1 & Hr1 & Hwf1 & Hu1 & Hrdy1 & Hro1); try done.
  set (s1 := set_peers (<[p := with_rio rp1 q]> (peers s)) (set_io e1 s)) in *.
  destruct (peer_read_bytes p (with_rio rp1 q) data rest m s1)
    as (rp2 & e2 & Hr2 & Hwf2 & Hu2 & Hrdy2 & Hro2); try done.
  { apply lookup_insert_eq. }
  exists rp2, e2. split; [|split; [done|split; [done|split; [done|]]]].
  2: { etransitivity; [exact Hro1|exact Hro2]. }
  rewrite c_proxy_header_length in Hr1.
  unfold eth_iteration. change PROXY_HLEN with (Z.of_nat 4).
  erewrite bind_ret_l by exact Hr1. cbv beta iota zeta.
  change (Z.of_nat 4 <=? 0) with false. cbv iota. unfold bind at 1, ret at 1.
  erewrite bind_ret_l by (by apply testcancel_pass).
  assert (dec c_proxy_header (overlay (enc c_proxy_header h) mem) = h) as ->.
  { unfold overlay. apply dec_enc. split; apply htons_wf. }
  cbn [h hdr_type hdr_length]. rewrite !ntohs_htons by (done || lia).
  erewrite bind_ret_l by exact Hr2. cbv beta iota. rewrite Nat2Z.id.
  cbn [s1 set_peers set_io peers]. rewrite insert_insert_eq. cbn [with_rio].
  unfold eth_body. destruct (decide (data = [])) as [->|Hne]; [done|].
  rewrite (proj2 (Z.leb_gt _ _)) by (destruct data; [done|simpl; lia]).
  unfold overlay. by rewrite take_app_length.
Qed.

(** Ending a connection from its own reader thread. *)
Lemma reader_ends p q s :
  world_ok s -> locks s = lock_init -> p ∈ hash_table s -> peers s !! p = Some q ->
  p_tid q = self s ->
  (remove_member (Some p) ;;; pthread_testcancel ;;; (fail Undefined : M world bytes)) s
    = (Cancelled, forget p q (filter (fun x => x <> p) (hash_table s)) s).
Proof using Type.
  intros Hok Hl Hin Hq Ht. erewrite bind_ret_l by (by apply remove_member_member).
  unfold bind, pthread_testcancel. rewrite bool_decide_eq_true_2; [done|].
  cbn [forget self cancelled]. rewrite Ht. apply list_elem_of_here.
Qed.

(** ** Leaving *)

Definition leave_one (lvpkt : bytes) (pp : loc) : M world unit :=
  let* q := peer pp in
  pthread_cancel (p_timeout_tid q) ;;;
  peer_write pp lvpkt ;;;
  hash_del pp ;;;
  close_peer pp ;;;
  pthread_cancel (p_tid q) ;;;
  free_peer pp.

Lemma filter_head p (t : list loc) :
  NoDup (p :: t) -> filter (fun x => x <> p) (p :: t) = t.
Proof using Type.
  intros [Hn _]%NoDup_cons. rewrite filter_cons_False by (intros Hp; by apply Hp).
  induction t as [|x t IH]; [done|]. apply not_elem_of_cons in Hn as [Hx Hn].
  rewrite filter_cons_True by congruence. f_equal. by apply IH.
Qed.

Lemma leave_one_run lvpkt n p q t s :
  peers s !! p = Some q -> hash_table s = p :: t -> NoDup (p :: t) ->
  writes_ready (S n) (length lvpkt) (io s) ->
  exists s', leave_one lvpkt p s = (Ret tt, s')
    /\ hash_table s' = t /\ peers s' = delete p (peers s)
    /\ writes_ready n (length lvpkt) (io s')
    /\ written (fd (p_rio q)) (trace (io s'))
       = written (fd (p_rio q)) (trace (io s)) ++ lvpkt
    /\ (forall f, f <> fd (p_rio q) ->
         written f (trace (io s')) = written f (trace (io s))).
Proof using Type.
  intros Hq Ht Hnd Hrdy. unfold leave_one.
  erewrite bind_ret_l by (by apply peer_live).
  unfold pthread_cancel at 1, in_io at 1, zoom, emit, modify, bind at 1 2.
  cbn [io set_io set_cancelled].
  destruct (rio_write_next n (fd (p_rio q)) lvpkt
    (log (EvCancel (p_timeout_tid q)) (io s)) Hrdy) as (e & Hw & Hwr & Hwo & Hrdy').
  erewrite bind_ret_l by (by eapply peer_write_run).
  erewrite bind_ret_l by (apply hash_del_member; [by exists q|];
    cbn [set_io set_cancelled hash_table]; rewrite Ht; apply list_elem_of_here).
  unfold close_peer, bind at 1 2. rewrite (peer_live p q) by done.
  unfold in_io at 1, zoom, emit, modify. cbn [set_io].
  unfold pthread_cancel, bind at 1 2, in_io at 1, zoom, emit, modify.
  unfold free_peer, bind at 1. rewrite (peer_live p q) by done.
  eexists. split; [reflexivity|]. cbn [hash_table set_hash_table set_io set_cancelled].
  rewrite Ht, filter_head by done. split; [done|]. split; [done|]. split; [done|].
  assert (forall f, written f (trace e ++ [EvClose (fd (p_rio q))]
    ++ [EvCancel (p_tid q)] ++ [EvFree p]) = written f (trace e)) as E.
  { intros f. rewrite written_app. apply app_nil_r. }
  cbn [io set_io set_peers set_cancelled set_hash_table log trace]. rewrite <- !app_assoc. split.
  - rewrite E, Hwr. cbn [log trace]. rewrite written_app. by rewrite app_nil_r.
  - intros f Hf. rewrite E, (writes_only_other _ f _ _ Hwo) by congruence.
    cbn [log trace]. rewrite written_app. apply app_nil_r.
Qed.

Lemma iter_leave_one lvpkt t s :
  hash_table s = t -> connected (peers s) t ->
  writes_ready (length t) (length lvpkt) (io s) ->
  exists s', iter (leave_one lvpkt) t s = (Ret tt, s')
    /\ hash_table s' = [] /\ (forall p, p ∈ t -> peers s' !! p = None)
    /\ (forall p, p ∉ t -> peers s' !! p = peers s !! p)
    /\ received (peers s) t lvpkt (io s) (io s').
Proof using Type.
  revert s. induction t as [|p t IH]; intros s Ht Hcon Hrdy; cbn [iter].
  { exists s. split; [done|]. split; [done|]. split; [by intros p ?%elem_of_nil|].
    split; [done|]. split; [by intros p f ?%elem_of_nil|done]. }
  destruct (proj1 (proj2 Hcon) p (list_elem_of_here _ _)) as [q Hq].
  destruct (leave_one_run lvpkt (length t) p q t s Hq Ht (proj1 Hcon) Hrdy)
    as (s1 & E1 & Ht1 & Hp1 & Hrdy1 & Hin1 & Hout1).
  assert (p ∉ t) as Hnp by (by destruct Hcon as [[? _]%NoDup_cons _]).
  assert (forall x, x ∈ t -> peers s1 !! x = peers s !! x) as Hsame.
  { intros x Hx. rewrite Hp1, lookup_delete_ne; [done|]. by intros ->. }
  assert (forall x, x ∈ t -> peer_fd (peers s1) x = peer_fd (peers s) x) as Hfds.
  { intros x Hx. unfold peer_fd. by rewrite Hsame. }
  destruct (IH s1 Ht1) as (s2 & E2 & Ht2 & Hgone & Hkept & Hin2 & Hout2); [|done|].
  { apply connected_cons in Hcon as (Hnd & Hl & Hd). split; [done|]. split.
    - intros x Hx. rewrite Hsame by done. by apply Hl.
    - intros x y Hx Hy. rewrite !Hfds by done. by apply Hd. }
  exists s2. split; [by erewrite bind_ret_l by exact E1|]. split; [done|].
  assert (peer_fd (peers s) p = Some (fd (p_rio q))) as Hfd
    by (unfold peer_fd; by rewrite Hq).
  assert (forall x, x ∈ t -> peer_fd (peers s) x <> Some (fd (p_rio q))) as Hot
    by (intros; by eapply connected_fd_ne).
  split; [|split; [|split]].
  - intros x [->|Hx]%elem_of_cons; [|by apply Hgone].
    rewrite Hkept by done. rewrite Hp1. apply lookup_delete_eq.
  - intros x [Hne Hx]%not_elem_of_cons. rewrite Hkept by done.
    by rewrite Hp1, lookup_delete_ne.
  - intros x f [->|Hx]%elem_of_cons Hf.
    + rewrite Hfd in Hf. injection Hf as <-. rewrite Hout2; [done|].
      intros y Hy. rewrite Hfds by done. by apply Hot.
    + rewrite (Hin2 x f Hx) by (by rewrite Hfds). rewrite Hout1; [done|].
      intros ->. by apply (Hot x Hx).
  - intros f Hf. rewrite Hout2.
    + apply Hout1. intros ->. by apply (Hf p (list_elem_of_here _ _)).
    + intros x Hx. rewrite Hfds by done. by apply Hf, list_elem_of_further.
Qed.

(** ** Time *)

Definition ns (t : timespec) : Z := tv_sec t * 1000000000 + tv_nsec t.

(** A time of day that fits both data models. *)
Definition time_ok (t : timespec) : Prop :=
  0 <= tv_sec t < 2 ^ 31 - 1 /\ 0 <= tv_nsec t < 1000000000.

Lemma to_long_small z : - 2 ^ 31 <= z < 2 ^ 31 -> to_long z = z.
Proof using Type.
  intros Hz. apply swrap_small; [apply long_bits_pos|].
  unfold long_bits, long_size. destruct abi; cbn; lia.
Qed.

(** The differences of two times of day, then the corrections, are in range. *)
Ltac small_time now last :=
  unfold time_ok in *;
  rewrite (to_long_small (tv_sec now - tv_sec last)) by lia;
  rewrite (to_long_small (tv_nsec now - tv_nsec last)) by lia;
  destruct (Z.ltb_spec (tv_nsec now - tv_nsec last) 0);
  rewrite ?to_long_small by lia.

Lemma link_elapsed_ok now last :
  time_ok now -> time_ok last ->
  ns (link_elapsed now last) = ns now - ns last
  /\ 0 <= tv_nsec (link_elapsed now last) < 1000000000
  /\ - 2 ^ 31 <= tv_sec (link_elapsed now last) < 2 ^ 31.
Proof using Type.
  intros H1 H2. unfold link_elapsed. small_time now last;
    unfold ns; cbn [tv_sec tv_nsec]; lia.
Qed.

(** The loop of the timer: some waits that time out and find the link alive,
    given by the timestamp found and the time of the check, and a last one. *)
Definition alive (timeout : Z) (round : timespec * timespec) : Prop :=
  expired timeout round.2 round.1 = false.

Definition timer_script (rounds : list (timespec * timespec)) (v : Z)
    (last now : timespec) (e : env) : Prop :=
  (exists w, waits e = map (fun x => (110, x.1)) rounds ++ (v, last) :: w)
  /\ (exists c, clocks e = map snd rounds ++ (if 0 <? v then now :: c else c)).

Lemma timeout_loop_run fuel rounds v last now ts p q s :
  (length rounds < fuel)%nat -> peers s !! p = Some q -> self s ∉ cancelled s ->
  timer_script rounds v last now (io s) ->
  Forall (alive (link_timeout (config s))) rounds ->
  v <= 0 \/ expired (link_timeout (config s)) now last = true ->
  exists e, timeout_loop fuel ts p s
      = (Ret tt, set_io e (set_peers (<[p := with_timestamp last q]> (peers s)) s))
    /\ trace e = trace (io s)
         ++ map EvWait (ts :: map (fun x => deadline (link_timeout (config s)) x.1) rounds).
Proof using Type.
  revert rounds ts q s. induction fuel as [|fuel IH];
    intros rounds ts q s Hfuel Hq Hself ([w Hw] & [c Hc]) Hal Hend; [lia|].
  cbn [timeout_loop]. unfold in_io at 1, zoom, sys_timedwait, bind at 1. rewrite Hw.
  destruct rounds as [|[t1 n1] rounds]; cbn [map app fst snd] in *.
  - erewrite bind_ret_l by (by apply peer_live).
    unfold bind at 1, set_peer, modify. destruct (Z.ltb_spec 0 v) as [Hv|Hv].
    + erewrite bind_ret_l by (by apply testcancel_pass).
      unfold in_io at 1, zoom, clock_gettime, bind at 1.
      cbn [set_io set_peers io set_waits log clocks]. rewrite Hc. cbn [set_io].
      erewrite bind_ret_l by (apply peer_live; cbn [peers set_io set_peers];
        apply lookup_insert_eq).
      unfold bind at 1, gets. cbn [with_timestamp p_timestamp set_io set_peers config].
      destruct Hend as [|E]; [lia|]. rewrite E. unfold ret.
      eexists. split; [reflexivity|done].
    + eexists. split; [reflexivity|done].
  - erewrite bind_ret_l by (by apply peer_live).
    unfold bind at 1, set_peer, modify. change (0 <? 110) with true. cbv iota.
    erewrite bind_ret_l by (by apply testcancel_pass).
    unfold in_io at 1, zoom, clock_gettime, bind at 1.
    cbn [set_io set_peers io set_waits log clocks]. rewrite Hc. cbn [set_io].
    erewrite bind_ret_l by (apply peer_live; cbn [peers set_io set_peers];
      apply lookup_insert_eq).
    unfold bind at 1, gets. cbn [with_timestamp p_timestamp set_io set_peers config].
    apply Forall_cons in Hal as [Ha Hal]. unfold alive in Ha; cbn [fst snd] in Ha.
    rewrite Ha. set (s1 := set_io _ _).
    destruct (IH rounds (deadline (link_timeout (config s)) t1) (with_timestamp t1 q) s1)
      as (e & Hrun & Htr); [simpl in Hfuel; lia|apply lookup_insert_eq|done| |done|done|].
    { split; [by exists w|by exists c]. }
    exists e. unfold set_peer, modify in Hrun. rewrite Hrun. split.
    + cbn [s1 set_io set_peers peers]. by rewrite insert_insert_eq.
    + rewrite Htr. cbn [s1 set_io io set_clocks trace log set_waits config].
      by rewrite <- app_assoc.
Qed.

(** Waits that all find the link alive, and one that goes on. *)
Lemma timeout_loop_waits rounds : forall fuel ts p q s,
  (length rounds < fuel)%nat -> peers s !! p = Some q -> self s ∉ cancelled s ->
  waits (io s) = map (fun x => (110, x.1)) rounds ->
  (exists c, clocks (io s) = map snd rounds ++ c) ->
  Forall (alive (link_timeout (config s))) rounds ->
  exists e q', timeout_loop fuel ts p s = (Starved, set_io e (set_peers (<[p := q']> (peers s)) s))
    /\ p_ls q' = p_ls q
    /\ trace e = trace (io s)
         ++ map EvWait (ts :: map (fun x => deadline (link_timeout (config s)) x.1) rounds).
Proof using Type.
  induction rounds as [|[t1 n1] rounds IH]; intros fuel ts p q s Hfuel Hq Hself Hw [c Hc] Hal;
    (destruct fuel as [|fuel]; [cbn in Hfuel; lia|]); cbn [map app fst snd] in *;
    cbn [timeout_loop]; unfold in_io at 1, zoom, sys_timedwait, bind at 1; rewrite Hw.
  - exists (log (EvWait ts) (io s)), q. split; [|done]. rewrite insert_id by done. by destruct s.
  - apply Forall_cons in Hal as [Ha Hal]. unfold alive in Ha; cbn [fst snd] in Ha.
    erewrite bind_ret_l by (by apply peer_live).
    unfold bind at 1, set_peer, modify. change (0 <? 110) with true. cbv iota.
    erewrite bind_ret_l by (by apply testcancel_pass).
    unfold in_io at 1, zoom, clock_gettime, bind at 1.
    cbn [set_io set_peers io set_waits log clocks]. rewrite Hc. cbn [set_io].
    erewrite bind_ret_l by (apply peer_live; cbn [peers set_io set_peers];
      apply lookup_insert_eq).
    unfold bind at 1, gets. cbn [with_timestamp p_timestamp set_io set_peers config].
    rewrite Ha. set (s1 := set_io _ _).
    destruct (IH fuel (deadline (link_timeout (config s)) t1) p (with_timestamp t1 q) s1)
      as (e & q' & Hrun & Hls & Htr);
      [simpl in Hfuel; lia|apply lookup_insert_eq|done|done|by exists c|done|].
    exists e, q'. unfold set_peer, modify in Hrun. rewrite Hrun. split; [|split; [done|]].
    + cbn [s1 set_io set_peers peers]. by rewrite insert_insert_eq.
    + rewrite Htr. cbn [s1 set_io io set_clocks trace log set_waits config].
      by rewrite <- app_assoc.
Qed.

(** The memory of a time is reproduced by reading and writing it. *)
Lemma c_long_enc_dec l :
  length l = long_size -> le_split long_size (to_long (le_combine l)) = l.
Proof using Type.
  intros Hl. rewrite <- (split_le_combine' l long_size Hl) at 2.
  rewrite le_split_mod, (le_split_mod (le_combine l)). f_equal.
  unfold to_long, swrap, long_bits.
  replace (Z.of_nat long_size * 8) with (8 * Z.of_nat long_size) by lia.
  set (h := 2 ^ (_ - 1)). rewrite Zminus_mod_idemp_l. f_equal. lia.
Qed.

Lemma c_timespec_enc_dec l :
  length l = sizeof c_timespec -> enc c_timespec (dec c_timespec l) = l.
Proof using Type.
  cbn [c_timespec c_struct c_pair c_long sizeof enc dec fst snd tv_sec tv_nsec].
  intros Hl. rewrite !c_long_enc_dec
    by (rewrite length_take, ?length_drop; lia).
  rewrite (take_ge (drop _ _)) by (rewrite length_drop; lia). apply take_drop.
Qed.

(** The end of [timeout_handler], after its loop. *)
Lemma timer_ends p q s :
  locks s = lock_init -> peers s !! p = Some q -> p ∈ hash_table s -> self s ∉ cancelled s ->
  (pthread_testcancel ;;;
   writeBegin ;;;
   hash_del p ;;;
   close_peer p ;;;
   let* q := peer p in
   pthread_cancel (p_tid q) ;;;
   free_peer p ;;;
   writeEnd) s =
  (Ret tt,
   World (log (EvFree p) (log (EvCancel (p_tid q)) (log (EvClose (fd (p_rio q))) (io s))))
     lock_init (filter (fun x => x <> p) (hash_table s)) (delete p (peers s)) (linkState s)
     (timestamp s) (config s) (rio_tap s) (tap_tid s) (next_tid s) (p_tid q :: cancelled s)
     (self s)).
Proof using Type.
  intros Hl Hq Hin Hself.
  erewrite bind_ret_l by (by apply testcancel_pass).
  erewrite bind_ret_l by (by apply writeBegin_free).
  erewrite bind_ret_l by (apply hash_del_member; [by exists q|done]).
  erewrite bind_ret_l by (by apply (close_peer_run p q)).
  erewrite bind_ret_l by (by apply (peer_live p q)).
  erewrite bind_ret_l by apply pthread_cancel_run.
  erewrite bind_ret_l by (by apply (free_peer_run p q)).
  by rewrite writeEnd_writing.
Qed.

(** ** Properties *)

(** C12: The tap thread is safe.  Whatever the kernel answers, one pass of
    [tap_handler] that returns leaves a well-formed table, whose members were
    members before, and a free lock; it exits with [-1] when the device cannot
    be read, never blocks on the lock, and runs into undefined behaviour only
    if more than [ETH_FRAME_LEN] bytes are waiting in front of it. *)
Theorem tap_iteration_safe s o s' :
  world_ok s -> locks s = lock_init -> rio_wf (rio_tap s) ->
  tap_iteration s = (o, s') ->
  match o with
  | Ret _ => world_ok s' /\ locks s' = lock_init /\ rio_wf (rio_tap s')
             /\ (forall x, x ∈ hash_table s' -> x ∈ hash_table s)
  | Exit c => c = -1
  | Starved => True
  | Undefined => ETH_FRAME_LEN < Z.of_nat (length (unread (rio_tap s, io s)))
  | Blocked | Cancelled => False
  end.
Proof using Type.
  intros Hok Hl Hwf. unfold tap_iteration, bind at 1.
  destruct (tap_read (PROXY_HLEN + ETH_FRAME_LEN) s) as [o1 s1] eqn:Hr.
  destruct (tap_read_outcome _ _ _ _ Hwf (eq_refl : 0 < PROXY_HLEN + ETH_FRAME_LEN) Hr)
    as ((e & rp & -> & Hwf1 & _) & [->|(v & got & -> & Hle & Hv)]).
  { by intros [= <- <-]. }
  destruct (Z.leb_spec v 0); [by intros [= <- <-]|].
  destruct (Z.ltb_spec tap_capacity (Z.of_nat (length got))) as [Hbig|Hfit].
  { intros [= <- <-]. unfold tap_capacity in Hbig. lia. }
  set (buffer := enc c_proxy_header _ ++ got ++ _). cbv zeta. intros Hrun.
  assert (exists k, load c_mac buffer tapMAC_offset = Some k) as [k Hk].
  { eexists. apply load_total. unfold buffer.
    rewrite !length_app, c_proxy_header_length, length_replicate.
    unfold tapMAC_offset, tap_capacity, ETH_FRAME_LEN in *.
    cbn [c_mac sizeof]. unfold ETH_ALEN. lia. }
  apply write_section_safe in Hrun as [->|(-> & Hok' & Hl' & Hr' & Ht')]; [done| |done|].
  { split; [done|]. split; [done|]. split; [by rewrite Hr'|done]. }
  intros s2 o2 s3 -> Hb. destruct (bool_decide _) in Hb.
  - apply iter_tap_forward_safe in Hb; [done|done|apply Hok|done].
  - by eapply tap_unicast_safe.
Qed.

(** A broadcast frame reaches every member.  A frame for the broadcast
    address read from the tap device is sent, with the header of a data packet
    in front of it, exactly once to every member and to nobody else, however
    the kernel splits the writes; the next frame stays unread. *)
Theorem tap_broadcast_delivers frame rest s :
  locks s = lock_init -> frame_waiting frame rest s ->
  destination frame = BROADCAST_ADDR -> connected (peers s) (hash_table s) ->
  polls (io s) <> [] ->
  writes_ready (length (hash_table s)) (length (data_packet frame))
    (set_polls (tail (polls (io s))) (io s)) -> calm (io s) ->
  exists s', tap_iteration s = (Ret tt, s')
    /\ received (peers s) (hash_table s) (data_packet frame) (io s) (io s')
    /\ hash_table s' = hash_table s /\ peers s' = peers s /\ locks s' = lock_init.
Proof using Type.
  intros Hl Hfr Hb Hcon Hp (_ & Hk & Hpl & Hw & Ha) Hc.
  destruct (tap_iteration_run frame rest s Hfr Hc Hp)
    as (e & rp & -> & _ & _ & _ & Hc1 & Hk1 & Hw1 & Ht1 & Hp1 & _).
  set (s1 := set_locks lock_writing (set_rio_tap rp (set_io e s))).
  destruct (iter_tap_forward_delivers (data_packet frame) (hash_table s) s1)
    as (e2 & Hrun & Hin & Hout); [done|done| |].
  { split; [done|]. change (io s1) with e. rewrite Hp1 in Hpl. by rewrite Hk1, Hw1. }
  exists (set_locks lock_init (set_io e2 s1)). split; [|split; [|done]].
  - unfold tap_dispatch. erewrite bind_ret_l by (by apply writeBegin_free).
    fold s1. rewrite decide_True by done. unfold hash_iter, gets, bind at 1 2.
    change (hash_table s1) with (hash_table s). rewrite Hrun.
    by rewrite writeEnd_writing.
  - change (io (set_locks lock_init (set_io e2 s1))) with e2.
    split; [intros p f Hp' Hf|intros f Hf].
    + rewrite (Hin p f Hp' Hf). change (io s1) with e. by rewrite Ht1.
    + rewrite (Hout f Hf). change (io s1) with e. by rewrite Ht1.
Qed.

(** A unicast frame is looked up under the wrong key.  The key is not the
    destination of the frame but its last four bytes followed by the first two
    of the source: the frame goes to the member with that address, if any, and
    otherwise it is dropped, even when its destination is a member. *)
Theorem tap_unicast_key frame rest s :
  world_ok s -> locks s = lock_init -> frame_waiting frame rest s ->
  destination frame <> BROADCAST_ADDR -> calm (io s) ->
  writes_ready 1 (length (data_packet frame))
    (set_polls (tail (polls (io s))) (io s)) ->
  exists s', tap_iteration s = (Ret tt, s') /\ locks s' = lock_init
    /\ hash_table s' = hash_table s /\ peers s' = peers s
    /\ match find_key (peers s) (hash_table s) (unicast_key frame) with
       | Some (Some p) => received (peers s) [p] (data_packet frame) (io s) (io s')
       | _ => trace (io s') = trace (io s)
       end.
Proof using Type.
  intros Hok Hl Hfr Hb Hc (_ & Hk & Hpl & Hw & Ha).
  assert (polls (io s) <> []) as Hp.
  { intros E. rewrite E in Hpl. cbn [set_polls polls tail] in Hpl. simpl length in Hpl at 2.
    unfold data_packet in Hpl. rewrite length_app, c_proxy_header_length in Hpl. lia. }
  destruct (tap_iteration_run frame rest s Hfr Hc Hp)
    as (e & rp & -> & _ & _ & _ & Hc1 & Hk1 & Hw1 & Ht1 & Hp1 & _).
  set (s1 := set_locks lock_writing (set_rio_tap rp (set_io e s))).
  unfold tap_dispatch. erewrite bind_ret_l by (by apply writeBegin_free).
  fold s1. rewrite decide_False by done. unfold bind at 1 2.
  change (peers s1) with (peers s). change (hash_table s1) with (hash_table s).
  destruct (find_key_ok _ _ (unicast_key frame) Hok) as [(p & -> & Hin & _)|[-> _]];
    cbn [deref]; unfold ret.
  - destruct (iter_tap_forward_delivers (data_packet frame) [p] s1)
      as (e2 & Hrun & Hrec & Hout); [done| | |].
    { split; [apply NoDup_singleton|]. split.
      - intros x ->%list_elem_of_singleton. by apply Hok.
      - by intros x y ->%list_elem_of_singleton ->%list_elem_of_singleton. }
    { split; [done|]. change (io s1) with e. rewrite Hp1 in Hpl. by rewrite Hk1, Hw1. }
    cbn [iter] in Hrun. apply bind_Ret_inv in Hrun as ([] & s2 & -> & [= ->]).
    rewrite writeEnd_writing by done. eexists. split; [reflexivity|].
    split; [done|]. split; [done|]. split; [done|].
    change (io (set_locks lock_init (set_io e2 s1))) with e2.
    change (io s1) with e in Hrec, Hout. change (peers s1) with (peers s) in Hrec, Hout.
    split; [intros x f Hx Hf|intros f Hf].
    + rewrite (Hrec x f Hx Hf). by rewrite Ht1.
    + rewrite (Hout f Hf). by rewrite Ht1.
  - rewrite writeEnd_writing by done. eexists. by repeat (split; [done|]).
Qed.

(** The reader thread delivers data.  When a data packet is next on the
    connection of a peer, one pass of [eth_handler] takes exactly that packet
    off the connection and writes exactly its payload to the tap device,
    however the kernel splits the reads and the writes; the table, the lock and
    the other peers are left alone. *)
Theorem eth_delivers_data LS padding junk p q mem frame rest s :
  peers s !! p = Some q -> rio_wf (p_rio q) -> self s ∉ cancelled s ->
  frame <> [] -> Z.of_nat (length frame) < 2 ^ 16 ->
  reads_ready (4 + length frame + length frame) (io s) ->
  (2 <= length (setlks (io s)))%nat -> (length frame <= length (writes (io s)))%nat ->
  accepting (writes (io s)) ->
  unread (p_rio q, io s) = data_packet frame ++ rest ->
  exists s' rp, eth_iteration LS padding junk p mem s
      = (Ret (enc c_proxy_header (ProxyHeader DATA (Z.of_nat (length frame)))), s')
    /\ peers s' = <[p := with_rio rp q]> (peers s) /\ rio_wf rp
    /\ unread (rp, io s') = rest
    /\ written (fd (rio_tap s)) (trace (io s'))
       = written (fd (rio_tap s)) (trace (io s)) ++ frame
    /\ (forall f, f <> fd (rio_tap s) ->
         written f (trace (io s')) = written f (trace (io s)))
    /\ hash_table s' = hash_table s /\ locks s' = locks s.
Proof using Type.
  intros Hq Hwf Hself Hne Hlen Hrdy Hk Hw Ha Hu.
  destruct (eth_iteration_run LS padding junk p q mem DATA frame rest (length frame) s)
    as (rp & e & -> & Hwf' & Hu' & (Hc & Hp & _) & (_ & Htr & Hlk & Hws & _)); try done.
  cbn [fst snd] in *. set (s1 := set_peers _ _).
  destruct (rio_write_completes (fd (rio_tap s)) frame e)
    as (e2 & Hrun & Hwr & _ & Hwo & _).
  { split; [done|]. rewrite Hlk, Hws. split; [lia|]. split; [lia|]. split; [lia|done]. }
  exists (set_io e2 s1), rp. split; [|split; [done|split; [done|split; [|split; [|split]]]]].
  - unfold eth_body. rewrite decide_False by done. erewrite bind_ret_l.
    2: { unfold dispatch. rewrite Z.eqb_refl. erewrite bind_ret_l; [reflexivity|].
         unfold Data, gets, bind at 1. change (fd (rio_tap s1)) with (fd (rio_tap s)).
         erewrite bind_ret_l.
         2: { unfold in_io, zoom. change (io s1) with e. rewrite Hrun. reflexivity. }
         rewrite (proj2 (Z.leb_gt _ _)) by (destruct frame; [done|simpl; lia]).
         reflexivity. }
    cbv beta iota. change (0 <? 0) with false. cbv iota.
    by erewrite bind_ret_l by (by apply testcancel_pass).
  - rewrite <- Hu'. unfold unread. cbn [fst snd]. f_equal.
    apply stream_input, Hwo.
  - change (io (set_io e2 s1)) with e2. by rewrite Hwr, Htr.
  - intros f Hf. change (io (set_io e2 s1)) with e2.
    rewrite (writes_only_other _ f _ _ Hwo) by congruence. by rewrite Htr.
  - done.
Qed.

(** The types [eth_handler] has a case for. *)
Definition known_types : list Z :=
  [DATA; LEAVE; QUIT; LINK_STATE; RTT_PROBE_REQUEST; RTT_PROBE_RESPONSE;
   PROXY_PUBLIC_KEY; SIGNED_DATA; PROXY_SECRET_KEY; ENCRYPTED_DATA;
   ENCRYPTED_LINK_STATE; SIGNED_LINK_STATE; BANDWIDTH_PROBE_REQUEST;
   BANDWIDTH_PROBE_RESPONSE].

Lemma dispatch_unknown LS padding ty data p s :
  ty ∉ known_types -> dispatch LS padding ty data p s = (Ret None, s).
Proof using Type.
  intros Hn. unfold dispatch.
  assert (forall k, k ∈ known_types -> (ty =? k) = false) as E.
  { intros k Hk. apply Z.eqb_neq. by intros ->. }
  rewrite !E by (apply list_elem_of_In; simpl; tauto). reflexivity.
Qed.

(** C34: A bad packet ends the connection.  When a packet of an unknown type, or
    a packet with an empty payload, is next on the connection of a member, one
    pass of its reader thread removes the member, keeps the table well-formed
    and the lock free, and the thread is cancelled. *)
Theorem eth_bad_packet LS padding junk p q mem ty data rest s :
  world_ok s -> locks s = lock_init -> p ∈ hash_table s -> peers s !! p = Some q ->
  rio_wf (p_rio q) -> self s ∉ cancelled s -> p_tid q = self s ->
  0 <= ty < 2 ^ 16 -> Z.of_nat (length data) < 2 ^ 16 ->
  reads_ready (4 + length data) (io s) ->
  unread (p_rio q, io s) = packet_bytes ty data ++ rest ->
  ty ∉ known_types \/ data = [] ->
  exists s', eth_iteration LS padding junk p mem s = (Cancelled, s')
    /\ world_ok s' /\ locks s' = lock_init
    /\ (forall x, x ∈ hash_table s' <-> x ∈ hash_table s /\ x <> p)
    /\ peers s' = delete p (peers s).
Proof using Type.
  intros Hok Hl Hin Hq Hwf Hself Htid Hty Hlen Hrdy Hu Hbad.
  destruct (eth_iteration_run LS padding junk p q mem ty data rest 0 s)
    as (rp & e & -> & _); try done; [by rewrite Nat.add_0_r|].
  set (s1 := set_peers _ _).
  assert (world_ok s1) as Hok1.
  { eapply table_ok_mono; [|exact Hok]. intros x Hx.
    cbn [s1 set_peers set_io peers]. unfold peer_mac. destruct (decide (x = p)) as [->|Hn].
    - rewrite lookup_insert_eq, Hq. by split.
    - rewrite lookup_insert_ne by done. split; [done|]. by apply (proj1 (proj2 Hok)). }
  assert (peers s1 !! p = Some (with_rio rp q)) as Hq1 by apply lookup_insert_eq.
  exists (forget p (with_rio rp q) (filter (fun x => x <> p) (hash_table s)) s1).
  split; [|split; [by apply table_ok_remove|split; [done|split]]].
  - unfold eth_body. pose proof (reader_ends p (with_rio rp q) s1 Hok1 Hl Hin Hq1 Htid) as E.
    destruct (decide (data = [])) as [->|Hne]; [exact E|].
    destruct Hbad as [Hbad|]; [|done].
    erewrite bind_ret_l by (by apply dispatch_unknown). exact E.
  - intros x. cbn [forget hash_table]. rewrite list_elem_of_filter. tauto.
  - cbn [forget peers s1 set_peers]. by rewrite delete_insert_eq.
Qed.

(** C40: A quit packet stops a proxy without members and hangs one with
    members.  A packet of the wrong size is refused and changes nothing.  With
    an empty table the tap thread is cancelled and the process exits with [0].
    With a member, [Quit] never gets past the first one: [remove_member] asks
    for the lock that [Quit] holds. *)
Theorem quit_outcome data s o s' :
  world_ok s -> locks s = lock_init -> Quit data s = (o, s') ->
  if negb (Z.of_nat (length data) =? QUIT_LEN) then o = Ret (-1) /\ s' = s
  else
    match hash_table s with
    | [] => o = Exit 0 /\ trace (io s') = trace (io s) ++ [EvCancel (tap_tid s)]
    | _ => (o = Starved \/ o = Blocked) /\ hash_table s' = hash_table s
           /\ peers s' = peers s
    end.
Proof using Type.
  intros Hok Hl. unfold Quit. destruct (negb _); [by intros [= <- <-]|].
  erewrite bind_ret_l by (by apply writeBegin_free). set (s1 := set_locks _ _).
  unfold hash_iter, gets, bind at 1 2. change (hash_table s1) with (hash_table s).
  destruct (hash_table s) as [|p t] eqn:Et; cbn [iter].
  - unfold ret at 1. unfold bind at 1. rewrite writeEnd_writing by done.
    intros [= <- <-]. by split.
  - destruct (proj1 (proj2 Hok) p) as [q Hq]; [rewrite Et; apply list_elem_of_here|].
    set (buffer := _ ++ data). unfold bind at 1 2.
    destruct (peer_write p buffer s1) as [o1 s2] eqn:Hw.
    destruct (peer_write_outcome p q buffer s1 _ _ Hq Hw) as (e & -> & _ & [->|[v ->]]).
    { cbn. intros [= <- <-]. split; [by left|by split]. }
    destruct (writeBegin_again (set_io e s1)) as (s3 & Hb & ->); [done|].
    unfold remove_member at 1, bind at 1. rewrite Hb. cbn. intros [= <- <-].
    split; [by right|by split].
Qed.

(** [Leave] removes the member whose tap MAC address the payload holds. *)
Lemma Leave_run data k s :
  world_ok s -> locks s = lock_init -> load c_mac data tapMAC_offset = Some k ->
  match find_key (peers s) (hash_table s) k with
  | Some (Some p) =>
      exists q, p ∈ hash_table s /\ peers s !! p = Some q /\ tapMAC (p_ls q) = k
      /\ Leave data s = (Ret 0, forget p q (filter (fun x => x <> p) (hash_table s)) s)
  | _ => (forall x, x ∈ hash_table s -> peer_mac (peers s) x <> Some k)
      /\ Leave data s = (Ret 0, s)
  end.
Proof using Type.
  intros Hok Hl Hk. unfold Leave. set (s1 := set_locks (LockState 1 0 false false false false true) s).
  assert (set_locks lock_init s1 = s) as Es by (destruct s; simpl in *; by subst).
  assert (forall o, find_key (peers s) (hash_table s) k = Some o ->
    (readBegin ;;; let* pp := hash_find_at data tapMAC_offset in readEnd ;;;
       match pp with Some pp => remove_member (Some pp) | None => ret tt end ;;; ret 0) s
    = (match o with Some p => remove_member (Some p) | None => ret tt end ;;; ret 0) s) as Hrun.
  { intros o Hf. erewrite bind_ret_l by (by apply readBegin_free). fold s1.
    erewrite bind_ret_l by (eapply (hash_find_at_run _ _ _ s1); [exact Hk|exact Hf]).
    erewrite bind_ret_l by (by apply readEnd_reading). by rewrite Es. }
  destruct (find_key_ok _ _ k Hok) as [(p & Hf & Hin & Hm)|[Hf Hno]];
    rewrite Hf, (Hrun _ Hf).
  - destruct (proj1 (proj2 Hok) p Hin) as [q Hq]. exists q.
    split; [done|]. split; [done|]. split; [by rewrite (peer_mac_live _ _ _ Hq) in Hm; injection Hm|].
    by erewrite bind_ret_l by (by apply (remove_member_member s p q)).
  - split; [exact Hno|done].
Qed.

(** Without the member that has the address [k], nobody has it. *)
Lemma forget_key p q k s :
  world_ok s -> p ∈ hash_table s -> peers s !! p = Some q -> tapMAC (p_ls q) = k ->
  let s' := forget p q (filter (fun x => x <> p) (hash_table s)) s in
  world_ok s' /\ find_key (peers s') (hash_table s') k = Some None
  /\ (forall x, x ∈ hash_table s' <-> x ∈ hash_table s /\ peer_mac (peers s) x <> Some k).
Proof using Type.
  intros Hok Hin Hq Hk s'. pose proof (peer_mac_live _ _ _ Hq) as Hm. rewrite Hk in Hm.
  assert (forall x, x ∈ hash_table s' <->
    x ∈ hash_table s /\ peer_mac (peers s) x <> Some k) as Hfil.
  { intros x. unfold s'. cbn [forget hash_table]. rewrite list_elem_of_filter. split.
    - intros [Hn Hx]. split; [done|]. intros E. apply Hn.
      apply (proj2 (proj2 Hok)); [done..|congruence].
    - intros [Hx Hn]. split; [|done]. by intros ->. }
  split; [by apply table_ok_remove|]. split; [|exact Hfil].
  apply find_key_None. intros x Hx. apply Hfil in Hx as [Hx Hn].
  destruct (proj1 (proj2 Hok) x Hx) as [qx Hqx]. exists (tapMAC (p_ls qx)).
  assert (x <> p) as Hxp by by intros ->.
  unfold peer_mac, s' in *. cbn [forget peers]. rewrite lookup_delete_ne, Hqx by done.
  rewrite Hqx in Hn. split; [done|]. intros E. apply Hn. cbn. congruence.
Qed.

(** The payload [leave_handler] sends holds the address of its sender. *)
Lemma leave_payload_mac l ts rest :
  load c_mac (enc c_leave (lv (leave_message l ts)) ++ rest) tapMAC_offset = Some (tapMAC l).
Proof using Type.
  cbn [c_leave c_struct c_pair enc leave_message lv fst snd localIP localListenPort localMAC].
  rewrite <- !app_assoc, (app_assoc (enc (c_uint 4) _)).
  apply load_app_at; [apply _|exact I|]. rewrite length_app. reflexivity.
Qed.

(** A leave packet takes its sender out.  The payload [leave_handler] sends,
    whatever follows it, makes [Leave] remove exactly the member with the tap
    MAC address of the sender, on both data models; a payload from a proxy that
    is not a member changes nothing. *)
Theorem leave_removes_sender l ts rest s :
  world_ok s -> locks s = lock_init ->
  exists s', Leave (enc c_leave (lv (leave_message l ts)) ++ rest) s = (Ret 0, s')
    /\ world_ok s' /\ locks s' = lock_init
    /\ find_key (peers s') (hash_table s') (tapMAC l) = Some None
    /\ (forall x, x ∈ hash_table s' <->
          x ∈ hash_table s /\ peer_mac (peers s) x <> Some (tapMAC l)).
Proof using Type.
  intros Hok Hl. pose proof (Leave_run _ _ s Hok Hl (leave_payload_mac l ts rest)) as Hrun.
  destruct (find_key_ok _ _ (tapMAC l) Hok) as [(p & Hf & _)|[Hf Hno]]; rewrite Hf in Hrun.
  - destruct Hrun as (q & Hin & Hq & Hk & ->). eexists. split; [reflexivity|].
    destruct (forget_key p q (tapMAC l) s Hok Hin Hq Hk) as (H1 & H2 & H3). done.
  - destruct Hrun as [_ ->]. exists s. do 4 (split; [done|]).
    intros x. split; [|tauto]. intros Hx. split; [done|by apply Hno].
Qed.

(** The leave packet is only framed correctly on a 32-bit host.  Its header
    announces [QUIT_LEN] bytes; the payload has exactly that length with a
    32-bit [long], and eight bytes more, which the receiver takes for the next
    header, with a 64-bit one. *)
Theorem leave_packet_framing l ts :
  let payload := enc c_leave (lv (leave_message l ts)) in
  enc c_leave_packet (leave_message l ts)
    = packet_bytes LEAVE (take (Z.to_nat QUIT_LEN) payload)
      ++ drop (Z.to_nat QUIT_LEN) payload
  /\ length (drop (Z.to_nat QUIT_LEN) payload)
     = match abi with ILP32 => 0%nat | LP64 => 8%nat end.
Proof using Type.
  intros payload.
  assert (length payload = match abi with ILP32 => 20%nat | LP64 => 28%nat end) as Hlen.
  { unfold payload. rewrite enc_length. cbn. unfold long_size. by destruct abi. }
  split.
  - unfold packet_bytes. rewrite length_take, Hlen.
    replace (min _ _) with 20%nat by (destruct abi; reflexivity).
    rewrite <- app_assoc, take_drop. reflexivity.
  - rewrite length_drop, Hlen. by destruct abi.
Qed.

Lemma leave_handler_run s :
  let lvpkt := enc c_leave_packet (leave_message (linkState s) (timestamp s)) in
  connected (peers s) (hash_table s) ->
  writes_ready (length (hash_table s)) (length lvpkt) (io s) ->
  exists s', leave_handler s = (Exit 0, s')
    /\ received (peers s) (hash_table s) lvpkt (io s) (io s')
    /\ hash_table s' = [] /\ (forall p, p ∈ hash_table s -> peers s' !! p = None)
    /\ (forall p, p ∉ hash_table s -> peers s' !! p = peers s !! p).
Proof using Type.
  intros lvpkt Hcon Hrdy.
  destruct (iter_leave_one lvpkt (hash_table s) s eq_refl Hcon Hrdy)
    as (s' & Hrun & Ht & Hgone & Hkept & Hrec).
  exists s'. split; [|by repeat (split; [done|])].
  unfold leave_handler, gets, bind at 1 2. unfold hash_iter, gets, bind at 1 2.
  change (iter _ (hash_table s)) with (iter (leave_one lvpkt) (hash_table s)).
  by rewrite Hrun.
Qed.

(** Leaving says good-bye to everybody.  [leave_handler] sends the leave
    packet exactly once to every member and nothing to anybody else, removes
    and frees all of them, and exits with [0]. *)
Theorem leave_handler_broadcasts s :
  let lvpkt := enc c_leave_packet (leave_message (linkState s) (timestamp s)) in
  connected (peers s) (hash_table s) ->
  writes_ready (length (hash_table s)) (length lvpkt) (io s) ->
  exists s', leave_handler s = (Exit 0, s')
    /\ received (peers s) (hash_table s) lvpkt (io s) (io s')
    /\ hash_table s' = [] /\ (forall p, p ∈ hash_table s -> peers s' !! p = None)
    /\ (forall p, p ∉ hash_table s -> peers s' !! p = peers s !! p).
Proof using Type. apply leave_handler_run. Qed.

(** When a link is taken to be dead.  For times that fit 32 bits, the test
    of [timeout_handler] is exact on a 64-bit host: the link is dead when at
    least [link_timeout] seconds have passed since its timestamp.  On a 32-bit
    host the comparison is unsigned, and a timestamp in the future, which a
    peer with another clock can send, also ends the link. *)
Theorem expired_exact timeout now last :
  time_ok now -> time_ok last -> 0 <= timeout < 2 ^ 31 ->
  expired timeout now last = true <->
    timeout * 1000000000 <= ns now - ns last
    \/ (abi = ILP32 /\ ns now < ns last).
Proof using Type.
  intros H1 H2 Ht. destruct (link_elapsed_ok now last H1 H2) as (E & Hn & Hs).
  unfold expired, long_ge_u32. unfold ns in E at 1.
  set (d := link_elapsed now last) in *. unfold to_size, uwrap, long_bits, long_size.
  destruct abi; rewrite Z.leb_le.
  - change (8 * Z.of_nat 4) with 32. destruct (Z.lt_ge_cases (tv_sec d) 0).
    + rewrite <- (Z.mod_unique (tv_sec d) (2 ^ 32) (-1) (tv_sec d + 2 ^ 32)) by lia.
      split; [right; split; [done|lia]|lia].
    + rewrite Z.mod_small by lia. split; [left; lia|intros [?|[_ ?]]; lia].
  - split; [left; lia|intros [?|[? _]]; [lia|done]].
Qed.

(** C28: The timer of a link.  The first deadline is [link_timeout] seconds from
    the start and every following one [link_timeout] seconds from the refreshed
    timestamp.  As long as each expired wait finds the link alive the thread
    waits again; when it is signalled, or finds the link dead, it removes the
    peer from the table, closes its connection, cancels its reader and frees
    it, and leaves the table well-formed and the lock free. *)
Theorem timeout_handler_removes rounds v last start now p q s :
  world_ok s -> locks s = lock_init -> p ∈ hash_table s -> peers s !! p = Some q ->
  p_timeout_mutex q = false -> self s ∉ cancelled s ->
  (exists c, clocks (io s) = start :: c
    /\ timer_script rounds v last now (set_clocks c (io s))) ->
  Forall (alive (link_timeout (config s))) rounds ->
  v <= 0 \/ expired (link_timeout (config s)) now last = true ->
  exists s', timeout_handler p s = (Ret tt, s')
    /\ world_ok s' /\ locks s' = lock_init
    /\ (forall x, x ∈ hash_table s' <-> x ∈ hash_table s /\ x <> p)
    /\ peers s' = delete p (peers s)
    /\ trace (io s') = trace (io s)
         ++ map EvWait (deadline (link_timeout (config s)) start
              :: map (fun x => deadline (link_timeout (config s)) x.1) rounds)
         ++ [EvClose (fd (p_rio q)); EvCancel (p_tid q); EvFree p].
Proof using Type.
  intros Hok Hl Hin Hq Hmx Hself (c & Hc & Hscript) Hal Hend.
  unfold timeout_handler. unfold in_io at 1, zoom, clock_gettime, bind at 1. rewrite Hc.
  unfold gets at 1, bind at 1. set (s1 := set_io _ s).
  set (q1 := with_timeout_mutex true q).
  set (s2 := set_peers (<[p := q1]> (peers s)) s1).
  unfold bind at 1, timeout_lock at 1. erewrite bind_ret_l by (by apply peer_live).
  rewrite Hmx. unfold set_peer at 1, modify. change (set_peers _ s1) with s2.
  unfold gets at 1, bind at 1.
  destruct (timeout_loop_run (S (length (waits (io s2)))) rounds v last now
    (deadline (link_timeout (config s)) start) p q1 s2)
    as (e & Hrun & Htr); try done.
  { destruct Hscript as ([w Hw] & _). cbn [set_clocks waits] in Hw.
    cbn [s2 s1 set_peers set_io io set_clocks waits].
    rewrite Hw, length_app, length_map. lia. }
  { apply lookup_insert_eq. }
  erewrite bind_ret_l by exact Hrun. cbn [s2 set_peers peers s1 set_io].
  rewrite insert_insert_eq. set (q2 := with_timestamp last q1). set (s3 := set_io e _).
  unfold bind at 1, timeout_unlock at 1.
  erewrite bind_ret_l by (apply peer_live; apply lookup_insert_eq).
  unfold set_peer, modify. cbn [s3 set_peers set_io peers]. rewrite insert_insert_eq.
  set (q3 := with_timeout_mutex false q2). set (s4 := set_peers _ _).
  assert (peers s4 !! p = Some q3) as Hq3 by apply lookup_insert_eq.
  assert (world_ok s4) as Hok4.
  { eapply table_ok_mono; [|exact Hok]. intros x Hx.
    cbn [s4 set_peers set_io peers]. unfold peer_mac. destruct (decide (x = p)) as [->|Hn].
    - rewrite lookup_insert_eq, Hq. by split.
    - rewrite lookup_insert_ne by done. split; [done|]. by apply (proj1 (proj2 Hok)). }
  rewrite (timer_ends p q3) by done.
  eexists. split; [reflexivity|]. split; [by apply table_ok_remove|]. split; [done|].
  split; [|split].
  - intros x. cbn [hash_table]. rewrite list_elem_of_filter. tauto.
  - cbn [set_peers peers s4]. by rewrite delete_insert_eq.
  - cbn [set_peers set_io io log trace s4 s3].
    rewrite Htr. cbn [s2 s1 set_peers set_io io set_clocks trace config].
    by rewrite <- !app_assoc.
Qed.

(** C29: Refreshed links stay.  If at the end of every wait the timestamp of the
    peer is less than [link_timeout] seconds old, however often the thread waits,
    the timer never removes the peer: it waits for the next deadline, which is
    [link_timeout] seconds after the last timestamp, with the table as it was. *)
Theorem refreshed_link_stays rounds start p q s :
  locks s = lock_init -> p ∈ hash_table s -> peers s !! p = Some q ->
  p_timeout_mutex q = false -> self s ∉ cancelled s -> 0 <= link_timeout (config s) < 2 ^ 31 ->
  waits (io s) = map (fun x => (110, x.1)) rounds ->
  (exists c, clocks (io s) = start :: map snd rounds ++ c) ->
  Forall (fun x => time_ok x.1 /\ time_ok x.2 /\
            ns x.1 <= ns x.2 < ns x.1 + link_timeout (config s) * 1000000000) rounds ->
  exists s' q', timeout_handler p s = (Starved, s')
    /\ hash_table s' = hash_table s /\ locks s' = lock_init
    /\ peers s' = <[p := q']> (peers s) /\ p_ls q' = p_ls q
    /\ trace (io s') = trace (io s)
         ++ map EvWait (deadline (link_timeout (config s)) start
              :: map (fun x => deadline (link_timeout (config s)) x.1) rounds).
Proof using Type.
  intros Hl Hin Hq Hmx Hself Hto Hw [c Hc] Hal.
  unfold timeout_handler. unfold in_io at 1, zoom, clock_gettime, bind at 1. rewrite Hc.
  unfold gets at 1, bind at 1. set (s1 := set_io _ s).
  set (q1 := with_timeout_mutex true q). set (s2 := set_peers (<[p := q1]> (peers s)) s1).
  unfold bind at 1, timeout_lock at 1. erewrite bind_ret_l by (by apply peer_live).
  rewrite Hmx. unfold set_peer at 1, modify. change (set_peers _ s1) with s2.
  unfold gets at 1, bind at 1.
  destruct (timeout_loop_waits rounds (S (length (waits (io s2))))
    (deadline (link_timeout (config s)) start) p q1 s2) as (e & q' & Hrun & Hls & Htr); try done.
  { cbn [s2 s1 set_peers set_io io set_clocks waits]. rewrite Hw, length_map. lia. }
  { apply lookup_insert_eq. }
  { by exists c. }
  { eapply Forall_impl; [exact Hal|]. intros [t now] (H1 & H2 & H3). unfold alive. cbn [fst snd] in *.
    apply not_true_iff_false. rewrite expired_exact by done. cbn in H3 |- *.
    change (config s2) with (config s). lia. }
  change (config s1) with (config s). unfold bind at 1. rewrite Hrun. eexists _, q'. split; [reflexivity|]. do 2 (split; [done|]).
  split; [cbn [s2 s1 set_io set_peers peers]; by rewrite insert_insert_eq|]. split; [done|].
  exact Htr.
Qed.

(** Answering a probe.  [Link_State_Broadcast] sends probes with a payload of
    eight bytes.  On a 32-bit host the payload is echoed, as it is, behind the
    header of a probe response.  On a 64-bit host the handler reads a
    sixteen-byte time from the eight-byte buffer. *)
Theorem probe_request_outcome padding data p q s :
  peers s !! p = Some q -> length data = 8%nat -> writes_ready 1 12 (io s) ->
  match abi with
  | ILP32 =>
      exists s', Bandwidth_Probe_Request padding data p s = (Ret 0, s')
        /\ written (fd (p_rio q)) (trace (io s'))
           = written (fd (p_rio q)) (trace (io s))
             ++ packet_bytes BANDWIDTH_PROBE_RESPONSE data
        /\ peers s' = peers s /\ hash_table s' = hash_table s
  | LP64 => Bandwidth_Probe_Request padding data p s = (Undefined, s)
  end.
Proof using Type.
  intros Hq Hd Hrdy. unfold Bandwidth_Probe_Request.
  assert (sizeof c_timespec = match abi with ILP32 => 8%nat | LP64 => 16%nat end) as Hsz.
  { cbn. unfold long_size. by destruct abi. }
  assert (take 12 (enc_probe_req padding (ProbeReq
      (ProxyHeader (htons BANDWIDTH_PROBE_RESPONSE) (htons 8)) (dec c_timespec data)))
    = packet_bytes BANDWIDTH_PROBE_RESPONSE data \/ abi = LP64) as Hpkt.
  { destruct abi eqn:E; [left|by right].
    unfold enc_probe_req. cbn [pr_prxyhdr pr_ID].
    rewrite c_timespec_enc_dec by (by rewrite Hsz). unfold long_size. rewrite E. cbn [Nat.sub take app].
    unfold packet_bytes. rewrite Hd. change (Z.of_nat 8) with 8.
    rewrite take_0, app_nil_l, take_ge; [done|].
    rewrite length_app, c_proxy_header_length. lia. }
  assert (load c_timespec data 0 =
    match abi with ILP32 => Some (dec c_timespec data) | LP64 => None end) as Hld.
  { unfold load. rewrite Hsz, Hd. by destruct abi. }
  unfold bind at 1. rewrite Hld. destruct abi.
  - destruct Hpkt as [Hpkt|]; [|done]. cbn [deref]. unfold ret at 1. cbv zeta.
    rewrite Hpkt.
    destruct (rio_write_completes (fd (p_rio q))
      (packet_bytes BANDWIDTH_PROBE_RESPONSE data) (io s)) as (e & Hw & Hwr & _).
    { unfold packet_bytes. rewrite length_app, c_proxy_header_length, Hd. done. }
    erewrite bind_ret_l by (by eapply peer_write_run).
    rewrite (proj2 (Z.ltb_ge _ _)) by lia.
    eexists. split; [reflexivity|]. split; [exact Hwr|done].
  - reflexivity.
Qed.

(** Measuring a link.  When the response carries the time of the latest
    probe, the bandwidth and the weight of the link are computed from a
    difference of times that is exact when no nanoseconds have to be borrowed,
    and two seconds too long otherwise: the borrow is added to the seconds. *)
Theorem probe_response_measures data id p q now l s :
  peers s !! p = Some q -> clocks (io s) = now :: l ->
  time_ok now -> time_ok (p_probe_ts q) ->
  load c_timespec data 0 = Some id ->
  id = Timespec (to_long (htonl (tv_sec (p_probe_ts q))))
                (to_long (htonl (tv_nsec (p_probe_ts q)))) ->
  exists d s', Bandwidth_Probe_Response data p s = (Ret 0, s')
    /\ peers s' = <[p := with_bandwidth (link_bandwidth (round_trip d))
                          (link_weight (round_trip d)) q]> (peers s)
    /\ ns d = ns now - ns (p_probe_ts q)
              + (if tv_nsec now <? tv_nsec (p_probe_ts q) then 2000000000 else 0)
    /\ 0 <= tv_nsec d < 1000000000.
Proof using Type.
  intros Hq Hc Hn Hp Hld ->. set (ts := p_probe_ts q) in *.
  exists (probe_elapsed now ts).
  unfold Bandwidth_Probe_Response, in_io, zoom, clock_gettime. unfold bind at 1.
  rewrite Hc. unfold bind at 1. rewrite Hld. cbn [deref]. unfold ret at 1.
  cbn [tv_sec tv_nsec]. rewrite !ntohl_htonl_long.
  unfold u32. unfold time_ok in Hn, Hp. rewrite !uwrap_small by lia.
  rewrite !to_long_small by lia.
  erewrite bind_ret_l by (by apply peer_live). fold ts.
  rewrite !Z.eqb_refl. cbn [andb]. replace (Timespec (tv_sec ts) (tv_nsec ts)) with ts
    by (by destruct ts).
  eexists. split; [reflexivity|]. split; [done|].
  unfold probe_elapsed. small_time now ts; unfold ns; cbn [tv_sec tv_nsec];
    destruct (Z.ltb_spec (tv_nsec now) (tv_nsec ts)); lia.
Qed.

End Handlers.

(** ** Witnesses, on a 64-bit host unless said otherwise *)

#[local] Instance example_abi : ABI := LP64.

Definition example_frame (dst : mac) : bytes :=
  mac_bytes dst ++ mac_bytes (mac_n Init.Byte.x07) ++ [Init.Byte.x08; Init.Byte.x00].

(** The proxy of [example_world] with a frame waiting on its tap device. *)
Definition tap_world (frame : bytes) : world :=
  set_io (set_reads [RdData (length frame)]
    (set_input {[ 4 := frame ]} (io example_world))) example_world.

Lemma example_world_connected : connected (peers example_world) [1%positive; 2%positive].
Proof.
  split; [|split].
  - by apply (bool_decide_unpack _); vm_compute.
  - intros p Hp. apply list_elem_of_In in Hp. cbn in Hp.
    destruct Hp as [<-|[<-|[]]]; by eexists.
  - intros p q Hp Hq. apply list_elem_of_In in Hp, Hq. cbn in Hp, Hq.
    destruct Hp as [<-|[<-|[]]], Hq as [<-|[<-|[]]]; done.
Qed.

Lemma example_calm : calm (io example_world).
Proof. split; [discriminate|]. split; by repeat constructor. Qed.

Lemma example_accepting n : accepting (replicate n (WrCount 2000)).
Proof. apply Forall_replicate. by eexists. Qed.

Lemma tap_world_waiting dst : frame_waiting (example_frame dst) [] (tap_world (example_frame dst)).
Proof.
  split; [split; cbn; [lia|unfold ETH_FRAME_LEN; lia]|]. split; [cbn; lia|].
  split; [by rewrite app_nil_r|]. by eexists.
Qed.

Lemma tap_iteration_safe_witness :
  world_ok (tap_iteration (tap_world (example_frame BROADCAST_ADDR))).2.
Proof.
  pose proof (tap_iteration_safe (tap_world (example_frame BROADCAST_ADDR)) _ _
    example_world_ok eq_refl (fresh_rio_wf 4) (surjective_pairing _)) as Hs.
  assert ((tap_iteration (tap_world (example_frame BROADCAST_ADDR))).1 = Ret tt) as E
    by (vm_compute; reflexivity).
  rewrite E in Hs. exact (proj1 Hs).
Defined.

Lemma tap_broadcast_delivers_witness :
  exists s', tap_iteration (tap_world (example_frame BROADCAST_ADDR)) = (Ret tt, s')
    /\ received (peers example_world) [1%positive; 2%positive]
         (data_packet (example_frame BROADCAST_ADDR)) example_io (io s').
Proof.
  destruct (tap_broadcast_delivers (example_frame BROADCAST_ADDR) []
    (tap_world (example_frame BROADCAST_ADDR))) as (s' & H1 & H2 & _).
  - reflexivity.
  - apply tap_world_waiting.
  - reflexivity.
  - exact example_world_connected.
  - discriminate.
  - split; [split; [discriminate|split; by repeat constructor]|].
    split; [vm_compute; lia|]. split; [vm_compute; lia|].
    split; [vm_compute; lia|apply example_accepting].
  - exact example_calm.
  - exists s'. split; [exact H1|exact H2].
Defined.

(** A frame for member [1] finds no member under its key. *)
Lemma tap_unicast_key_witness :
  exists s', tap_iteration (tap_world (example_frame (mac_n Init.Byte.x01))) = (Ret tt, s')
    /\ trace (io s') = [].
Proof.
  destruct (tap_unicast_key (example_frame (mac_n Init.Byte.x01)) []
    (tap_world (example_frame (mac_n Init.Byte.x01)))) as (s' & H1 & _ & _ & _ & H2).
  - exact example_world_ok.
  - reflexivity.
  - apply tap_world_waiting.
  - discriminate.
  - exact example_calm.
  - split; [split; [discriminate|split; by repeat constructor]|].
    split; [vm_compute; lia|]. split; [vm_compute; lia|].
    split; [vm_compute; lia|apply example_accepting].
  - exists s'. split; [exact H1|]. vm_compute in H2. exact H2.
Defined.

(** Thread [t] with bytes waiting on the connection of member [1]. *)
Definition reader_world (t : Z) (bs : bytes) : world :=
  let s := set_io (set_input {[ 5 := bs ]} (io example_world)) example_world in
  World (io s) (locks s) (hash_table s) (peers s) (linkState s) (timestamp s)
    (config s) (rio_tap s) (tap_tid s) (next_tid s) (cancelled s) t.

Lemma reader_world_ready n t bs : (n <= 100)%nat -> reads_ready n (io (reader_world t bs)).
Proof.
  intros Hn. split; [exact example_calm|]. split; [cbn; lia|]. split; [cbn; lia|].
  apply (Forall_replicate _ 100). by eexists.
Qed.

Lemma eth_delivers_data_witness :
  exists s', eth_iteration (fun _ => ret 0) [] (fun n => replicate n Init.Byte.x00)
      1%positive [] (reader_world 51 (data_packet (example_frame BROADCAST_ADDR)))
    = (Ret (enc c_proxy_header (ProxyHeader DATA 14)), s')
    /\ written 4 (trace (io s')) = example_frame BROADCAST_ADDR.
Proof.
  destruct (eth_delivers_data (fun _ => ret 0) [] (fun n => replicate n Init.Byte.x00)
    1%positive (example_peer 5 Init.Byte.x01) [] (example_frame BROADCAST_ADDR) []
    (reader_world 51 (data_packet (example_frame BROADCAST_ADDR))))
    as (s' & rp & H1 & _ & _ & _ & H2 & _).
  - reflexivity.
  - apply example_rio_wf.
  - apply not_elem_of_nil.
  - discriminate.
  - cbn. lia.
  - apply reader_world_ready. cbn. lia.
  - cbn. lia.
  - cbn. lia.
  - apply example_accepting.
  - by rewrite app_nil_r.
  - exists s'. split; [exact H1|exact H2].
Defined.

Lemma eth_bad_packet_witness :
  exists s', eth_iteration (fun _ => ret 0) [] (fun n => replicate n Init.Byte.x00)
      1%positive [] (reader_world 51 (packet_bytes 7 [Init.Byte.x01])) = (Cancelled, s')
    /\ world_ok s'.
Proof.
  destruct (eth_bad_packet (fun _ => ret 0) [] (fun n => replicate n Init.Byte.x00)
    1%positive (example_peer 5 Init.Byte.x01) [] 7 [Init.Byte.x01] []
    (reader_world 51 (packet_bytes 7 [Init.Byte.x01]))) as (s' & H1 & H2 & _).
  - exact example_world_ok.
  - reflexivity.
  - apply list_elem_of_here.
  - reflexivity.
  - apply example_rio_wf.
  - apply not_elem_of_nil.
  - reflexivity.
  - lia.
  - cbn. lia.
  - apply reader_world_ready. cbn. lia.
  - by rewrite app_nil_r.
  - left. apply (bool_decide_unpack _). vm_compute. exact I.
  - exists s'. split; [exact H1|exact H2].
Defined.

Lemma quit_outcome_witness :
  exists s', Quit (replicate 20 Init.Byte.x00) example_world = (Blocked, s')
    /\ hash_table s' = [1%positive; 2%positive].
Proof.
  exists (Quit (replicate 20 Init.Byte.x00) example_world).2.
  pose proof (quit_outcome (replicate 20 Init.Byte.x00) example_world _ _
    example_world_ok eq_refl (surjective_pairing _)) as (_ & H2 & _).
  split; [vm_compute; reflexivity|exact H2].
Defined.

Lemma leave_removes_sender_witness :
  exists s', Leave (enc c_leave (lv (leave_message
      (p_ls (example_peer 5 Init.Byte.x01)) (Timespec 1 2))) ++ []) example_world
    = (Ret 0, s') /\ world_ok s'.
Proof.
  destruct (leave_removes_sender (p_ls (example_peer 5 Init.Byte.x01)) (Timespec 1 2) []
    example_world example_world_ok eq_refl) as (s' & H1 & H2 & _).
  exists s'. split; [exact H1|exact H2].
Defined.

Lemma leave_handler_broadcasts_witness :
  exists s', leave_handler example_world = (Exit 0, s') /\ hash_table s' = [].
Proof.
  destruct (leave_handler_broadcasts example_world) as (s' & H1 & _ & H2 & _).
  - exact example_world_connected.
  - split; [exact example_calm|]. split; [vm_compute; lia|]. split; [vm_compute; lia|].
    split; [vm_compute; lia|apply example_accepting].
  - exists s'. split; [exact H1|exact H2].
Defined.

Lemma expired_exact_witness :
  expired 25 (Timespec 100 5) (Timespec 75 6) = false.
Proof.
  assert (time_ok (Timespec 100 5)) as H1 by (unfold time_ok; cbn; lia).
  assert (time_ok (Timespec 75 6)) as H2 by (unfold time_ok; cbn; lia).
  destruct (expired 25 (Timespec 100 5) (Timespec 75 6)) eqn:E; [exfalso|reflexivity].
  destruct (proj1 (expired_exact 25 _ _ H1 H2 ltac:(lia)) E) as [Hn|[Ha _]];
    [|discriminate Ha].
  by vm_compute in Hn.
Defined.

(** Member [1] is refreshed between the start of its timer and the only check. *)
Definition refreshed_world : world :=
  set_io (set_clocks [Timespec 100 0; Timespec 125 0]
    (set_waits [(110, Timespec 120 0)] (io example_world))) example_world.

Lemma refreshed_link_stays_witness :
  exists s', timeout_handler 1%positive refreshed_world = (Starved, s')
    /\ hash_table s' = [1%positive; 2%positive]
    /\ trace (io s') = [EvWait (Timespec 125 0); EvWait (Timespec 145 0)].
Proof.
  destruct (refreshed_link_stays [(Timespec 120 0, Timespec 125 0)] (Timespec 100 0) 1%positive
    (example_peer 5 Init.Byte.x01) refreshed_world) as (s' & q' & H1 & H2 & _ & _ & _ & H3).
  - reflexivity.
  - apply list_elem_of_here.
  - reflexivity.
  - reflexivity.
  - apply not_elem_of_nil.
  - vm_compute. split; [discriminate|reflexivity].
  - reflexivity.
  - by exists [].
  - apply Forall_cons. split; [|apply Forall_nil_2]. unfold time_ok, ns. cbn. lia.
  - exists s'. split; [exact H1|]. split; [exact H2|exact H3].
Defined.

(** Member [1] is found alive once, and dead after twenty-five more seconds. *)
Definition timer_world : world :=
  set_io (set_clocks [Timespec 100 0; Timespec 125 0; Timespec 151 0]
    (set_waits [(110, Timespec 120 0); (110, Timespec 120 0)] (io example_world)))
    example_world.

Lemma timeout_handler_removes_witness :
  exists s', timeout_handler 1%positive timer_world = (Ret tt, s')
    /\ world_ok s'
    /\ trace (io s') = [EvWait (Timespec 125 0); EvWait (Timespec 145 0);
                        EvClose 5; EvCancel 51; EvFree 1%positive].
Proof.
  destruct (timeout_handler_removes [(Timespec 120 0, Timespec 125 0)] 110
    (Timespec 120 0) (Timespec 100 0) (Timespec 151 0) 1%positive
    (example_peer 5 Init.Byte.x01) timer_world)
    as (s' & H1 & H2 & _ & _ & _ & H3).
  - exact example_world_ok.
  - reflexivity.
  - apply list_elem_of_here.
  - reflexivity.
  - reflexivity.
  - apply not_elem_of_nil.
  - eexists. split; [reflexivity|]. split; by eexists.
  - repeat constructor.
  - by right.
  - exists s'. split; [exact H1|]. split; [exact H2|]. vm_compute in H3. exact H3.
Defined.

(** On a 32-bit host. *)
Lemma probe_request_outcome_witness :
  exists s', Bandwidth_Probe_Request (H:=ILP32) [] (replicate 8 Init.Byte.x01) 1%positive
      example_world = (Ret 0, s').
Proof.
  destruct (probe_request_outcome (H:=ILP32) [] (replicate 8 Init.Byte.x01) 1%positive
    (example_peer 5 Init.Byte.x01) example_world) as (s' & H1 & _).
  - reflexivity.
  - reflexivity.
  - split; [exact example_calm|]. split; [vm_compute; lia|]. split; [vm_compute; lia|].
    split; [vm_compute; lia|apply example_accepting].
  - exists s'. exact H1.
Defined.

Lemma probe_response_measures_witness :
  exists d s', Bandwidth_Probe_Response (replicate 16 Init.Byte.x00) 1%positive
      example_world = (Ret 0, s') /\ ns d = 100 * 1000000000 + 5.
Proof.
  destruct (probe_response_measures (replicate 16 Init.Byte.x00) (Timespec 0 0)
    1%positive (example_peer 5 Init.Byte.x01) (Timespec 100 5)
    (replicate 9 (Timespec 100 5)) example_world) as (d & s' & H1 & _ & H2 & _).
  - reflexivity.
  - reflexivity.
  - unfold time_ok; cbn; lia.
  - unfold time_ok; cbn; lia.
  - vm_compute. reflexivity.
  - vm_compute. reflexivity.
  - exists d, s'. split; [exact H1|exact H2].
Defined.
