(* ===== verification/Tunnel.v ===== *)
(** * Frames across a connection (src/handlers.c, 3-207)

    The passes of the tap thread of one proxy composed with those of a reader
    thread of another: what is read from the one tap device is written to the
    other, frame after frame.  A connection is a stream of bytes: what the
    reader finds is what the writer has written, however both ends split it. *)

From S2P Require Export Handlers.

Section Tunnel.
Context `{ABI}.

(** The bytes that carry a list of frames. *)
Definition wire (frames : list bytes) : bytes := concat (map data_packet frames).

Lemma data_packet_length frame : length (data_packet frame) = (4 + length frame)%nat.
Proof using Type. unfold data_packet. by rewrite length_app, c_proxy_header_length. Qed.

(** ** The sender *)

(** A frame goes to the member with the tap MAC address [k]: it is for everybody,
    or the address is the one that is looked up for it. *)
Definition addressed (k : mac) (frame : bytes) : Prop :=
  destination frame = BROADCAST_ADDR \/ unicast_key frame = k.

#[export] Instance addressed_dec k frame : Decision (addressed k frame).
Proof. unfold addressed. apply _. Defined.

(** The members it goes to. *)
Definition goes_to (ps : gmap loc Peer) (t : list loc) (frame : bytes) : list loc :=
  if decide (destination frame = BROADCAST_ADDR) then t
  else match find_key ps t (unicast_key frame) with Some (Some p) => [p] | _ => [] end.

Lemma goes_to_subset ps t frame :
  table_ok ps t -> (forall x, x ∈ goes_to ps t frame -> x ∈ t)
    /\ (length (goes_to ps t frame) <= length t)%nat /\ NoDup (goes_to ps t frame).
Proof using Type.
  intros Ht. unfold goes_to. destruct (decide _); [split; [done|]; split; [done|apply Ht]|].
  destruct (find_key_ok _ _ (unicast_key frame) Ht) as [(p & -> & Hp & _)|[-> _]].
  - split; [by intros x ->%list_elem_of_singleton|]. split; [|apply NoDup_singleton].
    destruct t; [by apply elem_of_nil in Hp|cbn; lia].
  - split; [by intros x ?%elem_of_nil|]. split; [cbn; lia|constructor].
Qed.

Lemma goes_to_addressed ps t frame x k :
  table_ok ps t -> x ∈ t -> peer_mac ps x = Some k ->
  x ∈ goes_to ps t frame <-> addressed k frame.
Proof using Type.
  intros Ht Hx Hk. unfold goes_to, addressed.
  destruct (decide (destination frame = BROADCAST_ADDR)) as [E|E]; [by split; [left|]|].
  destruct (find_key_ok _ _ (unicast_key frame) Ht) as [(p & -> & Hp & Hm)|[-> Hn]].
  - rewrite list_elem_of_singleton. split; [intros ->; right; congruence|].
    intros [?|E2]; [done|]. subst k. apply (proj2 (proj2 Ht)); [done..|congruence].
  - split; [by intros ?%elem_of_nil|]. intros [?|<-]; [done|]. by destruct (Hn x Hx).
Qed.

(** Frames, one for every [read] of the tap device, whose buffer is empty. *)
Definition frames_waiting (frames : list bytes) (s : world) : Prop :=
  Forall frame_ok frames /\
  cnt (rio_tap s) <= 0 /\
  (exists rest, stream (io s) (fd (rio_tap s)) = concat frames ++ rest) /\
  exists l, reads (io s) = map (fun f => RdData (length f)) frames ++ l.

(** System calls that are enough for [frames] with [k] members: a [poll] for each
    frame, and for every member the writes of its packet. *)
Definition tap_calls (k : nat) (frames : list bytes) : nat :=
  sum_list_with (fun f => S (k * length (data_packet f))) frames.

(** Every member of [t] has been sent, of [frames], those addressed to it since
    [e0], and nothing else has been written. *)
Definition forwarded (ps : gmap loc Peer) (t : list loc) (frames : list bytes) (e0 e : env)
  : Prop :=
  (forall x f k, x ∈ t -> peer_fd ps x = Some f -> peer_mac ps x = Some k ->
     written f (trace e) = written f (trace e0) ++ wire (filter (addressed k) frames))
  /\ (forall f, (forall x, x ∈ t -> peer_fd ps x <> Some f) ->
       written f (trace e) = written f (trace e0)).

Lemma forwarded_nil ps t e : forwarded ps t [] e e.
Proof using Type. split; [|done]. intros x f k _ _ _. by rewrite app_nil_r. Qed.

Lemma forwarded_cons ps t frame frames e0 e1 e2 :
  table_ok ps t -> connected ps t ->
  received ps (goes_to ps t frame) (data_packet frame) e0 e1 -> forwarded ps t frames e1 e2 ->
  forwarded ps t (frame :: frames) e0 e2.
Proof using Type.
  intros Ht (_ & _ & Hd) [I1 O1] [I2 O2]. destruct (goes_to_subset ps t frame Ht) as [Hsub _].
  split; [intros x f k Hx Hf Hk|intros f Hf].
  - rewrite (I2 x f k Hx Hf Hk). pose proof (goes_to_addressed ps t frame x k Ht Hx Hk) as G.
    rewrite filter_cons. destruct (decide (addressed k frame)) as [A|A].
    + rewrite (I1 x f (proj2 G A) Hf), <- app_assoc. done.
    + rewrite O1; [done|]. intros y Hy Hfy. apply A, G.
      by rewrite (Hd x y Hx (Hsub y Hy)) by congruence.
  - rewrite (O2 f Hf). apply O1. intros x Hx. by apply Hf, Hsub.
Qed.

Lemma sends_ready_mono n m n' m' e :
  (n' <= n)%nat -> (m' <= m)%nat -> sends_ready n m e -> sends_ready n' m' e.
Proof using Type. intros Hn Hm (Hc & Hk & Hp & Hw & Ha). repeat split; try apply Hc; try done; lia. Qed.

(** A frame is sent to the members it goes to. *)
Lemma dispatch_sends frame n m s :
  let k := length (hash_table s) in
  locks s = lock_init -> world_ok s -> connected (peers s) (hash_table s) ->
  sends_ready (k + n) (k * length (data_packet frame) + m) (io s) ->
  exists e, tap_dispatch frame s = (Ret tt, set_locks lock_init (set_io e s))
    /\ received (peers s) (goes_to (peers s) (hash_table s) frame) (data_packet frame) (io s) e
    /\ sends_ready n m e /\ input e = input (io s) /\ reads e = reads (io s).
Proof using Type.
  intros k Hl Hok (_ & Hlive & Hd) Hrdy.
  destruct (goes_to_subset _ _ frame Hok) as (Hsub & Hlen & Hnd).
  set (g := goes_to (peers s) (hash_table s) frame) in *.
  set (s1 := set_locks lock_writing s).
  destruct (iter_sends (tap_forward (data_packet frame)) (data_packet frame) n m g s1)
    as (e & Hrun & Hrec & Hrdy' & Hin & Hre & _); [by apply tap_forward_sends| | |].
  { split; [done|]. split; [intros x Hx; by apply Hlive, Hsub|]. intros x y Hx Hy. apply Hd; by apply Hsub. }
  { eapply sends_ready_mono; [| |exact Hrdy]; [lia|]. apply Nat.add_le_mono_r.
    by apply Nat.mul_le_mono_r. }
  exists e. split; [|by repeat (split; [done|])].
  assert ((if decide (destination frame = BROADCAST_ADDR)
           then hash_iter (tap_forward (data_packet frame))
           else
             let* pp := (fun s => deref (find_key (peers s) (hash_table s) (unicast_key frame)) s) in
             match pp with
             | Some pp => tap_forward (data_packet frame) pp
             | None => ret tt
             end) s1 = (Ret tt, set_io e s1)) as Hbody.
  { unfold g, goes_to in Hrun. destruct (decide (destination frame = BROADCAST_ADDR)); [exact Hrun|].
    unfold bind at 1. change (peers s1) with (peers s). change (hash_table s1) with (hash_table s).
    destruct (find_key_ok _ _ (unicast_key frame) Hok) as [(p & E & _)|[E _]];
      rewrite E in Hrun |- *; [|exact Hrun].
    cbn [iter] in Hrun. cbn [deref]. unfold ret at 1. by apply bind_Ret_inv in Hrun as ([] & s2 & -> & [= ->]). }
  unfold tap_dispatch. erewrite bind_ret_l by (by apply writeBegin_free). fold s1.
  rewrite (bind_ret_l _ _ _ _ _ Hbody). by rewrite writeEnd_writing.
Qed.

(** One frame, with the system calls it leaves for others. *)
Lemma tap_frame_sent frame frames n m s :
  let k := length (hash_table s) in
  locks s = lock_init -> world_ok s -> connected (peers s) (hash_table s) ->
  frames_waiting (frame :: frames) s ->
  sends_ready (k + n) (S (k * length (data_packet frame)) + m) (io s) ->
  exists s', tap_iteration s = (Ret tt, s')
    /\ received (peers s) (goes_to (peers s) (hash_table s) frame) (data_packet frame) (io s) (io s')
    /\ hash_table s' = hash_table s /\ peers s' = peers s /\ locks s' = lock_init
    /\ frames_waiting frames s' /\ sends_ready n m (io s').
Proof using Type.
  intros k Hl Hok Hcon (Fs & Hz & (rest & Hst) & l & Hr) (Hc & Hk & Hp & Hw & Ha).
  apply Forall_cons in Fs as [Hf Fs]. cbn in Hst, Hr. rewrite <- app_assoc in Hst.
  assert (frame_waiting frame (concat frames ++ rest) s) as Hfr.
  { split; [done|]. split; [done|]. split; [done|]. by eexists. }
  destruct (tap_iteration_run frame _ s Hfr Hc) as
    (e & rp & Hrun & Hfd & Hcnt & Hse & Hce & Hke & Hwe & Hte & Hpe & Hre).
  { intros E. rewrite E in Hp. simpl in Hp. lia. }
  destruct (dispatch_sends frame n m (set_rio_tap rp (set_io e s)))
    as (e2 & Hd & [I O] & Hrdy & Hin & Hre2); [done..| |].
  { change (io (set_rio_tap rp (set_io e s))) with e. rewrite Hpe in Hp. cbn [length] in Hp.
    change (hash_table (set_rio_tap rp (set_io e s))) with (hash_table s). fold k.
    split; [done|]. rewrite Hke, Hwe. split; [lia|]. split; [lia|]. split; [lia|done]. }
  change (io (set_rio_tap rp (set_io e s))) with e in *.
  eexists. split; [by rewrite Hrun, Hd|].
  split; [|split; [done|split; [done|split; [done|split; [|done]]]]].
  - cbn [set_locks set_io set_rio_tap io] in *. rewrite Hte in I, O. done.
  - split; [done|]. split; [cbn; lia|]. split.
    + exists rest. change (stream e2 (fd rp) = concat frames ++ rest).
      rewrite <- Hse. by apply stream_input.
    + exists l. change (reads e2 = map (fun f => RdData (length f)) frames ++ l).
      by rewrite Hre2, Hre, Hr.
Qed.

Lemma tap_frames_sent frames : forall s,
  let k := length (hash_table s) in
  locks s = lock_init -> world_ok s -> connected (peers s) (hash_table s) ->
  frames_waiting frames s ->
  sends_ready (length frames * k) (tap_calls k frames) (io s) ->
  exists s', (forall more, tap_handler (length frames + more) s = tap_handler more s')
    /\ forwarded (peers s) (hash_table s) frames (io s) (io s')
    /\ hash_table s' = hash_table s /\ peers s' = peers s /\ locks s' = lock_init.
Proof using Type.
  induction frames as [|frame frames IH]; intros s k Hl Hok Hcon Hw Hrdy.
  { exists s. split; [done|]. split; [apply forwarded_nil|done]. }
  destruct (tap_frame_sent frame frames (length frames * k) (tap_calls k frames) s)
    as (s1 & Hrun & Hrec & Ht & Hp & Hl1 & Hw1 & Hr1); [done..|].
  assert (world_ok s1) as Hok1 by (unfold world_ok; by rewrite Ht, Hp).
  destruct (IH s1) as (s2 & Hrun2 & Hfw & Ht2 & Hp2 & Hl2); [done|done|by rewrite Ht, Hp|done| |].
  { by rewrite Ht. }
  rewrite Ht, Hp in *. exists s2. split; [|split; [by eapply forwarded_cons|done]].
  intros more. cbn [length plus tap_handler]. by erewrite bind_ret_l by exact Hrun.
Qed.

(** ** The receiver *)

(** At most a [poll] and a [read] for every byte of a packet, and a [poll] and a
    [write] for every byte of a frame. *)
Definition eth_calls (frames : list bytes) : nat :=
  sum_list_with (fun f => 4 + length f + length f)%nat frames.

Definition eth_ready (frames : list bytes) (e : env) : Prop :=
  reads_ready (eth_calls frames) e /\ (2 * length frames <= length (setlks e))%nat /\
  (length (concat frames) <= length (writes e))%nat /\ accepting (writes e).

(** One frame, with the system calls it leaves for others. *)
Lemma eth_frame_delivered LS padding junk p q mem frame frames rest s :
  peers s !! p = Some q -> rio_wf (p_rio q) -> self s ∉ cancelled s ->
  frame_ok frame -> eth_ready (frame :: frames) (io s) ->
  unread (p_rio q, io s) = data_packet frame ++ rest ->
  exists s' mem' rp, eth_iteration LS padding junk p mem s = (Ret mem', s')
    /\ peers s' = <[p := with_rio rp q]> (peers s) /\ rio_wf rp
    /\ unread (rp, io s') = rest /\ eth_ready frames (io s')
    /\ written (fd (rio_tap s)) (trace (io s'))
       = written (fd (rio_tap s)) (trace (io s)) ++ frame
    /\ hash_table s' = hash_table s /\ locks s' = locks s
    /\ rio_tap s' = rio_tap s /\ self s' = self s /\ cancelled s' = cancelled s.
Proof using Type.
  intros Hq Hwf Hself [Hlo Hhi] (Hrd & Hk & Hw & Ha) Hu. cbn [length concat] in Hk, Hw.
  rewrite length_app in Hw. unfold eth_calls in Hrd. cbn [sum_list_with] in Hrd.
  fold (eth_calls frames) in Hrd. rewrite <- Nat.add_assoc in Hrd.
  assert (frame <> []) as Hne by (intros ->; simpl in Hlo; lia).
  destruct (eth_iteration_run LS padding junk p q mem DATA frame rest
    (length frame + eth_calls frames) s)
    as (rp & e & Hrun & Hwf' & Hu' & (Hc & Hp & Hr & Hof) & (_ & Htr & Hlk & Hws & _)); try done.
  { unfold ETH_FRAME_LEN in Hhi. lia. }
  cbn [fst snd] in *. set (s1 := set_peers _ _) in *.
  destruct (rio_write_completes (fd (rio_tap s)) frame e)
    as (e2 & Hwrun & Hwr & Hc2 & Hwo & Hp2 & Hw2 & Hk2 & Ha2).
  { split; [done|]. rewrite Hlk, Hws. split; [lia|]. split; [lia|]. split; [lia|done]. }
  pose proof Hwo as (Hin & Hre & _).
  exists (set_io e2 s1), (enc c_proxy_header (ProxyHeader DATA (Z.of_nat (length frame)))), rp.
  split; [|split; [done|split; [done|split; [|split; [|split; [|done]]]]]].
  - rewrite Hrun. unfold eth_body. rewrite decide_False by done.
    erewrite bind_ret_l.
    2: { unfold dispatch. rewrite Z.eqb_refl. erewrite bind_ret_l; [reflexivity|].
         unfold Data, gets, bind at 1. change (fd (rio_tap s1)) with (fd (rio_tap s)).
         erewrite bind_ret_l.
         2: { unfold in_io, zoom. change (io s1) with e. rewrite Hwrun. reflexivity. }
         rewrite (proj2 (Z.leb_gt _ _)) by (destruct frame; [done|simpl; lia]).
         reflexivity. }
    cbv beta iota. change (0 <? 0) with false. cbv iota.
    by erewrite bind_ret_l by (by apply testcancel_pass).
  - rewrite <- Hu'. unfold unread. cbn [fst snd]. f_equal. by apply stream_input.
  - change (io (set_io e2 s1)) with e2. rewrite Hlk in Hk2. rewrite Hws in Hw2.
    split; [split; [done|]; split; [lia|]; by rewrite Hre; split; [lia|]|].
    split; [lia|]. split; [lia|done].
  - change (io (set_io e2 s1)) with e2. by rewrite Hwr, Htr.
Qed.

Lemma eth_frames_delivered LS padding junk p frames rest : forall q mem s,
  peers s !! p = Some q -> rio_wf (p_rio q) -> self s ∉ cancelled s ->
  Forall frame_ok frames -> eth_ready frames (io s) ->
  unread (p_rio q, io s) = wire frames ++ rest ->
  exists s' mem' rp,
    (forall more, eth_handler LS padding junk (length frames + more) p mem s
                  = eth_handler LS padding junk more p mem' s')
    /\ peers s' = <[p := with_rio rp q]> (peers s) /\ unread (rp, io s') = rest
    /\ written (fd (rio_tap s)) (trace (io s'))
       = written (fd (rio_tap s)) (trace (io s)) ++ concat frames
    /\ hash_table s' = hash_table s /\ locks s' = locks s.
Proof using Type.
  induction frames as [|frame frames IH]; intros q mem s Hq Hwf Hself Fs Hrdy Hu.
  { exists s, mem, (p_rio q). split; [done|]. split; [|split; [done|by rewrite app_nil_r]].
    rewrite insert_id; [done|]. rewrite Hq. by destruct q. }
  apply Forall_cons in Fs as [Hok Fs]. unfold wire in Hu. cbn [map concat] in Hu.
  rewrite <- app_assoc in Hu.
  destruct (eth_frame_delivered LS padding junk p q mem frame frames _ s Hq Hwf Hself Hok Hrdy Hu)
    as (s1 & mem1 & rp1 & Hrun & Hp1 & Hwf1 & Hu1 & Hr1 & Hwr1 & Ht1 & Hl1 & Htap & Hse & Hca).
  destruct (IH (with_rio rp1 q) mem1 s1) as (s2 & mem2 & rp2 & Hrun2 & Hp2 & Hu2 & Hwr2 & Ht2 & Hl2);
    [by rewrite Hp1, lookup_insert_eq|done|by rewrite Hse, Hca|done|done|exact Hu1|].
  exists s2, mem2, rp2. split; [|split; [|split; [done|split; [|by rewrite Ht2, Hl2]]]].
  - intros more. cbn [length plus eth_handler]. by erewrite bind_ret_l by exact Hrun.
  - rewrite Hp2, Hp1, insert_insert_eq. done.
  - rewrite Htap, Hwr1, <- app_assoc in Hwr2. exact Hwr2.
Qed.

(** ** Properties *)

(** C10: Frames cross the network.  A proxy whose tap device delivers frames, one
    after the other, sends to every member, in order, those that are broadcast
    and those whose lookup key ([unicast_key]: the bytes of the frame from the
    third on, not its destination) is the member's address; it drops the others,
    and nothing else goes to the members or elsewhere.  When the reader of
    another proxy finds on its connection the bytes that the first one wrote to
    a member, it writes exactly these frames, in order, to its own tap device,
    takes no byte that follows them, and leaves table and lock alone.  Both hold
    when no system call fails and every [read] of the tap device gives one
    frame, however the kernels split the other reads and the writes; after as
    many passes as there are frames, both threads go on. *)
Theorem frames_cross LS padding junk frames s :
  let t := hash_table s in
  locks s = lock_init -> world_ok s -> connected (peers s) t -> frames_waiting frames s ->
  sends_ready (length frames * length t) (tap_calls (length t) frames) (io s) ->
  exists s', (forall more, tap_handler (length frames + more) s = tap_handler more s')
    /\ hash_table s' = t /\ peers s' = peers s /\ locks s' = lock_init
    /\ (forall f, (forall x, x ∈ t -> peer_fd (peers s) x <> Some f) ->
         written f (trace (io s')) = written f (trace (io s)))
    /\ forall x f k, x ∈ t -> peer_fd (peers s) x = Some f -> peer_mac (peers s) x = Some k ->
       let frames' := filter (addressed k) frames in
       exists sent, written f (trace (io s')) = written f (trace (io s)) ++ sent
       /\ forall r p q mem rest,
            peers r !! p = Some q -> rio_wf (p_rio q) -> self r ∉ cancelled r ->
            eth_ready frames' (io r) -> unread (p_rio q, io r) = sent ++ rest ->
            exists r' mem' rp,
              (forall more, eth_handler LS padding junk (length frames' + more) p mem r
                            = eth_handler LS padding junk more p mem' r')
              /\ peers r' = <[p := with_rio rp q]> (peers r) /\ unread (rp, io r') = rest
              /\ written (fd (rio_tap r)) (trace (io r'))
                 = written (fd (rio_tap r)) (trace (io r)) ++ concat frames'
              /\ hash_table r' = hash_table r /\ locks r' = locks r.
Proof using Type.
  intros t Hl Hok Hcon Hw Hrdy.
  destruct (tap_frames_sent frames s Hl Hok Hcon Hw Hrdy)
    as (s' & Hrun & [Hin Hout] & Ht & Hp & Hl').
  exists s'. do 5 (split; [done|]). intros x f k Hx Hf Hk frames'. exists (wire frames').
  split; [by apply Hin with x|]. intros r p q mem rest Hq Hwf Hself Hr Hu.
  apply eth_frames_delivered; [done..| |done|done].
  apply Forall_forall. intros frame [_ Hframe]%list_elem_of_filter.
  by apply (proj1 (Forall_forall _ _) (proj1 Hw)).
Qed.

End Tunnel.

(** ** Witness, on a 64-bit host *)

#[local] Instance example_tunnel_abi : ABI := LP64.

(** A frame for everybody, one whose lookup key is the address of member [1], and
    one whose destination is, which is dropped. *)
Definition keyed_frame : bytes :=
  [Init.Byte.x07; Init.Byte.x07] ++ mac_bytes (mac_n Init.Byte.x01) ++ mac_bytes (mac_n Init.Byte.x07)
    ++ [Init.Byte.x2a].

Definition three_frames : list bytes :=
  [example_frame BROADCAST_ADDR; keyed_frame; example_frame (mac_n Init.Byte.x01)].
Definition two_frames : list bytes := [example_frame BROADCAST_ADDR; keyed_frame].

Lemma two_of_three : filter (addressed (mac_n Init.Byte.x01)) three_frames = two_frames.
Proof. vm_compute. reflexivity. Qed.

Lemma three_frames_ok : Forall frame_ok three_frames.
Proof.
  unfold three_frames, keyed_frame, example_frame, frame_ok, ETH_FRAME_LEN.
  repeat (apply Forall_cons; split; [cbn; split; lia|]). apply Forall_nil_2.
Qed.

(** The proxy of [example_world] with the frames on its tap device. *)
Definition sending_world : world :=
  let e := io example_world in
  set_io (set_polls (polls e ++ polls e) (set_writes (writes e ++ writes e)
    (set_reads (map (fun f => RdData (length f)) three_frames)
      (set_input {[ 4 := concat three_frames ]} e)))) example_world.

(** Member [1] gets two of the frames; it is a proxy like the sender, whose
    reader finds them on the connection. *)
Lemma frames_cross_witness :
  exists s', tap_handler 3 sending_world = (Starved, s')
    /\ written 5 (trace (io s')) = wire two_frames
    /\ exists r' mem rp,
         eth_handler (fun _ => ret 0) [] (fun n => replicate n Init.Byte.x00) 2 1%positive []
           (reader_world 51 (wire two_frames)) = (Starved, r')
         /\ peers r' = <[1%positive := with_rio rp mem]> (peers example_world)
         /\ written 4 (trace (io r')) = concat two_frames.
Proof.
  destruct (frames_cross (fun _ => ret 0) [] (fun n => replicate n Init.Byte.x00) three_frames
    sending_world) as (s' & Hrun & _ & _ & _ & _ & Hall).
  - reflexivity.
  - exact example_world_ok.
  - exact example_world_connected.
  - split; [|split; [discriminate|split]].
    + exact three_frames_ok.
    + exists []. by rewrite app_nil_r.
    + exists []. by rewrite app_nil_r.
  - split; [split; [discriminate|split; by repeat constructor]|].
    split; [vm_compute; lia|]. split; [vm_compute; lia|]. split; [vm_compute; lia|].
    apply Forall_app. split; apply example_accepting.
  - exists s'. split; [exact (Hrun 0%nat)|].
    destruct (Hall 1%positive 5 (mac_n Init.Byte.x01)) as (sent & Hs & Hr);
      [apply list_elem_of_here|reflexivity|reflexivity|].
    rewrite two_of_three in Hr. assert (sent = wire two_frames) as ->.
    { pose proof (f_equal (fun x => written 5 (trace (io x.2))) (Hrun 0%nat)) as E.
      cbn [snd tap_handler fail] in E. rewrite Hs in E. symmetry. vm_compute in E. exact E. }
    split; [rewrite Hs; reflexivity|].
    destruct (Hr (reader_world 51 (wire two_frames)) 1%positive (example_peer 5 Init.Byte.x01) [] [])
      as (r' & mem' & rp & H1 & H2 & _ & H3 & _).
    + reflexivity.
    + apply example_rio_wf.
    + apply not_elem_of_nil.
    + split; [apply reader_world_ready; vm_compute; lia|]. split; [vm_compute; lia|].
      split; [vm_compute; lia|apply example_accepting].
    + by rewrite app_nil_r.
    + exists r', (example_peer 5 Init.Byte.x01), rp. split; [exact (H1 0%nat)|].
      split; [exact H2|exact H3].
Defined.
