(* ===== verification/Departure.v ===== *)
(** * A departure across a connection (src/handlers.c, 86-207 and 275-304)

    [leave_handler] of one proxy composed with a pass of the reader thread that
    another has for it: the packet that says good-bye takes the sender out of
    the membership of its neighbour and ends the thread. *)

From S2P Require Export Tunnel.

Section Departure.
Context `{ABI}.

(** The bytes of the leave packet, and those that the announced length covers. *)
Definition leave_bytes (s : world) : bytes :=
  enc c_leave_packet (leave_message (linkState s) (timestamp s)).

Definition leave_data (l : link_state) (ts : timespec) : bytes :=
  take (Z.to_nat QUIT_LEN) (enc c_leave (lv (leave_message l ts))).

Lemma leave_data_length l ts : length (leave_data l ts) = 20%nat.
Proof using Type.
  unfold leave_data. rewrite length_take, enc_length. cbn. unfold long_size. by destruct abi.
Qed.

(** The address of the sender is inside of the announced length. *)
Lemma leave_data_mac l ts : load c_mac (leave_data l ts) tapMAC_offset = Some (tapMAC l).
Proof using Type.
  unfold leave_data. cbn [c_leave c_struct c_pair enc leave_message lv fst snd localIP
    localListenPort localMAC]. set (ip := enc (c_uint 4) _). set (port := enc (c_uint 2) _).
  assert (length ip = 4%nat) as Hi by done. assert (length port = 2%nat) as Ho by done.
  assert (length (enc c_mac (tapMAC l)) = 6%nat) as Hm by (by rewrite enc_length).
  change (Z.to_nat QUIT_LEN) with 20%nat. rewrite !take_app_ge by (rewrite ?Hi, ?Ho, ?Hm; lia).
  rewrite app_assoc. apply load_app_at; [apply _|exact I|]. by rewrite length_app, Hi, Ho.
Qed.

Lemma leave_bytes_packet s : exists junk,
  leave_bytes s = packet_bytes LEAVE (leave_data (linkState s) (timestamp s)) ++ junk.
Proof using Type.
  pose proof (leave_packet_framing (linkState s) (timestamp s)) as [E _]. eexists. exact E.
Qed.

(** A pass of the reader of a member whose leave packet is next. *)
Lemma leave_received LS padding junk p q mem l ts rest m s :
  world_ok s -> locks s = lock_init -> p ∈ hash_table s -> peers s !! p = Some q ->
  tapMAC (p_ls q) = tapMAC l -> rio_wf (p_rio q) ->
  self s = p_tid q -> self s ∉ cancelled s -> reads_ready (24 + m) (io s) ->
  unread (p_rio q, io s) = packet_bytes LEAVE (leave_data l ts) ++ rest ->
  exists s', eth_iteration LS padding junk p mem s = (Cancelled, s')
    /\ world_ok s' /\ locks s' = lock_init
    /\ hash_table s' = filter (fun x => x <> p) (hash_table s)
    /\ peers s' = delete p (peers s).
Proof using Type.
  intros Hok Hl Hin Hq Hk Hwf Hself Hcan Hrdy Hu.
  destruct (eth_iteration_run LS padding junk p q mem LEAVE (leave_data l ts) rest m s)
    as (rp & e & -> & _); try done.
  { rewrite leave_data_length. lia. }
  { rewrite leave_data_length. exact Hrdy. }
  set (s1 := set_peers _ _).
  assert (peers s1 !! p = Some (with_rio rp q)) as Hq1 by apply lookup_insert_eq.
  assert (world_ok s1) as Hok1.
  { apply (table_ok_mono (peers s)); [|exact Hok]. intros x Hx. unfold peer_mac. cbn [s1 set_peers peers].
    destruct (decide (x = p)) as [->|Hn].
    - rewrite lookup_insert_eq, Hq. split; [done|by eexists].
    - rewrite lookup_insert_ne by done. split; [done|]. by apply (proj1 (proj2 Hok)). }
  pose proof (Leave_run _ _ s1 Hok1 Hl (leave_data_mac l ts)) as Hrun.
  rewrite (find_key_member (peers s1) (hash_table s1) p) in Hrun;
    [|exact Hok1|exact Hin|by rewrite (peer_mac_live _ _ _ Hq1); f_equal].
  destruct Hrun as (q' & _ & Hq' & _ & Hrun). rewrite Hq1 in Hq'. injection Hq' as <-.
  eexists. split; [|split; [|split; [|split]]].
  - unfold eth_body. rewrite decide_False.
    2: { intros E. pose proof (leave_data_length l ts) as Hlen. by rewrite E in Hlen. }
    erewrite bind_ret_l.
    2: { unfold dispatch. cbn [Z.eqb LEAVE DATA Pos.eqb]. erewrite bind_ret_l; [reflexivity|exact Hrun]. }
    cbv beta iota. change (0 <? 0) with false. cbv iota. unfold bind, pthread_testcancel.
    rewrite bool_decide_eq_true_2; [reflexivity|]. cbn [forget self cancelled s1 set_peers].
    change (self (set_io e s)) with (self s). rewrite Hself. apply list_elem_of_here.
  - by apply table_ok_remove.
  - exact Hl.
  - reflexivity.
  - cbn [forget peers s1 set_peers]. by rewrite delete_insert_eq.
Qed.

(** ** Properties *)

(** C11: A proxy that leaves is forgotten.  [leave_handler] writes the leave
    packet to every member, to nobody else, and exits; when the reader that a
    neighbour has for this proxy finds the packet on its connection, one pass
    removes exactly this member, keeps the table well-formed and the lock free,
    and ends with the cancellation of the thread, on both data models and
    whatever follows on the connection. *)
Theorem departure_crosses LS padding junk s :
  connected (peers s) (hash_table s) ->
  writes_ready (length (hash_table s)) (length (leave_bytes s)) (io s) ->
  exists s', leave_handler s = (Exit 0, s') /\ hash_table s' = []
    /\ (forall f, (forall x, x ∈ hash_table s -> peer_fd (peers s) x <> Some f) ->
         written f (trace (io s')) = written f (trace (io s)))
    /\ forall x f, x ∈ hash_table s -> peer_fd (peers s) x = Some f ->
       exists sent, written f (trace (io s')) = written f (trace (io s)) ++ sent
       /\ forall r p q mem rest m,
            world_ok r -> locks r = lock_init -> p ∈ hash_table r -> peers r !! p = Some q ->
            tapMAC (p_ls q) = tapMAC (linkState s) -> rio_wf (p_rio q) ->
            self r = p_tid q -> self r ∉ cancelled r -> reads_ready (24 + m) (io r) ->
            unread (p_rio q, io r) = sent ++ rest ->
            exists r', eth_iteration LS padding junk p mem r = (Cancelled, r')
              /\ world_ok r' /\ locks r' = lock_init
              /\ hash_table r' = filter (fun x => x <> p) (hash_table r)
              /\ peers r' = delete p (peers r).
Proof using Type.
  intros Hcon Hrdy.
  destruct (leave_handler_run s Hcon Hrdy) as (s' & Hrun & [Hin Hout] & Ht & _).
  exists s'. do 3 (split; [done|]). intros x f Hx Hf. exists (leave_bytes s).
  split; [by apply Hin with x|]. intros r p q mem rest m Hok Hl Hp Hq Hk Hwf Hself Hcan Hr Hu.
  destruct (leave_bytes_packet s) as [more E]. rewrite E, <- app_assoc in Hu.
  by apply (leave_received LS padding junk p q mem (linkState s) (timestamp s) (more ++ rest) m).
Qed.

End Departure.

(** ** Witness, on a 64-bit host *)

#[local] Instance example_departure_abi : ABI := LP64.

(** The proxy of [example_world], under the address that its member [1] has. *)
Definition leaving_world : world := set_linkState (p_ls (example_peer 5 Init.Byte.x01)) example_world.

Lemma departure_crosses_witness :
  exists s', leave_handler leaving_world = (Exit 0, s') /\
    exists r', eth_iteration (fun _ => ret 0) [] (fun n => replicate n Init.Byte.x00)
                 1%positive [] (reader_world 51 (leave_bytes leaving_world)) = (Cancelled, r')
      /\ hash_table r' = [2%positive].
Proof.
  destruct (departure_crosses (fun _ => ret 0) [] (fun n => replicate n Init.Byte.x00) leaving_world)
    as (s' & Hrun & _ & _ & Hall).
  - exact example_world_connected.
  - split; [exact example_calm|]. split; [vm_compute; lia|]. split; [vm_compute; lia|].
    split; [vm_compute; lia|apply example_accepting].
  - exists s'. split; [exact Hrun|].
    destruct (Hall 1%positive 5) as (sent & Hs & Hr); [apply list_elem_of_here|reflexivity|].
    assert (sent = leave_bytes leaving_world) as ->.
    { pose proof (f_equal (fun x => written 5 (trace (io x.2))) Hrun) as E.
      cbn [snd] in E. rewrite Hs in E. symmetry. vm_compute in E. vm_compute. exact E. }
    destruct (Hr (reader_world 51 (leave_bytes leaving_world)) 1%positive
      (example_peer 5 Init.Byte.x01) [] [] 0%nat) as (r' & H1 & _ & _ & H2 & _).
    + exact example_world_ok.
    + reflexivity.
    + apply list_elem_of_here.
    + reflexivity.
    + reflexivity.
    + apply example_rio_wf.
    + reflexivity.
    + apply not_elem_of_nil.
    + apply reader_world_ready. lia.
    + by rewrite app_nil_r.
    + exists r'. split; [exact H1|exact H2].
Defined.
