(* ===== verification/Races.v ===== *)
(** * Two threads that remove the same peer (src/handlers.c, 86-273; src/proxy.c,
    506-517 and 604-631)

    In [System] every pass runs alone.  Here two of them overlap: the reader
    and the timer of a member have both decided to remove it, and each waits in
    [writeBegin], which is not a cancellation point, for the other one to leave
    the write section.  The lock keeps the sections apart, but the second one
    uses the peer that the first one has freed. *)

From S2P Require Export Departure.

(** ** The timer in two parts *)

(** Up to the write section (212-265). *)
Definition timeout_wait `{ABI} (pp : loc) : M world unit :=
  let* now := in_io clock_gettime in
  let* c := gets config in
  timeout_lock pp ;;;
  let* n := gets (fun s => length (waits (io s))) in
  timeout_loop (S n) (deadline (link_timeout c) now) pp ;;;
  timeout_unlock pp ;;;
  pthread_testcancel.

(** The write section (266-271). *)
Definition timeout_remove (pp : loc) : M world unit :=
  writeBegin ;;;
  hash_del pp ;;;
  close_peer pp ;;;
  let* q := peer pp in
  pthread_cancel (p_tid q) ;;;
  free_peer pp ;;;
  writeEnd.

Lemma timeout_handler_parts `{ABI} pp s :
  timeout_handler pp s = (timeout_wait pp ;;; timeout_remove pp) s.
Proof.
  unfold timeout_handler, timeout_wait. rewrite !bind_assoc.
  apply bind_ext. intros now s1. rewrite bind_assoc. apply bind_ext. intros c s2.
  rewrite bind_assoc. apply bind_ext. intros _ s3. rewrite bind_assoc. apply bind_ext. intros n s4.
  rewrite bind_assoc. apply bind_ext. intros _ s5. by rewrite bind_assoc.
Qed.

(** ** The removals of a member *)

(** The removals of the peer at [p] by its reader and by its timer. *)
Definition removals (p : loc) : list (M world unit) := [remove_member (Some p); timeout_remove p].

Lemma timeout_remove_run p q s :
  locks s = lock_init -> peers s !! p = Some q -> p ∈ hash_table s ->
  exists s', timeout_remove p s = (Ret tt, s') /\ locks s' = lock_init
    /\ hash_table s' = filter (fun x => x <> p) (hash_table s) /\ peers s' = delete p (peers s).
Proof.
  intros Hl Hq Hin. unfold timeout_remove.
  erewrite bind_ret_l by (by apply writeBegin_free).
  erewrite bind_ret_l by (apply hash_del_member; [by exists q|done]).
  erewrite bind_ret_l by (by apply (close_peer_run p q)).
  erewrite bind_ret_l by (by apply (peer_live p q)).
  erewrite bind_ret_l by apply pthread_cancel_run.
  erewrite bind_ret_l by (eapply free_peer_run; done).
  rewrite writeEnd_writing by done. by eexists.
Qed.

Lemma removal_runs p q s m :
  world_ok s -> locks s = lock_init -> p ∈ hash_table s -> peers s !! p = Some q ->
  m ∈ removals p ->
  exists s', m s = (Ret tt, s') /\ world_ok s' /\ locks s' = lock_init
    /\ hash_table s' = filter (fun x => x <> p) (hash_table s) /\ peers s' = delete p (peers s).
Proof.
  intros Hok Hl Hin Hq Hm.
  assert (exists s', m s = (Ret tt, s') /\ locks s' = lock_init
    /\ hash_table s' = filter (fun x => x <> p) (hash_table s) /\ peers s' = delete p (peers s))
    as (s' & R & Hl' & Ht & Hp).
  { apply elem_of_cons in Hm as [->| ->%list_elem_of_singleton].
    - eexists. split; [by apply (remove_member_member s p q)|done].
    - by apply (timeout_remove_run p q). }
  exists s'. split; [done|]. split; [|done]. unfold world_ok. rewrite Ht, Hp. by apply table_ok_remove.
Qed.

(** With the peer freed, both go wrong in their first access to it. *)
Lemma removal_of_freed p s m :
  locks s = lock_init -> peers s !! p = None -> m ∈ removals p -> (m s).1 = Undefined.
Proof.
  intros Hl Hp Hm. apply elem_of_cons in Hm as [->| ->%list_elem_of_singleton].
  all: unfold remove_member, timeout_remove;
    erewrite bind_ret_l by (by apply writeBegin_free).
  all: unfold hash_del, peer, bind; cbn [set_locks peers]; by rewrite Hp.
Qed.

(** ** Property *)

(** C30: The lock does not protect a peer from being removed twice.  Both the
    reader and the timer of a member, when they remove it alone, leave a
    well-formed table, a free lock and the peer freed; if another thread, the
    timer or a reader with a leave packet of the same member, has been waiting
    for the lock meanwhile, its own removal then reads the freed peer.  The
    comment above the lock says that the lock is outside of the peers because of
    this danger. *)
Theorem removal_races p q s first second :
  world_ok s -> locks s = lock_init -> p ∈ hash_table s -> peers s !! p = Some q ->
  first ∈ removals p -> second ∈ removals p ->
  exists s1, first s = (Ret tt, s1)
    /\ world_ok s1 /\ locks s1 = lock_init
    /\ hash_table s1 = filter (fun x => x <> p) (hash_table s)
    /\ peers s1 = delete p (peers s)
    /\ (second s1).1 = Undefined.
Proof.
  intros Hok Hl Hin Hq Hf Hs.
  destruct (removal_runs p q s first Hok Hl Hin Hq Hf) as (s1 & R & Hok1 & Hl1 & Ht1 & Hp1).
  exists s1. do 5 (split; [done|]). apply (removal_of_freed p); [done| |done].
  rewrite Hp1. apply lookup_delete_eq.
Qed.

(** The timer of member [1] waits while its reader removes it. *)
Lemma removal_races_witness :
  exists s1, remove_member (Some 1%positive) example_world = (Ret tt, s1)
    /\ (timeout_remove 1%positive s1).1 = Undefined.
Proof.
  destruct (removal_races 1%positive (example_peer 5 Init.Byte.x01) example_world
    (remove_member (Some 1%positive)) (timeout_remove 1%positive))
    as (s1 & H1 & _ & _ & _ & _ & H2).
  - exact example_world_ok.
  - reflexivity.
  - apply list_elem_of_here.
  - reflexivity.
  - apply list_elem_of_here.
  - apply list_elem_of_further, list_elem_of_here.
  - exists s1. split; [exact H1|exact H2].
Defined.
