(* ===== verification/LinkState.v ===== *)
(** * Link-state packets (src/proxy.c, 341-410; src/handlers.c, 306-434)

    The periodic broadcast builds one packet with the records of the edges
    between this proxy and its neighbours and between any two neighbours, sends
    it to every member and then probes every link; the handler of the packet
    refreshes the timestamps of the members its records name.  Packets are
    built and read through a moving pointer, with every access checked against
    the size of the allocated buffer. *)

From S2P Require Export Handlers.

Section LinkState.
Context `{ABI}.

Definition record_size : nat := sizeof c_link_state_record.

(** ** Receiving *)

(** The fields of the packet at the pointer: reading a [T] at an offset. *)
Definition field {A} (c : codec A) (mem : bytes) (off : nat) : M world A :=
  fun s => deref (load c mem off) s.

(** [2*sizeof(N)+sizeof(link_state)+(N*N+N)*sizeof(link_state_record)!=length]
    (proxy.c, 352-355), the sum being of type [size_t].  [N*N+N] is computed
    as an [int] and must not overflow. *)
Definition length_ok (N len : Z) : bool :=
  to_size (2 * 2 + Z.of_nat (sizeof c_link_state)
           + (N * N + N) * Z.of_nat record_size) =? len.

(** A record about another proxy than this one: its timestamp is copied to the
    member with that address (388-406).  If there is none, the connection
    information is taken from the beginning of the record, and the result of
    [connectbyaddr] is dereferenced. *)
Definition Link_State_record (data : bytes) (ptr : nat) : M world unit :=
  let mac_at := (ptr + sizeof c_timespec + tapMAC_offset)%nat in
  let* k := field c_mac data mac_at in
  let* own := gets linkState in
  if decide (k = tapMAC own) then ret tt
  else
    let* pp := hash_find_at data mac_at in
    match pp with
    | None =>
        let* addr := field (c_uint 4) data ptr in
        let* port := field (c_uint 2) data (ptr + 4) in
        let* pp := connectbyaddr addr (ntohs port) in
        let* now := in_io clock_gettime in
        match pp with
        | None => fail Undefined
        | Some pp => let* q := peer pp in set_peer pp (with_timestamp now q)
        end
    | Some pp =>
        timeout_lock pp ;;;
        let* id := field c_timespec data ptr in
        let* q := peer pp in
        set_peer pp (with_timestamp
          (Timespec (to_long (ntohl (tv_sec id))) (to_long (ntohl (tv_nsec id)))) q) ;;;
        timeout_unlock pp
    end.

(** The loop on the records (378-407). *)
Fixpoint Link_State_records (n : nat) (data : bytes) (ptr : nat) : M world unit :=
  match n with
  | O => ret tt
  | S n =>
      Link_State_record data ptr ;;;
      Link_State_records n data (ptr + record_size)
  end.

(** [Link_State] (proxy.c, 341-410); the loop counter is a [uint16_t]. *)
Definition Link_State (data : bytes) : M world Z :=
  let* n := field (c_uint 2) data 0 in
  let N := ntohs n in
  if negb (N * N + N <? 2 ^ 31) then fail Undefined
  else if negb (length_ok N (Z.of_nat (length data))) then ret (-1)
  else
    let ptr := 2%nat in
    let* k := field c_mac data (ptr + tapMAC_offset) in
    let* own := gets linkState in
    if decide (k = tapMAC own) then ret 0
    else
      writeBegin ;;;
      let* pp := hash_find_at data (ptr + tapMAC_offset) in
      (match pp with
       | None =>
           let* addr := field (c_uint 4) data ptr in
           let* port := field (c_uint 2) data (ptr + 4) in
           connectbyaddr addr (ntohs port) ;;; ret tt
       | Some _ => ret tt
       end) ;;;
      let ptr := (ptr + sizeof c_link_state_source)%nat in
      Link_State_records (Z.to_nat (u16 (N * N + N))) data ptr ;;;
      writeEnd ;;;
      ret 0.

(** ** Broadcasting *)

(** [*(T * )ptr = a; ptr += sizeof(T)], on the buffer and the pointer. *)
Definition put {A} (c : codec A) (a : A) (b : bytes * nat) : M world (bytes * nat) :=
  fun s =>
    match store c b.1 b.2 a with
    | Some mem => (Ret (mem, (b.2 + sizeof c)%nat), s)
    | None => (Undefined, s)
    end.

(** [ntohl] of a time, as it is stored in a record. *)
Definition net_time (t : timespec) : timespec :=
  Timespec (to_long (htonl (tv_sec t))) (to_long (htonl (tv_nsec t))).

Definition make_record (t : timespec) (l1 l2 : link_state) : link_state_record :=
  LinkStateRecord (net_time t) l1 l2 (float_of_int (ntohl 1)).

(** The edges from the origin to its neighbours (handlers.c, 346-353). *)
Fixpoint put_origin (t : list loc) (b : bytes * nat) : M world (bytes * nat) :=
  match t with
  | [] => ret b
  | pp :: t =>
      let* ts := gets timestamp in
      let* own := gets linkState in
      let* q := peer pp in
      let* b := put c_link_state_record (make_record ts own (p_ls q)) b in
      put_origin t b
  end.

(** The edges between a neighbour and the others (383-396). *)
Fixpoint put_others (pp : loc) (t : list loc) (b : bytes * nat) : M world (bytes * nat) :=
  match t with
  | [] => ret b
  | tmp :: t =>
      if decide (pp = tmp) then put_others pp t b
      else
        timeout_lock pp ;;;
        let* q := peer pp in
        timeout_unlock pp ;;;
        let* q' := peer tmp in
        let* b := put c_link_state_record
                    (make_record (p_timestamp q) (p_ls q) (p_ls q')) b in
        put_others pp t b
  end.

(** The edges from every neighbour, the first one to the origin (361-397).  The
    timestamp of the neighbour is written and overwritten with that of the
    origin. *)
Fixpoint put_neighbours (all t : list loc) (b : bytes * nat) : M world (bytes * nat) :=
  match t with
  | [] => ret b
  | pp :: t =>
      timeout_lock pp ;;;
      let* q := peer pp in
      let* b' := put c_timespec (net_time (p_timestamp q)) b in
      timeout_unlock pp ;;;
      let* ts := gets timestamp in
      let* own := gets linkState in
      let* q := peer pp in
      let* b := put c_link_state_record (make_record ts (p_ls q) own) (b'.1, b.2) in
      let* b := put_others pp all b in
      put_neighbours all t b
  end.

(** [prxyhdr.length] (322-324) *)
Definition broadcast_length (N : Z) : Z :=
  u16 (2 + Z.of_nat (sizeof c_link_state_source) + N * (N + 1) * Z.of_nat record_size).

(** The buffer of the packet (319-397); [junk] is what [malloc] returns. *)
Definition build_packet (junk : nat -> bytes) : M world bytes :=
  let* n := hash_count in
  let N := u16 n in
  let prxyhdr := ProxyHeader (htons LINK_STATE) (htons (broadcast_length N)) in
  let size := Z.to_nat (PROXY_HLEN + ntohs (hdr_length prxyhdr)) in
  let* b := put c_proxy_header prxyhdr (take size (junk size), 0%nat) in
  let* b := put (c_uint 2) (htons N) b in
  let* own := gets linkState in
  let* b := put c_link_state own b in
  let* b := put (c_uint 2) (htons N) b in
  let* t := gets hash_table in
  let* b := put_origin t b in
  let* b := put_neighbours t t b in
  ret b.1.

(** A member that cannot be written to is dropped (407-411 and 425-429). *)
Definition broadcast_drop (pp : loc) : M world unit :=
  let* q := peer pp in
  hash_del pp ;;;
  close_peer pp ;;;
  pthread_cancel (p_timeout_tid q) ;;;
  pthread_cancel (p_tid q) ;;;
  free_peer pp.

Definition broadcast_to (packet : bytes) (pp : loc) : M world unit :=
  let* size := peer_write pp packet in
  if size <? 0 then broadcast_drop pp else ret tt.

(** The probe of a link (418-430) *)
Definition probe_link (padding : bytes) (pp : loc) : M world unit :=
  let* now := in_io clock_gettime in
  let* q := peer pp in
  set_peer pp (with_probe_ts now q) ;;;
  let bwreq := ProbeReq (ProxyHeader (htons BANDWIDTH_PROBE_REQUEST) (htons 8))
                 (net_time now) in
  broadcast_to (take 12 (enc_probe_req padding bwreq)) pp.

(** [Link_State_Broadcast] (handlers.c, 306-434) *)
Definition Link_State_Broadcast (padding : bytes) (junk : nat -> bytes) : M world unit :=
  let* c := gets config in
  in_io (emit (EvAlarm (link_period c))) ;;;
  let* now := in_io clock_gettime in
  modify (set_timestamp now) ;;;
  let* t := gets hash_table in
  if decide (t = []) then ret tt
  else
    let* packet := build_packet junk in
    hash_iter (broadcast_to packet) ;;;
    hash_iter (probe_link padding).

(** ** The packet as a list of records *)

Definition the_peer (ps : gmap loc Peer) (p : loc) : Peer := default zero_peer (ps !! p).

(** The records of the broadcast of [own] at [ts] with the members [all]. *)
Definition origin_records (ps : gmap loc Peer) (own : link_state) (ts : timespec)
    (t : list loc) : list link_state_record :=
  map (fun p => make_record ts own (p_ls (the_peer ps p))) t.

Definition other_records (ps : gmap loc Peer) (p : loc) (t : list loc)
  : list link_state_record :=
  map (fun q => make_record (p_timestamp (the_peer ps p)) (p_ls (the_peer ps p))
                  (p_ls (the_peer ps q)))
    (filter (fun q => q <> p) t).

Definition neighbour_records (ps : gmap loc Peer) (own : link_state) (ts : timespec)
    (all t : list loc) : list link_state_record :=
  concat (map (fun p => make_record ts (p_ls (the_peer ps p)) own
                        :: other_records ps p all) t).

Definition broadcast_records (s : world) : list link_state_record :=
  let t := hash_table s in
  origin_records (peers s) (linkState s) (timestamp s) t
  ++ neighbour_records (peers s) (linkState s) (timestamp s) t t.

Definition enc_records (l : list link_state_record) : bytes :=
  concat (map (enc c_link_state_record) l).

(** The payload of a link-state packet. *)
Definition link_state_payload (N : Z) (own : link_state) (l : list link_state_record)
  : bytes :=
  enc (c_uint 2) (htons N) ++ enc c_link_state own ++ enc (c_uint 2) (htons N)
  ++ enc_records l.

Lemma enc_records_length l : length (enc_records l) = (length l * record_size)%nat.
Proof using Type.
  induction l as [|r l IH]; [done|]. unfold enc_records in *. cbn [map concat length].
  rewrite length_app, enc_length, IH. done.
Qed.

Lemma length_filter_out p (t : list loc) :
  NoDup t -> p ∈ t -> S (length (filter (fun q => q <> p) t)) = length t.
Proof using Type.
  induction 1 as [|x t Hx Hnd IH]; [by intros ?%elem_of_nil|].
  intros [->|Hp]%elem_of_cons.
  - by rewrite (filter_head x t) by (by apply NoDup_cons).
  - rewrite filter_cons_True by (by intros ->). simpl. by rewrite IH.
Qed.

Lemma broadcast_records_length s :
  NoDup (hash_table s) ->
  length (broadcast_records s)
    = (length (hash_table s) * S (length (hash_table s)))%nat.
Proof using Type.
  intros Hnd. unfold broadcast_records, origin_records. rewrite length_app, length_map.
  enough (forall t, (forall p, p ∈ t -> p ∈ hash_table s) ->
    length (neighbour_records (peers s) (linkState s) (timestamp s) (hash_table s) t)
      = (length t * length (hash_table s))%nat) as E by (rewrite E by done; lia).
  induction t as [|p t IH]; intros Hsub; [done|].
  unfold neighbour_records in *. cbn [map concat]. rewrite length_app, IH
    by (intros; by apply Hsub, list_elem_of_further).
  cbn [length]. unfold other_records. rewrite length_map.
  rewrite length_filter_out by (done || apply Hsub, list_elem_of_here). lia.
Qed.

(** ** Writing through the pointer *)

(** The stores of a list of records, one after the other. *)
Fixpoint puts (l : list link_state_record) (b : bytes * nat) : option (bytes * nat) :=
  match l with
  | [] => Some b
  | r :: l =>
      match store c_link_state_record b.1 b.2 r with
      | Some mem => puts l (mem, (b.2 + record_size)%nat)
      | None => None
      end
  end.

Lemma puts_app l1 l2 b : puts (l1 ++ l2) b = puts l1 b ≫= puts l2.
Proof using Type.
  revert b. induction l1 as [|r l1 IH]; intros b; [done|]. cbn [app puts].
  by destruct (store _ _ _ _).
Qed.

Lemma store_app {A} (c : codec A) pre rest a :
  store c (pre ++ rest) (length pre) a =
    if (sizeof c <=? length rest)%nat
    then Some (pre ++ enc c a ++ drop (sizeof c) rest) else None.
Proof using Type.
  unfold store. rewrite length_app.
  destruct (Nat.leb_spec (length pre + sizeof c) (length pre + length rest)),
    (Nat.leb_spec (sizeof c) (length rest)); try lia; [|done].
  rewrite take_app_length. do 3 f_equal.
  rewrite drop_app_ge by lia. f_equal. lia.
Qed.

(** The records fit exactly when there is room for all of them. *)
Lemma puts_fit l pre rest :
  puts l (pre ++ rest, length pre) =
    if (length l * record_size <=? length rest)%nat
    then Some (pre ++ enc_records l ++ drop (length l * record_size) rest,
               (length pre + length l * record_size)%nat)
    else None.
Proof using Type.
  revert pre rest. induction l as [|r l IH]; intros pre rest; cbn [puts length fst snd].
  - cbn. by rewrite Nat.add_0_r, drop_0.
  - rewrite store_app. fold record_size.
    destruct (Nat.leb_spec record_size (length rest)) as [Hr|Hr].
    + assert (length (enc c_link_state_record r) = record_size) as Hlen
        by apply enc_length.
      replace (length pre + record_size)%nat
        with (length (pre ++ enc c_link_state_record r))
        by (rewrite length_app; lia).
      rewrite app_assoc, IH, length_drop.
      destruct (Nat.leb_spec (length l * record_size) (length rest - record_size)),
        (Nat.leb_spec (S (length l) * record_size) (length rest)); try lia; [|done].
      unfold enc_records. cbn [map concat]. rewrite <- !app_assoc, drop_drop, length_app.
      f_equal. apply (f_equal2 pair); [|lia]. by do 3 f_equal; lia.
    + destruct (Nat.leb_spec (S (length l) * record_size) (length rest)); [lia|done].
Qed.

(** A step that stores and otherwise leaves the world alone, or that leaves its
    buffer. *)
Definition stores {A} (m : M world A) (o : option A) (s : world) : Prop :=
  exists s', m s = match o with Some a => (Ret a, s) | None => (Undefined, s') end.

Lemma stores_bind {A B} (m : M world A) (k : A -> M world B) o f s :
  stores m o s -> (forall a, o = Some a -> stores (k a) (f a) s) ->
  stores (bind m k) (o ≫= f) s.
Proof using Type.
  intros [s' Hm] Hk. unfold stores, bind. rewrite Hm. destruct o as [a|]; [|by exists s'].
  by apply Hk.
Qed.

Lemma put_stores {A} (c : codec A) a b s :
  stores (put c a b) ((fun mem => (mem, (b.2 + sizeof c)%nat)) <$> store c b.1 b.2 a) s.
Proof using Type. exists s. unfold put. by destruct (store _ _ _ _). Qed.

Lemma stores_ret_l {A B} (m : M world A) (k : A -> M world B) a o s :
  m s = (Ret a, s) -> stores (k a) o s -> stores (bind m k) o s.
Proof using Type. intros Hm Hk. unfold stores, bind. by rewrite Hm. Qed.

Lemma stores_Undefined {A} (m : M world A) s s' : m s = (Undefined, s') -> stores m None s.
Proof using Type. intros Hm. by exists s'. Qed.

(** What has been stored is overwritten by a larger structure. *)
Lemma store_over {A B} (c : codec A) (c' : codec B) `{!Lawful c} mem mem' off a b :
  (sizeof c <= sizeof c')%nat -> store c mem off a = Some mem' ->
  store c' mem' off b = store c' mem off b.
Proof using Type.
  intros Hle Hs. pose proof (store_length _ _ _ _ _ Hs) as Hlen.
  unfold store in *. destruct (Nat.leb_spec (off + sizeof c) (length mem)); [|done].
  injection Hs as <-. rewrite Hlen. destruct (Nat.leb_spec (off + sizeof c') (length mem));
    [|done]. assert (length (take off mem) = off) as Ht by (rewrite length_take; lia).
  pose proof (enc_length (c:=c) a) as He. do 2 f_equal.
  - rewrite take_app_le by lia. by rewrite take_ge by lia.
  - f_equal. rewrite drop_app_ge by lia. rewrite drop_app_ge by lia.
    rewrite drop_drop. f_equal. lia.
Qed.

(** The peers are live and their timestamps are not being used. *)
Definition unlocked (ps : gmap loc Peer) (t : list loc) : Prop :=
  forall p, p ∈ t -> exists q, ps !! p = Some q /\ p_timeout_mutex q = false.

Lemma the_peer_live ps p q : ps !! p = Some q -> the_peer ps p = q.
Proof using Type. unfold the_peer. by intros ->. Qed.

Lemma lock_unlock p q s :
  peers s !! p = Some q -> p_timeout_mutex q = false ->
  exists s1, timeout_lock p s = (Ret tt, s1)
    /\ peer p s1 = (Ret (with_timeout_mutex true q), s1)
    /\ timeout_unlock p s1 = (Ret tt, s).
Proof using Type.
  intros Hq Hm. exists (set_peers (<[p := with_timeout_mutex true q]> (peers s)) s).
  split; [unfold timeout_lock, bind; rewrite (peer_live _ _ _ Hq); by rewrite Hm|].
  assert (peers (set_peers (<[p := with_timeout_mutex true q]> (peers s)) s) !! p
    = Some (with_timeout_mutex true q)) as Hq1 by apply lookup_insert_eq.
  split; [by apply peer_live|]. unfold timeout_unlock, bind.
  rewrite (peer_live _ _ _ Hq1). unfold set_peer, modify. cbn [set_peers peers].
  rewrite insert_insert_eq. do 2 f_equal.
  replace (with_timeout_mutex false (with_timeout_mutex true q)) with q
    by (destruct q; cbn in *; by subst).
  rewrite insert_id by done. by destruct s.
Qed.

Lemma put_record_stores r l b s (k : bytes * nat -> M world (bytes * nat)) :
  (forall b, stores (k b) (puts l b) s) ->
  stores (let* b := put c_link_state_record r b in k b) (puts (r :: l) b) s.
Proof using Type.
  intros Hk. cbn [puts].
  destruct (put_stores c_link_state_record r b s) as [s' Hput].
  destruct (store c_link_state_record b.1 b.2 r) as [mem|]; cbn [fmap option_fmap option_map] in Hput.
  - eapply stores_ret_l; [exact Hput|apply Hk].
  - exists s'. unfold bind. by rewrite Hput.
Qed.

Lemma put_origin_stores t b s :
  unlocked (peers s) t ->
  stores (put_origin t b) (puts (origin_records (peers s) (linkState s) (timestamp s) t) b) s.
Proof using Type.
  revert b. induction t as [|p t IH]; intros b Hu; [by exists s|].
  destruct (Hu p (list_elem_of_here _ _)) as (q & Hq & _).
  cbn [put_origin]. eapply stores_ret_l; [reflexivity|]. eapply stores_ret_l; [reflexivity|].
  eapply stores_ret_l; [by apply peer_live|].
  cbn [origin_records map]. rewrite (the_peer_live _ _ _ Hq).
  apply put_record_stores. intros b'. apply IH.
  intros x Hx. by apply Hu, list_elem_of_further.
Qed.

Lemma put_others_stores p t b s :
  unlocked (peers s) (p :: t) ->
  stores (put_others p t b) (puts (other_records (peers s) p t) b) s.
Proof using Type.
  intros Hu. destruct (Hu p (list_elem_of_here _ _)) as (q & Hq & Hm).
  revert b. induction t as [|x t IH]; intros b; [by exists s|].
  assert (unlocked (peers s) (p :: t)) as Hu'.
  { intros y [->|Hy]%elem_of_cons; apply Hu; [apply list_elem_of_here|].
    by do 2 apply list_elem_of_further. }
  cbn [put_others]. unfold other_records. destruct (decide (p = x)) as [<-|Hn].
  - rewrite filter_cons_False by (intros E; by apply E). by apply IH.
  - rewrite filter_cons_True by congruence. cbn [map].
    destruct (Hu x) as (q' & Hq' & _); [apply list_elem_of_further, list_elem_of_here|].
    destruct (lock_unlock p q s Hq Hm) as (s1 & E1 & E2 & E3).
    eenough (stores _ _ s) as [s' Hs'].
    { exists s'. unfold bind at 1. rewrite E1. unfold bind at 1. rewrite E2.
      unfold bind at 1. rewrite E3. exact Hs'. }
    eapply stores_ret_l; [by apply peer_live|].
    cbn [with_timeout_mutex p_timestamp p_ls].
    rewrite (the_peer_live _ _ _ Hq), (the_peer_live _ _ _ Hq').
    apply put_record_stores. intros b'. rewrite <- (the_peer_live _ _ _ Hq). by apply IH.
Qed.

Lemma record_size_ge : (sizeof c_timespec <= sizeof c_link_state_record)%nat.
Proof using Type. cbn. lia. Qed.

Lemma put_neighbours_stores all t b s :
  unlocked (peers s) all -> (forall p, p ∈ t -> p ∈ all) ->
  stores (put_neighbours all t b)
    (puts (neighbour_records (peers s) (linkState s) (timestamp s) all t) b) s.
Proof using Type.
  intros Hu. revert b. induction t as [|p t IH]; intros b Hsub; [by exists s|].
  destruct (Hu p (Hsub p (list_elem_of_here _ _))) as (q & Hq & Hm).
  destruct (lock_unlock p q s Hq Hm) as (s1 & E1 & E2 & E3).
  unfold neighbour_records. cbn [put_neighbours map concat].
  rewrite (the_peer_live _ _ _ Hq).
  destruct (store c_timespec b.1 b.2 (net_time (p_timestamp q))) as [mem|] eqn:Es.
  - assert (put c_timespec (net_time (p_timestamp q)) b s1
      = (Ret (mem, (b.2 + sizeof c_timespec)%nat), s1)) as Hp1 by (unfold put; by rewrite Es).
    assert (forall r, store c_link_state_record mem b.2 r
      = store c_link_state_record b.1 b.2 r) as Hover.
    { intros r. eapply (store_over c_timespec); [apply _|apply record_size_ge|exact Es]. }
    eenough (stores _ _ s) as [s' Hs'].
    { exists s'. unfold bind at 1. rewrite E1. unfold bind at 1. rewrite E2.
      unfold bind at 1. cbn [with_timeout_mutex p_timestamp]. rewrite Hp1.
      unfold bind at 1. rewrite E3. exact Hs'. }
    eapply stores_ret_l; [reflexivity|]. eapply stores_ret_l; [reflexivity|].
    eapply stores_ret_l; [by apply peer_live|]. cbn [fst snd app].
    set (r := make_record _ _ _).
    assert (forall l, puts (r :: l) (mem, b.2) = puts (r :: l) b) as Hpe.
    { intros l. cbn [puts fst snd]. by rewrite Hover. }
    rewrite <- Hpe. apply put_record_stores. intros b'.
    rewrite puts_app. apply stores_bind.
    + apply put_others_stores. intros x [->|Hx]%elem_of_cons; [by exists q|by apply Hu].
    + intros b2 _. apply IH. intros x Hx. by apply Hsub, list_elem_of_further.
  - cbn [app puts].
    replace (store c_link_state_record b.1 b.2 _) with (@None bytes).
    + eapply stores_Undefined. unfold bind at 1. rewrite E1. unfold bind at 1. rewrite E2.
      unfold bind at 1. cbn [with_timeout_mutex p_timestamp]. unfold put at 1.
      rewrite Es. reflexivity.
    + pose proof record_size_ge. unfold store in Es |- *.
      destruct (Nat.leb_spec (b.2 + sizeof c_timespec) (length b.1)); [done|].
      destruct (Nat.leb_spec (b.2 + sizeof c_link_state_record) (length b.1)); [lia|done].
Qed.

(** The header of the packet and its three fields, in a buffer long enough. *)
Definition packet_header (N : Z) (own : link_state) : bytes :=
  enc c_proxy_header (ProxyHeader (htons LINK_STATE) (htons (broadcast_length N)))
  ++ enc (c_uint 2) (htons N) ++ enc c_link_state own ++ enc (c_uint 2) (htons N).

Lemma packet_header_length N own : length (packet_header N own) = 26%nat.
Proof using Type. reflexivity. Qed.

Lemma put_app {A} (c : codec A) `{!Lawful c} pre rest a s :
  (sizeof c <= length rest)%nat ->
  put c a (pre ++ rest, length pre) s
    = (Ret ((pre ++ enc c a) ++ drop (sizeof c) rest, length (pre ++ enc c a)), s).
Proof using Type.
  intros Hl. unfold put. cbn [fst snd]. rewrite store_app, (proj2 (Nat.leb_le _ _) Hl).
  by rewrite <- app_assoc, length_app, enc_length.
Qed.

Lemma put_header {C} N own mem (k : bytes * nat -> M world C) s :
  own = linkState s -> (26 <= length mem)%nat ->
  (let* b := put c_proxy_header
     (ProxyHeader (htons LINK_STATE) (htons (broadcast_length N))) (mem, 0%nat) in
   let* b := put (c_uint 2) (htons N) b in
   let* own := gets linkState in
   let* b := put c_link_state own b in
   let* b := put (c_uint 2) (htons N) b in k b) s
  = k (packet_header N own ++ drop 26 mem, 26%nat) s.
Proof using Type.
  intros Hown Hl. set (h := ProxyHeader _ _).
  erewrite bind_ret_l by (apply (put_app c_proxy_header [] mem); simpl; lia).
  erewrite bind_ret_l by (apply put_app; [apply _|rewrite !length_drop; cbn -[Nat.sub length]; unfold ETH_ALEN; lia]).
  unfold gets at 1, bind at 1. rewrite <- Hown.
  erewrite bind_ret_l by (apply put_app; [apply _|rewrite !length_drop; cbn -[Nat.sub length]; unfold ETH_ALEN; lia]).
  erewrite bind_ret_l by (apply put_app; [apply _|rewrite !length_drop; cbn -[Nat.sub length]; unfold ETH_ALEN; lia]).
  rewrite !drop_drop, app_nil_l. by rewrite <- !app_assoc.
Qed.

(** The bytes after the header of a broadcast with [n] members. *)
Definition payload_size (n : nat) : nat := (22 + n * S n * record_size)%nat.

(** The members whose packet fits the length field. *)
Definition broadcast_capacity : nat := match abi with ILP32 => 36 | LP64 => 33 end.

Lemma payload_fits n :
  Z.of_nat (payload_size n) < 2 ^ 16 <-> (n <= broadcast_capacity)%nat.
Proof using Type.
  unfold payload_size, broadcast_capacity, record_size.
  cbn [c_link_state_record c_timespec c_link_state c_struct c_pair c_float c_long c_uint
    c_mac sizeof].
  unfold ETH_ALEN, long_size. destruct abi; nia.
Qed.

Lemma put_outcome {A} (c : codec A) `{!Lawful c} a b s :
  put c a b s = (Undefined, s)
  \/ exists mem, put c a b s = (Ret (mem, (b.2 + sizeof c)%nat), s)
       /\ length mem = length b.1 /\ (b.2 + sizeof c <= length b.1)%nat.
Proof using Type.
  unfold put. destruct (store c b.1 b.2 a) as [mem|] eqn:E; [right|by left].
  exists mem. split; [done|]. split; [by eapply store_length|].
  unfold store in E. by destruct (Nat.leb_spec (b.2 + sizeof c) (length b.1)).
Qed.

Lemma put_header_short {C} N own mem (k : bytes * nat -> M world C) s :
  own = linkState s -> (length mem < 26)%nat ->
  (let* b := put c_proxy_header
     (ProxyHeader (htons LINK_STATE) (htons (broadcast_length N))) (mem, 0%nat) in
   let* b := put (c_uint 2) (htons N) b in
   let* own := gets linkState in
   let* b := put c_link_state own b in
   let* b := put (c_uint 2) (htons N) b in k b) s = (Undefined, s).
Proof using Type.
  intros -> Hl. set (h := ProxyHeader _ _). unfold gets, bind.
  destruct (put_outcome c_proxy_header h (mem, 0%nat) s) as [->|(m1 & -> & L1 & _)]; [done|].
  match goal with |- context [put (c_uint 2) (htons N) ?b s] =>
    destruct (put_outcome (c_uint 2) (htons N) b s) as [->|(m2 & -> & L2 & _)]; [done|] end.
  match goal with |- context [put c_link_state ?own ?b s] =>
    destruct (put_outcome c_link_state own b s) as [->|(m3 & -> & L3 & _)]; [done|] end.
  match goal with |- context [put (c_uint 2) (htons N) ?b s] =>
    destruct (put_outcome (c_uint 2) (htons N) b s) as [->|(m4 & -> & L4 & Hb)]; [done|] end.
  cbn [fst snd] in *. rewrite L3, L2, L1 in Hb. cbn -[length] in Hb. unfold ETH_ALEN in Hb. lia.
Qed.

(** The records behind the header. *)
Lemma put_records_stores s pre rest :
  unlocked (peers s) (hash_table s) ->
  stores (let* t := gets hash_table in
          let* b := put_origin t (pre ++ rest, length pre) in
          let* b := put_neighbours t t b in ret b.1)
    (if (length (broadcast_records s) * record_size <=? length rest)%nat
     then Some (pre ++ enc_records (broadcast_records s)
                ++ drop (length (broadcast_records s) * record_size) rest)
     else None) s.
Proof using Type.
  intros Hu. set (t := hash_table s).
  assert (stores (let* b := put_origin t (pre ++ rest, length pre) in put_neighbours t t b)
    (puts (broadcast_records s) (pre ++ rest, length pre)) s) as [s' Hs].
  { unfold broadcast_records. rewrite puts_app. apply stores_bind.
    - by apply put_origin_stores.
    - intros b _. by apply put_neighbours_stores. }
  rewrite puts_fit in Hs. exists s'. unfold gets, bind at 1. fold t.
  unfold bind in Hs |- *. destruct (put_origin t (pre ++ rest, length pre) s) as [[b| | | | |] s1];
    try (by destruct (_ <=? _)%nat; simplify_eq).
  rewrite Hs. by destruct (_ <=? _)%nat.
Qed.

Lemma broadcast_length_spec n :
  Z.of_nat n < 2 ^ 15 ->
  broadcast_length (Z.of_nat n) = Z.of_nat (payload_size n) mod 2 ^ 16.
Proof using Type.
  intros Hn. unfold broadcast_length, u16, uwrap, payload_size. f_equal.
  change (sizeof c_link_state_source) with 20%nat. lia.
Qed.

Lemma build_packet_run junk s :
  let t := hash_table s in
  NoDup t -> unlocked (peers s) t -> Z.of_nat (length t) < 2 ^ 15 ->
  (forall n, length (junk n) = n) ->
  if (length t <=? broadcast_capacity)%nat then
    build_packet junk s
      = (Ret (packet_bytes LINK_STATE (link_state_payload (Z.of_nat (length t))
                (linkState s) (broadcast_records s))), s)
  else exists s', build_packet junk s = (Undefined, s').
Proof using Type.
  intros t Hnd Hu Hn Hjunk. set (n := length t) in *.
  pose proof (broadcast_length_spec n Hn) as Hbl.
  set (own := linkState s).
  set (size := (4 + Z.to_nat (Z.of_nat (payload_size n) mod 2 ^ 16))%nat).
  assert (length (broadcast_records s) = n * S n)%nat as Hrec
    by (by apply broadcast_records_length).
  assert (0 <= Z.of_nat (payload_size n) mod 2 ^ 16 < 2 ^ 16) as Hmod
    by (by apply Z.mod_pos_bound).
  assert (build_packet junk s =
    (let* b := put c_proxy_header (ProxyHeader (htons LINK_STATE)
       (htons (broadcast_length (Z.of_nat n)))) (take size (junk size), 0%nat) in
     let* b := put (c_uint 2) (htons (Z.of_nat n)) b in
     let* own := gets linkState in
     let* b := put c_link_state own b in
     let* b := put (c_uint 2) (htons (Z.of_nat n)) b in
     let* t := gets hash_table in
     let* b := put_origin t b in
     let* b := put_neighbours t t b in ret b.1) s) as ->.
  { unfold build_packet, hash_count, gets at 1, bind at 1. fold t n.
    unfold u16. rewrite uwrap_small by lia. cbv zeta. cbn [hdr_length].
    rewrite Hbl, ntohs_htons by done.
    replace (Z.to_nat (PROXY_HLEN + Z.of_nat (payload_size n) mod 2 ^ 16)) with size
      by (unfold size, PROXY_HLEN; lia).
    reflexivity. }
  assert (length (take size (junk size)) = size) as Hlen
    by (rewrite length_take, Hjunk; lia).
  destruct (Nat.lt_ge_cases size 26) as [Hs|Hs].
  { rewrite (proj2 (Nat.leb_gt _ _)).
    2: { apply Nat.nle_gt. intros Hf%payload_fits. unfold size in Hs.
         rewrite Z.mod_small in Hs by lia. unfold payload_size in Hs, Hf. lia. }
    exists s. apply (put_header_short _ own); [done|by rewrite Hlen]. }
  rewrite (put_header _ own) by (done || lia).
  set (rest := drop 26 _).
  assert (length rest = (size - 26)%nat) as Hrl by (unfold rest; rewrite length_drop; lia).
  change 26%nat with (length (packet_header (Z.of_nat n) own)).
  destruct (put_records_stores s (packet_header (Z.of_nat n) own) rest Hu) as [s' ->].
  rewrite Hrec, Hrl. unfold size in *.
  destruct (Nat.leb_spec n broadcast_capacity) as [Hf|Hf].
  - apply payload_fits in Hf. rewrite Z.mod_small in * by lia. unfold payload_size in *.
    rewrite (proj2 (Nat.leb_le _ _)) by lia. rewrite drop_ge by lia. rewrite app_nil_r.
    do 2 f_equal. unfold packet_bytes, packet_header, link_state_payload.
    rewrite Hbl, <- !app_assoc. do 5 f_equal.
    rewrite !length_app, enc_records_length, Hrec, !enc_length. cbn -[Nat.mul].
    unfold ETH_ALEN. lia.
  - assert (2 ^ 16 <= Z.of_nat (payload_size n)) as Hbig.
    { apply Z.nlt_ge. intros Hf'%payload_fits. lia. }
    rewrite (proj2 (Nat.leb_gt _ _)); [by eexists|].
    pose proof (Z.mod_le (Z.of_nat (payload_size n)) (2 ^ 16)).
    assert (Z.of_nat (payload_size n) mod 2 ^ 16 < 2 ^ 16) by lia.
    unfold payload_size in *. lia.
Qed.

(** ** Reading the records *)

(** A time as the receiver takes it out of a record. *)
Definition host_time (t : timespec) : timespec :=
  Timespec (to_long (ntohl (tv_sec t))) (to_long (ntohl (tv_nsec t))).

(** What a record does to the peers of a table [t] at the proxy [own]. *)
Definition refresh (own : mac) (t : list loc) (ps : gmap loc Peer)
    (r : link_state_record) : gmap loc Peer :=
  if decide (tapMAC (proxy1 r) = own) then ps
  else
    match find_key ps t (tapMAC (proxy1 r)) with
    | Some (Some p) => <[p := with_timestamp (host_time (ID r)) (the_peer ps p)]> ps
    | _ => ps
    end.

(** The first proxy of a record is this one or a member. *)
Definition known (own : mac) (ps : gmap loc Peer) (t : list loc) (k : mac) : Prop :=
  k = own \/ exists p, p ∈ t /\ peer_mac ps p = Some k.

Lemma refresh_keeps own t ps r p q :
  ps !! p = Some q ->
  exists ts, refresh own t ps r !! p = Some (with_timestamp ts q).
Proof using Type.
  intros Hq. assert (exists ts, Some q = Some (with_timestamp ts q)) as Hsame.
  { exists (p_timestamp q). by destruct q. }
  unfold refresh. destruct (decide _); [by rewrite Hq|].
  destruct (find_key ps t _) as [[p'|]|]; [|by rewrite Hq..].
  destruct (decide (p' = p)) as [->|Hn].
  - rewrite lookup_insert_eq, (the_peer_live _ _ _ Hq). by eexists.
  - by rewrite lookup_insert_ne, Hq.
Qed.

Lemma refresh_mac own t ps r p :
  (forall p, p ∈ t -> is_Some (ps !! p)) -> p ∈ t ->
  peer_mac (refresh own t ps r) p = peer_mac ps p.
Proof using Type.
  intros Hl Hp. destruct (Hl p Hp) as [q Hq]. unfold peer_mac.
  destruct (refresh_keeps own t ps r p q Hq) as [ts ->]. by rewrite Hq.
Qed.

Lemma refresh_ok own t ps r : table_ok ps t -> table_ok (refresh own t ps r) t.
Proof using Type.
  intros Hok. eapply table_ok_mono; [|exact Hok]. intros p Hp.
  pose proof (proj1 (proj2 Hok)) as Hl. split; [by apply refresh_mac|].
  destruct (Hl p Hp) as [q Hq]. destruct (refresh_keeps own t ps r p q Hq) as [ts ->].
  by eexists.
Qed.

Lemma refresh_unlocked own t ps r : unlocked ps t -> unlocked (refresh own t ps r) t.
Proof using Type.
  intros Hu p Hp. destruct (Hu p Hp) as (q & Hq & Hm).
  destruct (refresh_keeps own t ps r p q Hq) as [ts ->]. by eexists.
Qed.

Lemma load_record_fields data ptr r :
  load c_link_state_record data ptr = Some r ->
  load c_mac data (ptr + sizeof c_timespec + tapMAC_offset) = Some (tapMAC (proxy1 r))
  /\ load c_timespec data ptr = Some (ID r).
Proof using Type.
  intros Hl. pose proof (load_length _ _ _ _ Hl) as Hlen.
  rewrite load_total in Hl by done. injection Hl as <-.
  assert (sizeof c_timespec + 40 <= sizeof c_link_state_record)%nat as Hsz
    by (cbn; unfold ETH_ALEN; lia).
  rewrite !load_total by (cbn [c_mac sizeof]; unfold tapMAC_offset, ETH_ALEN; lia).
  split; [|done].
  cbn [c_link_state_record c_link_state c_struct c_pair dec fst snd proxy1 tapMAC c_mac].
  rewrite !drop_drop. do 2 f_equal. cbn [c_uint sizeof c_timespec c_struct c_pair c_long]. unfold tapMAC_offset.
  f_equal. lia.
Qed.

Lemma Link_State_record_run data ptr r s :
  world_ok s -> unlocked (peers s) (hash_table s) ->
  load c_link_state_record data ptr = Some r ->
  known (tapMAC (linkState s)) (peers s) (hash_table s) (tapMAC (proxy1 r)) ->
  Link_State_record data ptr s
    = (Ret tt, set_peers (refresh (tapMAC (linkState s)) (hash_table s) (peers s) r) s).
Proof using Type.
  intros Hok Hu Hld Hkn. destruct (load_record_fields _ _ _ Hld) as [Hmac Hid].
  unfold Link_State_record, field. unfold bind at 1. rewrite Hmac. cbn [deref]. unfold ret at 1.
  unfold gets, bind at 1. unfold refresh.
  destruct (decide (tapMAC (proxy1 r) = tapMAC (linkState s))) as [He|Hne].
  { unfold ret. by destruct s. }
  destruct Hkn as [?|(p & Hp & Hk)]; [done|].
  pose proof (find_key_member _ _ _ _ Hok Hp Hk) as Hf. rewrite Hf.
  erewrite bind_ret_l by (by eapply hash_find_at_run).
  destruct (Hu p Hp) as (q & Hq & Hm).
  destruct (lock_unlock p q s Hq Hm) as (s1 & E1 & E2 & _).
  unfold timeout_lock in E1. unfold bind in E1. rewrite (peer_live _ _ _ Hq), Hm in E1.
  injection E1 as <-.
  erewrite bind_ret_l.
  2: { unfold timeout_lock, bind. rewrite (peer_live _ _ _ Hq), Hm. reflexivity. }
  unfold bind at 1. rewrite Hid. cbn [deref]. unfold ret at 1.
  erewrite bind_ret_l by exact E2.
  unfold bind, set_peer, modify, timeout_unlock, bind. cbn [set_peers peers].
  erewrite peer_live by (cbn [set_peers peers]; apply lookup_insert_eq).
  unfold set_peer, modify. cbn [set_peers peers].
  rewrite !insert_insert_eq, (the_peer_live _ _ _ Hq).
  f_equal. unfold set_peers. cbn. do 2 f_equal. by destruct q; cbn in *; subst.
Qed.

Lemma Link_State_records_run l data pre post s :
  world_ok s -> unlocked (peers s) (hash_table s) ->
  data = pre ++ enc_records l ++ post ->
  Forall (wf c_link_state_record) l ->
  Forall (fun r => known (tapMAC (linkState s)) (peers s) (hash_table s)
                     (tapMAC (proxy1 r))) l ->
  Link_State_records (length l) data (length pre) s
    = (Ret tt, set_peers (fold_left (refresh (tapMAC (linkState s)) (hash_table s)) l
                            (peers s)) s).
Proof using Type.
  revert pre s. induction l as [|r l IH]; intros pre s Hok Hu Hd Hwf Hkn.
  { cbn. unfold ret. by destruct s. }
  apply Forall_cons in Hwf as [Hr Hwf]. apply Forall_cons in Hkn as [Hk Hkn].
  cbn [length Link_State_records fold_left].
  assert (data = pre ++ enc c_link_state_record r ++ enc_records l ++ post) as Hd'
    by (rewrite Hd; unfold enc_records; cbn [map concat]; by rewrite <- app_assoc).
  erewrite bind_ret_l.
  2: { apply Link_State_record_run; [done|done| |exact Hk].
       rewrite Hd'. exact (load_app _ _ _ _ Hr). }
  set (s1 := set_peers _ s).
  replace (length pre + record_size)%nat
    with (length (pre ++ enc c_link_state_record r)) by (by rewrite length_app, enc_length).
  rewrite (IH (pre ++ enc c_link_state_record r) s1).
  - done.
  - by apply refresh_ok.
  - by apply refresh_unlocked.
  - by rewrite Hd', <- app_assoc.
  - done.
  - eapply Forall_impl; [exact Hkn|]. intros r' [->|(p & Hp & Hpk)]; [by left|right].
    exists p. split; [done|]. cbn [s1 set_peers peers hash_table linkState].
    rewrite refresh_mac; [done|apply Hok|done].
Qed.

(** ** The payload *)

Lemma record_size_val : record_size = match abi with ILP32 => 48%nat | LP64 => 56%nat end.
Proof using Type. unfold record_size. cbn. unfold ETH_ALEN, long_size. by destruct abi. Qed.

Definition payload_header (N : Z) (src : link_state) : bytes :=
  enc (c_uint 2) (htons N) ++ enc c_link_state src ++ enc (c_uint 2) (htons N).

Lemma payload_split N src l :
  link_state_payload N src l = payload_header N src ++ enc_records l.
Proof using Type. unfold link_state_payload, payload_header. by rewrite <- !app_assoc. Qed.

Lemma payload_length N src l :
  length (link_state_payload N src l) = (22 + length l * record_size)%nat.
Proof using Type. rewrite payload_split, length_app, enc_records_length. done. Qed.

Lemma payload_count N src l :
  load (c_uint 2) (link_state_payload N src l) 0 = Some (htons N).
Proof using Type. apply load_0; [apply _|apply htons_wf]. Qed.

Lemma payload_mac N src l :
  load c_mac (link_state_payload N src l) (2 + tapMAC_offset) = Some (tapMAC src).
Proof using Type.
  unfold link_state_payload. cbn [c_link_state c_struct c_pair enc fst snd].
  rewrite <- !app_assoc, (app_assoc (enc (c_uint 4) _)), (app_assoc (enc (c_uint 2) (htons N))).
  apply load_app_at; [apply _|exact I|done].
Qed.

(** A packet with the number of records it announces passes the length check. *)
Lemma payload_length_ok N src l :
  0 <= N -> Z.of_nat (length l) = N * N + N ->
  Z.of_nat (length (link_state_payload N src l)) < 2 ^ 16 ->
  N * N + N < 2 ^ 16
  /\ length_ok N (Z.of_nat (length (link_state_payload N src l))) = true.
Proof using Type.
  intros HN Hl. rewrite payload_length. intros Hsz.
  assert (1 <= record_size)%nat by (rewrite record_size_val; destruct abi; lia).
  split; [nia|]. unfold length_ok, to_size. rewrite <- Hl.
  change (sizeof c_link_state) with 18%nat.
  rewrite uwrap_small.
  - apply Z.eqb_eq. lia.
  - assert (2 ^ 16 <= 2 ^ long_bits)
      by (apply Z.pow_le_mono_r; [lia|unfold long_bits, long_size; destruct abi; lia]).
    lia.
Qed.

(** [Link_State] up to its loop. *)
Lemma Link_State_run N src l p s s' o :
  world_ok s -> locks s = lock_init -> p ∈ hash_table s ->
  peer_mac (peers s) p = Some (tapMAC src) -> tapMAC src <> tapMAC (linkState s) ->
  0 <= N < 2 ^ 16 -> Z.of_nat (length l) = N * N + N ->
  Z.of_nat (length (link_state_payload N src l)) < 2 ^ 16 ->
  Link_State_records (length l) (link_state_payload N src l) 22
    (set_locks lock_writing s) = (o, s') ->
  Link_State (link_state_payload N src l) s
    = match o with
      | Ret _ => (writeEnd ;;; ret 0) s'
      | _ => (no_value o, s')
      end.
Proof using Type.
  intros Hok Hl Hp Hmac Hown HN Hlen Hsz Hrun.
  destruct (payload_length_ok N src l ltac:(lia) Hlen Hsz) as [Hn2 Hlok].
  unfold Link_State, field. unfold bind at 1. rewrite payload_count. cbn [deref].
  unfold ret at 1. rewrite ntohs_htons by done.
  rewrite (proj2 (Z.ltb_lt _ _)) by lia. cbn [negb]. rewrite Hlok. cbn [negb].
  unfold bind at 1. rewrite payload_mac. cbn [deref]. unfold ret at 1.
  unfold gets, bind at 1. rewrite decide_False by done.
  erewrite bind_ret_l by (by apply writeBegin_free).
  erewrite bind_ret_l by (eapply hash_find_at_run; [apply payload_mac|];
    by apply (find_key_member _ _ p)).
  unfold bind at 1, ret at 1.
  unfold u16. rewrite uwrap_small by lia. rewrite <- Hlen, Nat2Z.id.
  change (2 + sizeof c_link_state_source)%nat with 22%nat.
  unfold bind at 1. rewrite Hrun. by destruct o.
Qed.

Lemma link_state_refreshes_run N src l p s :
  world_ok s -> locks s = lock_init -> unlocked (peers s) (hash_table s) ->
  p ∈ hash_table s -> peer_mac (peers s) p = Some (tapMAC src) ->
  tapMAC src <> tapMAC (linkState s) ->
  0 <= N < 2 ^ 16 -> Z.of_nat (length l) = N * N + N ->
  Z.of_nat (length (link_state_payload N src l)) < 2 ^ 16 ->
  Forall (wf c_link_state_record) l ->
  Forall (fun r => known (tapMAC (linkState s)) (peers s) (hash_table s)
                     (tapMAC (proxy1 r))) l ->
  Link_State (link_state_payload N src l) s
    = (Ret 0, set_peers (fold_left (refresh (tapMAC (linkState s)) (hash_table s)) l
                           (peers s)) s)
  /\ table_ok (fold_left (refresh (tapMAC (linkState s)) (hash_table s)) l (peers s))
       (hash_table s).
Proof using Type.
  intros Hok Hl Hu Hp Hmac Hown HN Hlen Hsz Hwf Hkn. split.
  - erewrite Link_State_run; try done.
    2: { change 22%nat with (length (payload_header N src)).
         apply (Link_State_records_run l _ _ [] (set_locks lock_writing s)); try done.
         by rewrite payload_split, app_nil_r. }
    erewrite bind_ret_l by (by apply writeEnd_writing). unfold ret.
    destruct s; cbn in *. by subst.
  - clear -Hok. revert Hok. unfold world_ok. generalize (peers s) as ps.
    induction l as [|r l IH]; intros ps Hok; [done|]. by apply IH, refresh_ok.
Qed.

(** ** The effect of a broadcast *)

Lemma host_net_time t : time_ok t -> host_time (net_time t) = t.
Proof using Type.
  intros [Hs Hn]. unfold host_time, net_time. cbn [tv_sec tv_nsec].
  rewrite !ntohl_htonl_long. unfold u32. rewrite !uwrap_small by lia.
  rewrite !to_long_small by lia. by destruct t.
Qed.

Lemma net_time_wf t : wf c_timespec (net_time t).
Proof using Type. split; apply swrap_range, long_bits_pos. Qed.

Lemma make_record_wf t l1 l2 :
  wf c_link_state l1 -> wf c_link_state l2 -> wf c_link_state_record (make_record t l1 l2).
Proof using Type.
  intros H1 H2. split; [apply net_time_wf|]. split; [exact H1|]. split; [exact H2|].
  vm_compute. repeat split; done.
Qed.

Lemma refresh_other own t ps r p k :
  peer_mac ps p = Some k -> tapMAC (proxy1 r) <> k -> refresh own t ps r !! p = ps !! p.
Proof using Type.
  intros Hk Hn. unfold refresh. destruct (decide _); [done|].
  destruct (find_key ps t _) as [[p'|]|] eqn:E; [|done..].
  apply find_key_Some in E as [_ E]. apply lookup_insert_ne. intros ->. congruence.
Qed.

Lemma refresh_same own t ps r p q :
  table_ok ps t -> p ∈ t -> ps !! p = Some q -> tapMAC (proxy1 r) = tapMAC (p_ls q) ->
  tapMAC (proxy1 r) <> own ->
  refresh own t ps r !! p = Some (with_timestamp (host_time (ID r)) q).
Proof using Type.
  intros Hok Hp Hq Hr Hn. unfold refresh. rewrite decide_False by done.
  rewrite (find_key_member _ _ p) by (rewrite ?Hr; by try apply peer_mac_live).
  by rewrite lookup_insert_eq, (the_peer_live _ _ _ Hq).
Qed.

(** Records about others do not change the entry of [p]; records about [p] with
    the same time set it. *)
Lemma fold_refresh_others own t l ps p k :
  peer_mac ps p = Some k -> Forall (fun r => tapMAC (proxy1 r) <> k) l ->
  fold_left (refresh own t) l ps !! p = ps !! p.
Proof using Type.
  revert ps. induction l as [|r l IH]; intros ps Hk Hl; [done|].
  apply Forall_cons in Hl as [Hr Hl]. cbn [fold_left].
  pose proof (refresh_other own t ps r p k Hk Hr) as E.
  rewrite IH; [exact E| |done]. unfold peer_mac in *. by rewrite E.
Qed.

Lemma fold_refresh_same own t l ps p q ts :
  table_ok ps t -> p ∈ t -> ps !! p = Some q -> tapMAC (p_ls q) <> own -> l <> [] ->
  Forall (fun r => tapMAC (proxy1 r) = tapMAC (p_ls q) /\ host_time (ID r) = ts) l ->
  fold_left (refresh own t) l ps !! p = Some (with_timestamp ts q).
Proof using Type.
  intros Hok Hp Hq Hown Hne Hl. revert ps q Hok Hq Hown Hl.
  induction l as [|r l IH]; intros ps q Hok Hq Hown Hl; [done|].
  apply Forall_cons in Hl as [[Hr Ht] Hl]. cbn [fold_left].
  assert (refresh own t ps r !! p = Some (with_timestamp ts q)) as E.
  { rewrite <- Ht. by apply refresh_same; [..|congruence]. }
  destruct l as [|r' l']; [exact E|].
  rewrite (IH ltac:(done) _ (with_timestamp ts q)); [by destruct q|by apply refresh_ok|done..].
Qed.

(** The link states of the members of a proxy. *)
Definition members_wf (s : world) : Prop :=
  wf c_link_state (linkState s)
  /\ forall p, p ∈ hash_table s -> wf c_link_state (p_ls (the_peer (peers s) p)).

Lemma neighbour_records_Forall (P : link_state_record -> Prop) ps own ts all t :
  (forall p, p ∈ t -> P (make_record ts (p_ls (the_peer ps p)) own)) ->
  (forall p q, p ∈ t -> q ∈ all ->
     P (make_record (p_timestamp (the_peer ps p)) (p_ls (the_peer ps p))
          (p_ls (the_peer ps q)))) ->
  Forall P (neighbour_records ps own ts all t).
Proof using Type.
  intros H1 H2. unfold neighbour_records. induction t as [|p t IH]; [constructor|].
  cbn [map concat]. rewrite Forall_app. split.
  - constructor; [apply H1, list_elem_of_here|]. unfold other_records.
    apply Forall_map, Forall_forall. intros q [_ Hq]%list_elem_of_filter.
    apply H2; [apply list_elem_of_here|done].
  - apply IH; intros; [apply H1|apply H2]; by try apply list_elem_of_further.
Qed.

Lemma broadcast_records_wf s :
  members_wf s -> Forall (wf c_link_state_record) (broadcast_records s).
Proof using Type.
  intros [Hown Hm]. unfold broadcast_records. apply Forall_app. split.
  - apply Forall_map, Forall_forall. intros p Hp. apply make_record_wf; auto.
  - apply neighbour_records_Forall; intros; apply make_record_wf; auto.
Qed.

(** ** Sending *)

Lemma broadcast_to_sends packet : sends (broadcast_to packet) packet.
Proof using Type.
  intros p q s n m Hq Hrdy.
  destruct (rio_send_next n m (fd (p_rio q)) packet (io s) Hrdy) as (e & Hw & Hwr & Hwo & Hr).
  exists e. split; [|done]. unfold broadcast_to.
  erewrite bind_ret_l by (by eapply peer_write_run). by rewrite (proj2 (Z.ltb_ge _ _)) by lia.
Qed.

Lemma broadcast_to_run packet n p q s :
  peers s !! p = Some q -> writes_ready (S n) (length packet) (io s) ->
  exists e, broadcast_to packet p s = (Ret tt, set_io e s)
    /\ written (fd (p_rio q)) (trace e) = written (fd (p_rio q)) (trace (io s)) ++ packet
    /\ (forall f, f <> fd (p_rio q) -> written f (trace e) = written f (trace (io s)))
    /\ writes_ready n (length packet) e /\ clocks e = clocks (io s).
Proof using Type.
  intros Hq Hrdy.
  destruct (broadcast_to_sends packet p q s n (n * length packet)%nat Hq Hrdy)
    as (e & Hrun & Hwr & Hwo & Hr).
  exists e. split; [done|]. split; [done|]. split; [|split; [done|apply Hwo]].
  intros f Hf. apply (writes_only_other _ f _ _ Hwo). congruence.
Qed.

Lemma iter_broadcast_to packet t s n :
  connected (peers s) t -> writes_ready (length t + n) (length packet) (io s) ->
  exists e, iter (broadcast_to packet) t s = (Ret tt, set_io e s)
    /\ received (peers s) t packet (io s) e
    /\ writes_ready n (length packet) e /\ clocks e = clocks (io s).
Proof using Type.
  intros Hcon Hrdy.
  destruct (iter_sends (broadcast_to packet) packet n (n * length packet)%nat t s)
    as (e & Hrun & Hrec & Hr & _ & _ & Hc).
  - apply broadcast_to_sends.
  - done.
  - by rewrite <- Nat.mul_add_distr_r.
  - by exists e.
Qed.

(** The bytes of a probe sent at [time]. *)
Definition probe_bytes (padding : bytes) (time : timespec) : bytes :=
  take 12 (enc_probe_req padding
    (ProbeReq (ProxyHeader (htons BANDWIDTH_PROBE_REQUEST) (htons 8)) (net_time time))).

Lemma probe_bytes_length padding time : length (probe_bytes padding time) = 12%nat.
Proof using Type.
  unfold probe_bytes, enc_probe_req. cbn [pr_prxyhdr pr_ID].
  rewrite length_take, !length_app, !enc_length, length_take, length_app, length_replicate.
  cbn [c_proxy_header c_timespec c_struct c_pair c_uint c_long sizeof].
  unfold long_size. destruct abi; lia.
Qed.

(** Every link has been probed: the time is in the packet and in the peer. *)
Definition probed (padding : bytes) (t : list loc) (s s' : world) : Prop :=
  (forall p q, p ∈ t -> peers s !! p = Some q ->
     exists time, peers s' !! p = Some (with_probe_ts time q)
       /\ written (fd (p_rio q)) (trace (io s'))
          = written (fd (p_rio q)) (trace (io s)) ++ probe_bytes padding time)
  /\ (forall p, p ∉ t -> peers s' !! p = peers s !! p)
  /\ (forall f, (forall p, p ∈ t -> peer_fd (peers s) p <> Some f) ->
       written f (trace (io s')) = written f (trace (io s))).

Lemma probe_link_run padding n p q now ck s :
  peers s !! p = Some q -> writes_ready (S n) 12 (io s) -> clocks (io s) = now :: ck ->
  exists e, probe_link padding p s
      = (Ret tt, set_io e (set_peers (<[p := with_probe_ts now q]> (peers s)) s))
    /\ written (fd (p_rio q)) (trace e)
       = written (fd (p_rio q)) (trace (io s)) ++ probe_bytes padding now
    /\ (forall f, f <> fd (p_rio q) -> written f (trace e) = written f (trace (io s)))
    /\ writes_ready n 12 e /\ clocks e = ck.
Proof using Type.
  intros Hq Hrdy Hck. unfold probe_link, in_io at 1, zoom, clock_gettime, bind at 1.
  rewrite Hck. erewrite bind_ret_l by (by apply peer_live).
  unfold bind at 1, set_peer, modify. fold (probe_bytes padding now).
  set (s1 := set_peers _ _).
  destruct (broadcast_to_run (probe_bytes padding now) n p (with_probe_ts now q) s1)
    as (e & Hrun & Hin & Hout & Hr & Hc).
  { apply lookup_insert_eq. }
  { by rewrite probe_bytes_length. }
  exists e. rewrite probe_bytes_length in Hr. by rewrite Hrun.
Qed.

Lemma iter_probe_link padding t s :
  connected (peers s) t -> writes_ready (length t) 12 (io s) ->
  (length t <= length (clocks (io s)))%nat ->
  exists s', iter (probe_link padding) t s = (Ret tt, s')
    /\ probed padding t s s' /\ hash_table s' = hash_table s
    /\ timestamp s' = timestamp s /\ locks s' = locks s.
Proof using Type.
  revert s. induction t as [|p t IH]; intros s Hcon Hrdy Hck; cbn [iter].
  { exists s. split; [done|]. split; [|done]. split; [by intros p q ?%elem_of_nil|done]. }
  destruct (proj1 (proj2 Hcon) p (list_elem_of_here _ _)) as [q Hq].
  destruct (clocks (io s)) as [|now ck] eqn:Ec; [simpl in Hck; lia|].
  destruct (probe_link_run padding (length t) p q now ck s Hq Hrdy Ec)
    as (e & Hrun1 & Hin1 & Hout1 & Hrdy1 & Hc1).
  set (s1 := set_io e _) in Hrun1.
  assert (p ∉ t) as Hnp by (by destruct Hcon as [[? _]%NoDup_cons _]).
  assert (forall x, x ∈ t -> peers s1 !! x = peers s !! x) as Hsame.
  { intros x Hx. cbn [s1 set_io set_peers peers]. rewrite lookup_insert_ne; [done|].
    by intros ->. }
  assert (forall x, x ∈ t -> peer_fd (peers s1) x = peer_fd (peers s) x) as Hfds.
  { intros x Hx. unfold peer_fd. by rewrite Hsame. }
  destruct (IH s1) as (s2 & Hrun & (Hin & Hkeep & Hout) & Ht & Hts & Hlk).
  { apply connected_cons in Hcon as (Hnd & Hl & Hd). split; [done|]. split.
    - intros x Hx. rewrite Hsame by done. by apply Hl.
    - intros x y Hx Hy. rewrite !Hfds by done. by apply Hd. }
  { done. }
  { cbn [s1 set_io io]. rewrite Hc1. simpl in Hck. lia. }
  exists s2. split; [by erewrite bind_ret_l by exact Hrun1|].
  split; [|by rewrite Ht, Hts, Hlk].
  assert (peer_fd (peers s) p = Some (fd (p_rio q))) as Hfd
    by (unfold peer_fd; by rewrite Hq).
  assert (forall x, x ∈ t -> peer_fd (peers s) x <> Some (fd (p_rio q))) as Hot
    by (intros; by eapply connected_fd_ne).
  split; [|split].
  - intros x qx [->|Hx]%elem_of_cons Hqx.
    + assert (qx = q) as -> by congruence. exists now. split.
      * rewrite Hkeep by done. apply lookup_insert_eq.
      * rewrite Hout; [exact Hin1|]. intros y Hy. rewrite Hfds by done. by apply Hot.
    + destruct (Hin x qx Hx) as (time & Hp & Hw); [by rewrite Hsame|].
      exists time. split; [done|]. rewrite Hw. cbn [s1 set_io io]. rewrite Hout1; [done|].
      intros E. apply (Hot x Hx). unfold peer_fd. rewrite Hqx. cbn. congruence.
  - intros x [Hne Hx]%not_elem_of_cons. rewrite Hkeep by done.
    cbn [s1 set_io set_peers peers]. by rewrite lookup_insert_ne.
  - intros f Hf. rewrite Hout.
    + apply Hout1. intros ->. by apply (Hf p (list_elem_of_here _ _)).
    + intros x Hx. rewrite Hfds by done. by apply Hf, list_elem_of_further.
Qed.

(** ** Properties *)

(** C20: The broadcast packet.  With [n] members whose packet fits the 16-bit
    length field, [Link_State_Broadcast] fills its buffer exactly with the
    header, the count, the local link state and the [n^2+n] records, in order:
    the edges from the origin with the time of the broadcast, and for each
    neighbour the edge to the origin and its edges to the other neighbours.
    When the packet does not fit, the length wraps, the buffer is too small and
    a record is written outside of it: from [37] members with a 32-bit [long],
    from [34] with a 64-bit one. *)
Theorem broadcast_packet junk s :
  let t := hash_table s in
  NoDup t -> unlocked (peers s) t -> Z.of_nat (length t) < 2 ^ 15 ->
  (forall n, length (junk n) = n) ->
  if (length t <=? broadcast_capacity)%nat then
    build_packet junk s
      = (Ret (packet_bytes LINK_STATE (link_state_payload (Z.of_nat (length t))
                (linkState s) (broadcast_records s))), s)
  else exists s', build_packet junk s = (Undefined, s').
Proof using Type. apply build_packet_run. Qed.

(** C26: A link-state packet refreshes the members it names.  A packet from a
    member, with the [N^2+N] records it announces and only known proxies in
    front of them, is accepted: the records are applied in order, each copying
    its time to the member it names, records about this proxy being skipped;
    the table stays well-formed and the lock is free again. *)
Theorem link_state_refreshes N src l p s :
  world_ok s -> locks s = lock_init -> unlocked (peers s) (hash_table s) ->
  p ∈ hash_table s -> peer_mac (peers s) p = Some (tapMAC src) ->
  tapMAC src <> tapMAC (linkState s) ->
  0 <= N < 2 ^ 16 -> Z.of_nat (length l) = N * N + N ->
  Z.of_nat (length (link_state_payload N src l)) < 2 ^ 16 ->
  Forall (wf c_link_state_record) l ->
  Forall (fun r => known (tapMAC (linkState s)) (peers s) (hash_table s)
                     (tapMAC (proxy1 r))) l ->
  Link_State (link_state_payload N src l) s
    = (Ret 0, set_peers (fold_left (refresh (tapMAC (linkState s)) (hash_table s)) l
                           (peers s)) s)
  /\ table_ok (fold_left (refresh (tapMAC (linkState s)) (hash_table s)) l (peers s))
       (hash_table s).
Proof using Type. apply link_state_refreshes_run. Qed.

(** C14: An unknown proxy in a link-state packet is undefined behaviour.  When a
    packet of the right length comes from a member that is not this proxy
    itself, and its first record names a proxy that is neither this one nor a
    member, then for every result of [socket] but [0] [connectbyaddr] returns
    [NULL], which is dereferenced inside the write section. *)
Theorem link_state_unknown_proxy N src r l p s f rs now ck :
  world_ok s -> locks s = lock_init ->
  p ∈ hash_table s -> peer_mac (peers s) p = Some (tapMAC src) ->
  tapMAC src <> tapMAC (linkState s) ->
  0 <= N < 2 ^ 16 -> Z.of_nat (length (r :: l)) = N * N + N ->
  Z.of_nat (length (link_state_payload N src (r :: l))) < 2 ^ 16 ->
  wf c_link_state_record r ->
  ~ known (tapMAC (linkState s)) (peers s) (hash_table s) (tapMAC (proxy1 r)) ->
  results (io s) = f :: rs -> f <> 0 -> clocks (io s) = now :: ck ->
  exists s', Link_State (link_state_payload N src (r :: l)) s = (Undefined, s')
    /\ locks s' = lock_writing.
Proof using Type.
  intros Hok Hl Hp Hmac Hown HN Hlen Hsz Hwf Hkn Hr Hf Hc.
  set (s1 := set_locks lock_writing s).
  set (s2 := set_io (set_clocks ck (set_results rs (io s))) s1).
  exists s2. split; [|done].
  rewrite (Link_State_run N src (r :: l) p s s2 Undefined); try done.
  set (data := link_state_payload N src (r :: l)).
  assert (load c_link_state_record data 22 = Some r) as Hld.
  { unfold data. rewrite payload_split. unfold enc_records. cbn [map concat].
    by apply load_app_at; [apply _|exact Hwf|]. }
  pose proof (load_length _ _ _ _ Hld) as Hdl.
  destruct (load_record_fields _ _ _ Hld) as [Hkey _].
  destruct (find_key_ok _ _ (tapMAC (proxy1 r)) Hok) as [(x & _ & Hx & Hxk)|[Hnone _]].
  { exfalso. apply Hkn. right. by exists x. }
  cbn [length Link_State_records]. unfold bind at 1. unfold Link_State_record.
  unfold field. unfold bind at 1. rewrite Hkey. cbn [deref]. unfold ret at 1.
  unfold gets, bind at 1. rewrite decide_False by (intros E; apply Hkn; by left).
  erewrite bind_ret_l by (by apply (hash_find_at_run _ _ (tapMAC (proxy1 r)))).
  assert (forall o, (o <= 4)%nat ->
    exists a, load (c_uint 2) data (22 + o) = Some a) as H2.
  { intros o Ho. eexists. apply load_total.
    pose proof record_size_val as Hrs. unfold record_size in Hrs. rewrite Hrs in Hdl.
    cbn [c_uint sizeof]. destruct abi; lia. }
  assert (exists a, load (c_uint 4) data 22 = Some a) as [a Ha].
  { eexists. apply load_total. pose proof record_size_val as Hrs. unfold record_size in Hrs.
    rewrite Hrs in Hdl. cbn [c_uint sizeof]. destruct abi; lia. }
  destruct (H2 4%nat ltac:(lia)) as [b Hb].
  unfold bind at 1. rewrite Ha. cbn [deref]. unfold ret at 1.
  unfold bind at 1. rewrite Hb. cbn [deref]. unfold ret at 1.
  erewrite bind_ret_l by (by apply (connectbyaddr_gives_up _ _ s1 f rs)).
  unfold in_io, zoom, clock_gettime, bind at 1. cbn [set_io io set_results clocks].
  change (io s1) with (io s). rewrite Hc. reflexivity.
Qed.

(** The length check is only exact on a 64-bit host.  With a 32-bit [size_t]
    the product wraps, and a packet of [25718] bytes that announces [13377]
    proxies passes the check: its loop would go through [44226] records. *)
Theorem length_check_exact N len :
  0 <= N -> N * N + N < 2 ^ 31 -> 0 <= len ->
  match abi with
  | LP64 => length_ok N len = true <-> 22 + (N * N + N) * Z.of_nat record_size = len
  | ILP32 => length_ok 13377 25718 = true
             /\ 22 + u16 (13377 * 13377 + 13377) * Z.of_nat record_size > 25718
  end.
Proof using Type.
  intros H0 HN Hlen. pose proof record_size_val as Hrs. unfold length_ok, to_size.
  change (sizeof c_link_state) with 18%nat. rewrite Hrs. unfold long_bits, long_size.
  destruct abi.
  - split; reflexivity.
  - rewrite Z.eqb_eq, uwrap_small; [lia|]. change (8 * Z.of_nat 8) with 64. lia.
Qed.

(** C13: The heartbeat of a proxy.  When a proxy whose members all have other
    addresses than itself broadcasts, the packet it sends makes a receiver that
    has it as a member, and to which every proxy the packet names is known (a
    member or the receiver itself), set the timestamp of the sender to the time
    of the broadcast, which is what keeps the link alive.  What a proxy that is
    not known does to the receiver is [link_state_unknown_proxy]. *)
Theorem link_state_heartbeat sa sb p q :
  let t := hash_table sa in
  NoDup t -> t <> [] -> (length t <= broadcast_capacity)%nat ->
  members_wf sa -> time_ok (timestamp sa) ->
  (forall x, x ∈ t -> tapMAC (p_ls (the_peer (peers sa) x)) <> tapMAC (linkState sa)) ->
  world_ok sb -> locks sb = lock_init -> unlocked (peers sb) (hash_table sb) ->
  p ∈ hash_table sb -> peers sb !! p = Some q -> tapMAC (p_ls q) = tapMAC (linkState sa) ->
  tapMAC (linkState sa) <> tapMAC (linkState sb) ->
  (forall x, x ∈ t -> known (tapMAC (linkState sb)) (peers sb) (hash_table sb)
                        (tapMAC (p_ls (the_peer (peers sa) x)))) ->
  exists sb', Link_State (link_state_payload (Z.of_nat (length t)) (linkState sa)
                            (broadcast_records sa)) sb = (Ret 0, sb')
    /\ peers sb' !! p = Some (with_timestamp (timestamp sa) q)
    /\ world_ok sb' /\ locks sb' = lock_init.
Proof using Type.
  intros t Hnd Hne Hcap Hwf Hts Hother Hok Hl Hu Hp Hq Hmac Hown Hkn.
  assert (peer_mac (peers sb) p = Some (tapMAC (linkState sa))) as Hpm
    by (rewrite <- Hmac; by apply peer_mac_live).
  pose proof (broadcast_records_length sa Hnd) as Hlen. fold t in Hlen.
  apply payload_fits in Hcap as Hsz. unfold payload_size in Hsz.
  assert (1 <= record_size)%nat by (rewrite record_size_val; destruct abi; lia).
  set (own := tapMAC (linkState sb)) in *.
  set (ps' := fold_left (refresh own (hash_table sb)) (broadcast_records sa) (peers sb)).
  assert (Link_State (link_state_payload (Z.of_nat (length t)) (linkState sa)
      (broadcast_records sa)) sb = (Ret 0, set_peers ps' sb) /\ table_ok ps' (hash_table sb))
    as [Hrun Hok'].
  { apply (link_state_refreshes_run _ (linkState sa) (broadcast_records sa) p sb); try done.
    - nia.
    - rewrite Hlen. lia.
    - rewrite payload_length, Hlen. exact Hsz.
    - by apply broadcast_records_wf.
    - unfold broadcast_records. apply Forall_app. split.
      + apply Forall_map, Forall_forall. intros x Hx. right. by exists p.
      + apply neighbour_records_Forall; intros; by apply Hkn. }
  exists (set_peers ps' sb). split; [exact Hrun|]. split; [|by split].
  cbn [set_peers peers]. unfold ps', broadcast_records. rewrite fold_left_app.
  assert (fold_left (refresh own (hash_table sb))
      (origin_records (peers sa) (linkState sa) (timestamp sa) t) (peers sb) !! p
    = Some (with_timestamp (timestamp sa) q)) as E.
  { apply (fold_refresh_same _ _ _ _ p q); try done; [congruence|by destruct t|].
    apply Forall_map, Forall_forall. intros x Hx. split; [done|by apply host_net_time]. }
  fold t. rewrite (fold_refresh_others _ _ _ _ p (tapMAC (linkState sa))); [exact E| |].
  - unfold peer_mac. rewrite E. cbn. by rewrite Hmac.
  - apply neighbour_records_Forall; intros; by apply Hother.
Qed.

(** The packet [Link_State_Broadcast] sends at [now]. *)
Definition broadcast_bytes (now : timespec) (s : world) : bytes :=
  packet_bytes LINK_STATE
    (link_state_payload (Z.of_nat (length (hash_table s))) (linkState s)
       (broadcast_records (set_timestamp now s))).

(** C27: The periodic broadcast.  With at most [broadcast_capacity] members, the
    broadcast re-arms the alarm, records its time, sends the link-state packet
    and then a probe to every member, once and in this order, and stores in
    every member the time its probe carries; the table is left alone. *)
Theorem broadcast_reaches_all padding junk s now ck :
  let t := hash_table s in
  clocks (io s) = now :: ck -> (length t <= length ck)%nat ->
  connected (peers s) t -> unlocked (peers s) t -> t <> [] ->
  (length t <= broadcast_capacity)%nat -> (forall n, length (junk n) = n) ->
  writes_ready (length t + length t) (length (broadcast_bytes now s)) (io s) ->
  exists s', Link_State_Broadcast padding junk s = (Ret tt, s')
    /\ timestamp s' = now /\ hash_table s' = t /\ locks s' = locks s
    /\ forall p q, p ∈ t -> peers s !! p = Some q ->
         exists time, peers s' !! p = Some (with_probe_ts time q)
           /\ written (fd (p_rio q)) (trace (io s'))
              = written (fd (p_rio q)) (trace (io s))
                ++ broadcast_bytes now s ++ probe_bytes padding time.
Proof using Type.
  intros t Hck Hlen Hcon Hu Hne Hcap Hjunk Hrdy.
  set (e0 := set_clocks ck (log (EvAlarm (link_period (config s))) (io s))).
  set (s1 := set_timestamp now (set_io e0 s)).
  assert (written_same : forall f, written f (trace e0) = written f (trace (io s))).
  { intros f. cbn [e0 set_clocks log trace]. rewrite written_app. apply app_nil_r. }
  assert (build_packet junk s1 = (Ret (broadcast_bytes now s), s1)) as Hb.
  { pose proof (build_packet_run junk s1) as Hrun. cbv zeta in Hrun.
    change (hash_table s1) with t in Hrun. change (peers s1) with (peers s) in Hrun.
    rewrite (proj2 (Nat.leb_le _ _)) in Hrun by done. apply Hrun; [apply Hcon|done| |done].
    unfold broadcast_capacity in Hcap. destruct abi; lia. }
  destruct (iter_broadcast_to (broadcast_bytes now s) t s1 (length t))
    as (e1 & Hrun1 & [Hin1 _] & (Hc1 & Hk1 & Hp1 & Hw1 & Ha1) & Hck1); [done|done|].
  assert (12 <= length (broadcast_bytes now s))%nat as H12.
  { unfold broadcast_bytes, packet_bytes. rewrite length_app, payload_length,
      c_proxy_header_length. lia. }
  destruct (iter_probe_link padding t (set_io e1 s1))
    as (s2 & Hrun2 & (Hin2 & _ & _) & Ht2 & Hts2 & Hl2); [done| | |].
  { cbn [set_io io]. split; [done|]. split; [done|]. split; [nia|]. split; [nia|done]. }
  { cbn [set_io io]. rewrite Hck1. exact Hlen. }
  exists s2. split; [|split; [by rewrite Hts2|split; [by rewrite Ht2|split; [by rewrite Hl2|]]]].
  - unfold Link_State_Broadcast, gets at 1, bind at 1. unfold in_io at 1, zoom, emit, modify,
      bind at 1. unfold in_io at 1, zoom, clock_gettime, bind at 1.
    cbn [set_io io log clocks]. rewrite Hck. unfold bind at 1, modify.
    unfold gets at 1, bind at 1. rewrite decide_False by done.
    erewrite bind_ret_l by exact Hb. unfold hash_iter, gets, bind at 1 2.
    change (hash_table s1) with t. rewrite Hrun1. unfold bind. exact Hrun2.
  - intros p q Hp Hq. destruct (Hin2 p q Hp Hq) as (time & Hpr & Hwr).
    exists time. split; [done|]. rewrite Hwr. cbn [set_io io].
    rewrite (Hin1 p (fd (p_rio q)) Hp)
      by (unfold peer_fd; cbn [s1 set_timestamp set_io peers]; by rewrite Hq).
    change (io s1) with e0. by rewrite written_same, <- app_assoc.
Qed.

End LinkState.

(** ** Witnesses, on a 64-bit host *)

#[local] Instance example_abi : ABI := LP64.

(** A neighbour of the proxy of [example_world]: its member [1], whose only
    member is that world's member [2]. *)
Definition neighbour_world : world :=
  set_hash_table [2%positive]
    (set_io (set_clocks (replicate 3 (Timespec 100 5))
      (set_polls (replicate 300 SysOk) (set_writes (replicate 300 (WrCount 2000))
        (io example_world))))
      (set_linkState (p_ls (example_peer 5 Init.Byte.x01)) example_world)).

Definition zeros (n : nat) : bytes := replicate n Init.Byte.x00.

Lemma zeros_length n : length (zeros n) = n.
Proof. apply length_replicate. Qed.

Lemma neighbour_connected : connected (peers neighbour_world) [2%positive].
Proof.
  split; [apply NoDup_singleton|]. split.
  - intros p ->%list_elem_of_singleton. by eexists.
  - by intros p q ->%list_elem_of_singleton ->%list_elem_of_singleton.
Qed.

Lemma neighbour_unlocked : unlocked (peers neighbour_world) [2%positive].
Proof. intros p ->%list_elem_of_singleton. by eexists. Qed.

Lemma example_unlocked : unlocked (peers example_world) (hash_table example_world).
Proof.
  intros p Hp. apply list_elem_of_In in Hp. cbn in Hp.
  destruct Hp as [<-|[<-|[]]]; by eexists.
Qed.

Lemma example_known b :
  b = Init.Byte.x01 \/ b = Init.Byte.x02 ->
  known (tapMAC (linkState example_world)) (peers example_world)
    (hash_table example_world) (mac_n b).
Proof.
  intros [-> | ->]; right; [exists 1%positive|exists 2%positive]; (split; [|done]);
    [apply list_elem_of_here|apply list_elem_of_further, list_elem_of_here].
Qed.

Lemma neighbour_members_wf : members_wf neighbour_world.
Proof. split; [solve_wf|]. intros p ->%list_elem_of_singleton. solve_wf. Qed.

Lemma broadcast_packet_witness :
  build_packet zeros neighbour_world
    = (Ret (packet_bytes LINK_STATE (link_state_payload 1 (linkState neighbour_world)
              (broadcast_records neighbour_world))), neighbour_world).
Proof.
  refine (broadcast_packet zeros neighbour_world _ _ _ _).
  - apply NoDup_singleton.
  - exact neighbour_unlocked.
  - cbn. lia.
  - exact zeros_length.
Defined.

Lemma broadcast_reaches_all_witness :
  exists s', Link_State_Broadcast [] zeros neighbour_world = (Ret tt, s')
    /\ timestamp s' = Timespec 100 5.
Proof.
  destruct (broadcast_reaches_all [] zeros neighbour_world (Timespec 100 5)
    [Timespec 100 5; Timespec 100 5]) as (s' & H1 & H2 & _).
  - reflexivity.
  - cbn. lia.
  - exact neighbour_connected.
  - exact neighbour_unlocked.
  - discriminate.
  - cbn. lia.
  - exact zeros_length.
  - split; [split; [discriminate|split; by repeat constructor]|].
    split; [vm_compute; lia|]. split; [vm_compute; lia|].
    split; [vm_compute; lia|apply example_accepting].
  - exists s'. split; [exact H1|exact H2].
Defined.

Lemma link_state_refreshes_witness :
  exists s', Link_State (link_state_payload 1 (linkState neighbour_world)
      (broadcast_records neighbour_world)) example_world = (Ret 0, s').
Proof.
  eexists. refine (proj1 (link_state_refreshes 1 (linkState neighbour_world)
    (broadcast_records neighbour_world) 1%positive example_world _ _ _ _ _ _ _ _ _ _ _)).
  - exact example_world_ok.
  - reflexivity.
  - exact example_unlocked.
  - apply list_elem_of_here.
  - reflexivity.
  - discriminate.
  - lia.
  - reflexivity.
  - vm_compute. reflexivity.
  - apply broadcast_records_wf, neighbour_members_wf.
  - apply Forall_app. split.
    + apply Forall_map, Forall_forall. intros x _. apply (example_known Init.Byte.x01). auto.
    + apply neighbour_records_Forall; intros x; [|intros q];
        intros ->%list_elem_of_singleton; intros; apply (example_known Init.Byte.x02); auto.
Defined.

(** The same packet as the neighbour would send it with member [3], unknown to
    [example_world], in the place of [2]. *)
Definition stranger_world : world := set_hash_table [3%positive] neighbour_world.

Lemma link_state_unknown_proxy_witness :
  exists s', Link_State (link_state_payload 1 (linkState neighbour_world)
      (rev (broadcast_records stranger_world)))
      (set_io (set_results [9] (io example_world)) example_world) = (Undefined, s')
    /\ locks s' = lock_writing.
Proof.
  destruct (broadcast_records stranger_world) as [|r1 [|r2 [|]]] eqn:E; try discriminate E.
  cbn [rev app].
  assert (r2 = make_record (timestamp stranger_world) (p_ls (example_peer 7 Init.Byte.x03))
    (linkState stranger_world)) as -> by (by injection E).
  apply (link_state_unknown_proxy 1 (linkState neighbour_world) _ [r1] 1%positive _ 9 []
    (Timespec 100 5) (replicate 9 (Timespec 100 5))).
  - exact example_world_ok.
  - reflexivity.
  - apply list_elem_of_here.
  - reflexivity.
  - discriminate.
  - lia.
  - reflexivity.
  - rewrite payload_length. vm_compute. reflexivity.
  - apply make_record_wf; solve_wf.
  - intros [Hn|(p & Hp & Hk)]; [discriminate Hn|].
    apply list_elem_of_In in Hp. cbn in Hp. destruct Hp as [<-|[<-|[]]]; discriminate Hk.
  - reflexivity.
  - discriminate.
  - reflexivity.
Defined.

Lemma length_check_exact_witness :
  length_ok 1 134 = true <-> 22 + (1 * 1 + 1) * Z.of_nat record_size = 134.
Proof. exact (length_check_exact 1 134 ltac:(lia) ltac:(lia) ltac:(lia)). Defined.

Lemma link_state_heartbeat_witness :
  exists s', Link_State (link_state_payload 1 (linkState neighbour_world)
      (broadcast_records neighbour_world)) example_world = (Ret 0, s')
    /\ peers s' !! 1%positive
       = Some (with_timestamp (Timespec 90 1) (example_peer 5 Init.Byte.x01)).
Proof.
  destruct (link_state_heartbeat neighbour_world example_world 1%positive
    (example_peer 5 Init.Byte.x01)) as (s' & H1 & H2 & _).
  - apply NoDup_singleton.
  - discriminate.
  - cbn. lia.
  - exact neighbour_members_wf.
  - unfold time_ok. cbn. lia.
  - intros x ->%list_elem_of_singleton. discriminate.
  - exact example_world_ok.
  - reflexivity.
  - exact example_unlocked.
  - apply list_elem_of_here.
  - reflexivity.
  - reflexivity.
  - discriminate.
  - intros x ->%list_elem_of_singleton. apply example_known. auto.
  - exists s'. split; [exact H1|exact H2].
Defined.
