(* ===== verification/Heap.v ===== *)
(** * The binary heap of the routing code (src/proxy.h, 172-190; src/route.c,
    317-409)

    [heap_insert], [heap_delete] and the sifting loops, on an array of pointers
    to entries; indices are [uint32_t], so the parent of the root is far
    outside of the array.  The index of the heap, a hash table from tap MAC
    addresses to positions, is an association list: the code looks it up and
    updates the entries it finds, but never adds one. *)

From S2P Require Export Wire.

(** [heapent] (172-177), the node being given by its link state. *)
Record heapent := HeapEnt { ent_node : link_state; ent_dist : Z }.

(** [Heap] (185-190); an unset cell of [heap] is [NULL]. *)
Record Heap := MkHeap {
  size : Z;
  max : Z;
  heap : list (option heapent);
  index : list (mac * Z)
}.

Definition set_size (x : Z) (hp : Heap) : Heap := MkHeap x (max hp) (heap hp) (index hp).
Definition set_heap (x : list (option heapent)) (hp : Heap) : Heap :=
  MkHeap (size hp) (max hp) x (index hp).
Definition set_index (x : list (mac * Z)) (hp : Heap) : Heap :=
  MkHeap (size hp) (max hp) (heap hp) x.

(** [hp->heap[i]], a pointer that may be [NULL], and the entry it points to. *)
Definition cell (i : Z) : M Heap (option heapent) :=
  fun hp => deref (heap hp !! Z.to_nat i) hp.
Definition entry (i : Z) : M Heap heapent :=
  let* c := cell i in fun hp => deref c hp.

(** [hp->heap[i]=ent] *)
Definition set_cell (i : Z) (c : option heapent) : M Heap unit := fun hp =>
  if (Z.to_nat i <? length (heap hp))%nat
  then (Ret tt, set_heap (<[Z.to_nat i := c]> (heap hp)) hp) else (Undefined, hp).

(** [HASH_FIND(hh, hp->index, ...)] and [hip->index=i]: the key is only read
    when the index is not empty. *)
Fixpoint update_key (k : mac) (i : Z) (l : list (mac * Z)) : list (mac * Z) :=
  match l with
  | [] => []
  | (k', j) :: l => if decide (k' = k) then (k', i) :: l else (k', j) :: update_key k i l
  end.

Definition update_index (at_ i : Z) : M Heap unit :=
  let* l := gets index in
  match l with
  | [] => ret tt
  | _ =>
      let* e := entry at_ in
      modify (set_index (update_key (tapMAC (ent_node e)) i l))
  end.

(** [heap_alloc] (317-325) *)
Definition heap_alloc (m : Z) : Heap := MkHeap 0 m (replicate (Z.to_nat m) None) [].

(** [heap_free] (327-331), through the pointer [hp], which is left dangling; the
    entries that are still in the heap are not freed. *)
Definition heap_free : M (option Heap) unit :=
  let* hp := gets id in
  deref hp ;;;
  modify (fun _ => None).

(** The loop of [upheap] (361-378).  The index of the cell halves, so that
    [S index] passes are enough. *)
Fixpoint upheap_loop (fuel : nat) (idx parent : Z) : M Heap unit :=
  match fuel with
  | O => fail Starved
  | S fuel =>
      let* e := entry idx in
      let* p := entry parent in
      if ent_dist e <? ent_dist p then
        let* c := cell idx in
        let* c' := cell parent in
        set_cell idx c' ;;;
        set_cell parent c ;;;
        update_index parent parent ;;;
        upheap_loop fuel parent (u32 (parent - 1) / 2)
      else update_index idx idx
  end.

(** [upheap] (357-379) *)
Definition upheap (idx : Z) : M Heap unit :=
  upheap_loop (S (Z.to_nat idx)) idx (u32 (idx - 1) / 2).

(** The condition of the loop of [downheap] (388-389), evaluated from left to
    right. *)
Definition sinks_to (idx child : Z) : M Heap bool :=
  let* n := gets size in
  if child <? n then
    let* e := entry idx in
    let* c := entry child in
    ret (ent_dist c <? ent_dist e)
  else ret false.

(** The loop of [downheap] (388-408); the index grows, so that [size] passes
    are enough. *)
Fixpoint downheap_loop (fuel : nat) (idx left right : Z) : M Heap unit :=
  match fuel with
  | O => fail Starved
  | S fuel =>
      let* l := sinks_to idx left in
      let* sinks := (if l then ret true else sinks_to idx right) in
      if sinks : bool then
        let left := if left <? right then left else right in
        let* c := cell idx in
        let* c' := cell left in
        set_cell idx c' ;;;
        set_cell left c ;;;
        update_index left left ;;;
        downheap_loop fuel left (u32 (2 * left + 1)) (u32 (2 * left + 2))
      else update_index idx idx
  end.

(** [downheap] (381-409) *)
Definition downheap : M Heap unit :=
  let* n := gets size in
  downheap_loop (S (Z.to_nat n)) 0 1 2.

(** [heap_insert] (333-344) *)
Definition heap_insert (node : link_state) (dist : Z) : M Heap Z :=
  let* n := gets size in
  let* m := gets max in
  if m <=? n then ret (u32 (-1))
  else
    set_cell n (Some (HeapEnt node dist)) ;;;
    upheap n ;;;
    modify (fun hp => set_size (u32 (size hp + 1)) hp) ;;;
    ret 0.

(** [heap_delete] (346-355) *)
Definition heap_delete : M Heap (option heapent) :=
  let* n := gets size in
  if n <=? 0 then ret None
  else
    modify (set_size (n - 1)) ;;;
    let* ent := cell 0 in
    let* last := cell (n - 1) in
    set_cell 0 last ;;;
    downheap ;;;
    ret ent.

(** ** The contents and the order of a heap *)

(** The entries at the front of the array; the array has fewer than [2^31]
    cells and its index is empty, as it always is. *)
Definition array (hp : Heap) (l : list heapent) : Prop :=
  max hp = Z.of_nat (length (heap hp)) /\ max hp < 2 ^ 31 /\ index hp = []
  /\ exists rest, heap hp = map Some l ++ rest.

Definition holds (hp : Heap) (l : list heapent) : Prop :=
  size hp = Z.of_nat (length l) /\ array hp l.

Definition child (p k : nat) : Prop := k = (2 * p + 1)%nat \/ k = (2 * p + 2)%nat.

(** Every entry is at least its parent; every entry but [skip]. *)
Definition ordered (l : list heapent) : Prop :=
  forall p k a b, child p k -> l !! p = Some a -> l !! k = Some b ->
    ent_dist a <= ent_dist b.

Definition ordered_but (skip : nat) (l : list heapent) : Prop :=
  forall p k a b, child p k -> k <> skip -> l !! p = Some a -> l !! k = Some b ->
    ent_dist a <= ent_dist b.

(** The parent of [i] is at most the children of [i]. *)
Definition spans (i : nat) (l : list heapent) : Prop :=
  forall p k a b, child p i -> child i k -> l !! p = Some a -> l !! k = Some b ->
    ent_dist a <= ent_dist b.

(** Two entries exchanged. *)
Definition exchange (i j : nat) (a b : heapent) (l : list heapent) : list heapent :=
  <[j := a]> (<[i := b]> l).

(** ** Indices *)

Lemma parent_exists i : (0 < i)%nat -> exists p, child p i /\ (p < i)%nat.
Proof.
  intros Hi. unfold child. destruct (Nat.Even_or_Odd i) as [[m E]|[m E]].
  - exists (m - 1)%nat. lia.
  - exists m. lia.
Qed.

Lemma child_unique p p' k : child p k -> child p' k -> p = p'.
Proof. unfold child. lia. Qed.

Lemma parent_index p i :
  child p i -> Z.of_nat i < 2 ^ 32 -> u32 (Z.of_nat i - 1) / 2 = Z.of_nat p.
Proof.
  intros Hc Hi. unfold u32. rewrite uwrap_small by (destruct Hc; lia).
  destruct Hc as [-> | ->].
  - replace (Z.of_nat (2 * p + 1) - 1) with (Z.of_nat p * 2) by lia. by apply Z.div_mul.
  - replace (Z.of_nat (2 * p + 2) - 1) with (1 + Z.of_nat p * 2) by lia.
    rewrite Z.div_add by lia. done.
Qed.

(** ** Accesses to the array *)

Lemma array_bound hp l : array hp l -> Z.of_nat (length l) < 2 ^ 31.
Proof.
  intros (Hm & Hlt & _ & rest & E). rewrite E, length_app, length_map in Hm. lia.
Qed.

Lemma array_lookup hp l i e :
  array hp l -> l !! i = Some e -> heap hp !! i = Some (Some e).
Proof.
  intros (_ & _ & _ & rest & ->) Hi.
  rewrite lookup_app_l by (rewrite length_map; by eapply lookup_lt_Some).
  by rewrite list_lookup_fmap, Hi.
Qed.

Lemma cell_run hp l i e :
  array hp l -> l !! i = Some e -> cell (Z.of_nat i) hp = (Ret (Some e), hp).
Proof.
  intros Ha Hi. unfold cell. rewrite Nat2Z.id. by rewrite (array_lookup _ _ _ _ Ha Hi).
Qed.

Lemma entry_run hp l i e :
  array hp l -> l !! i = Some e -> entry (Z.of_nat i) hp = (Ret e, hp).
Proof. intros Ha Hi. unfold entry. by erewrite bind_ret_l by (by eapply cell_run). Qed.

Lemma set_cell_run hp l i e e' :
  array hp l -> l !! i = Some e ->
  exists hp', set_cell (Z.of_nat i) (Some e') hp = (Ret tt, hp')
    /\ array hp' (<[i := e']> l) /\ size hp' = size hp.
Proof.
  intros Ha Hi. pose proof (lookup_lt_Some _ _ _ Hi) as Hlt.
  exists (set_heap (<[i := Some e']> (heap hp)) hp).
  destruct Ha as (Hm & Hb & Hx & rest & E). split; [|split; [|done]].
  - unfold set_cell. rewrite Nat2Z.id, E, length_app, length_map.
    by rewrite (proj2 (Nat.ltb_lt _ _)) by lia.
  - split; [by cbn; rewrite length_insert|]. split; [done|]. split; [done|].
    exists rest. cbn [set_heap heap]. rewrite E, insert_app_l by (by rewrite length_map).
    by rewrite list_fmap_insert.
Qed.

Lemma update_index_empty hp at_ i :
  index hp = [] -> update_index at_ i hp = (Ret tt, hp).
Proof. intros E. unfold update_index, bind, gets. by rewrite E. Qed.

(** The exchange of two cells, as both loops do it. *)
Lemma exchange_run hp l i j a b (k : M Heap unit) :
  array hp l -> l !! i = Some a -> l !! j = Some b -> i <> j ->
  exists hp', array hp' (exchange i j a b l) /\ size hp' = size hp
    /\ (let* c := cell (Z.of_nat i) in
        let* c' := cell (Z.of_nat j) in
        set_cell (Z.of_nat i) c' ;;;
        set_cell (Z.of_nat j) c ;;;
        update_index (Z.of_nat j) (Z.of_nat j) ;;; k) hp = k hp'.
Proof.
  intros Ha Hi Hj Hne.
  destruct (set_cell_run hp l i a b Ha Hi) as (h1 & E1 & A1 & S1).
  destruct (set_cell_run h1 (<[i := b]> l) j b a A1) as (h2 & E2 & A2 & S2).
  { by rewrite list_lookup_insert_ne. }
  exists h2. split; [exact A2|]. split; [congruence|].
  erewrite bind_ret_l by (by eapply cell_run). erewrite bind_ret_l by (by eapply cell_run).
  erewrite bind_ret_l by exact E1. erewrite bind_ret_l by exact E2.
  by erewrite bind_ret_l by (apply update_index_empty; apply A2).
Qed.

Lemma exchange_lookup i j a b l k :
  l !! i = Some a -> l !! j = Some b -> i <> j ->
  exchange i j a b l !! k =
    if decide (k = j) then Some a else if decide (k = i) then Some b else l !! k.
Proof.
  intros Hi Hj Hne. apply lookup_lt_Some in Hi, Hj. unfold exchange.
  destruct (decide (k = j)) as [->|Hkj].
  - rewrite list_lookup_insert_eq; [done|]. by rewrite length_insert.
  - rewrite list_lookup_insert_ne by done. destruct (decide (k = i)) as [->|Hki].
    + by rewrite list_lookup_insert_eq.
    + by rewrite list_lookup_insert_ne.
Qed.

Lemma exchange_perm i j a b l :
  l !! i = Some a -> l !! j = Some b -> exchange i j a b l ≡ₚ l.
Proof. apply Permutation_insert_swap. Qed.

(** ** Sifting up *)

(** Exchanging the only misplaced entry with its parent moves the misplacement
    to the parent. *)
Lemma exchange_up l i p a b :
  ordered_but i l -> spans i l -> child p i -> (p < i)%nat ->
  l !! i = Some a -> l !! p = Some b -> ent_dist a < ent_dist b ->
  ordered_but p (exchange i p a b l) /\ spans p (exchange i p a b l).
Proof.
  intros Ho Hs Hc Hlt Hi Hp Hd. assert (i <> p) as Hne by lia. split.
  - intros x k c d Hck Hk. rewrite !exchange_lookup by done.
    destruct (decide (k = p)); [done|]. destruct (decide (k = i)) as [->|Hki].
    + rewrite (child_unique x p i) by done. destruct (decide (p = p)); [|done].
      intros [= <-] [= <-]. lia.
    + destruct (decide (x = p)) as [->|Hxp]; [|destruct (decide (x = i)) as [->|Hxi]].
      * intros [= <-] Hd'. pose proof (Ho p k b d Hck Hki Hp Hd'). lia.
      * intros [= <-] Hd'. exact (Hs p k b d Hc Hck Hp Hd').
      * intros Hx' Hd'. exact (Ho x k c d Hck Hki Hx' Hd').
  - intros x k c d Hcx Hck. rewrite !exchange_lookup by done.
    destruct (decide (x = p)) as [->|Hxp]; [unfold child in Hcx; lia|].
    destruct (decide (x = i)) as [->|Hxi]; [unfold child in *; lia|].
    intros Hx. pose proof (Ho x p c b Hcx ltac:(lia) Hx Hp).
    destruct (decide (k = p)) as [->|Hkp]; [unfold child in Hck; lia|].
    destruct (decide (k = i)) as [->|Hki]; [by intros [= <-]|].
    intros Hk. pose proof (Ho p k b d Hck Hki Hp Hk). lia.
Qed.

(** An entry that is not smaller than the root stops below it. *)
Lemma upheap_loop_run fuel : forall i p hp l e r,
  (i < fuel)%nat -> child p i -> (p < i)%nat ->
  array hp l -> ordered_but i l -> spans i l ->
  l !! i = Some e -> l !! 0%nat = Some r -> ent_dist r <= ent_dist e ->
  exists hp' l', upheap_loop fuel (Z.of_nat i) (Z.of_nat p) hp = (Ret tt, hp')
    /\ array hp' l' /\ size hp' = size hp /\ ordered l' /\ l' ≡ₚ l.
Proof.
  induction fuel as [|fuel IH]; intros i p hp l e r Hf Hc Hlt Ha Ho Hs Hi H0 Hr; [lia|].
  pose proof (array_bound _ _ Ha) as Hb. pose proof (lookup_lt_Some _ _ _ Hi) as Hil.
  destruct (lookup_lt_is_Some_2 l p) as [b Hp]; [lia|].
  cbn [upheap_loop]. erewrite bind_ret_l by (by eapply entry_run).
  erewrite bind_ret_l by (by eapply entry_run).
  destruct (Z.ltb_spec (ent_dist e) (ent_dist b)) as [Hlt'|Hge].
  - destruct (exchange_run hp l i p e b
      (upheap_loop fuel (Z.of_nat p) (u32 (Z.of_nat p - 1) / 2)) Ha Hi Hp) as
      (h1 & A1 & S1 & ->); [lia|].
    destruct (exchange_up l i p e b Ho Hs Hc Hlt Hi Hp Hlt') as [Ho1 Hs1].
    assert (0 < p)%nat as Hp0.
    { destruct p; [|lia]. rewrite H0 in Hp. injection Hp as <-. lia. }
    destruct (parent_exists p Hp0) as (p' & Hc' & Hlt2).
    rewrite (parent_index p' p) by (done || lia).
    destruct (IH p p' h1 (exchange i p e b l) e r) as (h2 & l2 & -> & A2 & S2 & O2 & P2);
      try done; try lia.
    + rewrite exchange_lookup by (done || lia). by rewrite decide_True.
    + rewrite exchange_lookup by (done || lia).
      rewrite decide_False, decide_False by lia. done.
    + exists h2, l2. split; [done|]. split; [done|]. split; [congruence|]. split; [done|].
      rewrite P2. by apply exchange_perm.
  - exists hp, l. rewrite update_index_empty by apply Ha.
    split; [done|]. split; [done|]. split; [done|]. split; [|done].
    intros x k a d Hck Hx Hk. destruct (decide (k = i)) as [->|Hne]; [|by eapply Ho].
    rewrite (child_unique x p i) in Hx by done. simplify_eq. lia.
Qed.

(** A new minimum rises to the root, and the loop then reads the parent of the
    root. *)
Lemma upheap_loop_minimum fuel : forall i p hp l e,
  (i < fuel)%nat -> p = u32 (Z.of_nat i - 1) / 2 ->
  array hp l -> l !! i = Some e ->
  (forall k b, k <> i -> l !! k = Some b -> ent_dist e < ent_dist b) ->
  exists hp', upheap_loop fuel (Z.of_nat i) p hp = (Undefined, hp').
Proof.
  induction fuel as [|fuel IH]; intros i p hp l e Hf -> Ha Hi Hmin; [lia|].
  pose proof (array_bound _ _ Ha) as Hb. pose proof (lookup_lt_Some _ _ _ Hi) as Hil.
  cbn [upheap_loop]. erewrite bind_ret_l by (by eapply entry_run).
  destruct (decide (i = 0%nat)) as [->|Hne].
  - exists hp. unfold bind at 1, entry, bind, cell.
    change (u32 (Z.of_nat 0 - 1) / 2) with 2147483647.
    rewrite (lookup_ge_None_2 (heap hp)); [done|].
    destruct Ha as (Hm & Hlt & _). lia.
  - destruct (parent_exists i) as (p & Hc & Hlt); [lia|].
    rewrite (parent_index p i) by (done || lia).
    destruct (lookup_lt_is_Some_2 l p) as [b Hp]; [lia|].
    erewrite bind_ret_l by (by eapply entry_run).
    rewrite (proj2 (Z.ltb_lt _ _)) by (apply (Hmin p); [lia|done]).
    destruct (exchange_run hp l i p e b
      (upheap_loop fuel (Z.of_nat p) (u32 (Z.of_nat p - 1) / 2)) Ha Hi Hp) as
      (h1 & A1 & S1 & ->); [lia|].
    apply (IH p _ h1 (exchange i p e b l) e); try done; try lia.
    + rewrite exchange_lookup by (done || lia). by rewrite decide_True.
    + intros k d Hk. rewrite exchange_lookup by (done || lia).
      rewrite decide_False by done. destruct (decide (k = i)) as [->|Hki].
      * intros [= <-]. apply (Hmin p); [lia|done].
      * by apply Hmin.
Qed.

(** ** Inserting *)

(** In an ordered array the root is a minimum. *)
Lemma ordered_root l r : ordered l -> l !! 0%nat = Some r ->
  forall k b, l !! k = Some b -> ent_dist r <= ent_dist b.
Proof.
  intros Ho H0 k. induction k as [k IH] using lt_wf_ind. intros b Hk.
  destruct (decide (k = 0%nat)) as [->|Hne]; [simplify_eq; lia|].
  destruct (parent_exists k) as (p & Hc & Hlt); [lia|].
  destruct (lookup_lt_is_Some_2 l p) as [a Hp].
  { apply lookup_lt_Some in Hk. lia. }
  pose proof (IH p Hlt a Hp). pose proof (Ho p k a b Hc Hp Hk). lia.
Qed.

Lemma set_cell_append hp l e :
  array hp l -> size hp = Z.of_nat (length l) -> size hp < max hp ->
  exists hp', set_cell (size hp) (Some e) hp = (Ret tt, hp')
    /\ array hp' (l ++ [e]) /\ size hp' = size hp /\ max hp' = max hp.
Proof.
  intros (Hm & Hb & Hx & rest & E) Hs Hlt.
  exists (set_heap (<[length l := Some e]> (heap hp)) hp).
  assert (exists c rest', rest = c :: rest') as (c & rest' & ->).
  { destruct rest; [|by eexists _, _]. rewrite E, length_app, length_map in Hm.
    simpl in Hm. lia. }
  split; [|split; [|done]].
  - unfold set_cell. rewrite Hs, Nat2Z.id, E, length_app, length_map.
    by rewrite (proj2 (Nat.ltb_lt _ _)) by (simpl; lia).
  - split; [by cbn; rewrite length_insert|]. split; [done|]. split; [done|].
    exists rest'. cbn [set_heap heap]. rewrite E, insert_app_r_alt by (by rewrite length_map).
    rewrite length_map, Nat.sub_diag, map_app, <- app_assoc. done.
Qed.

(** A new last entry is the only one that may be misplaced. *)
Lemma ordered_append l e :
  ordered l -> ordered_but (length l) (l ++ [e]) /\ spans (length l) (l ++ [e]).
Proof.
  intros Ho. split.
  - intros p k a b Hc Hk Hp Hkb.
    assert (k < length l)%nat as Hkl.
    { apply lookup_lt_Some in Hkb. rewrite length_app in Hkb. simpl in Hkb. lia. }
    assert (p < length l)%nat by (unfold child in Hc; lia).
    rewrite lookup_app_l in Hp, Hkb by done. by eapply Ho.
  - intros p k a b _ Hc _ Hk. apply lookup_lt_Some in Hk.
    rewrite length_app in Hk. simpl in Hk. unfold child in Hc. lia.
Qed.

(** ** Deleting *)

(** Sifting down ends, whatever the order, and only moves entries. *)
Lemma downheap_loop_run fuel : forall i hp l,
  (length l - i < fuel)%nat -> holds hp l -> (i < length l)%nat \/ l = [] ->
  exists hp' l', downheap_loop fuel (Z.of_nat i) (Z.of_nat (2 * i + 1))
      (Z.of_nat (2 * i + 2)) hp = (Ret tt, hp')
    /\ holds hp' l' /\ l' ≡ₚ l.
Proof.
  induction fuel as [|fuel IH]; intros i hp l Hf [Hs Ha] Hi; [lia|].
  pose proof (array_bound _ _ Ha) as Hb.
  assert (forall k, (k = 2 * i + 1 \/ k = 2 * i + 2)%nat ->
    exists b, sinks_to (Z.of_nat i) (Z.of_nat k) hp = (Ret b, hp)
      /\ (b = true -> (k < length l)%nat)) as Hsink.
  { intros k Hk. unfold sinks_to, gets, bind at 1. rewrite Hs.
    destruct (Z.ltb_spec (Z.of_nat k) (Z.of_nat (length l))) as [Hlt|]; [|by exists false].
    destruct (lookup_lt_is_Some_2 l k) as [b Hkb]; [lia|].
    destruct (lookup_lt_is_Some_2 l i) as [a Hia]; [lia|].
    erewrite bind_ret_l by (by eapply entry_run).
    erewrite bind_ret_l by (by eapply entry_run).
    eexists. split; [reflexivity|]. lia. }
  destruct (Hsink (2 * i + 1)%nat) as (bl & El & Hl); [auto|].
  destruct (Hsink (2 * i + 2)%nat) as (br & Er & Hr); [auto|].
  cbn [downheap_loop]. erewrite bind_ret_l by exact El.
  assert (exists b, (if bl then ret true else sinks_to (Z.of_nat i) (Z.of_nat (2 * i + 2))) hp
    = (Ret b, hp) /\ (b = true -> (2 * i + 1 < length l)%nat)) as (b & Eb & Hbl).
  { destruct bl; [by exists true; auto|]. exists br. split; [done|].
    intros E. apply Hr in E. lia. }
  erewrite bind_ret_l by exact Eb. destruct b.
  - rewrite (proj2 (Z.ltb_lt _ _)) by lia.
    destruct (lookup_lt_is_Some_2 l (2 * i + 1)) as [c Hc]; [auto|].
    destruct (lookup_lt_is_Some_2 l i) as [a Hia]; [specialize (Hbl eq_refl); lia|].
    pose proof (Hbl eq_refl) as Hlt. set (j := (2 * i + 1)%nat) in *.
    destruct (exchange_run hp l i j a c
      (downheap_loop fuel (Z.of_nat j) (u32 (2 * Z.of_nat j + 1)) (u32 (2 * Z.of_nat j + 2)))
      Ha Hia Hc) as (h1 & A1 & S1 & E1); [lia|].
    rewrite E1. unfold u32. rewrite !uwrap_small by lia.
    replace (2 * Z.of_nat j + 1) with (Z.of_nat (2 * j + 1)) by lia.
    replace (2 * Z.of_nat j + 2) with (Z.of_nat (2 * j + 2)) by lia.
    assert (length (exchange i j a c l) = length l) as Hel
      by (unfold exchange; by rewrite !length_insert).
    destruct (IH j h1 (exchange i j a c l)) as (h2 & l2 & -> & H2 & P2).
    + lia.
    + split; [by rewrite Hel, S1|done].
    + left. lia.
    + exists h2, l2. split; [done|]. split; [done|]. rewrite P2. by apply exchange_perm.
  - exists hp, l. rewrite update_index_empty by apply Ha. by split.
Qed.

Lemma array_prefix hp l1 l2 : array hp (l1 ++ l2) -> array hp l1.
Proof.
  intros (Hm & Hb & Hx & rest & E). split; [done|]. split; [done|]. split; [done|].
  exists (map Some l2 ++ rest). by rewrite E, map_app, <- app_assoc.
Qed.

(** The last entry takes the place of the root. *)
Lemma delete_root hp r t :
  holds hp (r :: t) ->
  exists hp' l', (let* last := cell (size hp - 1) in set_cell 0 last)
      (set_size (size hp - 1) hp) = (Ret tt, hp')
    /\ holds hp' l' /\ r :: l' ≡ₚ r :: t.
Proof.
  intros [Hs Ha]. set (h0 := set_size (size hp - 1) hp).
  assert (array h0 (r :: t)) as Ha0 by exact Ha.
  assert (exists x l' l2, (r :: t) !! (length t) = Some x /\ <[0%nat := x]> (r :: t) = l' ++ l2
    /\ length l' = length t /\ r :: l' ≡ₚ r :: t) as (x & l' & l2 & Hx & Hi & Hlen & Hp).
  { destruct t as [|x t _] using rev_ind.
    - by exists r, [], [r].
    - exists x, (x :: t), [x]. rewrite length_app. simpl. rewrite Nat.add_1_r.
      split; [simpl; rewrite lookup_app_r by lia; by rewrite Nat.sub_diag|].
      split; [done|]. split; [done|]. by rewrite (Permutation_app_comm t). }
  destruct (set_cell_run h0 (r :: t) 0 r x Ha0 eq_refl) as (h1 & E1 & A1 & S1).
  exists h1, l'. split; [|split; [split|exact Hp]].
  - replace (size hp - 1) with (Z.of_nat (length t)) by (rewrite Hs; simpl; lia).
    fold h0. erewrite bind_ret_l by (by apply (cell_run h0 (r :: t))). exact E1.
  - rewrite S1, Hlen. cbn [h0 set_size size]. rewrite Hs. simpl. lia.
  - rewrite Hi in A1. by eapply array_prefix.
Qed.

(** A new minimum reaches the root, whose parent is outside of the array. *)
Lemma heap_insert_minimum hp l node dist :
  holds hp l -> ordered l -> size hp < max hp ->
  existsb (fun r => ent_dist r <=? dist) (take 1 l) = false ->
  exists hp', heap_insert node dist hp = (Undefined, hp').
Proof.
  intros [Hs Ha] Ho Hlt Ex. unfold heap_insert. do 2 erewrite bind_ret_l by reflexivity.
  rewrite (proj2 (Z.leb_gt _ _)) by done. set (e := HeapEnt node dist).
  destruct (set_cell_append hp l e Ha Hs Hlt) as (h1 & E1 & A1 & S1 & M1).
  pose proof (array_bound _ _ A1) as Hb. rewrite length_app in Hb. simpl in Hb.
  assert ((l ++ [e]) !! length l = Some e) as He.
  { rewrite lookup_app_r, Nat.sub_diag; done. }
  destruct (ordered_append l e Ho) as [Hob Hsp].
  destruct (upheap_loop_minimum (S (length l)) (length l) (u32 (Z.of_nat (length l) - 1) / 2)
    h1 (l ++ [e]) e) as (h2 & E2); try done; [lia| |].
  - intros k b Hk Hkb. assert (k < length l)%nat as Hkl.
    { apply lookup_lt_Some in Hkb. rewrite length_app in Hkb. simpl in Hkb. lia. }
    rewrite lookup_app_l in Hkb by done. destruct l as [|r l]; [done|].
    cbn in Ex. rewrite orb_false_r in Ex. apply Z.leb_gt in Ex.
    pose proof (ordered_root _ r Ho eq_refl k b Hkb). cbn [e ent_dist]. lia.
  - exists h2. erewrite bind_ret_l by exact E1. unfold upheap. rewrite Hs, Nat2Z.id.
    unfold bind. by rewrite E2.
Qed.

(** ** Properties *)

(** Inserting into the heap.  A full heap is left alone and [-1] is
    returned.  An entry that is not smaller than the root is inserted, keeping
    the heap ordered and its other entries.  The first entry, and any new
    minimum, reaches the root, and [upheap] then reads the cell [2^31-1]. *)
Theorem heap_insert_outcome hp l node dist :
  holds hp l -> ordered l ->
  if max hp <=? size hp then heap_insert node dist hp = (Ret (2 ^ 32 - 1), hp)
  else if existsb (fun r => ent_dist r <=? dist) (take 1 l) then
    exists hp' l', heap_insert node dist hp = (Ret 0, hp')
      /\ holds hp' l' /\ ordered l' /\ l' ≡ₚ HeapEnt node dist :: l
  else exists hp', heap_insert node dist hp = (Undefined, hp').
Proof.
  intros [Hs Ha] Ho.
  destruct (Z.leb_spec (max hp) (size hp)) as [Hle|Hlt].
  { unfold heap_insert. do 2 erewrite bind_ret_l by reflexivity.
    by rewrite (proj2 (Z.leb_le _ _)). }
  destruct (existsb _ (take 1 l)) eqn:Ex; [|by apply (heap_insert_minimum hp l)].
  unfold heap_insert. do 2 erewrite bind_ret_l by reflexivity.
  rewrite (proj2 (Z.leb_gt _ _)) by done.
  set (e := HeapEnt node dist).
  destruct (set_cell_append hp l e Ha Hs Hlt) as (h1 & E1 & A1 & S1 & M1).
  pose proof (array_bound _ _ A1) as Hb. rewrite length_app in Hb. simpl in Hb.
  destruct (ordered_append l e Ho) as [Hob Hsp].
  assert ((l ++ [e]) !! length l = Some e) as He.
  { rewrite lookup_app_r, Nat.sub_diag; done. }
  destruct l as [|r l]; [done|]. cbn in Ex. rewrite orb_false_r in Ex.
  apply Z.leb_le in Ex.
  destruct (parent_exists (length (r :: l))) as (p & Hc & Hpl); [simpl; lia|].
  destruct (upheap_loop_run (S (length (r :: l))) (length (r :: l)) p h1
    ((r :: l) ++ [e]) e r)
    as (h2 & l2 & E2 & A2 & S2 & O2 & P2); try done; [lia|].
  exists (set_size (u32 (size h2 + 1)) h2), l2. split; [|split; [split; [|exact A2]|]].
  - erewrite bind_ret_l by exact E1. unfold upheap. rewrite Hs, Nat2Z.id.
    rewrite (parent_index p) by (done || lia). by erewrite bind_ret_l by exact E2.
  - cbn [set_size size]. rewrite S2, S1, Hs. unfold u32. rewrite uwrap_small by lia.
    rewrite P2, length_app. simpl. lia.
  - split; [done|]. rewrite P2. by rewrite Permutation_app_comm.
Qed.

(** C39: Deleting from the heap.  An empty heap gives [NULL].  Otherwise
    [heap_delete] returns the root, which is a minimum if the heap is ordered,
    always ends, and keeps exactly the other entries. *)
Theorem heap_delete_outcome hp l :
  holds hp l ->
  match l with
  | [] => heap_delete hp = (Ret None, hp)
  | r :: _ =>
      (exists hp' l', heap_delete hp = (Ret (Some r), hp')
         /\ holds hp' l' /\ r :: l' ≡ₚ l)
      /\ (ordered l -> forall b, b ∈ l -> ent_dist r <= ent_dist b)
  end.
Proof.
  intros Hh. pose proof Hh as [Hs Ha].
  destruct l as [|r t].
  { unfold heap_delete. erewrite bind_ret_l by reflexivity. by rewrite Hs. }
  split.
  - destruct (delete_root hp r t Hh) as (h1 & l1 & E1 & H1 & P1).
    destruct (downheap_loop_run (S (Z.to_nat (size h1))) 0 h1 l1)
      as (h2 & l2 & E2 & H2 & P2); try done.
    { destruct H1 as [-> _]. lia. }
    { destruct l1; [by right|left; simpl; lia]. }
    exists h2, l2. split; [|split; [done|by rewrite P2]].
    unfold heap_delete. erewrite bind_ret_l by reflexivity.
    rewrite (proj2 (Z.leb_gt _ _)) by (rewrite Hs; simpl; lia).
    unfold bind at 1, modify. set (h0 := set_size _ hp) in *.
    erewrite bind_ret_l by (apply (cell_run h0 (r :: t) 0 r); [exact Ha|done]).
    destruct (bind_Ret_inv _ _ _ _ _ E1) as (last & h' & Ec & Es).
    erewrite bind_ret_l by exact Ec. erewrite bind_ret_l by exact Es.
    unfold downheap, gets. unfold bind at 1 2. change (Z.of_nat 0) with 0 in E2.
    change (Z.of_nat (2 * 0 + 1)) with 1 in E2. change (Z.of_nat (2 * 0 + 2)) with 2 in E2.
    by rewrite E2.
  - intros Ho b Hb. apply list_elem_of_lookup in Hb as [k Hk].
    by apply (ordered_root (r :: t) r Ho eq_refl k).
Qed.

(** A heap with the distances of [ds], in a fresh array of [m] cells. *)
Definition heap_of (ds : list Z) (m : nat) : Heap :=
  MkHeap (Z.of_nat (length ds)) (Z.of_nat m)
    (map (fun d => Some (HeapEnt zero_link_state d)) ds ++ replicate (m - length ds) None) [].

(** Deleting breaks the order.  [downheap] never moves to the right child:
    from the ordered heap [1, 3, 2, 4], two deletions return [1] and then [3],
    while [2] is still in the heap. *)
Theorem heap_delete_breaks_order :
  ordered (map (HeapEnt zero_link_state) [1; 3; 2; 4])
  /\ holds (heap_of [1; 3; 2; 4] 8) (map (HeapEnt zero_link_state) [1; 3; 2; 4])
  /\ exists hp', (heap_delete ;;; heap_delete) (heap_of [1; 3; 2; 4] 8)
                 = (Ret (Some (HeapEnt zero_link_state 3)), hp')
       /\ Some (HeapEnt zero_link_state 2) ∈ take 2 (heap hp') /\ size hp' = 2.
Proof.
  split; [|split].
  - intros p k a b [-> | ->]; destruct p as [|[|[|[|p]]]]; cbn;
      intros ? ?; simplify_eq; cbn; lia.
  - split; [done|]. split; [done|]. split; [done|]. split; [done|]. by eexists.
  - eexists. split; [vm_compute; reflexivity|]. split; [|done].
    cbn. apply list_elem_of_In. cbn. auto.
Qed.

(** ** Witnesses *)

Definition example_heap : Heap := heap_of [1; 5; 3] 8.

Lemma example_heap_holds :
  holds example_heap (map (HeapEnt zero_link_state) [1; 5; 3]).
Proof. split; [done|]. split; [done|]. split; [done|]. split; [done|]. by eexists. Qed.

Lemma example_heap_ordered : ordered (map (HeapEnt zero_link_state) [1; 5; 3]).
Proof.
  intros p k a b [-> | ->]; destruct p as [|[|[|p]]]; cbn; intros ? ?; simplify_eq; cbn; lia.
Qed.

Lemma heap_insert_outcome_witness :
  (exists hp' l', heap_insert zero_link_state 2 example_heap = (Ret 0, hp')
     /\ ordered l' /\ length l' = 4%nat)
  /\ (exists hp', heap_insert zero_link_state 0 example_heap = (Undefined, hp')).
Proof.
  split.
  - destruct (heap_insert_outcome example_heap _ zero_link_state 2 example_heap_holds
      example_heap_ordered) as (hp' & l' & H1 & _ & H2 & H3).
    exists hp', l'. split; [exact H1|]. split; [exact H2|]. by rewrite H3.
  - exact (heap_insert_outcome example_heap _ zero_link_state 0 example_heap_holds
      example_heap_ordered).
Defined.

Lemma heap_delete_outcome_witness :
  exists hp' l', heap_delete example_heap = (Ret (Some (HeapEnt zero_link_state 1)), hp')
    /\ holds hp' l'.
Proof.
  destruct (heap_delete_outcome example_heap _ example_heap_holds)
    as [(hp' & l' & H1 & H2 & _) _].
  exists hp', l'. split; [exact H1|exact H2].
Defined.
