(* ===== verification/Graph.v ===== *)
(** * The network graph (src/proxy.h, 122-170; src/route.c, 1-220)

    The vertices and edges a proxy would learn from link-state records, with
    the functions that change them, and the beginnings of the functions that
    search them.  The hash tables of vertices and of the edges of a vertex are
    lists in application order.  A field that [malloc] leaves uninitialised is
    [None]; reading it is undefined. *)

From S2P Require Export Membership UTList Heap.

(** [edge] (proxy.h, 140-145) and [graph] (147-151), without the handles. *)
Record edge := Edge { e_node : option loc; e_timestamp : timespec; e_linkWeight : spec_float }.

Record graph := Graph { g_ls : link_state; g_nbrs : option (list loc) }.

(** The vertices and edges that are allocated, the variable [network], the
    lock, and the link state of this proxy. *)
Record gstate := GState {
  g_locks : lock_state;
  vertices : gmap loc graph;
  edges : gmap loc edge;
  network : list loc;
  own_ls : link_state }.

Definition set_g_locks (x : lock_state) (s : gstate) : gstate :=
  GState x (vertices s) (edges s) (network s) (own_ls s).
Definition set_vertices (x : gmap loc graph) (s : gstate) : gstate :=
  GState (g_locks s) x (edges s) (network s) (own_ls s).
Definition set_edges (x : gmap loc edge) (s : gstate) : gstate :=
  GState (g_locks s) (vertices s) x (network s) (own_ls s).
Definition set_network (x : list loc) (s : gstate) : gstate :=
  GState (g_locks s) (vertices s) (edges s) x (own_ls s).

Definition g_writeBegin : M gstate unit := zoom g_locks set_g_locks write_begin.
Definition g_writeEnd : M gstate unit := zoom g_locks set_g_locks write_end.

(** ** Accesses *)

Definition vertex (v : loc) : M gstate graph := fun s => deref (vertices s !! v) s.
Definition set_vertex (v : loc) (x : graph) : M gstate unit :=
  vertex v ;;; modify (fun s => set_vertices (<[v := x]> (vertices s)) s).
Definition get_edge (e : loc) : M gstate edge := fun s => deref (edges s !! e) s.
Definition set_edge (e : loc) (y : edge) : M gstate unit :=
  get_edge e ;;; modify (fun s => set_edges (<[e := y]> (edges s)) s).

(** [malloc]; the link state of a new vertex is set before it is read, like the
    timestamp and the weight of a new edge. *)
Definition alloc_vertex : M gstate loc := fun s =>
  let v := fresh (dom (vertices s)) in
  (Ret v, set_vertices (<[v := Graph zero_link_state None]> (vertices s)) s).
Definition alloc_edge : M gstate loc := fun s =>
  let e := fresh (dom (edges s)) in
  (Ret e, set_edges (<[e := Edge None (Timespec 0 0) (S754_zero false)]> (edges s)) s).
Definition free_vertex (v : loc) : M gstate unit :=
  vertex v ;;; modify (fun s => set_vertices (delete v (vertices s)) s).
Definition free_edge (e : loc) : M gstate unit :=
  get_edge e ;;; modify (fun s => set_edges (delete e (edges s)) s).

(** The keys: the tap MAC address of a vertex, and that of the vertex an edge
    leads to. *)
Definition vkey (s : gstate) (v : loc) : option mac :=
  (fun x => tapMAC (g_ls x)) <$> vertices s !! v.
Definition target (s : gstate) (e : loc) : option mac :=
  (edges s !! e ≫= e_node) ≫= vkey s.
Definition nbrs_of (s : gstate) (v : loc) : option (list loc) :=
  vertices s !! v ≫= g_nbrs.

(** [HASH_FIND] in a list of elements whose keys [key] reads. *)
Fixpoint find_in (key : loc -> option mac) (t : list loc) (k : mac) : option (option loc) :=
  match t with
  | [] => Some None
  | p :: t =>
      match key p with
      | None => None
      | Some k' => if decide (k' = k) then Some (Some p) else find_in key t k
      end
  end.

Definition find_vertex (k : mac) : M gstate (option loc) := fun s =>
  deref (find_in (vkey s) (network s) k) s.
Definition find_edge (v : loc) (k : mac) : M gstate (option loc) := fun s =>
  deref (nbrs_of s v ≫= fun l => find_in (target s) l k) s.

(** [HASH_ADD(hh, network, ...)] and [HASH_ADD(hh, v->nbrs, ...)], which read
    the key of the element. *)
Definition add_vertex (v : loc) : M gstate unit := fun s =>
  match vkey s v with
  | Some _ => (Ret tt, set_network (network s ++ [v]) s)
  | None => (Undefined, s)
  end.
Definition add_edge (v e : loc) : M gstate unit :=
  let* x := vertex v in
  let* l := deref (g_nbrs x) in
  (fun s => deref (target s e) s) ;;;
  set_vertex v (Graph (g_ls x) (Some (l ++ [e]))).

Section Routing.
Context `{ABI}.

(** ** [evaluate_record] (10-57) *)

(** The vertex of the second proxy: the one of the network, or a new one. *)
Definition second_vertex (e : loc) (ls : link_state) : M gstate loc :=
  let* n := find_vertex (tapMAC ls) in
  let* n := match n with Some n => ret n | None => alloc_vertex end in
  let* y := get_edge e in
  set_edge e (Edge (Some n) (e_timestamp y) (e_linkWeight y)) ;;;
  let* x := vertex n in
  set_vertex n (Graph ls (g_nbrs x)) ;;;
  ret n.

Definition evaluate_record (lsr : link_state_record) : M gstate unit :=
  g_writeBegin ;;;
  let* v := find_vertex (tapMAC (proxy1 lsr)) in
  let* e :=
    match v with
    | None =>
        let* v := alloc_vertex in
        let* e := alloc_edge in
        set_vertex v (Graph (proxy1 lsr) (Some [])) ;;;
        let* n := second_vertex e (proxy2 lsr) in
        let* x := vertex n in
        set_vertex n (Graph (g_ls x) (Some [])) ;;;
        add_vertex v ;;;
        add_edge v e ;;;
        ret e
    | Some v =>
        let* e := find_edge v (tapMAC (proxy2 lsr)) in
        match e with
        | None =>
            let* e := alloc_edge in
            second_vertex e (proxy2 lsr) ;;;
            add_edge v e ;;;
            ret e
        | Some e => ret e
        end
    end in
  let* y := get_edge e in
  let time := Timespec (to_long (ntohl (tv_sec (ID lsr)))) (to_long (ntohl (tv_nsec (ID lsr)))) in
  set_edge e (Edge (e_node y) time (e_linkWeight y)) ;;;
  let* n := deref (uint_of_float (linkWeight lsr)) in
  set_edge e (Edge (e_node y) time (float_of_int (ntohl n))) ;;;
  g_writeEnd.

(** [HASH_FIND(hh, network, &pp->ls.tapMAC, ETH_ALEN, node)]: the key is only
    read when the table is not empty. *)
Definition find_vertex_of (pp : loc) : M gstate (option loc) :=
  let* l := gets network in
  match l with
  | [] => ret None
  | _ => let* x := vertex pp in find_vertex (tapMAC (g_ls x))
  end.

(** ** [remove_from_network] (59-82)

    The [return] after the test of [node] is not part of its branch, so the
    loops after it are never reached. *)
Definition remove_from_network (pp : loc) : M gstate unit :=
  g_writeBegin ;;;
  let* node := find_vertex_of pp in
  match node with
  | None => g_writeEnd
  | Some _ => ret tt
  end.

(** ** [graph_free] (84-96), on the value of [network]: the variable itself
    keeps pointing to the freed vertices. *)
Fixpoint free_edges (l : list loc) : M gstate unit :=
  match l with
  | [] => ret tt
  | e :: l => get_edge e ;;; free_edge e ;;; free_edges l
  end.

Fixpoint graph_free (g : list loc) : M gstate unit :=
  match g with
  | [] => ret tt
  | v :: g =>
      let* x := vertex v in
      let* l := deref (g_nbrs x) in
      free_edges l ;;;
      free_vertex v ;;;
      graph_free g
  end.

End Routing.

(** ** The queue of the searches (205-219)

    Both functions take the pointer to the first node by value. *)

Abbreviation queues := (gmap loc (node (A := loc))).

(** [malloc] of a node and [newQ->node=peer]; [LL_APPEND] sets [newQ->next]. *)
Definition new_node (peer : loc) : M queues loc := fun m =>
  let p := fresh (dom m) in (Ret p, <[p := Node peer None]> m).

Definition enqueue (q : option loc) (peer : loc) : M queues unit :=
  let* newQ := new_node peer in
  LL_APPEND q newQ ;;;
  ret tt.

(** The assignments to the parameter [q] are not seen by the caller. *)
Definition dequeue (q : option loc) : M queues loc :=
  let* p := deref q in
  let* tmp := read_link p in
  let* _ := LL_DELETE q p in
  fun m => deref (payload <$> m !! p) m.

(** ** The searches

    The queue [q] of [shortest_path] and [bfs] is a local pointer that is never
    initialised, [None] below, and is the first thing they read once the
    vertex of this proxy has been found: [shortest_path] passes it to [enqueue],
    [bfs] evaluates [q->node].  No value is defined for it, so nothing that
    follows is. *)

(** [HASH_FIND(hh, network, &linkState.tapMAC, ETH_ALEN, node)] *)
Definition own_vertex : M gstate (option loc) :=
  let* own := gets own_ls in find_vertex (tapMAC own).

(** [shortest_path] (98-108) *)
Definition shortest_path (dest : loc) : M gstate unit :=
  let q : option (option loc) := None in
  g_writeBegin ;;;
  let* node := own_vertex in
  match node with
  | None => ret tt
  | Some node => let* q := deref q in ret tt
  end.

(** [bfs] (159-174) *)
Definition bfs : M gstate (option loc) :=
  let q : option (option loc) := None in
  g_writeBegin ;;;
  let* node := own_vertex in
  match node with
  | None => ret None
  | Some node => let* q := deref q in ret q
  end.

(** [Dijkstra]: the insertion of every vertex with the largest distance
    (286-290).  The result of [heap_insert] is used as the position of the new
    entry. *)
Fixpoint insert_all (vs : list link_state) : M Heap unit :=
  match vs with
  | [] => ret tt
  | v :: vs =>
      let* i := heap_insert v (u32 (-1)) in
      entry i ;;;
      entry i ;;;
      insert_all vs
  end.

(** [Dijkstra] (264-290), up to the end of that loop. *)
Definition Dijkstra (dest : loc) : M gstate unit :=
  g_writeBegin ;;;
  let* node := own_vertex in
  match node with
  | None => ret tt
  | Some _ =>
      let* l := gets network in
      let* vs := (fun s => deref (mapM (fun v => g_ls <$> vertices s !! v) l) s) in
      let hp := heap_alloc (u32 (Z.of_nat (length l))) in
      fun s => ((insert_all vs hp).1, s)
  end.

(** ** The abstract graph

    [edge_holds s a b i]: the network has a vertex with the address [a] and an
    edge from it to a vertex with the address [b], with the timestamp and the
    weight [i]. *)

Definition edge_info (y : edge) : timespec * spec_float := (e_timestamp y, e_linkWeight y).

Definition edge_holds (s : gstate) (a b : mac) (i : timespec * spec_float) : Prop :=
  exists v l e y, v ∈ network s /\ vkey s v = Some a /\ nbrs_of s v = Some l /\ e ∈ l /\
    target s e = Some b /\ edges s !! e = Some y /\ edge_info y = i.

(** The vertices of the network are distinct and have distinct addresses, their
    lists of edges are initialised and lead to live vertices with distinct
    addresses, and no edge is in two lists. *)
Definition graph_ok (s : gstate) : Prop :=
  NoDup (network s) /\
  (forall v, v ∈ network s -> exists l, nbrs_of s v = Some l /\
     (forall e, e ∈ l -> is_Some (target s e)) /\
     (forall e e', e ∈ l -> e' ∈ l -> target s e = target s e' -> e = e') /\ NoDup l) /\
  (forall v v', v ∈ network s -> v' ∈ network s -> vkey s v = vkey s v' -> v = v') /\
  (forall v v' l l' e, v ∈ network s -> v' ∈ network s ->
     nbrs_of s v = Some l -> nbrs_of s v' = Some l' -> e ∈ l -> e ∈ l' -> v = v').

(** The edges of the network. *)
Definition listed (s : gstate) (e : loc) : Prop :=
  exists v l, v ∈ network s /\ nbrs_of s v = Some l /\ e ∈ l.

Lemma edges_eq_target s s' e y y' :
  edges s !! e = Some y -> edges s' !! e = Some y' -> e_node y' = e_node y ->
  (forall n, e_node y = Some n -> vkey s' n = vkey s n) -> target s' e = target s e.
Proof.
  intros E E' En K. unfold target. rewrite E, E'. cbn. rewrite En.
  destruct (e_node y) as [n|]; [|done]. cbn. by apply K.
Qed.

(** The abstract graph depends on the network, its vertices and the listed
    edges only. *)
Lemma graph_agree s s' :
  network s' = network s ->
  (forall v, v ∈ network s -> vkey s' v = vkey s v /\ nbrs_of s' v = nbrs_of s v) ->
  (forall e, listed s e -> target s' e = target s e /\
     edge_info <$> edges s' !! e = edge_info <$> edges s !! e) ->
  (graph_ok s -> graph_ok s') /\ (forall a b i, edge_holds s' a b i <-> edge_holds s a b i).
Proof.
  intros EN EV EE. split.
  - intros (ND & N1 & N2 & N3). rewrite <- EN in ND. split; [done|]. rewrite EN. split; [|split].
    + intros v Hv. destruct (N1 v Hv) as (l & El & T & U & NDl). exists l.
      rewrite (proj2 (EV v Hv)). split; [done|].
      assert (forall e, e ∈ l -> target s' e = target s e) as ET.
      { intros e He. apply EE. by exists v, l. }
      split; [intros e He; rewrite ET by done; by apply T|].
      split; [|done]. intros e e' He He'. rewrite !ET by done. by apply U.
    + intros v v' Hv Hv'. rewrite (proj1 (EV v Hv)), (proj1 (EV v' Hv')). by apply N2.
    + intros v v' l l' e Hv Hv'. rewrite (proj2 (EV v Hv)), (proj2 (EV v' Hv')). by apply N3.
  - intros a b i. split; intros (v & l & e & y & Hv & Ka & Nl & He & Tb & Ey & Ei).
    + rewrite EN in Hv. destruct (EV v Hv) as [E1 E2]. rewrite E1 in Ka. rewrite E2 in Nl.
      destruct (EE e) as [E3 E4]; [by exists v, l|]. rewrite E3 in Tb. rewrite Ey in E4.
      destruct (edges s !! e) as [y'|] eqn:Ey'; [|done]. injection E4 as E4 E5.
      exists v, l, e, y'. rewrite <- Ei. unfold edge_info. by rewrite E4, E5.
    + destruct (EV v Hv) as [E1 E2]. destruct (EE e) as [E3 E4]; [by exists v, l|].
      rewrite Ey in E4. destruct (edges s' !! e) as [y'|] eqn:Ey'; [|done].
      injection E4 as E4 E5. exists v, l, e, y'. rewrite EN, E1, E2, E3. rewrite <- Ei.
      unfold edge_info. by rewrite E4, E5.
Qed.

Lemma listed_target s e : graph_ok s -> listed s e -> is_Some (target s e).
Proof.
  intros (_ & N & _) (v & l & Hv & Nl & He). destruct (N v Hv) as (l' & Nl' & T & _).
  rewrite Nl in Nl'. injection Nl' as <-. by apply T.
Qed.

Lemma target_inv s e b :
  target s e = Some b ->
  exists y n x, edges s !! e = Some y /\ e_node y = Some n /\ vertices s !! n = Some x /\
    tapMAC (g_ls x) = b.
Proof.
  unfold target, vkey. destruct (edges s !! e) as [y|]; [|done]. cbn.
  destruct (e_node y) as [n|] eqn:En; [|done]. cbn.
  destruct (vertices s !! n) as [x|] eqn:Ex; [|done]. intros [= <-]. by exists y, n, x.
Qed.

Lemma nbrs_live s v l : nbrs_of s v = Some l -> exists x, vertices s !! v = Some x /\ g_nbrs x = Some l.
Proof. unfold nbrs_of. destruct (vertices s !! v) as [x|]; [|done]. intros E. by exists x. Qed.

(** States that differ in one vertex or one edge. *)
Definition upd_vertex (v : loc) (x : graph) (s : gstate) : gstate :=
  set_vertices (<[v := x]> (vertices s)) s.
Definition upd_edge (e : loc) (y : edge) (s : gstate) : gstate :=
  set_edges (<[e := y]> (edges s)) s.

Lemma vkey_upd v x s u :
  vkey (upd_vertex v x s) u = if decide (u = v) then Some (tapMAC (g_ls x)) else vkey s u.
Proof.
  unfold vkey, upd_vertex. cbn. rewrite lookup_insert.
  destruct (decide (v = u)), (decide (u = v)); by subst.
Qed.

Lemma nbrs_upd v x s u :
  nbrs_of (upd_vertex v x s) u = if decide (u = v) then g_nbrs x else nbrs_of s u.
Proof.
  unfold nbrs_of, upd_vertex. cbn. rewrite lookup_insert.
  destruct (decide (v = u)), (decide (u = v)); by subst.
Qed.

(** A vertex outside of the network, or with the same address and edges. *)
Lemma graph_upd_vertex v x s :
  graph_ok s ->
  (vertices s !! v = None \/ vkey s v = Some (tapMAC (g_ls x)) /\
     (v ∈ network s -> nbrs_of s v = g_nbrs x)) ->
  graph_ok (upd_vertex v x s) /\
  (forall a b i, edge_holds (upd_vertex v x s) a b i <-> edge_holds s a b i).
Proof.
  intros G Hv. destruct (graph_agree s (upd_vertex v x s)) as [H1 H2]; [done| | |by split; [apply H1|]].
  - intros u Hu. rewrite vkey_upd, nbrs_upd. case_decide as D; [|done]. subst u.
    destruct Hv as [Hv|[K N]]; [|by rewrite K, N].
    destruct (proj1 (proj2 G) v Hu) as (l & Nl & _). apply nbrs_live in Nl as (y & Hy & _).
    by rewrite Hy in Hv.
  - intros e Le. split; [|done].
    destruct (listed_target s e G Le) as [b Tb]. rewrite Tb.
    apply target_inv in Tb as (y & n & z & Ey & En & Ez & Eb).
    unfold target. cbn [edges upd_vertex set_vertices]. rewrite Ey. cbn. rewrite En. cbn.
    rewrite vkey_upd. case_decide as D; [|unfold vkey; by rewrite Ez; cbn; rewrite Eb].
    subst n. destruct Hv as [Hv|[K _]]; [by rewrite Hv in Ez|].
    unfold vkey in K. rewrite Ez in K. cbn in K. congruence.
Qed.

(** An edge that is in no list. *)
Lemma graph_upd_edge e y s :
  graph_ok s -> ~ listed s e ->
  graph_ok (upd_edge e y s) /\
  (forall a b i, edge_holds (upd_edge e y s) a b i <-> edge_holds s a b i).
Proof.
  intros G He. destruct (graph_agree s (upd_edge e y s)) as [H1 H2]; [done|done| |by split; [apply H1|]].
  intros e' Le. assert (e <> e') as Hne by (by intros ->).
  unfold target, upd_edge. cbn. by rewrite lookup_insert_ne.
Qed.

(** A new vertex of the network, without edges. *)
Lemma graph_push v s :
  graph_ok s -> v ∉ network s -> nbrs_of s v = Some [] ->
  (forall u, u ∈ network s -> vkey s u <> vkey s v) ->
  graph_ok (set_network (network s ++ [v]) s) /\
  (forall a b i, edge_holds (set_network (network s ++ [v]) s) a b i <-> edge_holds s a b i).
Proof.
  intros (ND & N1 & N2 & N3) Hv Nv Kv. split.
  - split; [|split; [|split]].
    + apply NoDup_app. split; [done|]. split; [|apply NoDup_singleton].
      by intros u Hu ->%list_elem_of_singleton.
    + intros u [Hu| ->%list_elem_of_singleton]%elem_of_app; [by apply N1|].
      exists []. split; [done|]. split; [by intros e ?%not_elem_of_nil|].
        split; [by intros e e' ?%not_elem_of_nil|constructor].
    + intros u u' [Hu| ->%list_elem_of_singleton]%elem_of_app
        [Hu'| ->%list_elem_of_singleton]%elem_of_app E; [by apply N2| | |done].
      * by destruct (Kv u Hu).
      * by destruct (Kv u' Hu').
    + intros u u' l l' e [Hu| ->%list_elem_of_singleton]%elem_of_app
        [Hu'| ->%list_elem_of_singleton]%elem_of_app Nl Nl' He He'; [by apply (N3 u u' l l' e)| | |done].
      * change (nbrs_of s v = Some l') in Nl'. rewrite Nv in Nl'. injection Nl' as <-.
        by apply not_elem_of_nil in He'.
      * change (nbrs_of s v = Some l) in Nl. rewrite Nv in Nl. injection Nl as <-.
        by apply not_elem_of_nil in He.
  - intros a b i. split; intros (u & l & e & y & Hu & Ka & Nl & He & R).
    + apply elem_of_app in Hu as [Hu| ->%list_elem_of_singleton]; [by exists u, l, e, y|].
      change (nbrs_of s v = Some l) in Nl. rewrite Nv in Nl. injection Nl as <-.
      by apply not_elem_of_nil in He.
    + exists u, l, e, y. split; [|done]. apply elem_of_app. by left.
Qed.

(** A vertex of the network that loses its edges. *)
Lemma graph_clear v x s :
  graph_ok s -> v ∈ network s -> vkey s v = Some (tapMAC (g_ls x)) -> g_nbrs x = Some [] ->
  graph_ok (upd_vertex v x s) /\
  (forall a b i, edge_holds (upd_vertex v x s) a b i <->
     edge_holds s a b i /\ a <> tapMAC (g_ls x)).
Proof.
  intros (ND & N1 & N2 & N3) Hv Kv Nv.
  assert (forall u, vkey (upd_vertex v x s) u = vkey s u) as K.
  { intros u. rewrite vkey_upd. case_decide; [by subst|done]. }
  assert (forall e, target (upd_vertex v x s) e = target s e) as T.
  { intros e. unfold target. cbn. destruct (edges s !! e ≫= e_node) as [n|]; [|done].
    apply K. }
  assert (forall u l, nbrs_of (upd_vertex v x s) u = Some l ->
            u = v /\ l = [] \/ u <> v /\ nbrs_of s u = Some l) as N.
  { intros u l. rewrite nbrs_upd. case_decide; [|by right]. intros E. left. split; [done|].
    congruence. }
  split.
  - split; [done|]. split; [|split].
    + intros u Hu. destruct (N1 u Hu) as (l & Nl & L & U & NDl). rewrite nbrs_upd. case_decide.
      * exists []. split; [done|]. split; [by intros e ?%not_elem_of_nil|].
        split; [by intros e e' ?%not_elem_of_nil|constructor].
      * exists l. split; [done|]. split; [intros e; rewrite T; apply L|].
        split; [|done]. intros e e'. rewrite !T. apply U.
    + intros u u' Hu Hu'. rewrite !K. by apply N2.
    + intros u u' l l' e Hu Hu' [[_ ->]|[_ Nl]]%N [[_ ->]|[_ Nl']]%N He He'.
      * by apply not_elem_of_nil in He.
      * by apply not_elem_of_nil in He.
      * by apply not_elem_of_nil in He'.
      * by apply (N3 u u' l l' e).
  - intros a b i. split.
    + intros (u & l & e & y & Hu & Ka & [[_ ->]|[Hne Nl]]%N & He & Tb & R);
        [by apply not_elem_of_nil in He|].
      rewrite K in Ka. rewrite T in Tb. split; [by exists u, l, e, y|].
      intros ->. apply Hne. apply N2; [done|done|by rewrite Ka, Kv].
    + intros [(u & l & e & y & Hu & Ka & Nl & He & Tb & R) Ha].
      exists u, l, e, y. rewrite K, T, nbrs_upd. split; [done|]. split; [done|].
      rewrite decide_False; [done|]. intros ->. congruence.
Qed.

(** A new edge of a vertex of the network. *)
Lemma graph_link v x e l a b y s :
  graph_ok s -> v ∈ network s -> vertices s !! v = Some x -> tapMAC (g_ls x) = a ->
  g_nbrs x = Some l -> ~ listed s e -> target s e = Some b -> edges s !! e = Some y ->
  (forall e', e' ∈ l -> target s e' <> Some b) ->
  let s' := upd_vertex v (Graph (g_ls x) (Some (l ++ [e]))) s in
  graph_ok s' /\
  (forall a' b' i, edge_holds s' a' b' i <->
     edge_holds s a' b' i \/ a' = a /\ b' = b /\ i = edge_info y).
Proof.
  intros (ND & N1 & N2 & N3) Hv Ev Ka Nv Le Te Ee Fresh s'.
  assert (vkey s v = Some a) as Kv by (unfold vkey; rewrite Ev; cbn; by rewrite Ka).
  assert (nbrs_of s v = Some l) as Nl0 by (unfold nbrs_of; by rewrite Ev).
  assert (forall u, vkey s' u = vkey s u) as K.
  { intros u. unfold s'. rewrite vkey_upd. case_decide; [subst; by rewrite Kv|done]. }
  assert (forall e, target s' e = target s e) as T.
  { intros e'. unfold target. cbn. destruct (edges s !! e' ≫= e_node) as [n|]; [|done]. apply K. }
  assert (forall u m e', u ∈ network s -> nbrs_of s' u = Some m -> e' ∈ m ->
            u = v /\ e' = e \/ exists m', nbrs_of s u = Some m' /\ e' ∈ m') as N.
  { intros u m e' Hu. unfold s'. rewrite nbrs_upd. case_decide; [|intros; right; by exists m].
    subst u. intros [= <-] [He| ->%list_elem_of_singleton]%elem_of_app; [right; by exists l|by left]. }
  assert (forall u m e', u ∈ network s -> nbrs_of s u = Some m -> e' ∈ m -> e' <> e) as NE.
  { intros u m e' Hu Nm He' ->. apply Le. by exists u, m. }
  split.
  - split; [done|]. split; [|split].
    + intros u Hu. destruct (N1 u Hu) as (m & Nm & L & U & NDl). unfold s'. rewrite nbrs_upd. fold s'.
      case_decide as D.
      * subst u. rewrite Nl0 in Nm. injection Nm as <-. exists (l ++ [e]). split; [done|].
        split; [intros e' [He| ->%list_elem_of_singleton]%elem_of_app; rewrite T; [by apply L|by rewrite Te]|].
        split; [|apply NoDup_app; split; [done|]; split; [|apply NoDup_singleton];
                 intros e' He' ->%list_elem_of_singleton; by apply (NE v l e Hv Nl0 He')].
        intros e' e'' [He| ->%list_elem_of_singleton]%elem_of_app
          [He'| ->%list_elem_of_singleton]%elem_of_app; rewrite !T, ?Te; [by apply U| | |done].
        -- intros E. by destruct (Fresh e' He).
        -- intros E. by destruct (Fresh e'' He').
      * exists m. split; [done|]. split; [intros e'; rewrite T; apply L|].
        split; [|done]. intros e' e''. rewrite !T. apply U.
    + intros u u' Hu Hu'. rewrite !K. by apply N2.
    + intros u u' m m' e' Hu Hu' Nm Nm' He He'.
      destruct (N u m e' Hu Nm He) as [[E1 E2]|(n & Nn & Hn)],
        (N u' m' e' Hu' Nm' He') as [[E3 E4]|(n' & Nn' & Hn')].
      * congruence.
      * by destruct (NE u' n' e' Hu' Nn' Hn').
      * by destruct (NE u n e' Hu Nn Hn).
      * by apply (N3 u u' n n' e').
  - intros a' b' i. split.
    + intros (u & m & e' & y' & Hu & Ka' & Nm & He & Tb & Ey & Ei).
      rewrite K in Ka'. rewrite T in Tb.
      destruct (N u m e' Hu Nm He) as [[-> ->]|(n & Nn & Hn)].
      * right. rewrite Kv in Ka'. rewrite Te in Tb. change (edges s !! e = Some y') in Ey.
        rewrite Ee in Ey. split; [congruence|]. split; [congruence|]. by injection Ey as ->.
      * left. by exists u, n, e', y'.
    + intros [(u & m & e' & y' & Hu & Ka' & Nm & He & Tb & Ey & Ei)|(-> & -> & ->)].
      * exists u, (if decide (u = v) then l ++ [e] else m), e', y'. rewrite K, T.
        split; [done|]. split; [done|]. split.
        { unfold s'. rewrite nbrs_upd. by case_decide. }
        split; [|done]. case_decide; [|done]. subst u. rewrite Nl0 in Nm. injection Nm as <-.
        apply elem_of_app. by left.
      * exists v, (l ++ [e]), e, y. rewrite K, T. split; [done|]. split; [done|]. split.
        { unfold s'. rewrite nbrs_upd. by rewrite decide_True. }
        split; [apply elem_of_app; right; by left|done].
Qed.

(** The timestamp and the weight of an edge of the network. *)
Lemma graph_relabel v l e a b y i s :
  graph_ok s -> v ∈ network s -> vkey s v = Some a -> nbrs_of s v = Some l -> e ∈ l ->
  target s e = Some b -> edges s !! e = Some y ->
  let s' := upd_edge e (Edge (e_node y) (fst i) (snd i)) s in
  graph_ok s' /\
  (forall a' b' j, edge_holds s' a' b' j <->
     (a', b') = (a, b) /\ j = i \/ (a', b') <> (a, b) /\ edge_holds s a' b' j).
Proof.
  intros (ND & N1 & N2 & N3) Hv Kv Nv He Te Ee s'.
  assert (forall e, target s' e = target s e) as T.
  { intros e'. unfold target, s', upd_edge. cbn. rewrite lookup_insert.
    case_decide as D; [subst e'; by rewrite Ee|done]. }
  split.
  - split; [done|]. split; [|by split].
    intros u Hu. destruct (N1 u Hu) as (m & Nm & L & U & NDl). exists m. split; [done|].
    split; [intros e'; rewrite T; apply L|]. split; [|done]. intros e' e''. rewrite !T. apply U.
  - intros a' b' j. split.
    + intros (u & m & e' & y' & Hu & Ka & Nm & He' & Tb & Ey & Ej). rewrite T in Tb.
      unfold s', upd_edge in Ey. cbn in Ey. rewrite lookup_insert in Ey. case_decide as D.
      * subst e'. left. injection Ey as <-. change (nbrs_of s u = Some m) in Nm.
        change (vkey s u = Some a') in Ka.
        assert (v = u) as <- by by apply (N3 v u l m e). split; [congruence|].
        rewrite <- Ej. by destruct i.
      * destruct (decide ((a', b') = (a, b))) as [E|E]; [|right; split; [done|]; by exists u, m, e', y'].
        destruct D. injection E as -> ->. change (vkey s u = Some a) in Ka.
        assert (v = u) as <- by (apply N2; [done|done|congruence]).
        change (nbrs_of s v = Some m) in Nm. rewrite Nv in Nm. injection Nm as <-.
        destruct (N1 v Hv) as (m & Nm & _ & U & NDl). rewrite Nv in Nm. injection Nm as <-.
        apply U; [done|done|congruence].
    + intros [[E ->]|[E (u & m & e' & y' & Hu & Ka & Nm & He' & Tb & Ey & Ej)]].
      * injection E as -> ->. exists v, l, e, (Edge (e_node y) (fst i) (snd i)).
        rewrite T. repeat (split; [done|]). split; [|by destruct i].
        unfold s', upd_edge. cbn. apply lookup_insert_eq.
      * exists u, m, e', y'. rewrite T. repeat (split; [done|]). split; [|done].
        unfold s', upd_edge. cbn. rewrite lookup_insert_ne; [done|]. intros <-.
        assert (v = u) as <- by by apply (N3 v u l m e). apply E. congruence.
Qed.

(** ** Running the primitives *)

Definition knows (s : gstate) (a : mac) : Prop :=
  exists v, v ∈ network s /\ vkey s v = Some a.

Lemma find_in_run key t k :
  (forall p, p ∈ t -> is_Some (key p)) ->
  exists o, find_in key t k = Some o /\
    match o with
    | Some p => p ∈ t /\ key p = Some k
    | None => forall p, p ∈ t -> key p <> Some k
    end.
Proof.
  induction t as [|p t IH]; intros L; [exists None; by split; [|intros p ?%not_elem_of_nil]|].
  cbn. destruct (L p) as [k' Hk]; [by left|]. rewrite Hk. case_decide as D.
  - exists (Some p). split; [done|]. split; [by left|]. by rewrite Hk, D.
  - destruct IH as (o & -> & O); [intros; apply L; by right|]. exists o. split; [done|].
    destruct o as [q|]; [destruct O; by split; [right|]|].
    intros q [->|Hq]%elem_of_cons; [congruence|by apply O].
Qed.

Lemma network_key s v : graph_ok s -> v ∈ network s -> is_Some (vkey s v).
Proof.
  intros (_ & N & _) Hv. destruct (N v Hv) as (l & Nl & _).
  apply nbrs_live in Nl as (x & Ex & _). unfold vkey. by rewrite Ex.
Qed.

Lemma find_vertex_run s k :
  graph_ok s ->
  exists o, find_vertex k s = (Ret o, s) /\
    match o with
    | Some v => v ∈ network s /\ vkey s v = Some k
    | None => ~ knows s k
    end.
Proof.
  intros G. destruct (find_in_run (vkey s) (network s) k) as (o & E & O).
  { intros v Hv. by apply network_key. }
  exists o. unfold find_vertex. rewrite E. split; [done|]. destruct o as [v|]; [done|].
  intros (v & Hv & K). by apply (O v).
Qed.

Lemma find_edge_run s v k :
  graph_ok s -> v ∈ network s ->
  exists l o, find_edge v k s = (Ret o, s) /\ nbrs_of s v = Some l /\
    match o with
    | Some e => e ∈ l /\ target s e = Some k
    | None => forall e, e ∈ l -> target s e <> Some k
    end.
Proof.
  intros (_ & N & _) Hv. destruct (N v Hv) as (l & Nl & T & _).
  destruct (find_in_run (target s) l k T) as (o & E & O).
  exists l, o. unfold find_edge. rewrite Nl. cbn. by rewrite E.
Qed.

Lemma vertex_run s v x : vertices s !! v = Some x -> vertex v s = (Ret x, s).
Proof. unfold vertex. by intros ->. Qed.

Lemma set_vertex_run s v x :
  is_Some (vertices s !! v) -> set_vertex v x s = (Ret tt, upd_vertex v x s).
Proof.
  intros [y E]. unfold set_vertex. by rewrite (bind_ret_l _ _ _ _ _ (vertex_run s v y E)).
Qed.

Lemma get_edge_run s e y : edges s !! e = Some y -> get_edge e s = (Ret y, s).
Proof. unfold get_edge. by intros ->. Qed.

Lemma set_edge_run s e y :
  is_Some (edges s !! e) -> set_edge e y s = (Ret tt, upd_edge e y s).
Proof.
  intros [z E]. unfold set_edge. by rewrite (bind_ret_l _ _ _ _ _ (get_edge_run s e z E)).
Qed.

Lemma upd_vertex_twice v x y s : upd_vertex v y (upd_vertex v x s) = upd_vertex v y s.
Proof. unfold upd_vertex, set_vertices. cbn. by rewrite insert_insert_eq. Qed.

Lemma upd_edge_twice e x y s : upd_edge e y (upd_edge e x s) = upd_edge e y s.
Proof. unfold upd_edge, set_edges. cbn. by rewrite insert_insert_eq. Qed.

Lemma alloc_vertex_run s :
  exists v, vertices s !! v = None /\
    alloc_vertex s = (Ret v, upd_vertex v (Graph zero_link_state None) s).
Proof.
  exists (fresh (dom (vertices s))). split; [|done].
  apply not_elem_of_dom. apply is_fresh.
Qed.

Lemma alloc_edge_run s :
  exists e, edges s !! e = None /\
    alloc_edge s = (Ret e, upd_edge e (Edge None (Timespec 0 0) (S754_zero false)) s).
Proof.
  exists (fresh (dom (edges s))). split; [|done].
  apply not_elem_of_dom. apply is_fresh.
Qed.

Lemma unlisted_fresh s e : graph_ok s -> edges s !! e = None -> ~ listed s e.
Proof.
  intros G E L. destruct (listed_target s e G L) as [b T].
  apply target_inv in T as (y & n & x & Ey & _). by rewrite E in Ey.
Qed.

(** [s'] has the network, the lock and the members' vertices of [s]. *)
Definition same_network (s s' : gstate) : Prop :=
  network s' = network s /\ g_locks s' = g_locks s /\ own_ls s' = own_ls s /\
  forall u, is_Some (vertices s !! u) -> vkey s' u = vkey s u /\ nbrs_of s' u = nbrs_of s u.

Lemma same_network_listed s s' e :
  graph_ok s -> same_network s s' -> listed s' e <-> listed s e.
Proof.
  intros G (EN & _ & _ & V). unfold listed. rewrite EN.
  assert (forall v, v ∈ network s -> nbrs_of s' v = nbrs_of s v) as E.
  { intros v Hv. apply V. destruct (network_key s v G Hv) as [k K]. unfold vkey in K.
    by destruct (vertices s !! v). }
  split; intros (v & l & Hv & Nl & He); exists v, l; [rewrite <- E|rewrite E]; done.
Qed.

(** [second_vertex] on a new edge. *)
Lemma second_vertex_run s e y ls :
  graph_ok s -> edges s !! e = Some y -> ~ listed s e ->
  exists n x s', second_vertex e ls s = (Ret n, s') /\ graph_ok s' /\
    (forall a b i, edge_holds s' a b i <-> edge_holds s a b i) /\ same_network s s' /\
    edges s' = <[e := Edge (Some n) (e_timestamp y) (e_linkWeight y)]> (edges s) /\
    vertices s' !! n = Some x /\ g_ls x = ls /\
    (n ∈ network s /\ vkey s n = Some (tapMAC ls) \/
     vertices s !! n = None /\ ~ knows s (tapMAC ls)).
Proof.
  intros G Ey Le. unfold second_vertex.
  destruct (find_vertex_run s (tapMAC ls) G) as (o & R & O). rewrite (bind_ret_l _ _ _ _ _ R).
  assert (exists n x s1,
    (match o with Some n => ret n | None => alloc_vertex end) s = (Ret n, s1) /\
    vertices s1 !! n = Some x /\ upd_vertex n (Graph ls (g_nbrs x)) s1 =
      upd_vertex n (Graph ls (g_nbrs x)) s /\ edges s1 = edges s /\
    (vertices s !! n = None \/ vkey s n = Some (tapMAC ls) /\ nbrs_of s n = g_nbrs x) /\
    (n ∈ network s /\ vkey s n = Some (tapMAC ls) \/
     vertices s !! n = None /\ ~ knows s (tapMAC ls))) as (n & x & s1 & R1 & Ex & E1 & Ed1 & N & D).
  { destruct o as [n|].
    - destruct O as [Hn Kn]. assert (is_Some (vertices s !! n)) as [x Ex].
      { unfold vkey in Kn. by destruct (vertices s !! n). }
      exists n, x, s. unfold nbrs_of. rewrite Ex. repeat (split; [done|]). by split; [right|left].
    - destruct (alloc_vertex_run s) as (n & Hn & A). exists n, (Graph zero_link_state None).
      eexists. split; [exact A|]. split; [apply lookup_insert_eq|].
      split; [apply upd_vertex_twice|]. split; [done|]. by split; [left|right]. }
  rewrite (bind_ret_l _ _ _ _ _ R1).
  assert (edges s1 !! e = Some y) as Ey1 by by rewrite Ed1.
  rewrite (bind_ret_l _ _ _ _ _ (get_edge_run s1 e y Ey1)).
  set (y' := Edge (Some n) (e_timestamp y) (e_linkWeight y)).
  rewrite (bind_ret_l _ _ _ _ _ (set_edge_run s1 e y' ltac:(by rewrite Ey1))).
  assert (vertices (upd_edge e y' s1) !! n = Some x) as Ex' by done.
  rewrite (bind_ret_l _ _ _ _ _ (vertex_run (upd_edge e y' s1) n x Ex')).
  rewrite (bind_ret_l _ _ _ _ _ (set_vertex_run (upd_edge e y' s1) n _ ltac:(by rewrite Ex'))).
  change (upd_vertex n (Graph ls (g_nbrs x)) (upd_edge e y' s1)) with
    (set_edges (<[e := y']> (edges s1)) (upd_vertex n (Graph ls (g_nbrs x)) s1)).
  rewrite E1, Ed1.
  change (set_edges (<[e := y']> (edges s)) (upd_vertex n (Graph ls (g_nbrs x)) s)) with
    (upd_edge e y' (upd_vertex n (Graph ls (g_nbrs x)) s)).
  destruct (graph_upd_vertex n (Graph ls (g_nbrs x)) s G) as [G2 H2].
  { destruct N as [N|[K N]]; [by left|]. by right. }
  set (s2 := upd_vertex n (Graph ls (g_nbrs x)) s) in *.
  assert (forall u, is_Some (vertices s !! u) -> vkey s2 u = vkey s u /\ nbrs_of s2 u = nbrs_of s u) as V.
  { intros u Lu. unfold s2. rewrite vkey_upd, nbrs_upd. case_decide as Du; [|done]. subst u.
    destruct N as [N|[K N]]; [by rewrite N in Lu; destruct Lu|]. by rewrite K, N. }
  assert (same_network s s2) as SN by by split.
  assert (~ listed s2 e) as Le2 by (by rewrite (same_network_listed s)).
  destruct (graph_upd_edge e y' s2 G2 Le2) as [G3 H3].
  exists n, (Graph ls (g_nbrs x)), (upd_edge e y' s2). split; [done|]. split; [done|].
  split; [intros a b i; by rewrite H3|]. split; [done|]. split; [done|].
  split; [apply lookup_insert_eq|]. done.
Qed.

Lemma add_edge_run s v x l e b :
  vertices s !! v = Some x -> g_nbrs x = Some l -> target s e = Some b ->
  add_edge v e s = (Ret tt, upd_vertex v (Graph (g_ls x) (Some (l ++ [e]))) s).
Proof.
  intros Ex Nl T. unfold add_edge. rewrite (bind_ret_l _ _ _ _ _ (vertex_run s v x Ex)), Nl.
  rewrite (bind_ret_l _ _ _ _ _ (deref_Some l s)).
  erewrite bind_ret_l by by rewrite T. apply set_vertex_run. by rewrite Ex.
Qed.

(** The state in which the edge of a record from [a] to [b] exists, before its
    timestamp and weight are set. *)
Definition edge_ready (a b : mac) (s : gstate) (e : loc) (s' : gstate) : Prop :=
  graph_ok s' /\ g_locks s' = g_locks s /\ own_ls s' = own_ls s /\
  (exists v l y, v ∈ network s' /\ vkey s' v = Some a /\ nbrs_of s' v = Some l /\ e ∈ l /\
     target s' e = Some b /\ edges s' !! e = Some y) /\
  (forall a' b' i, (a', b') <> (a, b) ->
     edge_holds s' a' b' i <-> edge_holds s a' b' i /\ (knows s a \/ a' <> b)) /\
  (forall k, knows s' k <-> knows s k \/ k = a).

(** What [second_vertex] does for the new edge [e]. *)
Lemma target_second s s' e n x ls y :
  same_network s s' -> edges s' = <[e := Edge (Some n) (e_timestamp y) (e_linkWeight y)]> (edges s) ->
  vertices s' !! n = Some x -> g_ls x = ls -> target s' e = Some (tapMAC ls).
Proof.
  intros SN E Ex El. unfold target. rewrite E, lookup_insert_eq. cbn. unfold vkey.
  rewrite Ex. cbn. by rewrite El.
Qed.

Lemma knows_same s s' k : graph_ok s -> same_network s s' -> knows s' k <-> knows s k.
Proof.
  intros G (EN & _ & _ & V). unfold knows. rewrite EN.
  assert (forall v, v ∈ network s -> vkey s' v = vkey s v) as E.
  { intros v Hv. apply V. destruct (network_key s v G Hv) as [k' K]. unfold vkey in K.
    by destruct (vertices s !! v). }
  split; intros (v & Hv & K); exists v; [rewrite <- E|rewrite E]; done.
Qed.

(** A new edge of a vertex of the network. *)
Lemma new_edge_known s v l ls :
  graph_ok s -> v ∈ network s -> nbrs_of s v = Some l ->
  (forall e, e ∈ l -> target s e <> Some (tapMAC ls)) ->
  exists a e s', vkey s v = Some a /\
    (let* e := alloc_edge in second_vertex e ls ;;; add_edge v e ;;; ret e) s = (Ret e, s') /\
    edge_ready a (tapMAC ls) s e s'.
Proof.
  intros G Hv Nl Fresh. destruct (network_key s v G Hv) as [a Ka].
  destruct (alloc_edge_run s) as (e & He & R1). rewrite (bind_ret_l _ _ _ _ _ R1).
  set (y := Edge None (Timespec 0 0) (S754_zero false)). set (s1 := upd_edge e y s).
  pose proof (unlisted_fresh s e G He) as Le.
  destruct (graph_upd_edge e y s G Le) as [G1 H1]. fold s1 in G1, H1.
  assert (edges s1 !! e = Some y) as Ey by apply lookup_insert_eq.
  destruct (second_vertex_run s1 e y ls G1 Ey Le) as (n & x & s2 & R2 & G2 & H2 & SN & E2 & Ex & El & _).
  rewrite (bind_ret_l _ _ _ _ _ R2).
  pose proof (target_second _ _ _ _ _ _ _ SN E2 Ex El) as Te.
  assert (v ∈ network s2) as Hv2 by by rewrite (proj1 SN).
  pose proof (nbrs_live s v l Nl) as (xv & Exv & Nv).
  destruct (proj2 (proj2 (proj2 SN)) v ltac:(unfold s1; cbn; by rewrite Exv)) as [Kv2 Nv2].
  change (vkey s1 v) with (vkey s v) in Kv2. change (nbrs_of s1 v) with (nbrs_of s v) in Nv2.
  rewrite Nl in Nv2. pose proof (nbrs_live s2 v l Nv2) as (x2 & Ex2 & Nx2).
  rewrite Ka in Kv2. assert (tapMAC (g_ls x2) = a) as Ka2.
  { unfold vkey in Kv2. rewrite Ex2 in Kv2. by injection Kv2. }
  rewrite (bind_ret_l _ _ _ _ _ (add_edge_run s2 v x2 l e _ Ex2 Nx2 Te)).
  assert (~ listed s2 e) as Le2 by by rewrite (same_network_listed s1 s2).
  assert (edges s2 !! e = Some (Edge (Some n) (Timespec 0 0) (S754_zero false))) as Ee2.
  { rewrite E2. apply lookup_insert_eq. }
  destruct (graph_link v x2 e l a (tapMAC ls) _ s2 G2 Hv2 Ex2 Ka2 Nx2 Le2 Te Ee2) as [G3 H3].
  { intros e' He' T'. apply (Fresh e' He'). rewrite <- T'.
    assert (listed s e') as L' by by exists v, l.
    destruct (listed_target s e' G L') as [b' Tb]. rewrite Tb.
    apply target_inv in Tb as (y' & n' & z & Ey' & En' & Ez & Eb). unfold target. rewrite E2.
    unfold s1. cbn. rewrite !lookup_insert_ne by by intros ->. rewrite Ey'. cbn. rewrite En'. cbn.
    destruct (proj2 (proj2 (proj2 SN)) n') as [K' _]; [by unfold s1; cbn; rewrite Ez|].
    rewrite K'. unfold vkey. cbn. rewrite Ez. cbn. by rewrite Eb. }
  set (s3 := upd_vertex v _ s2) in *. exists a, e, s3. split; [done|]. split; [done|].
  assert (forall u, vkey s3 u = vkey s2 u) as K3.
  { intros u. unfold s3. rewrite vkey_upd. case_decide as D; [rewrite D, Kv2; cbn; by rewrite Ka2|done]. }
  split; [done|]. split; [apply SN|]. split; [apply SN|]. split; [|split].
  - exists v, (l ++ [e]). eexists. split; [done|]. split; [by rewrite K3|]. split.
    { unfold s3. rewrite nbrs_upd. by rewrite decide_True. }
    split; [apply elem_of_app; right; by left|]. split; [|exact Ee2].
    unfold target in *. cbn. destruct (edges s2 !! e ≫= e_node); [|done]. cbn in *. by rewrite K3.
  - intros a' b' i Hne. rewrite H3, H2, H1. split; [|tauto].
    intros [E|(-> & -> & _)]; [|done]. split; [done|]. left. by exists v.
  - intros k. transitivity (knows s2 k).
    { unfold knows. by setoid_rewrite K3. }
    rewrite (knows_same s1 s2) by done. change (knows s1 k) with (knows s k).
    split; [tauto|]. intros [Hk| ->]; [done|]. by exists v.
Qed.

(** Emptying the list of edges of the second vertex. *)
Lemma clear_second s n x k :
  graph_ok s -> vertices s !! n = Some x -> tapMAC (g_ls x) = k ->
  n ∈ network s \/ (n ∉ network s) /\ ~ knows s k ->
  let s' := upd_vertex n (Graph (g_ls x) (Some [])) s in
  graph_ok s' /\ (forall u, vkey s' u = vkey s u) /\
  (forall a b i, edge_holds s' a b i <-> edge_holds s a b i /\ a <> k).
Proof.
  intros G Ex Ek D s'.
  assert (vkey s n = Some k) as Kn by (unfold vkey; rewrite Ex; cbn; by rewrite Ek).
  assert (forall u, vkey s' u = vkey s u) as K.
  { intros u. unfold s'. rewrite vkey_upd. case_decide as Du; [rewrite Du, Kn; cbn; by rewrite Ek|done]. }
  destruct D as [Hn|[Hn Hk]].
  - destruct (graph_clear n (Graph (g_ls x) (Some [])) s G Hn) as [G' H']; [cbn; by rewrite Ek|done|].
    split; [done|]. split; [done|]. intros a b i. fold s' in H'. rewrite H'. cbn. by rewrite Ek.
  - destruct (graph_upd_vertex n (Graph (g_ls x) (Some [])) s G) as [G' H'].
    { right. split; [cbn; by rewrite Ek|done]. }
    split; [done|]. split; [done|]. intros a b i. fold s' in H'. rewrite H'. split; [|tauto].
    intros E. split; [done|]. intros ->. apply Hk. destruct E as (v & l & e & y & Hv & Ka & _).
    by exists v.
Qed.

(** A new vertex enters the network with its first edge. *)
Lemma push_and_link s v e b y :
  graph_ok s -> v ∉ network s -> ~ listed s e -> nbrs_of s v = Some [] ->
  target s e = Some b -> edges s !! e = Some y ->
  forall a, vkey s v = Some a -> ~ knows s a ->
  exists s', (add_vertex v ;;; add_edge v e ;;; ret e) s = (Ret e, s') /\
    graph_ok s' /\ g_locks s' = g_locks s /\ own_ls s' = own_ls s /\
    (exists l y, v ∈ network s' /\ vkey s' v = Some a /\ nbrs_of s' v = Some l /\ e ∈ l /\
       target s' e = Some b /\ edges s' !! e = Some y) /\
    (forall a' b' i, (a', b') <> (a, b) -> edge_holds s' a' b' i <-> edge_holds s a' b' i) /\
    (forall k, knows s' k <-> knows s k \/ k = a).
Proof.
  intros G Hv Le Nv Te Ee a Ka Hnew. pose proof (nbrs_live s v [] Nv) as (x & Ex & Nx).
  assert (tapMAC (g_ls x) = a) as Ea by (unfold vkey in Ka; rewrite Ex in Ka; by injection Ka).
  destruct (graph_push v s G Hv Nv) as [G1 H1].
  { intros u Hu E. apply Hnew. exists u. by rewrite E. }
  set (s1 := set_network (network s ++ [v]) s) in *.
  erewrite bind_ret_l by (unfold add_vertex; by rewrite Ka). fold s1.
  assert (~ listed s1 e) as Le1.
  { intros (u & l & [Hu| ->%list_elem_of_singleton]%elem_of_app & Nl & He).
    - apply Le. by exists u, l.
    - change (nbrs_of s v = Some l) in Nl. rewrite Nv in Nl. injection Nl as <-.
      by apply not_elem_of_nil in He. }
  assert (v ∈ network s1) as Hv1 by (apply elem_of_app; right; by left).
  rewrite (bind_ret_l _ _ _ _ _ (add_edge_run s1 v x [] e b Ex Nx Te)).
  destruct (graph_link v x e [] a b y s1 G1 Hv1 Ex Ea Nx Le1 Te Ee) as [G2 H2].
  { by intros e' ?%not_elem_of_nil. }
  set (s2 := upd_vertex v _ s1) in *. exists s2. split; [done|]. split; [done|].
  split; [done|]. split; [done|].
  assert (forall u, vkey s2 u = vkey s u) as K2.
  { intros u. unfold s2. rewrite vkey_upd. case_decide as Du; [rewrite Du, Ka; cbn; by rewrite Ea|done]. }
  split; [|split].
  - exists [e], y. split; [done|]. split; [by rewrite K2|]. split.
    { unfold s2. rewrite nbrs_upd. by rewrite decide_True. }
    split; [by left|]. split; [|done]. unfold target in *. cbn.
    destruct (edges s !! e ≫= e_node); [|done]. cbn in *. by rewrite K2.
  - intros a' b' i Hne. rewrite H2, H1. split; [|tauto]. intros [E|(-> & -> & _)]; done.
  - intros k. unfold knows. setoid_rewrite K2. cbn. setoid_rewrite elem_of_app.
    setoid_rewrite list_elem_of_singleton. split.
    + intros (u & [Hu| ->] & Ku); [left; by exists u|right; congruence].
    + intros [(u & Hu & Ku)| ->]; [exists u; tauto|exists v; tauto].
Qed.

(** A vertex outside of the network does not count. *)
Lemma knows_upd_outside s v x k : v ∉ network s -> knows (upd_vertex v x s) k <-> knows s k.
Proof.
  intros Hv. unfold knows. change (network (upd_vertex v x s)) with (network s).
  split; intros (u & Hu & K); exists u; (split; [done|]);
    [rewrite <- K; symmetry|rewrite <- K]; rewrite vkey_upd, decide_False; congruence.
Qed.

(** Clearing the edges of a vertex lists no edge. *)
Lemma listed_clear s n x e : listed (upd_vertex n (Graph (g_ls x) (Some [])) s) e -> listed s e.
Proof.
  intros (u & l & Hu & Nl & Hl). rewrite nbrs_upd in Nl. case_decide as Du.
  - injection Nl as <-. by apply not_elem_of_nil in Hl.
  - by exists u, l.
Qed.

(** A new vertex with its first edge. *)
Lemma new_edge_unknown s ls1 ls2 :
  graph_ok s -> ~ knows s (tapMAC ls1) ->
  exists e s',
    (let* v := alloc_vertex in
     let* e := alloc_edge in
     set_vertex v (Graph ls1 (Some [])) ;;;
     let* n := second_vertex e ls2 in
     let* x := vertex n in
     set_vertex n (Graph (g_ls x) (Some [])) ;;;
     add_vertex v ;;; add_edge v e ;;; ret e) s = (Ret e, s') /\
    edge_ready (tapMAC ls1) (tapMAC ls2) s e s'.
Proof.
  intros G Hnew. destruct (alloc_vertex_run s) as (v & Hv & R1).
  rewrite (bind_ret_l _ _ _ _ _ R1). set (s0 := upd_vertex v _ s).
  destruct (alloc_edge_run s0) as (e & He & R2). rewrite (bind_ret_l _ _ _ _ _ R2).
  set (y := Edge None (Timespec 0 0) (S754_zero false)).
  rewrite (bind_ret_l _ _ _ _ _ (set_vertex_run (upd_edge e y s0) v (Graph ls1 (Some []))
             ltac:(cbn; by rewrite lookup_insert_eq))).
  change (upd_vertex v (Graph ls1 (Some [])) (upd_edge e y s0)) with
    (upd_edge e y (upd_vertex v (Graph ls1 (Some [])) s0)).
  unfold s0. rewrite upd_vertex_twice. change (edges s !! e = None) in He. clear s0 R1 R2.
  set (xv := Graph ls1 (Some [])). set (s1 := upd_vertex v xv s).
  destruct (graph_upd_vertex v xv s G (or_introl Hv)) as [G1 H1]. fold s1 in G1, H1.
  assert (v ∉ network s) as Hvn.
  { intros Hn. destruct (network_key s v G Hn) as [k K]. unfold vkey in K. by rewrite Hv in K. }
  pose proof (unlisted_fresh s1 e G1 He) as Le1.
  destruct (graph_upd_edge e y s1 G1 Le1) as [G2 H2]. set (s2 := upd_edge e y s1) in *.
  assert (edges s2 !! e = Some y) as Ey by apply lookup_insert_eq.
  assert (vertices s2 !! v = Some xv) as Exv by apply lookup_insert_eq.
  destruct (second_vertex_run s2 e y ls2 G2 Ey Le1)
    as (n & x & s3 & R3 & G3 & H3 & SN & E3 & Ex & El & Dn).
  rewrite (bind_ret_l _ _ _ _ _ R3), (bind_ret_l _ _ _ _ _ (vertex_run s3 n x Ex)).
  rewrite (bind_ret_l _ _ _ _ _ (set_vertex_run s3 n _ ltac:(by rewrite Ex))).
  pose proof (target_second _ _ _ _ _ _ _ SN E3 Ex El) as Te.
  destruct (proj2 (proj2 (proj2 SN)) v ltac:(by rewrite Exv)) as [Kv Nv].
  assert (vkey s2 v = Some (tapMAC ls1)) as Kv2 by (unfold vkey; by rewrite Exv).
  assert (nbrs_of s2 v = Some []) as Nv2 by (unfold nbrs_of; by rewrite Exv).
  assert (network s3 = network s) as EN by apply SN.
  assert (forall k, knows s3 k <-> knows s k) as Kn3.
  { intros k. rewrite (knows_same s2 s3) by done. by apply (knows_upd_outside s v xv). }
  assert (n <> v) as Hnv.
  { destruct Dn as [[Hn _]|[Hn _]]; [by intros ->|]. intros ->. by rewrite Exv in Hn. }
  destruct (clear_second s3 n x (tapMAC ls2) G3 Ex ltac:(by rewrite El)) as (G4 & K4 & H4).
  { destruct Dn as [[Hn _]|[Hn Hk]]; [left; by rewrite EN|right]. split.
    - rewrite EN. intros Hn'. destruct (network_key s2 n G2 Hn') as [k K].
      unfold vkey in K. by rewrite Hn in K.
    - by rewrite (knows_same s2 s3). }
  set (s4 := upd_vertex n _ s3) in *.
  assert (forall k, knows s4 k <-> knows s k) as Kn4.
  { intros k. rewrite <- Kn3. unfold knows. by setoid_rewrite K4. }
  assert (~ listed s4 e) as Le4.
  { intros Hl%listed_clear. by rewrite (same_network_listed s2 s3) in Hl. }
  destruct (push_and_link s4 v e (tapMAC ls2) (Edge (Some n) (e_timestamp y) (e_linkWeight y)) G4)
    with (a := tapMAC ls1) as (s5 & R5 & G5 & L5 & O5 & W5 & H5 & Kn5); try done.
  - unfold s4. cbn. by rewrite EN.
  - unfold s4. rewrite nbrs_upd. rewrite decide_False by done. by rewrite Nv, Nv2.
  - unfold target in *. cbn. destruct (edges s3 !! e ≫= e_node); [|done]. cbn in *. by rewrite K4.
  - unfold s4. cbn. rewrite E3. apply lookup_insert_eq.
  - by rewrite K4, Kv, Kv2.
  - by rewrite Kn4.
  - exists e, s5. split; [exact R5|]. split; [done|].
    split; [rewrite L5; apply SN|]. split; [rewrite O5; apply SN|]. split; [|split].
    + destruct W5 as (l & y' & W5). by exists v, l, y'.
    + intros a b i Hne. rewrite H5, H4, H3, H2, H1 by done. tauto.
    + intros k. by rewrite Kn5, Kn4.
Qed.

(** What a record says about its edge, if its weight can be converted. *)
Definition record_info `{ABI} (lsr : link_state_record) : option (timespec * spec_float) :=
  n ← uint_of_float (linkWeight lsr);
  Some (Timespec (to_long (ntohl (tv_sec (ID lsr)))) (to_long (ntohl (tv_nsec (ID lsr)))),
        float_of_int (ntohl n)).

(** The edge of a record exists, whichever branch made it. *)
Lemma record_edge s ls1 ls2 :
  graph_ok s ->
  exists e s',
    (let* v := find_vertex (tapMAC ls1) in
     match v with
     | None =>
         let* v := alloc_vertex in
         let* e := alloc_edge in
         set_vertex v (Graph ls1 (Some [])) ;;;
         let* n := second_vertex e ls2 in
         let* x := vertex n in
         set_vertex n (Graph (g_ls x) (Some [])) ;;;
         add_vertex v ;;; add_edge v e ;;; ret e
     | Some v =>
         let* e := find_edge v (tapMAC ls2) in
         match e with
         | None => let* e := alloc_edge in second_vertex e ls2 ;;; add_edge v e ;;; ret e
         | Some e => ret e
         end
     end) s = (Ret e, s') /\ edge_ready (tapMAC ls1) (tapMAC ls2) s e s'.
Proof.
  intros G. destruct (find_vertex_run s (tapMAC ls1) G) as (o & Ro & O).
  rewrite (bind_ret_l _ _ _ _ _ Ro). destruct o as [v|]; [|by apply new_edge_unknown].
  destruct O as [Hv Kv]. destruct (find_edge_run s v (tapMAC ls2) G Hv) as (l & o & Re & Nl & O).
  rewrite (bind_ret_l _ _ _ _ _ Re). destruct o as [e|].
  - destruct O as [He Te]. exists e, s. split; [done|]. split; [done|]. split; [done|].
    split; [done|]. pose proof (target_inv s e _ Te) as (y & n & x & Ey & _).
    split; [by exists v, l, y|]. split.
    + intros a b i _. split; [|tauto]. intros E. split; [done|]. left. by exists v.
    + intros k. split; [tauto|]. intros [Hk| ->]; [done|]. by exists v.
  - destruct (new_edge_known s v l ls2 G Hv Nl O) as (a & e & s' & Ka & R & E).
    rewrite Kv in Ka. injection Ka as <-. by exists e, s'.
Qed.

(** C15: Learning an edge.  From a well-formed graph, with the lock free,
    [evaluate_record] ends with the lock free and a well-formed graph in which
    the first proxy of the record is a vertex and has an edge to the second one,
    with the timestamp and the weight of the record.  Every other edge is as
    before, except those of the second proxy when the first one was new: they
    are lost, because the list of edges of its vertex is reset.  A weight that
    does not fit an unsigned integer is undefined, with the lock held. *)
Theorem evaluate_record_correct `{ABI} lsr s :
  graph_ok s -> g_locks s = lock_init ->
  let a := tapMAC (proxy1 lsr) in let b := tapMAC (proxy2 lsr) in
  match record_info lsr with
  | Some info =>
      exists s', evaluate_record lsr s = (Ret tt, s') /\
        g_locks s' = lock_init /\ graph_ok s' /\
        (forall k, knows s' k <-> knows s k \/ k = a) /\
        (forall a' b' i, edge_holds s' a' b' i <->
           (a', b') = (a, b) /\ i = info \/
           (a', b') <> (a, b) /\ edge_holds s a' b' i /\ (knows s a \/ a' <> b))
  | None => exists s', evaluate_record lsr s = (Undefined, s') /\ g_locks s' = lock_writing
  end.
Proof.
  intros G L a b. unfold evaluate_record.
  assert (g_writeBegin s = (Ret tt, set_g_locks lock_writing s)) as B.
  { unfold g_writeBegin, zoom. by rewrite L. }
  rewrite (bind_ret_l _ _ _ _ _ B). set (s0 := set_g_locks lock_writing s).
  assert (graph_ok s0) as G0 by done.
  destruct (record_edge s0 (proxy1 lsr) (proxy2 lsr) G0) as (e & s1 & R & ER).
  rewrite <- bind_assoc. rewrite (bind_ret_l _ _ _ _ _ R).
  destruct ER as (G1 & L1 & _ & (v & l & y & Hv & Ka & Nl & He & Te & Ey) & H1 & K1).
  rewrite (bind_ret_l _ _ _ _ _ (get_edge_run s1 e y Ey)).
  cbv zeta. rewrite (bind_ret_l _ _ _ _ _ (set_edge_run s1 e _ ltac:(by rewrite Ey))).
  unfold record_info. destruct (uint_of_float (linkWeight lsr)) as [w|]; cbn [mbind option_bind];
    [|eexists; split; [reflexivity|exact L1]].
  erewrite bind_ret_l by reflexivity.
  erewrite bind_ret_l by (apply set_edge_run; cbn; rewrite lookup_insert_eq; by eexists).
  rewrite upd_edge_twice. set (info := (_, float_of_int (ntohl w))).
  destruct (graph_relabel v l e _ _ y info s1 G1 Hv Ka Nl He Te Ey) as [G2 H2].
  change (Edge (e_node y) _ _) with (Edge (e_node y) info.1 info.2).
  set (s2 := upd_edge e _ s1) in *.
  assert (g_writeEnd s2 = (Ret tt, set_g_locks lock_init s2)) as E.
  { unfold g_writeEnd, zoom. cbn. by rewrite L1. }
  exists (set_g_locks lock_init s2). split; [exact E|]. split; [done|]. split; [done|].
  split; [exact K1|]. intros a' b' i.
  change (edge_holds (set_g_locks lock_init s2) a' b' i) with (edge_holds s2 a' b' i).
  rewrite H2. fold a b. split.
  - intros [E1|[Hne E1]]; [by left|right]. split; [done|]. by apply H1.
  - intros [E1|[Hne E1]]; [by left|right]. split; [done|]. by apply H1.
Qed.

(** ** Freeing the graph *)

(** Removing the first element of a list and then the others. *)
Lemma delete_then_rest {A} (m : gmap loc A) (p : loc) (l : list loc) (q : loc) :
  (if decide (q ∈ l) then None else delete p m !! q) =
  (if decide (q ∈ p :: l) then None else m !! q).
Proof.
  rewrite lookup_delete. destruct (decide (q ∈ l)) as [D|D].
  { by rewrite decide_True by by right. }
  destruct (decide (p = q)) as [->|E].
  { by rewrite decide_True by by left. }
  rewrite decide_False; [done|]. by intros [->|H]%elem_of_cons.
Qed.

Lemma free_edges_run l : forall s,
  NoDup l -> (forall e, e ∈ l -> is_Some (edges s !! e)) ->
  exists m, free_edges l s = (Ret tt, set_edges m s) /\
    forall e, m !! e = if decide (e ∈ l) then None else edges s !! e.
Proof.
  induction l as [|e l IH]; intros s ND Live.
  { exists (edges s). split; [by destruct s|]. intros e. by rewrite decide_False by apply not_elem_of_nil. }
  apply NoDup_cons in ND as [He ND]. destruct (Live e) as [y Ey]; [by left|]. cbn [free_edges].
  rewrite (bind_ret_l _ _ _ _ _ (get_edge_run s e y Ey)).
  set (s1 := set_edges (delete e (edges s)) s).
  assert (free_edge e s = (Ret tt, s1)) as R.
  { unfold free_edge. by rewrite (bind_ret_l _ _ _ _ _ (get_edge_run s e y Ey)). }
  rewrite (bind_ret_l _ _ _ _ _ R).
  destruct (IH s1 ND) as (m & Rm & Hm).
  { intros e' He'. unfold s1. cbn. rewrite lookup_delete_ne by (by intros ->).
    apply Live. by right. }
  exists m. split; [done|]. intros e'. rewrite Hm. apply delete_then_rest.
Qed.

(** The edges of the vertices [g]. *)
Definition edges_of (s : gstate) (g : list loc) (e : loc) : Prop :=
  exists v l, v ∈ g /\ nbrs_of s v = Some l /\ e ∈ l.

Lemma graph_free_run g : forall s,
  NoDup g ->
  (forall v, v ∈ g -> exists l, nbrs_of s v = Some l /\ NoDup l /\
     forall e, e ∈ l -> is_Some (edges s !! e)) ->
  (forall v v' l l' e, v ∈ g -> v' ∈ g -> nbrs_of s v = Some l -> nbrs_of s v' = Some l' ->
     e ∈ l -> e ∈ l' -> v = v') ->
  exists s', graph_free g s = (Ret tt, s') /\ network s' = network s /\
    (forall v, vertices s' !! v = if decide (v ∈ g) then None else vertices s !! v) /\
    (forall e, edges_of s g e -> edges s' !! e = None) /\
    (forall e, ~ edges_of s g e -> edges s' !! e = edges s !! e).
Proof.
  induction g as [|v g IH]; intros s ND N Disj.
  { exists s. split; [done|]. split; [done|]. split; [|split; [|done]].
    - intros v. by rewrite decide_False by apply not_elem_of_nil.
    - by intros e (v & l & ?%not_elem_of_nil & _). }
  apply NoDup_cons in ND as [Hv ND].
  destruct (N v) as (l & Nl & NDl & Live); [by left|].
  pose proof (nbrs_live s v l Nl) as (x & Ex & Nx). cbn [graph_free].
  rewrite (bind_ret_l _ _ _ _ _ (vertex_run s v x Ex)), Nx.
  rewrite (bind_ret_l _ _ _ _ _ (deref_Some l s)).
  destruct (free_edges_run l s NDl Live) as (m & R & Hm). rewrite (bind_ret_l _ _ _ _ _ R).
  set (s1 := set_vertices (delete v (vertices s)) (set_edges m s)).
  assert (free_vertex v (set_edges m s) = (Ret tt, s1)) as R1.
  { unfold free_vertex.
    by rewrite (bind_ret_l _ _ _ _ _ (vertex_run (set_edges m s) v x Ex)). }
  rewrite (bind_ret_l _ _ _ _ _ R1).
  assert (forall u, u <> v -> nbrs_of s1 u = nbrs_of s u) as N1.
  { intros u Hu. unfold nbrs_of, s1. cbn. by rewrite lookup_delete_ne by done. }
  destruct (IH s1 ND) as (s' & R' & EN & HV & HE1 & HE2).
  { intros u Hu. assert (u <> v) as Huv by by intros ->.
    destruct (N u) as (l' & Nl' & NDl' & Live'); [by right|]. exists l'. rewrite N1 by done.
    split; [done|]. split; [done|]. intros e He. unfold s1. cbn. rewrite Hm.
    rewrite decide_False; [by apply Live'|]. intros He'. apply Huv.
    apply (Disj u v l' l e); [by right|by left|done|done|done|done]. }
  { intros u u' l1 l2 e Hu Hu'. rewrite !N1 by (by intros ->).
    apply Disj; by right. }
  assert (forall e, edges_of s1 g e <-> edges_of s g e) as EO.
  { intros e. unfold edges_of. split; intros (u & l' & Hu & Nl' & He); exists u, l';
      (split; [done|]); (split; [|done]).
    - by rewrite <- N1 by (by intros ->).
    - by rewrite N1 by (by intros ->). }
  exists s'. split; [done|]. split; [done|]. split; [|split].
  - intros u. rewrite HV. apply delete_then_rest.
  - intros e (u & l' & [->|Hu]%elem_of_cons & Nl' & He).
    + rewrite Nl in Nl'. injection Nl' as <-.
      destruct (edges s' !! e) as [y|] eqn:Ey; [|done].
      rewrite HE2 in Ey; [unfold s1 in Ey; cbn in Ey; by rewrite Hm, decide_True in Ey|].
      rewrite EO. intros (u & l' & Hu & Nl' & He').
      assert (u = v) as -> by (apply (Disj u v l' l e); [by right|by left|done|done|done|done]).
      done.
    + apply HE1, EO. by exists u, l'.
  - intros e He. rewrite HE2.
    + unfold s1. cbn. rewrite Hm. rewrite decide_False; [done|].
      intros Hl. apply He. exists v, l. split; [by left|done].
    + rewrite EO. intros (u & l' & Hu & Nl' & Hl). apply He. exists u, l'.
      split; [by right|done].
Qed.

(** Forgetting a vertex.  [remove_from_network] leaves the graph as it is.  It
    returns with the lock free when the vertex is unknown, and with the write
    lock held when it is known. *)
Theorem remove_from_network_outcome pp x s :
  graph_ok s -> g_locks s = lock_init -> vertices s !! pp = Some x ->
  exists s', remove_from_network pp s = (Ret tt, s') /\
    vertices s' = vertices s /\ edges s' = edges s /\ network s' = network s /\
    (knows s (tapMAC (g_ls x)) -> g_locks s' = lock_writing) /\
    (~ knows s (tapMAC (g_ls x)) -> g_locks s' = lock_init).
Proof.
  intros G L Ex. unfold remove_from_network.
  assert (g_writeBegin s = (Ret tt, set_g_locks lock_writing s)) as B.
  { unfold g_writeBegin, zoom. by rewrite L. }
  rewrite (bind_ret_l _ _ _ _ _ B). set (s0 := set_g_locks lock_writing s).
  assert (graph_ok s0) as G0 by done.
  destruct (find_vertex_run s0 (tapMAC (g_ls x)) G0) as (o & Ro & O).
  assert (find_vertex_of pp s0 = (Ret o, s0)) as R.
  { unfold find_vertex_of. erewrite bind_ret_l by reflexivity.
    destruct (network s0) as [|u l] eqn:En.
    - unfold find_vertex in Ro. rewrite En in Ro. injection Ro as <-. done.
    - by rewrite (bind_ret_l _ _ _ _ _ (vertex_run s0 pp x Ex)). }
  rewrite (bind_ret_l _ _ _ _ _ R).
  destruct o as [v|].
  - exists s0. split; [done|]. repeat (split; [done|]). intros Hk. destruct Hk. by exists v.
  - exists (set_g_locks lock_init s0). split; [done|]. by repeat (split; [done|]).
Qed.

(** Freeing the graph.  [graph_free], called on the network of a well-formed
    graph, ends, frees its vertices and their edges, each once, and nothing
    else; the variable [network] still points to what was freed. *)
Theorem graph_free_outcome s :
  graph_ok s ->
  exists s', graph_free (network s) s = (Ret tt, s') /\ network s' = network s /\
    (forall v, vertices s' !! v = if decide (v ∈ network s) then None else vertices s !! v) /\
    (forall e, listed s e -> edges s' !! e = None) /\
    (forall e, ~ listed s e -> edges s' !! e = edges s !! e).
Proof.
  intros (ND & N1 & _ & N3). apply graph_free_run; [done| |done].
  intros v Hv. destruct (N1 v Hv) as (l & Nl & T & _ & NDl). exists l.
  split; [done|]. split; [done|]. intros e He. destruct (T e He) as [b Tb].
  apply target_inv in Tb as (y & n & x & -> & _). by eexists.
Qed.

(** ** The queue *)

Lemma new_node_run peer (m : queues) :
  exists p, m !! p = None /\ new_node peer m = (Ret p, <[p := Node peer None]> m).
Proof.
  exists (fresh (dom m)). split; [|done]. apply not_elem_of_dom, is_fresh.
Qed.

(** The queue works at its tail only.  On a queue that is not empty [enqueue]
    appends.  On an empty one the new node is reachable from no pointer of the
    caller, whose queue stays empty.  [dequeue] returns the oldest element and
    leaves the queue as it was, so that a loop on [dequeue] sees the same
    element for ever; on an empty queue it is undefined. *)
Theorem queue_by_value q (l : list loc) (m : queues) peer :
  chain m q l -> NoDup l ->
  (exists m' p, enqueue q peer m = (Ret tt, m') /\ m !! p = None /\
     payload <$> m' !! p = Some peer /\
     chain m' q (match q with Some _ => l ++ [p] | None => [] end)) /\
  match q with
  | Some p => exists n, m !! p = Some n /\ dequeue q m = (Ret (payload n), m)
  | None => dequeue q m = (Undefined, m)
  end.
Proof.
  intros C ND. split.
  - destruct (new_node_run peer m) as (p & Hp & R).
    unfold enqueue. rewrite (bind_ret_l _ _ _ _ _ R). set (m1 := <[p := _]> m).
    assert (p ∉ l) as Hpl by (intros Hl; destruct (chain_live m q l p C Hl); congruence).
    destruct (LL_APPEND_run m1 q l p) as (m' & R' & C' & P');
      [by apply chain_insert|done|unfold m1; by rewrite lookup_insert_eq|done|].
    rewrite (bind_ret_l _ _ _ _ _ R'). exists m', p. split; [done|]. split; [done|]. split.
    + rewrite <- lookup_fmap, P', lookup_fmap. unfold m1. by rewrite lookup_insert_eq.
    + by destruct q.
  - unfold dequeue. destruct q as [p|]; [|done].
    destruct l as [|p' l]; [done|]. destruct C as ([= <-] & n & En & C).
    exists n. split; [done|]. rewrite (bind_ret_l _ _ _ _ _ (deref_Some p m)).
    rewrite (bind_ret_l _ _ _ _ _ (read_link_run m p n En)).
    assert (LL_DELETE (Some p) p m = (Ret (link n), m)) as R.
    { unfold LL_DELETE. rewrite decide_True by done. by rewrite (read_link_run m p n En). }
    rewrite (bind_ret_l _ _ _ _ _ R). by rewrite En.
Qed.

(** ** The searches *)

Lemma heap_alloc_holds n : 0 <= n < 2 ^ 31 -> holds (heap_alloc n) [].
Proof.
  intros Hn. split; [done|]. split; [cbn; rewrite length_replicate; lia|].
  split; [cbn; lia|]. split; [done|]. by exists (replicate (Z.to_nat n) None).
Qed.

(** The link states of a network that is not empty. *)
Lemma network_states s v :
  graph_ok s -> v ∈ network s ->
  exists x vs, mapM (fun v => g_ls <$> vertices s !! v) (network s) = Some (x :: vs).
Proof.
  intros G Hv.
  assert (is_Some (mapM (fun v => g_ls <$> vertices s !! v) (network s))) as [vs E].
  { apply mapM_is_Some, Forall_forall. intros u Hu.
    destruct (network_key s u G Hu) as [k K]. unfold vkey in K.
    cbn. destruct (vertices s !! u) as [y|]; [by exists (g_ls y)|done]. }
  destruct vs as [|x vs]; [|by exists x, vs].
  apply length_mapM in E. destruct (network s); [by apply not_elem_of_nil in Hv|done].
Qed.

(** The first insertion of [Dijkstra]. *)
Lemma insert_all_undefined n x vs :
  0 < Z.of_nat n < 2 ^ 31 -> (insert_all (x :: vs) (heap_alloc (u32 (Z.of_nat n)))).1 = Undefined.
Proof.
  intros Hn. unfold u32. rewrite uwrap_small by lia.
  assert (holds (heap_alloc (Z.of_nat n)) []) as Hh by (apply heap_alloc_holds; lia).
  destruct (heap_insert_minimum (heap_alloc (Z.of_nat n)) [] x (u32 (-1)) Hh) as [hp E];
    [by intros p k a b _ E|cbn; lia|done|].
  cbn [insert_all]. unfold bind at 1. by rewrite E.
Qed.

(** No search of the network succeeds.  When this proxy is not a vertex of the
    network, [shortest_path], [bfs] and [Dijkstra] return with the write lock
    held; when it is, they are undefined: the first two read a queue that was
    not initialised, the last one inserts into an empty heap. *)
Theorem search_outcome dest s :
  graph_ok s -> g_locks s = lock_init -> Z.of_nat (length (network s)) < 2 ^ 31 ->
  let s' := set_g_locks lock_writing s in
  (~ knows s (tapMAC (own_ls s)) ->
    shortest_path dest s = (Ret tt, s') /\ bfs s = (Ret None, s') /\
    Dijkstra dest s = (Ret tt, s')) /\
  (knows s (tapMAC (own_ls s)) ->
    shortest_path dest s = (Undefined, s') /\ bfs s = (Undefined, s') /\
    Dijkstra dest s = (Undefined, s')).
Proof.
  intros G L Hlen s'.
  assert (g_writeBegin s = (Ret tt, s')) as B by (unfold g_writeBegin, zoom; by rewrite L).
  assert (graph_ok s') as G' by done.
  destruct (find_vertex_run s' (tapMAC (own_ls s)) G') as (o & Ro & O).
  change (own_vertex s' = (Ret o, s')) in Ro.
  unfold shortest_path, bfs, Dijkstra. rewrite !(bind_ret_l _ _ _ _ _ B).
  rewrite !(bind_ret_l _ _ _ _ _ Ro). destruct o as [v|].
  - destruct O as [Hv Kv]. split; [intros Hk; destruct Hk; by exists v|]. intros _.
    split; [done|]. split; [done|]. erewrite bind_ret_l by reflexivity.
    destruct (network_states s' v G' Hv) as (x & vs & E).
    erewrite bind_ret_l by (rewrite E; reflexivity). rewrite insert_all_undefined; [done|].
    split; [|done]. destruct (network s'); [by apply not_elem_of_nil in Hv|cbn; lia].
  - split; [done|]. intros Hk. destruct (O Hk).
Qed.

(** ** Examples *)

Section Example_graph.

#[local] Instance example_abi : ABI := LP64.

Definition mac_at (n : Z) : mac := mac_of_bytes (le_split 6 n).
Definition proxy_at (n : Z) : link_state := LinkState n 2000 (mac_at n) zero_mac.

Definition record_of (n m : Z) : link_state_record :=
  LinkStateRecord (Timespec (htonl 7) (htonl 8)) (proxy_at n) (proxy_at m)
    (float_of_int (ntohl 1)).

(** The network before any record, seen from the proxy 1. *)
Definition no_graph : gstate := GState lock_init ∅ ∅ [] (proxy_at 1).

Lemma no_graph_ok : graph_ok no_graph.
Proof.
  split; [constructor|]. split; [by intros v ?%not_elem_of_nil|].
  split; [by intros v v' ?%not_elem_of_nil|by intros v v' l l' e ?%not_elem_of_nil].
Qed.

Definition example_info : timespec * spec_float := (Timespec 7 8, float_of_int 1).

Lemma record_of_info n m : record_info (record_of n m) = Some example_info.
Proof. vm_compute. reflexivity. Qed.

(** The records of an edge from 1 to 2 and of one from 2 to 3 are both learnt. *)
Lemma evaluate_record_correct_witness :
  exists s1 s2,
    evaluate_record (record_of 1 2) no_graph = (Ret tt, s1) /\
    evaluate_record (record_of 2 3) s1 = (Ret tt, s2) /\ graph_ok s2 /\
    edge_holds s2 (mac_at 1) (mac_at 2) example_info /\
    edge_holds s2 (mac_at 2) (mac_at 3) example_info.
Proof.
  pose proof (evaluate_record_correct (record_of 1 2) no_graph no_graph_ok eq_refl) as E1.
  cbv zeta in E1. rewrite record_of_info in E1. destruct E1 as (s1 & R1 & L1 & G1 & _ & H1).
  pose proof (evaluate_record_correct (record_of 2 3) s1 G1 L1) as E2.
  cbv zeta in E2. rewrite record_of_info in E2. destruct E2 as (s2 & R2 & L2 & G2 & _ & H2).
  exists s1, s2. split; [exact R1|]. split; [exact R2|]. split; [exact G2|]. split.
  - apply H2. right. split; [by apply (bool_decide_unpack _); vm_compute|]. split.
    + apply H1. by left.
    + right. by apply (bool_decide_unpack _); vm_compute.
  - apply H2. by left.
Defined.

(** The network after the two records. *)
Definition two_records : gstate :=
  (evaluate_record (record_of 2 3) (evaluate_record (record_of 1 2) no_graph).2).2.

(** Following the edge of 1 does not lead to the edge of 2: it points to the
    vertex made for the first record, which never became part of the network
    and is not the one the second record was stored at. *)
Example records_are_not_connected :
  exists v l e y n,
    find_vertex (mac_at 1) two_records = (Ret (Some v), two_records) /\
    nbrs_of two_records v = Some l /\ l = [e] /\ edges two_records !! e = Some y /\
    e_node y = Some n /\ vkey two_records n = Some (mac_at 2) /\
    nbrs_of two_records n = Some [] /\ bool_decide (n ∈ network two_records) = false.
Proof. do 5 eexists. by repeat split; vm_compute. Qed.

(** Two proxies with an edge from the first to the second. *)
Definition two_vertices : gstate :=
  GState lock_init
    (<[1%positive := Graph (proxy_at 1) (Some [3%positive])]>
      (<[2%positive := Graph (proxy_at 2) (Some [])]> ∅))
    (<[3%positive := Edge (Some 2%positive) (Timespec 7 8) (float_of_int 1)]> ∅)
    [1; 2]%positive (proxy_at 1).

Lemma two_vertices_cases v : v ∈ network two_vertices -> v = 1%positive \/ v = 2%positive.
Proof. intros [->|[->|H%not_elem_of_nil]%elem_of_cons]%elem_of_cons; [by left|by right|done]. Qed.

Lemma two_vertices_ok : graph_ok two_vertices.
Proof.
  split; [by apply (bool_decide_unpack _); vm_compute|]. split; [|split].
  - intros v [-> | ->]%two_vertices_cases; eexists; (split; [vm_compute; reflexivity|]).
    + split; [|split; [|apply NoDup_singleton]].
      * intros e ->%list_elem_of_singleton. by eexists.
      * by intros e e' ->%list_elem_of_singleton ->%list_elem_of_singleton.
    + split; [by intros e ?%not_elem_of_nil|].
      split; [by intros e e' ?%not_elem_of_nil|constructor].
  - intros v v' [-> | ->]%two_vertices_cases [-> | ->]%two_vertices_cases E;
      [done| | |done]; exfalso; by vm_compute in E.
  - intros v v' l l' e [-> | ->]%two_vertices_cases [-> | ->]%two_vertices_cases E E' He He';
      [done| | |done]; exfalso; vm_compute in E, E'; injection E as <-; injection E' as <-.
    + by apply not_elem_of_nil in He'.
    + by apply not_elem_of_nil in He.
Qed.

Lemma graph_free_outcome_witness :
  exists s', graph_free [1; 2]%positive two_vertices = (Ret tt, s') /\
    vertices s' !! 1%positive = None /\ edges s' !! 3%positive = None.
Proof.
  destruct (graph_free_outcome two_vertices two_vertices_ok) as (s' & R & _ & V & E & _).
  exists s'. split; [exact R|]. split.
  - rewrite V. by vm_compute.
  - apply E. exists 1%positive, [3%positive]. split; [by left|]. split; [done|by left].
Defined.

Lemma remove_from_network_outcome_witness :
  exists s', remove_from_network 2%positive two_vertices = (Ret tt, s') /\
    network s' = [1; 2]%positive /\ g_locks s' = lock_writing.
Proof.
  destruct (remove_from_network_outcome 2%positive (Graph (proxy_at 2) (Some [])) two_vertices
    two_vertices_ok eq_refl ltac:(vm_compute; reflexivity)) as (s' & R & _ & _ & N & H & _).
  exists s'. split; [exact R|]. split; [exact N|]. apply H. exists 2%positive.
  split; [right; by left|by vm_compute].
Defined.

Lemma search_outcome_witness :
  bfs two_vertices = (Undefined, set_g_locks lock_writing two_vertices) /\
  bfs no_graph = (Ret None, set_g_locks lock_writing no_graph).
Proof.
  split.
  - destruct (search_outcome 2%positive two_vertices two_vertices_ok eq_refl
      ltac:(vm_compute; reflexivity)) as [_ H].
    apply H. exists 1%positive. split; [by left|by vm_compute].
  - destruct (search_outcome 2%positive no_graph no_graph_ok eq_refl
      ltac:(vm_compute; reflexivity)) as [H _].
    apply H. by intros (v & ?%not_elem_of_nil & _).
Defined.

End Example_graph.
