(* ===== verification/Forwarding.v ===== *)
(** * The forwarding table (src/proxy.h, 158-170; src/route.c, 221-255)

    [prepare_forwarding_table], which the searches of Graph would call at the
    vertex they look for.  The table of visited vertices is a hash table of
    UTHash; its keys are the bytes of vertices in memory, which the layout of
    the compiler decides, so that they are an argument. *)

From S2P Require Export Graph UTHash.

(** [Visited] (proxy.h, 158-163) and [ForwardingTable] (165-170), without the
    handles and the distances, which the function does not use; what [malloc]
    leaves uninitialised is [None]. *)
Record Visited := MkVisited { vis_node : option loc; vis_prev : option loc }.

Record ForwardingTable := MkForwardingTable {
  nextHop : option loc;
  ft_dest : option loc
}.

(** The graph, the table of visited vertices with its elements, the entries that
    are allocated, and the process with its members. *)
Record fstate := FState {
  f_graph : gstate;
  f_visited : hstate;
  visits : gmap loc Visited;
  entries : gmap loc ForwardingTable;
  f_world : world
}.

Definition set_f_visited (x : hstate) (s : fstate) : fstate :=
  FState (f_graph s) x (visits s) (entries s) (f_world s).
Definition set_entries (x : gmap loc ForwardingTable) (s : fstate) : fstate :=
  FState (f_graph s) (f_visited s) (visits s) x (f_world s).

Section Forwarding.
Context `{HF : HashFunction}.

(** The bytes of the vertex at an address, all of [sizeof(graph)]. *)
Context (vertex_bytes : loc -> bytes).

(** [malloc] of an entry, and its assignments. *)
Definition alloc_entry : M fstate loc := fun s =>
  let p := fresh (dom (entries s)) in
  (Ret p, set_entries (<[p := MkForwardingTable None None]> (entries s)) s).

Definition set_entry (p : loc) (x : ForwardingTable) : M fstate unit :=
  (fun s => deref (entries s !! p) s) ;;;
  modify (fun s => set_entries (<[p := x]> (entries s)) s).

Definition visit (v : loc) : M fstate Visited := fun s => deref (visits s !! v) s.

(** [HASH_FIND(hh, visited, v, sizeof(graph), ...)] *)
Definition find_visited (v : option loc) : M fstate (option loc) :=
  let* h := gets (fun s => head_ptr (f_visited s)) in
  match h with
  | None => ret None
  | Some _ =>
      let* v := deref v in
      (fun s => deref (vertices (f_graph s) !! v) s) ;;;
      zoom f_visited set_f_visited (HASH_FIND (vertex_bytes v))
  end.

(** [HASH_FIND(hh, hash_table, v->node->ls.tapMAC, ETH_ALEN, p)]: the key is
    only read when the table is not empty. *)
Definition find_member (node : option loc) : M fstate (option loc) :=
  let* t := gets (fun s => hash_table (f_world s)) in
  match t with
  | [] => ret None
  | _ =>
      let* n := deref node in
      let* x := (fun s => deref (vertices (f_graph s) !! n) s) in
      fun s => deref (find_key (peers (f_world s)) (hash_table (f_world s)) (tapMAC (g_ls x))) s
  end.

(** [prepare_forwarding_table] (222-255).  [HASH_ADD] reads the head of the
    local variable [table], which is never initialised, in the first pass of
    the loop. *)
Definition prepare_forwarding_table (previous destination : option loc) : M fstate unit :=
  let table : option (option loc) := None in
  let* tmpFT := alloc_entry in
  let* v := find_visited previous in
  match v with
  | None => ret tt
  | Some v =>
      let* x := visit v in
      match vis_prev x with
      | None => ret tt
      | Some _ =>
          let* p := find_member (vis_node x) in
          match p with
          | None => ret tt
          | Some p =>
              set_entry tmpFT (MkForwardingTable (Some p) destination) ;;;
              let* table := deref table in
              ret tt
          end
      end
  end.

(** ** What it does *)

(** Only the new entry, which nothing points to, is left of a call. *)
Definition leaked (s s' : fstate) : Prop :=
  f_graph s' = f_graph s /\ f_visited s' = f_visited s /\ visits s' = visits s
  /\ f_world s' = f_world s
  /\ exists p x, entries s !! p = None /\ entries s' = <[p := x]> (entries s).

(** No forwarding table is ever prepared.  Whatever was visited, the function
    returns without a table, when the vertex before the destination was not
    visited, is the source, or is not a member, or its addition to the table is
    undefined; what remains is the memory of an entry that nobody frees. *)
Theorem prepare_forwarding_outcome previous destination v y o s :
  head_ptr (f_visited s) <> None ->
  is_Some (vertices (f_graph s) !! v) -> previous = Some v ->
  HASH_FIND (vertex_bytes v) (f_visited s) = (Ret o, f_visited s) ->
  world_ok (f_world s) ->
  match o with
  | None => True
  | Some x => visits s !! x = Some y
      /\ exists n, vis_node y = Some n /\ is_Some (vertices (f_graph s) !! n)
  end ->
  exists s', leaked s s' /\
    (prepare_forwarding_table previous destination s = (Ret tt, s')
     \/ prepare_forwarding_table previous destination s = (Undefined, s')
        /\ exists x n g p, o = Some x /\ vis_prev y <> None /\ vis_node y = Some n
           /\ vertices (f_graph s) !! n = Some g /\ p ∈ hash_table (f_world s)
           /\ peer_mac (peers (f_world s)) p = Some (tapMAC (g_ls g))).
Proof.
  intros Hh [g0 Hv] -> Hf Hok Ho. destruct s as [G V vs es w]. cbn [f_graph f_visited visits entries f_world] in *.
  set (f := fresh (dom es)).
  assert (es !! f = None) as Hfresh by (apply not_elem_of_dom, is_fresh).
  assert (forall x, leaked (FState G V vs es w) (FState G V vs (<[f := x]> es) w)) as Hleak.
  { intros x. do 4 (split; [done|]). by exists f, x. }
  unfold prepare_forwarding_table. erewrite bind_ret_l by reflexivity. fold f.
  set (s1 := set_entries _ _).
  assert (find_visited (Some v) s1 = (Ret o, s1)) as R.
  { unfold find_visited. erewrite bind_ret_l by reflexivity. cbn.
    destruct (head_ptr V); [|done]. erewrite bind_ret_l by reflexivity.
    erewrite bind_ret_l by (cbn; rewrite Hv; reflexivity). unfold zoom.
    change (f_visited s1) with V. by rewrite Hf. }
  rewrite (bind_ret_l _ _ _ _ _ R). clear R.
  destruct o as [x|]; [|exists s1; by split; [apply Hleak|left]].
  destruct Ho as (Hy & n & Hn & [g Hg]).
  erewrite bind_ret_l by (unfold visit; cbn; by rewrite Hy).
  destruct (vis_prev y) as [u|] eqn:Ep; [|exists s1; by split; [apply Hleak|left]].
  destruct (find_key_ok _ _ (tapMAC (g_ls g)) Hok) as [(p & F & Hp & Hm)|[F Hm]].
  - assert (find_member (vis_node y) s1 = (Ret (Some p), s1)) as R.
    { unfold find_member. erewrite bind_ret_l by reflexivity. cbn.
      destruct (hash_table w) eqn:Et; [by apply not_elem_of_nil in Hp|].
      rewrite Hn. erewrite bind_ret_l by reflexivity.
      erewrite bind_ret_l by (cbn; rewrite Hg; reflexivity). cbn. by rewrite Et, F. }
    rewrite (bind_ret_l _ _ _ _ _ R).
    eexists (FState G V vs (<[f := _]> es) w). split; [apply Hleak|]. right. split.
    + unfold set_entry, bind at 1 2. cbn. rewrite lookup_insert_eq. cbn.
      rewrite insert_insert_eq. reflexivity.
    + by exists x, n, g, p.
  - exists s1. split; [apply Hleak|]. left.
    assert (find_member (vis_node y) s1 = (Ret None, s1)) as R.
    { unfold find_member. erewrite bind_ret_l by reflexivity. cbn.
      destruct (hash_table w) eqn:Et; [done|].
      rewrite Hn. erewrite bind_ret_l by reflexivity.
      erewrite bind_ret_l by (cbn; rewrite Hg; reflexivity). cbn. by rewrite Et, F. }
    by rewrite (bind_ret_l _ _ _ _ _ R).
Qed.

End Forwarding.
