(* ===== verification/Devices.v ===== *)
(** * Devices and ports (src/proxy.c, 22-73)

    Opening the tap device, reading the MAC address of an interface from the
    file system, and the unused [get_port].  What the kernel provides is a
    parameter: the content of the files, and the name it gives to a tap
    device. *)

From S2P Require Export Scan.
From Stdlib Require Import (notations) Strings.String.

#[local] Open Scope list_scope.

Definition IFNAMSIZ : nat := 16.

Section Devices.
Context `{ABI}.

(** The content of a file that can be opened; the name of the device that the
    ioctl TUNSETIFF makes for the given flags and name. *)
Context (files : bytes -> option bytes) (tun_name : Z -> bytes -> bytes).

(** [allocate_tunnel] (27-46): its result, and what [dev] holds. *)
Definition allocate_tunnel (dev : bytes) (flags : Z) : M env (Z * bytes) :=
  let* fd := sys_call in
  if fd <? 0 then ret (fd, dev)
  else
    let ifr_name := take IFNAMSIZ dev in
    let* error := sys_call in
    if error <? 0 then emit (EvClose fd) ;;; ret (error, dev)
    else
      let ifr_name := tun_name flags ifr_name in
      if (IFNAMSIZ <=? length ifr_name)%nat then fail Undefined else ret (fd, ifr_name).

(** The conversions of [sscanf] into consecutive bytes, with a colon between
    them; a failure ends it. *)
Fixpoint scan_bytes (mem : bytes) (s : bytes) : outcome bytes :=
  match mem with
  | [] => Ret []
  | b :: mem =>
      match scan_uint 8 16 s with
      | Ret (Some (v, r)) =>
          match mem, r with
          | _ :: _, c :: r =>
              if code c =? 58 then
                match scan_bytes mem r with
                | Ret mem => Ret (char v :: mem)
                | o => o
                end
              else Ret (char v :: mem)
          | _, _ => Ret (char v :: mem)
          end
      | Ret None => Ret (b :: mem)
      | o => no_value o
      end
  end.

(** [getMAC] (48-59): its result, and what [local_mac] points to. *)
Definition getMAC (dev : bytes) (local_mac : mac) : M env (Z * mac) :=
  let buffer := str "/sys/class/net/" ++ dev ++ str "/address" in
  if (64 <=? length buffer)%nat then fail Undefined
  else
    let* f := deref (files buffer) in
    let buffer := default buffer (fst (fgets 64 (Stream f false))) in
    match scan_bytes (mac_bytes local_mac) (cstr buffer) with
    | Ret mem => ret (0, mac_of_bytes mem)
    | o => fail (no_value o)
    end.

(** [get_port] (61-73) *)
Definition get_port (s : bytes) : M env Z :=
  let* x := strtoul10 s in
  let* e := gets errno in
  if (x =? ULONG_MAX) && (e =? ERANGE) || (x <? 1024) || (65535 <? x) then fail (Exit 1)
  else ret (u16 x).

(** ** Lemmas *)

(** The text of a MAC address in the file system. *)
Fixpoint hex_text (l : bytes) : bytes :=
  match l with
  | [] => []
  | [b] => hex2 b
  | b :: l => hex2 b ++ char 58 :: hex_text l
  end.

Definition mac_text (m : mac) : bytes := hex_text (mac_bytes m).

Definition address_file (dev : bytes) : bytes := str "/sys/class/net/" ++ dev ++ str "/address".

Lemma length_address_file dev : length (address_file dev) = (23 + length dev)%nat.
Proof. unfold address_file. rewrite !length_app. cbn. lia. Qed.

Lemma char_code b : char (code b) = b.
Proof. apply byte.of_Z_unsigned. Qed.

Lemma scan_bytes_text l : forall mem s,
  length mem = length l -> scan_bytes mem (hex_text l ++ newline :: s) = Ret l.
Proof.
  induction l as [|b l IH]; intros [|b' mem] s E; try done. injection E as E.
  cbn [scan_bytes]. destruct l as [|c l].
  - cbn [hex_text]. rewrite scan_hex2 by done. destruct mem; [|done]. by rewrite char_code.
  - change (hex_text (b :: c :: l)) with (hex2 b ++ char 58 :: hex_text (c :: l)).
    rewrite <- app_assoc. cbn [app]. rewrite scan_hex2 by done. rewrite char_code.
    destruct mem as [|b2 mem]; [done|]. rewrite IH by done. done.
Qed.

Lemma hex2_word b : Forall (fun c => word_char c = true) (hex2 b).
Proof.
  pose proof (byte.unsigned_range b) as Hr. fold (code b) in Hr.
  repeat constructor; apply digit_char_spec.
  - split; [apply Z.div_pos|apply Z.div_lt_upper_bound]; lia.
  - apply Z.mod_pos_bound. lia.
Qed.

Lemma mac_text_word m : Forall (fun c => word_char c = true) (mac_text m) /\ length (mac_text m) = 17%nat.
Proof.
  split; [|by destruct m]. unfold mac_text. generalize (mac_bytes m).
  induction l as [|b [|c l] IH]; [constructor|apply hex2_word|].
  apply Forall_app. split; [apply hex2_word|]. by constructor.
Qed.

Lemma word_chars_are s :
  Forall (fun c => word_char c = true) s ->
  Forall (fun c => code c <> 10) s /\ Forall (fun c => code c <> 0) s.
Proof. intros Hs. split; (eapply Forall_impl; [exact Hs|]); intros c (_ & ? & ?)%word_char_not; done. Qed.

Lemma getMAC_run dev m old rest w :
  (length dev <= 40)%nat -> files (address_file dev) = Some (mac_text m ++ newline :: rest) ->
  getMAC dev old w = (Ret (0, m), w).
Proof.
  intros Hd F. unfold getMAC. fold (address_file dev).
  rewrite (proj2 (Nat.leb_gt _ _)) by (rewrite length_address_file; lia). rewrite F.
  rewrite (bind_ret_l _ _ _ _ _ (deref_Some _ w)).
  destruct (mac_text_word m) as [W Lm]. destruct (word_chars_are _ W) as [W1 W2].
  rewrite fgets_app by (done || lia). cbn [fst default from_option id].
  rewrite cstr_app by done. change (cstr [newline]) with [newline].
  unfold mac_text. rewrite scan_bytes_text by (by destruct m, old). by destruct m.
Qed.

(** ** Properties *)

(** Reading a MAC address.  From a file with the address in the form the kernel
    prints it, [getMAC] stores exactly that address and returns 0.  It is
    undefined for an interface without such a file, which is not tested, and
    for a name of more than 40 bytes, whose path overflows [buffer]. *)
Theorem getMAC_correct dev m old rest w :
  ((length dev <= 40)%nat -> files (address_file dev) = Some (mac_text m ++ newline :: rest) ->
     getMAC dev old w = (Ret (0, m), w)) /\
  (files (address_file dev) = None -> getMAC dev old w = (Undefined, w)) /\
  ((40 < length dev)%nat -> getMAC dev old w = (Undefined, w)).
Proof.
  pose proof (length_address_file dev) as L. split; [|split].
  - apply getMAC_run.
  - unfold getMAC. fold (address_file dev). intros F. destruct (_ <=? _)%nat; [done|]. by rewrite F.
  - unfold getMAC. fold (address_file dev). intros Hd. by rewrite (proj2 (Nat.leb_le _ _)) by lia.
Qed.

(** Checking a port.  [get_port] returns the number [strtoul] reads when it
    lies between 1024 and 65535, and exits with 1 otherwise; a printed number
    is read back. *)
Theorem get_port_exact s w :
  (exists n w', strtoul10 s w = (Ret n, w') /\
     get_port s w = (if (1024 <=? n) && (n <=? 65535) then Ret n else Exit 1, w')) /\
  (forall n, 0 <= n < 2 ^ 32 ->
     get_port (decimal n) w =
       (if (1024 <=? n) && (n <=? 65535) then Ret n else Exit 1, w)).
Proof.
  assert (forall t n w', strtoul10 t w = (Ret n, w') ->
    get_port t w = (if (1024 <=? n) && (n <=? 65535) then Ret n else Exit 1, w')) as G.
  { intros t n w' E. unfold get_port. rewrite (bind_ret_l _ _ _ _ _ E).
    erewrite bind_ret_l by reflexivity. pose proof ulong_big.
    destruct (Z.leb_spec 1024 n), (Z.leb_spec n 65535); cbn [andb].
    - rewrite (proj2 (Z.eqb_neq n ULONG_MAX)) by lia. cbn [andb orb].
      rewrite (proj2 (Z.ltb_ge n 1024)), (proj2 (Z.ltb_ge 65535 n)) by lia. cbn [orb].
      unfold u16. by rewrite uwrap_small by lia.
    - rewrite (proj2 (Z.ltb_lt 65535 n)) by lia. by rewrite orb_true_r.
    - rewrite (proj2 (Z.ltb_lt n 1024)) by lia. by rewrite orb_true_r.
    - lia. }
  split.
  - destruct (strtoul10_range s w) as (n & w' & E & _). exists n, w'. split; [done|]. by apply G.
  - intros n Hn. apply G. rewrite <- (app_nil_r (decimal n)). by apply strtoul10_decimal.
Qed.

End Devices.

(** ** Witnesses *)

Section Example_devices.

#[local] Instance example_abi : ABI := LP64.

Definition example_env : env := Env 0 [] [] [] [] [] [] [] [] ∅ [].

Definition tap2_mac : mac := mac_of_bytes (le_split 6 0x0102b4d5e6f).

(** A file system with the address of one device. *)
Definition one_device (path : bytes) : option bytes :=
  if decide (path = str "/sys/class/net/tap2/address")
  then Some (str "6f:5e:4d:2b:10:00" ++ [newline]) else None.

Lemma getMAC_correct_witness :
  getMAC one_device (str "tap2") zero_mac example_env = (Ret (0, tap2_mac), example_env) /\
  getMAC one_device (str "eth0") zero_mac example_env = (Undefined, example_env).
Proof.
  split.
  - refine (proj1 (getMAC_correct one_device (str "tap2") tap2_mac zero_mac [] example_env) _ _);
      [cbn; lia|vm_compute; reflexivity].
  - refine (proj1 (proj2 (getMAC_correct one_device (str "eth0") tap2_mac zero_mac []
      example_env)) _). vm_compute. reflexivity.
Defined.

Lemma get_port_exact_witness :
  get_port (str "2000") example_env = (Ret 2000, example_env) /\
  get_port (str "80") example_env = (Exit 1, example_env).
Proof.
  destruct (get_port_exact (str "80") example_env) as [_ G].
  split; [apply (G 2000)|apply (G 80)]; lia.
Defined.

End Example_devices.
