(* ===== verification/Startup.v ===== *)
(** * Start-up and configuration (src/main.c; src/proxy.h, 192-204;
    src/handlers.c, 440-451)

    The state of the process as [main] sees it, the installation of the signal
    handlers, the loop over the lines of the configuration file, the list of
    peers to connect to, and the way into the server loop.  The configuration
    file is specified by its directives: [line_text] prints them, and the loop
    does what they say. *)

From S2P Require Export Join Devices UTList.
From Stdlib Require Import (notations) Strings.String.

#[local] Open Scope list_scope.

(** [llnode] (proxy.h, 200-204), the [next] field being that of the list; an
    array that was not filled is [None]. *)
Record llnode := LLNode { hostname : option bytes; port : option bytes }.

Abbreviation llnodes_t := (gmap loc (node (A := llnode))).

(** What a signal does. *)
Inductive disposition := SIG_DFL | SIG_IGN | SIG_ERR | Sig_leave_handler | Sig_Link_State_Broadcast.

Definition SIGINT : Z := 2.
Definition SIGPIPE : Z := 13.
Definition SIGALRM : Z := 14.
Definition SIGTERM : Z := 15.

(** The state: that of the handlers, the globals [tapfd] and [llhead], the
    nodes of the list, the local [listenfd] and the actions of the signals. *)
Record process := Process {
  proc : world;
  tapfd : Z;
  llhead : option loc;
  llnodes : llnodes_t;
  listenfd : option Z;
  actions : gmap Z disposition }.

Definition set_proc (x : world) (s : process) : process :=
  Process x (tapfd s) (llhead s) (llnodes s) (listenfd s) (actions s).
Definition set_tapfd (x : Z) (s : process) : process :=
  Process (proc s) x (llhead s) (llnodes s) (listenfd s) (actions s).
Definition set_llhead (x : option loc) (s : process) : process :=
  Process (proc s) (tapfd s) x (llnodes s) (listenfd s) (actions s).
Definition set_llnodes (x : llnodes_t) (s : process) : process :=
  Process (proc s) (tapfd s) (llhead s) x (listenfd s) (actions s).
Definition set_listenfd (x : option Z) (s : process) : process :=
  Process (proc s) (tapfd s) (llhead s) (llnodes s) x (actions s).
Definition set_actions (x : gmap Z disposition) (s : process) : process :=
  Process (proc s) (tapfd s) (llhead s) (llnodes s) (listenfd s) x.

Definition set_config (x : Config) (s : world) : world :=
  World (io s) (locks s) (hash_table s) (peers s) (linkState s) (timestamp s)
    x (rio_tap s) (tap_tid s) (next_tid s) (cancelled s) (self s).
Definition set_tap_tid (x : Z) (s : world) : world :=
  World (io s) (locks s) (hash_table s) (peers s) (linkState s) (timestamp s)
    (config s) (rio_tap s) x (next_tid s) (cancelled s) (self s).

Definition in_proc {A} (m : M world A) : M process A := zoom proc set_proc m.
Definition in_env {A} (m : M env A) : M process A := in_proc (in_io m).
Definition in_nodes {A} (m : M llnodes_t A) : M process A := zoom llnodes set_llnodes m.

(** [Signal] (handlers.c, 440-451): the old action, or [SIG_ERR]. *)
Definition Signal (signo : Z) (sig_handler : disposition) : M process disposition :=
  let* v := in_env sys_call in
  if v <? 0 then ret SIG_ERR
  else
    let* old := gets (fun s => default SIG_DFL (actions s !! signo)) in
    modify (fun s => set_actions (<[signo := sig_handler]> (actions s)) s) ;;;
    ret old.

Definition install_handlers : M process unit :=
  Signal SIGINT Sig_leave_handler ;;;
  Signal SIGPIPE SIG_IGN ;;;
  Signal SIGALRM Sig_Link_State_Broadcast ;;;
  Signal SIGTERM Sig_leave_handler ;;;
  ret tt.

(** [memset(&linkState, -1, ...)] and [memset(&config, -1, ...)] (42-43) *)
Definition all_ones : M process unit :=
  in_proc (modify (fun s => set_config (MkConfig 0xFFFF 0xFFFFFFFF 0xFFFFFFFF 0xFFFFFFFF)
    (set_linkState (LinkState 0xFFFFFFFF 0xFFFF BROADCAST_ADDR BROADCAST_ADDR) s))).

Section Startup.
Context `{ABI}.
Context (files : bytes -> option bytes) (tun_name : Z -> bytes -> bytes).

(** ** The directives of the configuration file *)

(** Writing a member of [config]. *)
Definition configure (f : Config -> Config) : M process unit :=
  in_proc (modify (fun s => set_config (f (config s)) s)).
Definition set_listen_port (x : Z) (c : Config) : Config :=
  MkConfig x (link_period c) (link_timeout c) (quit_timer c).
Definition set_link_period (x : Z) (c : Config) : Config :=
  MkConfig (listen_port c) x (link_timeout c) (quit_timer c).
Definition set_link_timeout (x : Z) (c : Config) : Config :=
  MkConfig (listen_port c) (link_period c) x (quit_timer c).
Definition set_quit_timer (x : Z) (c : Config) : Config :=
  MkConfig (listen_port c) (link_period c) (link_timeout c) x.

(** [sscanf(buf, "%*s %u\n", &member)]: the member is unchanged when nothing
    is converted. *)
Definition scan_setting (bits : Z) (set : Z -> Config -> Config) (buf : bytes)
  : M process unit :=
  match scan_skip buf with
  | None => ret tt
  | Some s =>
      let* o := fail (scan_uint bits 10 s) in
      match o with Some (v, _) => configure (set v) | None => ret tt end
  end.

(** The listening socket (52-56). *)
Definition start_listening : M process unit :=
  let* c := gets (fun s => config (proc s)) in
  let* l := in_proc (open_listenfd (listen_port c)) in
  modify (set_listenfd (Some l)) ;;;
  if l <? 0 then fail (Exit (-1))
  else
    in_proc (modify (fun s => set_linkState
      (LinkState (IPaddr (linkState s)) (htons (listen_port c)) (tapMAC (linkState s))
         (ethMAC (linkState s))) s)).

(** A word stored by %s into an array of [n] bytes. *)
Definition store_word (n : nat) (s : bytes) : outcome (option (bytes * bytes)) :=
  match scan_word s with
  | None => Ret None
  | Some (w, r) => if (n <=? length w)%nat then Undefined else Ret (Some (w, r))
  end.

(** [sscanf(buf, "%*s %s %s\n", &add->hostname, &add->port)] *)
Definition scan_peer (buf : bytes) : M process llnode :=
  match scan_skip buf with
  | None => ret (LLNode None None)
  | Some s =>
      let* h := fail (store_word 64 s) in
      match h with
      | None => ret (LLNode None None)
      | Some (h, s) =>
          let* p := fail (store_word 8 s) in
          match p with
          | None => ret (LLNode (Some h) None)
          | Some (p, _) => ret (LLNode (Some h) (Some p))
          end
      end
  end.

(** A new node at the head of the list (71-73). *)
Definition add_peer (x : llnode) : M process unit :=
  let* m := gets llnodes in
  let add := fresh (dom m) in
  modify (set_llnodes (<[add := Node x None]> m)) ;;;
  let* h := gets llhead in
  let* h := in_nodes (LL_PREPEND h add) in
  modify (set_llhead h).

Definition IFF_TAP : Z := 2.
Definition IFF_NO_PI : Z := 0x1000.

(** The tap device (78-85). *)
Definition open_tap (buf1 : bytes) : M process unit :=
  let* (fd, buf1) := in_env (allocate_tunnel tun_name buf1 (Z.lor IFF_TAP IFF_NO_PI)) in
  modify (set_tapfd fd) ;;;
  if fd <? 0 then fail (Exit (-1))
  else
    let* rp := in_env (rio_readinit fd) in
    in_proc (modify (set_rio_tap rp)) ;;;
    let* l := gets (fun s => linkState (proc s)) in
    let* (_, m) := in_env (getMAC files buf1 (tapMAC l)) in
    in_proc (modify (fun s => set_linkState
      (LinkState (IPaddr (linkState s)) (listenPort (linkState s)) m (ethMAC (linkState s))) s)) ;;;
    let* (_, m) := in_env (getMAC files (str "eth0") (ethMAC l)) in
    in_proc (modify (fun s => set_linkState
      (LinkState (IPaddr (linkState s)) (listenPort (linkState s)) (tapMAC (linkState s)) m) s)).

(** One line (49-86). *)
Definition config_line (buf : bytes) : M process unit :=
  if has_prefix (str "listenPort") buf then
    scan_setting 16 set_listen_port buf ;;; start_listening
  else if has_prefix (str "linkPeriod") buf then scan_setting 32 set_link_period buf
  else if has_prefix (str "linkTimeout") buf then scan_setting 32 set_link_timeout buf
  else if has_prefix (str "peer") buf then
    let* x := scan_peer buf in add_peer x
  else if has_prefix (str "quitAfter") buf then scan_setting 32 set_quit_timer buf
  else if has_prefix (str "tapDevice") buf then
    match scan_skip buf with
    | None => fail Undefined
    | Some s =>
        let* w := fail (store_word 64 s) in
        match w with
        | None => fail Undefined
        | Some (buf1, _) => open_tap buf1
        end
    end
  else ret tt.

(** The loop over the lines (45-87); every pass but the last reads a byte. *)
Fixpoint read_config (fuel : nat) (f : FILE) : M process unit :=
  match fuel with
  | O => fail Blocked
  | S fuel =>
      if at_eof f then ret tt
      else
        match fgets 256 f with
        | (None, _) => ret tt
        | (Some buf, f) => config_line (cstr buf) ;;; read_config fuel f
        end
  end.

(** ** After the configuration *)

(** The body of the loop over the peers (90-95). *)
Definition connect_peer (add : loc) : M process unit :=
  let* x := in_nodes (fun m => deref (payload <$> m !! add) m) in
  let* h := deref (hostname x) in
  let* p := deref (port x) in
  let* pp := in_proc (connectbyname h p) in
  match pp with
  | None => fail (Exit (-1))
  | Some _ =>
      let* h := gets llhead in
      let* h := in_nodes (LL_DELETE h add) in
      modify (set_llhead h) ;;;
      in_nodes (read_link add) ;;;
      modify (fun s => set_llnodes (delete add (llnodes s)) s)
  end.

(** The loop (89-96); a chain with more nodes than the store runs in a
    circle. *)
Definition connect_peers : M process unit :=
  let* h := gets llhead in
  let* n := gets (fun s => stdpp.base.size (llnodes s)) in
  foreach_safe (fun p => in_nodes (read_link p)) connect_peer n h.

(** The thread of the tap device, the time and the alarm (97-102).  The
    argument of the thread is the address of [tapfd], which is no peer. *)
Definition start_threads : M process unit :=
  let* t := in_proc (pthread_create Tap_handler 1%positive) in
  in_proc (modify (set_tap_tid t)) ;;;
  let* now := in_env clock_gettime in
  in_proc (modify (set_timestamp now)) ;;;
  let* c := gets (fun s => config (proc s)) in
  in_env (emit (EvAlarm (link_period c))).

(** The server loop (103-123), for a number of passes. *)
Fixpoint serve (junk : bytes) (passes : nat) (l : Z) : M process unit :=
  match passes with
  | O => ret tt
  | S passes => in_proc (accept_connection junk l) ;;; serve junk passes l
  end.

(** [main], with a number of passes of the server loop; [junk] is what the
    uninitialised packets of the join hold. *)
Definition main (junk : bytes) (argv : list bytes) (passes : nat) : M process unit :=
  match argv with
  | [_; name] =>
      match files name with
      | None => fail (Exit (-1))
      | Some text =>
          install_handlers ;;;
          all_ones ;;;
          read_config (S (length text)) (Stream text false) ;;;
          connect_peers ;;;
          start_threads ;;;
          let* l := gets listenfd in
          let* l := deref l in
          serve junk passes l
      end
  | _ => fail (Exit (-1))
  end.

End Startup.

(** ** The meaning of a configuration file *)

Inductive directive :=
| ListenPort (n : Z)
| LinkPeriod (n : Z)
| LinkTimeout (n : Z)
| QuitAfter (n : Z)
| PeerAt (h p : bytes)
| TapDevice (dev : bytes).

Definition keyword (d : directive) : bytes :=
  match d with
  | ListenPort _ => str "listenPort"
  | LinkPeriod _ => str "linkPeriod"
  | LinkTimeout _ => str "linkTimeout"
  | QuitAfter _ => str "quitAfter"
  | PeerAt _ _ => str "peer"
  | TapDevice _ => str "tapDevice"
  end.

(** The text of a directive with the white space [g] between its words. *)
Definition arguments (g : bytes) (d : directive) : bytes :=
  match d with
  | ListenPort n | LinkPeriod n | LinkTimeout n | QuitAfter n => decimal n
  | PeerAt h p => h ++ g ++ p
  | TapDevice dev => dev
  end.

Definition line_body (l : bytes * directive) : bytes :=
  keyword (snd l) ++ fst l ++ arguments (fst l) (snd l).

Definition line_text (l : bytes * directive) : bytes := line_body l ++ [newline].

(** Numbers that fit their members, words that fit their arrays, lines that fit
    [buf]. *)
Definition directive_ok (d : directive) : Prop :=
  match d with
  | ListenPort n => 0 <= n < 2 ^ 16
  | LinkPeriod n | LinkTimeout n | QuitAfter n => 0 <= n < 2 ^ 32
  | PeerAt h p => is_word h /\ (length h < 64)%nat /\ is_word p /\ (length p < 8)%nat
  | TapDevice dev => is_word dev /\ (length dev < 64)%nat
  end.

Definition line_ok (l : bytes * directive) : Prop :=
  is_gap (fst l) /\ directive_ok (snd l) /\ (length (line_body l) < 255)%nat.

Lemma keeps_in_proc {A B} (f : process -> B) (m : M world A) :
  (forall w s, f (set_proc w s) = f s) -> keeps f (in_proc m).
Proof. intros Hf s. unfold in_proc, zoom. destruct (m (proc s)). apply Hf. Qed.

Lemma keeps_in_nodes {A B} (f : process -> B) (m : M llnodes_t A) :
  (forall w s, f (set_llnodes w s) = f s) -> keeps f (in_nodes m).
Proof. intros Hf s. unfold in_nodes, zoom. destruct (m (llnodes s)). apply Hf. Qed.

(** Closed under the operations of the monad and case analysis. *)
Ltac keeps :=
  repeat match goal with
    | |- keeps _ (bind _ _) => apply keeps_bind; [|intros ?]
    | |- keeps _ (in_proc _) => by apply keeps_in_proc
    | |- keeps _ (in_env _) => by apply keeps_in_proc
    | |- keeps _ (in_nodes _) => by apply keeps_in_nodes
    | |- keeps _ (deref _) => apply keeps_deref
    | |- keeps _ (match ?x with _ => _ end) => destruct x
    | |- keeps _ _ => done
    end.

(** The list and its nodes. *)
Definition list_part (s : process) : option loc * llnodes_t := (llhead s, llnodes s).

Section Meaning.
Context `{ABI}.
Context (files : bytes -> option bytes) (tun_name : Z -> bytes -> bytes).

(** What a directive asks for. *)
Definition obey (d : directive) : M process unit :=
  match d with
  | ListenPort n => configure (set_listen_port n) ;;; start_listening
  | LinkPeriod n => configure (set_link_period n)
  | LinkTimeout n => configure (set_link_timeout n)
  | QuitAfter n => configure (set_quit_timer n)
  | PeerAt h p => add_peer (LLNode (Some h) (Some p))
  | TapDevice dev => open_tap files tun_name dev
  end.

Fixpoint obey_all (ds : list directive) : M process unit :=
  match ds with
  | [] => ret tt
  | d :: ds => obey d ;;; obey_all ds
  end.

(** ** Lines *)

Lemma keyword_word d : is_word (keyword d).
Proof. by destruct d; (split; [done|]); repeat constructor. Qed.

Lemma arguments_chars g d :
  is_gap g -> directive_ok d ->
  Forall (fun b => word_char b = true \/ blank b = true) (arguments g d).
Proof.
  intros [_ Hg] Hd.
  assert (forall w, is_word w -> Forall (fun b => word_char b = true \/ blank b = true) w) as W.
  { intros w [_ Hw]. eapply Forall_impl; [exact Hw|]. cbn. tauto. }
  destruct d; cbn in *; try apply W, decimal_word.
  - destruct Hd as (Hh & _ & Hp & _). apply Forall_app. split; [by apply W|].
    apply Forall_app. split; [|by apply W]. eapply Forall_impl; [exact Hg|]. cbn. tauto.
  - by apply W, Hd.
Qed.

(** A line has no NUL and no newline before its end. *)
Lemma line_chars l :
  line_ok l -> Forall (fun b => code b <> 10) (line_body l) /\ Forall (fun b => code b <> 0) (line_body l).
Proof.
  destruct l as [g d]. intros (Hg & Hd & _). cbn [fst snd] in *.
  assert (Forall (fun b => word_char b = true \/ blank b = true) (line_body (g, d))) as F.
  { apply Forall_app. split.
    - destruct (keyword_word d) as [_ K]. eapply Forall_impl; [exact K|]. cbn. tauto.
    - apply Forall_app. split; [|by apply arguments_chars]. destruct Hg as [_ Hg].
      eapply Forall_impl; [exact Hg|]. cbn. tauto. }
  split; (eapply Forall_impl; [exact F|]); intros b [W|B].
  - apply word_char_not in W. tauto.
  - apply blank_space in B. tauto.
  - apply word_char_not in W. tauto.
  - by apply blank_not_nul in B.
Qed.

Lemma scan_skip_keyword d g t : is_gap g -> scan_skip (keyword d ++ g ++ t) = Some (g ++ t).
Proof.
  intros Hg. unfold scan_skip. pose proof (scan_word_app [] (keyword d) (g ++ t)) as E.
  cbn [app] in E. rewrite E; [done|constructor|apply keyword_word|by apply gap_ends].
Qed.

Lemma scan_setting_run bits set d g n s :
  0 <= bits <= 32 -> is_gap g -> 0 <= n < 2 ^ bits ->
  scan_setting bits set (keyword d ++ g ++ decimal n ++ [newline]) s = configure (set n) s.
Proof.
  intros Hb Hg Hn. unfold scan_setting. rewrite scan_skip_keyword by done.
  rewrite scan_uint_decimal by (done || apply Hg). done.
Qed.

Lemma store_word_run k g w t :
  Forall (fun b => blank b = true) g -> is_word w -> ends isspace t -> (length w < k)%nat ->
  store_word k (g ++ w ++ t) = Ret (Some (w, t)).
Proof.
  intros Hg Hw Ht Hk. unfold store_word. rewrite scan_word_app by done.
  by rewrite (proj2 (Nat.leb_gt _ _)).
Qed.

(** The loop over the lines does for a line what its directive asks for. *)
Lemma config_line_run l s :
  line_ok l -> config_line files tun_name (line_text l) s = obey (snd l) s.
Proof.
  destruct l as [g d]. intros (Hg & Hd & _). cbn [fst snd] in *. pose proof (proj2 Hg) as Hgb.
  unfold line_text, line_body. cbn [fst snd]. rewrite <- !app_assoc.
  destruct d as [n|n|n|n|h p|dev]; cbn [arguments directive_ok obey] in *.
  - change (config_line _ _ ?t) with (scan_setting 16 set_listen_port t ;;; start_listening).
    unfold bind at 1. by rewrite scan_setting_run by (done || lia).
  - change (config_line _ _ ?t) with (scan_setting 32 set_link_period t).
    by rewrite scan_setting_run by (done || lia).
  - change (config_line _ _ ?t) with (scan_setting 32 set_link_timeout t).
    by rewrite scan_setting_run by (done || lia).
  - change (config_line _ _ ?t) with (scan_setting 32 set_quit_timer t).
    by rewrite scan_setting_run by (done || lia).
  - change (config_line _ _ ?t) with (let* x := scan_peer t in add_peer x).
    destruct Hd as (Hh & Lh & Hp & Lp). unfold scan_peer. rewrite scan_skip_keyword by done.
    rewrite <- app_assoc, <- app_assoc.
    rewrite store_word_run by (done || by apply gap_ends). unfold bind at 2, fail at 1.
    by rewrite store_word_run.
  - change (config_line files tun_name ?t) with
      (match scan_skip t with
       | None => fail Undefined
       | Some s =>
           let* w := fail (store_word 64 s) in
           match w with None => fail Undefined | Some (b, _) => open_tap files tun_name b end
       end).
    destruct Hd as [Hw Lw]. rewrite scan_skip_keyword by done. by rewrite store_word_run.
Qed.

(** ** The loop ends *)

(** A computation that is never blocked for ever. *)
Definition never_blocks {St A} (m : M St A) : Prop := forall s, (m s).1 <> Blocked.

Lemma never_blocks_bind {St A B} (m : M St A) (k : A -> M St B) :
  never_blocks m -> (forall a, never_blocks (k a)) -> never_blocks (bind m k).
Proof.
  intros Hm Hk s. specialize (Hm s). unfold bind. destruct (m s) as [[a| | | | |] s']; try done.
  apply Hk.
Qed.

Lemma never_blocks_zoom {St T A} (view : St -> T) upd (m : M T A) :
  never_blocks m -> never_blocks (zoom view upd m).
Proof. intros Hm s. unfold zoom. specialize (Hm (view s)). by destruct (m (view s)). Qed.

Lemma never_blocks_deref {St A} (o : option A) : never_blocks (deref (St := St) o).
Proof. by destruct o. Qed.

Lemma never_blocks_sys_call : never_blocks sys_call.
Proof. intros s. unfold sys_call. by destruct (results s). Qed.

Lemma never_blocks_fail {St A} (o : outcome A) : o <> Blocked -> never_blocks (fail (St := St) o).
Proof. by intros Ho s. Qed.

(** Closed under the operations of the monad and case analysis. *)
Ltac never_blocks :=
  repeat match goal with
    | |- never_blocks (bind _ _) => apply never_blocks_bind; [|intros ?]
    | |- never_blocks (zoom _ _ _) => apply never_blocks_zoom
    | |- never_blocks (fail _) => apply never_blocks_fail; try done
    | |- never_blocks (deref _) => apply never_blocks_deref
    | |- never_blocks (fun s => deref _ s) => intros ?; apply never_blocks_deref
    | |- never_blocks sys_call => apply never_blocks_sys_call
    | |- never_blocks (match ?x with _ => _ end) => destruct x eqn:?
    | |- never_blocks (ret _) => done
    | |- never_blocks (gets _) => done
    | |- never_blocks (modify _) => done
    | |- never_blocks (emit _) => done
    | |- never_blocks (let x := ?y in _) => cbv zeta
    end.

Lemma scan_uint_not_blocked bits base t : scan_uint bits base t <> Blocked.
Proof.
  unfold scan_uint. destruct (sign _) as [minus t']. destruct (numeral _ _) as [[n r]|]; [|done].
  destruct (to_ulong minus n) as [v e]. by destruct (_ && _).
Qed.

Lemma store_word_not_blocked n t : store_word n t <> Blocked.
Proof. unfold store_word. destruct (scan_word t) as [[w r]|]; [|done]. by destruct (_ <=? _)%nat. Qed.

Lemma scan_bytes_not_blocked mem : forall t, scan_bytes mem t <> Blocked.
Proof.
  induction mem as [|b mem IH]; intros t; [done|]. cbn [scan_bytes].
  pose proof (scan_uint_not_blocked 8 16 t) as U.
  destruct (scan_uint 8 16 t) as [[[v r]|]| | | | |]; try done.
  destruct mem as [|b' mem]; [done|]. destruct r as [|c r]; [done|].
  destruct (code c =? 58); [|done]. specialize (IH r). by destruct (scan_bytes (b' :: mem) r).
Qed.

Lemma config_line_not_blocked buf : never_blocks (config_line files tun_name buf).
Proof.
  assert (forall bits set, never_blocks (scan_setting bits set buf)) as S1.
  { intros bits set. unfold scan_setting, configure, in_proc. never_blocks. apply scan_uint_not_blocked. }
  assert (never_blocks start_listening) as S2.
  { unfold start_listening, in_proc, open_listenfd, close_fd, in_io. never_blocks. }
  assert (forall x, never_blocks (add_peer x)) as S4.
  { intros x. unfold add_peer, in_nodes, LL_PREPEND, write_link, read_link. never_blocks. }
  assert (never_blocks (scan_peer buf)) as S5.
  { unfold scan_peer. never_blocks; apply store_word_not_blocked. }
  assert (forall dev old, never_blocks (getMAC files dev old)) as S6.
  { intros dev old. unfold getMAC. never_blocks.
    match goal with E : scan_bytes _ _ = Blocked |- _ => by apply scan_bytes_not_blocked in E end. }
  assert (forall dev, never_blocks (open_tap files tun_name dev)) as S7.
  { intros dev. unfold open_tap, in_env, in_proc, in_io, allocate_tunnel, rio_readinit.
    never_blocks; apply S6. }
  unfold config_line. never_blocks; auto using store_word_not_blocked.
Qed.

(** ** The list of peers *)

Lemma obey_keeps_list d : (forall h p, d <> PeerAt h p) -> keeps list_part (obey d).
Proof.
  intros Hd. destruct d as [n|n|n|n|h p|dev]; [| | | |by destruct (Hd h p)|]; cbn [obey];
    unfold configure, start_listening, open_tap; keeps.
Qed.

Lemma obey_keeps_listenfd d : (forall n, d <> ListenPort n) -> keeps listenfd (obey d).
Proof.
  intros Hd. destruct d as [n|n|n|n|h p|dev]; [by destruct (Hd n)|..]; cbn [obey];
    unfold configure, add_peer, open_tap; keeps.
Qed.

Lemma connect_peers_keeps_listenfd : keeps listenfd connect_peers.
Proof.
  unfold connect_peers. apply keeps_bind; [done|intros h]. apply keeps_bind; [done|intros n].
  revert h. induction n as [|n IH]; intros [p|]; cbn [foreach_safe]; try done.
  unfold connect_peer. keeps; apply IH.
Qed.

(** The peers of a file, as nodes. *)
Fixpoint peers_of (ds : list directive) : list llnode :=
  match ds with
  | [] => []
  | PeerAt h p :: ds => LLNode (Some h) (Some p) :: peers_of ds
  | _ :: ds => peers_of ds
  end.

(** The list consists of the nodes that are allocated, and holds [xs]. *)
Definition list_holds (s : process) (xs : list llnode) : Prop :=
  exists l, chain (llnodes s) (llhead s) l /\ NoDup l /\
    (forall p, is_Some (llnodes s !! p) <-> p ∈ l) /\
    Forall2 (fun p x => payload <$> llnodes s !! p = Some x) l xs.

Lemma add_peer_holds x s xs :
  list_holds s xs -> exists s', add_peer x s = (Ret tt, s') /\ list_holds s' (x :: xs).
Proof.
  intros (l & C & ND & Dom & P). unfold add_peer. erewrite bind_ret_l by reflexivity.
  set (add := fresh (dom (llnodes s))).
  assert (llnodes s !! add = None) as Fr by apply not_elem_of_dom, is_fresh.
  assert (add ∉ l) as Hl by (intros [n En]%Dom; congruence).
  erewrite bind_ret_l by reflexivity. erewrite bind_ret_l by reflexivity.
  cbn [llhead set_llnodes]. set (m := <[add := Node x None]> (llnodes s)).
  destruct (LL_PREPEND_run m (llhead s) l add) as (m' & R & C' & PL);
    [by apply chain_insert|unfold m; by rewrite lookup_insert_eq|done|].
  erewrite bind_ret_l by (unfold in_nodes, zoom; cbn [llnodes set_llnodes]; rewrite R; reflexivity).
  eexists. split; [reflexivity|]. exists (add :: l). cbn [llhead llnodes set_llhead set_llnodes].
  assert (forall p, payload <$> m' !! p = payload <$> m !! p) as PE.
  { intros p. by rewrite <- !lookup_fmap, PL. }
  split; [exact C'|]. split; [by constructor|]. split.
  - intros p. rewrite <- (fmap_is_Some payload), PE, fmap_is_Some. unfold m.
    rewrite lookup_insert_is_Some, elem_of_cons, Dom. split; [|]; intros [E|E]; [by left|tauto|..].
    + by left.
    + destruct (decide (add = p)) as [->|]; tauto.
  - constructor; [rewrite PE; unfold m; by rewrite lookup_insert_eq|].
    apply Forall2_same_length_lookup. apply Forall2_same_length_lookup in P as [Len P].
    split; [done|]. intros i p y Hp Hy. rewrite PE. unfold m.
    rewrite lookup_insert_ne; [by apply (P i)|].
    intros ->. apply Hl. by apply list_elem_of_lookup_2 in Hp.
Qed.

Lemma keeps_list_holds {A} (m : M process A) s o s' xs :
  keeps list_part m -> m s = (o, s') -> list_holds s xs -> list_holds s' xs.
Proof.
  intros K E. specialize (K s). rewrite E in K. injection K as K1 K2.
  unfold list_holds. by rewrite K1, K2.
Qed.

(** The directives leave the peers of the file in the list, the last one
    first. *)
Lemma obey_all_peers ds : forall s s' xs,
  list_holds s xs -> obey_all ds s = (Ret tt, s') ->
  list_holds s' (rev (peers_of ds) ++ xs).
Proof.
  induction ds as [|d ds IH]; intros s s' xs L E; [by injection E as <-|].
  cbn [obey_all] in E. apply bind_Ret_inv in E as ([] & s1 & E1 & E2).
  destruct d as [n|n|n|n|h p|dev]; cbn [peers_of];
    [| | | |destruct (add_peer_holds (LLNode (Some h) (Some p)) s xs L) as (s2 & R & L2);
       cbn [obey] in E1; rewrite R in E1; injection E1 as <-;
       cbn [rev]; rewrite <- app_assoc; by apply (IH s2)|];
    (apply (IH s1); [|done]; eapply keeps_list_holds; [|exact E1|exact L];
     by apply obey_keeps_list).
Qed.

(** ** Connecting *)

(** One call of [connectbyname] for each host name and port, in their order, up
    to the first that fails. *)
Fixpoint dial (l : list (bytes * bytes)) : M world unit :=
  match l with
  | [] => ret tt
  | (h, p) :: l =>
      let* pp := connectbyname h p in
      match pp with None => fail (Exit (-1)) | Some _ => dial l end
  end.

(** The names looked up are those of the list, up to the first failure. *)
Lemma dial_looks_up l : forall w,
  exists l1 l2, l = l1 ++ l2 /\ looked_up (dial l w).2 = looked_up w ++ l1
    /\ ((dial l w).1 = Ret tt -> l2 = []).
Proof.
  induction l as [|[h p] l IH]; intros w; cbn [dial].
  { exists [], []. split; [done|]. split; [symmetry; apply app_nil_r|done]. }
  pose proof (connectbyname_looks_up h p w) as L. unfold bind.
  destruct (connectbyname h p w) as [[[pp|]| | | | |] w1]; cbn in L |- *;
    try (destruct L as [L|[L _]];
         [exists [(h, p)], l|exists [], ((h, p) :: l); rewrite app_nil_r];
         (split; [done|split; [exact L|discriminate]])).
  destruct L as [L|[_ L]]; [|by destruct (L pp)].
  destruct (IH w1) as (l1 & l2 & -> & E & F). exists ((h, p) :: l1), l2.
  by rewrite E, L, <- app_assoc.
Qed.

(** The host name and the port of a node, and those the directives name. *)
Definition node_of (a : bytes * bytes) : llnode := LLNode (Some a.1) (Some a.2).
Fixpoint named (ds : list directive) : list (bytes * bytes) :=
  match ds with
  | [] => []
  | PeerAt h p :: ds => (h, p) :: named ds
  | _ :: ds => named ds
  end.

Lemma peers_named ds : peers_of ds = map node_of (named ds).
Proof. induction ds as [|[| | | |h p|] ds IH]; cbn; by rewrite ?IH. Qed.

Lemma in_nodes_read {A} s (m : M llnodes_t A) a :
  m (llnodes s) = (Ret a, llnodes s) -> in_nodes m s = (Ret a, s).
Proof. intros E. unfold in_nodes, zoom. rewrite E. by destruct s. Qed.

(** Once a peer is connected its node, the first of the list, is freed. *)
Lemma connect_peer_run s p l h q xs :
  chain (llnodes s) (llhead s) (p :: l) -> NoDup (p :: l) ->
  payload <$> llnodes s !! p = Some (node_of (h, q)) ->
  (forall q, is_Some (llnodes s !! q) <-> q ∈ p :: l) ->
  Forall2 (fun q y => payload <$> llnodes s !! q = Some y) l xs ->
  let '(o, w) := connectbyname h q (proc s) in
  exists s',
    connect_peer p s =
      (match o with Ret (Some _) => Ret tt | Ret None => Exit (-1) | o => no_value o end, s') /\
    proc s' = w /\
    match o with
    | Ret (Some _) => list_holds s' xs /\ chain (llnodes s') (llhead s') l
    | _ => True
    end.
Proof.
  intros (Eh & n & En & C) ND Px Dom P.
  apply NoDup_cons in ND as [Hp ND]. unfold connect_peer.
  erewrite bind_ret_l by (apply in_nodes_read; cbn; rewrite Px; reflexivity). cbn [node_of hostname port fst snd].
  rewrite (bind_ret_l _ _ _ _ _ (deref_Some h s)), (bind_ret_l _ _ _ _ _ (deref_Some q s)).
  unfold bind at 1, in_proc at 1, zoom at 1.
  destruct (connectbyname h q (proc s)) as [[[pp|]| | | | |] w]; try (by exists (set_proc w s)).
  set (s1 := set_proc w s). rewrite (bind_ret_l _ _ s1 (Some p) s1) by (unfold gets; cbn; by rewrite Eh).
  assert (LL_DELETE (Some p) p (llnodes s1) = (Ret (link n), llnodes s1)) as D.
  { unfold LL_DELETE. rewrite decide_True by done. by apply read_link_run. }
  rewrite (bind_ret_l _ _ _ _ _ (in_nodes_read s1 _ _ D)).
  erewrite bind_ret_l by reflexivity. set (s2 := set_llhead (link n) s1).
  rewrite (bind_ret_l _ _ _ _ _ (in_nodes_read s2 _ _ (read_link_run (llnodes s2) p n En))).
  set (m := delete p (llnodes s)). assert (chain m (link n) l) as Cm by by apply chain_delete_other.
  exists (set_llnodes m s2). split; [done|]. split; [done|]. split; [|exact Cm].
  exists l. split; [exact Cm|]. split; [done|]. split.
  - intros r. change (is_Some (m !! r) <-> r ∈ l). unfold m.
    rewrite lookup_delete_is_Some, Dom, elem_of_cons. split; [intros [? [?|?]]; by subst|].
    intros Hr. split; [by intros ->|by right].
  - apply Forall2_same_length_lookup. apply Forall2_same_length_lookup in P as [Len P].
    split; [done|]. intros i r y Hr Hy. change (payload <$> m !! r = Some y). unfold m.
    rewrite lookup_delete_ne; [by apply (P i)|]. intros ->. by apply list_elem_of_lookup_2 in Hr.
Qed.

Lemma connect_loop_run xs : forall s fuel,
  list_holds s (map node_of xs) -> (length xs <= fuel)%nat ->
  let '(o, w) := dial xs (proc s) in
  exists s', foreach_safe (fun p => in_nodes (read_link p)) connect_peer fuel (llhead s) s = (o, s') /\
    proc s' = w /\ (o = Ret tt -> list_holds s' []).
Proof.
  induction xs as [|[h q] xs IH]; intros s fuel L Hf.
  - pose proof L as (l & C & _ & _ & P). apply Forall2_nil_inv_r in P as ->. cbn in C. cbn [dial].
    exists s. rewrite C. by destruct fuel.
  - destruct fuel as [|fuel]; [cbn in Hf; lia|].
    destruct L as (l & C & ND & Dom & P).
    apply Forall2_cons_inv_r in P as (p & l' & Px & P & ->).
    pose proof C as (Eh & n & En & Ct).
    pose proof (connect_peer_run s p l' h q _ C ND Px Dom P) as R.
    rewrite Eh. cbn [dial foreach_safe].
    rewrite (bind_ret_l _ _ _ _ _ (in_nodes_read s _ _ (read_link_run (llnodes s) p n En))).
    unfold bind at 1.
    destruct (connectbyname h q (proc s)) as [[[pp|]| | | | |] w];
      destruct R as (s1 & R & Pw & R1); try (exists s1; unfold bind; by rewrite R).
    destruct R1 as (L1 & C1). rewrite (bind_ret_l _ _ _ _ _ R).
    assert (link n = llhead s1) as ->.
    { destruct l' as [|p' l']; cbn in C1, Ct; [by rewrite Ct, C1|].
      destruct Ct as [-> _]. by destruct C1 as [-> _]. }
    rewrite <- Pw. apply IH; [done|cbn in Hf; lia].
Qed.

(** ** Properties *)

(** C16: Reading the configuration.  For every list of directives, printed with any
    white space between their words, the loop over the lines of the file does
    exactly what the directives ask for, in their order. *)
Theorem config_roundtrip ls fuel s :
  Forall line_ok ls -> (length ls < fuel)%nat ->
  read_config files tun_name fuel (Stream (concat (map line_text ls)) false) s =
    obey_all (map snd ls) s.
Proof.
  intros Hls. revert fuel s. induction Hls as [|l ls Hl _ IH]; intros fuel s Hf;
    (destruct fuel as [|fuel]; [lia|]); [done|].
  cbn [map concat read_config at_eof obey_all]. unfold line_text at 1. rewrite <- app_assoc.
  change ([newline] ++ concat (map line_text ls)) with (newline :: concat (map line_text ls)).
  destruct (line_chars l Hl) as [C1 C2].
  rewrite fgets_app by (done || (destruct Hl as (_ & _ & Hlen); lia)).
  rewrite cstr_app by done. change (cstr [newline]) with [newline].
  change (line_body l ++ [newline]) with (line_text l).
  unfold bind. rewrite config_line_run by done.
  destruct (obey (snd l) s) as [[[]| | | | |] s']; try done. apply IH. cbn in Hf. lia.
Qed.

(** C33: The loop over the lines ends, for every file: fuel for one pass per byte
    and one more is enough. *)
Theorem config_loop_ends fuel f s :
  (length (data f) < fuel)%nat -> (read_config files tun_name fuel f s).1 <> Blocked.
Proof.
  revert f s. induction fuel as [|fuel IH]; intros f s Hf; [lia|]. cbn [read_config].
  destruct (at_eof f); [done|]. destruct (fgets 256 f) as [[buf|] f'] eqn:E; [|done].
  pose proof (fgets_shorter _ _ _ _ E) as Hs.
  pose proof (config_line_not_blocked (cstr buf) s) as B. unfold bind.
  destruct (config_line files tun_name (cstr buf) s) as [[[]| | | | |] s']; try done.
  apply IH. lia.
Qed.

Lemma list_holds_length s xs : list_holds s xs -> (length xs <= stdpp.base.size (llnodes s))%nat.
Proof.
  intros (l & C & ND & _ & P). apply Forall2_length in P as <-. by apply (chain_length _ _ _ ND C).
Qed.

(** The whole loop. *)
Lemma connect_peers_run xs s :
  list_holds s (map node_of xs) ->
  let '(o, w) := dial xs (proc s) in
  exists s', connect_peers s = (o, s') /\ proc s' = w /\ (o = Ret tt -> list_holds s' []).
Proof.
  intros L. pose proof (list_holds_length _ _ L) as Len. rewrite length_map in Len.
  pose proof (connect_loop_run xs s _ L Len) as R. destruct (dial xs (proc s)) as [o w].
  destruct R as (s' & R & Pw & Hn). exists s'. split; [|by split].
  unfold connect_peers. erewrite bind_ret_l by reflexivity. by erewrite bind_ret_l by reflexivity.
Qed.

Lemma list_holds_nil s : list_holds s [] -> llhead s = None /\ llnodes s = ∅.
Proof.
  intros (l & C & _ & Dom & P). apply Forall2_nil_inv_r in P as ->. split; [exact C|].
  apply map_eq. intros p. rewrite lookup_empty. apply eq_None_not_Some. intros Hp%Dom.
  by apply not_elem_of_nil in Hp.
Qed.

Lemma obey_all_keeps_listenfd ds :
  Forall (fun d => forall n, d <> ListenPort n) ds -> keeps listenfd (obey_all ds).
Proof.
  induction 1 as [|d ds Hd _ IH]; [done|]. apply keeps_bind; [by apply obey_keeps_listenfd|done].
Qed.

(** Everything [main] does before the server loop. *)
Definition setup (ds : list directive) : M process unit :=
  install_handlers ;;; all_ones ;;; obey_all ds ;;; connect_peers ;;; start_threads.

Lemma setup_keeps_listenfd ds :
  Forall (fun d => forall n, d <> ListenPort n) ds -> keeps listenfd (setup ds).
Proof.
  intros Hds. unfold setup, install_handlers, Signal, all_ones, start_threads.
  keeps; [by apply obey_all_keeps_listenfd|apply connect_peers_keeps_listenfd].
Qed.

Lemma main_run junk argv0 name ls passes s :
  files name = Some (concat (map line_text ls)) -> Forall line_ok ls ->
  main files tun_name junk [argv0; name] passes s =
    (setup (map snd ls) ;;;
     let* l := gets listenfd in let* l := deref l in serve junk passes l) s.
Proof.
  intros F Hls. unfold main. rewrite F. unfold setup. unfold bind.
  destruct (install_handlers s) as [[[]| | | | |] s1]; try done.
  destruct (all_ones s1) as [[[]| | | | |] s2]; try done.
  rewrite config_roundtrip; [|done|].
  { destruct (obey_all (map snd ls) s2) as [[[]| | | | |] s3]; try done.
    by destruct (connect_peers s3) as [[[]| | | | |] s4]. }
  clear. induction ls as [|l ls IH]; cbn; [lia|]. unfold line_text at 1. rewrite !length_app. cbn. lia.
Qed.

(** A configuration without a port.  When no line of the file names
    [listenPort], [main] never serves: once it is through with the configuration
    and the peers, it passes a descriptor that was never assigned to [accept]. *)
Theorem main_without_port junk argv0 name ls passes s :
  files name = Some (concat (map line_text ls)) -> Forall line_ok ls ->
  Forall (fun l => forall n, snd l <> ListenPort n) ls -> listenfd s = None ->
  let '(o, s') := setup (map snd ls) s in
  main files tun_name junk [argv0; name] passes s =
    (match o with Ret _ => Undefined | o => o end, s').
Proof.
  intros F Hls Hp L. rewrite (main_run _ _ _ ls) by done.
  assert (keeps listenfd (setup (map snd ls))) as K.
  { apply setup_keeps_listenfd. by apply Forall_map. }
  specialize (K s). unfold bind at 1.
  destruct (setup (map snd ls) s) as [[[]| | | | |] s']; try done.
  cbn in K. unfold bind at 1, gets at 1. by rewrite K, L.
Qed.

(** C25: The configured peers.  The directives of the file leave its peers in the
    list, the last one first.  The loop after it then calls [connectbyname] for
    each of them in this order, with its own host name and port, up to the first
    failure, which exits with -1; the names that are looked up are those of a
    first part of the list.  When all are connected, every name of the list has
    been looked up, every node has been freed and the list is empty. *)
Theorem configured_peers_connected ds s s' :
  list_holds s [] -> obey_all ds s = (Ret tt, s') ->
  list_holds s' (map node_of (rev (named ds))) /\
  let '(o, w) := dial (rev (named ds)) (proc s') in
  exists s'', connect_peers s' = (o, s'') /\ proc s'' = w /\
    (exists l1 l2, rev (named ds) = l1 ++ l2 /\ looked_up w = looked_up (proc s') ++ l1 /\
       (o = Ret tt -> l2 = [])) /\
    (o = Ret tt -> llhead s'' = None /\ llnodes s'' = ∅).
Proof.
  intros L E. pose proof (obey_all_peers ds s s' [] L E) as L'.
  rewrite app_nil_r, peers_named, <- map_rev in L'. split; [done|].
  pose proof (connect_peers_run _ s' L') as R.
  pose proof (dial_looks_up (rev (named ds)) (proc s')) as D.
  destruct (dial _ _) as [o w]. destruct R as (s'' & R & Pw & Hn).
  exists s''. split; [done|]. split; [done|]. split; [exact D|].
  intros Ho. by apply list_holds_nil, Hn.
Qed.

End Meaning.

(** ** The shipped configuration *)

Section Example_startup.

#[local] Instance example_startup_abi : ABI := LP64.

Definition space : bytes := [char 32].

(** The file proxy.conf. *)
Definition proxy_conf : list (bytes * directive) :=
  [(space, ListenPort 2000); (space, LinkPeriod 5); (space, LinkTimeout 25);
   (space, QuitAfter 60); (space, TapDevice (str "tap2"))].

Lemma proxy_conf_ok : Forall line_ok proxy_conf.
Proof.
  assert (is_gap space) as G by by split; [|repeat constructor].
  repeat constructor; try done; cbn; lia.
Qed.

(** A host with the devices tap2 and eth0 and the configuration file. *)
Definition host (path : bytes) : option bytes :=
  if decide (path = str "/sys/class/net/tap2/address")
  then Some (str "6f:5e:4d:2b:10:00" ++ [newline])
  else if decide (path = str "/sys/class/net/eth0/address")
  then Some (str "00:1b:44:11:3a:b7" ++ [newline])
  else if decide (path = str "proxy.conf") then Some (concat (map line_text proxy_conf))
  else None.

Definition booted_env : env :=
  Env 0 [] [] [] [] [0; 0; 0; 0; 3; 0; 0; 0; 4; 0; 0; 0] [Timespec 100 0] [] [] ∅ [].

Definition booted : process :=
  Process (World booted_env lock_init [] ∅ zero_link_state (Timespec 0 0) (MkConfig 0 0 0 0)
    zero_rio 0 1 [] 0) (-1) None ∅ None ∅.

Lemma booted_list : list_holds booted [].
Proof.
  exists []. split; [done|]. split; [constructor|]. split; [|constructor].
  intros p. split; [|by intros ?%not_elem_of_nil].
  change (llnodes booted) with (∅ : llnodes_t). rewrite lookup_empty. by intros [? ?].
Qed.

Lemma config_roundtrip_witness :
  read_config host (fun _ n => n) 6
      (Stream (str "listenPort 2000" ++ newline :: str "linkPeriod 5" ++ newline ::
         str "linkTimeout 25" ++ newline :: str "quitAfter 60" ++ newline ::
         str "tapDevice tap2" ++ [newline]) false) booted =
    obey_all host (fun _ n => n) (map snd proxy_conf) booted.
Proof.
  refine (eq_trans _ (config_roundtrip host (fun _ n => n) proxy_conf 6 booted proxy_conf_ok _));
    [vm_compute; reflexivity|cbn; lia].
Defined.

Lemma config_loop_ends_witness :
  (read_config host (fun _ n => n) 5 (Stream (str "abc" ++ [newline]) false) booted).1 <> Blocked.
Proof. apply config_loop_ends. cbn. lia. Defined.

(** Two peers are in the list, the last one first. *)
Lemma configured_peers_connected_witness :
  exists s', obey_all host (fun _ n => n)
      [PeerAt (str "a") (str "1"); PeerAt (str "b") (str "2")] booted = (Ret tt, s') /\
    list_holds s' [LLNode (Some (str "b")) (Some (str "2")); LLNode (Some (str "a")) (Some (str "1"))].
Proof.
  eexists. split; [vm_compute; reflexivity|].
  refine (proj1 (configured_peers_connected host (fun _ n => n)
    [PeerAt (str "a") (str "1"); PeerAt (str "b") (str "2")] booted _ _ _)).
  - exact booted_list.
  - vm_compute. reflexivity.
Defined.

(** [main] on this file, up to the server loop. *)
Example shipped_configuration :
  let '(o, s) := main host (fun _ n => n) [] [str "proxy"; str "proxy.conf"] 0 booted in
  o = Ret tt /\ config (proc s) = MkConfig 2000 5 25 60 /\ listenfd s = Some 3 /\ tapfd s = 4 /\
  linkState (proc s) = LinkState 0xFFFFFFFF (htons 2000) (mac_of_bytes (le_split 6 0x00102b4d5e6f))
    (mac_of_bytes (le_split 6 0xb73a11441b00)) /\
  actions s !! SIGTERM = Some Sig_leave_handler /\
  trace (io (proc s)) = [EvSetFl 4 2048; EvCreate Tap_handler 1%positive 1; EvAlarm 5].
Proof. vm_compute. repeat split. Qed.

(** A file without a port. *)
Definition portless (path : bytes) : option bytes :=
  if decide (path = str "proxy.conf") then Some (str "linkPeriod 5" ++ [newline]) else None.

Lemma main_without_port_witness :
  (main portless (fun _ n => n) [] [str "proxy"; str "proxy.conf"] 1 booted).1 = Undefined.
Proof.
  pose proof (main_without_port portless (fun _ n => n) [] (str "proxy") (str "proxy.conf")
    [(space, LinkPeriod 5)] 1 booted) as W.
  destruct (setup portless (fun _ n => n) (map snd [(space, LinkPeriod 5)]) booted) as [o s'] eqn:E.
  rewrite W; [|by vm_compute| |by repeat constructor|done].
  - assert (o = Ret tt) as -> by (vm_compute in E; by injection E as <- _). done.
  - assert (is_gap space) as G by by split; [|repeat constructor].
    repeat constructor; try done; cbn; lia.
Defined.

End Example_startup.
