(* ===== verification/Safety.v ===== *)
(** * Safety of the server, from start-up to every connection

    The invariant the handlers are verified under, [serving], established by
    [main] and kept by every connection, whatever the system answers and
    whatever the peers send. *)

From S2P Require Export Logic Startup Handlers.
From Stdlib Require Import (notations) Strings.String.

#[local] Open Scope list_scope.

(** A peer whose buffer is in order and whose mutex is free. *)
Definition member_ok (q : Peer) : Prop := rio_wf (p_rio q) /\ p_timeout_mutex q = false.

(** The two threads of a peer, and those of the peers of a table. *)
Definition tids_of (ps : gmap loc Peer) (p : loc) : list Z :=
  match ps !! p with Some q => [p_timeout_tid q; p_tid q] | None => [] end.

Definition member_tids (ps : gmap loc Peer) (t : list loc) : list Z := t ≫= tids_of ps.

Definition thread_of (f : thread_fn) (q : Peer) : Z :=
  match f with Timeout_handler => p_timeout_tid q | _ => p_tid q end.

(** The threads of the members are distinct, exist and are not cancelled. *)
Definition running (s : world) : Prop :=
  NoDup (member_tids (peers s) (hash_table s)) /\
  (forall t, t ∈ member_tids (peers s) (hash_table s) -> t < next_tid s /\ t ∉ cancelled s) /\
  (forall t, t ∈ cancelled s -> t < next_tid s).

(** A thread that was started for a peer is cancelled, or its peer is still
    allocated and knows it. *)
Definition accounted (s : world) : Prop :=
  forall f p t, (f, p, t) ∈ started (io s) ->
    t ∈ cancelled s \/ exists q, peers s !! p = Some q /\ thread_of f q = t.

Definition threads_ok (s : world) : Prop := running s /\ accounted s.

(** With the lock in the state [l]: the table is well-formed, the buffers of the
    tap device and of the members are in order, and the threads run for peers
    that exist. *)
Definition inv (l : lock_state) (s : world) : Prop :=
  world_ok s /\ locks s = l /\ rio_wf (rio_tap s) /\
  (forall p q, p ∈ hash_table s -> peers s !! p = Some q -> member_ok q) /\
  threads_ok s.

(** Between the passes of the threads the lock is free. *)
Definition serving : world -> Prop := inv lock_init.

(** A peer on its way into the table; no thread runs for it yet. *)
Definition joining (l : lock_state) (p : loc) (s : world) : Prop :=
  inv l s /\ (p ∉ hash_table s) /\ (exists q, peers s !! p = Some q /\ member_ok q) /\
  forall f t, (f, p, t) ∈ started (io s) -> t ∈ cancelled s.

(** ** The threads of the members *)

Lemma member_tids_ext ps ps' t :
  (forall p, p ∈ t -> tids_of ps' p = tids_of ps p) -> member_tids ps' t = member_tids ps t.
Proof.
  unfold member_tids. induction t as [|p t IH]; intros E; [done|].
  cbn. rewrite E by apply list_elem_of_here. f_equal. apply IH.
  intros x Hx. by apply E, list_elem_of_further.
Qed.

Lemma member_tids_other ps p x t : p ∉ t -> member_tids (<[p := x]> ps) t = member_tids ps t.
Proof.
  intros Hp. apply member_tids_ext. intros y Hy. unfold tids_of.
  by rewrite lookup_insert_ne by (by intros ->).
Qed.

Lemma member_tids_same ps p q x t :
  ps !! p = Some q -> p_tid x = p_tid q -> p_timeout_tid x = p_timeout_tid q ->
  member_tids (<[p := x]> ps) t = member_tids ps t.
Proof.
  intros Hq E1 E2. apply member_tids_ext. intros y _. unfold tids_of.
  destruct (decide (y = p)) as [->|Hn]; [by rewrite lookup_insert_eq, Hq, E1, E2|].
  by rewrite lookup_insert_ne.
Qed.

Lemma member_tids_elem ps t x :
  x ∈ member_tids ps t <-> exists p, x ∈ tids_of ps p /\ p ∈ t.
Proof. apply list_elem_of_bind. Qed.

(** Without one of the elements, its threads are gone. *)
Lemma member_tids_without ps p t :
  NoDup (member_tids ps t) ->
  NoDup (member_tids ps (filter (fun x => x <> p) t)) /\
  forall x, x ∈ member_tids ps (filter (fun x => x <> p) t) ->
    x ∈ member_tids ps t /\ (p ∈ t -> x ∉ tids_of ps p).
Proof.
  induction t as [|y t IH]; [by intros _; split; [constructor|intros x ?%elem_of_nil]|].
  change (member_tids ps (y :: t)) with (tids_of ps y ++ member_tids ps t).
  intros (N1 & D & N2)%NoDup_app. destruct (IH N2) as [IH1 IH2].
  rewrite filter_cons. destruct (decide (y <> p)) as [Hy|Hy].
  - change (member_tids ps (y :: filter (fun x => x <> p) t))
      with (tids_of ps y ++ member_tids ps (filter (fun x => x <> p) t)). split.
    + apply NoDup_app. split; [done|]. split; [|done]. intros x Hx Hx'. by apply (D x), IH2.
    + intros x [Hx|Hx]%elem_of_app.
      * split; [by apply elem_of_app; left|]. intros [->|Hp]%elem_of_cons Hxp; [done|].
        apply (D x Hx), member_tids_elem. by exists p.
      * destruct (IH2 x Hx) as [Hxt Hxp]. split; [by apply elem_of_app; right|].
        intros [->|Hp]%elem_of_cons; [done|by apply Hxp].
  - apply dec_stable in Hy as ->. split; [done|]. intros x Hx.
    destruct (IH2 x Hx) as [Hxt _]. split; [by apply elem_of_app; right|].
    intros _ Hxp. by apply (D x).
Qed.

Lemma threads_of_member s p q :
  running s -> p ∈ hash_table s -> peers s !! p = Some q ->
  (p_tid q ∉ cancelled s) /\ (p_timeout_tid q ∉ cancelled s).
Proof.
  intros (_ & R & _) Hp Hq. unfold tids_of in R.
  split; apply R, member_tids_elem; exists p; unfold tids_of; rewrite Hq; (split; [|done]);
    [right; left|left].
Qed.

(** What the threads depend on. *)
Lemma threads_ok_same s s' :
  threads_ok s -> started (io s') = started (io s) -> cancelled s' = cancelled s ->
  next_tid s <= next_tid s' -> hash_table s' = hash_table s ->
  (forall p, p ∈ hash_table s -> tids_of (peers s') p = tids_of (peers s) p) ->
  (forall f p t q, (f, p, t) ∈ started (io s) -> peers s !! p = Some q -> thread_of f q = t ->
     t ∈ cancelled s \/ exists q', peers s' !! p = Some q' /\ thread_of f q' = t) ->
  threads_ok s'.
Proof.
  intros [(N & R & C) A] Es Ec En Et Em Ea. unfold threads_ok, running, accounted.
  rewrite Es, Ec, Et, (member_tids_ext _ _ _ Em). split; [split; [done|split]|].
  - intros t Ht. destruct (R t Ht). split; [lia|done].
  - intros t Ht. specialize (C t Ht). lia.
  - intros f p t Ht. destruct (A f p t Ht) as [|(q & Hq & Hf)]; [by left|by eapply Ea].
Qed.

Lemma threads_ok_io e s :
  started e = started (io s) -> threads_ok s -> threads_ok (set_io e s).
Proof. intros E [R A]. split; [exact R|]. unfold accounted. cbn. by rewrite E. Qed.

Lemma inv_io lk e s : started e = started (io s) -> inv lk s -> inv lk (set_io e s).
Proof.
  intros E (Ok & L & T & Mem & Th). do 4 (split; [done|]). by apply threads_ok_io.
Qed.

(** A peer that is changed, its threads being kept. *)
Lemma threads_ok_update p q x s :
  threads_ok s -> peers s !! p = Some q -> p_tid x = p_tid q ->
  p_timeout_tid x = p_timeout_tid q -> threads_ok (set_peers (<[p := x]> (peers s)) s).
Proof.
  intros Th Hq E1 E2. eapply threads_ok_same; [exact Th|done|done|reflexivity|done| |].
  - intros y _. cbn. unfold tids_of. destruct (decide (y = p)) as [->|Hn].
    + by rewrite lookup_insert_eq, Hq, E1, E2.
    + by rewrite lookup_insert_ne.
  - intros f y t q' _ Hq' Hf. right. cbn. destruct (decide (y = p)) as [->|Hn].
    + exists x. rewrite lookup_insert_eq. split; [done|]. simplify_eq. by destruct f; cbn.
    + exists q'. by rewrite lookup_insert_ne.
Qed.

(** A member that leaves, both its threads being cancelled. *)
Lemma threads_ok_remove p q s s' :
  threads_ok s -> p ∈ hash_table s -> peers s !! p = Some q ->
  started (io s') = started (io s) -> next_tid s' = next_tid s ->
  (forall t, t ∈ cancelled s' <-> t = p_tid q \/ t = p_timeout_tid q \/ t ∈ cancelled s) ->
  hash_table s' = filter (fun x => x <> p) (hash_table s) ->
  peers s' = delete p (peers s) -> threads_ok s'.
Proof.
  intros [(N & R & C) A] Hp Hq Es En Ec Et Ep.
  assert (tids_of (peers s) p = [p_timeout_tid q; p_tid q]) as Tq
    by (unfold tids_of; by rewrite Hq).
  assert (forall x, x ∈ tids_of (peers s) p -> x < next_tid s) as Tn.
  { intros x Hx. apply R, member_tids_elem. by exists p. }
  rewrite Tq in Tn.
  destruct (member_tids_without (peers s) p (hash_table s) N) as [N' W]. rewrite Tq in W.
  assert (member_tids (peers s') (hash_table s')
    = member_tids (peers s) (filter (fun x => x <> p) (hash_table s))) as E.
  { rewrite Et, Ep. apply member_tids_ext. intros y [Hy _]%list_elem_of_filter.
    unfold tids_of. by rewrite lookup_delete_ne. }
  unfold threads_ok, running, accounted. rewrite E, En, Es, Ep. split; [split; [done|split]|].
  - intros t Ht. destruct (W t Ht) as [Hin Hout]. destruct (R t Hin) as [Hn Hc]. split; [done|].
    rewrite Ec. specialize (Hout Hp). intros [->|[->|?]]; [|by apply Hout; left|done].
    apply Hout. right. left.
  - intros t [->|[->|Ht]]%Ec; [apply Tn; right; left|apply Tn; left|by apply C].
  - intros f y t Ht. rewrite Ec. destruct (A f y t Ht) as [|(q' & Hq' & Hf)]; [by left; auto|].
    destruct (decide (y = p)) as [->|Hn]; [|right; exists q'; by rewrite lookup_delete_ne].
    left. simplify_eq. destruct f; cbn; auto.
Qed.

(** A peer that gets its two threads, as a member or not. *)
Lemma threads_ok_joined p q now l t s :
  threads_ok s -> p ∉ hash_table s -> (t = hash_table s \/ t = hash_table s ++ [p]) ->
  (forall f x, (f, p, x) ∈ started (io s) -> x ∈ cancelled s) ->
  threads_ok (joined p q now l t s).
Proof.
  intros [(N & R & C) A] Hp Ht Hold. set (n := next_tid s).
  set (q' := with_tids n (n + 1) (with_timeout_mutex false (with_timestamp now q))).
  assert (member_tids (<[p := q']> (peers s)) (hash_table s)
    = member_tids (peers s) (hash_table s)) as E by by apply member_tids_other.
  assert (forall x, x ∈ member_tids (peers s) (hash_table s) -> x < n) as Lt by (intros; by apply R).
  assert (NoDup (member_tids (<[p := q']> (peers s)) t) /\
    forall x, x ∈ member_tids (<[p := q']> (peers s)) t ->
      x ∈ member_tids (peers s) (hash_table s) \/ x = n \/ x = n + 1) as [N' In'].
  { destruct Ht as [->| ->]; [rewrite E; by split; [|left]|].
    unfold member_tids in *. rewrite bind_app, E. cbn.
    unfold tids_of at 2 4. rewrite lookup_insert_eq. cbn. split.
    - apply NoDup_app. split; [done|]. split.
      + intros x Hx%Lt [->|[->|[]%elem_of_nil]%elem_of_cons]%elem_of_cons; lia.
      + apply NoDup_cons. split; [|apply NoDup_singleton].
        intros ?%list_elem_of_singleton. lia.
    - intros x [Hx|[->|[->|[]%elem_of_nil]%elem_of_cons]%elem_of_cons]%elem_of_app; auto. }
  split; [split; [exact N'|split]|].
  - intros x Hx. cbn. fold n. destruct (In' x Hx) as [Hin|Hn].
    + destruct (R x Hin). split; [fold n in H; lia|done].
    + split; [lia|]. intros Hc%C. fold n in Hc. lia.
  - cbn. fold n. intros x Hx%C. fold n in Hx. lia.
  - intros f y x. cbn [joined io peers cancelled]. rewrite !started_log. cbn [is_start].
    intros [[Hx| Hx%list_elem_of_singleton]%elem_of_app|Hx%list_elem_of_singleton]%elem_of_app.
    + destruct (decide (y = p)) as [->|Hn]; [left; by eapply Hold|].
      rewrite lookup_insert_ne by done. by apply (A f).
    + injection Hx as -> -> ->. right. exists q'. by rewrite lookup_insert_eq.
    + injection Hx as -> -> ->. right. exists q'. by rewrite lookup_insert_eq.
Qed.

Section Safety.
Context `{ABI}.

(** An assertion that speaks of the input and output only to say which threads
    were started. *)
Definition quiet (P : world -> Prop) : Prop :=
  forall e s, started e = started (io s) -> P s -> P (set_io e s).

Lemma inv_quiet lk : quiet (inv lk).
Proof using Type. intros e s. apply inv_io. Qed.

Lemma serving_quiet : quiet serving.
Proof using Type. apply inv_quiet. Qed.

Lemma joining_quiet lk p : quiet (joining lk p).
Proof using Type.
  intros e s E (I & J1 & J2 & J3). split; [by apply inv_quiet|]. do 2 (split; [done|]).
  cbn. by rewrite E.
Qed.

#[local] Hint Resolve inv_quiet serving_quiet joining_quiet : core.

(** A computation on the environment alone. *)
Lemma safe_in_io {A} (P : world -> Prop) (m : M env A) R :
  call_ok m R -> quiet P -> safe P (in_io m) (fun a s => R a /\ P s).
Proof using Type.
  intros Hm HP s Hs. specialize (Hm (started (io s)) (io s) eq_refl). unfold in_io, zoom.
  destruct (m (io s)) as [[a| | | | |] e]; try done. destruct Hm as [Ha E].
  split; [done|by apply HP].
Qed.

Lemma safe_call {A} (P : world -> Prop) (m : M env A) :
  call_ok m (fun _ => True) -> quiet P -> safe P (in_io m) (fun _ => P).
Proof using Type.
  intros Hm HP. eapply safe_conseq; [by apply safe_in_io|done|by intros a s []].
Qed.

Lemma safe_sys (P : world -> Prop) : quiet P -> safe P (in_io sys_call) (fun _ => P).
Proof using Type. apply safe_call, call_sys_call. Qed.

(** The two steps that change the peer, which is not in the table yet. *)
Lemma joining_update lk p x s :
  joining lk p s -> member_ok x -> joining lk p (set_peers (<[p := x]> (peers s)) s).
Proof.
  intros ((Ok & L & T & Mem & Th) & Hp & _ & Hold) Hx.
  split; [split; [|split; [done|split; [done|split]]]|split; [done|split; [|done]]].
  - eapply table_ok_mono; [|exact Ok]. intros p' Hp'. unfold peer_mac. cbn.
    rewrite lookup_insert_ne by (by intros ->). split; [done|]. by apply (proj1 (proj2 Ok)).
  - intros p' q' Hp'. cbn. rewrite lookup_insert_ne by (by intros ->). by apply Mem.
  - eapply threads_ok_same; [exact Th|done|done|reflexivity|done| |].
    + intros y Hy. cbn. unfold tids_of. by rewrite lookup_insert_ne by (by intros ->).
    + intros f y t q Ht Hq Hf. destruct (decide (y = p)) as [->|Hn]; [left; by eapply Hold|].
      right. exists q. cbn. by rewrite lookup_insert_ne.
  - exists x. split; [apply lookup_insert_eq|done].
Qed.

Lemma safe_peer lk p : safe (joining lk p) (peer p) (fun q s => joining lk p s /\ peers s !! p = Some q).
Proof.
  apply safe_run. intros s J. pose proof J as (_ & _ & (q & Hq & _) & _). exists q, s.
  by rewrite (peer_live _ _ _ Hq).
Qed.

(** Writing to a live peer, for every assertion about the rest of the world. *)
Lemma safe_peer_write_any (P : world -> Prop) p data :
  (forall s, P s -> is_Some (peers s !! p)) -> quiet P ->
  safe P (peer_write p data) (fun _ => P).
Proof.
  intros Live HP s Hs. destruct (Live s Hs) as [q Hq].
  destruct (peer_write p data s) as [o s'] eqn:E.
  destruct (peer_write_outcome _ _ _ _ _ _ Hq E) as (e & -> & W & [->|(v & ->)]); [done|].
  apply HP; [by eapply writes_only_started|done].
Qed.

Lemma safe_peer_write lk p data : safe (joining lk p) (peer_write p data) (fun _ => joining lk p).
Proof. apply safe_peer_write_any; [|done]. intros s (_ & _ & (q & Hq & _) & _). by exists q. Qed.

(** Reading from a peer whose buffer is in order. *)
Lemma safe_peer_readnb_any (P : world -> Prop) p n :
  0 <= n ->
  (forall s, P s -> exists q, peers s !! p = Some q /\ rio_wf (p_rio q)) -> quiet P ->
  (forall s q rp, P s -> peers s !! p = Some q -> rio_wf rp ->
     P (set_peers (<[p := with_rio rp q]> (peers s)) s)) ->
  safe P (peer_readnb p n) (fun _ => P).
Proof.
  intros Hn Live HP HU s Hs. destruct (Live s Hs) as (q & Hq & Hw). unfold peer_readnb.
  rewrite (bind_ret_l _ _ _ _ _ (peer_live _ _ _ Hq)).
  destruct (rio_readnb n (p_rio q, io s)) as [o [rp e]] eqn:E. unfold rio_readnb in E.
  apply rio_readnb_loop_spec in E as (W & Ro & O); [|done|lia|done|cbn; lia].
  destruct o as [[v d]| | | | |]; try done. apply (HU (set_io e s)); [|done..].
  apply HP; [|done]. by apply reads_only_started in Ro.
Qed.

Lemma safe_peer_readnb lk p n : 0 <= n -> safe (joining lk p) (peer_readnb p n) (fun _ => joining lk p).
Proof.
  intros Hn. apply safe_peer_readnb_any; [done| |done|].
  - intros s (_ & _ & (q & Hq & Hw & _) & _). by exists q.
  - intros s q rp J Hq W. pose proof J as (_ & _ & (q' & Hq' & _ & Hm) & _).
    apply joining_update; [done|]. split; [done|]. cbn. congruence.
Qed.

(** [set_peer p x] after [peer p] has read the peer. *)
Lemma safe_set_peer lk p x :
  member_ok x -> safe (joining lk p) (set_peer p x) (fun _ => joining lk p).
Proof.
  intros Hx. apply safe_modify. intros s J. by apply joining_update.
Qed.

Lemma safe_learn lk p l : safe (joining lk p) (learn p l) (fun _ => joining lk p).
Proof.
  apply safe_run. intros s J. pose proof J as (_ & _ & (q & Hq & Hw) & _).
  exists tt. eexists. split; [by apply learn_run|by apply joining_update].
Qed.

Lemma safe_count_neighbors P :
  (forall s, P s -> locks s = lock_init) -> safe P count_neighbors (fun _ => P).
Proof.
  intros HL. apply safe_run. intros s Hs. eexists _, s. split; [|exact Hs].
  by apply count_neighbors_free, HL.
Qed.

Lemma joining_lock p s : joining lock_init p s -> locks s = lock_init.
Proof. by intros ((_ & L & _) & _). Qed.

(** ** Both halves of the join *)

Lemma safe_initial_join_client p : safe (joining lock_init p) (initial_join_client p) (fun _ => joining lock_init p).
Proof.
  apply safe_seq; [by apply safe_gets|intros l].
  apply safe_seq; [apply safe_count_neighbors, joining_lock|intros n].
  apply safe_seq; [apply safe_peer_write|intros size].
  destruct (to_size size =? 0); [by apply safe_ret|].
  apply safe_seq; [apply safe_peer_readnb; lia|intros [size' got]].
  destruct (to_size size' =? 0); [by apply safe_ret|].
  cbv zeta. destruct (negb _); [by apply safe_ret|].
  apply safe_seq; [apply safe_learn|intros _]. by apply safe_ret.
Qed.

Lemma safe_initial_join_server junk p :
  safe (joining lock_init p) (initial_join_server junk p) (fun _ => joining lock_init p).
Proof.
  apply safe_seq; [apply safe_peer_readnb; lia|intros [size got]].
  destruct (to_size size =? 0); [by apply safe_ret|].
  cbv zeta. destruct (negb _); [by apply safe_ret|].
  apply safe_seq; [apply safe_learn|intros _].
  apply safe_seq; [by apply safe_gets|intros l].
  apply safe_seq; [apply safe_count_neighbors, joining_lock|intros n].
  apply safe_seq; [apply safe_peer_write|intros size'].
  destruct (to_size size' =? 0); by apply safe_ret.
Qed.

(** ** Making and adding a peer *)

Lemma call_rio_readinit f : call_ok (rio_readinit f) rio_wf.
Proof.
  unfold rio_readinit. eapply call_bind; [apply call_sys_call|intros v _].
  destruct (negb _); [apply call_exit|].
  eapply call_bind; [apply call_sys_call|intros v' _].
  destruct (v' <? 0); [apply call_exit|].
  eapply call_bind; [by apply call_emit|intros _ _]. apply call_ret, fresh_rio_wf.
Qed.

Lemma safe_alloc_peer lk : safe (inv lk) alloc_peer (joining lk).
Proof.
  apply safe_run. intros s (Ok & L & T & Mem & Th). eexists _, _. split; [reflexivity|].
  set (p := fresh (dom (peers s))).
  assert (peers s !! p = None) as Fr by apply not_elem_of_dom, is_fresh.
  assert (p ∉ hash_table s) as Hp.
  { intros Hp. destruct (proj1 (proj2 Ok) _ Hp) as [q E]. cbn in E. congruence. }
  split; [split; [by apply table_ok_fresh|split; [done|split; [done|split]]]|split; [done|split]].
  - intros y q Hy. cbn. rewrite lookup_insert_ne by (by intros <-). by apply Mem.
  - eapply threads_ok_same; [exact Th|done|done|reflexivity|done| |].
    + intros y Hy. cbn. unfold tids_of. by rewrite lookup_insert_ne by (by intros <-).
    + intros f y t q _ Hq Hf. right. exists q. cbn. rewrite lookup_insert_ne; [done|].
      intros <-. congruence.
  - eexists. split; [apply lookup_insert_eq|by split; [apply (fresh_rio_wf 0)|]].
  - intros f t Ht. destruct Th as [_ A]. destruct (A f p t Ht) as [|(q & Hq & _)]; [done|congruence].
Qed.

Lemma safe_new_peer lk f : safe (inv lk) (new_peer f) (joining lk).
Proof.
  unfold new_peer. eapply safe_bind; [apply safe_alloc_peer|intros p].
  eapply safe_bind; [by apply safe_in_io; [apply call_rio_readinit|]|intros rp].
  apply safe_pure. intros W. eapply safe_bind; [apply safe_peer|intros q].
  apply (safe_bind _ _ _ (fun _ => joining lk p)).
  - apply safe_modify. intros s [J Hq]. apply joining_update; [done|].
    pose proof J as (_ & _ & (q' & Hq' & _ & Hm) & _). split; [done|]. cbn. congruence.
  - intros _. by apply safe_ret.
Qed.

Lemma joined_members p q now l t s :
  member_ok q ->
  (forall x y, x ∈ hash_table s -> peers s !! x = Some y -> member_ok y) ->
  (t = hash_table s \/ t = hash_table s ++ [p]) ->
  forall x y, x ∈ t -> peers (joined p q now l t s) !! x = Some y -> member_ok y.
Proof.
  intros [Hw _] Mem Ht x y Hx. cbn [joined peers]. destruct (decide (x = p)) as [->|Hn].
  - rewrite lookup_insert_eq. by intros [= <-].
  - rewrite lookup_insert_ne by done. apply Mem. destruct Ht as [->| ->]; [done|].
    by apply elem_of_app in Hx as [?|?%list_elem_of_singleton].
Qed.

Lemma add_member_starved p q o s :
  locks s = lock_init -> peers s !! p = Some q -> clocks (io s) = [] ->
  find_key (peers s) (hash_table s) (tapMAC (p_ls q)) = Some o ->
  (add_member p s).1 = Starved.
Proof.
  intros L Hq Ck F. unfold add_member. rewrite (bind_ret_l _ _ _ _ _ (writeBegin_free s L)).
  erewrite bind_ret_l by (by apply peer_live). erewrite bind_ret_l by (by apply hash_find_run).
  destruct o; erewrite bind_ret_l by reflexivity;
    unfold bind at 1, in_io, zoom, clock_gettime at 1; cbn [io set_locks set_hash_table]; by rewrite Ck.
Qed.

Lemma safe_add_member p : safe (joining lock_init p) (add_member p) (fun _ => serving).
Proof.
  intros s ((Ok & L & T & Mem & Th) & Hp & (q & Hq & Hm) & Hold).
  destruct (clocks (io s)) as [|now l] eqn:Ck.
  { assert (exists o, find_key (peers s) (hash_table s) (tapMAC (p_ls q)) = Some o) as [o F].
    { destruct (find_key_ok (peers s) (hash_table s) (tapMAC (p_ls q)) Ok) as [(x & F & _)|[F _]];
        by eexists. }
    pose proof (add_member_starved p q o s L Hq Ck F) as E.
    destruct (add_member p s) as [o' s']. cbn in E. by subst. }
  destruct (find_key_ok (peers s) (hash_table s) (tapMAC (p_ls q)) Ok) as [(p' & F & _)|[F Hnew]];
    (erewrite add_member_run by eauto 10); (split; [|split; [done|split; [done|split]]]);
    try (eapply joined_members; eauto); try (by apply threads_ok_joined; auto).
  - by apply table_ok_joined.
  - apply table_ok_joined; [done|]. eapply table_ok_add; [done|by apply peer_mac_live|done].
Qed.

(** ** Connecting and accepting *)

Lemma safe_close_fd (P : world -> Prop) f :
  quiet P -> safe P (close_fd f) (fun _ => P).
Proof. by apply safe_call, call_emit. Qed.

Lemma safe_local_address {A} (k : bool -> M world A) Q : 
  (forall b, safe serving (k b) Q) -> safe serving (bind address_unknown k) Q.
Proof. intros Hk. apply safe_seq; [by apply safe_gets|exact Hk]. Qed.

Lemma safe_learn_address (unknown : bool) :
  safe serving
    (if unknown then
       let* v := in_io sys_call in
       if v <? 0 then fail (Exit (-1))
       else let* a := in_io sys_addr in set_address a
     else ret tt) (fun _ => serving).
Proof.
  destruct unknown; [|by apply safe_ret].
  apply safe_seq; [by apply safe_sys|intros v]. destruct (v <? 0); [apply safe_exit|].
  apply safe_seq; [by apply safe_call; [apply call_sys_addr|]|intros a]. by apply safe_modify.
Qed.

Lemma safe_connectbyname h pt : safe serving (connectbyname h pt) (fun _ => serving).
Proof.
  assert (forall f, safe serving (close_fd f ;;; ret (@None loc)) (fun _ => serving)) as Close.
  { intros f. apply safe_seq; [by apply safe_close_fd|intros _]. by apply safe_ret. }
  unfold connectbyname.
  apply safe_seq; [by apply safe_sys|intros f]. destruct (f <? 0); [by apply safe_ret|].
  apply safe_seq; [by apply safe_sys|intros v]. destruct (v <? 0); [apply Close|].
  apply safe_seq; [by apply safe_call; [apply call_getaddrinfo|]|intros e]. destruct (negb _); [apply Close|].
  apply safe_seq; [by apply safe_sys|intros c]. destruct (c <? 0); [apply Close|].
  apply safe_local_address. intros unknown.
  apply safe_seq; [apply safe_learn_address|intros _].
  eapply safe_bind; [apply safe_new_peer|intros p].
  eapply safe_bind; [apply safe_initial_join_client|intros r].
  eapply safe_bind; [apply safe_add_member|intros []]. by apply safe_ret.
Qed.

Lemma safe_accept_connection junk l :
  safe serving (accept_connection junk l) (fun _ => serving).
Proof.
  unfold accept_connection.
  apply safe_seq; [by apply safe_sys|intros f]. destruct (f <? 0).
  { apply safe_seq; [by apply safe_close_fd|intros _; apply safe_exit]. }
  apply safe_local_address. intros unknown.
  apply safe_seq; [apply safe_learn_address|intros _].
  eapply safe_bind; [apply safe_new_peer|intros p].
  eapply safe_bind; [apply safe_initial_join_server|intros r]. apply safe_add_member.
Qed.

(** ** Start-up *)

Section Host.
Context (files : bytes -> option bytes) (tun_name : Z -> bytes -> bytes).

(** The kernel has the address of an interface with a short name. *)
Definition address_known (dev : bytes) : Prop :=
  (length dev <= 40)%nat /\
  exists m rest, files (address_file dev) = Some (mac_text m ++ newline :: rest).

(** It names tap devices with less than 16 characters, and has their addresses
    and that of eth0. *)
Definition host_ok : Prop :=
  (forall flags n, (length (tun_name flags n) < IFNAMSIZ)%nat /\ address_known (tun_name flags n)) /\
  address_known (str "eth0").

Context (Host : host_ok).

(** The invariant during start-up: besides, the list holds [xs], and there is a
    listening socket if [b]. *)
Definition booting (b : bool) (xs : list llnode) (s : process) : Prop :=
  serving (proc s) /\ list_holds s xs /\ (b = true -> is_Some (listenfd s)).

Lemma safe_in_proc {A} b xs (m : M world A) (R : A -> Prop) :
  safe serving m (fun a w => R a /\ serving w) ->
  safe (booting b xs) (in_proc m) (fun a s => R a /\ booting b xs s).
Proof. intros Hm. eapply safe_zoom; [exact Hm|by intros s [S _]|]. intros s a w (_ & L) [Ra S]. done. Qed.

Lemma safe_in_env {A} b xs (m : M env A) (R : A -> Prop) :
  call_ok m R -> safe (booting b xs) (in_env m) (fun a s => R a /\ booting b xs s).
Proof. intros Hm. apply safe_in_proc. by apply safe_in_io. Qed.

Lemma safe_world {A} b xs (m : M world A) :
  safe serving m (fun _ => serving) ->
  safe (booting b xs) (in_proc m) (fun _ => booting b xs).
Proof. intros Hm. eapply safe_zoom; [exact Hm|by intros s [S _]|]. intros s a w (_ & L) S. done. Qed.

Lemma safe_env {A} b xs (m : M env A) :
  call_ok m (fun _ => True) -> safe (booting b xs) (in_env m) (fun _ => booting b xs).
Proof. intros Hm. apply safe_world. by apply safe_call. Qed.

Lemma call_allocate_tunnel dev flags :
  call_ok (allocate_tunnel tun_name dev flags) (fun a => a.1 < 0 \/ address_known a.2).
Proof.
  unfold allocate_tunnel. eapply call_bind; [apply call_sys_call|intros fd _].
  destruct (Z.ltb_spec fd 0); [apply call_ret; by left|].
  eapply call_bind; [apply call_sys_call|intros error _]. cbv zeta.
  destruct (Z.ltb_spec error 0).
  { eapply call_bind; [by apply call_emit|intros _ _]. apply call_ret. by left. }
  destruct (proj1 Host flags (take IFNAMSIZ dev)) as [Len K].
  rewrite (proj2 (Nat.leb_gt _ _)) by done. apply call_ret. by right.
Qed.

Lemma call_getMAC dev old : address_known dev -> call_ok (getMAC files dev old) (fun _ => True).
Proof. intros (Len & m & rest & F) l s E. by rewrite (getMAC_run files dev m old rest s). Qed.

Lemma safe_open_listenfd port : safe serving (open_listenfd port) (fun _ => serving).
Proof.
  unfold open_listenfd.
  apply safe_seq; [by apply safe_sys|intros l]. destruct (l <? 0); [by apply safe_ret|].
  apply safe_seq; [by apply safe_sys|intros v]. destruct (v <? 0).
  { apply safe_seq; [by apply safe_close_fd|intros _; apply safe_exit]. }
  apply safe_seq; [by apply safe_sys|intros v1]. destruct (v1 <? 0).
  { apply safe_seq; [by apply safe_close_fd|intros _; by apply safe_ret]. }
  apply safe_seq; [by apply safe_sys|intros v2]. destruct (v2 <? 0); [|by apply safe_ret].
  apply safe_seq; [by apply safe_close_fd|intros _; by apply safe_ret].
Qed.

Lemma safe_start_listening b xs :
  safe (booting b xs) start_listening (fun _ => booting true xs).
Proof.
  unfold start_listening. apply safe_seq; [by apply safe_gets|intros c].
  apply safe_seq; [apply safe_world, safe_open_listenfd|intros l].
  apply (safe_bind _ _ _ (fun _ => booting true xs)).
  { apply safe_modify. intros s (S & L & _). by split; [|split; [|by eexists]]. }
  intros _. destruct (l <? 0); [apply safe_exit|]. apply safe_world. by apply safe_modify.
Qed.

Lemma safe_open_tap b xs dev :
  safe (booting b xs) (open_tap files tun_name dev) (fun _ => booting b xs).
Proof.
  unfold open_tap.
  eapply safe_bind; [apply safe_in_env, call_allocate_tunnel|intros [fd name]]. cbn [fst snd].
  apply safe_pure. intros K. apply safe_seq; [by apply safe_modify|intros _].
  destruct (Z.ltb_spec fd 0); [apply safe_exit|]. destruct K as [K|K]; [lia|].
  eapply safe_bind; [apply safe_in_env, call_rio_readinit|intros rp].
  apply safe_pure. intros W. apply safe_seq; [apply safe_world, safe_modify; by intros s (Ok & L & _ & Mem)|].
  intros _. apply safe_seq; [by apply safe_gets|intros l].
  apply safe_seq; [by apply safe_env, call_getMAC|intros [v m]].
  apply safe_seq; [apply safe_world; by apply safe_modify|intros _].
  apply safe_seq; [by apply safe_env, call_getMAC, Host|intros [v' m']].
  apply safe_world. by apply safe_modify.
Qed.

Lemma safe_add_peer b xs x :
  safe (booting b xs) (add_peer x) (fun _ => booting b (x :: xs)).
Proof.
  apply safe_run. intros s (S & L & B). destruct (add_peer_holds x s xs L) as (s' & R & L').
  exists tt, s'. split; [done|].
  assert (keeps proc (add_peer x)) as K1 by (unfold add_peer; keeps).
  assert (keeps listenfd (add_peer x)) as K2 by (unfold add_peer; keeps).
  specialize (K1 s). specialize (K2 s). rewrite R in K1, K2. cbn in K1, K2.
  unfold booting. by rewrite K1, K2.
Qed.

(** What a directive adds to the invariant. *)
Definition names_port (d : directive) : bool := match d with ListenPort _ => true | _ => false end.
Definition with_peer (d : directive) (xs : list llnode) : list llnode :=
  match d with PeerAt h p => LLNode (Some h) (Some p) :: xs | _ => xs end.

Lemma safe_configure b xs f : safe (booting b xs) (configure f) (fun _ => booting b xs).
Proof. apply safe_world. by apply safe_modify. Qed.

Lemma safe_obey b xs d :
  safe (booting b xs) (obey files tun_name d)
    (fun _ => booting (b || names_port d) (with_peer d xs)).
Proof.
  destruct d as [n|n|n|n|h p|dev]; cbn [obey names_port with_peer];
    rewrite ?orb_false_r, ?orb_true_r;
    [|apply safe_configure|apply safe_configure|apply safe_configure
     |apply safe_add_peer|apply safe_open_tap].
  apply safe_seq; [apply safe_configure|intros _; apply safe_start_listening].
Qed.

Lemma safe_obey_all ds : forall b xs,
  safe (booting b xs) (obey_all files tun_name ds)
    (fun _ => booting (b || existsb names_port ds) (rev (peers_of ds) ++ xs)).
Proof.
  induction ds as [|d ds IH]; intros b xs; cbn [obey_all existsb].
  { apply safe_ret. by rewrite orb_false_r. }
  eapply safe_bind; [apply safe_obey|intros []].
  eapply safe_conseq; [apply IH|done|]. intros [] s. rewrite orb_assoc.
  by destruct d; cbn [peers_of with_peer rev]; rewrite <- ?app_assoc.
Qed.

(** Connecting to the peers of the list. *)
Lemma safe_dial l : safe serving (dial l) (fun _ => serving).
Proof.
  induction l as [|[h p] l IH]; [by apply safe_ret|].
  apply safe_seq; [apply safe_connectbyname|intros [pp|]; [exact IH|apply safe_exit]].
Qed.

Lemma safe_connect_peers b xs :
  safe (booting b (map node_of xs)) connect_peers (fun _ => booting b []).
Proof.
  intros s (S & L & B). pose proof (connect_peers_run xs s L) as R.
  pose proof (safe_dial xs (proc s) S) as D.
  destruct (dial xs (proc s)) as [o w]. destruct R as (s' & E & Pw & Hn).
  pose proof (connect_peers_keeps_listenfd s) as K. rewrite E in K. cbn in K. rewrite E.
  destruct o as [[]| | | | |]; try done. split; [by rewrite Pw|]. split; [by apply Hn|].
  by rewrite K.
Qed.

Lemma safe_Signal b xs signo h :
  safe (booting b xs) (Signal signo h) (fun _ => booting b xs).
Proof.
  unfold Signal. apply safe_seq; [by apply safe_env, call_sys_call|intros v].
  destruct (v <? 0); [by apply safe_ret|].
  apply safe_seq; [by apply safe_gets|intros old].
  apply safe_seq; [by apply safe_modify|intros _]. by apply safe_ret.
Qed.

(** The thread of the tap device is not one of a peer. *)
Lemma safe_create_tap p : safe serving (pthread_create Tap_handler p) (fun _ => serving).
Proof.
  apply safe_run. intros s (Ok & L & T & Mem & Th). eexists _, _. split; [reflexivity|].
  do 4 (split; [done|]). eapply threads_ok_same; [exact Th| |done|cbn; lia|done|done|].
  - pose proof (started_log (EvCreate Tap_handler p (next_tid s)) (io s)) as E.
    by rewrite app_nil_r in E.
  - intros f y t q _ Hq Hf. right. by exists q.
Qed.

Lemma safe_start_threads b xs :
  safe (booting b xs) start_threads (fun _ => booting b xs).
Proof.
  unfold start_threads.
  apply safe_seq; [apply safe_world, safe_create_tap|intros t].
  apply safe_seq; [apply safe_world; by apply safe_modify|intros _].
  apply safe_seq; [by apply safe_env, call_clock_gettime|intros now].
  apply safe_seq; [apply safe_world; by apply safe_modify|intros _].
  apply safe_seq; [by apply safe_gets|intros c].
  by apply safe_env, call_emit.
Qed.

Lemma safe_setup ds :
  safe (booting false []) (setup files tun_name ds)
    (fun _ => booting (existsb names_port ds) []).
Proof.
  unfold setup, install_handlers.
  apply safe_seq; [|intros _].
  { do 4 (apply safe_seq; [apply safe_Signal|intros _]). by apply safe_ret. }
  apply safe_seq; [apply safe_world; by apply safe_modify|intros _].
  eapply safe_bind; [apply safe_obey_all|intros []]. rewrite app_nil_r, peers_named, <- map_rev.
  eapply safe_bind; [apply safe_connect_peers|intros []]. apply safe_start_threads.
Qed.

Lemma safe_serve b junk l n : safe (booting b []) (serve junk n l) (fun _ => booting b []).
Proof.
  induction n as [|n IH]; [by apply safe_ret|].
  apply safe_seq; [apply safe_world, safe_accept_connection|done].
Qed.

End Host.

(** ** Properties *)

(** C6: The main thread is safe, run alone, on a host where the files with the
    addresses of eth0 and of the tap device can be read, and with a
    configuration file of well-formed lines that names a port ([main_without_port]
    says what happens otherwise), started without members and peers or, more
    generally, in a state of the invariant.  Then [main] reaches its server loop or exits
    or waits for the system, whatever the system answers and the connected peers
    send in the join exchange: it is never undefined and never blocked on the
    lock.  When it gets through any number of connections, the table is
    well-formed, the lock free and the buffer of the tap device in order, as the
    threads of the handlers need it. *)
Theorem main_safe files tun_name junk argv0 name ls passes s o s' :
  host_ok files tun_name ->
  files name = Some (concat (map line_text ls)) -> Forall line_ok ls ->
  existsb names_port (map snd ls) = true ->
  serving (proc s) -> list_holds s [] ->
  main files tun_name junk [argv0; name] passes s = (o, s') ->
  match o with
  | Ret _ => serving (proc s') /\ is_Some (listenfd s')
  | Exit _ | Starved => True
  | Blocked | Cancelled | Undefined => False
  end.
Proof.
  intros Host F Hls Hp S L. rewrite (main_run _ _ _ _ _ ls) by done.
  assert (safe (booting false []) (setup files tun_name (map snd ls) ;;;
     let* l := gets listenfd in let* l := deref l in serve junk passes l)
    (fun _ => booting true [])) as T.
  { eapply safe_bind; [by apply safe_setup|intros []]. rewrite Hp.
    eapply (safe_bind _ _ _ (fun l s => is_Some l /\ booting true [] s)).
    { apply safe_gets. intros t B. split; [by apply B|done]. }
    intros l. apply safe_pure. intros [f ->]. apply safe_seq; [by apply safe_ret|intros f'].
    apply safe_serve. }
  specialize (T s). intros E. rewrite E in T.
  assert (booting false [] s) as B by done. specialize (T B).
  destruct o; try done. destruct T as (S' & _ & B'). split; [done|by apply B'].
Qed.

End Safety.

(** ** Witnesses *)

Section Example_safety.

#[local] Instance example_safety_abi : ABI := LP64.

Lemma host_is_ok : host_ok host (fun _ _ => str "tap2").
Proof.
  split.
  - intros _ _. split; [unfold IFNAMSIZ; cbn; lia|]. split; [cbn; lia|].
    exists tap2_mac, []. by vm_compute.
  - split; [cbn; lia|]. exists (mac_of_bytes (le_split 6 0xb73a11441b00)), []. by vm_compute.
Qed.

Lemma booted_serving : serving (proc booted).
Proof.
  split; [|split; [done|split; [apply (fresh_rio_wf 0)|split; [by intros p q ?%not_elem_of_nil|]]]].
  - split; [constructor|]. split; [by intros p ?%not_elem_of_nil|by intros p q ?%not_elem_of_nil].
  - split; [split; [constructor|by split; intros t ?%not_elem_of_nil]|by intros f p t ?%not_elem_of_nil].
Qed.

(** The shipped configuration, and a connection that never comes. *)
Lemma main_safe_witness :
  (main host (fun _ _ => str "tap2") [] [str "proxy"; str "proxy.conf"] 1 booted).1 <> Undefined.
Proof.
  destruct (main host (fun _ _ => str "tap2") [] [str "proxy"; str "proxy.conf"] 1 booted)
    as [o s'] eqn:E. cbn [fst].
  pose proof (main_safe host (fun _ _ => str "tap2") [] (str "proxy") (str "proxy.conf")
    proxy_conf 1 booted o s' host_is_ok ltac:(by vm_compute) proxy_conf_ok ltac:(by vm_compute)
    booted_serving booted_list E) as T.
  clear E. intros ->. exact T.
Defined.

End Example_safety.
