(* ===== verification/System.v ===== *)
(** * The passes of the threads

    Once [main] serves, the state only changes by passes of the threads: a
    connection that is accepted, a frame from the tap device, a packet from a
    member, the timer of a member, the periodic broadcast.  [pass] is the step
    relation of the whole program, for the threads of the members of the table,
    and [serving], the invariant of Safety, holds in every state it reaches. *)

From S2P Require Export Safety LinkState.

(** A member at hand: the peer at [p] is in the table, or it is gone. *)
Definition here (lk : lock_state) (p : loc) (s : world) : Prop :=
  inv lk s /\ (is_Some (peers s !! p) -> p ∈ hash_table s).

(** A walk over the table with the elements of [t] to come. *)
Definition walking (lk : lock_state) (t : list loc) (s : world) : Prop :=
  inv lk s /\ NoDup t /\ forall x, x ∈ t -> x ∈ hash_table s.

(** The mutex of the peer at [p] is held; releasing it gives [P]. *)
Definition held (P : world -> Prop) (p : loc) (s : world) : Prop :=
  exists q, peers s !! p = Some q /\
    P (set_peers (<[p := with_timeout_mutex false q]> (peers s)) s).

(** The link state, the buffer, the mutex and the threads of a peer. *)
Definition same_link (x q : Peer) : Prop :=
  p_ls x = p_ls q /\ p_rio x = p_rio q /\ p_timeout_mutex x = p_timeout_mutex q /\
  p_tid x = p_tid q /\ p_timeout_tid x = p_timeout_tid q.

(** An assertion that allows changes of a peer outside of these. *)
Definition stable (p : loc) (P : world -> Prop) : Prop :=
  forall s q x, P s -> peers s !! p = Some q -> same_link x q ->
    P (set_peers (<[p := x]> (peers s)) s).

(** A family of assertions indexed by the state of the lock. *)
Definition locked_by (P : lock_state -> world -> Prop) : Prop :=
  (forall l s, P l s -> locks s = l) /\ (forall l l' s, P l s -> P l' (set_locks l' s)).

(** ** The invariant *)

Lemma inv_update lk p q x s :
  inv lk s -> peers s !! p = Some q -> p_ls x = p_ls q -> p_tid x = p_tid q ->
  p_timeout_tid x = p_timeout_tid q -> (member_ok q -> member_ok x) ->
  inv lk (set_peers (<[p := x]> (peers s)) s).
Proof.
  intros (Ok & L & T & Mem & Th) Hq Hl H1 H2 Hx.
  split; [|split; [done|split; [done|split; [|by eapply threads_ok_update]]]].
  - eapply table_ok_mono; [|exact Ok]. intros p' Hp'. unfold peer_mac. cbn.
    destruct (decide (p' = p)) as [->|Hn].
    + rewrite lookup_insert_eq, Hq. cbn. rewrite Hl. by split.
    + rewrite lookup_insert_ne by done. split; [done|]. by apply (proj1 (proj2 Ok)).
  - intros p' q' Hp'. cbn. destruct (decide (p' = p)) as [->|Hn].
    + rewrite lookup_insert_eq. intros [= <-]. by apply Hx, (Mem p).
    + rewrite lookup_insert_ne by done. by apply Mem.
Qed.

Lemma inv_same_link lk p q x s :
  inv lk s -> peers s !! p = Some q -> same_link x q -> inv lk (set_peers (<[p := x]> (peers s)) s).
Proof.
  intros I Hq (E1 & E2 & E3 & E4 & E5). eapply inv_update; [done..|]. unfold member_ok. by rewrite E2, E3.
Qed.

Lemma inv_dropped lk p q s s' :
  inv lk s -> p ∈ hash_table s -> peers s !! p = Some q -> dropped p q s s' -> inv lk s'.
Proof.
  intros (Ok & L & T & Mem & Th) Hp Hq (Et & Ep & El & Er & En & Es & Ec).
  unfold inv, world_ok. rewrite Er, Et, Ep.
  split; [by apply table_ok_remove|]. split; [congruence|]. split; [done|]. split.
  - intros x y [Hn Hx]%list_elem_of_filter. rewrite lookup_delete_ne by done. by apply Mem.
  - by eapply threads_ok_remove.
Qed.

Lemma forget_dropped p q s :
  dropped p q s (forget p q (filter (fun x => x <> p) (hash_table s)) s).
Proof.
  do 5 (split; [done|]). split.
  - cbn -[started]. rewrite !started_log. cbn [is_start]. by rewrite !app_nil_r.
  - intros t. cbn. rewrite !elem_of_cons. tauto.
Qed.

Lemma here_stable lk p p' : stable p' (here lk p).
Proof.
  intros s q x [I Hp] Hq E. split; [by eapply inv_same_link|].
  cbn. destruct (decide (p = p')) as [->|Hn].
  - intros _. apply Hp. by exists q.
  - by rewrite lookup_insert_ne.
Qed.

Lemma walking_stable lk t p : stable p (walking lk t).
Proof. intros s q x (I & W) Hq E. split; [by eapply inv_same_link|done]. Qed.

Lemma here_quiet lk p : quiet (here lk p).
Proof. intros e s E [I Hp]. split; [by apply inv_io|done]. Qed.

Lemma walking_quiet lk t : quiet (walking lk t).
Proof. intros e s E [I Hp]. split; [by apply inv_io|done]. Qed.

Lemma inv_locked : locked_by inv.
Proof. split; [by intros l s (_ & L & _)|]. by intros l l' s (Ok & _ & T & Mem & Th). Qed.

Lemma here_locked p : locked_by (fun l => here l p).
Proof.
  split; [by intros l s [I _]; apply inv_locked|].
  intros l l' s [I Hp]. split; [by eapply inv_locked|done].
Qed.

Lemma walking_locked t : locked_by (fun l => walking l t).
Proof.
  split; [by intros l s [I _]; apply inv_locked|].
  intros l l' s [I Hp]. split; [by eapply inv_locked|done].
Qed.

#[local] Hint Resolve here_stable walking_stable inv_quiet here_quiet walking_quiet inv_locked
  here_locked walking_locked : core.

Lemma serving_walking s : serving s -> walking lock_init (hash_table s) s.
Proof. intros I. split; [done|]. by split; [apply I|]. Qed.

Lemma serving_here p s : serving s -> p ∈ hash_table s -> here lock_init p s.
Proof. by intros I Hp. Qed.

Lemma serving_member p s : serving s -> p ∈ hash_table s -> walking lock_init [p] s.
Proof.
  intros I Hp. split; [done|]. split; [apply NoDup_singleton|]. by intros x ->%list_elem_of_singleton.
Qed.

(** ** The shared operations *)

Lemma partial_peer (P C : world -> Prop) p :
  partial P (peer p) (fun q s => peers s !! p = Some q /\ P s) C.
Proof. intros s Hs. unfold peer. by destruct (peers s !! p) eqn:E; cbn. Qed.

Lemma partial_set_peer (P C : world -> Prop) p q x :
  stable p P -> same_link x q ->
  partial (fun s => peers s !! p = Some q /\ P s) (set_peer p x) (fun _ => P) C.
Proof. intros St E. apply partial_modify. intros s [Hq Hs]. by eapply St. Qed.

Lemma partial_peer_write (P C : world -> Prop) p data :
  quiet P -> partial P (peer_write p data) (fun _ => P) C.
Proof.
  intros HP s Hs. destruct (peers s !! p) as [q|] eqn:Hq.
  - destruct (peer_write p data s) as [o s'] eqn:E.
    destruct (peer_write_outcome _ _ _ _ _ _ Hq E) as (e & -> & W & [->|(v & ->)]); [done|].
    apply HP; [by eapply writes_only_started|done].
  - unfold peer_write, bind, peer. by rewrite Hq.
Qed.

Lemma partial_here_readnb lk p n C :
  0 <= n -> partial (here lk p) (peer_readnb p n) (fun _ => here lk p) C.
Proof.
  intros Hn s Hs. destruct (peers s !! p) as [q|] eqn:Hq.
  2: { unfold peer_readnb, bind, peer. by rewrite Hq. }
  assert (safe (fun s => here lk p s /\ is_Some (peers s !! p)) (peer_readnb p n)
    (fun _ s => here lk p s /\ is_Some (peers s !! p))) as T.
  { apply safe_peer_readnb_any; [done| | |].
    - intros s' [[(_ & _ & _ & Mem & _) Hin] [q' Hq']]. exists q'. split; [done|].
      apply (Mem p); [|done]. apply Hin. by exists q'.
    - intros e s' E [Hh Hq']. split; [by apply here_quiet|done].
    - intros s' q' rp [[I Hin] _] Hq' W. split; [split|].
      + apply (inv_update lk p q' (with_rio rp q') s'); [done..|]. by intros [_ Hm].
      + intros _. apply Hin. by exists q'.
      + cbn. rewrite lookup_insert_eq. by eexists. }
  specialize (T s (conj Hs (mk_is_Some _ _ Hq))).
  destruct (peer_readnb p n s) as [[a| | | | |] s']; try done. by destruct T.
Qed.

Lemma partial_io {A} (P C : world -> Prop) (m : M env A) :
  quiet P -> call_ok m (fun _ => True) -> partial P (in_io m) (fun _ => P) C.
Proof. intros HP Hm. by apply partial_of_safe, safe_call. Qed.

Lemma call_rio_write f data : call_ok (rio_write f data) (fun _ => True).
Proof.
  intros l s E. destruct (rio_write f data s) as [o s'] eqn:R.
  apply rio_write_spec in R as (W & sent & rest & _ & _ & O). apply writes_only_started in W.
  rewrite E in W. by destruct O as [->|[->|[-> _]]].
Qed.

Lemma partial_clock (P C : world -> Prop) : quiet P -> partial P (in_io clock_gettime) (fun _ => P) C.
Proof. intros HP. by apply partial_io, call_clock_gettime. Qed.

Lemma partial_sys (P C : world -> Prop) : quiet P -> partial P (in_io sys_call) (fun _ => P) C.
Proof. intros HP. by apply partial_io, call_sys_call. Qed.

Lemma partial_emit (P C : world -> Prop) ev :
  quiet P -> is_start ev = None -> partial P (in_io (emit ev)) (fun _ => P) C.
Proof. intros HP E. by apply partial_io, call_emit. Qed.

Lemma partial_testcancel (P C : world -> Prop) :
  (forall s, P s -> C s) -> partial P pthread_testcancel (fun _ => P) C.
Proof.
  intros HC s Hs. unfold pthread_testcancel. destruct (bool_decide _); [by apply HC|done].
Qed.

(** A load from the packet, and the store through the pointer of another. *)
Lemma partial_field {A} (P C : world -> Prop) (c : codec A) mem off :
  partial P (fun s => deref (load c mem off) s) (fun _ => P) C.
Proof. intros s Hs. by destruct (load c mem off). Qed.

Lemma partial_put `{ABI} {A} (P C : world -> Prop) (c : codec A) a b :
  partial P (put c a b) (fun _ => P) C.
Proof. intros s Hs. unfold put. by destruct (store _ _ _ _). Qed.

Lemma partial_hash_find_at `{ABI} (P C : world -> Prop) mem off :
  partial P (hash_find_at mem off)
    (fun o s => P s /\ forall p, o = Some p -> p ∈ hash_table s) C.
Proof.
  intros s Hs. destruct (load c_mac mem off) as [k|] eqn:L.
  - destruct (find_key (peers s) (hash_table s) k) as [o|] eqn:F.
    + rewrite (hash_find_at_run _ _ _ _ _ L F). split; [done|]. intros p ->.
      by apply find_key_Some in F as [? _].
    + rewrite (hash_find_at_key _ _ _ _ L). by rewrite F.
  - unfold hash_find_at, bind, gets. rewrite L. by destruct (hash_table s).
Qed.

(** ** The lock, the mutex of a peer, and its removal *)

Lemma partial_writeBegin (P : lock_state -> world -> Prop) C :
  locked_by P -> partial (P lock_init) writeBegin (fun _ => P lock_writing) C.
Proof. intros [L S] s Hs. rewrite writeBegin_free by (by eapply L). by eapply S. Qed.

Lemma partial_writeEnd (P : lock_state -> world -> Prop) C :
  locked_by P -> partial (P lock_writing) writeEnd (fun _ => P lock_init) C.
Proof. intros [L S] s Hs. rewrite writeEnd_writing by (by eapply L). by eapply S. Qed.

(** A read section of this thread alone. *)
Definition lock_reading : lock_state := LockState 1 0 false false false false true.

Lemma partial_readBegin (P : lock_state -> world -> Prop) C :
  locked_by P -> partial (P lock_init) readBegin (fun _ => P lock_reading) C.
Proof. intros [L S] s Hs. rewrite readBegin_free by (by eapply L). by eapply S. Qed.

Lemma partial_readEnd (P : lock_state -> world -> Prop) C :
  locked_by P -> partial (P lock_reading) readEnd (fun _ => P lock_init) C.
Proof. intros [L S] s Hs. rewrite readEnd_reading by (by eapply L). by eapply S. Qed.

Lemma partial_timeout_lock (P C : world -> Prop) p :
  partial P (timeout_lock p) (fun _ => held P p) C.
Proof.
  intros s Hs. unfold timeout_lock, bind, peer. destruct (peers s !! p) as [q|] eqn:Hq; [|done].
  cbn [deref]. unfold ret. destruct (p_timeout_mutex q) eqn:Hm; [done|].
  exists (with_timeout_mutex true q). cbn. split; [apply lookup_insert_eq|].
  rewrite insert_insert_eq.
  replace (with_timeout_mutex false (with_timeout_mutex true q)) with q
    by (destruct q; cbn in *; by subst).
  rewrite insert_id by done. by destruct s.
Qed.

Lemma partial_timeout_unlock (P C : world -> Prop) p :
  partial (held P p) (timeout_unlock p) (fun _ => P) C.
Proof.
  intros s (q & Hq & Hs). unfold timeout_unlock, bind. by rewrite (peer_live _ _ _ Hq).
Qed.

Lemma held_quiet P p : quiet P -> quiet (held P p).
Proof. intros HP e s E (q & Hq & Hs). exists q. split; [done|]. by apply (HP e) in Hs. Qed.

Lemma held_stable P p : stable p P -> stable p (held P p).
Proof.
  intros St s q x (q' & Hq' & Hs) Hq (E1 & E2 & E3 & E4 & E5). exists x. cbn.
  split; [apply lookup_insert_eq|].
  rewrite insert_insert_eq. assert (q' = q) as -> by congruence.
  specialize (St _ (with_timeout_mutex false q) (with_timeout_mutex false x) Hs).
  cbn in St. rewrite insert_insert_eq in St. apply St; [apply lookup_insert_eq|done].
Qed.

#[local] Hint Resolve held_quiet held_stable : core.

(** The element a walk is at leaves. *)
Lemma walking_dropped lk p q t s s' :
  walking lk (p :: t) s -> peers s !! p = Some q -> dropped p q s s' -> walking lk t s'.
Proof.
  intros (I & [Hp Nd]%NoDup_cons & Sub) Hq D.
  split; [eapply inv_dropped; [done| |done..]; apply Sub, list_elem_of_here|].
  split; [done|]. intros x Hx. destruct D as [-> _]. apply list_elem_of_filter.
  split; [by intros ->|]. by apply Sub, list_elem_of_further.
Qed.

(** A function that drops it. *)
Lemma partial_drop lk (drop : loc -> M world unit) p t C :
  (forall q s, peers s !! p = Some q -> p ∈ hash_table s ->
     exists s', drop p s = (Ret tt, s') /\ dropped p q s s') ->
  partial (walking lk (p :: t)) (drop p) (fun _ => walking lk t) C.
Proof.
  intros Hd. apply partial_run. intros s W.
  assert (p ∈ hash_table s) as Hp by apply W, list_elem_of_here.
  destruct W as [I W']. destruct (proj1 (proj2 (proj1 I)) p Hp) as [q Hq].
  destruct (Hd q s Hq Hp) as (s' & R & D). exists tt, s'. split; [done|].
  by eapply (walking_dropped lk p q t s); [split| |].
Qed.

(** A walk over the table whose body may remove the element it is at. *)
Lemma partial_iter lk (body : loc -> M world unit) C t :
  (forall p t, partial (walking lk (p :: t)) (body p) (fun _ => walking lk t) C) ->
  partial (walking lk t) (iter body t) (fun _ => walking lk []) C.
Proof.
  intros Hb. induction t as [|p t IH]; cbn [iter]; [by apply partial_ret|].
  eapply partial_bind; [apply Hb|intros []]. exact IH.
Qed.

Lemma partial_hash_iter lk (body : loc -> M world unit) C :
  (forall p t, partial (walking lk (p :: t)) (body p) (fun _ => walking lk t) C) ->
  partial (inv lk) (hash_iter body) (fun _ => inv lk) C.
Proof.
  intros Hb s I. unfold hash_iter, gets, bind.
  pose proof (partial_iter lk body C (hash_table s) Hb s) as T.
  assert (walking lk (hash_table s) s) as W by (split; [done|by split; [apply I|]]).
  specialize (T W). destruct (iter body (hash_table s) s) as [[[]| | | | |] s']; try done.
  by destruct T.
Qed.

Lemma walking_cons lk p t s : walking lk (p :: t) s -> walking lk t s.
Proof.
  intros (I & [_ Nd]%NoDup_cons & Sub). split; [done|]. split; [done|].
  intros x Hx. by apply Sub, list_elem_of_further.
Qed.

Section System.
Context `{ABI}.

(** ** The tap device *)

Lemma partial_tap_drop lk p t C :
  partial (walking lk (p :: t)) (tap_drop p) (fun _ => walking lk t) C.
Proof. apply partial_drop. intros q s. apply tap_drop_run. Qed.

Lemma partial_tap_forward packet lk p t C :
  partial (walking lk (p :: t)) (tap_forward packet p) (fun _ => walking lk t) C.
Proof.
  unfold tap_forward. apply partial_seq; [by apply partial_peer_write|intros size].
  destruct (size <=? 0); [apply partial_tap_drop|]. apply partial_ret. apply walking_cons.
Qed.

Lemma partial_tap_read n C :
  0 < n -> partial serving (tap_read n) (fun _ => serving) C.
Proof.
  intros Hn s I. destruct (tap_read n s) as [o s'] eqn:E.
  pose proof I as (_ & _ & T & _).
  destruct (tap_read_outcome _ _ _ _ T Hn E) as ((e & rp & -> & W & Es) & [->|(v & d & -> & _)]);
    [done|].
  pose proof (inv_io lock_init e s Es I) as (Ok & L & _ & Mem & Th). by split.
Qed.

Lemma partial_tap_iteration C : partial serving tap_iteration (fun _ => serving) C.
Proof.
  unfold tap_iteration. apply partial_seq; [by apply partial_tap_read|intros [size got]].
  destruct (size <=? 0); [by apply partial_fail|].
  destruct (tap_capacity <? _); [by apply partial_fail|]. cbv zeta.
  set (packet := take _ _). set (buffer := _ ++ got ++ _).
  eapply partial_bind; [by apply (partial_writeBegin inv)|intros []].
  eapply (partial_bind _ _ _ (fun _ => inv lock_writing)).
  2: { intros []. by apply (partial_writeEnd inv). }
  destruct (bool_decide _); [apply partial_hash_iter; intros; apply partial_tap_forward|].
  eapply partial_bind; [apply partial_hash_find_at|intros [p|]].
  - eapply (partial_conseq _ (walking lock_writing [p])); [apply partial_tap_forward| |].
    + intros s [I Hp]. split; [done|]. split; [apply NoDup_singleton|].
      intros x ->%list_elem_of_singleton. by apply Hp.
    + by intros a s [I _].
  - apply partial_ret. by intros s [I _].
Qed.

(** ** The timer of a member *)

(** The timer thread of the member at [p] runs, and is not cancelled. *)
Definition timing (p : loc) (s : world) : Prop :=
  walking lock_init [p] s /\ (self s ∉ cancelled s) /\
  forall q, peers s !! p = Some q -> p_timeout_tid q = self s.

Lemma timing_stable p : stable p (timing p).
Proof.
  intros s q x (W & Hn & Ht) Hq E. split; [by eapply walking_stable|]. split; [done|].
  intros y. cbn. rewrite lookup_insert_eq. intros [= <-]. destruct E as (_ & _ & _ & _ & ->).
  by apply Ht.
Qed.

Lemma timing_quiet p : quiet (timing p).
Proof. intros e s E (W & Hn). split; [by apply walking_quiet|done]. Qed.

#[local] Hint Resolve timing_stable timing_quiet : core.

Lemma partial_timeout_loop p C fuel : forall ts,
  partial (held (timing p) p) (timeout_loop fuel ts p) (fun _ => held (timing p) p) C.
Proof.
  induction fuel as [|fuel IH]; intros ts; [by apply partial_fail|]. cbn [timeout_loop].
  apply partial_seq; [by apply partial_io; [auto|apply call_timedwait]|intros [v refreshed]].
  eapply partial_bind; [apply partial_peer|intros q].
  eapply partial_bind; [by apply partial_set_peer; [auto|]|intros []].
  destruct (0 <? v); [|by apply partial_ret].
  apply partial_seq; [|intros _].
  { intros s Hs. pose proof Hs as (q' & _ & _ & Hn & _). by rewrite testcancel_pass. }
  apply partial_seq; [by apply partial_clock; auto|intros now].
  eapply partial_bind; [apply partial_peer|intros q'].
  apply (partial_conseq _ (held (timing p) p) _ _ (fun _ => held (timing p) p));
    [|by intros s []|done].
  apply partial_seq; [by apply partial_gets|intros c].
  destruct (expired _ _ _); [by apply partial_ret|apply IH].
Qed.

(** A thread that has returned never runs again, like a cancelled one. *)
Definition finish (s : world) : world := set_cancelled (self s :: cancelled s) s.

Lemma partial_timeout_handler p C :
  partial (timing p) (timeout_handler p) (fun _ s => serving (finish s)) C.
Proof.
  unfold timeout_handler.
  apply partial_seq; [by apply partial_clock|intros now].
  apply partial_seq; [by apply partial_gets|intros c].
  eapply partial_bind; [apply partial_timeout_lock|intros []].
  apply partial_seq; [by apply partial_gets|intros n].
  eapply partial_bind; [apply partial_timeout_loop|intros []].
  eapply partial_bind; [apply partial_timeout_unlock|intros []].
  apply partial_run. intros s (W & Hn & Ht).
  assert (p ∈ hash_table s) as Hp by apply W, list_elem_of_here.
  pose proof W as [I _]. pose proof I as (Ok & L & _).
  destruct (proj1 (proj2 Ok) p Hp) as [q Hq].
  rewrite (timer_ends p q) by done. eexists _, _. split; [reflexivity|].
  eapply (inv_dropped _ p q s); [done..|]. do 2 (split; [done|]). do 3 (split; [done|]). split.
  - cbn -[started]. rewrite !started_log. cbn [is_start]. by rewrite !app_nil_r.
  - intros t. cbn. rewrite !elem_of_cons, <- (Ht q Hq). tauto.
Qed.

(** ** The reader of a member *)

Lemma here_serving p s : here lock_init p s -> serving s.
Proof. by intros [I _]. Qed.

(** Removing the member at hand, or another one. *)
Lemma partial_remove_member p x C :
  partial (fun s => here lock_init p s /\ (is_Some (peers s !! x) -> x ∈ hash_table s))
    (remove_member (Some x)) (fun _ => here lock_init p) C.
Proof.
  intros s [[I Hp] Hx]. pose proof I as (Ok & L & T & Mem & _).
  destruct (peers s !! x) as [q|] eqn:Hq.
  2: { unfold remove_member. rewrite (bind_ret_l _ _ _ _ _ (writeBegin_free s L)).
       unfold bind, peer. cbn. by rewrite Hq. }
  assert (x ∈ hash_table s) as Hin by (apply Hx; by eexists).
  rewrite (remove_member_member s x q) by done.
  split; [by eapply (inv_dropped _ x q s), forget_dropped|].
  cbn [forget peers hash_table]. intros Live. apply list_elem_of_filter.
  destruct (decide (p = x)) as [->|Hn].
  - rewrite lookup_delete_eq in Live. by destruct Live.
  - rewrite lookup_delete_ne in Live by done. split; [done|by apply Hp].
Qed.

Lemma partial_remove_here p C :
  partial (here lock_init p) (remove_member (Some p)) (fun _ => here lock_init p) C.
Proof.
  eapply partial_conseq; [apply (partial_remove_member p p)| |done]. by intros s [I Hp].
Qed.

Lemma partial_Data p data C : partial (here lock_init p) (Data data) (fun _ => here lock_init p) C.
Proof.
  unfold Data. apply partial_seq; [by apply partial_gets|intros rt].
  apply partial_seq; [by apply partial_io, call_rio_write|intros size].
  destruct (size <=? 0); by apply partial_ret.
Qed.

(** The member a search has found. *)
Definition found (o : option loc) (l : lock_state) (p : loc) (s : world) : Prop :=
  here l p s /\ forall x, o = Some x -> x ∈ hash_table s.

Lemma found_locked o p : locked_by (fun l => found o l p).
Proof.
  split; [by intros l s [[I _] _]; apply inv_locked|].
  intros l l' s [W Hp]. split; [by eapply here_locked|done].
Qed.

Lemma partial_Leave p data C : partial (here lock_init p) (Leave data) (fun _ => here lock_init p) C.
Proof.
  unfold Leave. eapply partial_bind; [by apply (partial_readBegin (fun l => here l p))|intros []].
  eapply partial_bind; [apply partial_hash_find_at|intros o].
  eapply partial_bind; [apply (partial_readEnd (fun l => found o l p)), found_locked|intros []].
  apply (partial_bind _ _ _ (fun _ => here lock_init p)); [|intros []; by apply partial_ret].
  destruct o as [x|]; [|by apply partial_ret; intros s []].
  eapply partial_conseq; [apply (partial_remove_member p x)| |done].
  intros s [Hs Hx]. split; [done|]. intros _. by apply Hx.
Qed.

(** [Quit] does not return. *)
Lemma partial_Quit p data C :
  partial (here lock_init p) (Quit data) (fun _ => here lock_init p) C.
Proof.
  unfold Quit. destruct (negb _); [by apply partial_ret|]. cbv zeta. set (buffer := _ ++ data).
  eapply partial_bind; [by apply (partial_writeBegin (fun l => here l p))|intros []].
  eapply (partial_bind _ _ _ (fun _ => inv lock_writing)).
  - eapply partial_conseq; [apply partial_hash_iter|by intros s []|done].
    intros x t. apply partial_seq; [by apply partial_peer_write|intros size].
    intros s [I _]. unfold remove_member, bind.
    destruct (writeBegin_again s) as (s' & -> & _); [by apply inv_locked|done].
  - intros []. eapply partial_bind; [by apply (partial_writeEnd inv)|intros []].
    apply partial_seq; [by apply partial_gets|intros t].
    eapply (partial_bind _ _ _ (fun _ _ => True)); [by apply partial_run; intros s _; eexists _, _|].
    intros []. by apply partial_fail.
Qed.

Lemma partial_probe_request padding p data C :
  partial (here lock_init p) (Bandwidth_Probe_Request padding data p)
    (fun _ => here lock_init p) C.
Proof.
  unfold Bandwidth_Probe_Request. apply partial_seq; [apply partial_field|intros id]. cbv zeta.
  apply partial_seq; [by apply partial_peer_write|intros size].
  destruct (size <? 0); by apply partial_ret.
Qed.

Lemma partial_probe_response p data C :
  partial (here lock_init p) (Bandwidth_Probe_Response data p) (fun _ => here lock_init p) C.
Proof.
  unfold Bandwidth_Probe_Response. apply partial_seq; [by apply partial_clock|intros ts].
  apply partial_seq; [apply partial_field|intros pkt]. cbv zeta.
  eapply partial_bind; [apply partial_peer|intros q].
  destruct (_ && _); [|by apply partial_ret; intros s []].
  eapply partial_bind; [by apply partial_set_peer|intros []]. by apply partial_ret.
Qed.

Lemma partial_dispatch LS padding type data p C :
  partial (here lock_init p) (LS data) (fun _ => here lock_init p) C ->
  partial (here lock_init p) (dispatch LS padding type data p) (fun _ => here lock_init p) C.
Proof.
  intros HLS. unfold dispatch. cbv zeta.
  repeat (case_match; [apply partial_seq; [|intros v; by apply partial_ret];
    first [exact HLS|apply partial_Data|apply partial_Leave|apply partial_Quit
          |apply partial_probe_request|apply partial_probe_response|by apply partial_ret]|]).
  by apply partial_ret.
Qed.

(** One pass of a reader, whatever the member sends. *)
Lemma partial_eth_iteration LS padding junk p mem :
  (forall data, partial (here lock_init p) (LS data) (fun _ => here lock_init p) serving) ->
  partial (here lock_init p) (eth_iteration LS padding junk p mem)
    (fun _ => here lock_init p) serving.
Proof.
  intros HLS. unfold eth_iteration.
  apply partial_seq; [apply partial_here_readnb; unfold PROXY_HLEN; lia|intros [size got]]. cbv zeta.
  apply partial_seq; [|intros _].
  { destruct (size <=? 0); [|by apply partial_ret].
    apply partial_seq; [apply partial_testcancel, here_serving|intros _]. apply partial_remove_here. }
  apply partial_seq; [apply partial_testcancel, here_serving|intros _].
  apply partial_seq; [apply partial_here_readnb; apply htons_range|intros [size' got']].
  destruct (size' <=? 0).
  { apply partial_seq; [apply partial_remove_here|intros _].
    apply partial_seq; [apply partial_testcancel, here_serving|intros _]. by apply partial_fail. }
  apply partial_seq; [by apply partial_dispatch|intros v].
  destruct (match v with None => true | Some v => v <? 0 end).
  - apply partial_seq; [apply partial_remove_here|intros _].
    apply partial_seq; [apply partial_testcancel, here_serving|intros _]. by apply partial_fail.
  - apply partial_seq; [apply partial_testcancel, here_serving|intros _]. by apply partial_ret.
Qed.

(** ** Link-state packets *)

Lemma readBegin_writing s :
  locks s = lock_writing -> exists s', readBegin s = (Blocked, s').
Proof. intros L. unfold readBegin, in_locks, zoom. rewrite L. by eexists. Qed.

(** Inside a write section the join of a new peer never gets past the read
    section in which it counts the members. *)
Lemma partial_join_writing p (Q : option loc -> world -> Prop) C :
  partial (joining lock_writing p) (initial_join_client p) Q C.
Proof.
  unfold initial_join_client. apply partial_seq; [by apply partial_gets|intros l].
  eapply (partial_bind _ _ _ (fun _ _ => False)); [|by intros a s []].
  intros s ((_ & L & _) & _). unfold count_neighbors, bind.
  by destruct (readBegin_writing s L) as (s' & ->).
Qed.

Lemma here_address lk p a s :
  here lk p s ->
  here lk p (set_linkState (LinkState a (listenPort (linkState s)) (tapMAC (linkState s))
    (ethMAC (linkState s))) s).
Proof. done. Qed.

Lemma partial_connectbyaddr p addr port C :
  partial (here lock_writing p) (connectbyaddr addr port)
    (fun o s => o = None /\ here lock_writing p s) C.
Proof.
  assert (partial (here lock_writing p) (in_io sys_call) (fun _ => here lock_writing p) C) as Call
    by (by apply partial_sys).
  assert (forall f, partial (here lock_writing p) (close_fd f ;;; ret (@None loc))
    (fun o s => o = None /\ here lock_writing p s) C) as Close.
  { intros f. apply partial_seq; [by apply partial_emit|intros _].
    by apply partial_ret. }
  unfold connectbyaddr.
  apply partial_seq; [exact Call|intros f]. destruct (negb _); [by apply partial_ret|].
  apply partial_seq; [exact Call|intros v]. destruct (v <? 0); [apply Close|].
  apply partial_seq; [by apply partial_io, call_connect_to|intros v']. destruct (v' <? 0); [apply Close|].
  apply partial_seq; [by apply partial_gets|intros unknown].
  apply partial_seq; [|intros _].
  { destruct unknown; [|by apply partial_ret]. apply partial_seq; [exact Call|intros w].
    destruct (w <? 0); [by apply partial_fail|]. apply partial_modify, here_address. }
  apply (partial_bind _ _ _ (joining lock_writing)).
  - eapply partial_conseq; [apply partial_of_safe, safe_new_peer|by intros s []|done].
  - intros x. eapply partial_bind; [apply (partial_join_writing x (fun _ _ => False))|].
    by intros r s [].
Qed.

Lemma partial_Link_State_record p data ptr C :
  partial (here lock_writing p) (Link_State_record data ptr) (fun _ => here lock_writing p) C.
Proof.
  unfold Link_State_record, field. cbv zeta.
  apply partial_seq; [apply partial_field|intros k].
  apply partial_seq; [by apply partial_gets|intros own].
  destruct (decide _); [by apply partial_ret|].
  eapply partial_bind; [apply partial_hash_find_at|intros o].
  apply (partial_conseq _ (here lock_writing p) _ _ (fun _ => here lock_writing p));
    [|by intros s []|done].
  destruct o as [x|].
  - eapply partial_bind; [apply partial_timeout_lock|intros []].
    apply partial_seq; [apply partial_field|intros id].
    eapply partial_bind; [apply partial_peer|intros q].
    eapply partial_bind; [by apply partial_set_peer; [apply held_stable|]|intros []].
    apply partial_timeout_unlock.
  - apply partial_seq; [apply partial_field|intros addr].
    apply partial_seq; [apply partial_field|intros port].
    eapply partial_bind; [apply partial_connectbyaddr|intros o]. apply partial_pure. intros ->.
    apply partial_seq; [by apply partial_clock|intros now]. by apply partial_fail.
Qed.

Lemma partial_Link_State_records p data C n : forall ptr,
  partial (here lock_writing p) (Link_State_records n data ptr) (fun _ => here lock_writing p) C.
Proof.
  induction n as [|n IH]; intros ptr; [by apply partial_ret|].
  apply partial_seq; [apply partial_Link_State_record|intros _; apply IH].
Qed.

Lemma partial_Link_State p data C :
  partial (here lock_init p) (Link_State data) (fun _ => here lock_init p) C.
Proof.
  unfold Link_State, field. apply partial_seq; [apply partial_field|intros n]. cbv zeta.
  destruct (negb _); [by apply partial_fail|]. destruct (negb _); [by apply partial_ret|].
  apply partial_seq; [apply partial_field|intros k].
  apply partial_seq; [by apply partial_gets|intros own].
  destruct (decide _); [by apply partial_ret|].
  eapply partial_bind; [by apply (partial_writeBegin (fun l => here l p))|intros []].
  eapply partial_bind; [apply partial_hash_find_at|intros o].
  apply (partial_conseq _ (here lock_writing p) _ _ (fun _ => here lock_init p));
    [|by intros s []|done].
  apply partial_seq; [|intros _].
  { destruct o as [x|]; [by apply partial_ret|].
    apply partial_seq; [apply partial_field|intros addr].
    apply partial_seq; [apply partial_field|intros port].
    eapply partial_bind; [apply partial_connectbyaddr|intros o]. by apply partial_ret; intros s []. }
  apply partial_seq; [apply partial_Link_State_records|intros _].
  eapply partial_bind; [by apply (partial_writeEnd (fun l => here l p))|intros []].
  by apply partial_ret.
Qed.

(** ** The periodic broadcast *)

Lemma partial_put_origin (P C : world -> Prop) t : forall b,
  partial P (put_origin t b) (fun _ => P) C.
Proof.
  induction t as [|p t IH]; intros b; [by apply partial_ret|]. cbn [put_origin].
  apply partial_seq; [by apply partial_gets|intros ts].
  apply partial_seq; [by apply partial_gets|intros own].
  eapply partial_bind; [apply partial_peer|intros q].
  apply (partial_conseq _ P _ _ (fun _ => P)); [|by intros s []|done].
  apply partial_seq; [apply partial_put|intros b'; apply IH].
Qed.

Lemma partial_put_others (P C : world -> Prop) p t : forall b,
  partial P (put_others p t b) (fun _ => P) C.
Proof.
  induction t as [|x t IH]; intros b; [by apply partial_ret|]. cbn [put_others].
  destruct (decide _); [apply IH|].
  eapply partial_bind; [apply partial_timeout_lock|intros []].
  eapply partial_bind; [apply partial_peer|intros q].
  apply (partial_conseq _ (held P p) _ _ (fun _ => P)); [|by intros s []|done].
  eapply partial_bind; [apply partial_timeout_unlock|intros []].
  eapply partial_bind; [apply partial_peer|intros q'].
  apply (partial_conseq _ P _ _ (fun _ => P)); [|by intros s []|done].
  apply partial_seq; [apply partial_put|intros b'; apply IH].
Qed.

Lemma partial_put_neighbours (P C : world -> Prop) all t : forall b,
  partial P (put_neighbours all t b) (fun _ => P) C.
Proof.
  induction t as [|p t IH]; intros b; [by apply partial_ret|]. cbn [put_neighbours].
  eapply partial_bind; [apply partial_timeout_lock|intros []].
  eapply partial_bind; [apply partial_peer|intros q].
  apply (partial_conseq _ (held P p) _ _ (fun _ => P)); [|by intros s []|done].
  apply partial_seq; [apply partial_put|intros b'].
  eapply partial_bind; [apply partial_timeout_unlock|intros []].
  apply partial_seq; [by apply partial_gets|intros ts].
  apply partial_seq; [by apply partial_gets|intros own].
  eapply partial_bind; [apply partial_peer|intros q'].
  apply (partial_conseq _ P _ _ (fun _ => P)); [|by intros s []|done].
  apply partial_seq; [apply partial_put|intros b''].
  apply partial_seq; [apply partial_put_others|intros b3; apply IH].
Qed.

Lemma partial_build_packet (P C : world -> Prop) junk :
  partial P (build_packet junk) (fun _ => P) C.
Proof.
  unfold build_packet. apply partial_seq; [by apply partial_gets|intros n]. cbv zeta.
  do 2 (apply partial_seq; [apply partial_put|intros ?]).
  apply partial_seq; [by apply partial_gets|intros own].
  do 2 (apply partial_seq; [apply partial_put|intros ?]).
  apply partial_seq; [by apply partial_gets|intros t].
  apply partial_seq; [apply partial_put_origin|intros b].
  apply partial_seq; [apply partial_put_neighbours|intros b']. by apply partial_ret.
Qed.

Lemma broadcast_drop_run p q s :
  peers s !! p = Some q -> p ∈ hash_table s ->
  exists s', broadcast_drop p s = (Ret tt, s') /\ dropped p q s s'.
Proof.
  intros Hq Hin. unfold broadcast_drop. erewrite bind_ret_l by (by apply peer_live).
  erewrite bind_ret_l by (apply hash_del_member; [by exists q|done]).
  erewrite bind_ret_l by (by apply (close_peer_run p q)).
  do 2 (erewrite bind_ret_l by apply pthread_cancel_run).
  rewrite (free_peer_run p q) by done. solve_dropped.
Qed.

Lemma partial_broadcast_to packet lk p t C :
  partial (walking lk (p :: t)) (broadcast_to packet p) (fun _ => walking lk t) C.
Proof.
  unfold broadcast_to. apply partial_seq; [by apply partial_peer_write|intros size].
  destruct (size <? 0); [|by apply partial_ret, walking_cons].
  apply partial_drop. intros q s. apply broadcast_drop_run.
Qed.

Lemma partial_probe_link padding lk p t C :
  partial (walking lk (p :: t)) (probe_link padding p) (fun _ => walking lk t) C.
Proof.
  unfold probe_link. apply partial_seq; [by apply partial_clock|intros now].
  eapply partial_bind; [apply partial_peer|intros q].
  eapply partial_bind; [by apply partial_set_peer|intros []]. apply partial_broadcast_to.
Qed.

Lemma partial_Link_State_Broadcast padding junk C :
  partial serving (Link_State_Broadcast padding junk) (fun _ => serving) C.
Proof.
  unfold Link_State_Broadcast. apply partial_seq; [by apply partial_gets|intros c].
  apply partial_seq; [by apply partial_emit; [apply inv_quiet|]|intros _].
  apply partial_seq; [apply partial_clock, inv_quiet|intros now].
  apply partial_seq; [by apply partial_modify|intros _].
  apply partial_seq; [by apply partial_gets|intros t].
  destruct (decide _); [by apply partial_ret|].
  apply partial_seq; [apply partial_build_packet|intros packet].
  eapply partial_bind; [apply partial_hash_iter; intros; apply partial_broadcast_to|intros []].
  apply partial_hash_iter. intros. apply partial_probe_link.
Qed.

(** ** The step relation *)

Definition set_self (x : Z) (s : world) : world :=
  World (io s) (locks s) (hash_table s) (peers s) (linkState s) (timestamp s)
    (config s) (rio_tap s) (tap_tid s) (next_tid s) (cancelled s) x.

(** A pass is over when it returns or when its thread is cancelled. *)
Definition ended {A} (o : outcome A) : Prop :=
  match o with Ret _ | Cancelled => True | _ => False end.

(** One step of the program: a pass of a thread, a change of the environment, or
    a switch to another thread.  What [malloc] returns, what the packet buffers
    hold before and the descriptor of the server are arbitrary.  The threads of
    a member run under the identifiers the member has for them; a timer that
    returns is finished.  The environment cannot undo what has happened. *)
Inductive pass : world -> world -> Prop :=
| pass_accept junk l s s' : accept_connection junk l s = (Ret tt, s') -> pass s s'
| pass_tap s s' : tap_iteration s = (Ret tt, s') -> pass s s'
| pass_eth p q padding junk mem o s s' :
    p ∈ hash_table s -> peers s !! p = Some q -> self s = p_tid q ->
    eth_iteration Link_State padding junk p mem s = (o, s') -> ended o -> pass s s'
| pass_timer p q o s s' :
    p ∈ hash_table s -> peers s !! p = Some q -> self s = p_timeout_tid q ->
    timeout_handler p s = (o, s') -> ended o -> pass s (finish s')
| pass_broadcast padding junk s s' :
    Link_State_Broadcast padding junk s = (Ret tt, s') -> pass s s'
| pass_environment e s : trace e = trace (io s) -> pass s (set_io e s)
| pass_switch t s : pass s (set_self t s).

Lemma partial_ended {A} (P Q : world -> Prop) (m : M world A) s o s' :
  partial P m (fun _ => Q) Q -> P s -> m s = (o, s') -> ended o -> Q s'.
Proof. intros T Hs E Ho. specialize (T s Hs). rewrite E in T. by destruct o. Qed.

Lemma serving_timing p q s :
  serving s -> p ∈ hash_table s -> peers s !! p = Some q -> self s = p_timeout_tid q ->
  timing p s.
Proof.
  intros S Hp Hq E. split; [by apply serving_member|]. rewrite E. split; [|intros q'; congruence].
  apply (threads_of_member s p q); [|done..]. apply S.
Qed.

Lemma pass_serving s s' : pass s s' -> serving s -> serving s'.
Proof.
  intros [junk l ? ? R|? ? R|p q padding junk mem o ? ? Hp Hq Ht R Ho|p q o ? ? Hp Hq Ht R Ho
         |padding junk ? ? R|e ? E|t ?] S; [| | | | | |done].
  - eapply partial_ended; [apply partial_of_safe, safe_accept_connection|done|exact R|done].
  - eapply partial_ended; [apply partial_tap_iteration|done|exact R|done].
  - eapply partial_ended; [|by apply serving_here|exact R|done].
    eapply (partial_conseq _ (here lock_init p) _ _ (fun _ => here lock_init p));
      [|done|by intros mem' s1 []].
    apply partial_eth_iteration. intros data. apply partial_Link_State.
  - apply (partial_ended (timing p) (fun s => serving (finish s)) _ _ _ _
      (partial_timeout_handler p _) (serving_timing p q _ S Hp Hq Ht) R Ho).
  - eapply partial_ended; [apply partial_Link_State_Broadcast|done|exact R|done].
  - apply inv_io; [by apply started_same|done].
Qed.

Lemma passes_serving s s' : rtc pass s s' -> serving s -> serving s'.
Proof. induction 1 as [s|s s1 s' Hp R IH]; [done|]. intros S. by apply IH, (pass_serving s). Qed.

End System.

(** ** Properties *)

(** C7: The invariant of the running program.  Every state that any sequence of
    passes of the threads reaches from a serving one is serving: the addresses
    in the table are those of distinct live peers, the lock and the mutexes of
    the members are free, and the buffers of the members and of the tap device
    are in order.  This holds for whatever packets the members send and however
    the system calls fail; connections come and members go in between. *)
Theorem passes_keep_serving `{ABI} s s' : serving s -> rtc pass s s' -> serving s'.
Proof. intros S R. by eapply passes_serving. Qed.

(** C9: No thread outlives its peer.  In every state that passes reach from a
    serving one, a thread that was started for a peer and is neither cancelled
    nor finished has its peer: the structure it was given is allocated and
    names it.  The members have two threads each, all distinct, and none of them
    is cancelled: a member is read from, and timed, until it leaves. *)
Theorem no_thread_outlives_its_peer `{ABI} s s' :
  serving s -> rtc pass s s' ->
  (forall f p t, (f, p, t) ∈ started (io s') -> (t ∉ cancelled s') ->
     exists q, peers s' !! p = Some q /\ thread_of f q = t) /\
  NoDup (member_tids (peers s') (hash_table s')) /\
  (forall p q, p ∈ hash_table s' -> peers s' !! p = Some q ->
     (p_tid q ∉ cancelled s') /\ (p_timeout_tid q ∉ cancelled s')).
Proof.
  intros S R. destruct (passes_serving s s' R S) as (_ & _ & _ & _ & Run & A). split; [|split].
  - intros f p t Ht Hn. by destruct (A f p t Ht).
  - apply Run.
  - intros p q. by apply threads_of_member.
Qed.

(** ** Witness *)

#[local] Instance example_system_abi : ABI := LP64.

Lemma example_serving : serving example_world.
Proof.
  split; [exact example_world_ok|]. split; [done|]. split; [apply fresh_rio_wf|]. split; [|split].
  - intros p q Hp. apply list_elem_of_In in Hp. cbn in Hp.
    destruct Hp as [<-|[<-|[]]]; intros [= <-]; (split; [apply example_rio_wf|done]).
  - split; [by apply (bool_decide_unpack _); vm_compute|]. split; [|by intros t ?%elem_of_nil].
    intros t Ht. split; [|apply not_elem_of_nil].
    assert (Forall (fun t => t < next_tid example_world)
      (member_tids (peers example_world) (hash_table example_world))) as F
      by (by repeat constructor).
    rewrite Forall_forall in F. by apply F.
  - by intros f p t ?%elem_of_nil.
Qed.

(** The answers of [e] for what follows the events of [e0]. *)
Definition go_on (e0 e : env) : env :=
  Env (errno e) (polls e) (setlks e) (reads e) (writes e) (results e) (clocks e) (addrs e)
    (waits e) (input e) (trace e0).

(** A frame is broadcast; then member [1] sends a packet of an unknown type, is
    removed, and its reader is cancelled. *)
Definition after_frame : world := (tap_iteration (tap_world (example_frame BROADCAST_ADDR))).2.
Definition before_packet : world :=
  set_self 51 (set_io (go_on (io after_frame)
    (io (reader_world 51 (packet_bytes 7 [Init.Byte.x01])))) after_frame).
Definition after_packet : world :=
  (eth_iteration Link_State [] zeros 1%positive [] before_packet).2.

Lemma passes_keep_serving_witness :
  serving after_packet /\ hash_table after_packet = [2%positive].
Proof.
  split; [|by vm_compute]. apply (passes_keep_serving example_world); [exact example_serving|].
  eapply rtc_l; [by apply (pass_environment (io (tap_world (example_frame BROADCAST_ADDR))))|].
  eapply rtc_l; [apply (pass_tap _ after_frame); vm_compute; reflexivity|].
  eapply rtc_l; [apply (pass_environment (go_on (io after_frame)
    (io (reader_world 51 (packet_bytes 7 [Init.Byte.x01]))))); reflexivity|].
  eapply rtc_l; [apply (pass_switch 51)|]. fold before_packet.
  eapply rtc_l; [|apply rtc_refl].
  apply (pass_eth 1%positive (example_peer 5 Init.Byte.x01) [] zeros [] Cancelled);
    [by vm_compute; left|by vm_compute|by vm_compute| |done].
  vm_compute. reflexivity.
Defined.

(** A proxy connects and says nothing; it becomes a member with two threads. *)
Definition before_accept : world :=
  set_io (set_results [9; 0; 0] (io example_world)) example_world.
Definition after_accept : world := (accept_connection [] 3 before_accept).2.

Lemma no_thread_outlives_its_peer_witness :
  started (io after_accept) = [(Timeout_handler, 5%positive, 100); (Eth_handler, 5%positive, 101)]
  /\ exists q, peers after_accept !! 5%positive = Some q /\ p_tid q = 101.
Proof.
  split; [by vm_compute|].
  destruct (no_thread_outlives_its_peer example_world after_accept example_serving) as [T _].
  - eapply rtc_l; [by apply (pass_environment (io before_accept))|].
    eapply rtc_l; [|apply rtc_refl]. apply (pass_accept [] 3). vm_compute. reflexivity.
  - apply (T Eth_handler); [vm_compute; right; left|vm_compute; by intros ?%elem_of_nil].
Defined.
