(* ===== verification/Serial.v ===== *)
(** * The sections of the handlers, interleaved

    The threads of the proxy as programs of calls whose bodies are sections of
    the lock: [add_member], the removal by the timer, the forwarding of a frame
    by [tap_handler], the lookup of [Leave] and the count of the members for a
    join packet.  Every access in them is a step, so that the threads are
    interleaved inside of the loops too, and the result is that of the calls,
    as the other files define them, one after another. *)

From S2P Require Export Sections Races System.

(** ** Code that does not touch the lock *)

Class LockNeutral {A} (m : M world A) : Prop :=
  lock_neutral l s : m (set_locks l s) = ((m s).1, set_locks l (m s).2).

#[global] Instance neutral_ret {A} (a : A) : LockNeutral (ret a).
Proof. by intros l s. Qed.

#[global] Instance neutral_fail {A} (o : outcome A) : LockNeutral (fail o).
Proof. by intros l s. Qed.

#[global] Instance neutral_bind {A B} (m : M world A) (k : A -> M world B) :
  LockNeutral m -> (forall a, LockNeutral (k a)) -> LockNeutral (bind m k).
Proof.
  intros Hm Hk l s. unfold bind. rewrite (Hm l s). destruct (m s) as [[a| | | | |] s']; cbn; [|done..].
  apply Hk.
Qed.

#[global] Instance neutral_option {A B} (o : option A) (m : M world B) (k : A -> M world B) :
  LockNeutral m -> (forall a, LockNeutral (k a)) ->
  LockNeutral (match o with Some a => k a | None => m end).
Proof. by destruct o. Qed.

#[global] Instance neutral_io {A} (m : M env A) : LockNeutral (in_io m).
Proof. intros l s. unfold in_io, zoom. cbn. by destruct (m (io s)). Qed.

#[global] Instance neutral_peer p : LockNeutral (peer p).
Proof. intros l s. unfold peer. cbn. by destruct (peers s !! p). Qed.

#[global] Instance neutral_set_peer p q : LockNeutral (set_peer p q).
Proof. by intros l s. Qed.

#[global] Instance neutral_find k : LockNeutral (hash_find k).
Proof. intros l s. unfold hash_find. cbn. by destruct (find_key _ _ _). Qed.

#[global] Instance neutral_add p : LockNeutral (hash_add p).
Proof. by intros l s. Qed.

#[global] Instance neutral_table : LockNeutral (gets hash_table).
Proof. by intros l s. Qed.

#[global] Instance neutral_del p : LockNeutral (hash_del p).
Proof.
  apply neutral_bind; [apply _|]. intros _. apply neutral_bind; [apply _|]. intros t.
  destruct (decide (p ∈ t)); [by intros l s|]. destruct (decide (t = [])); [apply _|by intros l s].
Qed.

#[global] Instance neutral_create f p : LockNeutral (pthread_create f p).
Proof. by intros l s. Qed.

#[global] Instance neutral_cancel t : LockNeutral (pthread_cancel t).
Proof. by intros l s. Qed.

#[global] Instance neutral_close p : LockNeutral (close_peer p).
Proof. unfold close_peer. apply _. Qed.

#[global] Instance neutral_free p : LockNeutral (free_peer p).
Proof. intros l s. unfold free_peer, bind, peer. cbn. by destruct (peers s !! p). Qed.

#[global] Instance neutral_write p data : LockNeutral (peer_write p data).
Proof. unfold peer_write. apply _. Qed.

#[global] Instance neutral_tap_drop p : LockNeutral (tap_drop p).
Proof. unfold tap_drop. apply _. Qed.

(** With the lock free before, it is free after. *)
Lemma neutral_free_lock {A} (m : M world A) `{!LockNeutral m} s :
  locks s = lock_init -> locks (m s).2 = lock_init.
Proof.
  intros Hl. assert (set_locks lock_init s = s) as E by (destruct s; cbn in *; by rewrite Hl).
  rewrite <- E, lock_neutral. done.
Qed.

(** ** Code in steps *)

(** How far the sections have come, and the world; the calls of a thread that
    read the table leave their results with the thread.  After an exit, or code
    that is undefined, nothing more happens to the world; in a call that waits
    for the system for ever a thread stays where it is.  The lock of the
    world is kept free: the lock the threads compete for is the one of
    Sections. *)
Definition common : Type := outcome unit * world.

Inductive seen := SeenPeer (o : outcome (option loc)) | SeenCount (o : outcome Z).

(** What a step of a thread works on. *)
Definition reach : Type := common * list seen.

Definition act {A} (m : M world A) (k : A -> prog reach) : prog reach :=
  Act
    (fun x => match x with
     | ((Ret _, s), l) =>
         let '(o, s') := m s in
         ((match o with Ret _ | Starved | Blocked => Ret tt | _ => no_value o end, s'), l)
     | _ => x
     end)
    (fun x => match x with
     | ((Ret _, s), _) =>
         match m s with
         | (Ret a, _) => k a
         | (Starved, _) | (Blocked, _) => Halt
         | _ => Done
         end
     | _ => Done
     end).

(** [HASH_ITER] with a body in steps. *)
Fixpoint walk (body : loc -> prog reach -> prog reach) (t : list loc)
  : prog reach :=
  match t with
  | [] => Done
  | p :: t => body p (walk body t)
  end.

(** What a computation leaves, if it does not wait for ever. *)
Definition if_ended (d : common) (l : list seen) : option reach :=
  match d.1 with Starved | Blocked => None | _ => Some (d, l) end.

Lemma if_ended_Some d l d' l' :
  if_ended d l = Some (d', l') -> d = d' /\ l = l' /\ d.1 <> Starved.
Proof. destruct d as [[[]| | | | |] s]; try done; by intros [= <- <-]. Qed.

(** The code in steps has the effect of [m]. *)
Definition represents (c : prog reach) (m : M world unit) : Prop :=
  (forall s l, run_prog c ((Ret tt, s), l) = if_ended (m s) l)
  /\ (forall o s l, o <> Ret tt -> run_prog c ((o, s), l) = Some ((o, s), l))
  /\ LockNeutral m.

Lemma represents_done : represents Done (ret tt).
Proof. split; [done|]. split; [done|]. apply _. Qed.

Lemma represents_act {A} (m : M world A) k k' :
  LockNeutral m -> (forall a, represents (k a) (k' a)) -> represents (act m k) (bind m k').
Proof.
  intros Hm Hk. split; [|split].
  - intros s l. cbn. unfold bind. destruct (m s) as [[a| | | | |] s']; [|done..]. apply Hk.
  - intros [[]| | | | |] s l Ho; done.
  - apply neutral_bind; [done|]. intros a. apply Hk.
Qed.

Lemma represents_ext c m m' : (forall s, m s = m' s) -> represents c m -> represents c m'.
Proof.
  intros E (H1 & H2 & H3). split; [|split; [done|]].
  - intros s l. by rewrite H1, E.
  - intros l s. by rewrite <- !E.
Qed.

Lemma represents_walk body m t :
  (forall p c m', represents c m' -> represents (body p c) (m p ;;; m')) ->
  represents (walk body t) (iter m t).
Proof. intros H. induction t as [|p t IH]; cbn; [apply represents_done|by apply H]. Qed.

(** ** The calls *)

Section Calls.
Context `{ABI}.

#[local] Instance neutral_find_at mem off : LockNeutral (hash_find_at mem off).
Proof using Type.
  apply neutral_bind; [apply _|]. intros [|p t]; [apply _|]. apply neutral_bind; [|apply _].
  intros l s. by destruct (load c_mac mem off).
Qed.

Inductive call :=
| AddMember (p : loc)
| Expire (p : loc)
| Forward (frame : bytes)
| FindSender (packet : bytes)
| CountMembers.

Definition call_kind (c : call) : access :=
  match c with AddMember _ | Expire _ | Forward _ => Writes | _ => Reads end.

(** The functions called. *)
Definition write_call (c : call) : M world unit :=
  match c with
  | AddMember p => add_member p
  | Expire p => timeout_remove p
  | Forward frame => tap_dispatch frame
  | _ => ret tt
  end.

(** The lookup of [Leave] (proxy.c, 312-315) and the count of the members (222-224). *)
Definition find_sender (packet : bytes) : M world (option loc) :=
  readBegin ;;; let* pp := hash_find_at packet tapMAC_offset in readEnd ;;; ret pp.

Definition read_call (c : call) (s : world) : list seen :=
  match c with
  | FindSender packet => [SeenPeer (find_sender packet s).1]
  | CountMembers => [SeenCount (count_neighbors s).1]
  | _ => []
  end.

(** The effect of a call that is made alone, with the lock free, if it ends. *)
Definition call_alone (c : call) (x : reach) : option reach :=
  match x with
  | ((Ret _, s), l) =>
      let s0 := set_locks lock_init s in
      match call_kind c with
      | Writes => let '(o, s') := write_call c s0 in if_ended (o, set_locks (locks s) s') l
      | Reads => Some ((Ret tt, s), l ++ read_call c s0)
      end
  | _ => Some x
  end.

(** The sections in steps. *)
Definition add_member_steps (p : loc) : prog reach :=
  act (peer p) (fun q =>
  act (hash_find (tapMAC (p_ls q))) (fun tmp =>
  act (match tmp with None => hash_add p | Some _ => ret tt end) (fun _ =>
  act (in_io clock_gettime) (fun now =>
  act (peer p) (fun q =>
  act (set_peer p (with_timeout_mutex false (with_timestamp now q))) (fun _ =>
  act (pthread_create Timeout_handler p) (fun timeout_tid =>
  act (pthread_create Eth_handler p) (fun tid =>
  act (peer p) (fun q =>
  act (set_peer p (with_tids timeout_tid tid q)) (fun _ => Done)))))))))).

Definition expire_steps (p : loc) : prog reach :=
  act (hash_del p) (fun _ =>
  act (close_peer p) (fun _ =>
  act (peer p) (fun q =>
  act (pthread_cancel (p_tid q)) (fun _ =>
  act (free_peer p) (fun _ => Done))))).

Definition forward_steps (packet : bytes) (pp : loc) (c : prog reach)
  : prog reach :=
  act (peer_write pp packet) (fun size =>
  if size <=? 0 then
    act (peer pp) (fun q =>
    act (pthread_cancel (p_timeout_tid q)) (fun _ =>
    act (hash_del pp) (fun _ =>
    act (close_peer pp) (fun _ =>
    act (pthread_cancel (p_tid q)) (fun _ =>
    act (free_peer pp) (fun _ => c))))))
  else c).

Definition dispatch_steps (frame : bytes) : prog reach :=
  if decide (destination frame = BROADCAST_ADDR)
  then act (gets hash_table) (walk (forward_steps (data_packet frame)))
  else act (fun s => deref (find_key (peers s) (hash_table s) (unicast_key frame)) s) (fun pp =>
    match pp with
    | Some pp => forward_steps (data_packet frame) pp Done
    | None => Done
    end).

(** A step that reads. *)
Definition look (f : world -> seen) : prog reach :=
  Act (fun x => match x with ((Ret _, s), l) => (x.1, l ++ [f s]) | _ => x end) (fun _ => Done).

Definition call_steps (c : call) : prog reach :=
  match c with
  | AddMember p => add_member_steps p
  | Expire p => expire_steps p
  | Forward frame => dispatch_steps frame
  | FindSender packet => look (fun s => SeenPeer (hash_find_at packet tapMAC_offset s).1)
  | CountMembers => look (fun s => SeenCount (Ret (htons (Z.of_nat (length (hash_table s))))))
  end.

(** ** The steps have the effect of the calls *)

(** A write section around a body. *)
Definition section_of (m body : M world unit) : Prop :=
  forall s, m s = (writeBegin ;;; body ;;; writeEnd) s.

Lemma section_alone m body s :
  LockNeutral body -> section_of m body ->
  let '(o, s') := m (set_locks lock_init s) in (o, set_locks (locks s) s') = body s.
Proof using Type.
  intros Hn ->. erewrite bind_ret_l by (by apply writeBegin_free).
  change (set_locks lock_writing (set_locks lock_init s)) with (set_locks lock_writing s).
  unfold bind at 1. rewrite (lock_neutral lock_writing s).
  assert (set_locks (locks s) (body s).2 = (body s).2) as E.
  { assert (set_locks (locks s) s = s) as Es by (by destruct s).
    rewrite <- Es at 2 3. by rewrite (lock_neutral (locks s) s). }
  destruct (body s) as [[[]| | | | |] s1]; cbn [fst snd] in *; [|by rewrite <- E at 2..].
  rewrite writeEnd_writing by done. by rewrite <- E at 2.
Qed.

(** Bring a sequence that follows another one behind its last operation. *)
Ltac reassoc := repeat (rewrite bind_assoc; apply bind_ext; intros ? ?).

(** Match the steps of a section with the operations of its code. *)
Ltac represent :=
  repeat (apply represents_act; [apply _|intros ?]); try apply represents_done.

Definition add_member_body (p : loc) : M world unit :=
  let* q := peer p in
  let* tmp := hash_find (tapMAC (p_ls q)) in
  match tmp with None => hash_add p | Some _ => ret tt end ;;;
  let* now := in_io clock_gettime in
  let* q := peer p in
  set_peer p (with_timeout_mutex false (with_timestamp now q)) ;;;
  let* timeout_tid := pthread_create Timeout_handler p in
  let* tid := pthread_create Eth_handler p in
  let* q := peer p in
  set_peer p (with_tids timeout_tid tid q) ;;;
  ret tt.

Lemma add_member_section p : section_of (add_member p) (add_member_body p).
Proof using Type.
  intros s. unfold add_member, add_member_body. apply bind_ext. intros _ s1. symmetry. by reassoc.
Qed.

Lemma add_member_represents p : represents (add_member_steps p) (add_member_body p).
Proof using Type.
  unfold add_member_steps, add_member_body. represent.
Qed.

Definition expire_body (p : loc) : M world unit :=
  hash_del p ;;; close_peer p ;;;
  let* q := peer p in pthread_cancel (p_tid q) ;;; free_peer p ;;; ret tt.

Lemma expire_section p : section_of (timeout_remove p) (expire_body p).
Proof using Type.
  intros s. unfold timeout_remove, expire_body. apply bind_ext. intros _ s1. symmetry. by reassoc.
Qed.

Lemma expire_represents p : represents (expire_steps p) (expire_body p).
Proof using Type. unfold expire_steps, expire_body. represent. Qed.

Lemma forward_represents packet p c m :
  represents c m -> represents (forward_steps packet p c) (tap_forward packet p ;;; m).
Proof using Type.
  intros Hc. eapply represents_ext.
  { intros s. unfold tap_forward. symmetry. apply bind_assoc. }
  unfold forward_steps. apply represents_act; [apply _|]. intros size.
  destruct (size <=? 0); [|by apply (represents_ext _ m)].
  apply (represents_ext _ (let* q := peer p in
    pthread_cancel (p_timeout_tid q) ;;; hash_del p ;;; close_peer p ;;;
    pthread_cancel (p_tid q) ;;; free_peer p ;;; m)).
  - intros s. unfold tap_drop. symmetry. by reassoc.
  - repeat (apply represents_act; [apply _|intros ?]). done.
Qed.

Definition dispatch_body (frame : bytes) : M world unit :=
  if decide (destination frame = BROADCAST_ADDR)
  then hash_iter (tap_forward (data_packet frame))
  else
    let* pp := (fun s => deref (find_key (peers s) (hash_table s) (unicast_key frame)) s) in
    match pp with
    | Some pp => tap_forward (data_packet frame) pp ;;; ret tt
    | None => ret tt
    end.

Lemma dispatch_section frame : section_of (tap_dispatch frame) (dispatch_body frame).
Proof using Type.
  intros s. unfold tap_dispatch, dispatch_body. apply bind_ext. intros _ s1.
  apply bind_ext_l. destruct (decide _); [done|]. apply bind_ext. intros [p|] s2; [|done].
  unfold bind, ret. by destruct (tap_forward _ p s2) as [[[]| | | | |] s3].
Qed.

Lemma dispatch_represents frame : represents (dispatch_steps frame) (dispatch_body frame).
Proof using Type.
  unfold dispatch_steps, dispatch_body, hash_iter. destruct (decide _).
  - apply represents_act; [apply _|]. intros t. apply represents_walk. apply forward_represents.
  - apply represents_act.
    { intros l s. cbn. by destruct (find_key _ _ _). }
    intros [p|]; [|apply represents_done]. apply forward_represents, represents_done.
Qed.

Lemma write_represents c :
  call_kind c = Writes -> exists m, represents (call_steps c) m /\ section_of (write_call c) m.
Proof using Type.
  destruct c as [p|p|frame| |]; try done; intros _; eexists; split.
  - apply add_member_represents.
  - apply add_member_section.
  - apply expire_represents.
  - apply expire_section.
  - apply dispatch_represents.
  - apply dispatch_section.
Qed.

(** The read sections, made alone. *)
Lemma find_sender_alone packet s :
  (find_sender packet (set_locks lock_init s)).1 = (hash_find_at packet tapMAC_offset s).1.
Proof using Type.
  unfold find_sender. erewrite bind_ret_l by (by apply readBegin_free).
  change (set_locks _ (set_locks lock_init s))
    with (set_locks (LockState 1 0 false false false false true) s).
  unfold bind at 1. rewrite (lock_neutral _ s).
  destruct (hash_find_at packet tapMAC_offset s) as [[o| | | | |] s1]; done.
Qed.

Lemma count_alone s :
  (count_neighbors (set_locks lock_init s)).1 = Ret (htons (Z.of_nat (length (hash_table s)))).
Proof using Type.
  unfold count_neighbors. erewrite bind_ret_l by (by apply readBegin_free).
  unfold hash_count, bind at 1, gets.
  by erewrite bind_ret_l by (by apply readEnd_reading).
Qed.

Lemma call_steps_perform c x : run_prog (call_steps c) x = call_alone c x.
Proof using Type.
  destruct x as [[o s] l]. destruct (call_kind c) eqn:Ek.
  - destruct c; try done; cbn; destruct o as [[]| | | | |]; try done; unfold call_alone; cbn;
      by rewrite ?find_sender_alone, ?count_alone.
  - destruct (write_represents c Ek) as (m & (R1 & R2 & Hn) & Hs).
    unfold call_alone. destruct o as [[]| | | | |]; try by rewrite R2.
    rewrite R1, Ek. pose proof (section_alone (write_call c) m s Hn Hs) as E.
    destruct (write_call c (set_locks lock_init s)) as [o s']. by rewrite <- E.
Qed.

Lemma call_reads_keep c : call_kind c = Reads -> keeps_data (call_steps c).
Proof using Type. by destruct c; try done; intros _ [[[[]| | | | |] s] l]. Qed.

#[export] Instance call_sections : Sections call common (list seen) := {|
  kind := call_kind;
  steps_of := call_steps;
  perform := call_alone;
  steps_perform := call_steps_perform;
  reads_keep := call_reads_keep
|}.

(** ** New peers *)

(** The peers at [A] are ready to join: they are not in the table, and no thread
    runs for them. *)
Definition apart (A : list loc) (s : world) : Prop :=
  forall p, p ∈ A -> (p ∉ hash_table s)
    /\ (exists q, peers s !! p = Some q /\ member_ok q)
    /\ forall f t, (f, p, t) ∈ started (io s) -> t ∈ cancelled s.

Lemma apart_io A e s : started e = started (io s) -> apart A s -> apart A (set_io e s).
Proof using Type. intros E Ha p Hp. cbn. rewrite E. by apply Ha. Qed.

Lemma apart_dropped A p q s s' :
  apart A s -> p ∈ hash_table s -> dropped p q s s' -> apart A s'.
Proof using Type.
  intros Ha Hp (Et & Ep & _ & _ & _ & Es & Ec) p' Hp'.
  destruct (Ha p' Hp') as (Hn & (q' & Hq & Hm) & Hold).
  assert (p' <> p) as Hne by (by intros ->). rewrite Et, Ep, Es. split; [|split].
  - intros [_ Hx]%list_elem_of_filter. done.
  - exists q'. by rewrite lookup_delete_ne.
  - intros f t Hx. apply Ec. right. right. by eapply Hold.
Qed.

Lemma apart_joined A p q now l t s :
  apart A s -> p ∉ A -> (t = hash_table s \/ t = hash_table s ++ [p]) ->
  apart A (joined p q now l t s).
Proof using Type.
  intros Ha Hp Ht p' Hp'. destruct (Ha p' Hp') as (Hn & (q' & Hq & Hm) & Hold).
  assert (p' <> p) as Hne by (by intros ->). cbn [joined hash_table peers io cancelled]. split; [|split].
  - destruct Ht as [->| ->]; [done|]. by intros [?|?%list_elem_of_singleton]%elem_of_app.
  - exists q'. by rewrite lookup_insert_ne.
  - intros f x. rewrite !started_log. cbn [is_start].
    intros [[Hx|Hx%list_elem_of_singleton]%elem_of_app|Hx%list_elem_of_singleton]%elem_of_app;
      [by eapply Hold|congruence|congruence].
Qed.

(** The invariant of the handlers, with the peers at [A] ready to join. *)
Definition expecting (A : list loc) (lk : lock_state) (s : world) : Prop := inv lk s /\ apart A s.

Lemma expecting_quiet A lk : quiet (expecting A lk).
Proof using Type.
  intros e s E [I Ha]. split; [by apply inv_quiet|by apply apart_io].
Qed.

(** A walk over the table, the elements of [t] to come. *)
Definition expecting_walk (A : list loc) (lk : lock_state) (t : list loc) (s : world) : Prop :=
  expecting A lk s /\ NoDup t /\ forall x, x ∈ t -> x ∈ hash_table s.

Lemma safe_forward packet A lk p t :
  safe (expecting_walk A lk (p :: t)) (tap_forward packet p) (fun _ => expecting_walk A lk t).
Proof using Type.
  assert (forall s, expecting_walk A lk (p :: t) s -> p ∈ hash_table s) as Hin.
  { intros s (_ & _ & Ht). apply Ht, list_elem_of_here. }
  assert (forall s, expecting_walk A lk (p :: t) s -> is_Some (peers s !! p)) as Hlive.
  { intros s W. destruct (proj1 (proj1 W)) as [Ok _]. by apply Ok, Hin. }
  eapply safe_seq.
  - apply safe_peer_write_any; [done|]. intros e s E (Ex & Nd & Ht).
    split; [by apply expecting_quiet|]. by split.
  - intros v. destruct (v <=? 0).
    + apply safe_run. intros s W. destruct (Hlive s W) as [q Hq].
      destruct (tap_drop_run p q s Hq (Hin s W)) as (s' & R & D). exists tt, s'. split; [done|].
      destruct W as ((I & Ha) & Nd & Ht).
      destruct (walking_dropped lk p q t s s') as (I' & Nd' & Ht'); [by split|done|done|].
      split; [|by split]. split; [done|]. eapply apart_dropped; [done| |done].
      apply Ht, list_elem_of_here.
    + apply safe_ret. intros s (Ex & Nd & Ht). apply NoDup_cons in Nd as [_ Nd].
      split; [done|]. split; [done|]. intros x Hx. by apply Ht, list_elem_of_further.
Qed.

Lemma safe_forward_all packet A lk t :
  safe (expecting_walk A lk t) (iter (tap_forward packet) t) (fun _ => expecting A lk).
Proof using Type.
  induction t as [|p t IH]; cbn [iter]; [by apply safe_ret; intros s W; apply W|].
  eapply safe_bind; [apply safe_forward|]. intros u. apply IH.
Qed.

Lemma safe_dispatch A frame :
  safe (expecting A lock_init) (tap_dispatch frame) (fun _ => expecting A lock_init).
Proof using Type.
  unfold tap_dispatch. eapply (safe_bind _ _ _ (fun _ => expecting A lock_writing)).
  { apply safe_run. intros s [I Ha]. eexists _, _. split; [by apply writeBegin_free, I|].
    by split; [eapply (proj2 inv_locked)|]. }
  intros u. eapply (safe_bind _ _ _ (fun _ => expecting A lock_writing)).
  2: { intros v. apply safe_run. intros s [I Ha]. eexists _, _.
    split; [by apply writeEnd_writing, I|]. by split; [eapply (proj2 inv_locked)|]. }
  destruct (decide _).
  - unfold hash_iter. eapply (safe_bind _ _ _ (fun t => expecting_walk A lock_writing t)).
    + apply safe_gets. intros s Ex. split; [done|]. split; [apply Ex|done].
    + intros t. apply safe_forward_all.
  - eapply (safe_bind _ _ _ (fun o s => expecting A lock_writing s /\
      match o with Some p => p ∈ hash_table s | None => True end)).
    + intros s Ex. pose proof (proj1 (proj1 Ex)) as Ok.
      by destruct (find_key_ok _ _ (unicast_key frame) Ok) as [(p & -> & Hp & _)|[-> _]].
    + intros [p|]; [|by apply safe_ret; intros s W; apply W].
      eapply safe_conseq; [apply (safe_forward _ A lock_writing p [])| |by intros ? s W; apply W].
      intros s [Ex Hp]. split; [done|]. split; [apply NoDup_singleton|].
      by intros x ->%list_elem_of_singleton.
Qed.

(** Forwarding returns or waits for the system. *)
Lemma dispatch_ends frame s :
  world_ok s -> locks s = lock_init ->
  (tap_dispatch frame s).1 = Starved \/ (tap_dispatch frame s).1 = Ret tt.
Proof using Type.
  intros Ok L. destruct (tap_dispatch frame s) as [o s'] eqn:Hrun. unfold tap_dispatch in Hrun.
  apply write_section_safe in Hrun as [->|(-> & _)]; [by left|by right|done|].
  intros s1 o1 s2 -> Hb. destruct (decide _) in Hb.
  - apply iter_tap_forward_safe in Hb; [done|done|apply Ok|done].
  - destruct (find_key_ok _ _ (unicast_key frame) Ok) as [(p & F & Hp & _)|[F _]];
      unfold bind in Hb; cbn in Hb; rewrite F in Hb; cbn in Hb.
    + apply tap_forward_safe in Hb as [->|(-> & W & Lk & R & T & _)]; [by left| |done|done].
      right. by repeat (split; [done|]).
    + injection Hb as <- <-. right. by repeat (split; [done|]).
Qed.

Lemma add_new_ends p s :
  joining lock_init p s ->
  (add_member p s).1 = Starved \/ (add_member p s).1 = Ret tt.
Proof using Type.
  intros (I & Hp & (q & Hq & Hm) & Hold). pose proof I as (Ok & L & _).
  destruct (clocks (io s)) as [|now l] eqn:Ck.
  - left. destruct (find_key_ok (peers s) (hash_table s) (tapMAC (p_ls q)) Ok)
      as [(x & F & _)|[F _]]; by eapply add_member_starved.
  - right. destruct (find_key_ok (peers s) (hash_table s) (tapMAC (p_ls q)) Ok)
      as [(p' & F & _)|[F Hnew]]; by erewrite add_member_run by eauto 10.
Qed.

Lemma safe_add_new A p :
  p ∉ A ->
  safe (expecting (p :: A) lock_init) (add_member p) (fun _ => expecting A lock_init).
Proof using Type.
  intros HpA s [I Ha]. destruct (Ha p (list_elem_of_here _ _)) as (Hn & (q & Hq & Hm) & Hold).
  assert (joining lock_init p s) as J by (split; [done|]; split; [done|]; split; [by exists q|done]).
  pose proof (safe_add_member p s J) as Hs. pose proof I as (Ok & L & _).
  destruct (clocks (io s)) as [|now l] eqn:Ck.
  { destruct (find_key_ok (peers s) (hash_table s) (tapMAC (p_ls q)) Ok) as [(x & F & _)|[F _]];
      pose proof (add_member_starved p q _ s L Hq Ck F) as E;
      destruct (add_member p s) as [o' s']; cbn in E; by subst. }
  assert (apart A s) as Ha' by (intros p' Hp'; by apply Ha, list_elem_of_further).
  destruct (find_key_ok (peers s) (hash_table s) (tapMAC (p_ls q)) Ok) as [(p' & F & _)|[F Hnew]];
    (erewrite add_member_run in Hs |- * by eauto 10); (split; [done|]).
  all: apply apart_joined; auto.
Qed.

(** ** Programs of calls *)

(** The peers that join. *)
Definition newcomers (cs : list call) : list loc :=
  omap (fun c => match c with AddMember p => Some p | _ => None end) cs.

(** The calls that are safe together: a leave packet is long enough, and no
    timer expires. *)
Definition call_sound (c : call) : Prop :=
  match c with
  | Expire _ => False
  | FindSender packet => (12 <= length packet)%nat
  | _ => True
  end.

(** A lookup that has gone well. *)
Definition seen_ok (v : seen) : Prop :=
  match v with SeenPeer (Ret _) | SeenCount (Ret _) => True | _ => False end.

Definition to_come (us : list (list seen * list call)) : list call := concat (map snd us).

Definition world_sound (A : list loc) (d : common) : Prop :=
  match d with
  | (Ret _, s) => expecting A lock_init s
  | _ => False
  end.

Definition serial_ok (y : serial_state call common (list seen)) : Prop :=
  NoDup (newcomers (to_come y.2)) /\ world_sound (newcomers (to_come y.2)) y.1
  /\ Forall (fun u => Forall seen_ok u.1 /\ Forall call_sound u.2) y.2.

Lemma newcomers_turn us : forall i l l' c cs,
  us !! i = Some (l, c :: cs) ->
  newcomers (to_come us) ≡ₚ newcomers [c] ++ newcomers (to_come (<[i := (l', cs)]> us)).
Proof using Type.
  unfold newcomers, to_come.
  induction us as [|u us IH]; intros [|i] l l' c cs Hi; simplify_eq/=.
  - by destruct c.
  - rewrite !omap_app, (IH i l l' c cs Hi). rewrite !(assoc_L (++)).
    apply Permutation_app_tail, Permutation_app_comm.
Qed.

Lemma expecting_subset A A' lk s :
  (forall p, p ∈ A' -> p ∈ A) -> expecting A lk s -> expecting A' lk s.
Proof using Type. intros Hsub [I Ha]. split; [done|]. intros p Hp. by apply Ha, Hsub. Qed.

Lemma find_sender_finds packet s :
  world_ok s -> (12 <= length packet)%nat ->
  exists o, (find_sender packet (set_locks lock_init s)).1 = Ret o.
Proof using Type.
  intros Ok Hlen. rewrite find_sender_alone.
  destruct (find_key_ok _ _ (mac_of_bytes (drop tapMAC_offset packet)) Ok)
    as [(p & F & _)|[F _]];
    (erewrite hash_find_at_run; [by eexists| |exact F]);
    apply load_total; unfold tapMAC_offset; cbn; unfold ETH_ALEN; lia.
Qed.

Lemma read_call_ok A c s :
  expecting A lock_init s -> call_sound c -> call_kind c = Reads ->
  Forall seen_ok (read_call c (set_locks lock_init s)).
Proof using Type.
  intros [[Ok _] _] Hc. destruct c as [| | |packet|]; try done; intros _; constructor; try constructor.
  cbn. by destruct (find_sender_finds packet s Ok Hc) as [o ->].
Qed.

Lemma write_call_ok c A s :
  expecting (newcomers [c] ++ A) lock_init s -> NoDup (newcomers [c] ++ A) -> call_sound c ->
  call_kind c = Writes ->
  let '(o, s') := write_call c (set_locks lock_init s) in
  o <> Starved -> world_sound A (o, set_locks (locks s) s').
Proof using Type.
  intros Ex Nd Hc Hk. assert (locks s = lock_init) as L by apply Ex.
  assert (set_locks lock_init s = s) as -> by (destruct s; cbn in *; by rewrite L).
  assert (safe (expecting (newcomers [c] ++ A) lock_init) (write_call c)
    (fun _ => expecting A lock_init)
    /\ ((write_call c s).1 = Starved \/ (write_call c s).1 = Ret tt)) as [Hs He].
  { destruct c as [p| |frame| |]; try done.
    - apply NoDup_cons in Nd as [Hp _]. split; [by apply safe_add_new|].
      apply add_new_ends. destruct Ex as [I Ha]. split; [done|].
      apply Ha, list_elem_of_here.
    - split; [apply safe_dispatch|]. apply dispatch_ends; [apply Ex|done]. }
  specialize (Hs s Ex). destruct (write_call c s) as [[[]| | | | |] s']; try (by destruct He); try done. cbn.
  intros _. rewrite L. destruct Hs as [I Ha].
  assert (set_locks lock_init s' = s') as -> by (destruct I as (_ & L' & _); destruct s'; cbn in *; by rewrite L').
  by split.
Qed.

Lemma turn_ok i y y' : turn i y = Some y' -> serial_ok y -> serial_ok y'.
Proof using Type.
  destruct y as [[o s] us]. unfold turn. cbn [fst snd].
  destruct (us !! i) as [[l [|c cs]]|] eqn:Hi; try done.
  destruct (perform c _) as [[d' l']|] eqn:Hp; [|done]. intros [= <-] (Nd & W & F).
  cbn [fst snd] in Nd, W, F.
  pose proof (newcomers_turn us i l l' c cs Hi) as P.
  set (us' := <[i := (l', cs)]> us) in *.
  rewrite P in Nd. pose proof Nd as (_ & _ & Nd')%NoDup_app.
  pose proof (Forall_lookup_1 _ _ _ _ F Hi) as [Hl [Hc Hcs]%Forall_cons].
  assert (world_sound (newcomers (to_come us')) d' /\ Forall seen_ok l') as [W' Hl'].
  { cbn in Hp. destruct o as [[]|e| | | |]; try done; cbn in Hp;
      [|injection Hp as <- <-; by split..].
    assert (expecting (newcomers [c] ++ newcomers (to_come us')) lock_init s) as Ex.
    { eapply expecting_subset; [|exact W]. intros p Hin. by rewrite P. }
    destruct (call_kind c) eqn:Ek.
    - injection Hp as <- <-. split.
      + eapply expecting_subset; [|exact Ex]. intros p Hin. apply elem_of_app. by right.
      + apply Forall_app. split; [done|]. by eapply read_call_ok.
    - pose proof (write_call_ok c (newcomers (to_come us')) s Ex Nd Hc Ek) as W'.
      destruct (write_call c (set_locks lock_init s)) as [o' s'].
      apply if_ended_Some in Hp as (<- & <- & Hne). split; [by apply W'|done]. }
  split; [done|]. split; [done|]. cbn [snd]. by apply Forall_insert.
Qed.

Lemma turns_ok order : forall y y', turns order y = Some y' -> serial_ok y -> serial_ok y'.
Proof using Type.
  induction order as [|i order IH]; intros y y'; cbn; [by intros [= <-]|].
  destruct (turn i y) as [y1|] eqn:Ht; [|done]. intros H1 Hy. eapply IH; [done|].
  by eapply turn_ok.
Qed.

Lemma programs_to_come (progs : list (list call)) : to_come (map (pair []) progs) = concat progs.
Proof using Type. unfold to_come. rewrite map_map. cbn. by rewrite map_id. Qed.

(** The threads before their first call, and their calls made in turn. *)
Definition calls_begin (progs : list (list call)) (s : world)
  : shared_state call common (list seen) :=
  begin_at (Ret tt, s) (map (pair []) progs).

Definition calls_serial (progs : list (list call)) (s : world)
  : serial_state call common (list seen) :=
  ((Ret tt, s), map (pair []) progs).

(** ** Properties *)

(** C8: Interleaved handlers.  Threads that forward frames, add peers, look up the
    senders of leave packets and count the members, from a state of the
    invariant and interleaved at every access: no interleaving is endless, and none
    gets stuck before every thread has made its calls, unless a thread waits for
    ever in a system call inside of its section, where it keeps the lock.  When
    every thread has made its calls, data and results are those of the calls
    made one at a time in some order that keeps the order of every thread, the
    invariant holds, and no lookup has met a peer that was freed.  While a thread is inside a read section the table it reads is well-formed. *)
Theorem interleaved_calls_safe progs s l x :
  serving s -> NoDup (newcomers (concat progs)) -> apart (newcomers (concat progs)) s ->
  Forall (Forall call_sound) progs ->
  interleaving l (calls_begin progs s) = Some x ->
  Acc later x
  /\ (finished x \/ halted x \/ exists x', later x' x)
  /\ (forall t, t ∈ pool x -> point t = Reading -> world_sound [] (shared_data x))
  /\ (finished x ->
        (exists order, turns order (calls_serial progs s) = Some (outcome_of x))
        /\ world_sound [] (shared_data x)
        /\ forall t, t ∈ pool x -> Forall seen_ok (local t)).
Proof using Type.
  intros Hs Nd Ha Hc Hl.
  destruct (sections_serialise _ _ _ _ Hl) as (Hacc & Hprog & _ & order & y & Ht & Hr & Hf).
  assert (serial_ok y) as (_ & W & F).
  { eapply turns_ok; [exact Ht|]. split; [|split]; cbn [fst snd]; rewrite ?programs_to_come.
    - done.
    - by split.
    - apply Forall_map. eapply Forall_impl; [exact Hc|]. intros p Hp. by split. }
  assert (world_sound [] y.1) as W'.
  { destruct y as [[[[]| | | | |] s'] us]; try done. cbn in W |- *.
    eapply expecting_subset; [|exact W]. by intros p ?%elem_of_nil. }
  split; [done|]. split; [done|]. split.
  - intros t Hin Hp. by rewrite (Hr t Hin Hp).
  - intros Hfin. specialize (Hf Hfin). subst y. split; [by exists order|]. split; [done|].
    intros t Hin. cbn in F. rewrite Forall_map in F.
    by apply (proj1 (Forall_forall _ _) F t).
Qed.
End Calls.

(** ** Witness

    Member [1] and member [2] get a frame, a new peer joins at [3], and the
    sender of a packet is looked up, all at the same time. *)

#[local] Instance example_serial_abi : ABI := LP64.

Definition example_programs : list (list call) :=
  [[Forward (example_frame BROADCAST_ADDR)]; [AddMember 3%positive; CountMembers];
   [FindSender (replicate 20 Init.Byte.x00); CountMembers]].

Definition example_calls : shared_state call common (list seen) :=
  calls_begin example_programs example_world.

Definition example_schedule : list nat := round_robin 500 0 3 example_calls.

(** Everybody gets through, and the new peer is behind the two members. *)
Lemma example_interleaved :
  exists x, interleaving example_schedule (calls_begin example_programs example_world) = Some x
    /\ is_finished x = true /\ (shared_data x).1 = Ret tt
    /\ hash_table (shared_data x).2 = [1%positive; 2%positive; 3%positive].
Proof. eexists. split; [vm_compute; reflexivity|]. split; [|split]; vm_compute; reflexivity. Qed.

Lemma example_newcomers : newcomers (concat example_programs) = [3%positive].
Proof. reflexivity. Qed.

Lemma example_apart : apart [3%positive] example_world.
Proof.
  intros p Hp. apply list_elem_of_singleton in Hp as ->.
  split; [by apply (bool_decide_unpack _); vm_compute|].
  split; [|by intros f t ?%elem_of_nil].
  exists (example_peer 7 Init.Byte.x03). split; [reflexivity|]. split; [apply example_rio_wf|done].
Qed.

Lemma example_sound : Forall (Forall call_sound) example_programs.
Proof. unfold example_programs. repeat constructor. Qed.

Lemma interleaved_calls_safe_witness :
  exists x : shared_state call common (list seen), is_finished x = true /\ serving (shared_data x).2
    /\ hash_table (shared_data x).2 = [1%positive; 2%positive; 3%positive].
Proof.
  destruct example_interleaved as (x & E & Hf & Ho & Ht). exists x.
  split; [exact Hf|]. split; [|exact Ht].
  destruct (interleaved_calls_safe example_programs example_world example_schedule x)
    as (_ & _ & _ & H).
  - exact example_serving.
  - rewrite example_newcomers. apply NoDup_singleton.
  - rewrite example_newcomers. exact example_apart.
  - exact example_sound.
  - exact E.
  - destruct (H (is_finished_true x Hf)) as (_ & W & _).
    destruct (shared_data x) as [o s']. cbn in Ho. subst o. apply W.
Defined.
